(* ===== verification/_CoqProject ===== *)
-Q . S2P
Prelude.v
Script.v
RustText.v
Wire.v
Maplet.v
Mailbox.v
Interface.v
BusSystem.v
Handles.v
QueueCommon.v
QueueTokio.v
QueueTokioHooks.v
QueueEmbassy.v
QueueEmbassyHooks.v
FtSchema.v
FtBus.v
FtSender.v
FtReceiver.v
FtMemoryStore.v
FtEndToEnd.v
FtLossless.v
FtSession.v
FtOnBus.v
FtNetwork.v
FtInstance.v
EchoBench.v
UnixWire.v
UnixServer.v
UnixSystem.v
UnixClient.v
IsoTpKernel.v
IsoTpDemux.v
NonLinux.v
SocketCan.v
PingPong.v
BenchNode.v
Stm32.v
