(* ===== verification/Prelude.v ===== *)
(** * Verification of thincan

    thincan is an application-layer message protocol for CAN nodes over ISO-TP
    ([src/thincan]), with a file-transfer bundle on top of it
    ([src/thincan-file-transfer]), a queue in front of an ISO-TP endpoint
    ([src/iso-tp/can-isotp-queue]) and adapters below it: the kernel's ISO-TP
    sockets ([src/iso-tp/linux-socketcan-iso-tp]), the kernel's CAN sockets, a
    microcontroller's CAN peripheral and a virtual CAN bus over Unix sockets
    ([src/embedded-can]); example programs and a benchmark show their use
    ([src/examples]).  This library translates that code to executable Rocq
    definitions, keeping its names, and proves the theorems that make it
    correct.

    ** How the parts fit

    A node owns one [Interface]: a transmit side with a buffer, a receive side
    with one mailbox per message type, and a watch per mailbox.  [send_capnp_to]
    encodes a value behind a two-byte id and gives the payload to the ISO-TP
    endpoint; the pump ([pump_ingest_once]) takes a payload from the endpoint
    and [ingest] puts it in the mailbox of its id and notifies; receivers wait
    on the watch and pop the oldest message of a sender that a predicate
    accepts.  The file transfer runs on top: the sender offers a file, sends a
    window of chunks and waits for acks; the receiver answers offers, writes
    chunks to a store, acknowledges and finally checks the SHA-256 digest.  The
    ISO-TP endpoint is a parameter of the interface; the queue's endpoints and
    the kernel's sockets are implementations, the latter with a demultiplexer
    that keeps one socket per peer.  Below ISO-TP, a CAN adapter sends and
    receives frames and installs filters: on the virtual bus a server thread
    forwards each frame to the clients whose filters accept it; SocketCAN and
    the STM32 peripherals do this with filters in the kernel and in hardware.

    ** Files

    - [Prelude]: Rust results with panics ([result], [let?], [let!]), the state
      and error monad [M], machine integers with their width, little-endian
      bytes, slices ([slice], [copy_at], [set_at]: [None] is the panic of the
      indexing operation), and the lemmas, hints and tactics all files use.
    - [Script]: calls that wait for other tasks, a peer or the system, as
      functions on a script of what these do; [stop] tells failing from being
      suspended and from running out of fuel; [returns_safely] and [ends] are
      the predicate transformers used to reason about such calls.
    - [RustText]: what the sources use of Rust's text functions ([trim],
      [strip_prefix], [parse], [from_str_radix], [to_string], UTF-8 decoding).
    - [Wire]: [decode_wire], [encode_capnp_into_buf], [Error], [ErrorKind]
      ([thincan/src/lib.rs]).  The trait [EncodeCapnp] is a class.
    - [Maplet]: what [maplet!] computes while compiling, and [slot_for_id].
    - [Mailbox]: [TypeMailbox] and [RxState] as arrays with the shift loop.
    - [Interface]: [Interface], the send functions, [ingest] and
      [pump_ingest_once], one call after the other.  The ISO-TP endpoint traits
      and the embassy watch are classes ([IsoTpEndpoint], [IsoTpRecvInto],
      [WatchOps]) with their documented laws, and each has a concrete instance.
    - [BusSystem]: any number of [ingest] and receive calls on one interface,
      interleaved at their awaits, as a step relation.
    - [Handles]: [bus_atlas!] and the four forms of [maplet!] with what the
      compiler rejects, unscoped and scoped bus handles, bundle instances and
      [Bundles::new], and the typed helpers of a received message.
    - [QueueCommon], [QueueTokio], [QueueEmbassy]: the actor that owns an ISO-TP
      node and the endpoints in front of it ([can-isotp-queue/src/common.rs],
      [tokio.rs], [embassy.rs]), each runtime as a system of interleaved calls
      with bounded channels, dropped calls and timeouts; the step relation is
      labelled with what the node did and who got what.  [ActorHooks] is a class.
    - [QueueTokioHooks], [QueueEmbassyHooks]: the same actors with every call of a
      hook and the clock they read; [embassy_time] is a class with the rounding
      of its conversions as a law.
    - [FtSchema]: message values, size bounds and all encoders and decoders of
      the file transfer ([lib.rs], [alloc_encode.rs], [heapless_encode.rs]);
      Cap'n Proto is the class [Capnp] with [CapnpLaws], and [FixedLayout] an
      instance.  The laws promise that messages within the default traversal
      limit of a reader (64 MiB) are built and read, and of longer ones only
      that none is read as another.
    - [FtBus]: the bus as one task of the file transfer sees it, with a log of
      what it sent, received and did to the store.
    - [FtSender], [FtReceiver]: [tokio_impl.rs], the sending and the receiving
      half; the receiver in both variants ([recv_file], [recv_file_no_alloc]).
      The file store is the class [AsyncFileStore], SHA-256 a class with the
      law of incremental hashing (a plain function for the sender).
    - [FtMemoryStore]: the receiver with the in-memory store of the benchmarks.
    - [FtEndToEnd]: a sender and a receiver joined by a network that may lose,
      delay, repeat and reorder what they send: what one side's log holds must
      come from the other side's.
    - [FtLossless]: the same two calls over a network that delivers in order,
      run to the end.
    - [FtSession]: the file transfer as a task of a node: its sends go through the
      transmit side and its receives through the mailboxes of [BusSystem], with
      timeouts and with other tasks interleaved ([DoodadCapnpExt], [Atlas]).
    - [FtOnBus]: from the payloads on the wire back to the logs of [FtEndToEnd].
    - [FtNetwork]: two such nodes and a network that moves payloads from the
      ISO-TP node of one to [ingest] of the other.
    - [FtInstance]: [FileTransferBundleInstance], the value an application holds,
      with its allocator of transfer ids, over histories of calls.
    - [EchoBench]: the two programs of the file-transfer benchmark
      ([bin/file-transfer-bench-a.rs], [-b.rs]), which send a file there and back.
    - [UnixWire], [UnixServer], [UnixClient]: frames and wire format, the bus
      thread with the reader and writer threads of a client, and the client
      ([frame.rs], [wire.rs], [server.rs], [client.rs]).  The identifier types
      of the [embedded_can] crate are a class.
    - [UnixSystem]: the whole of [server.rs] as a system of interleaved steps
      ([BusServer::start], [accept_loop], [handle_client], the threads,
      [shutdown]).
    - [IsoTpKernel], [IsoTpDemux]: [linux-socketcan-iso-tp/src/linux.rs]: options
      and their structs, opening a socket, the blocking endpoint
      [SocketCanIsoTp], its tokio wrapper, and [KernelUdsDemux]; system calls,
      clock and reactor are scripts, and a log keeps the calls.  [IsoTpDemux]
      holds the theorems about receiving and about the demultiplexer.
    - [NonLinux]: the stubs for other platforms ([non_linux.rs], twice).
    - [SocketCan]: [embedded-can-socketcan/src/linux.rs] and [tokio_impl.rs]: the
      four adapters as implementations of the frame traits; the sockets of the
      [socketcan] crate are the class [CanSocketOps] with [CanSocketLaws].
    - [PingPong]: [examples/thincan-example/src/main.rs]: the address parser, the
      Person values, the shared handles of the CAN device and the programs
      [listen] and [ping].  The ISO-TP demultiplexer is a script of what it
      delivers, Cap'n Proto text structs are the class [CapnpText].
    - [BenchNode]: [file_transfer_bench_common.rs]: the async CAN halves over two
      clients of the virtual bus (sliced sends, a forwarding thread and its
      channel), the node as an ISO-TP endpoint over the class [AppDemux], the
      ingress pump and connecting.
    - [Stm32]: [embedded-can-embassy-stm32/src]: the transmit and receive halves
      and the two filter configurations; the driver's filter values, banks and
      element lists are classes with laws.

    ** What the theorems show

    - Mailboxes: the arrays refine bounded lists under any sequence of pushes
      and pops, without an index out of range ([Mailbox.rx_run_refines],
      [Mailbox.mailbox_pop_oldest_match]); message sets are free of duplicates
      and [slot_for_id] is a bijection ([Maplet]); a handle a program can
      obtain has a mailbox for every message of its bundle
      ([Handles.handles_well_typed]).
    - Bus: a value sent and ingested is received byte for byte
      ([Interface.send_ingest_receive]); ingest and the pump are correct on
      every branch; under any interleaving and cancellation no wake-up is lost
      and a parked receiver gets its message ([BusSystem.no_lost_wakeup],
      [BusSystem.parked_receiver_delivers]).
    - Queue: a send returns the node's answer to its own request and both
      directions are first-in first-out ([QueueTokio.tokio_send_own_result],
      [QueueTokio.tokio_queue_fifo]); on embassy this holds as long as no send
      is dropped while it waits, and [QueueEmbassy.embassy_dropped_send_misreports]
      is a run where it fails after a drop.  Hooks observe the actor without
      changing it and are told exactly what it did
      ([QueueEmbassyHooks.embassy_hooks_observe], and
      [QueueTokioHooks.tokio_hooks_observe]).
    - Wire formats: round trips and bounds ([Wire], [UnixWire]), agreement of
      the three families of file-transfer encoders ([FtSchema]), and decoders
      that accept any bytes without panic.
    - File transfer: for every behaviour of the peer, the bus and the store,
      the receiver acknowledges only what it wrote, writes front to back,
      commits only content of the length and digest of the request it answered
      and closes its handles; the sender stays
      within its window and returns [Ok] only for a fully acknowledged file;
      the two receivers agree.  With the memory store, what is in memory after
      a successful receive is the announced file.
    - File transfer, both ends: whatever the network does short of altering
      messages, a receiver that returns [Ok] has committed the sender's file
      ([FtEndToEnd.file_arrives_intact]) and a sender that returns [Ok] for a
      non-empty file has had it committed ([FtEndToEnd.sender_ok_committed]; the
      sender of an empty file does not wait for the commit,
      [FtLossless.empty_file_ok_uncommitted]); when the network delivers, both
      return [Ok] ([FtLossless.lossless_transfer], for a non-empty file, positive
      window and chunk size and pieces within the reader's limit).  Transfers of
      one instance never share an id ([FtInstance.send_file_fresh_id]).  In a run
      of the echo benchmark over a bus that repeats and delays messages of all
      rounds, the responder receives only files of the initiator, and a round
      ends in a mismatch only through a transfer of another round
      ([EchoBench.echo_round], and [EchoBench.stale_offer_mismatch], such a run).
    - File transfer over the bus: the receive calls of a task refine a queue per
      message type and sender under any interleaving ([FtSession.session_fifo]);
      so the two ends may be joined through encoders, transmit buffers, ISO-TP
      nodes, [ingest], mailboxes and watches instead of logs: with other calls on
      both nodes, which send nothing under the transfer's id, and a network that
      loses, repeats, delays and reorders payloads, [Ok] of the receiver, and of
      the sender of a non-empty file, means that the file was committed
      ([FtNetwork.network_transfer_safe]), and where buffers and slots hold the
      messages every non-empty file has a run of the whole system in which both
      ends return [Ok] ([FtNetwork.network_transfer_live]).
    - Programs: the listener answers exactly the pings and [ping] reports
      exactly its pong ([PingPong.listen_answers], [PingPong.ping_outcome],
      [PingPong.ping_pong_meet]); the benchmark node's sends leave prefixes of
      messages under increasing sequence numbers and [Ok] means that the call has
      read the ack of the last one ([BenchNode.bench_send_outcome]), its receive path loses and reorders
      nothing ([BenchNode.bench_rx_fifo]), and its pump does to the mailboxes
      what the specification of [ingest] says ([BenchNode.pump_ingests]).
    - Kernel ISO-TP: [open] asks for the configured values and flags and leaks no
      socket ([IsoTpKernel.open_correct]); a send gives the payload to the kernel
      once and returns by its deadline, a receive takes one datagram and delivers it
      ([IsoTpKernel.isotp_send_once], [IsoTpDemux.isotp_recv_once]), and
      [recv_one_into] meets the contract the ingest pump relies on
      ([IsoTpDemux.tokio_recv_into_contract]); the demultiplexer keeps one
      socket per peer and attributes payloads to the right one
      ([IsoTpDemux.demux_invariant], [IsoTpDemux.demux_routes]).
    - CAN adapters: the blocking SocketCAN adapters leave the socket in the mode
      and with the timeout they found, also when an operation fails, unless the
      restoring call is what failed, and wait only where they may
      ([SocketCan.socketcan_outcomes]);
      the filters of SocketCAN, of bxCAN and of FDCAN accept exactly the frames
      that the virtual bus would deliver ([SocketCan.set_filters_agree],
      [Stm32.bx_set_filters_correct], [Stm32.fd_set_filters_correct]); the STM32
      receive half loses no frame ([Stm32.stm32_rx_fifo]).
    - Virtual bus: what each client gets is a function of the commands
      ([UnixServer.bus_loop_refines_views]); in any interleaving of the server's
      threads the sockets carry just that, and frames written by one client
      reach the others ([UnixSystem.bus_server_system],
      [UnixSystem.bus_server_delivers]); the client delivers the frames of
      its stream exactly once and in order whatever else it waits for, and
      delivers all of them when the socket does ([UnixClient.client_frames_fifo],
      [UnixClient.recv_all_frames]).

    ** Conventions, bounds and fuel

    [usize] is [nat]; the widths of the other integers are written where an
    operation can leave them (additions of [usize] lengths are taken not to
    reach 2^64, which no buffer does).  A panic is a value ([Panic]), and
    theorems state that it does not happen.  Loops over arrays recurse on the
    number of rounds the code makes.  Loops that wait (on mailboxes, acks,
    chunks or the socket) take fuel computed from the script: every round
    consumes an event of it or bytes that it brought, so the script's size is
    enough, and each theorem proves that [OutOfFuel] is not reached.  A script
    that ends leaves the call suspended ([Waiting]); scripts are arbitrary, so
    this covers every finite prefix of every behaviour.  Timers are part of
    the scripts: a timeout may strike at any wait.

    ** Not modelled

    Programs that only wait, measure or generate ([uds-server.rs],
    [benches/throughput.rs], [gen_test_capnp.rs], [build.rs]) and, in the
    modelled programs, printing, tracing and the floating-point throughput.
    Generated Cap'n Proto code ([person_capnp.rs] beyond the layout constants
    and the accessors in use, and the output of the build scripts).  The tests
    of the crates.  [Display] implementations, which return no value the code
    uses.  Constructors that only hand the same value on (the
    split of an embassy queue, accessors of an inner socket). *)
From stdpp Require Export base numbers option list.
From Stdlib Require Export ZArith Lia.

(** * Rust results, panics and the [?] operator *)

(** A Rust call that returns [Result<A, E>]: it returns [Ok] or [Err], or it
    panics (index or slice out of range, failed [copy_from_slice]). *)
Inductive result (A E : Type) : Type :=
| Ok (a : A)
| Err (e : E)
| Panic.
Arguments Ok {A E} a.
Arguments Err {A E} e.
Arguments Panic {A E}.

Definition map_err {A E E'} (f : E -> E') (r : result A E) : result A E' :=
  match r with Ok a => Ok a | Err e => Err (f e) | Panic => Panic end.

Definition map_ok {A B E} (f : A -> B) (r : result A E) : result B E :=
  match r with Ok a => Ok (f a) | Err e => Err e | Panic => Panic end.

(** [Option::ok_or]. *)
Definition ok_or {A E} (o : option A) (e : E) : result A E :=
  match o with Some a => Ok a | None => Err e end.

Declare Scope rust_scope.
Delimit Scope rust_scope with rust.

(** [let? x := e in k] is [let x = e?; k]; [let! x := e in k] runs an
    operation that has no error value but panics when it is [None]. *)
Notation "'let?' x ':=' r 'in' k" :=
  (match r with Ok x => k | Err e__ => Err e__ | Panic => Panic end)
  (at level 10, x pattern, r at level 100, k at level 200,
   format "'[v' 'let?'  x  ':='  r  'in' '/' k ']'") : rust_scope.
Notation "'let!' x ':=' o 'in' k" :=
  (match o with Some x => k | None => Panic end)
  (at level 10, x pattern, o at level 100, k at level 200,
   format "'[v' 'let!'  x  ':='  o  'in' '/' k ']'") : rust_scope.
Open Scope rust_scope.

(** * Stateful code *)

(** A method on [&mut S] that returns [Result<A, E>]: the state is kept on
    every exit, as a mutated receiver is in Rust. *)
Definition M (S E A : Type) : Type := S -> result A E * S.

Global Instance M_ret {S E} : MRet (M S E) := fun A a s => (Ok a, s).
Global Instance M_bind {S E} : MBind (M S E) := fun A B f m s =>
  match m s with
  | (Ok a, s') => f a s'
  | (Err e, s') => (Err e, s')
  | (Panic, s') => (Panic, s')
  end.

Section state_ops.
Context {S E : Type}.

Definition fail {A} (e : E) : M S E A := fun s => (Err e, s).
Definition get : M S E S := fun s => (Ok s, s).
Definition put (s' : S) : M S E unit := fun _ => (Ok tt, s').
Definition gets {A} (f : S -> A) : M S E A := fun s => (Ok (f s), s).
Definition modify (f : S -> S) : M S E unit := fun s => (Ok tt, f s).

(** Run a call that does not touch the state. *)
Definition lift {A} (r : result A E) : M S E A := fun s => (r, s).

(** Run an operation that panics when it is [None]. *)
Definition or_panic {A} (o : option A) : M S E A :=
  fun s => (match o with Some a => Ok a | None => Panic end, s).
End state_ops.

Lemma Ok_pair_inj {S E A} (a a' : A) (s s' : S) :
  (Ok a : result A E, s) = (Ok a', s') -> a = a' /\ s = s'.
Proof. by intros [= -> ->]. Qed.

(** Run a method of a field of the state: [get_f] reads the field and [set_f]
    writes it back, also when the method fails. *)
Definition on_field {S T E A} (get_f : S -> T) (set_f : T -> S -> S) (m : M T E A) : M S E A :=
  fun s => let '(r, t) := m (get_f s) in (r, set_f t s).

Definition catch {S E E' A} (f : E -> E') (m : M S E A) : M S E' A :=
  fun s => let '(r, s') := m s in (map_err f r, s').

(** * Machine integers *)

(** [u8], [u16], [u32] and [u64] are [Z], with the width written where an
    operation can leave it; [usize] lengths and indices are [nat]. *)
Abbreviation u8 := Z (only parsing).
Abbreviation u16 := Z (only parsing).
Abbreviation u32 := Z (only parsing).
Abbreviation u64 := Z (only parsing).
Abbreviation bytes := (list Z) (only parsing).

(** [core::time::Duration], in nanoseconds. *)
Abbreviation Duration := Z (only parsing).

Definition in_width (w : Z) (z : Z) : Prop := (0 <= z < 2 ^ w)%Z.
Definition wrap (w : Z) (z : Z) : Z := (z mod 2 ^ w)%Z.

Abbreviation is_u8 := (in_width 8).
Abbreviation is_u16 := (in_width 16).
Abbreviation is_u32 := (in_width 32).
Abbreviation is_u64 := (in_width 64).

Definition u32_max : Z := 4294967295%Z.
Definition u64_max : Z := 18446744073709551615%Z.

(** [u32::wrapping_add], [saturating_add], [saturating_sub], [saturating_mul]
    and [checked_add]. *)
Definition wrapping_add32 (a b : u32) : u32 := wrap 32 (a + b).
Definition wrapping_add64 (a b : u64) : u64 := wrap 64 (a + b).
Definition saturating_add32 (a b : u32) : u32 := Z.min (a + b) u32_max.
Definition saturating_sub32 (a b : u32) : u32 := Z.max (a - b) 0.
Definition saturating_mul32 (a b : u32) : u32 := Z.min (a * b) u32_max.
Definition checked_add32 (a b : u32) : option u32 :=
  if (a + b <=? u32_max)%Z then Some (a + b)%Z else None.

(** [u32::try_from(n)] on a [usize]. *)
Definition u32_try_from (n : nat) : option u32 :=
  if (Z.of_nat n <=? u32_max)%Z then Some (Z.of_nat n) else None.

(** [usize::div_ceil]. *)
Definition div_ceil (n d : nat) : nat := (n + d - 1) / d.

Lemma wrap_in_width w z : (0 <= w)%Z -> in_width w (wrap w z).
Proof. intros Hw. apply Z.mod_pos_bound, Z.pow_pos_nonneg; lia. Qed.

Lemma wrap_small w z : in_width w z -> wrap w z = z.
Proof. intros H. by apply Z.mod_small. Qed.

Lemma u32_try_from_Some n z :
  u32_try_from n = Some z <-> z = Z.of_nat n /\ (Z.of_nat n <= u32_max)%Z.
Proof.
  unfold u32_try_from. destruct (Z.leb_spec (Z.of_nat n) u32_max);
    split; [intros [= <-]; lia | intros [-> _]; done | done | lia].
Qed.

Lemma div_ceil_spec n d : 0 < d -> n <= d * div_ceil n d < n + d.
Proof.
  intros Hd. unfold div_ceil.
  pose proof (Nat.div_mod_eq (n + d - 1) d).
  pose proof (Nat.mod_upper_bound (n + d - 1) d). lia.
Qed.

Lemma div_ceil_le n d k : 0 < d -> div_ceil n d <= k <-> n <= d * k.
Proof. intros Hd. pose proof (div_ceil_spec n d Hd). split; intros; nia. Qed.

(** * Little-endian encodings *)

(** [to_le_bytes] of an [n]-byte integer and [from_le_bytes]. *)
Fixpoint to_le_bytes (n : nat) (z : Z) : bytes :=
  match n with
  | O => []
  | S n' => (z mod 256)%Z :: to_le_bytes n' (z / 256)%Z
  end.

Fixpoint from_le_bytes (l : bytes) : Z :=
  match l with
  | [] => 0%Z
  | b :: l' => (b + 256 * from_le_bytes l')%Z
  end.

Lemma length_to_le_bytes n z : length (to_le_bytes n z) = n.
Proof. revert z. induction n; naive_solver. Qed.

Lemma to_le_bytes_u8 n z : Forall is_u8 (to_le_bytes n z).
Proof.
  revert z. induction n as [|n IH]; intros z; constructor; [|apply IH].
  apply (Z.mod_pos_bound z 256). lia.
Qed.

Lemma from_to_le_bytes n z : from_le_bytes (to_le_bytes n z) = (z mod 256 ^ Z.of_nat n)%Z.
Proof.
  revert z. induction n as [|n IH]; intros z; cbn [to_le_bytes from_le_bytes].
  { by rewrite Z.mod_1_r. }
  rewrite IH, Nat2Z.inj_succ, Z.pow_succ_r by lia.
  rewrite Z.rem_mul_r by (try apply Z.pow_nonzero; lia). lia.
Qed.

Lemma from_to_le_bytes_small n z :
  in_width (8 * Z.of_nat n) z -> from_le_bytes (to_le_bytes n z) = z.
Proof.
  intros H. rewrite from_to_le_bytes. change 256%Z with (2 ^ 8)%Z.
  rewrite <- Z.pow_mul_r by lia. by apply Z.mod_small.
Qed.

Lemma from_le_bytes_bound l :
  Forall is_u8 l -> in_width (8 * Z.of_nat (length l)) (from_le_bytes l).
Proof.
  unfold in_width. induction 1 as [|b l Hb _ IH]; cbn [length from_le_bytes]; [by compute|].
  rewrite Nat2Z.inj_succ, Z.mul_succ_r, Z.pow_add_r by lia.
  change (2 ^ 8)%Z with 256%Z in *. lia.
Qed.

Lemma to_from_le_bytes l : Forall is_u8 l -> to_le_bytes (length l) (from_le_bytes l) = l.
Proof.
  unfold in_width. induction 1 as [|b l Hb _ IH]; cbn [length from_le_bytes to_le_bytes]; [done|].
  change (2 ^ 8)%Z with 256%Z in Hb. f_equal.
  - rewrite Z.mul_comm, Z_mod_plus_full. by apply Z.mod_small.
  - rewrite Z.mul_comm, Z_div_plus_full, (Z.div_small b 256) by lia. by rewrite Z.add_0_l.
Qed.

Arguments to_le_bytes : simpl never.
Arguments from_le_bytes : simpl never.

(** * Arrays, slices and [copy_from_slice] *)

(** [&l[a..b]]: panics unless [a <= b <= l.len()]. *)
Definition slice {A} (l : list A) (a b : nat) : option (list A) :=
  if decide (a <= b /\ b <= length l) then Some (take (b - a) (drop a l)) else None.

(** [l[i..i + src.len()].copy_from_slice(src)]. *)
Definition copy_at {A} (l : list A) (i : nat) (src : list A) : option (list A) :=
  if decide (i + length src <= length l)
  then Some (take i l ++ src ++ drop (i + length src) l) else None.

(** [l[i] = x]. *)
Definition set_at {A} (l : list A) (i : nat) (x : A) : option (list A) :=
  if decide (i < length l) then Some (<[i := x]> l) else None.

Section arrays.
Context {A : Type}.
Implicit Types (l src : list A) (i a b : nat).

Lemma slice_Some l a b :
  a <= b -> b <= length l -> slice l a b = Some (take (b - a) (drop a l)).
Proof. intros. unfold slice. by rewrite decide_True. Qed.

Lemma slice_to_Some l b : b <= length l -> slice l 0 b = Some (take b l).
Proof. intros. rewrite slice_Some by lia. by rewrite Nat.sub_0_r, drop_0. Qed.

Lemma slice_from_Some l a : a <= length l -> slice l a (length l) = Some (drop a l).
Proof. intros. rewrite slice_Some, take_ge by (rewrite ?length_drop; lia). done. Qed.

Lemma slice_app_mid l1 l2 l3 a b :
  a = length l1 -> b = length l1 + length l2 -> slice (l1 ++ l2 ++ l3) a b = Some l2.
Proof.
  intros -> ->. rewrite slice_Some by (rewrite ?length_app; lia).
  rewrite drop_app_length, Nat.add_comm, Nat.add_sub. by rewrite take_app_length.
Qed.

Lemma copy_at_Some l i src :
  i + length src <= length l ->
  copy_at l i src = Some (take i l ++ src ++ drop (i + length src) l).
Proof. intros. unfold copy_at. by rewrite decide_True. Qed.

Lemma copy_at_length l i src l' : copy_at l i src = Some l' -> length l' = length l.
Proof.
  unfold copy_at. case_decide; [|done]. intros [= <-].
  rewrite !length_app, length_take, length_drop. lia.
Qed.

Lemma copy_at_app l1 l2 l3 i src :
  i = length l1 -> length src = length l2 ->
  copy_at (l1 ++ l2 ++ l3) i src = Some (l1 ++ src ++ l3).
Proof.
  intros -> Hlen. rewrite copy_at_Some by (rewrite !length_app; lia).
  rewrite take_app_length, Hlen, drop_app, drop_ge by lia.
  rewrite (Nat.add_comm (length l1)), Nat.add_sub, drop_app_length. done.
Qed.

Lemma insert_app_here l1 (x y : A) l2 : <[length l1 := y]> (l1 ++ x :: l2) = l1 ++ y :: l2.
Proof. by rewrite insert_app_r_alt, Nat.sub_diag by lia. Qed.

Lemma lookup_app_here l1 (x : A) l2 : (l1 ++ x :: l2) !! length l1 = Some x.
Proof. by rewrite lookup_app_r, Nat.sub_diag by lia. Qed.

Lemma alter_as_insert (f : A -> A) l i x : l !! i = Some x -> alter f i l = <[i := f x]> l.
Proof.
  revert i. induction l as [|y l IH]; intros [|i] Hi; simplify_eq/=; [done|].
  f_equal. by apply IH.
Qed.

Lemma alter_out (f : A -> A) l i : l !! i = None -> alter f i l = l.
Proof.
  revert i. induction l as [|y l IH]; intros [|i] Hi; simplify_eq/=; [done..|].
  f_equal. by apply IH.
Qed.

Lemma elem_of_insert_inv l i (x y : A) : y ∈ <[i := x]> l -> y = x \/ y ∈ l.
Proof.
  intros (j & Hj)%list_elem_of_lookup. destruct (decide (i = j)) as [->|Hne].
  - destruct (decide (j < length l)) as [Hl|Hl].
    + rewrite list_lookup_insert_eq in Hj by done. naive_solver.
    + rewrite list_insert_ge in Hj by lia. apply lookup_lt_Some in Hj. lia.
  - rewrite list_lookup_insert_ne in Hj by done. right. by eapply list_elem_of_lookup_2.
Qed.

Lemma elem_of_insert_other l i (x y z : A) : l !! i = Some x -> y ∈ l -> y <> x -> y ∈ <[i := z]> l.
Proof.
  intros Hx (j & Hj)%list_elem_of_lookup Hne. apply list_elem_of_lookup. exists j.
  rewrite list_lookup_insert_ne; [done|]. intros ->. congruence.
Qed.

Lemma elem_of_insert_here l i (x z : A) : l !! i = Some x -> z ∈ <[i := z]> l.
Proof.
  intros Hx%lookup_lt_Some. apply list_elem_of_lookup. exists i. by apply list_lookup_insert_eq.
Qed.

Lemma set_at_Some l i (x : A) : i < length l -> set_at l i x = Some (<[i := x]> l).
Proof. intros. unfold set_at. by rewrite decide_True. Qed.
End arrays.

(** Reading and writing in a list given by its parts. *)
Lemma slice_skip {A} (l1 l2 : list A) a b :
  length l1 <= a -> a <= b -> slice (l1 ++ l2) a b = slice l2 (a - length l1) (b - length l1).
Proof.
  intros H Hab. unfold slice. rewrite length_app, drop_app_ge by done.
  destruct (decide _), (decide _); try lia; [|done]. do 2 f_equal. lia.
Qed.

Lemma slice_here {A} (l1 l2 : list A) n : n = length l1 -> slice (l1 ++ l2) 0 n = Some l1.
Proof. intros ->. rewrite slice_to_Some by (rewrite length_app; lia). by rewrite take_app_length. Qed.

(** Operations on a [&mut [A]] held as the state. *)
Section slice_ops.
Context {A E : Type}.

(** [buf[i..i + src.len()].copy_from_slice(src)]. *)
Definition copy_from_slice (i : nat) (src : list A) : M (list A) E unit :=
  buf ← get; buf' ← or_panic (copy_at buf i src); put buf'.

(** [buf[i] = x]. *)
Definition set_index (i : nat) (x : A) : M (list A) E unit :=
  buf ← get; buf' ← or_panic (set_at buf i x); put buf'.

(** Run [m] on the sub-slice [&mut buf[a..b]]. *)
Definition with_slice {B} (a b : nat) (m : M (list A) E B) : M (list A) E B := fun buf =>
  match slice buf a b with
  | None => (Panic, buf)
  | Some sub =>
      let '(r, sub') := m sub in
      match copy_at buf a sub' with
      | None => (Panic, buf)
      | Some buf' => (r, buf')
      end
  end.

(** [&buf[a..b]]. *)
Definition read_slice (a b : nat) : M (list A) E (list A) :=
  buf ← get; or_panic (slice buf a b).
End slice_ops.

Lemma bind_ok {S E A B} (m : M S E A) (k : A -> M S E B) s a s' :
  m s = (Ok a, s') -> (m ≫= k) s = k a s'.
Proof. intros Hm. unfold mbind, M_bind. by rewrite Hm. Qed.

(** Filling a buffer from the front. *)
Lemma copy_next {A E} (l1 rest src : list A) i :
  i = length l1 -> length src <= length rest ->
  copy_from_slice (E := E) i src (l1 ++ rest) = (Ok tt, (l1 ++ src) ++ drop (length src) rest).
Proof.
  intros -> Hl. unfold copy_from_slice, mbind, M_bind, get, or_panic, put.
  rewrite <- (take_drop (length src) rest) at 1. rewrite copy_at_app; [by rewrite <- app_assoc|done|].
  rewrite length_take. lia.
Qed.

Lemma set_next {A E} (l1 rest : list A) i x :
  i = length l1 -> 0 < length rest ->
  set_index (E := E) i x (l1 ++ rest) = (Ok tt, (l1 ++ [x]) ++ drop 1 rest).
Proof.
  intros -> Hl. destruct rest as [|y rest]; simpl in Hl; [lia|].
  unfold set_index, mbind, M_bind, get, or_panic, put.
  rewrite set_at_Some by (rewrite length_app; simpl; lia).
  rewrite insert_app_here. simpl. by rewrite drop_0, <- app_assoc.
Qed.

(** * Proof automation shared by the components *)

Create HintDb rust discriminated.
Create Rewrite HintDb len.
#[export] Hint Resolve wrap_in_width to_le_bytes_u8 : rust.
#[export] Hint Rewrite @length_app @length_take @length_drop @length_insert
  @length_replicate @length_cons length_to_le_bytes @length_map : len.

(** [len] normalises the lengths of list expressions and calls [lia]. *)
Ltac len := autorewrite with len in *; simpl length in *; try lia.

(** Case analysis on the boolean comparisons and the [match]es of a goal or
    of a hypothesis, keeping the equations. *)
Ltac case_bool :=
  match goal with
  | |- context [Z.leb ?a ?b] => destruct (Z.leb_spec a b)
  | |- context [Z.ltb ?a ?b] => destruct (Z.ltb_spec a b)
  | |- context [Z.eqb ?a ?b] => destruct (Z.eqb_spec a b)
  | H : context [Z.leb ?a ?b] |- _ => destruct (Z.leb_spec a b)
  | H : context [Z.ltb ?a ?b] |- _ => destruct (Z.ltb_spec a b)
  | H : context [Z.eqb ?a ?b] |- _ => destruct (Z.eqb_spec a b)
  | |- context [Nat.leb ?a ?b] => destruct (Nat.leb_spec a b)
  | |- context [Nat.ltb ?a ?b] => destruct (Nat.ltb_spec a b)
  | |- context [Nat.eqb ?a ?b] => destruct (Nat.eqb_spec a b)
  | H : context [Nat.leb ?a ?b] |- _ => destruct (Nat.leb_spec a b)
  | H : context [Nat.ltb ?a ?b] |- _ => destruct (Nat.ltb_spec a b)
  | H : context [Nat.eqb ?a ?b] |- _ => destruct (Nat.eqb_spec a b)
  end.

(** Unfold one layer of the state monad. *)
Ltac unfold_M :=
  unfold mbind, M_bind, mret, M_ret, fail, get, put, gets, modify, lift, or_panic in *;
  cbn beta iota zeta in *.

Ltac cases := repeat (case_bool || case_decide || case_match); simplify_eq.
