(* ===== verification/Script.v ===== *)
(** * Calls on a scripted environment

    Code that waits for other tasks, for a peer or for the operating system is
    modelled as a function on a script of what they do.  This file holds the
    outcome of such a call ([stop]), the way code looks at an error ([attempt],
    [try]) and two predicate transformers for reasoning about it
    ([returns_safely], [ends]). *)
From S2P Require Import Prelude.

(** * Calls that may not return

    How a call on a scripted environment ends other than by returning a value: with its error,
    or not at all (it stays suspended); [OutOfFuel] is not a behaviour of the
    code, and is proved never to happen. *)
Inductive stop (E : Type) :=
| Fails (e : E)
| Waiting
| OutOfFuel.
Arguments Fails {E} e.
Arguments Waiting {E}.
Arguments OutOfFuel {E}.

(** [match call.await { Ok(v) => .., Err(e) => .. }]: hand the error over as a
    value; a suspended call stays suspended. *)
Definition attempt {S E A} (m : M S (stop E) A) : M S (stop E) (A + E) := fun s =>
  match m s with
  | (Ok a, s') => (Ok (inl a), s')
  | (Err (Fails e), s') => (Ok (inr e), s')
  | (Err Waiting, s') => (Err Waiting, s')
  | (Err OutOfFuel, s') => (Err OutOfFuel, s')
  | (Panic, s') => (Panic, s')
  end.

(** [.map_err(f)?] on a call. *)
Definition map_fails {S E E' A} (f : E -> E') (m : M S (stop E) A) : M S (stop E') A := fun s =>
  match m s with
  | (Ok a, s') => (Ok a, s')
  | (Err (Fails e), s') => (Err (Fails (f e)), s')
  | (Err Waiting, s') => (Err Waiting, s')
  | (Err OutOfFuel, s') => (Err OutOfFuel, s')
  | (Panic, s') => (Panic, s')
  end.

(** [r?] on a result of plain code. *)
Definition try {S E A} (r : result A E) : M S (stop E) A := lift (map_err Fails r).

(** * Reasoning about a call

    [returns_safely P Q run]: the run ended in a state where [P] holds and,
    when it returned a value, [Q] holds of it; it did not panic and did not
    run out of fuel. *)
Definition returns_safely {S E A} (P : S -> Prop) (Q : A -> S -> Prop)
    (run : result A (stop E) * S) : Prop :=
  P run.2 /\
  match run.1 with
  | Ok a => Q a run.2
  | Err (Fails _) | Err Waiting => True
  | Err OutOfFuel | Panic => False
  end.

Section returns_safely.
Context {S E : Type}.
Implicit Types P : S -> Prop.

Lemma safely_bind {A B} P (Q : A -> S -> Prop) (Q' : B -> S -> Prop) (m : M S (stop E) A) k s :
  returns_safely P Q (m s) ->
  (forall a s', P s' -> Q a s' -> returns_safely P Q' (k a s')) ->
  returns_safely P Q' ((m ≫= k) s).
Proof.
  unfold returns_safely, mbind, M_bind. destruct (m s) as [[a|e|] s']; simpl; [|done..].
  intros [HP HQ] Hk. by apply Hk.
Qed.

Lemma safely_attempt {A} P (Q : A -> S -> Prop) (m : M S (stop E) A) s :
  returns_safely P Q (m s) ->
  returns_safely P (fun r s' => match r with inl a => Q a s' | inr _ => True end) (attempt m s).
Proof. unfold returns_safely, attempt. by destruct (m s) as [[a|[e| |]|] s']. Qed.

Lemma safely_ret {A} P (Q : A -> S -> Prop) (a : A) s :
  P s -> Q a s -> returns_safely P Q ((mret a : M S (stop E) A) s).
Proof. done. Qed.

Lemma safely_fail {A} P (Q : A -> S -> Prop) (e : E) s : P s -> returns_safely P Q (fail (Fails e) s).
Proof. done. Qed.

Lemma safely_mono {A} P (Q Q' : A -> S -> Prop) (run : result A (stop E) * S) :
  returns_safely P Q run -> (forall a s, P s -> Q a s -> Q' a s) -> returns_safely P Q' run.
Proof. intros [HP HQ] H. split; [done|]. destruct run as [[a|e|] s]; [by apply H|done..]. Qed.
End returns_safely.

(** [ends W Q F run]: the run returned a value for which [Q] holds, failed with
    an error for which [F] holds, or is suspended in a state where [W] holds. *)
Definition ends {S E A} (W : S -> Prop) (Q : A -> S -> Prop) (F : E -> S -> Prop)
    (run : result A (stop E) * S) : Prop :=
  match run with
  | (Ok a, s) => Q a s
  | (Err (Fails e), s) => F e s
  | (Err Waiting, s) => W s
  | (Err OutOfFuel, _) | (Panic, _) => False
  end.

Section ends.
Context {S E : Type} {W : S -> Prop} {F : E -> S -> Prop}.

Lemma ends_bind {A B} (Q : A -> S -> Prop) (Q' : B -> S -> Prop) (m : M S (stop E) A) k s :
  ends W Q F (m s) -> (forall a s', Q a s' -> ends W Q' F (k a s')) -> ends W Q' F ((m ≫= k) s).
Proof.
  unfold ends, mbind, M_bind. destruct (m s) as [[a|[e| |]|] s']; [|done..]. intros HQ Hk. by apply Hk.
Qed.

Lemma ends_mono {A} (Q Q' : A -> S -> Prop) (run : result A (stop E) * S) :
  ends W Q F run -> (forall a s, Q a s -> Q' a s) -> ends W Q' F run.
Proof. unfold ends. destruct run as [[a|[e| |]|] s]; auto. Qed.

Lemma ends_weaken {A} (W' : S -> Prop) (F' : E -> S -> Prop) (Q Q' : A -> S -> Prop)
    (run : result A (stop E) * S) :
  ends W Q F run -> (forall s, W s -> W' s) -> (forall e s, F e s -> F' e s) ->
  (forall a s, Q a s -> Q' a s) -> ends W' Q' F' run.
Proof. unfold ends. destruct run as [[a|[e| |]|] s]; auto. Qed.

(** A call that ends well neither panics nor runs out of fuel. *)
Lemma ends_safe {A} (Q : A -> S -> Prop) (r : result A (stop E)) s :
  ends W Q F (r, s) -> r <> Panic /\ r <> Err OutOfFuel.
Proof. by destruct r as [a|[e| |]|]. Qed.
End ends.

(** * The operating system *)

(** The kinds of [io::Error] the code tells apart. *)
Inductive OsError := EWouldBlock | ETimedOut | EInterrupted | EUnexpectedEof | EOther (code : Z).

(** [Instant + Duration] on Linux, in nanoseconds: the seconds are an [i64] and
    an overflow panics. *)
Definition INSTANT_LIMIT : Z := (2 ^ 63 * 1000000000)%Z.
Definition instant_add (n : Z) (t : Duration) : option Z :=
  if (n + t <? INSTANT_LIMIT)%Z then Some (n + t)%Z else None.

(** * Shared values *)

(** [Arc<Mutex<T>>]: the value all clones of a handle name; a panic under
    the lock poisons it. *)
Record SharedCell (T : Type) := { cell : T; poisoned : bool }.
Arguments cell {T} _.
Arguments poisoned {T} _.
