(* ===== verification/RustText.v ===== *)
(** * Text: characters, UTF-8 and numbers

    What the example programs use of [str]: [from_utf8], [trim],
    [strip_prefix], [parse::<u32>], [u32::from_str_radix] and
    [u32::to_string].  A [str] is the list of its characters, a character its
    code point.  The lemmas characterise the parser by the value of a digit
    string and give its round trip with [to_string]. *)
From S2P Require Import Prelude.

Abbreviation char := Z (only parsing).
Abbreviation str := (list Z) (only parsing).

(** * UTF-8 *)

Definition between (a b x : Z) : bool := (a <=? x)%Z && (x <=? b)%Z.
Definition continuation (b : u8) : bool := between 128 191 b.

(** The second byte of a three- and of a four-byte sequence. *)
Definition second_of_3 (b0 b1 : u8) : bool :=
  ((b0 =? 224)%Z && between 160 191 b1) || (between 225 236 b0 && continuation b1) ||
  ((b0 =? 237)%Z && between 128 159 b1) || (between 238 239 b0 && continuation b1).
Definition second_of_4 (b0 b1 : u8) : bool :=
  ((b0 =? 240)%Z && between 144 191 b1) || (between 241 243 b0 && continuation b1) ||
  ((b0 =? 244)%Z && between 128 143 b1).

(** [core::str::from_utf8]. *)
Fixpoint from_utf8 (bs : bytes) : option str :=
  match bs with
  | [] => Some []
  | b0 :: t0 =>
      if (b0 <? 128)%Z then cons b0 <$> from_utf8 t0
      else
        match t0 with
        | [] => None
        | b1 :: t1 =>
            if between 194 223 b0 && continuation b1
            then cons (64 * (b0 - 192) + (b1 - 128))%Z <$> from_utf8 t1
            else
              match t1 with
              | [] => None
              | b2 :: t2 =>
                  if second_of_3 b0 b1 && continuation b2
                  then cons (4096 * (b0 - 224) + 64 * (b1 - 128) + (b2 - 128))%Z <$> from_utf8 t2
                  else
                    match t2 with
                    | [] => None
                    | b3 :: t3 =>
                        if second_of_4 b0 b1 && continuation b2 && continuation b3
                        then cons (262144 * (b0 - 240) + 4096 * (b1 - 128) + 64 * (b2 - 128) + (b3 - 128))%Z
                               <$> from_utf8 t3
                        else None
                    end
              end
        end
  end.

Lemma from_utf8_ascii bs : Forall (fun b => 0 <= b < 128)%Z bs -> from_utf8 bs = Some bs.
Proof.
  induction 1 as [|b bs Hb _ IH]; [done|]. cbn [from_utf8]. rewrite (proj2 (Z.ltb_lt b 128)) by lia.
  by rewrite IH.
Qed.

(** * Trimming *)

(** [char::is_whitespace]: the Unicode property [White_Space]. *)
Definition is_whitespace (c : char) : bool :=
  between 9 13 c || (c =? 32)%Z || (c =? 133)%Z || (c =? 160)%Z || (c =? 5760)%Z || between 8192 8202 c ||
  (c =? 8232)%Z || (c =? 8233)%Z || (c =? 8239)%Z || (c =? 8287)%Z || (c =? 12288)%Z.

Fixpoint trim_start (s : str) : str :=
  match s with
  | c :: s' => if is_whitespace c then trim_start s' else s
  | [] => []
  end.
Definition trim (s : str) : str := rev (trim_start (rev (trim_start s))).

Fixpoint strip_prefix (p s : str) : option str :=
  match p, s with
  | [], _ => Some s
  | c :: p', d :: s' => if (c =? d)%Z then strip_prefix p' s' else None
  | _, [] => None
  end.

Lemma strip_prefix_Some p s s' : strip_prefix p s = Some s' <-> s = p ++ s'.
Proof.
  revert s. induction p as [|c p IH]; intros s; simpl; [split; congruence|].
  destruct s as [|d s]; [done|]. destruct (Z.eqb_spec c d) as [->|Hne].
  - rewrite IH. split; congruence.
  - split; [done|congruence].
Qed.

(** What [trim] leaves: no white space at either end. *)
Definition trimmed (s : str) : Prop :=
  match s with [] => True | c :: _ => is_whitespace c = false end /\
  match rev s with [] => True | c :: _ => is_whitespace c = false end.

Lemma trim_start_split s :
  exists w, s = w ++ trim_start s /\ Forall (fun c => is_whitespace c = true) w /\
    match trim_start s with [] => True | c :: _ => is_whitespace c = false end.
Proof.
  induction s as [|c s (w & Hs & Hw & Hh)]; [by exists []|]. simpl.
  destruct (is_whitespace c) eqn:Hc; [|by exists []].
  exists (c :: w). split_and!; [by simpl; f_equal|by constructor|done].
Qed.

Lemma trim_start_id s :
  match s with [] => True | c :: _ => is_whitespace c = false end -> trim_start s = s.
Proof. destruct s as [|c s]; [done|]. simpl. by intros ->. Qed.

Lemma trim_start_blank w s : Forall (fun c => is_whitespace c = true) w -> trim_start (w ++ s) = trim_start s.
Proof. induction 1 as [|c w Hc _ IH]; [done|]. simpl. by rewrite Hc. Qed.

(** [trim] removes white space and only white space. *)
Lemma trim_spec s :
  exists w1 w2, s = w1 ++ trim s ++ w2 /\
    Forall (fun c => is_whitespace c = true) w1 /\ Forall (fun c => is_whitespace c = true) w2.
Proof.
  destruct (trim_start_split s) as (w1 & Hs & Hw1 & _).
  destruct (trim_start_split (rev (trim_start s))) as (w2 & Hs2 & Hw2 & _).
  exists w1, (rev w2). split_and!; [|done|by apply List.Forall_rev].
  unfold trim. rewrite Hs at 1. f_equal. apply (f_equal (@rev Z)) in Hs2.
  rewrite rev_involutive, rev_app_distr in Hs2. done.
Qed.

Lemma trim_blank w1 s w2 :
  Forall (fun c => is_whitespace c = true) w1 -> Forall (fun c => is_whitespace c = true) w2 ->
  s <> [] -> trimmed s -> trim (w1 ++ s ++ w2) = s.
Proof.
  intros Hw1 Hw2 Hne [Hh Ht]. unfold trim. rewrite trim_start_blank by done.
  rewrite (trim_start_id (s ++ w2)) by by destruct s.
  rewrite rev_app_distr, trim_start_blank by by apply List.Forall_rev.
  rewrite trim_start_id by done. apply rev_involutive.
Qed.

(** * Numbers *)

(** [char::to_digit]. *)
Definition to_digit (radix : Z) (c : char) : option Z :=
  let d := if between 48 57 c then Some (c - 48)%Z
           else if between 97 122 c then Some (c - 97 + 10)%Z
           else if between 65 90 c then Some (c - 65 + 10)%Z
           else None in
  match d with
  | Some d => if (d <? radix)%Z then Some d else None
  | None => None
  end.

(** The loop of [u32::from_str_radix]: [checked_mul], then [checked_add]. *)
Fixpoint parse_digits (radix : Z) (s : str) (acc : u32) : option u32 :=
  match s with
  | [] => Some acc
  | c :: s' =>
      d ← to_digit radix c;
      if (acc * radix <=? u32_max)%Z then
        acc' ← checked_add32 (acc * radix) d;
        parse_digits radix s' acc'
      else None
  end.

(** [u32::from_str_radix]; its error is not looked at by the callers. *)
Definition from_str_radix (s : str) (radix : Z) : option u32 :=
  match s with
  | [] => None
  | [c] => if (c =? 43)%Z || (c =? 45)%Z then None else parse_digits radix s 0
  | c :: rest => if (c =? 43)%Z then parse_digits radix rest 0 else parse_digits radix s 0
  end.

(** [str::parse::<u32>]. *)
Definition parse_u32 (s : str) : option u32 := from_str_radix s 10.

(** [u32::to_string]; ten digits are enough. *)
Fixpoint decimal (fuel : nat) (n : u32) : str :=
  match fuel with
  | O => []
  | S fuel' => if (n <? 10)%Z then [(48 + n)%Z] else decimal fuel' (n / 10) ++ [(48 + n mod 10)%Z]
  end.
Definition to_string (n : u32) : str := decimal 10 n.

(** The value of a digit string, without a bound. *)
Definition digits_value (radix : Z) (ds : list Z) (acc : Z) : Z := fold_left (fun a d => a * radix + d)%Z ds acc.

(** [digits radix s ds]: the characters of [s] are digits, with values [ds]. *)
Definition digits (radix : Z) (s : str) (ds : list Z) : Prop :=
  Forall2 (fun c d => to_digit radix c = Some d) s ds.

Lemma to_digit_bound radix c d : to_digit radix c = Some d -> (0 <= d < radix)%Z.
Proof. unfold to_digit, between. intros H. cases; lia. Qed.

Lemma digits_value_mono radix ds acc :
  (1 <= radix)%Z -> (0 <= acc)%Z -> Forall (fun d => 0 <= d)%Z ds -> (acc <= digits_value radix ds acc)%Z.
Proof.
  intros Hr Ha Hds. revert acc Ha. induction Hds as [|d ds Hd _ IH]; intros acc Ha; simpl; [lia|].
  unfold digits_value in *. simpl. specialize (IH (acc * radix + d)%Z ltac:(nia)). nia.
Qed.

Lemma parse_digits_Some radix s acc v :
  (1 <= radix)%Z -> (0 <= acc <= u32_max)%Z ->
  parse_digits radix s acc = Some v <->
  exists ds, digits radix s ds /\ v = digits_value radix ds acc /\ (v <= u32_max)%Z.
Proof.
  intros Hr. revert acc. induction s as [|c s IH]; intros acc Ha; simpl.
  { split; [intros [= <-]; exists []; split_and!; [constructor|done|lia]|].
    intros (ds & Hds & -> & _). by inversion Hds. }
  split.
  - destruct (to_digit radix c) as [d|] eqn:Hd; [|done]. simpl.
    pose proof (to_digit_bound _ _ _ Hd). destruct (Z.leb_spec (acc * radix) u32_max) as [Hm|]; [|done].
    unfold checked_add32. destruct (Z.leb_spec (acc * radix + d) u32_max) as [Hs|]; [|done]. simpl.
    intros (ds & Hds & -> & Hle)%IH; [|nia]. exists (d :: ds). split_and!; [by constructor|done|done].
  - intros (ds & Hds & -> & Hle). inversion Hds as [|c' d s' ds' Hd Hds']; subst.
    rewrite Hd. simpl in *. pose proof (to_digit_bound _ _ _ Hd) as Hb. unfold digits_value in *. simpl in *.
    assert (Hmono : (acc * radix + d <= u32_max)%Z).
    { etrans; [|exact Hle]. apply digits_value_mono; [lia|nia|].
      eapply Forall2_Forall_r; [exact Hds'|]. apply Forall_true. intros c' d' Hd'.
      by apply to_digit_bound in Hd' as [? _]. }
    rewrite (proj2 (Z.leb_le (acc * radix) u32_max)) by lia. unfold checked_add32.
    rewrite (proj2 (Z.leb_le (acc * radix + d) u32_max)) by done. simpl. apply IH; [nia|]. by exists ds'.
Qed.

(** A numeral: digits, at least one, with an optional plus sign. *)
Definition numeral (radix : Z) (s : str) (v : Z) : Prop :=
  exists body ds, (s = body \/ s = 43%Z :: body) /\ body <> [] /\ digits radix body ds /\
    v = digits_value radix ds 0.

Lemma sign_not_digit radix c : c = 43%Z \/ c = 45%Z -> to_digit radix c = None.
Proof. by intros [->| ->]. Qed.

Lemma from_str_radix_Some s radix v :
  (1 <= radix)%Z -> from_str_radix s radix = Some v <-> numeral radix s v /\ (v <= u32_max)%Z.
Proof.
  intros Hr.
  assert (Hp : forall body, body <> [] ->
    parse_digits radix body 0 = Some v <-> (exists ds, digits radix body ds /\ v = digits_value radix ds 0) /\
                                         (v <= u32_max)%Z).
  { intros body _. rewrite parse_digits_Some by (unfold u32_max; lia).
    split; [intros (ds & ? & ? & ?)|intros [(ds & ? & ?) ?]]; eauto. }
  assert (Hsign : forall c b ds, c = 43%Z \/ c = 45%Z -> ~ digits radix (c :: b) ds).
  { intros c b ds Hc Hd. inversion Hd as [|c' d b' ds' Hd' Htl]; subst. by rewrite (sign_not_digit _ _ Hc) in Hd'. }
  unfold numeral. destruct s as [|c [|c2 rest]]; cbn [from_str_radix].
  - split; [done|]. intros ((b & ds & [<-|?] & ? & _) & _); done.
  - destruct ((c =? 43) || (c =? 45))%Z eqn:Hc.
    + split; [done|]. apply orb_true_iff in Hc. rewrite !Z.eqb_eq in Hc.
      intros ((b & ds & [<-|[= _ <-]] & Hne & Hd & _) & _); [by apply Hsign in Hd|done].
    + rewrite Hp by done. apply orb_false_iff in Hc as [Hc _]. apply Z.eqb_neq in Hc. split.
      * intros [(ds & Hd & Hv) Hle]. split; [|done]. exists [c], ds. eauto 10.
      * intros ((b & ds & [<-|[= -> _]] & _ & Hd & Hv) & Hle); [|done]. eauto 10.
  - destruct (Z.eqb_spec c 43) as [->|Hc]; rewrite Hp by done.
    + split.
      * intros [(ds & Hd & Hv) Hle]. split; [|done]. exists (c2 :: rest), ds. eauto 10.
      * intros ((b & ds & [<-|[= <-]] & _ & Hd & Hv) & Hle); [apply Hsign in Hd; [done|by left]|eauto 10].
    + split.
      * intros [(ds & Hd & Hv) Hle]. split; [|done]. exists (c :: c2 :: rest), ds. eauto 10.
      * intros ((b & ds & [<-|[= -> _]] & _ & Hd & Hv) & Hle); [eauto 10|done].
Qed.

(** [to_string] writes the decimal digits. *)
Lemma decimal_digits fuel n :
  (0 <= n < 10 ^ Z.of_nat fuel)%Z -> 0 < fuel ->
  exists ds, digits 10 (decimal fuel n) ds /\ digits_value 10 ds 0 = n /\ decimal fuel n <> [] /\
    length (decimal fuel n) <= fuel /\ Forall (fun c => 48 <= c <= 57)%Z (decimal fuel n).
Proof.
  revert n. induction fuel as [|fuel IH]; intros n Hn Hf; [lia|]. cbn [decimal].
  assert (Hdig : forall d, (0 <= d < 10)%Z -> to_digit 10 (48 + d) = Some d).
  { intros d Hd. unfold to_digit, between. rewrite (proj2 (Z.leb_le 48 (48 + d))), (proj2 (Z.leb_le (48 + d) 57)) by lia.
    simpl. rewrite (proj2 (Z.ltb_lt (48 + d - 48) 10)) by lia. f_equal. lia. }
  destruct (Z.ltb_spec n 10) as [Hs|Hs].
  - exists [n]. split_and!; [by repeat constructor; apply Hdig; lia|done|done|simpl; lia|].
    repeat constructor; lia.
  - destruct fuel as [|fuel']; [simpl in Hn; lia|].
    rewrite Nat2Z.inj_succ, Z.pow_succ_r in Hn by lia.
    assert (Hq : (0 <= n / 10 < 10 ^ Z.of_nat (S fuel'))%Z).
    { split; [apply Z.div_pos; lia|]. apply Z.div_lt_upper_bound; lia. }
    destruct (IH (n / 10)%Z Hq ltac:(lia)) as (ds & Hds & Hv & Hne & Hlen & Hfa).
    assert (Hm : (0 <= n mod 10 < 10)%Z) by (apply Z.mod_pos_bound; lia).
    exists (ds ++ [(n mod 10)%Z]). split_and!.
    + apply Forall2_app; [done|]. repeat constructor. by apply Hdig.
    + unfold digits_value in *. rewrite fold_left_app, Hv. simpl. pose proof (Z.div_mod n 10 ltac:(lia)). lia.
    + by destruct (decimal _ _).
    + rewrite length_app. cbn [length]. lia.
    + apply Forall_app. split; [done|]. repeat constructor; lia.
Qed.

Lemma to_string_digits n :
  is_u32 n -> to_string n <> [] /\ length (to_string n) <= 10 /\
    Forall (fun c => 48 <= c <= 57)%Z (to_string n) /\ parse_u32 (to_string n) = Some n.
Proof.
  intros Hn. assert (Hb : (0 <= n < 10 ^ Z.of_nat 10)%Z) by (unfold in_width in Hn; lia).
  destruct (decimal_digits 10 n Hb ltac:(lia)) as (ds & Hd & Hv & Hne & Hl & Hfa). split_and!; try done.
  apply from_str_radix_Some; [lia|]. split; [|unfold in_width, u32_max in *; lia].
  exists (to_string n), ds. eauto 10.
Qed.
