(* ===== verification/Wire.v ===== *)
(** The thincan wire format ([src/thincan/src/lib.rs]): a two-byte
    little-endian message id followed by the message body.

    [decode_wire] splits a payload, [encode_capnp_into_buf] builds one in a
    caller-provided transmit buffer around a value's [encode] method (the
    trait [EncodeCapnp], here a class).  The theorems give the behaviour of
    both on every branch and their round trip. *)
From S2P Require Import Prelude.

(** * Errors *)

Inductive ErrorKind :=
| Timeout
| BufferTooSmall (needed got : nat)
| Other.

Record Error := { kind : ErrorKind }.

Definition timeout : Error := {| kind := Timeout |}.
Definition other_error : Error := {| kind := Other |}.

Global Instance ErrorKind_eq_dec : EqDecision ErrorKind.
Proof. solve_decision. Defined.
Global Instance Error_eq_dec : EqDecision Error.
Proof. solve_decision. Defined.

(** [can_isotp_interface::SendError], the transport's error type. *)
Inductive SendError (E : Type) :=
| SendTimeout
| SendBackend (e : E).
Arguments SendTimeout {E}.
Arguments SendBackend {E} e.

Definition map_isotp_send_error {E} (err : SendError E) : Error :=
  {| kind := match err with
             | SendTimeout => Timeout
             | SendBackend _ => Other
             end |}.

(** * Messages *)

Record RawMessage := { id : u16; body : bytes }.

Definition HEADER_LEN : nat := 2.

Definition decode_wire (payload : bytes) : result RawMessage Error :=
  if length payload <? HEADER_LEN then Err {| kind := Other |}
  else
    let! b0 := payload !! 0 in
    let! b1 := payload !! 1 in
    let! rest := slice payload HEADER_LEN (length payload) in
    Ok {| id := from_le_bytes [b0; b1]; body := rest |}.

(** The trait [EncodeCapnp]: [encode] fills [&mut out] and returns the number
    of bytes written. *)
Class EncodeCapnp (V : Type) := {
  max_encoded_len : V -> nat;
  encode : V -> M bytes Error nat;
}.

(** What Rust's types say about every implementation: [encode] borrows a
    slice, so it cannot change the slice's length. *)
Class EncodeKeepsLength (V : Type) `{EncodeCapnp V} :=
  encode_length : forall v out, length (encode v out).2 = length out.

Section encode_into_buf.
Context {V : Type} `{EncodeCapnp V}.

(** [TxState::encode_capnp_into_buf::<M, V>], with [M::ID] as [ID]. *)
Definition encode_capnp_into_buf (ID : u16) (value : V) : M bytes Error bytes :=
  buf ← get;
  let max_len := max_encoded_len value in
  let needed := HEADER_LEN + max_len in
  if length buf <? needed
  then fail {| kind := BufferTooSmall needed (length buf) |}
  else
    copy_from_slice 0 (to_le_bytes 2 ID);;
    used ← with_slice HEADER_LEN (HEADER_LEN + max_len) (encode value);
    if max_len <? used then fail {| kind := Other |}
    else read_slice 0 (HEADER_LEN + used).
End encode_into_buf.

(** * Behaviour of [decode_wire] *)

Lemma decode_wire_short payload :
  length payload < HEADER_LEN -> decode_wire payload = Err {| kind := Other |}.
Proof. intros H. unfold decode_wire. by apply Nat.ltb_lt in H as ->. Qed.

Lemma decode_wire_cons b0 b1 rest :
  decode_wire (b0 :: b1 :: rest) = Ok {| id := from_le_bytes [b0; b1]; body := rest |}.
Proof.
  unfold decode_wire, HEADER_LEN. cbn [length Nat.ltb Nat.leb lookup list_lookup].
  change (S (S (length rest))) with (length (b0 :: b1 :: rest)).
  by rewrite slice_from_Some by (simpl; lia).
Qed.

Lemma decode_wire_le_bytes ID rest :
  is_u16 ID -> decode_wire (to_le_bytes 2 ID ++ rest) = Ok {| id := ID; body := rest |}.
Proof.
  intros HID. pose proof (from_to_le_bytes_small 2 ID HID) as Hid.
  change (to_le_bytes 2 ID) with [(ID mod 256)%Z; (ID / 256 mod 256)%Z] in *.
  simpl app. rewrite decode_wire_cons. by rewrite Hid.
Qed.

(** Decoding inverts the header layout: [decode_wire] accepts exactly the
    payloads that consist of the little-endian id followed by the body, and
    returns that id and that body. *)
Theorem decode_wire_iff (payload : bytes) (msg : RawMessage) :
  Forall is_u8 payload ->
  decode_wire payload = Ok msg <->
  is_u16 (id msg) /\ payload = to_le_bytes 2 (id msg) ++ body msg.
Proof.
  intros Hu8. split.
  - destruct payload as [|b0 [|b1 rest]]; [done..|].
    rewrite decode_wire_cons. intros [= <-]. cbn [id body].
    apply Forall_cons_1 in Hu8 as [H0 Hu8]. apply Forall_cons_1 in Hu8 as [H1 _].
    assert (Forall is_u8 [b0; b1]) as Hb by auto.
    split; [apply (from_le_bytes_bound [b0; b1] Hb)|].
    by apply (f_equal (.++ rest) (eq_sym (to_from_le_bytes [b0; b1] Hb))).
  - destruct msg as [ID rest]. intros [HID ->]. by apply decode_wire_le_bytes.
Qed.

Lemma decode_wire_iff_witness :
  decode_wire [52; 18; 7]%Z = Ok {| id := 4660; body := [7%Z] |} <->
  is_u16 4660 /\ [52; 18; 7]%Z = to_le_bytes 2 4660 ++ [7%Z].
Proof.
  apply (decode_wire_iff [52; 18; 7]%Z {| id := 4660; body := [7%Z] |}).
  repeat constructor; lia.
Defined.

(** * Behaviour of [encode_capnp_into_buf] *)

Section encode_facts.
Context {V : Type} `{EncodeKeepsLength V}.
Implicit Types (ID : u16) (v : V) (buf : bytes).

(** The result and the buffer after the call, on every branch. *)
Definition encode_capnp_spec ID v buf : result bytes Error * bytes :=
  let max_len := max_encoded_len v in
  if length buf <? HEADER_LEN + max_len
  then (Err {| kind := BufferTooSmall (HEADER_LEN + max_len) (length buf) |}, buf)
  else
    let '(r, out) := encode v (take max_len (drop HEADER_LEN buf)) in
    let buf' := to_le_bytes 2 ID ++ out ++ drop (HEADER_LEN + max_len) buf in
    (match r with
     | Ok used => if max_len <? used then Err {| kind := Other |}
                  else Ok (to_le_bytes 2 ID ++ take used out)
     | Err e => Err e
     | Panic => Panic
     end, buf').

Lemma encode_capnp_into_buf_eq ID v buf :
  encode_capnp_into_buf ID v buf = encode_capnp_spec ID v buf.
Proof.
  unfold encode_capnp_into_buf, encode_capnp_spec, copy_from_slice, with_slice, read_slice.
  unfold_M. case_bool; [done|].
  assert (2 + max_encoded_len v <= length buf) as Hlen by (unfold HEADER_LEN in *; lia).
  rewrite (copy_at_Some buf 0) by len. rewrite take_0, app_nil_l, length_to_le_bytes.
  change (0 + 2) with HEADER_LEN. unfold_M.
  set (out0 := take _ (drop _ _)).
  assert (length out0 = max_encoded_len v) as Hout0 by (subst out0; len; unfold HEADER_LEN; lia).
  assert (drop HEADER_LEN buf = out0 ++ drop (HEADER_LEN + max_encoded_len v) buf) as Hsplit.
  { subst out0. by rewrite <- (take_drop (max_encoded_len v) (drop HEADER_LEN buf)), drop_drop at 1. }
  rewrite Hsplit at 1.
  rewrite (slice_app_mid _ out0) by (rewrite length_to_le_bytes, ?Hout0; done).
  pose proof (encode_length v out0) as Hout.
  destruct (encode v out0) as [r out]. simpl in Hout.
  rewrite Hsplit.
  rewrite (copy_at_app _ out0) by (rewrite ?length_to_le_bytes; done).
  destruct r as [used|e|]; [|done..].
  case_bool; [done|].
  rewrite slice_to_Some by (unfold HEADER_LEN; len).
  rewrite take_app_add' by (unfold HEADER_LEN; len).
  by rewrite take_app_le by len.
Qed.
End encode_facts.

Section encode_theorems.
Context {V : Type} `{EncodeKeepsLength V}.
Implicit Types (ID : u16) (v : V) (buf payload : bytes).

(** The successful branch of [encode_capnp_into_buf]. *)
Lemma encode_capnp_into_buf_Ok ID v buf payload buf' :
  is_u16 ID ->
  encode_capnp_into_buf ID v buf = (Ok payload, buf') ->
  exists used out,
    encode v (take (max_encoded_len v) (drop HEADER_LEN buf)) = (Ok used, out) /\
    used <= max_encoded_len v /\ length (take used out) = used /\
    decode_wire payload = Ok {| id := ID; body := take used out |} /\
    payload = take (HEADER_LEN + used) buf'.
Proof.
  intros HID. rewrite encode_capnp_into_buf_eq. unfold encode_capnp_spec.
  case_bool; [done|]. destruct (encode v _) as [r out] eqn:Henc.
  destruct r as [used|e|]; [|done..]. case_bool; [done|]. intros [<- <-]%Ok_pair_inj.
  pose proof (encode_length v (take (max_encoded_len v) (drop HEADER_LEN buf))) as Hl.
  rewrite Henc in Hl. simpl in Hl.
  assert (length out = max_encoded_len v) as Hout by (unfold HEADER_LEN in *; len).
  exists used, out. split_and!; [done|lia|len|by apply decode_wire_le_bytes|].
  rewrite take_app_add' by (unfold HEADER_LEN; len). f_equal. by rewrite take_app_le by len.
Qed.

(** C30. Round trip: a payload that [encode_capnp_into_buf] returns decodes to
    the message id and to the bytes the value's [encode] wrote; these are at
    most the announced [max_encoded_len] bytes, and the payload is the used
    part of the transmit buffer. *)
Theorem encode_decode_round_trip ID v buf payload buf' :
  is_u16 ID ->
  encode_capnp_into_buf ID v buf = (Ok payload, buf') ->
  exists used out,
    encode v (take (max_encoded_len v) (drop HEADER_LEN buf)) = (Ok used, out) /\
    used <= max_encoded_len v /\ length (take used out) = used /\
    decode_wire payload = Ok {| id := ID; body := take used out |} /\
    payload = take (HEADER_LEN + used) buf'.
Proof. apply encode_capnp_into_buf_Ok. Qed.

(** Memory safety of the transmit path: whatever the value's [encode]
    does, [encode_capnp_into_buf] keeps the buffer's length, writes nothing
    past the header and [max_encoded_len] bytes, leaves the buffer alone when
    it is too small, and panics only if [encode] itself panics. *)
Theorem encode_capnp_into_buf_safe ID v buf :
  let '(r, buf') := encode_capnp_into_buf ID v buf in
  let needed := HEADER_LEN + max_encoded_len v in
  length buf' = length buf /\
  drop needed buf' = drop needed buf /\
  (length buf < needed <-> r = Err {| kind := BufferTooSmall needed (length buf) |} /\ buf' = buf
                           /\ length buf < needed) /\
  (r = Panic -> (encode v (take (max_encoded_len v) (drop HEADER_LEN buf))).1 = Panic).
Proof.
  rewrite encode_capnp_into_buf_eq. unfold encode_capnp_spec.
  case_bool; [by split_and!; try done; intros|].
  pose proof (encode_length v (take (max_encoded_len v) (drop HEADER_LEN buf))) as Hl.
  destruct (encode v _) as [r out] eqn:Henc. simpl in Hl. unfold HEADER_LEN in *. len.
  split_and!.
  - len.
  - rewrite drop_app_ge, drop_app_ge by len. rewrite drop_drop. f_equal. len.
  - split; [lia|tauto].
  - destruct r; [case_bool|..]; done.
Qed.
End encode_theorems.

(** A value that is its own encoding, used to run the definitions. *)
Record RawBody := { raw_body : bytes }.

Global Instance RawBody_EncodeCapnp : EncodeCapnp RawBody := {
  max_encoded_len v := length (raw_body v);
  encode v := copy_from_slice 0 (raw_body v);; mret (length (raw_body v));
}.

Global Instance RawBody_EncodeKeepsLength : EncodeKeepsLength RawBody.
Proof.
  intros v out. unfold encode, RawBody_EncodeCapnp, copy_from_slice. unfold_M.
  destruct (copy_at out 0 (raw_body v)) eqn:E; [|done]. by apply copy_at_length in E.
Qed.

Lemma encode_decode_round_trip_witness :
  let v := {| raw_body := [7; 8]%Z |} in
  exists payload buf' used out,
    encode_capnp_into_buf 256 v (replicate 5 0%Z) = (Ok payload, buf') /\
    encode v (take (max_encoded_len v) (drop HEADER_LEN (replicate 5 0%Z))) = (Ok used, out) /\
    decode_wire payload = Ok {| id := 256; body := take used out |}.
Proof.
  intros v.
  destruct (encode_decode_round_trip 256 v (replicate 5 0%Z) [0; 1; 7; 8]%Z [0; 1; 7; 8; 0]%Z)
    as (used & out & H1 & _ & _ & H2 & _); [by compute|reflexivity|].
  exists [0; 1; 7; 8]%Z, [0; 1; 7; 8; 0]%Z, used, out. auto.
Defined.

Lemma encode_capnp_into_buf_safe_witness :
  let v := {| raw_body := [7; 8; 9]%Z |} in
  let '(r, buf') := encode_capnp_into_buf 256 v [1; 2; 3]%Z in
  r = Err {| kind := BufferTooSmall 5 3 |} /\ buf' = [1; 2; 3]%Z.
Proof.
  intros v. pose proof (encode_capnp_into_buf_safe 256 v [1; 2; 3]%Z) as H.
  destruct (encode_capnp_into_buf 256 v [1; 2; 3]%Z) as [r buf'].
  destruct H as (_ & _ & H & _). destruct H as [H _]. destruct H as (-> & -> & _); [simpl; lia|done].
Defined.
