(* ===== verification/Maplet.v ===== *)
(** Compile-time message sets ([src/thincan/src/lib.rs]): the [maplet!] macro
    concatenates the id lists of its bundles into [MESSAGE_IDS], rejects
    duplicates while compiling, and [slot_for_id] resolves an id to its
    mailbox index. *)
From S2P Require Import Prelude.

(** A bundle module: [MESSAGE_COUNT] and [BundleSpec::MESSAGE_IDS], an array
    of that length. *)
Record Bundle := {
  MESSAGE_COUNT : nat;
  BUNDLE_IDS : list u16;
}.

Definition bundle_wf (b : Bundle) : Prop := length (BUNDLE_IDS b) = MESSAGE_COUNT b.

(** * Resolving an id *)

(** [MapletSpec::slot_for_id]: the loop [while i < MAX_TYPES] with [n]
    iterations left. *)
Fixpoint slot_loop (n i : nat) (MESSAGE_IDS : list u16) (id : u16) : option nat :=
  match n with
  | O => None
  | S n' =>
      match MESSAGE_IDS !! i with
      | None => None (* not reached: [i < MAX_TYPES] *)
      | Some x => if (x =? id)%Z then Some i else slot_loop n' (i + 1) MESSAGE_IDS id
      end
  end.

Definition slot_for_id (MESSAGE_IDS : list u16) (id : u16) : option nat :=
  slot_loop (length MESSAGE_IDS) 0 MESSAGE_IDS id.

(** * Building a maplet from bundles *)

(** [while i < MESSAGE_COUNT { out[at + i] = ids[i]; i += 1 }]; [None] is a
    panic of the constant evaluation, that is, a compile error. *)
Fixpoint fill_bundle (n i at_ : nat) (ids out : list u16) : option (list u16) :=
  match n with
  | O => Some out
  | S n' =>
      x ← ids !! i;
      out' ← set_at out (at_ + i) x;
      fill_bundle n' (i + 1) at_ ids out'
  end.

Fixpoint fill_bundles (bs : list Bundle) (at_ : nat) (out : list u16) : option (list u16) :=
  match bs with
  | [] => Some out
  | b :: bs' =>
      out' ← fill_bundle (MESSAGE_COUNT b) 0 at_ (BUNDLE_IDS b) out;
      fill_bundles bs' (at_ + MESSAGE_COUNT b) out'
  end.

Definition maplet_count (bs : list Bundle) : nat := foldr (fun b n => MESSAGE_COUNT b + n) 0 bs.

Definition maplet_ids (bs : list Bundle) : option (list u16) :=
  fill_bundles bs 0 (replicate (maplet_count bs) 0%Z).

(** The inner loop of the duplicate check, from [j] with [n] iterations left:
    [true] when [ids[i] == ids[j]] for some [j]. *)
Fixpoint dup_from (n j : nat) (x : u16) (ids : list u16) : bool :=
  match n with
  | O => false
  | S n' => match ids !! j with
            | Some y => (x =? y)%Z || dup_from n' (j + 1) x ids
            | None => false
            end
  end.

Fixpoint has_dup (n i : nat) (ids : list u16) : bool :=
  match n with
  | O => false
  | S n' => match ids !! i with
            | Some x => dup_from (length ids - (i + 1)) (i + 1) x ids || has_dup n' (i + 1) ids
            | None => false
            end
  end.

(** [maplet!] with [bundles \[...\]]: the id table, or [None] when the constant
    evaluation panics ("duplicate message id in maplet bundles"). *)
Definition maplet_from_bundles (bs : list Bundle) : option (list u16) :=
  ids ← maplet_ids bs;
  if has_dup (length ids) 0 ids then None else Some ids.

(** [maplet!] with named bundles ([alias = bundle]): the same evaluation. *)
Definition maplet_from_bundles_aliases (bs : list (nat * Bundle)) : option (list u16) :=
  maplet_from_bundles (snd <$> bs).

(** [maplet!] with [use msgs \[...\]]: the ids of the messages, unchecked. *)
Definition maplet_from_msgs (ids : list u16) : list u16 := ids.

(** * Facts *)

Lemma slot_loop_Some n i ids id k :
  i + n = length ids ->
  slot_loop n i ids id = Some k <->
  i <= k /\ ids !! k = Some id /\ forall j, i <= j < k -> ids !! j <> Some id.
Proof.
  revert i. induction n as [|n IH]; intros i Hlen; simpl.
  { split; [done|]. intros (? & Hk & _). apply lookup_lt_Some in Hk. lia. }
  destruct (lookup_lt_is_Some_2 ids i) as [x Hx]; [lia|]. rewrite Hx.
  destruct (Z.eqb_spec x id) as [->|Hne].
  - split.
    + intros [= <-]. split_and!; [lia|done|lia].
    + intros (Hik & Hk & Hmin). destruct (decide (i = k)) as [->|]; [done|].
      exfalso. apply (Hmin i); [lia|done].
  - rewrite IH by lia. split; intros (? & Hk & Hmin).
    + split_and!; [lia|done|]. intros j Hj.
      destruct (decide (j = i)) as [->|]; [congruence|]. apply Hmin. lia.
    + split_and!; [|done|intros; apply Hmin; lia].
      destruct (decide (i = k)) as [->|]; [congruence|lia].
Qed.

Lemma slot_for_id_Some ids id k :
  slot_for_id ids id = Some k <->
  ids !! k = Some id /\ forall j, j < k -> ids !! j <> Some id.
Proof.
  unfold slot_for_id. rewrite slot_loop_Some by lia.
  split; [intros (_ & ? & Hm)|intros (? & Hm)]; split_and!; try done; try lia;
    intros; apply Hm; lia.
Qed.

Lemma slot_for_id_lt ids id k : slot_for_id ids id = Some k -> k < length ids.
Proof. rewrite slot_for_id_Some. intros [H _]. by apply lookup_lt_Some in H. Qed.

Lemma slot_for_id_None ids id : slot_for_id ids id = None <-> id ∉ ids.
Proof.
  split.
  - intros Hn Hin. apply list_elem_of_lookup in Hin as [k Hk].
    destruct (slot_for_id ids id) eqn:E; [done|]. clear Hn.
    (* the least index of [id] would be returned *)
    induction k as [k IH] using lt_wf_ind.
    destruct (decide (id ∈ take k ids)) as [(j & Hj)%list_elem_of_lookup|Hno].
    + apply lookup_take_Some in Hj as [Hj Hlt]. by apply (IH j).
    + assert (slot_for_id ids id = Some k) as E'; [|congruence].
      apply slot_for_id_Some. split; [done|]. intros j Hj Hj'. apply Hno.
      apply list_elem_of_lookup. exists j. by rewrite lookup_take_lt.
  - intros Hni. destruct (slot_for_id ids id) as [k|] eqn:E; [|done].
    apply slot_for_id_Some in E as [Hk _]. exfalso. apply Hni.
    by eapply list_elem_of_lookup_2.
Qed.

Lemma fill_bundle_app n i at_ ids pre z post :
  length pre = at_ + i -> length z = n -> length ids = i + n ->
  fill_bundle n i at_ ids (pre ++ z ++ post) = Some (pre ++ drop i ids ++ post).
Proof.
  revert i pre z. induction n as [|n IH]; intros i pre z Hpre Hz Hids.
  - apply nil_length_inv in Hz as ->. by rewrite drop_ge by lia.
  - destruct z as [|z0 z]; [done|]. simpl.
    destruct (lookup_lt_is_Some_2 ids i) as [x Hx]; [lia|]. rewrite Hx. simpl.
    rewrite set_at_Some by len. simpl.
    rewrite <- Hpre, insert_app_here.
    rewrite (cons_middle x pre), app_assoc, IH by len.
    rewrite (drop_S ids x i Hx), <- app_assoc, Nat.add_1_r. done.
Qed.

Lemma fill_bundles_app bs at_ pre z :
  Forall bundle_wf bs -> length pre = at_ -> length z = maplet_count bs ->
  fill_bundles bs at_ (pre ++ z) = Some (pre ++ concat (map BUNDLE_IDS bs)).
Proof.
  intros Hwf. revert at_ pre z. induction Hwf as [|b bs Hb Hwf IH]; intros at_ pre z Hpre Hz; simpl in *.
  { apply nil_length_inv in Hz as ->. done. }
  unfold bundle_wf in Hb.
  rewrite <- (take_drop (MESSAGE_COUNT b) z), fill_bundle_app by len. simpl.
  rewrite app_assoc, drop_0, IH by len. by rewrite <- app_assoc.
Qed.

Lemma maplet_ids_concat bs :
  Forall bundle_wf bs -> maplet_ids bs = Some (concat (map BUNDLE_IDS bs)).
Proof. intros. unfold maplet_ids. by apply (fill_bundles_app _ 0 []); len. Qed.

Lemma dup_from_spec n j x ids :
  j + n = length ids -> dup_from n j x ids = bool_decide (x ∈ drop j ids).
Proof.
  revert j. induction n as [|n IH]; intros j Hlen; simpl.
  { rewrite drop_ge by lia. done. }
  destruct (lookup_lt_is_Some_2 ids j) as [y Hy]; [lia|].
  rewrite Hy, IH, (drop_S ids y j Hy), Nat.add_1_r by lia.
  apply eq_true_iff_eq. rewrite orb_true_iff, Z.eqb_eq, !bool_decide_eq_true.
  by rewrite elem_of_cons.
Qed.

Lemma has_dup_spec n i ids :
  i + n = length ids -> has_dup n i ids = bool_decide (~ NoDup (drop i ids)).
Proof.
  revert i. induction n as [|n IH]; intros i Hlen; simpl.
  { rewrite drop_ge by lia. symmetry. apply bool_decide_eq_false. intros H. apply H. constructor. }
  destruct (lookup_lt_is_Some_2 ids i) as [y Hy]; [lia|].
  rewrite Hy, dup_from_spec, IH, (drop_S ids y i Hy), Nat.add_1_r by lia.
  apply eq_true_iff_eq. rewrite orb_true_iff, !bool_decide_eq_true, list.NoDup_cons.
  destruct (decide (y ∈ drop (S i) ids)); tauto.
Qed.

(** Bundle composition: [maplet!] accepts a list of bundles exactly when
    no message id occurs twice in them, and the table it builds is then the
    concatenation of the bundles' id lists, in order. *)
Theorem maplet_from_bundles_spec (bs : list Bundle) :
  Forall bundle_wf bs ->
  maplet_from_bundles bs =
    if decide (NoDup (concat (map BUNDLE_IDS bs)))
    then Some (concat (map BUNDLE_IDS bs)) else None.
Proof.
  intros Hwf. unfold maplet_from_bundles. rewrite maplet_ids_concat by done. simpl.
  rewrite has_dup_spec, drop_0 by lia.
  case_decide; case_bool_decide; tauto.
Qed.

Lemma maplet_from_bundles_spec_witness :
  let req := {| MESSAGE_COUNT := 3; BUNDLE_IDS := [4097; 4098; 4099]%Z |} in
  let ping := {| MESSAGE_COUNT := 2; BUNDLE_IDS := [256; 257]%Z |} in
  maplet_from_bundles [req; ping] =
    if decide (NoDup [4097; 4098; 4099; 256; 257]%Z)
    then Some [4097; 4098; 4099; 256; 257]%Z else None.
Proof. intros req ping. apply (maplet_from_bundles_spec [req; ping]). by repeat constructor. Defined.

Lemma maplet_from_bundles_NoDup bs ids :
  Forall bundle_wf bs -> maplet_from_bundles bs = Some ids -> NoDup ids.
Proof.
  intros Hwf. unfold maplet_from_bundles. rewrite maplet_ids_concat by done. simpl.
  rewrite has_dup_spec, drop_0 by lia. case_bool_decide as Hd; [done|].
  intros [= <-]. destruct (decide (NoDup (concat (map BUNDLE_IDS bs)))); tauto.
Qed.

(** Slot resolution in an accepted maplet is a bijection between its ids
    and its mailbox indices: [slot_for_id] finds the one index of a declared
    id, and nothing for an id that no bundle declares. *)
Theorem slot_for_id_bijection (bs : list Bundle) (ids : list u16) :
  Forall bundle_wf bs -> maplet_from_bundles bs = Some ids ->
  (forall id k, slot_for_id ids id = Some k <-> ids !! k = Some id) /\
  (forall id, slot_for_id ids id = None <-> forall b, b ∈ bs -> id ∉ BUNDLE_IDS b).
Proof.
  intros Hwf Hids. pose proof (maplet_from_bundles_NoDup _ _ Hwf Hids) as Hnd.
  split.
  - intros id k. rewrite slot_for_id_Some. split; [by intros [? _]|].
    intros Hk. split; [done|]. intros j Hj Hj'.
    pose proof (NoDup_lookup _ _ _ _ Hnd Hj' Hk). lia.
  - intros id. rewrite slot_for_id_None.
    unfold maplet_from_bundles in Hids. rewrite maplet_ids_concat in Hids by done.
    simpl in Hids. case_match; simplify_eq.
    rewrite list_elem_of_In, in_concat. setoid_rewrite in_map_iff.
    setoid_rewrite list_elem_of_In. clear. firstorder congruence.
Qed.

Lemma slot_for_id_bijection_witness :
  let bs := [{| MESSAGE_COUNT := 2; BUNDLE_IDS := [256; 257]%Z |}] in
  slot_for_id [256; 257]%Z 257 = Some 1 /\
  forall id, slot_for_id [256; 257]%Z id = None <-> forall b, b ∈ bs -> id ∉ BUNDLE_IDS b.
Proof.
  intros bs. destruct (slot_for_id_bijection bs [256; 257]%Z) as [H1 H2].
  - by repeat constructor.
  - reflexivity.
  - split; [by apply H1|exact H2].
Defined.

(** Without the check of the bundle form, two messages may share an id; the
    second one's mailbox is then never used. *)
Example maplet_from_msgs_duplicate :
  let ids := maplet_from_msgs [16; 16]%Z in
  maplet_from_bundles [{| MESSAGE_COUNT := 2; BUNDLE_IDS := ids |}] = None /\
  length ids = 2 /\ slot_for_id ids 16%Z = Some 0.
Proof. done. Qed.
