(* ===== verification/Mailbox.v ===== *)
(** Receive mailboxes ([src/thincan/src/lib.rs], [MailboxSlot], [TypeMailbox]
    and [RxState]): fixed-capacity arrays of received messages, one array per
    message type.

    The arrays are modelled as they are in the code (slots, [used], the shift
    loop that closes a gap); the abstract specification is a bounded list of
    (sender, body) pairs, and the refinement theorems show that pushing and
    popping on the arrays is appending to and removing from that list. *)
From S2P Require Import Prelude.

Inductive IngestError :=
| MalformedPayload
| UnknownId (id : u16)
| BodyTooLarge (got max : nat)
| MailboxFull.

Record MailboxSlot := {
  slot_from : u8;
  slot_len : nat;
  slot_body : bytes; (* [u8; MAX_BODY] *)
}.

Record TypeMailbox := {
  slots : list MailboxSlot; (* [MailboxSlot; DEPTH] *)
  used : nat;
}.

(** * Operations *)

Section ops.
Context (DEPTH MAX_BODY : nat).

Definition empty_slot : MailboxSlot :=
  {| slot_from := 0; slot_len := 0; slot_body := replicate MAX_BODY 0%Z |}.

Definition new_mailbox : TypeMailbox :=
  {| slots := replicate DEPTH empty_slot; used := 0 |}.

Definition mailbox_push (from : u8) (body : bytes) : M TypeMailbox IngestError unit :=
  mb ← get;
  if MAX_BODY <? length body
  then fail (BodyTooLarge (length body) MAX_BODY)
  else if used mb =? DEPTH
  then fail MailboxFull
  else
    let idx := used mb in
    slot ← or_panic (slots mb !! idx);
    new_body ← or_panic (copy_at (slot_body slot) 0 body);
    slots' ← or_panic (set_at (slots mb) idx
      {| slot_from := from; slot_len := length body; slot_body := new_body |});
    put {| slots := slots'; used := used mb + 1 |}.

(** The caller's [FnMut(&[u8]) -> bool], with the state it captures. *)
Context {P : Type} (predicate : P -> bytes -> bool * P).

(** [while i < self.used { ... }], with [n] iterations left; the predicate is
    called on the bodies from [from], in order, until it accepts one. *)
Fixpoint find_loop (n i : nat) (sl : list MailboxSlot) (from : u8) (p : P)
  : option (option nat * P) :=
  match n with
  | O => Some (None, p)
  | S n' =>
      slot ← sl !! i;
      if (slot_from slot =? from)%Z
      then
        b ← slice (slot_body slot) 0 (slot_len slot);
        let '(hit, p') := predicate p b in
        if hit : bool then Some (Some i, p') else find_loop n' (i + 1) sl from p'
      else find_loop n' (i + 1) sl from p
  end.

(** [while j + 1 < self.used { slots[j] = slots[j + 1]; j += 1 }]. *)
Fixpoint shift_loop (n j : nat) (sl : list MailboxSlot) : option (list MailboxSlot) :=
  match n with
  | O => Some sl
  | S n' =>
      next ← sl !! (j + 1);
      sl' ← set_at sl j next;
      shift_loop n' (j + 1) sl'
  end.

(** [None] is a panic; the result is the popped slot, the predicate's state
    and the mailbox. *)
Definition mailbox_pop_matching_where (from : u8) (p : P) (mb : TypeMailbox)
  : option (option MailboxSlot * P * TypeMailbox) :=
  '(idx, p') ← find_loop (used mb) 0 (slots mb) from p;
  match idx with
  | None => Some (None, p', mb)
  | Some idx =>
      out ← slots mb !! idx;
      sl1 ← shift_loop (used mb - 1 - idx) idx (slots mb);
      sl2 ← set_at sl1 (used mb - 1) empty_slot;
      Some (Some out, p', {| slots := sl2; used := used mb - 1 |})
  end.
End ops.

(** * The abstract specification: a bounded list of (sender, body) *)

Abbreviation queue := (list (u8 * bytes)) (only parsing).

Section spec.
Context (DEPTH MAX_BODY : nat).

Definition spec_push (from : u8) (body : bytes) (q : queue) : result unit IngestError * queue :=
  if MAX_BODY <? length body then (Err (BodyTooLarge (length body) MAX_BODY), q)
  else if length q =? DEPTH then (Err MailboxFull, q)
  else (Ok tt, q ++ [(from, body)]).

Context {P : Type} (predicate : P -> bytes -> bool * P).

(** The oldest message from [from] that the predicate accepts, and the queue
    without it; everything else keeps its place. *)
Fixpoint spec_pop (from : u8) (p : P) (q : queue) : option (u8 * bytes) * P * queue :=
  match q with
  | [] => (None, p, [])
  | (f, b) :: q' =>
      if (f =? from)%Z
      then
        let '(hit, p') := predicate p b in
        if hit : bool then (Some (f, b), p', q')
        else let '(o, p'', q'') := spec_pop from p' q' in (o, p'', (f, b) :: q'')
      else let '(o, p', q'') := spec_pop from p q' in (o, p', (f, b) :: q'')
  end.
End spec.

(** * Invariant and abstraction function *)

Section refinement.
Context (DEPTH MAX_BODY : nat).

(** A slot holds its body followed by zeros: nothing of an earlier message
    stays behind. *)
Definition slot_wf (s : MailboxSlot) : Prop :=
  length (slot_body s) = MAX_BODY /\ slot_len s <= MAX_BODY /\
  drop (slot_len s) (slot_body s) = replicate (MAX_BODY - slot_len s) 0%Z.

Definition mailbox_wf (mb : TypeMailbox) : Prop :=
  length (slots mb) = DEPTH /\ used mb <= DEPTH /\ Forall slot_wf (slots mb) /\
  drop (used mb) (slots mb) = replicate (DEPTH - used mb) (empty_slot MAX_BODY).

Definition slot_msg (s : MailboxSlot) : u8 * bytes :=
  (slot_from s, take (slot_len s) (slot_body s)).

Definition mailbox_abs (mb : TypeMailbox) : queue := map slot_msg (take (used mb) (slots mb)).

Lemma empty_slot_wf : slot_wf (empty_slot MAX_BODY).
Proof. split_and!; simpl; len. by rewrite drop_0, Nat.sub_0_r. Qed.

Lemma new_mailbox_wf : mailbox_wf (new_mailbox DEPTH MAX_BODY).
Proof.
  split_and!; simpl; len.
  - apply Forall_replicate, empty_slot_wf.
  - by rewrite drop_0, Nat.sub_0_r.
Qed.

Lemma mailbox_abs_length mb : mailbox_wf mb -> length (mailbox_abs mb) = used mb.
Proof. intros (? & ? & _). unfold mailbox_abs. len. Qed.

(** A well-formed mailbox splits into its live slots and its empty ones. *)
Lemma mailbox_wf_split mb :
  mailbox_wf mb ->
  exists live, slots mb = live ++ replicate (DEPTH - used mb) (empty_slot MAX_BODY) /\
    length live = used mb /\ Forall slot_wf live /\ mailbox_abs mb = map slot_msg live.
Proof.
  intros (Hlen & Hused & Hwf & Hrest). exists (take (used mb) (slots mb)).
  split_and!; [|len|by apply Forall_take|done].
  by rewrite <- Hrest, take_drop.
Qed.

Lemma mailbox_wf_build live n :
  length live = n -> n <= DEPTH -> Forall slot_wf live ->
  mailbox_wf {| slots := live ++ replicate (DEPTH - n) (empty_slot MAX_BODY); used := n |} /\
  mailbox_abs {| slots := live ++ replicate (DEPTH - n) (empty_slot MAX_BODY); used := n |}
    = map slot_msg live.
Proof.
  intros <- Hn Hwf. unfold mailbox_wf, mailbox_abs. simpl. split_and!; len.
  - apply Forall_app. split; [done|]. apply Forall_replicate, empty_slot_wf.
  - by rewrite drop_app_length.
  - by rewrite take_app_length.
Qed.

Lemma filled_slot_wf from body :
  length body <= MAX_BODY ->
  slot_wf {| slot_from := from; slot_len := length body;
             slot_body := body ++ replicate (MAX_BODY - length body) 0%Z |}.
Proof. intros. split_and!; simpl; len. by rewrite drop_app_length. Qed.
End refinement.

(** * Refinement *)

Section refinement_proofs.
Context (DEPTH MAX_BODY : nat).
Abbreviation wf := (mailbox_wf DEPTH MAX_BODY).
Abbreviation live_slot := (slot_wf MAX_BODY).

Lemma mailbox_push_refines from body mb :
  wf mb ->
  let '(r, mb') := mailbox_push DEPTH MAX_BODY from body mb in
  wf mb' /\ (r, mailbox_abs mb') = spec_push DEPTH MAX_BODY from body (mailbox_abs mb).
Proof.
  intros Hwf. unfold mailbox_push, spec_push.
  rewrite (mailbox_abs_length _ _ _ Hwf). unfold_M.
  case_bool; [done|]. case_bool; [done|].
  destruct (mailbox_wf_split _ _ _ Hwf) as (live & Hsl & Hlen & Hlive & Habs).
  destruct Hwf as (_ & Hused & _).
  destruct (DEPTH - used mb) as [|k] eqn:Ek; [lia|].
  rewrite Hsl, Habs, <- Hlen. simpl. rewrite lookup_app_here. simpl.
  rewrite copy_at_Some by len. rewrite set_at_Some by len. simpl.
  rewrite insert_app_here, drop_replicate, (cons_middle _ live), app_assoc.
  replace k with (DEPTH - (length live + 1)) by lia.
  destruct (mailbox_wf_build DEPTH MAX_BODY
    (live ++ [{| slot_from := from; slot_len := length body;
       slot_body := body ++ replicate (MAX_BODY - length body) 0%Z |}]) (length live + 1))
    as [Hw Ha]; [len|lia| |].
  { apply Forall_app. split; [done|]. apply Forall_singleton, filled_slot_wf. lia. }
  split; [exact Hw|]. rewrite Ha, map_app. simpl. unfold slot_msg at 2. simpl.
  by rewrite take_app_length.
Qed.

Context {P : Type} (predicate : P -> bytes -> bool * P).
Abbreviation spec_pop' := (spec_pop predicate).

(** The scan finds the position the specification removes at. *)
Lemma find_loop_refines from p live tail i pre :
  length pre = i -> Forall live_slot live ->
  exists idx p', find_loop predicate (length live) i (pre ++ live ++ tail) from p = Some (idx, p') /\
  match idx with
  | None => spec_pop' from p (map slot_msg live) = (None, p', map slot_msg live)
  | Some k => exists l1 s l2, live = l1 ++ s :: l2 /\ k = i + length l1 /\
      spec_pop' from p (map slot_msg live) = (Some (slot_msg s), p', map slot_msg (l1 ++ l2))
  end.
Proof.
  intros <- Hlive. revert p pre. induction Hlive as [|s live Hs Hlive IH]; intros p pre; simpl.
  { by exists None, p. }
  rewrite lookup_app_r, Nat.sub_diag by lia. simpl.
  assert (forall p', exists idx p'',
    find_loop predicate (length live) (length pre + 1) (pre ++ s :: live ++ tail) from p' = Some (idx, p'') /\
    match idx with
    | None => spec_pop' from p' (map slot_msg live) = (None, p'', map slot_msg live)
    | Some k => exists l1 s' l2, s :: live = s :: l1 ++ s' :: l2 /\ k = length pre + S (length l1) /\
        spec_pop' from p' (map slot_msg live) = (Some (slot_msg s'), p'', map slot_msg (l1 ++ l2))
    end) as Hrest.
  { intros p'. destruct (IH p' (pre ++ [s])) as (idx & p'' & Hf & Hspec).
    rewrite <- app_assoc, length_app in Hf. simpl in Hf. exists idx, p''. split; [done|].
    destruct idx as [k|]; [|done]. destruct Hspec as (l1 & s' & l2 & -> & -> & Hspec).
    exists l1, s', l2. split_and!; [done|rewrite length_app; simpl; lia|done]. }
  destruct Hs as (Hb & Hl & _). case_bool.
  - rewrite slice_to_Some by lia. simpl.
    destruct (predicate p (take (slot_len s) (slot_body s))) as [[|] p'].
    + exists (Some (length pre)), p'. split; [done|]. exists [], s, live. split_and!; [done|simpl; lia|done].
    + destruct (Hrest p') as (idx & p'' & -> & Hspec). exists idx, p''. split; [done|].
      destruct idx as [k|]; [destruct Hspec as (l1 & s' & l2 & Hl' & -> & ->)|by rewrite Hspec].
      injection Hl' as ->. exists (s :: l1), s', l2. split_and!; [done..|]. done.
  - destruct (Hrest p) as (idx & p'' & -> & Hspec). exists idx, p''. split; [done|].
    destruct idx as [k|]; [destruct Hspec as (l1 & s' & l2 & Hl' & -> & ->)|by rewrite Hspec].
    injection Hl' as ->. exists (s :: l1), s', l2. split_and!; [done..|]. done.
Qed.

(** Closing the gap left by slot [s] moves the younger slots one place down. *)
Lemma shift_loop_app l1 s l2 tail :
  exists x, shift_loop (length l2) (length l1) (l1 ++ s :: l2 ++ tail)
            = Some (l1 ++ l2 ++ x :: tail).
Proof.
  revert l1 s. induction l2 as [|s2 l2 IH]; intros l1 s; [by exists s|]. simpl shift_loop.
  rewrite lookup_app_r by lia. replace (length l1 + 1 - length l1) with 1 by lia. simpl.
  rewrite set_at_Some by len. simpl.
  rewrite insert_app_here. simpl.
  destruct (IH (l1 ++ [s2]) s2) as [x Hx]. rewrite length_app, <- !app_assoc in Hx.
  simpl in Hx. by exists x.
Qed.

Lemma mailbox_pop_refines from p mb :
  wf mb ->
  exists out p' mb',
    mailbox_pop_matching_where MAX_BODY predicate from p mb = Some (out, p', mb') /\
    wf mb' /\
    spec_pop' from p (mailbox_abs mb) = (slot_msg <$> out, p', mailbox_abs mb') /\
    match out with Some s => live_slot s | None => True end.
Proof.
  intros Hwf. destruct (mailbox_wf_split _ _ _ Hwf) as (live & Hsl & Hlen & Hlive & Habs).
  unfold mailbox_pop_matching_where. rewrite Hsl, <- Hlen, Habs.
  destruct (find_loop_refines from p live (replicate (DEPTH - length live) (empty_slot MAX_BODY)) 0 [])
    as (idx & p' & Hfind & Hspec); [done..|]. simpl in Hfind. rewrite Hfind. simpl.
  destruct idx as [k|]; [|by exists None, p', mb; rewrite <- Habs in *].
  destruct Hspec as (l1 & s & l2 & -> & -> & Hspec). simpl.
  apply Forall_app in Hlive as [Hl1 Hl2]. apply Forall_cons_1 in Hl2 as [Hs Hl2].
  rewrite <- app_assoc. simpl. rewrite lookup_app_here. simpl.
  replace (_ - 1 - length l1) with (length l2) by len.
  set (tail := replicate _ _).
  destruct (shift_loop_app l1 s l2 tail) as [x ->]. simpl.
  assert (length (l1 ++ s :: l2) - 1 = length (l1 ++ l2)) as Hn by len.
  assert (length (l1 ++ l2) < DEPTH) as HD by (destruct Hwf as (_ & ? & _); len).
  rewrite Hn, set_at_Some, app_assoc by len.
  rewrite insert_app_here.
  subst tail. rewrite <- (replicate_S _ (empty_slot MAX_BODY)).
  replace (S _) with (DEPTH - length (l1 ++ l2)) by len.
  destruct (mailbox_wf_build DEPTH MAX_BODY (l1 ++ l2) (length (l1 ++ l2))) as [Hw Ha];
    [done|lia|by apply Forall_app|].
  eexists (Some s), p', _. split; [done|]. split; [exact Hw|]. by rewrite Ha.
Qed.
End refinement_proofs.

(** * One mailbox per message type: [RxState] *)

Section rx_state.
Context (MAX_TYPES DEPTH MAX_BODY : nat).

(** [by_type: [TypeMailbox; MAX_TYPES]]. *)
Definition RxState : Type := list TypeMailbox.

Definition rx_new : RxState := replicate MAX_TYPES (new_mailbox DEPTH MAX_BODY).

Definition rx_push (slot : nat) (from : u8) (body : bytes) : M RxState IngestError unit :=
  st ← get;
  mb ← or_panic (st !! slot);
  on_field (fun _ => mb) (fun mb' st' => <[slot := mb']> st')
    (mailbox_push DEPTH MAX_BODY from body).

Context {P : Type} (predicate : P -> bytes -> bool * P).

Definition rx_pop_matching_where (slot : nat) (from : u8) (p : P) (st : RxState)
  : option (option MailboxSlot * P * RxState) :=
  mb ← st !! slot;
  '(out, p', mb') ← mailbox_pop_matching_where MAX_BODY predicate from p mb;
  Some (out, p', <[slot := mb']> st).
End rx_state.

Section rx_facts.
Context (MAX_TYPES DEPTH MAX_BODY : nat).

Definition rx_wf (st : RxState) : Prop :=
  length st = MAX_TYPES /\ Forall (mailbox_wf DEPTH MAX_BODY) st.

Definition rx_abs (st : RxState) : list queue := map mailbox_abs st.

Lemma rx_new_wf : rx_wf (rx_new MAX_TYPES DEPTH MAX_BODY).
Proof. split; [apply length_replicate|]. apply Forall_replicate, new_mailbox_wf. Qed.

Lemma rx_abs_new : rx_abs (rx_new MAX_TYPES DEPTH MAX_BODY) = replicate MAX_TYPES [].
Proof. unfold rx_abs, rx_new. by induction MAX_TYPES; simpl; f_equal. Qed.

Lemma rx_wf_lookup st slot :
  rx_wf st -> slot < MAX_TYPES ->
  exists mb, st !! slot = Some mb /\ mailbox_wf DEPTH MAX_BODY mb.
Proof.
  intros [Hlen Hwf] Hslot. destruct (lookup_lt_is_Some_2 st slot) as [mb Hmb]; [lia|].
  exists mb. split; [done|]. by eapply Forall_lookup_1.
Qed.

Lemma rx_wf_insert st slot mb :
  rx_wf st -> mailbox_wf DEPTH MAX_BODY mb -> rx_wf (<[slot := mb]> st).
Proof. intros [Hlen Hwf] Hmb. split; [len|by apply Forall_insert]. Qed.

Lemma rx_abs_lookup st slot : rx_abs st !! slot = mailbox_abs <$> (st !! slot).
Proof. apply list_lookup_fmap. Qed.

Lemma rx_abs_insert st slot mb : rx_abs (<[slot := mb]> st) = <[slot := mailbox_abs mb]> (rx_abs st).
Proof. apply list_fmap_insert. Qed.

(** [RxState::push] is [spec_push] on the queue of its slot. *)
Lemma rx_push_refines st slot from body q :
  rx_wf st -> rx_abs st !! slot = Some q ->
  exists r st', rx_push DEPTH MAX_BODY slot from body st = (r, st') /\ rx_wf st' /\
    r = (spec_push DEPTH MAX_BODY from body q).1 /\
    rx_abs st' = <[slot := (spec_push DEPTH MAX_BODY from body q).2]> (rx_abs st).
Proof.
  intros Hwf. rewrite rx_abs_lookup. destruct (st !! slot) as [mb|] eqn:Hmb; [|done].
  intros [= <-]. assert (mailbox_wf DEPTH MAX_BODY mb) as Hmwf.
  { destruct Hwf as [_ Hwf]. by eapply Forall_lookup_1. }
  unfold rx_push, on_field. unfold_M. rewrite Hmb.
  pose proof (mailbox_push_refines DEPTH MAX_BODY from body mb Hmwf) as Hp.
  destruct (mailbox_push DEPTH MAX_BODY from body mb) as [r mb'].
  destruct Hp as [Hmwf' <-]. eexists _, _. split; [done|].
  split; [by apply rx_wf_insert|]. split; [done|]. apply rx_abs_insert.
Qed.

(** [RxState::pop_matching_where] is [spec_pop] on the queue of its slot. *)
Lemma rx_pop_refines {P} (predicate : P -> bytes -> bool * P) st slot from p q :
  rx_wf st -> rx_abs st !! slot = Some q ->
  exists out p' st',
    rx_pop_matching_where MAX_BODY predicate slot from p st = Some (out, p', st') /\ rx_wf st' /\
    (slot_msg <$> out, p') = (spec_pop predicate from p q).1 /\
    rx_abs st' = <[slot := (spec_pop predicate from p q).2]> (rx_abs st).
Proof.
  intros Hwf. rewrite rx_abs_lookup. destruct (st !! slot) as [mb|] eqn:Hmb; [|done].
  intros [= <-]. assert (mailbox_wf DEPTH MAX_BODY mb) as Hmwf.
  { destruct Hwf as [_ Hwf]. by eapply Forall_lookup_1. }
  unfold rx_pop_matching_where. rewrite Hmb. simpl.
  destruct (mailbox_pop_refines DEPTH MAX_BODY predicate from p mb Hmwf)
    as (out & p' & mb' & -> & Hmwf' & -> & _). simpl.
  eexists _, _, _. split; [done|]. split; [by apply rx_wf_insert|]. split; [done|].
  apply rx_abs_insert.
Qed.
End rx_facts.

(** * Runs of operations *)

Section runs.
Context (MAX_TYPES DEPTH MAX_BODY : nat).

Inductive rx_op :=
| OpPush (slot : nat) (from : u8) (body : bytes)
| OpPop (slot : nat) (from : u8) (accept : bytes -> bool).

Inductive rx_reply :=
| Pushed (r : result unit IngestError)
| Popped (msg : option (u8 * bytes)).

Definition op_slot (op : rx_op) : nat := match op with OpPush s _ _ | OpPop s _ _ => s end.

Definition pure_predicate (accept : bytes -> bool) (_ : unit) (b : bytes) : bool * unit :=
  (accept b, tt).

(** One operation on the arrays ([None] is a panic) and on the lists. *)
Definition rx_step (op : rx_op) (st : RxState) : option (rx_reply * RxState) :=
  match op with
  | OpPush slot from body =>
      let '(r, st') := rx_push DEPTH MAX_BODY slot from body st in
      match r with Panic => None | _ => Some (Pushed r, st') end
  | OpPop slot from accept =>
      '(out, _, st') ← rx_pop_matching_where MAX_BODY (pure_predicate accept) slot from tt st;
      Some (Popped (slot_msg <$> out), st')
  end.

Definition spec_step (op : rx_op) (qs : list queue) : option (rx_reply * list queue) :=
  q ← qs !! op_slot op;
  match op with
  | OpPush slot from body =>
      let '(r, q') := spec_push DEPTH MAX_BODY from body q in Some (Pushed r, <[slot := q']> qs)
  | OpPop slot from accept =>
      let '(out, _, q') := spec_pop (pure_predicate accept) from tt q in
      Some (Popped out, <[slot := q']> qs)
  end.

Fixpoint run {S} (step : rx_op -> S -> option (rx_reply * S)) (ops : list rx_op) (s : S)
  : option (list rx_reply * S) :=
  match ops with
  | [] => Some ([], s)
  | op :: ops' =>
      '(r, s') ← step op s;
      '(rs, s'') ← run step ops' s';
      Some (r :: rs, s'')
  end.

Lemma rx_step_refines op st :
  rx_wf MAX_TYPES DEPTH MAX_BODY st -> op_slot op < MAX_TYPES ->
  exists r st', rx_step op st = Some (r, st') /\ rx_wf MAX_TYPES DEPTH MAX_BODY st' /\
    spec_step op (rx_abs st) = Some (r, rx_abs st').
Proof.
  intros Hwf Hslot. destruct (rx_wf_lookup _ _ _ _ _ Hwf Hslot) as (mb & Hmb & _).
  assert (rx_abs st !! op_slot op = Some (mailbox_abs mb)) as Hq by (by rewrite rx_abs_lookup, Hmb).
  unfold spec_step. rewrite Hq. simpl. destruct op as [slot from body|slot from accept]; simpl in *.
  - destruct (rx_push_refines _ _ _ st slot from body _ Hwf Hq) as (r & st' & -> & Hwf' & -> & Habs).
    unfold spec_push in *. repeat case_bool; simpl in *; rewrite <- Habs; eauto.
  - destruct (rx_pop_refines _ _ _ (pure_predicate accept) st slot from tt _ Hwf Hq)
      as (out & [] & st' & -> & Hwf' & Hout & Habs). simpl.
    destruct (spec_pop _ _ _ _) as [[out' []] q']. simplify_eq/=. rewrite <- Habs. eauto.
Qed.

(** C8. Refinement of the receive mailboxes: any sequence of pushes and pops
    that starts from [RxState::new()] and names existing slots runs without a
    panic on the arrays, and gives the replies and the contents that the same
    sequence gives on plain lists of messages. *)
Theorem rx_run_refines (ops : list rx_op) :
  Forall (fun op => op_slot op < MAX_TYPES) ops ->
  exists rs st, run rx_step ops (rx_new MAX_TYPES DEPTH MAX_BODY) = Some (rs, st) /\
    rx_wf MAX_TYPES DEPTH MAX_BODY st /\
    run spec_step ops (replicate MAX_TYPES []) = Some (rs, rx_abs st).
Proof.
  intros Hops. rewrite <- (rx_abs_new MAX_TYPES DEPTH MAX_BODY).
  generalize (rx_new_wf MAX_TYPES DEPTH MAX_BODY).
  generalize (rx_new MAX_TYPES DEPTH MAX_BODY) as st.
  induction Hops as [|op ops Hop _ IH]; intros st Hwf; simpl; [eauto|].
  destruct (rx_step_refines op st Hwf Hop) as (r & st' & -> & Hwf' & ->). simpl.
  destruct (IH st' Hwf') as (rs & st'' & -> & Hwf'' & ->). simpl. eauto.
Qed.
End runs.

Lemma rx_run_refines_witness :
  let ops := [OpPush 1 17 [1; 2]%Z; OpPush 1 34 [3]%Z; OpPush 1 17 [4]%Z; OpPush 1 17 [5; 6; 7]%Z;
              OpPush 1 17 []; OpPop 1 17 (fun b => length b =? 1); OpPop 0 17 (fun _ => true)] in
  exists rs st, run (rx_step 3 2) ops (rx_new 2 3 2) = Some (rs, st) /\
    rx_wf 2 3 2 st /\ run (spec_step 3 2) ops (replicate 2 []) = Some (rs, rx_abs st) /\
    rs = [Pushed (Ok tt); Pushed (Ok tt); Pushed (Ok tt); Pushed (Err (BodyTooLarge 3 2));
          Pushed (Err MailboxFull); Popped (Some (17, [4])%Z); Popped None].
Proof.
  intros ops.
  destruct (rx_run_refines 2 3 2 ops) as (rs & st & H1 & H2 & H3); [repeat constructor; simpl; lia|].
  exists rs, st. split_and!; [done..|].
  apply (f_equal (fmap fst)) in H1. vm_compute in H1. by injection H1 as <-.
Defined.

(** * What a pop returns *)

Definition matches (from : u8) (accept : bytes -> bool) (m : u8 * bytes) : Prop :=
  m.1 = from /\ accept m.2 = true.

Lemma spec_pop_oldest accept from q :
  match spec_pop (pure_predicate accept) from tt q with
  | (Some m, _, q') => exists q1 q2, q = q1 ++ m :: q2 /\ q' = q1 ++ q2 /\ matches from accept m /\
                       Forall (fun m' => ~ matches from accept m') q1
  | (None, _, q') => q' = q /\ Forall (fun m' => ~ matches from accept m') q
  end.
Proof.
  induction q as [|[f b] q IH]; simpl; [done|].
  destruct (spec_pop _ from tt q) as [[[m|] []] q'].
  - destruct IH as (q1 & q2 & -> & -> & Hm & Hq1). case_bool; [destruct (accept b) eqn:Hb|].
    + exists [], (q1 ++ m :: q2). by subst.
    + exists ((f, b) :: q1), q2. split_and!; try done.
      constructor; [unfold matches; simpl; intuition congruence|done].
    + exists ((f, b) :: q1), q2. split_and!; try done. by constructor; [intros [? _]|].
  - destruct IH as [-> Hq]. case_bool; [destruct (accept b) eqn:Hb|].
    + exists [], q. by subst.
    + split; [done|]. constructor; [unfold matches; simpl; intuition congruence|done].
    + split; [done|]. by constructor; [intros [? _]|].
Qed.

(** Oldest match first: popping for a sender and a predicate returns the
    oldest stored message of that sender that the predicate accepts and keeps
    all the others in order; when there is none it returns nothing and leaves
    the mailbox as it was. *)
Theorem mailbox_pop_oldest_match DEPTH MAX_BODY accept from mb :
  mailbox_wf DEPTH MAX_BODY mb ->
  exists out mb',
    mailbox_pop_matching_where MAX_BODY (pure_predicate accept) from tt mb = Some (out, tt, mb') /\
    match out with
    | Some s => exists q1 q2, mailbox_abs mb = q1 ++ slot_msg s :: q2 /\ mailbox_abs mb' = q1 ++ q2 /\
        matches from accept (slot_msg s) /\ Forall (fun m => ~ matches from accept m) q1
    | None => mailbox_abs mb' = mailbox_abs mb /\
        Forall (fun m => ~ matches from accept m) (mailbox_abs mb)
    end.
Proof.
  intros Hwf.
  destruct (mailbox_pop_refines DEPTH MAX_BODY (pure_predicate accept) from tt mb Hwf)
    as (out & [] & mb' & Hpop & _ & Hspec & _).
  exists out, mb'. split; [done|]. pose proof (spec_pop_oldest accept from (mailbox_abs mb)) as Ho.
  rewrite Hspec in Ho. by destruct out.
Qed.

Lemma mailbox_pop_oldest_match_witness :
  let mb := (mailbox_push 2 2 17 [5]%Z (new_mailbox 2 2)).2 in
  exists out mb',
    mailbox_pop_matching_where 2 (pure_predicate (fun _ => true)) 17 tt mb = Some (out, tt, mb') /\
    slot_msg <$> out = Some (17, [5])%Z.
Proof.
  intros mb. destruct (mailbox_pop_oldest_match 2 2 (fun _ => true) 17 mb) as (out & mb' & H & _).
  { split_and!; simpl; try lia; by repeat constructor; simpl; lia. }
  exists out, mb'. split; [done|].
  assert (option_map (fun x => option_map slot_msg x.1.1)
    (mailbox_pop_matching_where 2 (pure_predicate (fun _ => true)) 17 tt mb) = Some (Some (17, [5])%Z)) as E
    by reflexivity.
  rewrite H in E. simpl in E. destruct out; simpl in *; congruence.
Defined.
