(* ===== verification/Interface.v ===== *)
(** The shared bus interface ([src/thincan/src/lib.rs], [Interface] and
    [BusHandle]): the transmit path over an ISO-TP endpoint, [ingest] and the
    ingest pump, and mailboxed receive.

    The ISO-TP endpoint traits ([can-isotp-interface]) and
    [embassy_sync::watch::Watch] are outside the repository: they are class
    parameters, with the documented behaviour the code relies on as laws.

    The theorems cover calls that run one after the other; [BusSystem] takes
    them apart at their awaits and interleaves them. *)
From S2P Require Import Prelude Wire Maplet Mailbox.

(** * Parameters: the transport and the watch *)

Inductive RecvError (E : Type) :=
| RecvBufferTooSmall (needed got : nat)
| RecvBackend (e : E).
Arguments RecvBufferTooSmall {E} needed got.
Arguments RecvBackend {E} e.

Inductive RecvStatus := StatusTimedOut | StatusDeliveredOne.
Inductive RecvControl := ControlContinue | ControlStop.

Inductive RecvMetaIntoStatus :=
| RecvTimedOut
| DeliveredOne (reply_to : u8) (len : nat).

(** [IsoTpEndpoint] and [IsoTpAsyncEndpoint]: the methods the code calls. *)
Class IsoTpEndpoint (Node E : Type) := {
  node_send_to : u8 -> bytes -> Duration -> M Node (SendError E) unit;
  node_send_functional_to : u8 -> bytes -> Duration -> M Node (SendError E) unit;
}.

(** [IsoTpAsyncEndpointRecvInto]: fills the caller's buffer. *)
Class IsoTpRecvInto (Node E : Type) := {
  node_recv_one_into : Duration -> bytes -> Node -> result RecvMetaIntoStatus (RecvError E) * Node * bytes;
}.

(** The contract of [recv_one_into]: it fills the slice it was given and the
    length it reports lies inside it. *)
Class IsoTpRecvIntoLaws (Node E : Type) `{IsoTpRecvInto Node E} := {
  recv_into_length t out n : length (node_recv_one_into t out n).2 = length out;
  recv_into_len t out n reply_to len :
    (node_recv_one_into t out n).1.1 = Ok (DeliveredOne reply_to len) -> len <= length out;
  recv_into_no_panic t out n : (node_recv_one_into t out n).1.1 <> Panic;
}.

(** [embassy_sync::watch::Watch<(), MAX_WAITERS>] ([Watch]) and its receivers
    ([Rcv]).  [watch_changed] is one poll of [receiver.changed()]: [None] is
    pending. *)
Class WatchOps (W R : Type) := {
  watch_new_with : nat -> W;
  watch_send : W -> W;
  watch_receiver : W -> option (R * W);
  watch_drop : R -> W -> W;
  watch_changed : R -> W -> option R;
}.

(** The documented behaviour: [changed()] completes once a value was sent after
    the receiver last looked, and stays ready until it is polled, whatever the
    other receivers do. *)
Class WatchLaws (W R : Type) `{WatchOps W R} := {
  watch_of : R -> W -> Prop;
  watch_of_receiver w r w' : watch_receiver w = Some (r, w') -> watch_of r w';
  watch_of_send r w : watch_of r w -> watch_of r (watch_send w);
  watch_of_other r w r' w' : watch_of r w -> watch_receiver w = Some (r', w') -> watch_of r w';
  watch_of_drop r w r' : watch_of r w -> watch_of r (watch_drop r' w);
  watch_of_changed r w r' : watch_of r w -> watch_changed r w = Some r' -> watch_of r' w;
  watch_send_ready r w : watch_of r w -> is_Some (watch_changed r (watch_send w));
  watch_other_ready r w r' w' :
    is_Some (watch_changed r w) -> watch_receiver w = Some (r', w') -> is_Some (watch_changed r w');
  watch_drop_ready r w r' : is_Some (watch_changed r w) -> is_Some (watch_changed r (watch_drop r' w));
}.

(** ... and [receiver()] gives out receivers while fewer than [MAX_WAITERS] are
    in use; [watch_room] is how many more there can be. *)
Class WatchCapacity (W R : Type) `{WatchOps W R} := {
  watch_room : W -> nat;
  room_new n : watch_room (watch_new_with n) = n;
  room_receiver w : 0 < watch_room w -> is_Some (watch_receiver w);
  room_send w : watch_room (watch_send w) = watch_room w;
  room_drop w r w' : watch_receiver w = Some (r, w') -> watch_room (watch_drop r w') = watch_room w;
}.

(** * State *)

Record TxState (Node : Type) := { tx_node : Node; tx : bytes }.
Arguments tx_node {Node}.
Arguments tx {Node}.

Record Interface (Node W : Type) := {
  tx_state : TxState Node;
  rx_transport : Node;
  rx_state : RxState;
  notify : list W;
}.
Arguments tx_state {Node W}.
Arguments rx_transport {Node W}.
Arguments rx_state {Node W}.
Arguments notify {Node W}.

Record IngestOutcome := { out_from : u8; out_id : u16; out_len : nat }.

Inductive IngestPumpStatus :=
| TimedOut
| Delivered (o : IngestOutcome).

Inductive IngestPumpError (E : Type) :=
| PumpRecvBufferTooSmall (needed got : nat)
| PumpRecvBackend (e : E)
| PumpIngest (e : IngestError).
Arguments PumpRecvBufferTooSmall {E} needed got.
Arguments PumpRecvBackend {E} e.
Arguments PumpIngest {E} e.

(** A typed received message. *)
Record Received := { recv_from : u8; recv_id : u16; recv_len : nat; recv_buf : bytes }.

Definition from_slot (ID : u16) (from : u8) (slot : MailboxSlot) : Received :=
  {| recv_from := from; recv_id := ID; recv_len := slot_len slot; recv_buf := slot_body slot |}.

(** [Received::body]. *)
Definition received_body (r : Received) : option bytes := slice (recv_buf r) 0 (recv_len r).

(** * Operations *)

Section ops.
Context {Node E W R : Type} `{IsoTpEndpoint Node E} `{IsoTpRecvInto Node E} `{WatchOps W R}.
Context (MESSAGE_IDS : list u16) (DEPTH MAX_BODY MAX_WAITERS : nat).

Definition interface_new (txn rxn : Node) (buf : bytes) : Interface Node W :=
  {| tx_state := {| tx_node := txn; tx := buf |};
     rx_transport := rxn;
     rx_state := rx_new (length MESSAGE_IDS) DEPTH MAX_BODY;
     notify := replicate (length MESSAGE_IDS) (watch_new_with MAX_WAITERS) |}.

(** One endpoint for both directions; [clone] is the node's [Clone]. *)
Definition new_shared (clone : Node -> Node) (node : Node) (buf : bytes) : Interface Node W :=
  interface_new (clone node) node buf.

Definition set_tx_state (t : TxState Node) (i : Interface Node W) : Interface Node W :=
  {| tx_state := t; rx_transport := rx_transport i; rx_state := rx_state i; notify := notify i |}.
Definition set_rx_transport (n : Node) (i : Interface Node W) : Interface Node W :=
  {| tx_state := tx_state i; rx_transport := n; rx_state := rx_state i; notify := notify i |}.
Definition set_rx_state (st : RxState) (i : Interface Node W) : Interface Node W :=
  {| tx_state := tx_state i; rx_transport := rx_transport i; rx_state := st; notify := notify i |}.
Definition set_notify (ws : list W) (i : Interface Node W) : Interface Node W :=
  {| tx_state := tx_state i; rx_transport := rx_transport i; rx_state := rx_state i; notify := ws |}.

(** [send_capnp_to] and the locked body of [send_capnp_to_async_shared]. *)
Definition tx_send_capnp {V} `{EncodeCapnp V} (send : u8 -> bytes -> Duration -> M Node (SendError E) unit)
    (ID : u16) (to : u8) (value : V) (timeout : Duration) : M (TxState Node) Error unit :=
  payload ← on_field tx (fun b t => {| tx_node := tx_node t; tx := b |}) (encode_capnp_into_buf ID value);
  on_field tx_node (fun n t => {| tx_node := n; tx := tx t |})
    (catch map_isotp_send_error (send to payload timeout)).

Definition send_capnp_to {V} `{EncodeCapnp V} (ID : u16) (to : u8) (value : V) (timeout : Duration)
  : M (Interface Node W) Error unit :=
  on_field tx_state set_tx_state (tx_send_capnp node_send_to ID to value timeout).

Definition send_capnp_functional_to {V} `{EncodeCapnp V} (ID : u16) (functional_to : u8) (value : V)
    (timeout : Duration) : M (Interface Node W) Error unit :=
  on_field tx_state set_tx_state (tx_send_capnp node_send_functional_to ID functional_to value timeout).

Definition encode_capnp_into {V} `{EncodeCapnp V} (ID : u16) (value : V) : M (Interface Node W) Error bytes :=
  on_field tx_state set_tx_state
    (on_field tx (fun b t => {| tx_node := tx_node t; tx := b |}) (encode_capnp_into_buf ID value)).

(** The async versions, run without contention on the transmit lock. *)
Definition send_capnp_to_async {V} `{EncodeCapnp V} (ID : u16) (to : u8) (value : V) (timeout : Duration)
  : M (Interface Node W) Error unit :=
  on_field tx_state set_tx_state (tx_send_capnp node_send_to ID to value timeout).
Definition send_capnp_functional_to_async {V} `{EncodeCapnp V} (ID : u16) (functional_to : u8) (value : V)
    (timeout : Duration) : M (Interface Node W) Error unit :=
  on_field tx_state set_tx_state (tx_send_capnp node_send_functional_to ID functional_to value timeout).

(** [self.iface.notify[slot].sender().send(())]. *)
Definition notify_slot (slot : nat) (ws : list W) : option (list W) :=
  w ← ws !! slot; Some (<[slot := watch_send w]> ws).

(** The checks of [ingest] before it takes the lock. *)
Definition ingest_decode (payload : bytes) : result (RawMessage * nat) IngestError :=
  let? raw := map_err (fun _ => MalformedPayload) (decode_wire payload) in
  let? slot := ok_or (slot_for_id MESSAGE_IDS (id raw)) (UnknownId (id raw)) in
  Ok (raw, slot).

Definition ingest (from : u8) (payload : bytes) : M (Interface Node W) IngestError IngestOutcome :=
  '(raw, slot) ← lift (ingest_decode payload);
  let len := length (body raw) in
  on_field rx_state set_rx_state (rx_push DEPTH MAX_BODY slot from (body raw));;
  ws ← gets notify;
  ws' ← or_panic (notify_slot slot ws);
  modify (set_notify ws');;
  mret {| out_from := from; out_id := id raw; out_len := len |}.

(** [pump_ingest_once]; the result carries the caller's scratch buffer. *)
Definition pump_ingest_once (timeout : Duration) (rx_buf : bytes) (i : Interface Node W)
  : result IngestPumpStatus (IngestPumpError E) * Interface Node W * bytes :=
  let '(recv, n, rx_buf') := node_recv_one_into timeout rx_buf (rx_transport i) in
  let i' := set_rx_transport n i in
  match recv with
  | Ok RecvTimedOut => (Ok TimedOut, i', rx_buf')
  | Ok (DeliveredOne reply_to len) =>
      match slice rx_buf' 0 len with
      | None => (Panic, i', rx_buf')
      | Some payload =>
          let '(r, i'') := catch PumpIngest (ingest reply_to payload) i' in
          (map_ok Delivered r, i'', rx_buf')
      end
  | Err (RecvBufferTooSmall needed got) => (Err (PumpRecvBufferTooSmall needed got), i', rx_buf')
  | Err (RecvBackend e) => (Err (PumpRecvBackend e), i', rx_buf')
  | Panic => (Panic, i', rx_buf')
  end.
End ops.

(** * Ingest *)

Section ingest_facts.
Context {Node E W R : Type} `{IsoTpEndpoint Node E} `{IsoTpRecvInto Node E} `{WatchOps W R}.
Context (MESSAGE_IDS : list u16) (DEPTH MAX_BODY MAX_WAITERS : nat).
Abbreviation MAX_TYPES := (length MESSAGE_IDS).

Definition iface_wf (i : Interface Node W) : Prop :=
  rx_wf MAX_TYPES DEPTH MAX_BODY (rx_state i) /\ length (notify i) = MAX_TYPES.

(** What [ingest] does to the queues and to the watches. *)
Definition spec_ingest (from : u8) (payload : bytes) (qs : list queue) (ws : list W)
  : result IngestOutcome IngestError * list queue * list W :=
  match decode_wire payload with
  | Ok raw =>
      match slot_for_id MESSAGE_IDS (id raw) with
      | None => (Err (UnknownId (id raw)), qs, ws)
      | Some k =>
          let q := default [] (qs !! k) in
          if MAX_BODY <? length (body raw)
          then (Err (BodyTooLarge (length (body raw)) MAX_BODY), qs, ws)
          else if length q =? DEPTH then (Err MailboxFull, qs, ws)
          else (Ok {| out_from := from; out_id := id raw; out_len := length (body raw) |},
                <[k := q ++ [(from, body raw)]]> qs, alter watch_send k ws)
      end
  | _ => (Err MalformedPayload, qs, ws)
  end.

Lemma interface_new_wf (txn rxn : Node) buf :
  iface_wf (interface_new MESSAGE_IDS DEPTH MAX_BODY MAX_WAITERS txn rxn buf).
Proof. split; simpl; [apply rx_new_wf|len]. Qed.

Lemma decode_wire_no_panic payload : decode_wire payload <> Panic.
Proof. destruct payload as [|b0 [|b1 rest]]; [done..|]. by rewrite decode_wire_cons. Qed.

Lemma notify_slot_alter k (ws : list W) : k < length ws -> notify_slot k ws = Some (alter watch_send k ws).
Proof.
  intros Hk. unfold notify_slot. destruct (lookup_lt_is_Some_2 ws k Hk) as [w Hw].
  rewrite Hw. simpl. by rewrite (alter_as_insert _ _ _ _ Hw).
Qed.

Lemma ingest_refines from payload (i : Interface Node W) :
  iface_wf i ->
  let '(r, i') := ingest MESSAGE_IDS DEPTH MAX_BODY from payload i in
  iface_wf i' /\ tx_state i' = tx_state i /\ rx_transport i' = rx_transport i /\
  (r, rx_abs (rx_state i'), notify i') = spec_ingest from payload (rx_abs (rx_state i)) (notify i).
Proof.
  intros [Hwf Hn]. unfold ingest, ingest_decode, spec_ingest, on_field. unfold_M.
  pose proof (decode_wire_no_panic payload).
  destruct (decode_wire payload) as [raw|e|]; [|done..]. simpl.
  destruct (slot_for_id MESSAGE_IDS (id raw)) as [k|] eqn:Hk; simpl; [|done].
  apply slot_for_id_lt in Hk.
  destruct (rx_wf_lookup _ _ _ _ _ Hwf Hk) as (mb & Hmb & _).
  assert (rx_abs (rx_state i) !! k = Some (mailbox_abs mb)) as Hq by (by rewrite rx_abs_lookup, Hmb).
  rewrite Hq. simpl.
  destruct (rx_push_refines _ _ _ _ k from (body raw) _ Hwf Hq) as (r & st' & -> & Hwf' & -> & Habs).
  unfold spec_push in *. repeat case_bool; simpl in *.
  - rewrite Habs, list_insert_id by done. done.
  - rewrite Habs, list_insert_id by done. done.
  - rewrite notify_slot_alter by lia. simpl. rewrite Habs. split; [|done].
    split; [done|]. simpl. by rewrite length_alter.
Qed.
End ingest_facts.

Section ingest_theorems.
Context {Node E W R : Type} `{IsoTpEndpoint Node E} `{IsoTpRecvIntoLaws Node E} `{WatchOps W R}.
Context (MESSAGE_IDS : list u16) (DEPTH MAX_BODY MAX_WAITERS : nat).
Abbreviation wf := (iface_wf MESSAGE_IDS DEPTH MAX_BODY).
Abbreviation ingest' := (ingest MESSAGE_IDS DEPTH MAX_BODY).

(** Ingest a list of payloads one after the other. *)
Fixpoint ingest_all (ps : list (u8 * bytes)) (i : Interface Node W)
  : list (result IngestOutcome IngestError) * Interface Node W :=
  match ps with
  | [] => ([], i)
  | (from, payload) :: ps' =>
      let '(r, i') := ingest' from payload i in
      let '(rs, i'') := ingest_all ps' i' in (r :: rs, i'')
  end.

Fixpoint spec_ingest_all (ps : list (u8 * bytes)) (qs : list queue) (ws : list W)
  : list (result IngestOutcome IngestError) * list queue * list W :=
  match ps with
  | [] => ([], qs, ws)
  | (from, payload) :: ps' =>
      let '(r, qs', ws') := spec_ingest MESSAGE_IDS DEPTH MAX_BODY from payload qs ws in
      let '(rs, qs'', ws'') := spec_ingest_all ps' qs' ws' in (r :: rs, qs'', ws'')
  end.

(** Ingest is correct on every branch: a fresh interface that ingests any
    payloads in any order reports malformed payloads, unknown ids, oversized
    bodies and full mailboxes as such without touching queues or watches,
    appends every accepted body to the queue of its message type, notifies
    that type's watch only, never panics and never touches the transmit
    side. *)
Theorem ingest_all_correct (txn rxn : Node) (buf : bytes) (ps : list (u8 * bytes)) :
  let i0 := interface_new MESSAGE_IDS DEPTH MAX_BODY MAX_WAITERS txn rxn buf in
  let '(rs, i) := ingest_all ps i0 in
  wf i /\ tx_state i = tx_state i0 /\ rx_transport i = rxn /\
  (rs, rx_abs (rx_state i), notify i) =
    spec_ingest_all ps (replicate (length MESSAGE_IDS) [])
      (replicate (length MESSAGE_IDS) (watch_new_with MAX_WAITERS)) /\
  Forall (fun r => r <> Panic) rs.
Proof.
  intros i0. change rxn with (rx_transport i0).
  rewrite <- (rx_abs_new (length MESSAGE_IDS) DEPTH MAX_BODY).
  change (rx_new _ _ _) with (rx_state i0). change (replicate _ (watch_new_with _)) with (notify i0).
  assert (wf i0) as Hwf by apply interface_new_wf. clearbody i0. revert i0 Hwf.
  induction ps as [|[from payload] ps IH]; intros i Hwf; simpl; [done|].
  pose proof (ingest_refines MESSAGE_IDS DEPTH MAX_BODY from payload i Hwf) as Hi.
  destruct (ingest' from payload i) as [r i'].
  destruct Hi as (Hwf' & Htx & Hrx & Hspec).
  specialize (IH i' Hwf'). destruct (ingest_all ps i') as [rs i''].
  rewrite <- Hspec. destruct IH as (? & -> & -> & <- & Hnp). split_and!; try done.
  constructor; [|done]. intros ->. unfold spec_ingest in Hspec. by cases.
Qed.

(** One pump step is one [recv_one_into] followed by one [ingest]: a
    timeout or a transport error leaves the mailboxes alone and is reported as
    such; a delivered payload is ingested byte for byte from its sender. *)
Theorem pump_ingest_once_correct timeout rx_buf (i : Interface Node W) :
  wf i ->
  let '(r, i', rx_buf') := pump_ingest_once MESSAGE_IDS DEPTH MAX_BODY timeout rx_buf i in
  let recv := node_recv_one_into timeout rx_buf (rx_transport i) in
  wf i' /\ tx_state i' = tx_state i /\ rx_transport i' = recv.1.2 /\ rx_buf' = recv.2 /\
  match recv.1.1 with
  | Ok (DeliveredOne reply_to len) =>
      let '(ri, qs, ws) := spec_ingest MESSAGE_IDS DEPTH MAX_BODY reply_to (take len rx_buf')
                             (rx_abs (rx_state i)) (notify i) in
      r = map_err PumpIngest (map_ok Delivered ri) /\
      rx_abs (rx_state i') = qs /\ notify i' = ws
  | other =>
      rx_state i' = rx_state i /\ notify i' = notify i /\
      r = match other with
          | Err (RecvBufferTooSmall needed got) => Err (PumpRecvBufferTooSmall needed got)
          | Err (RecvBackend e) => Err (PumpRecvBackend e)
          | _ => Ok TimedOut
          end
  end.
Proof.
  intros Hwf. unfold pump_ingest_once.
  pose proof (recv_into_length timeout rx_buf (rx_transport i)) as Hlen.
  pose proof (recv_into_len timeout rx_buf (rx_transport i)) as Hle.
  pose proof (recv_into_no_panic timeout rx_buf (rx_transport i)) as Hnp.
  destruct (node_recv_one_into timeout rx_buf (rx_transport i)) as [[recv n] rx_buf']. simpl in *.
  destruct recv as [[|reply_to len]|[needed got|e]|]; try done.
  specialize (Hle _ _ eq_refl). rewrite slice_to_Some by lia. unfold catch.
  pose proof (ingest_refines MESSAGE_IDS DEPTH MAX_BODY reply_to (take len rx_buf') (set_rx_transport n i) Hwf) as Hi.
  destruct (ingest' _ _ _) as [ri i'']. destruct Hi as (Hwf' & -> & -> & Hspec). simpl in Hspec.
  rewrite <- Hspec. split_and!; try done. by destruct ri.
Qed.
End ingest_theorems.

(** * Sending *)

Section send_theorems.
Context {Node E W R : Type} `{IsoTpEndpoint Node E} `{IsoTpRecvIntoLaws Node E} `{WatchOps W R}.
Context {V : Type} `{EncodeKeepsLength V}.
Context (MESSAGE_IDS : list u16) (DEPTH MAX_BODY : nat).

Lemma rx_pop_appended k from b q st :
  rx_wf (length MESSAGE_IDS) DEPTH MAX_BODY st ->
  rx_abs st !! k = Some (q ++ [(from, b)]) -> Forall (fun m => m.1 <> from) q ->
  exists s st', rx_pop_matching_where MAX_BODY (pure_predicate (fun _ => true)) k from tt st
                = Some (Some s, tt, st') /\ slot_msg s = (from, b) /\ slot_wf MAX_BODY s.
Proof.
  intros Hwf Hq Hfrom. rewrite rx_abs_lookup in Hq.
  destruct (st !! k) as [mb|] eqn:Hmb; [|done]. injection Hq as Hq.
  assert (mailbox_wf DEPTH MAX_BODY mb) as Hm.
  { destruct Hwf as [_ Hwf]. by eapply Forall_lookup_1. }
  destruct (mailbox_pop_refines DEPTH MAX_BODY (pure_predicate (fun _ => true)) from tt mb Hm)
    as (out & [] & mb' & Hpop & _ & Hspec & Hs).
  pose proof (spec_pop_oldest (fun _ => true) from (mailbox_abs mb)) as Ho. rewrite Hspec in Ho.
  unfold rx_pop_matching_where. rewrite Hmb. simpl. rewrite Hpop. simpl.
  destruct out as [s|]; simpl in *.
  - exists s. eexists. split; [done|]. split; [|done].
    destruct Ho as (q1 & q2 & Heq & _ & [Hmf _] & _). rewrite Hq in Heq.
    destruct q2 as [|x q2' _] using rev_ind.
    + apply app_inj_2 in Heq as [_ Heq]; [|done]. congruence.
    + rewrite app_comm_cons, app_assoc in Heq. apply app_inj_2 in Heq as [-> _]; [|done].
      apply Forall_app in Hfrom as [_ Hf]. by apply Forall_cons_1 in Hf as [? _].
  - destruct Ho as [_ Ho]. rewrite Hq in Ho. apply Forall_app in Ho as [_ Ho].
    apply Forall_cons_1 in Ho as [Ho _]. exfalso. by apply Ho.
Qed.

(** C17. A message survives the whole path: when the sender's [send_capnp_to]
    hands a payload to its transport and the receiving interface ingests that
    payload, the receiver's mailbox for the message id gains exactly the bytes
    the value encoded, tagged with the sender's address, and the next receive
    for that id and sender returns them. *)
Theorem send_ingest_receive (a b : Interface Node W) ID to from value timeout payload buf' k q :
  is_u16 ID ->
  encode_capnp_into_buf ID value (tx (tx_state a)) = (Ok payload, buf') ->
  iface_wf MESSAGE_IDS DEPTH MAX_BODY b ->
  slot_for_id MESSAGE_IDS ID = Some k ->
  max_encoded_len value <= MAX_BODY ->
  rx_abs (rx_state b) !! k = Some q -> length q < DEPTH -> Forall (fun m => m.1 <> from) q ->
  (** the transport is called once, with the payload *)
  send_capnp_to ID to value timeout a =
    (map_err map_isotp_send_error (node_send_to to payload timeout (tx_node (tx_state a))).1,
     set_tx_state {| tx_node := (node_send_to to payload timeout (tx_node (tx_state a))).2; tx := buf' |} a) /\
  exists used out b' s st',
    encode value (take (max_encoded_len value) (drop HEADER_LEN (tx (tx_state a)))) = (Ok used, out) /\
    ingest MESSAGE_IDS DEPTH MAX_BODY from payload b =
      (Ok {| out_from := from; out_id := ID; out_len := used |}, b') /\
    rx_pop_matching_where MAX_BODY (pure_predicate (fun _ => true)) k from tt (rx_state b')
      = Some (Some s, tt, st') /\
    received_body (from_slot ID from s) = Some (take used out).
Proof.
  intros HID Henc Hwf Hk Hmax Hq Hdepth Hfrom. split.
  { unfold send_capnp_to, tx_send_capnp, on_field, catch. unfold_M. rewrite Henc.
    by destruct (node_send_to _ _ _ _) as [[]]. }
  destruct (encode_capnp_into_buf_Ok ID value _ _ _ HID Henc) as (used & out & He & Hle & Hused & Hdec & _).
  pose proof (ingest_refines MESSAGE_IDS DEPTH MAX_BODY from payload b Hwf) as Hi.
  destruct (ingest _ _ _ from payload b) as [r b'] eqn:Hing.
  destruct Hi as ([Hrx _] & _ & _ & Hspec). unfold spec_ingest in Hspec.
  rewrite Hdec in Hspec. simpl in Hspec. rewrite Hk, Hq in Hspec. simpl in Hspec.
  rewrite Hused in Hspec. repeat case_bool; [lia..|]. injection Hspec as -> Habs _.
  destruct (rx_pop_appended k from (take used out) q (rx_state b')) as (s & st' & Hpop & Hmsg & Hsw); [done|..|done|].
  { rewrite Habs. apply list_lookup_insert_eq. by eapply lookup_lt_Some. }
  exists used, out, b', s, st'. split_and!; try done.
  unfold received_body. simpl. destruct Hsw as (? & ? & _). rewrite slice_to_Some by lia.
  by injection Hmsg as _ ->.
Qed.
End send_theorems.

(** * Instances used to run the definitions *)

(** A watch as a version counter with a bounded number of receivers. *)
Record CounterWatch := { version : nat; receivers : nat; max_receivers : nat }.

Global Instance CounterWatch_ops : WatchOps CounterWatch nat := {
  watch_new_with n := {| version := 0; receivers := 0; max_receivers := n |};
  watch_send w := {| version := S (version w); receivers := receivers w; max_receivers := max_receivers w |};
  watch_receiver w :=
    if receivers w <? max_receivers w
    then Some (0, {| version := version w; receivers := S (receivers w); max_receivers := max_receivers w |})
    else None;
  watch_drop _ w := {| version := version w; receivers := receivers w - 1; max_receivers := max_receivers w |};
  watch_changed r w := if r <? version w then Some (version w) else None;
}.

Global Instance CounterWatch_laws : WatchLaws CounterWatch nat.
Proof.
  refine {| watch_of r w := r <= version w |}; unfold watch_receiver, watch_send, watch_drop, watch_changed; simpl;
    intros; repeat case_bool; simplify_eq/=; try (by eauto); try lia.
Qed.

Global Instance CounterWatch_capacity : WatchCapacity CounterWatch nat.
Proof.
  refine {| watch_room w := max_receivers w - receivers w |};
    unfold watch_new_with, watch_receiver, watch_send, watch_drop; simpl; intros;
    repeat case_bool; simplify_eq/=; try done; try lia.
Qed.

(** A transport that records what it sends and receives from a list. *)
Record ListNode := { sent : list (u8 * bytes); inbox : list (u8 * bytes) }.

Global Instance ListNode_endpoint : IsoTpEndpoint ListNode unit := {
  node_send_to to p _ := modify (fun n => {| sent := sent n ++ [(to, p)]; inbox := inbox n |});
  node_send_functional_to to p _ := modify (fun n => {| sent := sent n ++ [(to, p)]; inbox := inbox n |});
}.

Global Instance ListNode_recv : IsoTpRecvInto ListNode unit := {
  node_recv_one_into _ out n :=
    match inbox n with
    | [] => (Ok RecvTimedOut, n, out)
    | (from, p) :: rest =>
        let n' := {| sent := sent n; inbox := rest |} in
        match copy_at out 0 p with
        | Some out' => (Ok (DeliveredOne from (length p)), n', out')
        | None => (Err (RecvBufferTooSmall (length p) (length out)), n', out)
        end
    end;
}.

Global Instance ListNode_recv_laws : IsoTpRecvIntoLaws ListNode unit.
Proof.
  split; unfold node_recv_one_into; simpl; intros; destruct (inbox n) as [|[f p] rest]; try done;
    destruct (copy_at out 0 p) eqn:E; simplify_eq/=; try done.
  - by apply copy_at_length in E.
  - unfold copy_at in E. case_decide; [lia|done].
Qed.

Definition demo_node : ListNode := {| sent := []; inbox := [(17, [0; 1; 9])%Z] |}.
Definition demo_iface : Interface ListNode CounterWatch :=
  interface_new [255; 256]%Z 2 4 1 demo_node demo_node (replicate 6 0%Z).

Lemma demo_iface_wf : iface_wf [255; 256]%Z 2 4 demo_iface.
Proof. apply interface_new_wf. Qed.

Lemma pump_ingest_once_correct_witness :
  let '(r, i', _) := pump_ingest_once [255; 256]%Z 2 4 1 (replicate 8 0%Z) demo_iface in
  iface_wf [255; 256]%Z 2 4 i' /\
  r = Ok (Delivered {| out_from := 17; out_id := 256; out_len := 1 |}).
Proof.
  pose proof (pump_ingest_once_correct [255; 256]%Z 2 4 1 (replicate 8 0%Z) demo_iface demo_iface_wf) as H.
  destruct (pump_ingest_once _ _ _ _ _ _) as [[r i'] b] eqn:E.
  destruct H as (Hwf & _). split; [done|].
  apply (f_equal (fun x => x.1.1)) in E. symmetry. exact E.
Defined.

Lemma send_ingest_receive_witness :
  let v := {| raw_body := [7; 8]%Z |} in
  exists used out b' s st',
    encode v (take (max_encoded_len v) (drop HEADER_LEN (tx (tx_state demo_iface)))) = (Ok used, out) /\
    ingest [255; 256]%Z 2 4 17 [0; 1; 7; 8]%Z demo_iface =
      (Ok {| out_from := 17; out_id := 256; out_len := used |}, b') /\
    rx_pop_matching_where 4 (pure_predicate (fun _ => true)) 1 17 tt (rx_state b') = Some (Some s, tt, st') /\
    received_body (from_slot 256 17 s) = Some (take used out).
Proof.
  intros v.
  apply (send_ingest_receive [255; 256]%Z 2 4 demo_iface demo_iface 256 34 17 v 1
           [0; 1; 7; 8]%Z [0; 1; 7; 8; 0; 0]%Z 1 []).
  - by compute.
  - reflexivity.
  - exact demo_iface_wf.
  - reflexivity.
  - simpl. lia.
  - reflexivity.
  - simpl. lia.
  - constructor.
Defined.
