(* ===== verification/BusSystem.v ===== *)
(** Concurrent use of one [Interface] ([src/thincan/src/lib.rs], [ingest] and
    [__recv_next_capnp_from_where]): any number of tasks, interleaved where
    the code awaits or releases the [rx_state] lock.

    A critical section holds no await, so locking, pushing (or popping) and
    unlocking is one step; [ingest] notifies in a second step, after it has
    released the lock, and a receiver registers with the watch before its
    first look into the mailbox.  A task waiting for a lock or for
    [changed()] may be dropped, as a timeout around it does. *)
From S2P Require Import Prelude Wire Maplet Mailbox Interface.

Inductive task (R : Type) :=
| IngLock (from : u8) (raw : RawMessage) (slot : nat)
| IngNotify (slot : nat) (o : IngestOutcome)
| IngDone (r : result IngestOutcome IngestError)
| RecvLock (ID : u16) (slot : nat) (from : u8) (accept : bytes -> bool) (rcv : R)
| RecvWait (ID : u16) (slot : nat) (from : u8) (accept : bytes -> bool) (rcv : R)
| RecvDone (r : result Received Error)
| Dropped.
Arguments IngLock {R} from raw slot.
Arguments IngNotify {R} slot o.
Arguments IngDone {R} r.
Arguments RecvLock {R} ID slot from accept rcv.
Arguments RecvWait {R} ID slot from accept rcv.
Arguments RecvDone {R} r.
Arguments Dropped {R}.

Record Shared (W : Type) := { sh_rx : RxState; sh_notify : list W }.
Arguments sh_rx {W}.
Arguments sh_notify {W}.

Section system.
Context {W R : Type} `{WatchOps W R}.
Context (MESSAGE_IDS : list u16) (DEPTH MAX_BODY : nat).
Abbreviation MAX_TYPES := (length MESSAGE_IDS).

(** Calling [ingest] runs up to its first await, the lock. *)
Definition spawn_ingest (from : u8) (payload : bytes) : task R :=
  match ingest_decode MESSAGE_IDS payload with
  | Ok (raw, slot) => IngLock from raw slot
  | Err e => IngDone (Err e)
  | Panic => IngDone Panic
  end.

(** Calling [__recv_next_capnp_from_where] resolves the slot and registers a
    receiver. *)
Definition spawn_recv (ID : u16) (from : u8) (accept : bytes -> bool) (sh : Shared W) : task R * Shared W :=
  match slot_for_id MESSAGE_IDS ID with
  | None => (RecvDone (Err other_error), sh)
  | Some slot =>
      match sh_notify sh !! slot with
      | None => (RecvDone Panic, sh)
      | Some w =>
          match watch_receiver w with
          | None => (RecvDone (Err other_error), sh)
          | Some (rcv, w') =>
              (RecvLock ID slot from accept rcv,
               {| sh_rx := sh_rx sh; sh_notify := <[slot := w']> (sh_notify sh) |})
          end
      end
  end.

Definition drop_receiver (slot : nat) (rcv : R) (sh : Shared W) : Shared W :=
  {| sh_rx := sh_rx sh; sh_notify := alter (watch_drop rcv) slot (sh_notify sh) |}.

(** One step of a task; [None] when it is blocked or finished. *)
Definition task_step (t : task R) (sh : Shared W) : option (task R * Shared W) :=
  match t with
  | IngLock from raw slot =>
      let '(r, st) := rx_push DEPTH MAX_BODY slot from (body raw) (sh_rx sh) in
      let sh' := {| sh_rx := st; sh_notify := sh_notify sh |} in
      match r with
      | Ok _ => Some (IngNotify slot {| out_from := from; out_id := id raw; out_len := length (body raw) |}, sh')
      | Err e => Some (IngDone (Err e), sh')
      | Panic => Some (IngDone Panic, sh')
      end
  | IngNotify slot o =>
      match notify_slot slot (sh_notify sh) with
      | Some ws => Some (IngDone (Ok o), {| sh_rx := sh_rx sh; sh_notify := ws |})
      | None => Some (IngDone Panic, sh)
      end
  | RecvLock ID slot from accept rcv =>
      match rx_pop_matching_where MAX_BODY (pure_predicate accept) slot from tt (sh_rx sh) with
      | Some (Some found, _, st) =>
          Some (RecvDone (Ok (from_slot ID from found)),
                drop_receiver slot rcv {| sh_rx := st; sh_notify := sh_notify sh |})
      | Some (None, _, st) =>
          Some (RecvWait ID slot from accept rcv, {| sh_rx := st; sh_notify := sh_notify sh |})
      | None => Some (RecvDone Panic, sh)
      end
  | RecvWait ID slot from accept rcv =>
      w ← sh_notify sh !! slot;
      rcv' ← watch_changed rcv w;
      Some (RecvLock ID slot from accept rcv', sh)
  | IngDone _ | RecvDone _ | Dropped => None
  end.

(** Dropping a task that awaits. *)
Definition task_drop (t : task R) (sh : Shared W) : option (Shared W) :=
  match t with
  | IngLock _ _ _ => Some sh
  | RecvLock _ slot _ _ rcv | RecvWait _ slot _ _ rcv => Some (drop_receiver slot rcv sh)
  | _ => None
  end.

Definition state : Type := Shared W * list (task R).

Inductive step : state -> state -> Prop :=
| step_task sh ts i t t' sh' :
    ts !! i = Some t -> task_step t sh = Some (t', sh') -> step (sh, ts) (sh', <[i := t']> ts)
| step_ingest sh ts from payload :
    step (sh, ts) (sh, ts ++ [spawn_ingest from payload])
| step_recv sh ts ID from accept t sh' :
    spawn_recv ID from accept sh = (t, sh') -> step (sh, ts) (sh', ts ++ [t])
| step_drop sh ts i t sh' :
    ts !! i = Some t -> task_drop t sh = Some sh' -> step (sh, ts) (sh', <[i := Dropped]> ts).

(** States reached from a fresh interface. *)
Inductive reachable (MAX_WAITERS : nat) : state -> Prop :=
| reach_init :
    reachable MAX_WAITERS ({| sh_rx := rx_new MAX_TYPES DEPTH MAX_BODY;
                              sh_notify := replicate MAX_TYPES (watch_new_with MAX_WAITERS) |}, [])
| reach_step s s' : reachable MAX_WAITERS s -> step s s' -> reachable MAX_WAITERS s'.
End system.

(** * The invariant *)

Section invariant.
Context {W R : Type} `{WatchLaws W R}.
Context (MESSAGE_IDS : list u16) (DEPTH MAX_BODY : nat).
Abbreviation MAX_TYPES := (length MESSAGE_IDS).
Implicit Types (sh : Shared W) (t : task R) (ts : list (task R)).

Definition watch_at sh (slot : nat) (rcv : R) : Prop :=
  exists w, sh_notify sh !! slot = Some w /\ watch_of rcv w.

Definition ready sh (slot : nat) (rcv : R) : Prop :=
  exists w, sh_notify sh !! slot = Some w /\ is_Some (watch_changed rcv w).

Definition has_match sh (slot : nat) (from : u8) (accept : bytes -> bool) : Prop :=
  exists q, rx_abs (sh_rx sh) !! slot = Some q /\ Exists (matches from accept) q.

Definition task_ok sh t : Prop :=
  match t with
  | IngLock _ _ slot | IngNotify slot _ => slot < MAX_TYPES
  | RecvLock _ slot _ _ rcv | RecvWait _ slot _ _ rcv => slot < MAX_TYPES /\ watch_at sh slot rcv
  | IngDone r => r <> Panic
  | RecvDone r => r <> Panic
  | Dropped => True
  end.

(** A parked receiver whose message is in the mailbox is ready, or the ingest
    that delivered it still has to notify. *)
Definition awake sh ts t : Prop :=
  match t with
  | RecvWait _ slot from accept rcv =>
      has_match sh slot from accept -> ready sh slot rcv \/ exists o, IngNotify slot o ∈ ts
  | _ => True
  end.

Definition shared_ok sh : Prop :=
  rx_wf MAX_TYPES DEPTH MAX_BODY (sh_rx sh) /\ length (sh_notify sh) = MAX_TYPES.

Definition inv (s : Shared W * list (task R)) : Prop :=
  shared_ok s.1 /\ Forall (task_ok s.1) s.2 /\ Forall (awake s.1 s.2) s.2.

(** What a step of one task may do to the shared state as the others see it:
    receivers stay registered and stay ready, and a message shows up in a
    queue only with a pending notification. *)
Definition frame sh ts sh' ts' : Prop :=
  (forall slot rcv, watch_at sh slot rcv -> watch_at sh' slot rcv) /\
  (forall slot rcv, watch_at sh slot rcv -> ready sh slot rcv -> ready sh' slot rcv) /\
  (forall slot from accept, has_match sh' slot from accept ->
     has_match sh slot from accept \/ exists o, IngNotify slot o ∈ ts') /\
  (forall slot o rcv, watch_at sh slot rcv -> IngNotify slot o ∈ ts ->
     ready sh' slot rcv \/ exists o', IngNotify slot o' ∈ ts').

Lemma frame_task_ok sh ts sh' ts' t : frame sh ts sh' ts' -> task_ok sh t -> task_ok sh' t.
Proof. intros (Hw & _). destruct t; simpl; try done; intros [? ?]; auto. Qed.

Lemma frame_awake sh ts sh' ts' t :
  frame sh ts sh' ts' -> task_ok sh t -> awake sh ts t -> awake sh' ts' t.
Proof.
  intros (_ & Hr & Hm & Hn). destruct t as [| | | |ID slot from accept rcv| |]; simpl; try done.
  intros [_ Hw] Ha [Hold|?]%Hm; [|by right].
  destruct (Ha Hold) as [?|[o Ho]]; [left; by apply Hr|]. by eapply Hn.
Qed.

(** A step preserves the invariant when it frames the other tasks and leaves
    its own task in order. *)
Lemma inv_update sh ts sh' ts' t' :
  inv (sh, ts) -> shared_ok sh' -> frame sh ts sh' ts' ->
  (forall t, t ∈ ts' -> t = t' \/ t ∈ ts) -> task_ok sh' t' -> awake sh' ts' t' -> inv (sh', ts').
Proof.
  intros (Hs & Hok & Haw) Hs' Hf Hts Hok' Haw'. simpl in *. split; [done|].
  rewrite !Forall_forall in *. split; intros t [->|Hin]%Hts; try done.
  - eapply frame_task_ok; eauto.
  - eapply frame_awake; eauto.
Qed.

(** A watch that a step turned into another one, seen from its receivers. *)
Definition watch_le (w w' : W) : Prop :=
  forall r, watch_of r w ->
    watch_of r w' /\ (is_Some (watch_changed r w) -> is_Some (watch_changed r w')).

Lemma watch_le_refl w : watch_le w w.
Proof. by intros r. Qed.

Lemma watch_le_send w : watch_le w (watch_send w).
Proof. intros r Hr. split; [by apply watch_of_send|intros _; by apply watch_send_ready]. Qed.

Lemma watch_le_drop r' w : watch_le w (watch_drop r' w).
Proof. intros r Hr. split; [by apply watch_of_drop|by apply watch_drop_ready]. Qed.

Lemma watch_le_receiver w r' w' : watch_receiver w = Some (r', w') -> watch_le w w'.
Proof. intros Hw r Hr. split; [by eapply watch_of_other|intros ?; by eapply watch_other_ready]. Qed.

Lemma frame_intro sh ts sh' ts' :
  Forall2 watch_le (sh_notify sh) (sh_notify sh') ->
  (forall slot from accept, has_match sh' slot from accept ->
     has_match sh slot from accept \/ exists o, IngNotify slot o ∈ ts') ->
  (forall slot o rcv, watch_at sh slot rcv -> IngNotify slot o ∈ ts ->
     ready sh' slot rcv \/ exists o', IngNotify slot o' ∈ ts') ->
  frame sh ts sh' ts'.
Proof.
  intros Hw Hm Hn. split_and!; try done.
  - intros slot rcv (w & Hl & Hof). destruct (Forall2_lookup_l _ _ _ _ _ Hw Hl) as (w' & Hl' & Hle).
    exists w'. split; [done|]. by apply Hle.
  - intros slot rcv (w & Hl & Hof) (w0 & Hl0 & Hr). simplify_eq.
    destruct (Forall2_lookup_l _ _ _ _ _ Hw Hl) as (w' & Hl' & Hle).
    exists w'. split; [done|]. by apply Hle.
Qed.

Lemma watch_le_list_refl (ws : list W) : Forall2 watch_le ws ws.
Proof. apply Forall_Forall2_diag, Forall_true, watch_le_refl. Qed.

Lemma watch_le_insert (ws : list W) k w w' :
  ws !! k = Some w -> watch_le w w' -> Forall2 watch_le ws (<[k := w']> ws).
Proof.
  intros Hk Hle. rewrite <- (list_insert_id ws k w Hk) at 1.
  apply Forall2_insert; [apply watch_le_list_refl|done].
Qed.

Lemma watch_le_alter (ws : list W) k f : (forall w, watch_le w (f w)) -> Forall2 watch_le ws (alter f k ws).
Proof.
  intros Hf. destruct (ws !! k) as [w|] eqn:Hk.
  - rewrite (alter_as_insert _ _ _ _ Hk). by eapply watch_le_insert.
  - rewrite (alter_out _ _ _ Hk). apply watch_le_list_refl.
Qed.

(** Keeping pending notifications pending frames them. *)
Lemma notify_kept sh sh' ts ts' :
  (forall slot o, IngNotify slot o ∈ ts -> IngNotify slot o ∈ ts') ->
  forall slot o (rcv : R), watch_at sh slot rcv -> IngNotify slot o ∈ ts ->
     ready sh' slot rcv \/ exists o', IngNotify slot o' ∈ ts'.
Proof. intros Hk slot o rcv _ Ho. right. eauto. Qed.

Lemma has_match_sub sh sh' slot from accept :
  (forall q', rx_abs (sh_rx sh') !! slot = Some q' ->
     exists q, rx_abs (sh_rx sh) !! slot = Some q /\ forall m, m ∈ q' -> m ∈ q) ->
  has_match sh' slot from accept -> has_match sh slot from accept.
Proof.
  intros Hsub (q' & Hq' & Hex). destruct (Hsub q' Hq') as (q & Hq & Hin).
  exists q. split; [done|]. rewrite Exists_exists in *. destruct Hex as (m & Hm & ?). exists m. auto.
Qed.

Abbreviation tstep := (task_step DEPTH MAX_BODY).

Lemma inv_ing_lock sh ts i from raw slot t' sh' :
  inv (sh, ts) -> ts !! i = Some (IngLock from raw slot) ->
  tstep (IngLock from raw slot) sh = Some (t', sh') -> inv (sh', <[i := t']> ts).
Proof.
  intros Hinv Hi Hstep. pose proof Hinv as ((Hwf & Hn) & Hok & _). simpl in *.
  pose proof (Forall_lookup_1 _ _ _ _ Hok Hi) as Hslot. simpl in Hslot.
  destruct (rx_wf_lookup _ _ _ _ _ Hwf Hslot) as (mb & Hmb & _).
  assert (rx_abs (sh_rx sh) !! slot = Some (mailbox_abs mb)) as Hq by (by rewrite rx_abs_lookup, Hmb).
  destruct (rx_push_refines _ _ _ _ slot from (body raw) _ Hwf Hq) as (r & st' & Hp & Hwf' & Hr & Habs).
  rewrite Hp in Hstep.
  assert (forall slot' o, IngNotify slot' o ∈ ts -> IngNotify slot' o ∈ <[i := t']> ts) as Hkeep
    by (intros; eapply elem_of_insert_other; eauto).
  unfold spec_push in *. repeat case_bool; simpl in *; subst r; simplify_eq;
    eapply (inv_update sh ts); eauto using elem_of_insert_inv; try (by split); try done;
    apply frame_intro; eauto using watch_le_list_refl, notify_kept; simpl.
  - intros s f a Hm. left. revert Hm. apply has_match_sub. simpl. rewrite Habs, list_insert_id by done. eauto.
  - intros s f a Hm. left. revert Hm. apply has_match_sub. simpl. rewrite Habs, list_insert_id by done. eauto.
  - intros s f a Hm. destruct (decide (s = slot)) as [->|Hne].
    + right. eexists. by eapply elem_of_insert_here.
    + left. revert Hm. apply has_match_sub. simpl. rewrite Habs, list_lookup_insert_ne by done. eauto.
Qed.

Lemma inv_ing_notify sh ts i slot o t' sh' :
  inv (sh, ts) -> ts !! i = Some (IngNotify slot o) ->
  tstep (IngNotify slot o) sh = Some (t', sh') -> inv (sh', <[i := t']> ts).
Proof.
  intros Hinv Hi Hstep. pose proof Hinv as ((Hwf & Hn) & Hok & _). simpl in *.
  pose proof (Forall_lookup_1 _ _ _ _ Hok Hi) as Hslot. simpl in Hslot.
  rewrite notify_slot_alter in Hstep by lia. simplify_eq.
  eapply (inv_update sh ts); eauto using elem_of_insert_inv; try done.
  { split; [done|]. simpl. by rewrite length_alter. }
  apply frame_intro; simpl; eauto using watch_le_alter, watch_le_send.
  intros s o' rcv (w & Hw & Hof) Ho. destruct (decide (s = slot)) as [->|Hne].
  - left. exists (watch_send w). simpl. rewrite list_lookup_alter_eq, Hw. split; [done|].
    by apply watch_send_ready.
  - right. exists o'. eapply elem_of_insert_other; eauto. congruence.
Qed.

Lemma inv_recv_lock sh ts i ID slot from accept rcv t' sh' :
  inv (sh, ts) -> ts !! i = Some (RecvLock ID slot from accept rcv) ->
  tstep (RecvLock ID slot from accept rcv) sh = Some (t', sh') -> inv (sh', <[i := t']> ts).
Proof.
  intros Hinv Hi Hstep. pose proof Hinv as ((Hwf & Hn) & Hok & _). simpl in *.
  pose proof (Forall_lookup_1 _ _ _ _ Hok Hi) as Hslot. destruct Hslot as [Hslot Hat].
  destruct (rx_wf_lookup _ _ _ _ _ Hwf Hslot) as (mb & Hmb & _).
  assert (rx_abs (sh_rx sh) !! slot = Some (mailbox_abs mb)) as Hq by (by rewrite rx_abs_lookup, Hmb).
  destruct (rx_pop_refines _ _ _ (pure_predicate accept) _ slot from tt _ Hwf Hq)
    as (out & [] & st' & Hp & Hwf' & Hout & Habs).
  rewrite Hp in Hstep.
  assert (forall slot' o, IngNotify slot' o ∈ ts -> IngNotify slot' o ∈ <[i := t']> ts) as Hkeep
    by (intros; eapply elem_of_insert_other; eauto).
  pose proof (spec_pop_oldest accept from (mailbox_abs mb)) as Ho.
  destruct (spec_pop _ _ _ _) as [[out' []] q']. simpl in *. simplify_eq.
  assert (forall ws s f a, has_match {| sh_rx := st'; sh_notify := ws |} s f a -> has_match sh s f a) as Hsub.
  { intros ws s f a. apply has_match_sub. simpl. intros q Hql. rewrite Habs in Hql.
    destruct (decide (s = slot)) as [->|Hne]; [|rewrite list_lookup_insert_ne in Hql by done; eauto].
    rewrite list_lookup_insert_eq in Hql by (by eapply lookup_lt_Some). simplify_eq.
    exists (mailbox_abs mb). split; [done|]. destruct out as [s|]; simpl in Ho.
    - destruct Ho as (q1 & q2 & -> & -> & _). intros m. rewrite !elem_of_app, elem_of_cons. tauto.
    - by destruct Ho as [-> _]. }
  destruct out as [s|]; simplify_eq; eapply (inv_update sh ts); eauto using elem_of_insert_inv;
    try (by split; simpl; rewrite ?length_alter); try (by apply frame_intro; simpl;
      eauto using notify_kept, watch_le_list_refl, watch_le_alter, watch_le_drop); try done.
  intros (q & Hql & Hex). simpl in Hql. rewrite Habs, list_lookup_insert_eq in Hql
    by (by eapply lookup_lt_Some). simplify_eq. destruct Ho as [-> Hno].
  exfalso. rewrite Exists_exists in Hex. rewrite Forall_forall in Hno.
  destruct Hex as (m & Hm & ?). by apply (Hno m).
Qed.

Lemma inv_recv_wait sh ts i ID slot from accept rcv t' sh' :
  inv (sh, ts) -> ts !! i = Some (RecvWait ID slot from accept rcv) ->
  tstep (RecvWait ID slot from accept rcv) sh = Some (t', sh') -> inv (sh', <[i := t']> ts).
Proof.
  intros Hinv Hi Hstep. pose proof Hinv as (Hsh & Hok & _). simpl in *.
  pose proof (Forall_lookup_1 _ _ _ _ Hok Hi) as (Hslot & w & Hw & Hof).
  rewrite Hw in Hstep. simpl in Hstep. destruct (watch_changed rcv w) as [rcv'|] eqn:Hc; simplify_eq/=.
  eapply (inv_update _ ts); eauto using elem_of_insert_inv.
  - apply frame_intro; eauto using watch_le_list_refl. apply notify_kept.
    intros; eapply elem_of_insert_other; eauto.
  - split; [done|]. exists w. split; [done|]. by eapply watch_of_changed.
  - done.
Qed.

Lemma inv_spawn sh ts sh' t :
  inv (sh, ts) -> shared_ok sh' -> sh_rx sh' = sh_rx sh ->
  Forall2 watch_le (sh_notify sh) (sh_notify sh') -> task_ok sh' t ->
  (forall ts', awake sh' ts' t) -> inv (sh', ts ++ [t]).
Proof.
  intros Hinv Hsh Hrx Hle Hok Haw. eapply (inv_update sh ts); eauto.
  - apply frame_intro; [done| |].
    + intros s f a Hm. left. revert Hm. apply has_match_sub. rewrite Hrx. eauto.
    + apply notify_kept. intros. apply elem_of_app. by left.
  - intros t0. rewrite elem_of_app, list_elem_of_singleton. tauto.
Qed.

Lemma inv_step s s' : inv s -> step MESSAGE_IDS DEPTH MAX_BODY s s' -> inv s'.
Proof.
  intros Hinv Hstep. pose proof Hinv as (Hsh & Hok & _).
  destruct Hstep as [sh ts i t t' sh' Hi Ht|sh ts from payload|sh ts ID from accept t sh' Ht|sh ts i t sh' Hi Ht];
    simpl in *.
  - destruct t; try done; [eapply inv_ing_lock|eapply inv_ing_notify|eapply inv_recv_lock|eapply inv_recv_wait]; eauto.
  - eapply inv_spawn; eauto using watch_le_list_refl;
      unfold spawn_ingest, ingest_decode; pose proof (decode_wire_no_panic payload) as Hnp;
      destruct (decode_wire payload) as [raw|e|]; simpl; try done;
      destruct (slot_for_id MESSAGE_IDS (id raw)) eqn:E; simpl; try done.
    by apply slot_for_id_lt in E.
  - unfold spawn_recv in Ht. destruct Hsh as [Hwf Hn].
    destruct (slot_for_id MESSAGE_IDS ID) as [slot|] eqn:E;
      [|simplify_eq; eapply inv_spawn; eauto using watch_le_list_refl; first [done | by split]].
    apply slot_for_id_lt in E. destruct (lookup_lt_is_Some_2 (sh_notify sh) slot) as [w Hw]; [lia|].
    rewrite Hw in Ht. destruct (watch_receiver w) as [[rcv w']|] eqn:Hr; simplify_eq;
      [|eapply inv_spawn; eauto using watch_le_list_refl; first [done | by split]].
    eapply inv_spawn; eauto; simpl; try done.
    + split; [done|]. simpl. len.
    + eapply watch_le_insert; eauto using watch_le_receiver.
    + split; [done|]. exists w'. simpl. split; [|by eapply watch_of_receiver].
      apply list_lookup_insert_eq. by eapply lookup_lt_Some.
  - eapply (inv_update sh ts); eauto using elem_of_insert_inv; try done.
    + destruct t; simplify_eq/=; try done; destruct Hsh; split; simpl; rewrite ?length_alter; done.
    + apply frame_intro.
      * destruct t; simplify_eq/=; eauto using watch_le_list_refl, watch_le_alter, watch_le_drop.
      * intros s f a Hm. left. destruct t; simplify_eq/=; done.
      * apply notify_kept. intros. eapply elem_of_insert_other; eauto. by destruct t.
Qed.

Lemma inv_reachable MAX_WAITERS s : reachable MESSAGE_IDS DEPTH MAX_BODY MAX_WAITERS s -> inv s.
Proof.
  induction 1 as [|s s' _ IH Hstep]; [|by eapply inv_step].
  split; [|done]. split; simpl; [apply rx_new_wf|len].
Qed.
End invariant.

(** * Theorems *)

Section theorems.
Context {W R : Type} `{WatchLaws W R}.
Context (MESSAGE_IDS : list u16) (DEPTH MAX_BODY MAX_WAITERS : nat).
Implicit Types (sh : Shared W) (ts : list (task R)).

(** C9. No panics and no lost wake-ups under any interleaving: however
    [ingest] calls, receive calls and cancellations are interleaved, none of
    them panics, and a receiver parked in [changed()] while a message it waits
    for lies in the mailbox is ready to run, or the ingest that stored the
    message is still about to notify it. *)
Theorem no_lost_wakeup sh ts :
  reachable MESSAGE_IDS DEPTH MAX_BODY MAX_WAITERS (sh, ts) ->
  (forall r, IngDone r ∈ ts -> r <> Panic) /\ (forall r, RecvDone r ∈ ts -> r <> Panic) /\
  (forall ID slot from accept rcv, RecvWait ID slot from accept rcv ∈ ts ->
     has_match sh slot from accept -> ready sh slot rcv \/ exists o, IngNotify slot o ∈ ts).
Proof.
  intros (_ & Hok & Haw)%inv_reachable. simpl in *. rewrite Forall_forall in Hok, Haw.
  split_and!; intros.
  - by apply (Hok (IngDone r)).
  - by apply (Hok (RecvDone r)).
  - by apply (Haw (RecvWait ID slot from accept rcv)).
Qed.

(** C19. Delivery: once no notification is outstanding for its mailbox, a
    parked receiver whose message is there wakes up, and two steps of its own
    return the oldest message of that sender which its predicate accepts. *)
Theorem parked_receiver_delivers sh ts i ID slot from accept rcv q :
  reachable MESSAGE_IDS DEPTH MAX_BODY MAX_WAITERS (sh, ts) ->
  ts !! i = Some (RecvWait ID slot from accept rcv) ->
  rx_abs (sh_rx sh) !! slot = Some q -> Exists (matches from accept) q ->
  (forall o, IngNotify slot o ∉ ts) ->
  exists rcv' m sh', 
    task_step DEPTH MAX_BODY (RecvWait ID slot from accept rcv) sh
      = Some (RecvLock ID slot from accept rcv', sh) /\
    task_step DEPTH MAX_BODY (RecvLock ID slot from accept rcv') sh = Some (RecvDone (Ok m), sh') /\
    recv_from m = from /\ recv_id m = ID /\
    exists b q1 q2, received_body m = Some b /\ accept b = true /\ q = q1 ++ (from, b) :: q2 /\
      Forall (fun m' => ~ matches from accept m') q1 /\
      rx_abs (sh_rx sh') = <[slot := q1 ++ q2]> (rx_abs (sh_rx sh)).
Proof.
  intros (Hsh & Hok & Haw)%inv_reachable Hi Hq Hex Hno. simpl in *.
  destruct Hsh as [Hwf Hn]. pose proof (Forall_lookup_1 _ _ _ _ Haw Hi) as Hw. simpl in Hw.
  destruct Hw as [(w & Hw & [rcv' Hc])|[o Ho]]; [by exists q| |by apply Hno in Ho].
  rewrite rx_abs_lookup in Hq. destruct (sh_rx sh !! slot) as [mb|] eqn:Hmb; [|done].
  injection Hq as <-. assert (mailbox_wf DEPTH MAX_BODY mb) as Hm.
  { destruct Hwf as [_ Hwf]. by eapply Forall_lookup_1. }
  destruct (mailbox_pop_refines DEPTH MAX_BODY (pure_predicate accept) from tt mb Hm)
    as (out & [] & mb' & Hpop & _ & Hspec & Hs).
  pose proof (spec_pop_oldest accept from (mailbox_abs mb)) as Ho. rewrite Hspec in Ho.
  unfold rx_pop_matching_where. rewrite Hw, Hmb. simpl. rewrite Hc, Hpop. simpl.
  destruct out as [s|]; simpl in Ho.
  - destruct Ho as (q1 & q2 & Hq & Hq' & [Hf Ha] & Hq1).
    exists rcv'. eexists _, _. split_and!; [done..|]. exists (slot_msg s).2, q1, q2. split_and!.
    + unfold received_body. simpl. destruct Hs as (? & ? & _). by rewrite slice_to_Some by lia.
    + done.
    + rewrite Hq. simpl in Hf. by rewrite <- Hf.
    + done.
    + simpl. by rewrite rx_abs_insert, Hq'.
  - destruct Ho as [_ Ho]. exfalso. rewrite Exists_exists in Hex. rewrite Forall_forall in Ho.
    destruct Hex as (m & Hm' & ?). by apply (Ho m).
Qed.
End theorems.

(** * A run on a concrete bus *)

Definition demo_ids : list u16 := [255; 256]%Z.
Abbreviation demo_state := (Shared CounterWatch * list (task nat))%type.

Definition step_one (i : nat) (s : demo_state) : demo_state :=
  match s.2 !! i with
  | Some t => match task_step 2 4 t s.1 with
              | Some (t', sh') => (sh', <[i := t']> s.2)
              | None => s
              end
  | None => s
  end.

Definition call_ingest (from : u8) (payload : bytes) (s : demo_state) : demo_state :=
  (s.1, s.2 ++ [spawn_ingest demo_ids from payload]).

Definition call_recv (ID : u16) (from : u8) (s : demo_state) : demo_state :=
  let '(t, sh') := spawn_recv demo_ids ID from (fun _ => true) s.1 in (sh', s.2 ++ [t]).

(** A receiver parks before a message arrives; the ingest then stores it and,
    in its next step, notifies. *)
Definition demo_stored : demo_state :=
  step_one 1 (call_ingest 17 [0; 1; 7]%Z (step_one 0 (call_recv 256 17
    ({| sh_rx := rx_new 2 2 4; sh_notify := replicate 2 (watch_new_with 1) |}, [])))).
Definition demo_notified : demo_state := step_one 1 demo_stored.

Abbreviation demo_reachable := (reachable demo_ids 2 4 1).

Lemma step_one_reachable i s : demo_reachable s -> demo_reachable (step_one i s).
Proof.
  intros Hs. unfold step_one. destruct (s.2 !! i) as [t|] eqn:Hi; [|done].
  destruct (task_step 2 4 t s.1) as [[t' sh']|] eqn:Ht; [|done].
  eapply reach_step; [done|]. destruct s. by eapply step_task.
Qed.

Lemma demo_stored_reachable : demo_reachable demo_stored.
Proof.
  apply step_one_reachable. eapply reach_step; [|apply step_ingest].
  rewrite <- surjective_pairing. apply step_one_reachable.
  eapply reach_step; [apply reach_init|]. by apply (step_recv _ _ _ _ [] 256 17 (fun _ => true)).
Qed.

Lemma demo_notified_reachable : demo_reachable demo_notified.
Proof. apply step_one_reachable, demo_stored_reachable. Qed.

Lemma no_lost_wakeup_witness :
  ready demo_stored.1 1 0 \/ exists o, IngNotify 1 o ∈ demo_stored.2.
Proof.
  destruct (no_lost_wakeup demo_ids 2 4 1 demo_stored.1 demo_stored.2 demo_stored_reachable) as (_ & _ & H).
  apply (H 256%Z 1 17%Z (fun _ => true) 0).
  - left.
  - exists [(17, [7])%Z]. split; [reflexivity|]. left. by split.
Defined.

Lemma parked_receiver_delivers_witness :
  exists rcv' m sh',
    task_step 2 4 (RecvWait 256 1 17 (fun _ => true) 0) demo_notified.1
      = Some (RecvLock 256 1 17 (fun _ => true) rcv', demo_notified.1) /\
    task_step 2 4 (RecvLock 256 1 17 (fun _ => true) rcv') demo_notified.1 = Some (RecvDone (Ok m), sh') /\
    recv_from m = 17%Z /\ recv_id m = 256%Z.
Proof.
  destruct (parked_receiver_delivers demo_ids 2 4 1 demo_notified.1 demo_notified.2 0 256 1 17
              (fun _ => true) 0 [(17, [7])%Z] demo_notified_reachable)
    as (rcv' & m & sh' & H1 & H2 & H3 & H4 & _).
  - reflexivity.
  - reflexivity.
  - left. by split.
  - intros o Ho. apply elem_of_cons in Ho as [Ho|Ho]; [discriminate|].
    apply elem_of_cons in Ho as [Ho|Ho]; [discriminate|]. by apply elem_of_nil in Ho.
  - exists rcv', m, sh'. auto.
Defined.
