(* ===== verification/Handles.v ===== *)
(** * Typed handles

    The compile-time layer of [thincan/src/lib.rs]: [bus_atlas!] and the four
    forms of [maplet!], bus handles narrowed to a bundle ([bus], [scope],
    [bundle_instance!], [BundleFactory], [Bundles::new]) and the typed Cap'n
    Proto helpers of a received message.  What the compiler rejects is [None].

    The theorem is the soundness of the handles: the macros' output type-checks,
    and a handle a program can obtain has a mailbox for every message of its
    bundle. *)
From stdpp Require Import strings.
From S2P Require Import Prelude Wire Maplet Mailbox Interface BusSystem.

(** * Atlas and maplet *)

(** The entries of [bus_atlas!]. *)
Inductive AtlasEntry := Live (ID : Z) (name : string) | Removed (ID : Z).

Definition entry_id (e : AtlasEntry) : Z := match e with Live ID _ => ID | Removed ID => ID end.
(** The structs of the module, with their [Message::ID]. *)
Definition atlas_messages (entries : list AtlasEntry) : list (string * u16) :=
  omap (fun e => match e with Live ID name => Some (name, ID) | Removed _ => None end) entries.

(** A literal must fit [u16] and a name, [Atlas] included, is defined once. *)
Definition bus_atlas (entries : list AtlasEntry) : option (list (string * u16)) :=
  if decide (Forall (fun e => is_u16 (entry_id e)) entries /\
             NoDup ("Atlas"%string :: (atlas_messages entries).*1))
  then Some (atlas_messages entries) else None.

(** The path [super::name]. *)
Definition resolve {A} (env : list (string * A)) (name : string) : option A :=
  '(_, p) ← list_find (fun p => p.1 = name) env; Some p.2.

(** The forms of [maplet!]. *)
Inductive MapletForm :=
| UseMsgs (msgs : list string)
| Bundles (bundles : list string)
| AliasedBundles (bundles : list (string * string))
| BundleMsgs (bundles : list (string * list string)).

(** The module [maplet!] defines: the id table, the [MapletHasBundle] impls and
    the fields of [Bundles] with the bundles they hold. *)
Record MapletDef := {
  MESSAGE_IDS : list u16;
  HAS_BUNDLE : list string;
  FIELDS : list (string * string);
}.

Definition define_from_msgs (atlas : list (string * u16)) (msgs : list string) : option MapletDef :=
  ids ← mapM (resolve atlas) msgs;
  Some {| MESSAGE_IDS := maplet_from_msgs ids; HAS_BUNDLE := []; FIELDS := [] |}.

(** The two impls of [MapletHasBundle] of a bundle named twice conflict. *)
Definition define_from_bundles (env : list (string * Bundle)) (names : list string) : option MapletDef :=
  bs ← mapM (resolve env) names;
  ids ← maplet_from_bundles bs;
  if decide (NoDup names) then Some {| MESSAGE_IDS := ids; HAS_BUNDLE := names; FIELDS := [] |} else None.

Definition define_from_bundles_aliases (env : list (string * Bundle)) (fields : list (string * string)) :
    option MapletDef :=
  d ← define_from_bundles env fields.*2;
  if decide (NoDup fields.*1)
  then Some {| MESSAGE_IDS := MESSAGE_IDS d; HAS_BUNDLE := HAS_BUNDLE d; FIELDS := fields |} else None.

Definition maplet (atlas : list (string * u16)) (env : list (string * Bundle)) (form : MapletForm) :
    option MapletDef :=
  match form with
  | UseMsgs msgs => define_from_msgs atlas msgs
  | Bundles names => define_from_bundles env names
  | AliasedBundles fields => define_from_bundles_aliases env fields
  | BundleMsgs bundles => define_from_msgs atlas (concat bundles.*2)
  end.

(** * Handles *)

(** [BusHandle]: its phantom bundle; [None] is [Unscoped].  All handles of an
    interface borrow the same one. *)
Record BusHandle := { handle_bundle : option string }.

Section handles.
Context (d : MapletDef).

(** [Interface::bus]. *)
Definition iface_bus : BusHandle := {| handle_bundle := None |}.
Definition handle_clone (h : BusHandle) : BusHandle := h.

(** The bound [Maplet: MapletHasBundle<B>]. *)
Definition has_bundle (B : string) : bool := bool_decide (B ∈ HAS_BUNDLE d).

(** [scope::<B>()] is a method of an unscoped handle. *)
Definition scope (B : string) (h : BusHandle) : option BusHandle :=
  match handle_bundle h with
  | None => if has_bundle B then Some {| handle_bundle := Some B |} else None
  | Some _ => None
  end.

(** The struct of [bundle_instance!], its [new] and [make]. *)
Record BundleInstance := { inst_bus : BusHandle }.
Definition bundle_new (bus : BusHandle) : BundleInstance := {| inst_bus := bus |}.
Definition bundle_make (bus : BusHandle) : BundleInstance := bundle_new bus.

(** [Bundles::new]. *)
Definition bundles_new : option (list (string * BundleInstance)) :=
  let ingress := iface_bus in
  mapM (fun '(alias, B) => h ← scope B ingress; Some (alias, bundle_make h)) (FIELDS d).

(** The impl blocks of the protocol primitives ask for [Maplet: MapletHasBundle<B>]. *)
Definition has_primitives (h : BusHandle) : bool :=
  match handle_bundle h with Some B => has_bundle B | None => false end.

Section primitives.
Context {Node E W R : Type} `{IsoTpEndpoint Node E} `{WatchOps W R}.

Definition handle_send_capnp_to {V} `{EncodeCapnp V} (h : BusHandle) (ID : u16) (to : u8) (value : V)
    (timeout : Duration) : option (M (Interface Node W) Error unit) :=
  if has_primitives h then Some (send_capnp_to_async ID to value timeout) else None.

Definition handle_send_capnp_functional_to {V} `{EncodeCapnp V} (h : BusHandle) (ID : u16)
    (functional_to : u8) (value : V) (timeout : Duration) : option (M (Interface Node W) Error unit) :=
  if has_primitives h then Some (send_capnp_functional_to_async ID functional_to value timeout) else None.

Definition handle_recv_next_capnp_from_where (h : BusHandle) (ID : u16) (from : u8) (predicate : bytes -> bool) :
    option (Shared W -> task R * Shared W) :=
  if has_primitives h then Some (spawn_recv (MESSAGE_IDS d) ID from predicate) else None.

Definition handle_recv_next_capnp_from (h : BusHandle) (ID : u16) (from : u8) :
    option (Shared W -> task R * Shared W) :=
  handle_recv_next_capnp_from_where h ID from (fun _ => true).
End primitives.

(** The handles a program can get hold of. *)
Inductive obtainable : BusHandle -> Prop :=
| obtain_bus : obtainable iface_bus
| obtain_clone h : obtainable h -> obtainable (handle_clone h)
| obtain_scope h B h' : obtainable h -> scope B h = Some h' -> obtainable h'
| obtain_field fields alias i : bundles_new = Some fields -> (alias, i) ∈ fields -> obtainable (inst_bus i).
End handles.

(** * Soundness of the handles *)

Lemma resolve_elem {A} (env : list (string * A)) name a : resolve env name = Some a -> (name, a) ∈ env.
Proof.
  unfold resolve. destruct (list_find _ env) as [[k [n x]]|] eqn:Hf; [|done]. intros [= <-].
  apply list_find_Some in Hf as (Hk & Hn & _). simpl in Hn. subst n. by eapply list_elem_of_lookup_2.
Qed.

Lemma define_bundles_ids env names d :
  define_from_bundles env names = Some d ->
  exists bs, mapM (resolve env) names = Some bs /\ maplet_from_bundles bs = Some (MESSAGE_IDS d) /\
    HAS_BUNDLE d = names /\ FIELDS d = [].
Proof.
  unfold define_from_bundles. destruct (mapM _ names) as [bs|] eqn:Hbs; [|done]. simpl.
  destruct (maplet_from_bundles bs) as [ids|] eqn:Hids; [|done]. simpl. case_decide; [|done]. intros [= <-].
  by exists bs.
Qed.

(** What an accepted maplet knows about its bundles. *)
Lemma maplet_bundles atlas env form d B :
  maplet atlas env form = Some d -> B ∈ HAS_BUNDLE d ->
  exists names bs b, mapM (resolve env) names = Some bs /\ maplet_from_bundles bs = Some (MESSAGE_IDS d) /\
    resolve env B = Some b /\ b ∈ bs.
Proof.
  assert (Hgen : forall names d', define_from_bundles env names = Some d' -> B ∈ HAS_BUNDLE d' ->
    exists names bs b, mapM (resolve env) names = Some bs /\ maplet_from_bundles bs = Some (MESSAGE_IDS d') /\
      resolve env B = Some b /\ b ∈ bs).
  { intros names d' Hd HB. apply define_bundles_ids in Hd as (bs & Hbs & Hids & Hh & _). rewrite Hh in HB.
    apply list_elem_of_lookup in HB as [k Hk]. apply mapM_Some in Hbs as Hall.
    destruct (Forall2_lookup_l _ _ _ _ _ Hall Hk) as (b & Hb & Hr). exists names, bs, b.
    split_and!; [done..|]. by eapply list_elem_of_lookup_2. }
  destruct form as [msgs|names|fields|bundles]; simpl.
  - unfold define_from_msgs. destruct (mapM _ msgs); [|done]. intros [= <-] HB. by apply not_elem_of_nil in HB.
  - intros Hd. by apply Hgen with names.
  - unfold define_from_bundles_aliases. destruct (define_from_bundles env fields.*2) as [d'|] eqn:Hd; [|done].
    simpl. case_decide; [|done]. intros [= <-] HB. by apply (Hgen _ _ Hd).
  - unfold define_from_msgs. destruct (mapM _ _); [|done]. intros [= <-] HB. by apply not_elem_of_nil in HB.
Qed.

(** [Bundles::new] type-checks, field by field. *)
Definition field_handle (f : string * string) : string * BundleInstance :=
  (f.1, bundle_make {| handle_bundle := Some f.2 |}).

Lemma fields_have_bundles atlas env form d alias B :
  maplet atlas env form = Some d -> (alias, B) ∈ FIELDS d -> B ∈ HAS_BUNDLE d.
Proof.
  intros Hd HB. destruct form as [msgs|names|fields|bundles]; simpl in Hd.
  - unfold define_from_msgs in Hd. destruct (mapM _ msgs); [|done]. injection Hd as <-. by apply not_elem_of_nil in HB.
  - apply define_bundles_ids in Hd as (bs & _ & _ & _ & Hf). rewrite Hf in HB. by apply not_elem_of_nil in HB.
  - unfold define_from_bundles_aliases in Hd. destruct (define_from_bundles env fields.*2) as [d'|] eqn:Hd'; [|done].
    simpl in Hd. case_decide; [|done]. injection Hd as <-. simpl in *.
    apply define_bundles_ids in Hd' as (bs & _ & _ & -> & _). by apply (list_elem_of_fmap_2 snd fields (alias, B)).
  - unfold define_from_msgs in Hd. destruct (mapM _ _); [|done]. injection Hd as <-. by apply not_elem_of_nil in HB.
Qed.

Lemma bundles_new_fields atlas env form d :
  maplet atlas env form = Some d -> bundles_new d = Some (field_handle <$> FIELDS d).
Proof.
  intros Hd. apply mapM_Some_2, Forall2_fmap_r, Forall_Forall2_diag, Forall_forall. intros [alias B] HB.
  assert (Hb : has_bundle d B = true) by (by eapply bool_decide_eq_true, fields_have_bundles).
  unfold scope. simpl. by rewrite Hb.
Qed.

Lemma obtainable_bundle atlas env form d h :
  maplet atlas env form = Some d -> obtainable d h ->
  match handle_bundle h with Some B => B ∈ HAS_BUNDLE d | None => True end.
Proof.
  intros Hd. induction 1 as [|h _ IH|h B h' _ IH Hs|fields alias i Hf Hin]; [done|exact IH| |].
  - unfold scope, has_bundle in Hs. destruct (handle_bundle h); [done|]. case_bool_decide; [|done]. by injection Hs as <-.
  - rewrite (bundles_new_fields _ _ _ _ Hd) in Hf. injection Hf as <-.
    apply list_elem_of_fmap in Hin as ([a B] & [= -> ->] & Hin). by eapply fields_have_bundles.
Qed.

Lemma bundle_slot bs ids b ID :
  Forall bundle_wf bs -> maplet_from_bundles bs = Some ids -> b ∈ bs -> ID ∈ BUNDLE_IDS b ->
  exists slot, slot_for_id ids ID = Some slot /\ slot < length ids.
Proof.
  intros Hwf Hids Hb HID. destruct (slot_for_id ids ID) as [slot|] eqn:Hs.
  { exists slot. split; [done|]. by eapply slot_for_id_lt. }
  exfalso. apply slot_for_id_None in Hs. apply Hs. unfold maplet_from_bundles in Hids.
  rewrite maplet_ids_concat in Hids by done. simpl in Hids. case_match; simplify_eq.
  rewrite list_elem_of_In, in_concat. exists (BUNDLE_IDS b). split; [|by apply list_elem_of_In]. apply in_map_iff. exists b. split; [done|by apply list_elem_of_In].
Qed.

Section soundness.
Context {Node E W R : Type} `{IsoTpEndpoint Node E} `{WatchOps W R}.

(** C26. Handles are well typed: when [maplet!] accepts its bundles, [Bundles::new]
    type-checks with one field per alias, scoped to its bundle; a handle a program can
    obtain has the send and receive primitives exactly when it is scoped, and
    then every message of its bundle has its own mailbox: a receive for it does
    not panic and is refused only when all waiters of that mailbox are taken. *)
Theorem handles_well_typed atlas env form d h :
  Forall (fun p => bundle_wf p.2) env -> maplet atlas env form = Some d -> obtainable d h ->
  bundles_new d = Some (field_handle <$> FIELDS d) /\
  has_primitives d h = bool_decide (is_Some (handle_bundle h)) /\
  forall B b, handle_bundle h = Some B -> resolve env B = Some b ->
    forall ID from predicate (sh : Shared W), ID ∈ BUNDLE_IDS b -> length (sh_notify sh) = length (MESSAGE_IDS d) ->
    exists slot w,
      slot_for_id (MESSAGE_IDS d) ID = Some slot /\ sh_notify sh !! slot = Some w /\
      option_map (fun recv => (recv sh).1) (handle_recv_next_capnp_from_where d h ID from predicate) =
        Some match watch_receiver w with
             | Some (rcv, _) => RecvLock ID slot from predicate rcv
             | None => RecvDone (Err other_error)
             end.
Proof.
  intros Hwf Hd Hh. split; [by eapply bundles_new_fields|].
  pose proof (obtainable_bundle _ _ _ _ _ Hd Hh) as HB. unfold handle_recv_next_capnp_from_where, has_primitives, has_bundle.
  destruct (handle_bundle h) as [B|]; [|split; [done|intros; congruence]].
  rewrite (bool_decide_true _ HB). split; [done|].
  intros B' b [= <-] Hb ID from predicate sh HID Hlen.
  destruct (maplet_bundles _ _ _ _ _ Hd HB) as (names & bs & b' & Hbs & Hids & Hr & Hin).
  rewrite Hb in Hr. injection Hr as <-.
  assert (Hbwf : Forall bundle_wf bs).
  { apply mapM_Some in Hbs. pose proof (proj1 (Forall_forall _ _) Hwf) as Hall. apply Forall_forall. intros x Hx.
    apply list_elem_of_lookup in Hx as [k Hk]. destruct (Forall2_lookup_r _ _ _ _ _ Hbs Hk) as (n & _ & Hn).
    apply resolve_elem in Hn. by apply (Hall (n, x)). }
  destruct (bundle_slot bs _ b ID Hbwf Hids Hin HID) as (slot & Hs & Hlt).
  destruct (lookup_lt_is_Some_2 (sh_notify sh) slot ltac:(lia)) as [w Hw].
  exists slot, w. split_and!; [done..|]. simpl. unfold spawn_recv. rewrite Hs, Hw.
  by destruct (watch_receiver w) as [[rcv w']|].
Qed.
End soundness.

(** ** A maplet of two bundles *)

Definition demo_env : list (string * Bundle) :=
  [("ping_pong", {| MESSAGE_COUNT := 2; BUNDLE_IDS := [256; 257]%Z |});
   ("file_transfer", {| MESSAGE_COUNT := 3; BUNDLE_IDS := [4097; 4098; 4099]%Z |})]%string.
Definition demo_form : MapletForm :=
  AliasedBundles [("pp", "ping_pong"); ("ft", "file_transfer")]%string.
Definition demo_def : MapletDef :=
  {| MESSAGE_IDS := [256; 257; 4097; 4098; 4099]%Z; HAS_BUNDLE := ["ping_pong"; "file_transfer"]%string;
     FIELDS := [("pp", "ping_pong"); ("ft", "file_transfer")]%string |}.
Definition demo_shared : Shared CounterWatch :=
  {| sh_rx := rx_new 5 2 4; sh_notify := replicate 5 (watch_new_with 1) |}.
Definition demo_handle : BusHandle := {| handle_bundle := Some "ping_pong"%string |}.

Lemma demo_obtainable : obtainable demo_def demo_handle.
Proof. by apply (obtain_scope _ iface_bus "ping_pong"); [constructor|]. Qed.

Lemma handles_well_typed_witness :
  bundles_new demo_def = Some (field_handle <$> FIELDS demo_def) /\
  exists slot w,
    slot_for_id (MESSAGE_IDS demo_def) 257 = Some slot /\ sh_notify demo_shared !! slot = Some w /\
    option_map (fun recv => (recv demo_shared).1)
      (handle_recv_next_capnp_from_where demo_def demo_handle 257 34 (fun _ => true)) =
      Some match watch_receiver w with
           | Some (rcv, _) => RecvLock 257 slot 34 (fun _ => true) rcv
           | None => RecvDone (Err other_error)
           end.
Proof.
  destruct (handles_well_typed (W := CounterWatch) [] demo_env demo_form demo_def demo_handle) as (H1 & _ & H2).
  - by repeat constructor.
  - reflexivity.
  - exact demo_obtainable.
  - split; [exact H1|].
    apply (H2 "ping_pong"%string {| MESSAGE_COUNT := 2; BUNDLE_IDS := [256; 257]%Z |} eq_refl eq_refl 257%Z 34%Z
      (fun _ => true) demo_shared); [right; by left|reflexivity].
Defined.

(** A scope does not narrow what a handle can do: scoped to one bundle it
    receives the messages of another. *)
Example scoped_handle_takes_any_message :
  option_map (fun b => bool_decide (4098%Z ∈ BUNDLE_IDS b)) (resolve demo_env "ping_pong") = Some false /\
  option_map (fun recv => (recv demo_shared).1)
    (handle_recv_next_capnp_from demo_def demo_handle 4098 34) = Some (RecvLock 4098 3 34 (fun _ => true) 0).
Proof. done. Qed.

(** * Typed helpers *)

Section typed.
(** [capnp::message::Reader::new(segments, options)] and [TypedReader::get]. *)
Context {ReaderOptions Root CapnpError : Type}.
Context (get_root : list bytes -> ReaderOptions -> Root + CapnpError).

(** [Capnp] and [CapnpTyped]. *)
Record CapnpBytes := { capnp_bytes : bytes }.
Definition capnp_new (bytes : bytes) : CapnpBytes := {| capnp_bytes := bytes |}.

Definition with_reader {A} (c : CapnpBytes) (options : ReaderOptions) (f : list bytes * ReaderOptions -> A) : A :=
  let segments := [capnp_bytes c] in f (segments, options).

Definition with_root {A} (c : CapnpBytes) (options : ReaderOptions) (f : Root -> A) : A + CapnpError :=
  with_reader c options (fun '(segments, options) =>
    match get_root segments options with inl root => inl (f root) | inr e => inr e end).

(** [Received::as_capnp] and [Received::with_root]; [None] is a panic. *)
Definition as_capnp (r : Received) : option CapnpBytes := option_map capnp_new (received_body r).
Definition received_with_root {A} (r : Received) (options : ReaderOptions) (f : Root -> A) :
    option (A + CapnpError) :=
  option_map (fun c => with_root c options f) (as_capnp r).

(** A message taken from a mailbox is read as the one segment it was sent as. *)
Lemma received_with_root_run {A} MAX_BODY ID from slot options (f : Root -> A) :
  slot_wf MAX_BODY slot ->
  received_with_root (from_slot ID from slot) options f =
    Some match get_root [(slot_msg slot).2] options with inl root => inl (f root) | inr e => inr e end.
Proof.
  intros (Hl & Hle & _). unfold received_with_root, as_capnp, received_body. simpl.
  by rewrite slice_to_Some by lia.
Qed.
End typed.

(** [RxFlowControlConfig]: [set] is the transport's own call. *)
Definition set_rx_flow_control {Node Fc E} (set : Fc -> M Node E unit) (fc : Fc) : M Node Error unit :=
  catch (fun _ => other_error) (set fc).
