(* ===== verification/QueueCommon.v ===== *)
(** * The ISO-TP queue: what both runtimes share

    Models [iso-tp/can-isotp-queue/src/common.rs] (errors and configuration of
    the actor, its hooks) and what the two actors have in common: how the outcome
    of a send of the node is handed back, and which source a received payload
    is reported with. *)
From S2P Require Import Prelude Wire Interface.

Inductive QueueIsoTpError (E : Type) :=
| PayloadTooLarge (needed capacity : nat)
| Transport (e : E)
| ChannelClosed.
Arguments PayloadTooLarge {E} needed capacity.
Arguments Transport {E} e.
Arguments ChannelClosed {E}.

Record ActorConfig := {
  recv_poll_timeout : Duration;
  tx_burst_limit : nat;
  fixed_reply_to : option u8;
  allowed_reply_from : option u8;
}.

Definition ActorConfig_new (recv_poll_timeout : Duration) (tx_burst_limit : nat)
    (fixed_reply_to : option u8) : ActorConfig :=
  {| recv_poll_timeout := recv_poll_timeout; tx_burst_limit := tx_burst_limit;
     fixed_reply_to := fixed_reply_to; allowed_reply_from := None |}.
Definition with_fixed_reply_to (fixed_reply_to : option u8) (c : ActorConfig) : ActorConfig :=
  {| recv_poll_timeout := recv_poll_timeout c; tx_burst_limit := tx_burst_limit c;
     fixed_reply_to := fixed_reply_to; allowed_reply_from := allowed_reply_from c |}.
Definition with_allowed_reply_from (allowed_reply_from : option u8) (c : ActorConfig) : ActorConfig :=
  {| recv_poll_timeout := recv_poll_timeout c; tx_burst_limit := tx_burst_limit c;
     fixed_reply_to := fixed_reply_to c; allowed_reply_from := allowed_reply_from |}.
Definition normalized_tx_burst_limit (c : ActorConfig) : nat :=
  if tx_burst_limit c =? 0 then 1 else tx_burst_limit c.
Definition ActorConfig_default : ActorConfig :=
  {| recv_poll_timeout := 1000000; tx_burst_limit := 8; fixed_reply_to := None;
     allowed_reply_from := None |}.

(** The outcome of a send, as its caller sees it. *)
Abbreviation SendResult E := (result unit (SendError (QueueIsoTpError E))).

Section outcome.
Context {Node E : Type} `{IsoTpEndpoint Node E}.

(** The [match .. { Ok(()) => Ok(()), Err(SendError::Timeout) => .., .. }] of
    both actors. *)
Definition map_outcome (r : result unit (SendError E)) : SendResult E :=
  match r with
  | Ok _ => Ok tt
  | Err SendTimeout => Err SendTimeout
  | Err (SendBackend err) => Err (SendBackend (Transport err))
  | Panic => Panic
  end.

(** The send the actor makes for a request. *)
Definition node_send (functional : bool) (to : u8) (payload : bytes) (timeout : Duration) :
    M Node (SendError E) unit :=
  if functional then node_send_functional_to to payload timeout else node_send_to to payload timeout.
End outcome.

(** The source a payload is reported with; [None] when it is filtered out. *)
Definition reply_source (cfg : ActorConfig) (reply_to : u8) : option u8 :=
  match allowed_reply_from cfg with
  | Some expected_from =>
      if (reply_to =? expected_from)%Z then Some (default reply_to (fixed_reply_to cfg)) else None
  | None => Some (default reply_to (fixed_reply_to cfg))
  end.

(** * The hooks of the actors *)

(** [QueueKind]. *)
Inductive QueueKind := TxReq | TxResp | RxEvt.
#[global] Instance QueueKind_eq_dec : EqDecision QueueKind.
Proof. solve_decision. Defined.

(** The trait [ActorHooks].  A method takes [&self] and returns nothing; what
    it can do is change the state behind the reference (counters, a log). *)
Class ActorHooks (Hk E : Type) := {
  on_actor_started : Hk -> Hk;
  on_tx_request : u8 -> bool -> nat -> Duration -> Hk -> Hk;
  on_tx_result : SendResult E -> Hk -> Hk;
  on_rx_delivered : u8 -> nat -> Hk -> Hk;
  on_rx_filtered_source : u8 -> u8 -> nat -> Hk -> Hk;
  on_rx_buffer_too_small : nat -> nat -> Hk -> Hk;
  on_rx_backend_error : E -> Hk -> Hk;
  on_queue_backpressure : QueueKind -> Duration -> Hk -> Hk;
}.

(** [NoopHooks] takes the empty default bodies. *)
Inductive NoopHooks := Noop.
#[global] Instance NoopHooks_hooks E : ActorHooks NoopHooks E := {
  on_actor_started h := h;
  on_tx_request to is_functional len timeout h := h;
  on_tx_result r h := h;
  on_rx_delivered from len h := h;
  on_rx_filtered_source expected got len h := h;
  on_rx_buffer_too_small needed got h := h;
  on_rx_backend_error err h := h;
  on_queue_backpressure queue blocked_for h := h;
}.

(** A call of a hook with its arguments. *)
Inductive HookCall (E : Type) :=
| OnActorStarted
| OnTxRequest (to : u8) (is_functional : bool) (len : nat) (timeout : Duration)
| OnTxResult (r : SendResult E)
| OnRxDelivered (from : u8) (len : nat)
| OnRxFilteredSource (expected got : u8) (len : nat)
| OnRxBufferTooSmall (needed got : nat)
| OnRxBackendError (err : E)
| OnQueueBackpressure (queue : QueueKind) (blocked_for : Duration).
Arguments OnActorStarted {E}.
Arguments OnTxRequest {E} to is_functional len timeout.
Arguments OnTxResult {E} r.
Arguments OnRxDelivered {E} from len.
Arguments OnRxFilteredSource {E} expected got len.
Arguments OnRxBufferTooSmall {E} needed got.
Arguments OnRxBackendError {E} err.
Arguments OnQueueBackpressure {E} queue blocked_for.

Section hooks.
Context {Hk E : Type} `{ActorHooks Hk E}.

Definition call_hook (h : Hk) (c : HookCall E) : Hk :=
  match c with
  | OnActorStarted => on_actor_started h
  | OnTxRequest to is_functional len timeout => on_tx_request to is_functional len timeout h
  | OnTxResult r => on_tx_result r h
  | OnRxDelivered from len => on_rx_delivered from len h
  | OnRxFilteredSource expected got len => on_rx_filtered_source expected got len h
  | OnRxBufferTooSmall needed got => on_rx_buffer_too_small needed got h
  | OnRxBackendError err => on_rx_backend_error err h
  | OnQueueBackpressure queue blocked_for => on_queue_backpressure queue blocked_for h
  end.
Definition call_hooks (h : Hk) (cs : list (HookCall E)) : Hk := foldl call_hook h cs.

(** The hooks of a delivered payload, before its event is sent: the filter's
    [if let Some(expected_from) = .. && ..], or the delivery. *)
Definition delivery_hook (cfg : ActorConfig) (reply_to : u8) (len : nat) (h : Hk) : Hk :=
  match allowed_reply_from cfg with
  | Some expected_from =>
      if negb (reply_to =? expected_from)%Z then on_rx_filtered_source expected_from reply_to len h
      else on_rx_delivered (default reply_to (fixed_reply_to cfg)) len h
  | None => on_rx_delivered (default reply_to (fixed_reply_to cfg)) len h
  end.
End hooks.

(** What a list of hook calls says, kind by kind. *)
Section reports.
Context {E : Type}.
Implicit Types (cs : list (HookCall E)).

Definition tx_requests cs : list (u8 * bool * nat * Duration) :=
  omap (fun c => match c with
                 | OnTxRequest to is_functional len timeout => Some (to, is_functional, len, timeout)
                 | _ => None end) cs.
Definition tx_results cs : list (SendResult E) :=
  omap (fun c => match c with OnTxResult r => Some r | _ => None end) cs.
Definition is_rx_report (c : HookCall E) : option (HookCall E) :=
  match c with OnRxDelivered _ _ | OnRxBufferTooSmall _ _ | OnRxBackendError _ => Some c | _ => None end.
Definition rx_reports cs : list (HookCall E) := omap is_rx_report cs.
Definition backpressure cs : list (QueueKind * Duration) :=
  omap (fun c => match c with OnQueueBackpressure k d => Some (k, d) | _ => None end) cs.
Definition filter_reports cs : list (u8 * u8 * nat) :=
  omap (fun c => match c with OnRxFilteredSource e g n => Some (e, g, n) | _ => None end) cs.

Lemma tx_requests_app cs cs' : tx_requests (cs ++ cs') = tx_requests cs ++ tx_requests cs'.
Proof. apply omap_app. Qed.
Lemma tx_results_app cs cs' : tx_results (cs ++ cs') = tx_results cs ++ tx_results cs'.
Proof. apply omap_app. Qed.
Lemma rx_reports_app cs cs' : rx_reports (cs ++ cs') = rx_reports cs ++ rx_reports cs'.
Proof. apply omap_app. Qed.
Lemma backpressure_app cs cs' : backpressure (cs ++ cs') = backpressure cs ++ backpressure cs'.
Proof. apply omap_app. Qed.
Lemma filter_reports_app cs cs' : filter_reports (cs ++ cs') = filter_reports cs ++ filter_reports cs'.
Proof. apply omap_app. Qed.

(** A source is reported as filtered when the configuration filters it. *)
Definition filtered_by (cfg : ActorConfig) (r : u8 * u8 * nat) : Prop :=
  allowed_reply_from cfg = Some r.1.1 /\ r.1.2 <> r.1.1.

(** The calls [cs] tell of these requests, results, events and waits, and of no
    others. *)
Record told (cfg : ActorConfig) (requests : list (u8 * bool * nat * Duration)) (results : list (SendResult E))
    (events : list (HookCall E)) (waits : list (QueueKind * Duration)) cs : Prop := {
  told_started : OnActorStarted ∉ cs;
  told_requests : tx_requests cs = requests;
  told_results : tx_results cs = results;
  told_events : rx_reports cs = events;
  told_filtered : Forall (filtered_by cfg) (filter_reports cs);
  told_waits : backpressure cs = waits;
}.

Lemma told_nil cfg : told cfg [] [] [] [] [].
Proof. split; [by apply not_elem_of_nil|done..]. Qed.

Lemma told_app cfg r1 a1 e1 w1 c1 r2 a2 e2 w2 c2 :
  told cfg r1 a1 e1 w1 c1 -> told cfg r2 a2 e2 w2 c2 -> told cfg (r1 ++ r2) (a1 ++ a2) (e1 ++ e2) (w1 ++ w2) (c1 ++ c2).
Proof.
  intros [P1 P2 P3 P4 P5 P6] [N1 N2 N3 N4 N5 N6]. split.
  - rewrite elem_of_app. tauto.
  - by rewrite tx_requests_app, P2, N2.
  - by rewrite tx_results_app, P3, N3.
  - by rewrite rx_reports_app, P4, N4.
  - rewrite filter_reports_app. by apply Forall_app.
  - by rewrite backpressure_app, P6, N6.
Qed.

(** One call. *)
Lemma told_one cfg r a e w c :
  c <> OnActorStarted -> tx_requests [c] = r -> tx_results [c] = a -> rx_reports [c] = e -> backpressure [c] = w ->
  Forall (filtered_by cfg) (filter_reports [c]) -> told cfg r a e w [c].
Proof. intros Hc ?????. split; [|done..]. intros Hin%list_elem_of_singleton. by apply Hc. Qed.

(** The call of [delivery_hook]. *)
Definition delivery_call (cfg : ActorConfig) (reply_to : u8) (n : nat) : HookCall E :=
  match reply_source cfg reply_to with
  | Some from => OnRxDelivered from n
  | None => OnRxFilteredSource (default 0%Z (allowed_reply_from cfg)) reply_to n
  end.

Lemma delivery_told cfg reply_to n :
  told cfg [] [] (match reply_source cfg reply_to with Some from => [OnRxDelivered from n] | None => [] end) []
    [delivery_call cfg reply_to n].
Proof.
  unfold delivery_call. destruct (reply_source cfg reply_to) as [from|] eqn:Hr; (apply told_one; [done..|]).
  - constructor.
  - simpl. constructor; [|constructor]. unfold reply_source, filtered_by in *. simpl.
    destruct (allowed_reply_from cfg) as [u|]; [|done]. by destruct (Z.eqb_spec reply_to u).
Qed.
End reports.

Lemma delivery_hook_call {Hk E} `{ActorHooks Hk E} cfg reply_to n (h : Hk) :
  delivery_hook cfg reply_to n h = call_hook h (delivery_call (E := E) cfg reply_to n).
Proof.
  unfold delivery_hook, delivery_call, reply_source.
  destruct (allowed_reply_from cfg); [|done]. by destruct (_ =? _)%Z.
Qed.

(** Hooks that keep a log of their calls. *)
Record HookLog (E : Type) := { hook_log : list (HookCall E) }.
Arguments hook_log {E}.
Definition log_call {E} (c : HookCall E) (h : HookLog E) : HookLog E := {| hook_log := hook_log h ++ [c] |}.
#[global] Instance HookLog_hooks E : ActorHooks (HookLog E) E := {
  on_actor_started := log_call OnActorStarted;
  on_tx_request to is_functional len timeout := log_call (OnTxRequest to is_functional len timeout);
  on_tx_result r := log_call (OnTxResult r);
  on_rx_delivered from len := log_call (OnRxDelivered from len);
  on_rx_filtered_source expected got len := log_call (OnRxFilteredSource expected got len);
  on_rx_buffer_too_small needed got := log_call (OnRxBufferTooSmall needed got);
  on_rx_backend_error err := log_call (OnRxBackendError err);
  on_queue_backpressure queue blocked_for := log_call (OnQueueBackpressure queue blocked_for);
}.
