(* ===== verification/QueueTokio.v ===== *)
(** * The tokio queue in front of an ISO-TP endpoint

    Models [iso-tp/can-isotp-queue/src/tokio.rs]: the actor that owns the node
    ([run_actor]) and any number of [send_to], [send_functional_to], [recv_one]
    and [recv_one_into] calls on the cloneable endpoints, interleaved where
    they await.  The bounded [mpsc] channels are lists with a capacity, a
    [oneshot] is a cell of the task that awaits it.  A call may be dropped
    while it awaits, a timeout may strike, and the actor may be aborted or
    panic with its node.  A trace of labels records what was queued, what the
    node did and who got what; the theorems are about that trace. *)
From S2P Require Import Prelude Wire Interface QueueCommon.

(** [IsoTpAsyncEndpoint::recv_one]: [S] is the state of the callback. *)
Class IsoTpRecvOne (Node E : Type) := {
  node_recv_one : forall S, Duration -> (u8 -> bytes -> S -> result RecvControl E * S) -> Node -> S ->
    result RecvStatus (RecvError E) * Node * S;
}.

Section system.
Context {Node E S : Type} `{IsoTpEndpoint Node E} `{IsoTpRecvOne Node E}.
Context (max_payload tx_depth rx_depth : nat) (cfg : ActorConfig).
Abbreviation QError := (QueueIsoTpError E).

(** A request; its [done] sender belongs to the task that made it, whose index
    goes with it. *)
Record IsoTpTxRequest := {
  req_to : u8;
  req_functional_to : bool;
  req_timeout : Duration;
  req_payload : bytes;
}.

Inductive IsoTpRxEvent :=
| EvtDelivered (from : u8) (payload : bytes)
| EvtBufferTooSmall (needed got : nat)
| EvtBackend (e : E).

Inductive Oneshot := OneshotOpen | OneshotSent (r : SendResult E) | SenderDropped.

(** What a receiver does with an event: [recv_one_into] or [recv_one]. *)
Inductive consumer :=
| Into (out : bytes)
| Callback (on_payload : u8 -> bytes -> S -> result RecvControl QError * S) (s : S).
Inductive outcome :=
| IntoDone (r : result RecvMetaIntoStatus (RecvError QError)) (out : bytes)
| CallbackDone (r : result RecvStatus (RecvError QError)) (s : S).

(** The [match] of [recv_one_into] and of [recv_one] on [Ok(evt)]; [None] is a
    closed channel. *)
Definition consume_into (out : bytes) (evt : option IsoTpRxEvent) :
    result RecvMetaIntoStatus (RecvError QError) * bytes :=
  match evt with
  | Some (EvtDelivered from payload) =>
      if length out <? length payload
      then (Err (RecvBufferTooSmall (length payload) (length out)), out)
      else match copy_at out 0 payload with
           | Some out' => (Ok (DeliveredOne from (length payload)), out')
           | None => (Panic, out)
           end
  | Some (EvtBufferTooSmall needed got) => (Err (RecvBufferTooSmall needed got), out)
  | Some (EvtBackend err) => (Err (RecvBackend (Transport err)), out)
  | None => (Err (RecvBackend ChannelClosed), out)
  end.

Definition consume_callback (on_payload : u8 -> bytes -> S -> result RecvControl QError * S) (s : S)
    (evt : option IsoTpRxEvent) : result RecvStatus (RecvError QError) * S :=
  match evt with
  | Some (EvtDelivered from payload) =>
      match on_payload from payload s with
      | (Ok _, s') => (Ok StatusDeliveredOne, s')
      | (Err e, s') => (Err (RecvBackend e), s')
      | (Panic, s') => (Panic, s')
      end
  | Some (EvtBufferTooSmall needed got) => (Err (RecvBufferTooSmall needed got), s)
  | Some (EvtBackend err) => (Err (RecvBackend (Transport err)), s)
  | None => (Err (RecvBackend ChannelClosed), s)
  end.

Definition consume (c : consumer) (evt : option IsoTpRxEvent) : outcome :=
  match c with
  | Into out => let '(r, out') := consume_into out evt in IntoDone r out'
  | Callback f s => let '(r, s') := consume_callback f s evt in CallbackDone r s'
  end.
Definition timed_out (c : consumer) : outcome :=
  match c with
  | Into out => IntoDone (Ok RecvTimedOut) out
  | Callback f s => CallbackDone (Ok StatusTimedOut) s
  end.

(** A call and where it stands. *)
Inductive qtask :=
| SendQueue (req : IsoTpTxRequest)                     (* awaits [tx_req.send(req)] *)
| SendAwait (req : IsoTpTxRequest) (done : Oneshot)    (* awaits [done_rx] *)
| SendDone (req : IsoTpTxRequest) (r : SendResult E)
| RecvMutex (c : consumer)                             (* awaits [rx_evt.lock()] *)
| RecvHeld (c : consumer)                              (* awaits [rx.recv()] in a timeout *)
| RecvDone (o : outcome)
| TaskDropped.

(** Where the actor stands; [n] is [tx_processed]. *)
Inductive actor :=
| ActTx (n : nat)
| ActSending (n i : nat) (req : IsoTpTxRequest)
| ActRx
| ActEvt (evt : IsoTpRxEvent)
| ActGone.

Record Queue := {
  q_node : Node;
  q_actor : actor;
  q_tx_req : list (nat * IsoTpTxRequest);
  q_rx_evt : list IsoTpRxEvent;
  q_rx_lock : option nat;
  q_tasks : list qtask;
}.

Inductive label :=
| LSilent
| LEnqueue (i : nat) (req : IsoTpTxRequest)
| LServe (i : nat) (req : IsoTpTxRequest) (r : result unit (SendError E))
| LAccept (evt : IsoTpRxEvent)
| LTake (i : nat) (evt : IsoTpRxEvent).

(** [make_endpoints]. *)
Definition tx_capacity : nat := tx_depth `max` 1.
Definition rx_capacity : nat := rx_depth `max` 1.
Definition make_endpoints (node : Node) : Queue :=
  {| q_node := node; q_actor := ActTx 0; q_tx_req := []; q_rx_evt := []; q_rx_lock := None; q_tasks := [] |}.

Definition set_actor a q : Queue :=
  {| q_node := q_node q; q_actor := a; q_tx_req := q_tx_req q; q_rx_evt := q_rx_evt q;
     q_rx_lock := q_rx_lock q; q_tasks := q_tasks q |}.
Definition set_node n q : Queue :=
  {| q_node := n; q_actor := q_actor q; q_tx_req := q_tx_req q; q_rx_evt := q_rx_evt q;
     q_rx_lock := q_rx_lock q; q_tasks := q_tasks q |}.
Definition set_tx_req l q : Queue :=
  {| q_node := q_node q; q_actor := q_actor q; q_tx_req := l; q_rx_evt := q_rx_evt q;
     q_rx_lock := q_rx_lock q; q_tasks := q_tasks q |}.
Definition set_rx_evt l q : Queue :=
  {| q_node := q_node q; q_actor := q_actor q; q_tx_req := q_tx_req q; q_rx_evt := l;
     q_rx_lock := q_rx_lock q; q_tasks := q_tasks q |}.
Definition set_rx_lock l q : Queue :=
  {| q_node := q_node q; q_actor := q_actor q; q_tx_req := q_tx_req q; q_rx_evt := q_rx_evt q;
     q_rx_lock := l; q_tasks := q_tasks q |}.
Definition set_tasks l q : Queue :=
  {| q_node := q_node q; q_actor := q_actor q; q_tx_req := q_tx_req q; q_rx_evt := q_rx_evt q;
     q_rx_lock := q_rx_lock q; q_tasks := l |}.
Definition set_task i t q : Queue := set_tasks (<[i := t]> (q_tasks q)) q.

(** Send on, or drop, the [done] of task [i]; a receiver that is gone is
    ignored. *)
Definition resolve (v : Oneshot) (t : qtask) : qtask :=
  match t with SendAwait req OneshotOpen => SendAwait req v | _ => t end.
Definition complete (v : Oneshot) (i : nat) (ts : list qtask) : list qtask := alter (resolve v) i ts.

(** The request the actor works on. *)
Definition in_hand (a : actor) : list (nat * IsoTpTxRequest) :=
  match a with ActSending _ i req => [(i, req)] | _ => [] end.
Definition evt_in_hand (a : actor) : list IsoTpRxEvent :=
  match a with ActEvt evt => [evt] | _ => [] end.

(** The actor task ends, aborted or by a panic: its ports are dropped and with
    them the requests it holds and those still queued. *)
Definition stop_actor (q : Queue) : Queue :=
  set_actor ActGone (set_tx_req []
    (set_tasks (foldr (complete SenderDropped) (q_tasks q) (map fst (in_hand (q_actor q) ++ q_tx_req q))) q)).

(** ** The actor *)

(** The callback of [recv_one] in [run_actor]. *)
Definition keep_delivered (from : u8) (payload : bytes) (delivered : option (u8 * bytes)) :
    result RecvControl E * option (u8 * bytes) := (Ok ControlStop, Some (from, payload)).

(** What a receive of the node leads to: the next state of the actor and the
    label. *)
Definition after_recv (r : result RecvStatus (RecvError E)) (delivered : option (u8 * bytes)) :
    option (label * actor) :=
  match r with
  | Ok StatusTimedOut => Some (LSilent, ActTx 0)
  | Ok StatusDeliveredOne =>
      match delivered with
      | Some (from_meta, payload) =>
          match reply_source cfg from_meta with
          | Some from => Some (LAccept (EvtDelivered from payload), ActEvt (EvtDelivered from payload))
          | None => Some (LSilent, ActTx 0)
          end
      | None => Some (LSilent, ActTx 0)
      end
  | Err (RecvBufferTooSmall needed got) =>
      Some (LAccept (EvtBufferTooSmall needed got), ActEvt (EvtBufferTooSmall needed got))
  | Err (RecvBackend err) => Some (LAccept (EvtBackend err), ActEvt (EvtBackend err))
  | Panic => None
  end.

Definition run_actor_step (q : Queue) : option (label * Queue) :=
  match q_actor q with
  | ActTx n =>
      if n <? normalized_tx_burst_limit cfg then
        match q_tx_req q with
        | (i, req) :: rest => Some (LSilent, set_actor (ActSending (n + 1) i req) (set_tx_req rest q))
        | [] => Some (LSilent, set_actor ActRx q)
        end
      else Some (LSilent, set_actor ActRx q)
  | ActSending n i req =>
      let '(r, node) := node_send (req_functional_to req) (req_to req) (req_payload req)
                          (req_timeout req) (q_node q) in
      match r with
      | Panic => Some (LServe i req r, stop_actor (set_node node q))
      | _ => Some (LServe i req r,
                   set_actor (ActTx n)
                     (set_tasks (complete (OneshotSent (map_outcome r)) i (q_tasks q)) (set_node node q)))
      end
  | ActRx =>
      let '(r, node, delivered) :=
        node_recv_one (option (u8 * bytes)) (recv_poll_timeout cfg) keep_delivered (q_node q) None in
      match after_recv r delivered with
      | Some (l, a) => Some (l, set_actor a (set_node node q))
      | None => Some (LSilent, stop_actor (set_node node q))
      end
  | ActEvt evt =>
      if length (q_rx_evt q) <? rx_capacity
      then Some (LSilent, set_actor (ActTx 0) (set_rx_evt (q_rx_evt q ++ [evt]) q))
      else None
  | ActGone => None
  end.

(** ** The calls *)

(** [send_to] and [send_functional_to] up to their first await. *)
Definition spawn_send (to : u8) (functional_to : bool) (payload : bytes) (timeout : Duration) : qtask :=
  let req := {| req_to := to; req_functional_to := functional_to; req_timeout := timeout;
                req_payload := payload |} in
  if max_payload <? length payload
  then SendDone req (Err (SendBackend (PayloadTooLarge (length payload) max_payload)))
  else SendQueue req.

Definition is_gone (a : actor) : bool := match a with ActGone => true | _ => false end.

(** One poll of call [i] that makes progress; [None] is pending. *)
Definition call_step (i : nat) (t : qtask) (q : Queue) : option (label * Queue) :=
  match t with
  | SendQueue req =>
      if is_gone (q_actor q)
      then Some (LSilent, set_task i (SendDone req (Err (SendBackend ChannelClosed))) q)
      else if length (q_tx_req q) <? tx_capacity
      then Some (LEnqueue i req,
                 set_task i (SendAwait req OneshotOpen) (set_tx_req (q_tx_req q ++ [(i, req)]) q))
      else None
  | SendAwait req OneshotOpen => None
  | SendAwait req (OneshotSent r) => Some (LSilent, set_task i (SendDone req r) q)
  | SendAwait req SenderDropped =>
      Some (LSilent, set_task i (SendDone req (Err (SendBackend ChannelClosed))) q)
  | RecvMutex c =>
      match q_rx_lock q with
      | None => Some (LSilent, set_task i (RecvHeld c) (set_rx_lock (Some i) q))
      | Some _ => None
      end
  | RecvHeld c =>
      match q_rx_evt q with
      | evt :: rest =>
          Some (LTake i evt,
                set_task i (RecvDone (consume c (Some evt))) (set_rx_lock None (set_rx_evt rest q)))
      | [] =>
          if is_gone (q_actor q)
          then Some (LSilent, set_task i (RecvDone (consume c None)) (set_rx_lock None q))
          else None
      end
  | SendDone _ _ | RecvDone _ | TaskDropped => None
  end.

(** Dropping a call at an await. *)
Definition call_drop (i : nat) (t : qtask) (q : Queue) : option Queue :=
  match t with
  | SendQueue _ | SendAwait _ _ | RecvMutex _ => Some (set_task i TaskDropped q)
  | RecvHeld _ => Some (set_task i TaskDropped (set_rx_lock None q))
  | SendDone _ _ | RecvDone _ | TaskDropped => None
  end.

Inductive qstep : Queue -> label -> Queue -> Prop :=
| q_actor_steps q l q' : run_actor_step q = Some (l, q') -> qstep q l q'
| q_call_steps q i t l q' : q_tasks q !! i = Some t -> call_step i t q = Some (l, q') -> qstep q l q'
| q_times_out q i c :
    q_tasks q !! i = Some (RecvHeld c) ->
    qstep q LSilent (set_task i (RecvDone (timed_out c)) (set_rx_lock None q))
| q_drops q i t q' : q_tasks q !! i = Some t -> call_drop i t q = Some q' -> qstep q LSilent q'
| q_aborts q : q_actor q <> ActGone -> qstep q LSilent (stop_actor q)
| q_sends q to functional_to payload timeout :
    qstep q LSilent (set_tasks (q_tasks q ++ [spawn_send to functional_to payload timeout]) q)
| q_receives q c : qstep q LSilent (set_tasks (q_tasks q ++ [RecvMutex c]) q).

Inductive qreach (node : Node) : list label -> Queue -> Prop :=
| qreach_init : qreach node [] (make_endpoints node)
| qreach_step tr q l q' : qreach node tr q -> qstep q l q' -> qreach node (tr ++ [l]) q'.
End system.

Arguments IsoTpTxRequest : clear implicits.
Arguments Queue Node E S : clear implicits.
Arguments label E : clear implicits.
Arguments qtask E S : clear implicits.

(** * The invariant *)

Section invariant.
Context {Node E S : Type} `{IsoTpEndpoint Node E} `{IsoTpRecvOne Node E}.
Context (max_payload tx_depth rx_depth : nat) (cfg : ActorConfig).
Implicit Types (q : Queue Node E S) (tr : list (label E)) (t : qtask E S) (req : IsoTpTxRequest).
Abbreviation step := (qstep (Node := Node) (E := E) (S := S) max_payload tx_depth rx_depth cfg).
Abbreviation reach := (qreach (Node := Node) (E := E) (S := S) max_payload tx_depth rx_depth cfg).

(** The requests queued and served, and the events accepted and taken, in the
    order of the trace. *)
Definition enqueued tr : list (nat * IsoTpTxRequest) :=
  omap (fun l => match l with LEnqueue i req => Some (i, req) | _ => None end) tr.
Definition served tr : list (nat * IsoTpTxRequest) :=
  omap (fun l => match l with LServe i req _ => Some (i, req) | _ => None end) tr.
Definition accepted tr : list (IsoTpRxEvent (E := E)) :=
  omap (fun l => match l with LAccept evt => Some evt | _ => None end) tr.
Definition taken tr : list (IsoTpRxEvent (E := E)) :=
  omap (fun l => match l with LTake _ evt => Some evt | _ => None end) tr.

Definition outstanding q : list (nat * IsoTpTxRequest) := in_hand (q_actor q) ++ q_tx_req q.
Definition gone q : Prop := q_actor q = ActGone.

(** The node did not complete a send of call [i]. *)
Definition unserved tr (i : nat) : Prop := forall req res, LServe i req res ∈ tr -> res = Panic.

(** What the result of a finished send means. *)
Definition own_result tr q (i : nat) req (r : SendResult E) : Prop :=
  (max_payload < length (req_payload req) /\
   r = Err (SendBackend (PayloadTooLarge (length (req_payload req)) max_payload)) /\
   forall req', (i, req') ∉ enqueued tr) \/
  (exists res, LServe i req res ∈ tr /\ res <> Panic /\ r = map_outcome res) \/
  (gone q /\ r = Err (SendBackend ChannelClosed) /\ unserved tr i).

Definition qtask_ok tr q (i : nat) t : Prop :=
  match t with
  | SendQueue req => length (req_payload req) <= max_payload /\ forall req', (i, req') ∉ enqueued tr
  | SendAwait req OneshotOpen => (i, req) ∈ outstanding q
  | SendAwait req (OneshotSent r) => exists res, LServe i req res ∈ tr /\ res <> Panic /\ r = map_outcome res
  | SendAwait req SenderDropped => gone q /\ unserved tr i
  | SendDone req r => own_result tr q i req r
  | _ => True
  end.

(** The accepted events are those taken, those in the channel and the one in
    hand, in order; only the end of the actor loses some. *)
Definition rx_fifo tr q : Prop :=
  exists lost, accepted tr = taken tr ++ q_rx_evt q ++ evt_in_hand (q_actor q) ++ lost /\ (~ gone q -> lost = []).

Record qinv tr q : Prop := {
  inv_tx : exists lost, enqueued tr = served tr ++ outstanding q ++ lost /\ (~ gone q -> lost = []);
  inv_ids : NoDup (enqueued tr).*1;
  inv_started i req : (i, req) ∈ enqueued tr -> i < length (q_tasks q);
  inv_tx_len : length (q_tx_req q) <= tx_capacity tx_depth;
  inv_gone : gone q -> q_tx_req q = [];
  inv_rx : rx_fifo tr q;
  inv_rx_len : length (q_rx_evt q) <= rx_capacity rx_depth;
  inv_tasks i t : q_tasks q !! i = Some t -> qtask_ok tr q i t;
}.

Lemma served_elem tr i req : (i, req) ∈ served tr <-> exists res, LServe i req res ∈ tr.
Proof.
  unfold served. rewrite list_elem_of_omap. split.
  - intros (l & Hl & Hs). destruct l; simplify_eq. by eexists.
  - intros [res Hl]. by exists (LServe i req res).
Qed.

(** A call whose request is outstanding was not served. *)
Lemma outstanding_unserved tr q i req req' :
  qinv tr q -> (i, req) ∈ outstanding q -> (i, req') ∉ served tr.
Proof.
  intros Hi Ho Hs. destruct (inv_tx _ _ Hi) as (lost & He & _). pose proof (inv_ids _ _ Hi) as Hnd.
  rewrite He, !fmap_app in Hnd. apply NoDup_app in Hnd as (_ & Hnd & _).
  apply (Hnd i); [by apply (list_elem_of_fmap_2 fst _ (i, req'))|].
  apply elem_of_app. left. by apply (list_elem_of_fmap_2 fst _ (i, req)).
Qed.

Lemma outstanding_enqueued tr q i req : qinv tr q -> (i, req) ∈ outstanding q -> (i, req) ∈ enqueued tr.
Proof. intros Hi Ho. destruct (inv_tx _ _ Hi) as (lost & -> & _). rewrite !elem_of_app. auto. Qed.

Lemma outstanding_alive tr q i req : qinv tr q -> (i, req) ∈ outstanding q -> ~ gone q.
Proof.
  intros Hi Ho Hg. unfold outstanding in Ho. rewrite (inv_gone _ _ Hi Hg) in Ho. unfold gone in Hg.
  rewrite Hg in Ho. by apply elem_of_nil in Ho.
Qed.

(** A call has one request. *)
Lemma outstanding_req tr q i req req' :
  qinv tr q -> (i, req) ∈ outstanding q -> (i, req') ∈ outstanding q -> req = req'.
Proof.
  intros Hi H1 H2. apply (outstanding_enqueued _ _ _ _ Hi) in H1, H2. pose proof (inv_ids _ _ Hi) as Hnd.
  induction (enqueued tr) as [|[j r] l IH]; [by apply elem_of_nil in H1|].
  apply NoDup_cons in Hnd as [Hj Hnd].
  assert (Hno : forall r', (j, r') ∉ l) by (intros r' Hr; apply Hj; by apply (list_elem_of_fmap_2 fst l (j, r'))).
  apply elem_of_cons in H1 as [H1|H1], H2 as [H2|H2]; simplify_eq; try done; [by destruct (Hno req')|by destruct (Hno req)|auto].
Qed.

Definition is_open t : option IsoTpTxRequest :=
  match t with SendAwait req OneshotOpen => Some req | _ => None end.
Definition is_send t : bool :=
  match t with SendQueue _ | SendAwait _ _ | SendDone _ _ => true | _ => false end.

(** The call of an outstanding request awaits its answer, or was dropped. *)
Lemma outstanding_task tr q i req t :
  qinv tr q -> (i, req) ∈ outstanding q -> q_tasks q !! i = Some t ->
  t = SendAwait req OneshotOpen \/ is_send t = false.
Proof.
  intros Hi Hin Ht. pose proof (inv_tasks _ _ Hi _ _ Ht) as Hok.
  pose proof (outstanding_enqueued _ _ _ _ Hi Hin) as Henq.
  pose proof (outstanding_alive _ _ _ _ Hi Hin) as Hal.
  assert (Hns : forall req' res, LServe i req' res ∉ tr).
  { intros req' res Hs. apply (outstanding_unserved _ _ _ _ req' Hi Hin), served_elem. by exists res. }
  destruct t as [req'|req' [|r'|]|req' r'| | | |]; simpl in *; auto.
  - destruct Hok as [_ Hn]. by destruct (Hn req).
  - left. by rewrite (outstanding_req _ _ _ _ _ Hi Hin Hok).
  - destruct Hok as (res & Hs & _). by destruct (Hns req' res).
  - by destruct Hok.
  - destruct Hok as [(_ & _ & Hn)|[(res & Hs & _)|[? _]]]; [by destruct (Hn req)| |done].
    by destruct (Hns req' res).
Qed.

(** A call is unaffected by a step that neither queues nor serves it, keeps its
    request, and does not serve anything once the actor is gone. *)
Lemma qtask_frame tr q l q' i t :
  qtask_ok tr q i t ->
  (forall req, l <> LEnqueue i req) -> (forall req res, l <> LServe i req res) ->
  (forall req, t = SendAwait req OneshotOpen -> (i, req) ∈ outstanding q -> (i, req) ∈ outstanding q') ->
  (gone q -> gone q') ->
  qtask_ok (tr ++ [l]) q' i t.
Proof.
  intros Hok Hne Hns Hout Hg.
  assert (Henq : forall req, (i, req) ∈ enqueued (tr ++ [l]) -> (i, req) ∈ enqueued tr).
  { intros req. unfold enqueued. rewrite omap_app, elem_of_app. intros [?|Hl]; [done|].
    destruct l; simpl in Hl; try by apply elem_of_nil in Hl.
    apply list_elem_of_singleton in Hl. simplify_eq. exfalso. by eapply Hne. }
  assert (Hserve : forall req res, LServe i req res ∈ tr ++ [l] <-> LServe i req res ∈ tr).
  { intros req res. rewrite elem_of_app, list_elem_of_singleton. split; [|by left].
    intros [?|<-]; [done|]. by destruct (Hns req res). }
  assert (Hun : unserved tr i -> unserved (tr ++ [l]) i).
  { intros Hu req res. rewrite Hserve. apply Hu. }
  destruct t as [req|req [|r|]|req r| | | |]; simpl in *; try done.
  - destruct Hok as [? Hn]. split; [done|]. intros req' Hin. by eapply Hn, Henq.
  - by apply Hout.
  - destruct Hok as (res & ? & ?). exists res. by rewrite Hserve.
  - destruct Hok. split; auto.
  - destruct Hok as [(? & ? & Hn)|[(res & ? & ?)|(? & ? & ?)]].
    + left. split_and!; [done..|]. intros req' Hin. by eapply Hn, Henq.
    + right; left. exists res. by rewrite Hserve.
    + right; right. split_and!; auto.
Qed.

Lemma enqueued_snoc tr l : enqueued (tr ++ [l]) = enqueued tr ++ enqueued [l].
Proof. apply omap_app. Qed.
Lemma served_snoc tr l : served (tr ++ [l]) = served tr ++ served [l].
Proof. apply omap_app. Qed.

Lemma rx_fifo_same tr q l q' :
  rx_fifo tr q -> accepted [l] = [] -> taken [l] = [] -> q_rx_evt q' = q_rx_evt q ->
  evt_in_hand (q_actor q') = evt_in_hand (q_actor q) -> (gone q -> gone q') -> rx_fifo (tr ++ [l]) q'.
Proof.
  intros (lost & He & Hl) Ha Ht Hr Hh Hg. exists lost. unfold accepted, taken in *.
  rewrite !omap_app, Ha, Ht, !app_nil_r, Hr, Hh. split; [done|]. auto.
Qed.

(** A step that neither queues nor serves a request. *)
Lemma inv_quiet tr q l q' :
  qinv tr q -> enqueued [l] = [] -> served [l] = [] ->
  outstanding q' = outstanding q -> (gone q <-> gone q') ->
  length (q_tx_req q') <= length (q_tx_req q) -> length (q_tasks q) <= length (q_tasks q') ->
  rx_fifo (tr ++ [l]) q' -> length (q_rx_evt q') <= rx_capacity rx_depth ->
  (forall i t, q_tasks q' !! i = Some t -> q_tasks q !! i = Some t \/ qtask_ok (tr ++ [l]) q' i t) ->
  qinv (tr ++ [l]) q'.
Proof.
  intros Hi He Hs Ho Hg Hlen Htl Hrx Hrxl Ht. destruct (Hi) as [Htx Hids Hst Hl Hgo _ _ Htk].
  assert (Henq : enqueued (tr ++ [l]) = enqueued tr) by (rewrite enqueued_snoc, He; apply app_nil_r).
  split; rewrite ?Henq; try done.
  - destruct Htx as (lost & Hq & Hlost). exists lost. rewrite served_snoc, Hs, app_nil_r, Ho.
    split; [done|]. rewrite <- Hg. done.
  - intros i req Hin. specialize (Hst i req Hin). lia.
  - lia.
  - intros Hg'. apply Hg, Hgo in Hg'. rewrite Hg' in Hlen. simpl in Hlen. destruct (q_tx_req q'); [done|simpl in *; lia].
  - intros i t [Hold|]%Ht; [|done]. eapply qtask_frame; [by apply Htk|..].
    + intros req ->. done.
    + intros req res ->. done.
    + intros req _. by rewrite Ho.
    + apply Hg.
Qed.

(** A call that moves on by itself, and maybe takes or releases the lock. *)
Lemma inv_call tr q l q' i t' :
  qinv tr q -> enqueued [l] = [] -> served [l] = [] ->
  q_actor q' = q_actor q -> q_tx_req q' = q_tx_req q -> rx_fifo (tr ++ [l]) q' ->
  length (q_rx_evt q') <= rx_capacity rx_depth -> q_tasks q' = <[i := t']> (q_tasks q) ->
  qtask_ok (tr ++ [l]) q' i t' -> qinv (tr ++ [l]) q'.
Proof.
  intros Hi He Hs Ha Htx Hrx Hrl Hts Hok. apply (inv_quiet tr q); try done; unfold outstanding, gone.
  - by rewrite Ha, Htx.
  - by rewrite Ha.
  - by rewrite Htx.
  - by rewrite Hts, length_insert.
  - intros j t. rewrite Hts. destruct (decide (i = j)) as [<-|].
    + destruct (decide (i < length (q_tasks q))).
      * rewrite list_lookup_insert_eq by done. intros [= <-]. by right.
      * rewrite list_insert_ge by lia. by left.
    + rewrite list_lookup_insert_ne by done. by left.
Qed.

Lemma inv_call_silent tr q q' i t' :
  qinv tr q -> q_actor q' = q_actor q -> q_tx_req q' = q_tx_req q -> q_rx_evt q' = q_rx_evt q ->
  q_tasks q' = <[i := t']> (q_tasks q) -> qtask_ok tr q i t' -> qinv (tr ++ [LSilent]) q'.
Proof.
  intros Hi Ha Htx Hr Hts Hok. apply (inv_call tr q _ _ i t'); try done.
  - eapply rx_fifo_same; [exact (inv_rx _ _ Hi)|done|done|done|by rewrite Ha|unfold gone; by rewrite Ha].
  - rewrite Hr. apply Hi.
  - eapply qtask_frame; [done|done|done| |unfold gone; by rewrite Ha].
    intros req _. unfold outstanding. by rewrite Ha, Htx.
Qed.

Lemma inv_enqueue tr q i req :
  qinv tr q -> q_tasks q !! i = Some (SendQueue req) -> ~ gone q ->
  length (q_tx_req q) < tx_capacity tx_depth ->
  qinv (tr ++ [LEnqueue i req])
    (set_task i (SendAwait req OneshotOpen) (set_tx_req (q_tx_req q ++ [(i, req)]) q)).
Proof.
  intros Hi Ht Hal Hcap. destruct (Hi) as [Htx Hids Hst Hl Hgo Hrx Hrl Htk].
  pose proof (lookup_lt_Some _ _ _ Ht) as Hlt. destruct (Htk _ _ Ht) as [Hpl Hnew].
  assert (Henq : enqueued (tr ++ [LEnqueue i req]) = enqueued tr ++ [(i, req)]) by apply enqueued_snoc.
  set (q' := set_task _ _ _).
  assert (Hout : outstanding q' = outstanding q ++ [(i, req)]) by apply app_assoc.
  split; rewrite ?Henq; simpl; rewrite ?length_insert, ?length_app; simpl; try done.
  - exists []. destruct Htx as (lost & He & Hlost). rewrite served_snoc, Hout. simpl. rewrite He, (Hlost Hal).
    by rewrite !app_nil_r, app_assoc.
  - rewrite fmap_app. apply NoDup_app. split_and!; [done| |apply NoDup_singleton].
    intros j (y & -> & Hy)%list_elem_of_fmap_1 Hj%list_elem_of_singleton. simpl in Hj.
    apply (Hnew y.2). rewrite <- Hj. by destruct y.
  - intros j req' [Hin|Hj%list_elem_of_singleton]%elem_of_app; [by eapply Hst|]. by simplify_eq.
  - lia.
  - eapply (rx_fifo_same tr q); done.
  - intros j t. destruct (decide (i = j)) as [<-|Hne].
    + rewrite list_lookup_insert_eq by done. intros [= <-]. simpl. rewrite Hout. apply elem_of_app. right.
      by left.
    + rewrite list_lookup_insert_ne by done. intros Hj. eapply qtask_frame; [by apply Htk|..].
      * intros req' [= ? ?]. done.
      * done.
      * intros req' _ Hin. rewrite Hout. apply elem_of_app. by left.
      * done.
Qed.

(** The node served the request in hand. *)
Lemma inv_serve tr q n i req r node :
  qinv tr q -> q_actor q = ActSending n i req -> r <> Panic ->
  qinv (tr ++ [LServe i req r])
    (set_actor (ActTx n) (set_tasks (complete (OneshotSent (map_outcome r)) i (q_tasks q)) (set_node node q))).
Proof.
  intros Hi Ha Hr. destruct (Hi) as [Htx Hids Hst Hl Hgo Hrx Hrl Htk].
  assert (Hout : outstanding q = (i, req) :: q_tx_req q) by (unfold outstanding; by rewrite Ha).
  assert (Hin : (i, req) ∈ outstanding q) by (rewrite Hout; by left).
  assert (Hal : ~ gone q) by (unfold gone; by rewrite Ha).
  assert (Henq : enqueued (tr ++ [LServe i req r]) = enqueued tr) by (rewrite enqueued_snoc; apply app_nil_r).
  set (q' := set_actor _ _). assert (Hout' : outstanding q' = q_tx_req q) by done.
  split; rewrite ?Henq; simpl; unfold complete; rewrite ?length_alter; try done.
  - exists []. destruct Htx as (lost & He & Hlost). rewrite served_snoc, He, Hout, Hout', (Hlost Hal).
    by rewrite !app_nil_r, <- app_assoc.
  - eapply (rx_fifo_same tr q); try done. by rewrite Ha.
  - intros j t. rewrite list_lookup_alter. destruct (decide (i = j)) as [<-|Hne].
    + rewrite fmap_Some. intros (t0 & Ht0 & ->).
      destruct (outstanding_task _ _ _ _ _ Hi Hin Ht0) as [->|Ht]; [|by destruct t0].
      exists r. rewrite elem_of_app, list_elem_of_singleton. auto.
    + intros Hj. eapply qtask_frame; [by apply Htk|done| | |done].
      * intros req' res [= ? ? ?]. done.
      * intros req' _. rewrite Hout, Hout'. intros [Hx|]%elem_of_cons; [|done]. by simplify_eq.
Qed.

Lemma foldr_complete (ids : list nat) (ts : list (qtask E S)) i :
  foldr (complete SenderDropped) ts ids !! i =
    (fun t => if decide (i ∈ ids) then resolve SenderDropped t else t) <$> ts !! i.
Proof.
  induction ids as [|j ids IH]; simpl.
  { destruct (decide (i ∈ [])) as [Hi|]; [by apply elem_of_nil in Hi|]. by destruct (ts !! i). }
  unfold complete at 1. rewrite list_lookup_alter. destruct (decide (j = i)) as [->|Hne].
  - rewrite IH. destruct (ts !! i) as [t|]; [|done]. simpl. f_equal.
    rewrite (decide_True (P := i ∈ i :: ids)) by (by left).
    destruct (decide _); [|done]. by destruct t as [|? []| | | | |].
  - rewrite IH. destruct (ts !! i) as [t|]; [|done]. simpl. f_equal.
    destruct (decide (i ∈ ids)) as [Hin|Hin].
    + by rewrite decide_True by (by right).
    + by rewrite decide_False by (intros [?|?]%elem_of_cons; done).
Qed.

Lemma foldr_complete_length (ids : list nat) (ts : list (qtask E S)) :
  length (foldr (complete SenderDropped) ts ids) = length ts.
Proof. induction ids; [done|]. simpl. unfold complete at 1. by rewrite length_alter. Qed.

(** The actor ends: aborted, or by a panic of its node. *)
Lemma inv_stop tr q l node :
  qinv tr q -> ~ gone q ->
  (l = LSilent \/ exists n i req, q_actor q = ActSending n i req /\ l = LServe i req Panic) ->
  qinv (tr ++ [l]) (stop_actor (set_node node q)).
Proof.
  intros Hi Hal Hl. destruct (Hi) as [Htx Hids Hst Hlen Hgo Hrx Hrl Htk].
  assert (Henq : enqueued (tr ++ [l]) = enqueued tr).
  { rewrite enqueued_snoc. destruct Hl as [->|(? & ? & ? & _ & ->)]; apply app_nil_r. }
  set (q' := stop_actor _). assert (Hg' : gone q') by done.
  split; rewrite ?Henq; try done.
  - destruct Htx as (lost & He & Hlost). rewrite (Hlost Hal), app_nil_r in He. rewrite served_snoc, He.
    destruct Hl as [->|(n & i & req & Ha & ->)].
    + exists (outstanding q). by rewrite app_nil_r.
    + exists (q_tx_req q). unfold outstanding. rewrite Ha. simpl. by rewrite <- app_assoc.
  - simpl. intros i req. rewrite foldr_complete_length. apply Hst.
  - simpl. lia.
  - destruct Hrx as (lost & He & Hlost). exists (evt_in_hand (q_actor q)).
    rewrite (Hlost Hal), app_nil_r in He. unfold accepted, taken in *. rewrite !omap_app, He.
    destruct Hl as [->|(? & ? & ? & _ & ->)]; simpl; by rewrite !app_nil_r.
  - intros i t. simpl. rewrite foldr_complete, fmap_Some. intros (t0 & Ht0 & ->).
    specialize (Htk _ _ Ht0). destruct (is_open t0) as [req|] eqn:Hop.
    + destruct t0 as [|? []| | | | |]; simplify_eq/=. rewrite decide_True.
      2:{ by apply (list_elem_of_fmap_2 fst (outstanding q) (i, req)). }
      split; [done|]. intros req' res [Hs|Hs%list_elem_of_singleton]%elem_of_app.
      * destruct (outstanding_unserved _ _ _ _ req' Hi Htk). apply served_elem. by exists res.
      * destruct Hl as [->|(? & ? & ? & _ & ->)]; [done|]. by simplify_eq.
    + assert (Hsame : resolve SenderDropped t0 = t0) by (by destruct t0 as [|? []| | | | |]).
      assert (Hok : qtask_ok (tr ++ [l]) q' i t0); [|by destruct (decide _); rewrite ?Hsame].
      destruct (is_send t0) eqn:Hs; [|by destruct t0].
      eapply qtask_frame; [done|..|done].
      * intros req ->. by destruct Hl as [?|(? & ? & ? & _ & ?)].
      * intros req res ->. destruct Hl as [|(n & j & req' & Ha & ?)]; simplify_eq.
        destruct (outstanding_task tr q j req' t0 Hi) as [->|]; try done; [|congruence].
        unfold outstanding. rewrite Ha. by left.
      * intros req ->. done.
Qed.

(** The actor moves without touching the calls or the outstanding requests. *)
Lemma inv_actor_moves tr q l q' :
  qinv tr q -> enqueued [l] = [] -> served [l] = [] -> ~ gone q -> ~ gone q' ->
  outstanding q' = outstanding q -> length (q_tx_req q') <= length (q_tx_req q) ->
  q_tasks q' = q_tasks q -> rx_fifo (tr ++ [l]) q' -> length (q_rx_evt q') <= rx_capacity rx_depth ->
  qinv (tr ++ [l]) q'.
Proof.
  intros Hi He Hs Hal Hal' Ho Hlen Ht Hrx Hrl. apply (inv_quiet tr q); try done; [by rewrite Ht|].
  intros i t. rewrite Ht. by left.
Qed.

Lemma rx_fifo_alive tr q :
  rx_fifo tr q -> ~ gone q -> accepted tr = taken tr ++ q_rx_evt q ++ evt_in_hand (q_actor q).
Proof. intros (lost & He & Hl) Hal. by rewrite He, (Hl Hal), app_nil_r. Qed.

(** The node received something: the actor takes it in hand. *)
Lemma inv_after_recv tr q r delivered l a node :
  qinv tr q -> q_actor q = ActRx -> after_recv cfg r delivered = Some (l, a) ->
  qinv (tr ++ [l]) (set_actor a (set_node node q)).
Proof.
  intros Hi Ha Hr. assert (Hal : ~ gone q) by (unfold gone; by rewrite Ha).
  pose proof (rx_fifo_alive _ _ (inv_rx _ _ Hi) Hal) as Hrx. rewrite Ha, app_nil_r in Hrx.
  assert (Hcase : (l = LSilent /\ a = ActTx 0) \/ exists evt, l = LAccept evt /\ a = ActEvt evt).
  { unfold after_recv in Hr. repeat case_match; simplify_eq; eauto. }
  destruct Hcase as [[-> ->]|(evt & -> & ->)]; apply (inv_actor_moves tr q); try done;
    unfold outstanding; rewrite ?Ha; try done; try apply Hi.
  - exists []. unfold accepted, taken in *. rewrite !omap_app, Hrx. simpl. by rewrite !app_nil_r.
  - exists []. unfold accepted, taken in *. rewrite !omap_app, Hrx. simpl. by rewrite app_nil_r, <- app_assoc.
Qed.

Lemma inv_actor tr q l q' :
  qinv tr q -> run_actor_step rx_depth cfg q = Some (l, q') -> qinv (tr ++ [l]) q'.
Proof.
  intros Hi. unfold run_actor_step. destruct (q_actor q) as [n|n i req| |evt|] eqn:Ha; [..|done].
  all: assert (Hal : ~ gone q) by (unfold gone; by rewrite Ha).
  - assert (Hrx : qinv (tr ++ [LSilent]) (set_actor ActRx q)).
    { apply (inv_actor_moves tr q); try done; unfold outstanding; rewrite ?Ha; try done; try apply Hi.
      eapply rx_fifo_same; [apply Hi|done..| |done]. by rewrite Ha. }
    destruct (_ <? _); [|by intros [= <- <-]].
    destruct (q_tx_req q) as [|[i req] rest] eqn:Hq; intros [= <- <-]; [done|].
    apply (inv_actor_moves tr q); try done; try apply Hi.
    + unfold outstanding. by rewrite Ha, Hq.
    + simpl. rewrite Hq. simpl. lia.
    + eapply rx_fifo_same; [apply Hi|done..| |done]. by rewrite Ha.
  - destruct (node_send _ _ _ _ _) as [r node].
    destruct r as [u|e|]; intros [= <- <-]; [by apply inv_serve..|].
    apply inv_stop; [done..|]. right. by exists n, i, req.
  - destruct (node_recv_one _ _ _ _ _) as [[r node] delivered].
    destruct (after_recv cfg r delivered) as [[l' a]|] eqn:Hr; intros [= <- <-].
    + by eapply inv_after_recv.
    + apply inv_stop; [done..|by left].
  - destruct (Nat.ltb_spec (length (q_rx_evt q)) (rx_capacity rx_depth)) as [Hlt|]; intros [= <- <-].
    apply (inv_actor_moves tr q); try done; try apply Hi.
    + unfold outstanding. by rewrite Ha.
    + exists []. pose proof (rx_fifo_alive _ _ (inv_rx _ _ Hi) Hal) as Hrx. rewrite Ha in Hrx.
      unfold accepted, taken in *. rewrite !omap_app, Hrx. simpl. by rewrite !app_nil_r.
    + simpl. rewrite length_app. simpl. lia.
Qed.

Lemma inv_call_steps tr q i t l q' :
  qinv tr q -> q_tasks q !! i = Some t -> call_step tx_depth i t q = Some (l, q') -> qinv (tr ++ [l]) q'.
Proof.
  intros Hi Ht. pose proof (inv_tasks _ _ Hi _ _ Ht) as Hok.
  destruct t as [req|req [|r|]|req r|c|c| |]; simpl; try done.
  - destruct (is_gone (q_actor q)) eqn:Hg.
    + intros [= <- <-]. eapply (inv_call_silent tr q); try done. right; right.
      split_and!; [unfold gone; by destruct (q_actor q)|done|]. intros req' res Hs. destruct Hok as [_ Hn].
      destruct (Hn req'). destruct (inv_tx _ _ Hi) as (lost & -> & _). apply elem_of_app. left.
      apply served_elem. by exists res.
    + destruct (Nat.ltb_spec (length (q_tx_req q)) (tx_capacity tx_depth)); intros [= <- <-].
      apply inv_enqueue; try done. unfold gone. intros Hg'. by rewrite Hg' in Hg.
  - intros [= <- <-]. eapply (inv_call_silent tr q); try done. right; left. done.
  - intros [= <- <-]. eapply (inv_call_silent tr q); try done. right; right. destruct Hok. done.
  - destruct (q_rx_lock q); intros [= <- <-]. by eapply (inv_call_silent tr q).
  - destruct (q_rx_evt q) as [|evt rest] eqn:Hq.
    + destruct (is_gone _); intros [= <- <-]. by eapply (inv_call_silent tr q).
    + intros [= <- <-]. eapply (inv_call tr q); try done.
      * destruct (inv_rx _ _ Hi) as (lost & He & Hl). exists lost. split; [|done].
        unfold accepted, taken in *. rewrite !omap_app, He, Hq. simpl. by rewrite app_nil_r, <- app_assoc.
      * pose proof (inv_rx_len _ _ Hi) as Hrl. rewrite Hq in Hrl. simpl in *. lia.
Qed.

Lemma inv_spawns tr q t :
  qinv tr q -> (forall tr' q', (forall req, (length (q_tasks q), req) ∉ enqueued tr') ->
    qtask_ok tr' q' (length (q_tasks q)) t) ->
  qinv (tr ++ [LSilent]) (set_tasks (q_tasks q ++ [t]) q).
Proof.
  intros Hi Hok. apply (inv_quiet tr q); try done; try apply Hi.
  - simpl. rewrite length_app. lia.
  - eapply rx_fifo_same; [apply Hi|done..].
  - intros i t'. simpl. rewrite lookup_app. destruct (q_tasks q !! i) as [t0|] eqn:Hi0; [by left|].
    intros [Hz <-]%list_lookup_singleton_Some. right. apply lookup_ge_None in Hi0.
    assert (i = length (q_tasks q)) as -> by lia. apply Hok. intros req Hin.
    rewrite enqueued_snoc, app_nil_r in Hin. apply (inv_started _ _ Hi) in Hin. lia.
Qed.

Lemma inv_qstep tr q l q' : qinv tr q -> step q l q' -> qinv (tr ++ [l]) q'.
Proof.
  intros Hi Hs. destruct Hs as [q l q' Hs|q i t l q' Ht Hs|q i c Ht|q i t q' Ht Hs|q Hal|q to fn p tmo|q c].
  - by eapply inv_actor.
  - by eapply inv_call_steps.
  - by eapply (inv_call_silent tr q).
  - destruct t; simplify_eq/=; by eapply (inv_call_silent tr q).
  - apply (inv_stop tr q LSilent (q_node q)); [done..|by left].
  - apply inv_spawns; [done|]. intros tr' q' Hn. unfold spawn_send.
    destruct (Nat.ltb_spec max_payload (length p)); simpl; [by left|split; [simpl; lia|done]].
  - by apply inv_spawns.
Qed.

Lemma inv_qreach node tr q : reach node tr q -> qinv tr q.
Proof.
  induction 1 as [|tr q l q' _ IH Hs]; [|by eapply inv_qstep].
  split; simpl; try done; [by exists []|constructor|intros i req Hin; by apply elem_of_nil in Hin|lia|by exists []|lia].
Qed.

(** * The theorems *)

(** C16. A finished send reports the outcome of the node's send of its own
    request, and of no other: either the payload was too large and nothing was
    queued, or the result is what the node answered to this request, or the
    actor is gone and the node completed no send for this call.  This holds
    however calls interleave, are dropped, and whenever the actor ends. *)
Theorem tokio_send_own_result node tr q i req r :
  reach node tr q -> q_tasks q !! i = Some (SendDone req r) -> own_result tr q i req r.
Proof. intros Hr Ht. exact (inv_tasks _ _ (inv_qreach _ _ _ Hr) _ _ Ht). Qed.

(** C27. Both directions are first-in first-out and bounded: the node serves the
    queued requests in order, each at most once, and the receivers take the
    events the node delivered in order, each once; only requests and one event
    held when the actor ends are lost. *)
Theorem tokio_queue_fifo node tr q :
  reach node tr q ->
  NoDup (enqueued tr).*1 /\
  (exists lost, enqueued tr = served tr ++ outstanding q ++ lost /\ (~ gone q -> lost = [])) /\
  (exists lost, accepted tr = taken tr ++ q_rx_evt q ++ evt_in_hand (q_actor q) ++ lost /\
     (~ gone q -> lost = [])) /\
  length (q_tx_req q) <= tx_depth `max` 1 /\ length (q_rx_evt q) <= rx_depth `max` 1.
Proof. intros [Htx Hids _ Hl _ Hrx Hrl _]%inv_qreach. done. Qed.

(** The actor alone for some steps. *)
Fixpoint actor_run (k : nat) q : option (list (label E) * Queue Node E S) :=
  match k with
  | O => Some ([], q)
  | Datatypes.S k' =>
      match run_actor_step rx_depth cfg q with
      | Some (l, q1) =>
          match actor_run k' q1 with Some (ls, q2) => Some (l :: ls, q2) | None => None end
      | None => None
      end
  end.

Lemma actor_run_inv k tr q ls q' : qinv tr q -> actor_run k q = Some (ls, q') -> qinv (tr ++ ls) q'.
Proof.
  revert tr q ls q'. induction k as [|k IH]; intros tr q ls q' Hi; simpl.
  { intros [= <- <-]. by rewrite app_nil_r. }
  destruct (run_actor_step rx_depth cfg q) as [[l q1]|] eqn:Hs; [|done].
  destruct (actor_run k q1) as [[ls' q2]|] eqn:Hr; [|done]. intros [= <- <-].
  change (l :: ls') with ([l] ++ ls'). rewrite app_assoc. eapply IH; [|done]. by eapply inv_actor.
Qed.

(** The node does not panic in a send. *)
Definition sends_safely : Prop :=
  forall functional to payload timeout (n : Node), (node_send functional to payload timeout n).1 <> Panic.

(** Two steps of the actor serve the first request of the queue. *)
Lemma actor_serves_one q m i req rest :
  sends_safely -> q_actor q = ActTx m -> m < normalized_tx_burst_limit cfg ->
  q_tx_req q = (i, req) :: rest ->
  exists q' res, actor_run 2 q = Some ([LSilent; LServe i req res], q') /\ q_actor q' = ActTx (m + 1) /\
    q_tx_req q' = rest /\
    forall j req' o, q_tasks q !! j = Some (SendAwait req' o) ->
      exists o', q_tasks q' !! j = Some (SendAwait req' o').
Proof.
  intros Hsafe Ha Hm Hq. cbn [actor_run]. unfold run_actor_step at 1. rewrite Ha, Hq.
  rewrite (proj2 (Nat.ltb_lt _ _) Hm). unfold run_actor_step. cbn [q_actor set_actor].
  pose proof (Hsafe (req_functional_to req) (req_to req) (req_payload req) (req_timeout req) (q_node q)) as Hn.
  cbn [q_node set_actor set_tx_req]. destruct (node_send _ _ _ _ _) as [r node'].
  assert (Htasks : forall v j req' o, q_tasks q !! j = Some (SendAwait req' o) ->
    exists o', complete v i (q_tasks q) !! j = Some (SendAwait req' o')).
  { intros v j req' o Hj. unfold complete. rewrite list_lookup_alter.
    destruct (decide (i = j)) as [->|]; [|by exists o]. rewrite Hj. simpl. destruct o; eauto. }
  destruct r as [u|e|]; [..|done]; (eexists _, _; split; [reflexivity|]; split_and!; simpl; try done; eauto).
Qed.

Lemma actor_run_app k1 k2 q ls1 q1 ls2 q2 :
  actor_run k1 q = Some (ls1, q1) -> actor_run k2 q1 = Some (ls2, q2) ->
  actor_run (k1 + k2) q = Some (ls1 ++ ls2, q2).
Proof.
  revert q ls1. induction k1 as [|k1 IH]; intros q ls1; simpl; [by intros [= <- <-]|].
  destruct (run_actor_step rx_depth cfg q) as [[l q']|]; [|done].
  destruct (actor_run k1 q') as [[ls' q'']|] eqn:Hr; [|done]. intros [= <- <-] H2.
  by rewrite (IH _ _ Hr H2).
Qed.

Lemma actor_burst pre q m rest :
  sends_safely -> q_actor q = ActTx m -> m + length pre <= normalized_tx_burst_limit cfg ->
  q_tx_req q = pre ++ rest ->
  exists ls q', actor_run (2 * length pre) q = Some (ls, q') /\ served ls = pre /\
    q_actor q' = ActTx (m + length pre) /\ q_tx_req q' = rest /\
    forall j req o, q_tasks q !! j = Some (SendAwait req o) ->
      exists o', q_tasks q' !! j = Some (SendAwait req o').
Proof.
  intros Hsafe. revert q m. induction pre as [|[i req] pre IH]; intros q m Ha Hm Hq; simpl in Hm.
  { exists [], q. rewrite Nat.add_0_r. split_and!; eauto. }
  destruct (actor_serves_one q m i req (pre ++ rest) Hsafe Ha ltac:(lia) Hq)
    as (q1 & res & Hr1 & Ha1 & Hq1 & Ht1).
  destruct (IH q1 (m + 1) Ha1 ltac:(lia) Hq1) as (ls & q2 & Hr2 & Hs2 & Ha2 & Hq2 & Ht2).
  exists ([LSilent; LServe i req res] ++ ls), q2. split_and!.
  - replace (2 * length ((i, req) :: pre)) with (2 + 2 * length pre) by (simpl; lia). by eapply actor_run_app.
  - simpl. by rewrite Hs2.
  - rewrite Ha2. simpl. f_equal. lia.
  - done.
  - intros j req' o Hj. destruct (Ht1 _ _ _ Hj) as [o' Ho']. by apply (Ht2 _ _ _ Ho').
Qed.

(** A request that is queued within the burst limit is served by the
    actor's next sends, after the requests before it, and the waiting call
    finds the node's answer. *)
Theorem tokio_burst_serves node tr q m pre i req rest :
  reach node tr q -> sends_safely -> q_actor q = ActTx m -> q_tx_req q = pre ++ (i, req) :: rest ->
  m + length pre < normalized_tx_burst_limit cfg -> q_tasks q !! i = Some (SendAwait req OneshotOpen) ->
  exists ls q' res, actor_run (2 * (length pre + 1)) q = Some (ls, q') /\
    served ls = pre ++ [(i, req)] /\ LServe i req res ∈ ls /\
    q_tasks q' !! i = Some (SendAwait req (OneshotSent (map_outcome res))).
Proof.
  intros Hr Hsafe Ha Hq Hm Ht. pose proof (inv_qreach _ _ _ Hr) as Hi.
  destruct (actor_burst (pre ++ [(i, req)]) q m rest Hsafe Ha) as (ls & q' & Hrun & Hs & Ha' & Hq' & Hts).
  { rewrite length_app. simpl. lia. }
  { by rewrite Hq, <- app_assoc. }
  rewrite length_app in Hrun. simpl in Hrun. destruct (Hts _ _ _ Ht) as [o Ho].
  pose proof (actor_run_inv _ _ _ _ _ Hi Hrun) as Hi'. pose proof (inv_tasks _ _ Hi' _ _ Ho) as Hok.
  assert (Hin : (i, req) ∈ served (tr ++ ls)).
  { unfold served in *. rewrite omap_app, Hs, !elem_of_app, list_elem_of_singleton. auto. }
  assert (Hnot : forall res, LServe i req res ∉ tr).
  { intros res Hx. apply (outstanding_unserved _ _ i req req Hi); [|apply served_elem; by exists res].
    unfold outstanding. rewrite Ha, Hq. rewrite !elem_of_app, elem_of_cons. auto. }
  destruct o as [|r|].
  - by destruct (outstanding_unserved _ _ _ _ req Hi' Hok).
  - destruct Hok as (res & Hx & _ & ->). exists ls, q', res. split_and!; [exact Hrun|done| |done].
    apply elem_of_app in Hx as [Hx|Hx]; [by destruct (Hnot res)|done].
  - destruct Hok as [Hg _]. unfold gone in Hg. congruence.
Qed.
End invariant.

(** * A concrete run *)

Global Instance ListNode_recv_one : IsoTpRecvOne ListNode unit := {
  node_recv_one S _ on_payload n s :=
    match inbox n with
    | [] => (Ok StatusTimedOut, n, s)
    | (from, p) :: rest =>
        let n' := {| sent := sent n; inbox := rest |} in
        match on_payload from p s with
        | (Ok _, s') => (Ok StatusDeliveredOne, n', s')
        | (Err e, s') => (Err (RecvBackend e), n', s')
        | (Panic, s') => (Panic, n', s')
        end
    end;
}.

Abbreviation DemoQueue := (list (label unit) * Queue ListNode unit unit)%type.
Abbreviation demo_reach := (qreach (Node := ListNode) (E := unit) (S := unit) 4 2 2 ActorConfig_default demo_node).

(** Moves of a run, each keeping the state when it cannot be made. *)
Definition do_actor (s : DemoQueue) : DemoQueue :=
  match run_actor_step 2 ActorConfig_default s.2 with Some (l, q) => (s.1 ++ [l], q) | None => s end.
Definition do_call (i : nat) (s : DemoQueue) : DemoQueue :=
  match q_tasks s.2 !! i with
  | Some t => match call_step 2 i t s.2 with Some (l, q) => (s.1 ++ [l], q) | None => s end
  | None => s
  end.
Definition do_send (to : u8) (payload : bytes) (s : DemoQueue) : DemoQueue :=
  (s.1 ++ [LSilent], set_tasks (q_tasks s.2 ++ [spawn_send 4 to false payload 1000]) s.2).
Definition do_recv (s : DemoQueue) : DemoQueue :=
  (s.1 ++ [LSilent], set_tasks (q_tasks s.2 ++ [RecvMutex (Into (replicate 4 0%Z))]) s.2).

Lemma do_actor_reach s : demo_reach s.1 s.2 -> demo_reach (do_actor s).1 (do_actor s).2.
Proof.
  intros Hr. unfold do_actor. destruct (run_actor_step _ _ _) as [[l q]|] eqn:Hs; [|done].
  eapply qreach_step; [done|]. by apply q_actor_steps.
Qed.
Lemma do_call_reach i s : demo_reach s.1 s.2 -> demo_reach (do_call i s).1 (do_call i s).2.
Proof.
  intros Hr. unfold do_call. destruct (q_tasks s.2 !! i) as [t|] eqn:Ht; [|done].
  destruct (call_step _ _ _ _) as [[l q]|] eqn:Hs; [|done]. eapply qreach_step; [done|]. by eapply q_call_steps.
Qed.
Lemma do_send_reach to p s : demo_reach s.1 s.2 -> demo_reach (do_send to p s).1 (do_send to p s).2.
Proof. intros Hr. eapply qreach_step; [done|]. by apply q_sends. Qed.
Lemma do_recv_reach s : demo_reach s.1 s.2 -> demo_reach (do_recv s).1 (do_recv s).2.
Proof. intros Hr. eapply qreach_step; [done|]. by apply q_receives. Qed.

(** Two sends are queued while a receiver waits; the actor serves both, polls
    the node and passes what it received on. *)
Definition two_queued : DemoQueue :=
  do_call 1 (do_call 0 (do_send 34 [3]%Z (do_send 33 [1; 2]%Z ([], make_endpoints demo_node)))).
Definition one_answered : DemoQueue := do_call 0 (do_actor (do_actor two_queued)).
Definition all_done : DemoQueue :=
  do_call 2 (do_call 2 (do_call 1 (do_actor (do_actor (do_actor (do_actor (do_actor (do_recv one_answered)))))))).

Lemma two_queued_reach : demo_reach two_queued.1 two_queued.2.
Proof. do 2 apply do_call_reach. do 2 apply do_send_reach. apply qreach_init. Qed.
Lemma one_answered_reach : demo_reach one_answered.1 one_answered.2.
Proof. apply do_call_reach. do 2 apply do_actor_reach. apply two_queued_reach. Qed.
Lemma all_done_reach : demo_reach all_done.1 all_done.2.
Proof. do 3 apply do_call_reach. do 5 apply do_actor_reach. apply do_recv_reach, one_answered_reach. Qed.

Example all_done_run :
  q_tasks all_done.2 !! 2 = Some (RecvDone (IntoDone (Ok (DeliveredOne 17 3)) [0; 1; 9; 0]%Z)) /\
  sent (q_node all_done.2) = [(33, [1; 2]); (34, [3])]%Z.
Proof. split; vm_compute; reflexivity. Qed.

Definition demo_req : IsoTpTxRequest :=
  {| req_to := 33; req_functional_to := false; req_timeout := 1000; req_payload := [1; 2]%Z |}.
Definition demo_req' : IsoTpTxRequest :=
  {| req_to := 34; req_functional_to := false; req_timeout := 1000; req_payload := [3]%Z |}.

Lemma tokio_send_own_result_witness : own_result 4 one_answered.1 one_answered.2 0 demo_req (Ok tt).
Proof.
  apply (tokio_send_own_result 4 2 2 ActorConfig_default demo_node); [exact one_answered_reach|].
  vm_compute. reflexivity.
Defined.

Lemma tokio_queue_fifo_witness :
  exists lost, accepted all_done.1 = taken all_done.1 ++ q_rx_evt all_done.2 ++
    evt_in_hand (q_actor all_done.2) ++ lost.
Proof.
  destruct (tokio_queue_fifo 4 2 2 ActorConfig_default demo_node all_done.1 all_done.2 all_done_reach)
    as (_ & _ & (lost & He & _) & _). exists lost. exact He.
Defined.

Lemma tokio_burst_serves_witness :
  exists ls q' res, actor_run 2 ActorConfig_default 4 two_queued.2 = Some (ls, q') /\
    served ls = [(0, demo_req); (1, demo_req')] /\ LServe 1 demo_req' res ∈ ls /\
    q_tasks q' !! 1 = Some (SendAwait demo_req' (OneshotSent (map_outcome res))).
Proof.
  apply (tokio_burst_serves 4 2 2 ActorConfig_default demo_node two_queued.1 two_queued.2 0
    [(0, demo_req)] 1 demo_req' []).
  - exact two_queued_reach.
  - intros [] to p t n; discriminate.
  - vm_compute. reflexivity.
  - vm_compute. reflexivity.
  - vm_compute. lia.
  - vm_compute. reflexivity.
Defined.
