(* ===== verification/QueueTokioHooks.v ===== *)
(** * The hooks of the tokio actor

    [run_actor] of [iso-tp/can-isotp-queue/src/tokio.rs] with its hooks: every
    call of a hook where the code makes it, and the clock [send_rx_event] reads
    to tell how long an event waited for room in its channel.  [QueueTokio]
    models the same actor without hooks.

    Proved: the hooks only observe.  The runs with hooks are, queue by queue and
    label by label, the runs without; and whatever the hooks keep is the result
    of a list of calls that tells exactly what the actor did. *)
From S2P Require Import Prelude Wire Interface QueueCommon QueueTokio.

(** [BACKPRESSURE_LOG_THRESHOLD], a millisecond. *)
Definition BACKPRESSURE_LOG_THRESHOLD : Duration := 1000000%Z.

Section hooked.
Context {Node E S Hk : Type} `{IsoTpEndpoint Node E} `{IsoTpRecvOne Node E} `{ActorHooks Hk E}.
Context (max_payload tx_depth rx_depth : nat) (cfg : ActorConfig).
Abbreviation Q := (Queue Node E S).

(** The queue, the hooks, the last reading of the clock and the [started] of
    [send_rx_event]. *)
Record Hooked := {
  h_queue : Q;
  h_hooks : Hk;
  h_now : Duration;
  h_started : Duration;
}.

(** How long a send waited for room, where a step ends a wait. *)
Abbreviation wait := (option (QueueKind * Duration)).

(** The end of [send_rx_event]: the event is in the channel. *)
Definition send_rx_event_sent (started now : Duration) (h : Hk) : wait * Hk :=
  let blocked_for := (now - started)%Z in
  (Some (RxEvt, blocked_for),
   if (BACKPRESSURE_LOG_THRESHOLD <=? blocked_for)%Z then on_queue_backpressure RxEvt blocked_for h else h).

(** The hook calls of the [match] on the outcome of the node's [recv_one]. *)
Definition recv_hooks (r : result RecvStatus (RecvError E)) (delivered : option (u8 * bytes)) (h : Hk) : Hk :=
  match r with
  | Ok StatusTimedOut => h
  | Ok StatusDeliveredOne =>
      match delivered with
      | Some (from_meta, payload) => delivery_hook cfg from_meta (length payload) h
      | None => h
      end
  | Err (RecvBufferTooSmall needed got) => on_rx_buffer_too_small needed got h
  | Err (RecvBackend err) => on_rx_backend_error err h
  | Panic => h
  end.

(** A step of the actor at the time [now]. *)
Definition run_actor_hooked (now : Duration) (s : Hooked) : option (label E * wait * Hooked) :=
  let q := h_queue s in
  let h := h_hooks s in
  let next l q' h' := Some (l, None, {| h_queue := q'; h_hooks := h'; h_now := now; h_started := h_started s |}) in
  match q_actor q with
  | ActTx n =>
      if n <? normalized_tx_burst_limit cfg then
        match q_tx_req q with
        | (i, req) :: rest =>
            next LSilent (set_actor (ActSending (n + 1) i req) (set_tx_req rest q))
              (on_tx_request (req_to req) (req_functional_to req) (length (req_payload req)) (req_timeout req) h)
        | [] => next LSilent (set_actor ActRx q) h
        end
      else next LSilent (set_actor ActRx q) h
  | ActSending n i req =>
      let '(r, node) := node_send (req_functional_to req) (req_to req) (req_payload req)
                          (req_timeout req) (q_node q) in
      match r with
      | Panic => next (LServe i req r) (stop_actor (set_node node q)) h
      | _ =>
          let mapped := map_outcome r in
          next (LServe i req r)
            (set_actor (ActTx n) (set_tasks (complete (OneshotSent mapped) i (q_tasks q)) (set_node node q)))
            (on_tx_result mapped h)
      end
  | ActRx =>
      let '(r, node, delivered) :=
        node_recv_one (option (u8 * bytes)) (recv_poll_timeout cfg) keep_delivered (q_node q) None in
      let h' := recv_hooks r delivered h in
      match after_recv cfg r delivered with
      | Some (l, a) =>
          Some (l, None, {| h_queue := set_actor a (set_node node q); h_hooks := h'; h_now := now; h_started := now |})
      | None => next LSilent (stop_actor (set_node node q)) h'
      end
  | ActEvt evt =>
      if length (q_rx_evt q) <? rx_capacity rx_depth then
        let '(w, h') := send_rx_event_sent (h_started s) now h in
        Some (LSilent, w,
              {| h_queue := set_actor (ActTx 0) (set_rx_evt (q_rx_evt q ++ [evt]) q); h_hooks := h';
                 h_now := now; h_started := h_started s |})
      else None
  | ActGone => None
  end.

(** What is not a step of the actor: polls, timeouts and drops of calls, new
    calls, and an abort of the actor's task. *)
Inductive cstep : Q -> label E -> Q -> Prop :=
| c_call_steps q i t l q' : q_tasks q !! i = Some t -> call_step tx_depth i t q = Some (l, q') -> cstep q l q'
| c_times_out q i c :
    q_tasks q !! i = Some (RecvHeld c) ->
    cstep q LSilent (set_task i (RecvDone (timed_out c)) (set_rx_lock None q))
| c_drops q i t q' : q_tasks q !! i = Some t -> call_drop i t q = Some q' -> cstep q LSilent q'
| c_aborts q : q_actor q <> ActGone -> cstep q LSilent (stop_actor q)
| c_sends q to functional_to payload timeout :
    cstep q LSilent (set_tasks (q_tasks q ++ [spawn_send max_payload to functional_to payload timeout]) q)
| c_receives q c : cstep q LSilent (set_tasks (q_tasks q ++ [RecvMutex c]) q).

Definition with_queue (q : Q) (s : Hooked) : Hooked :=
  {| h_queue := q; h_hooks := h_hooks s; h_now := h_now s; h_started := h_started s |}.

Inductive hstep : Hooked -> label E * wait -> Hooked -> Prop :=
| h_actor_steps now s l w s' : (h_now s <= now)%Z -> run_actor_hooked now s = Some (l, w, s') -> hstep s (l, w) s'
| h_client_steps s l q' : cstep (h_queue s) l q' -> hstep s (l, None) (with_queue q' s).

(** [run_actor] calls [on_actor_started] before its loop. *)
Definition hooked_init (node : Node) (h : Hk) : Hooked :=
  {| h_queue := make_endpoints node; h_hooks := on_actor_started h; h_now := 0; h_started := 0 |}.

Inductive hreach (node : Node) (h : Hk) : list (label E * wait) -> Hooked -> Prop :=
| hreach_init : hreach node h [] (hooked_init node h)
| hreach_step tr s l s' : hreach node h tr s -> hstep s l s' -> hreach node h (tr ++ [l]) s'.

(** * The hooks only observe *)

Abbreviation step := (qstep (Node := Node) (E := E) (S := S) max_payload tx_depth rx_depth cfg).
Abbreviation reach := (qreach (Node := Node) (E := E) (S := S) max_payload tx_depth rx_depth cfg).

Lemma qstep_split q l q' : step q l q' <-> run_actor_step rx_depth cfg q = Some (l, q') \/ cstep q l q'.
Proof.
  split.
  - intros Hs. inversion Hs; subst; [by left|right..]; by econstructor.
  - intros [Ha|Hc]; [by apply q_actor_steps|]. inversion Hc; subst; by econstructor.
Qed.

(** Without its hooks a step is a step of [QueueTokio]. *)
Lemma hooked_erase now s : option_map (fun '(l, _, s') => (l, h_queue s')) (run_actor_hooked now s) =
  run_actor_step rx_depth cfg (h_queue s).
Proof.
  unfold run_actor_hooked, run_actor_step. destruct (q_actor (h_queue s)) as [n|n i req| |evt|].
  - destruct (_ <? _); [|done]. by destruct (q_tx_req _) as [|[]].
  - destruct (node_send _ _ _ _ _) as [[] ?]; done.
  - destruct (node_recv_one _ _ _ _ _) as [[r node] d]. by destruct (after_recv cfg r d) as [[]|].
  - by destruct (_ <? _).
  - done.
Qed.

Lemma hreach_erase node h tr s : hreach node h tr s -> reach node tr.*1 (h_queue s).
Proof.
  induction 1 as [|tr s [l w] s' _ IH Hs]; [constructor|].
  rewrite fmap_app. simpl. eapply qreach_step; [exact IH|]. apply qstep_split.
  inversion Hs as [now ???? _ Hr|]; subst; [left|by right].
  by rewrite <- (hooked_erase now), Hr.
Qed.

Lemma reach_hooked node h tr q : reach node tr q ->
  exists htr s, hreach node h htr s /\ htr.*1 = tr /\ h_queue s = q.
Proof.
  induction 1 as [|tr q l q' _ (htr & s & Hr & <- & <-) Hs]; [by eexists [], _; split; [constructor|]|].
  apply qstep_split in Hs as [Ha|Hc].
  - rewrite <- (hooked_erase (h_now s)) in Ha.
    destruct (run_actor_hooked (h_now s) s) as [[[l' w] s']|] eqn:Hh; simplify_eq/=.
    exists (htr ++ [(l, w)]), s'. rewrite fmap_app. split; [|done].
    eapply hreach_step; [done|]. by eapply h_actor_steps.
  - exists (htr ++ [(l, None)]), (with_queue q' s). rewrite fmap_app. split; [|done].
    eapply hreach_step; [done|]. by constructor.
Qed.

(** * What the hooks are told *)

Definition request_info (p : nat * IsoTpTxRequest) : u8 * bool * nat * Duration :=
  let req := p.2 in (req_to req, req_functional_to req, length (req_payload req), req_timeout req).
Definition event_report (evt : IsoTpRxEvent (E := E)) : HookCall E :=
  match evt with
  | EvtDelivered from payload => OnRxDelivered from (length payload)
  | EvtBufferTooSmall needed got => OnRxBufferTooSmall needed got
  | EvtBackend err => OnRxBackendError err
  end.
(** The answers the node gave, as the callers get them. *)
Definition answers (tr : list (label E)) : list (SendResult E) :=
  omap (fun l => match l with LServe _ _ Panic => None | LServe _ _ r => Some (map_outcome r) | _ => None end) tr.
Definition long_wait (w : wait) : option (QueueKind * Duration) :=
  match w with Some (k, d) => if (BACKPRESSURE_LOG_THRESHOLD <=? d)%Z then Some (k, d) else None | None => None end.

(** The calls [cs] report the run [tr] that ends in [s]; only the end of the
    actor loses a request it was told of. *)
Definition reports (tr : list (label E * wait)) (s : Hooked) (cs : list (HookCall E)) : Prop :=
  exists lost,
    told cfg ((request_info <$> served tr.*1 ++ in_hand (q_actor (h_queue s))) ++ lost) (answers tr.*1)
      (event_report <$> accepted tr.*1) (omap long_wait tr.*2) cs /\
    (~ gone (h_queue s) -> lost = []).

(** A step of the actor with the label [l] makes the calls [new]. *)
Definition step_reports (l : label E) (w : wait) (q q' : Q) (new : list (HookCall E)) : Prop :=
  exists requests lost,
    told cfg requests (answers [l]) (event_report <$> accepted [l]) (omap long_wait [w]) new /\
    (request_info <$> in_hand (q_actor q)) ++ requests =
      (request_info <$> served [l] ++ in_hand (q_actor q')) ++ lost /\
    (~ gone q' -> lost = []).

Lemma answers_snoc (tr : list (label E)) l : answers (tr ++ [l]) = answers tr ++ answers [l].
Proof. apply omap_app. Qed.
Lemma accepted_snoc (tr : list (label E)) l : accepted (tr ++ [l]) = accepted tr ++ accepted [l].
Proof. apply omap_app. Qed.
Lemma waits_snoc (ws : list wait) w : omap long_wait (ws ++ [w]) = omap long_wait ws ++ omap long_wait [w].
Proof. exact (omap_app long_wait ws [w]). Qed.

Lemma reports_step tr s cs l w s' new :
  reports tr s cs -> ~ gone (h_queue s) -> step_reports l w (h_queue s) (h_queue s') new ->
  reports (tr ++ [(l, w)]) s' (cs ++ new).
Proof.
  intros (lost & Ht & Hl) Hg (requests & lost' & Hn & Hr & Hl'). rewrite (Hl Hg), app_nil_r in Ht.
  exists lost'. split; [|done]. pose proof (told_app _ _ _ _ _ _ _ _ _ _ _ Ht Hn) as Hall.
  rewrite !(fmap_app _ tr). simpl. rewrite served_snoc, answers_snoc, accepted_snoc, waits_snoc.
  rewrite !fmap_app, <- !app_assoc in Hall. rewrite Hr, !fmap_app, <- !app_assoc in Hall.
  by rewrite !fmap_app, <- !app_assoc.
Qed.

(** The calls after a receive of the node. *)
Lemma recv_hooks_calls r delivered (h : Hk) l a q q' :
  after_recv cfg r delivered = Some (l, a) -> q_actor q = ActRx -> q_actor q' = a ->
  exists new, recv_hooks r delivered h = call_hooks h new /\ step_reports l None q q' new.
Proof.
  intros Ha Hq Ha'. unfold after_recv, recv_hooks, step_reports in *.
  assert (Hq' : in_hand (q_actor q') = []) by (rewrite Ha'; clear Ha'; repeat case_match; by simplify_eq).
  rewrite Hq, Hq'. clear Ha'. destruct r as [[|]|[needed got|err]|]; simplify_eq/=.
  - exists []. split; [done|]. exists [], []. split; [apply told_nil|done].
  - destruct delivered as [[from payload]|]; simplify_eq/=.
    + rewrite delivery_hook_call. exists [delivery_call cfg from (length payload)]. split; [done|].
      exists [], []. split; [|by destruct (reply_source cfg from); simplify_eq].
      pose proof (delivery_told (E := E) cfg from (length payload)) as Hd.
      by destruct (reply_source cfg from); simplify_eq.
    + exists []. split; [done|]. exists [], []. split; [apply told_nil|done].
  - exists [OnRxBufferTooSmall needed got]. split; [done|]. exists [], []. split; [by apply told_one|done].
  - exists [OnRxBackendError err]. split; [done|]. exists [], []. split; [by apply told_one|done].
Qed.

(** A step of the actor makes the calls that report it. *)
Lemma hooked_calls now s l w s' : run_actor_hooked now s = Some (l, w, s') ->
  ~ gone (h_queue s) /\
  exists new, h_hooks s' = call_hooks (h_hooks s) new /\ step_reports l w (h_queue s) (h_queue s') new.
Proof.
  unfold run_actor_hooked, gone. destruct (q_actor (h_queue s)) as [n|n i req| |evt|] eqn:Hq; intros Hr; [..|done];
    (split; [done|]).
  - destruct (_ <? _); [destruct (q_tx_req _) as [|[i req] rest]|]; simplify_eq/=; unfold step_reports; rewrite Hq.
    2: { eexists [OnTxRequest _ _ _ _]. split; [done|]. exists [request_info (i, req)], []. split; [by apply told_one|done]. }
    all: exists []; split; [done|]; exists [], []; split; [apply told_nil|done].
  - destruct (node_send _ _ _ _ _) as [[x|e|] node]; simplify_eq/=; unfold step_reports; rewrite Hq.
    3: { exists []. split; [done|]. exists [], []. split; [apply told_nil|done]. }
    all: eexists [OnTxResult _]; split; [done|]; exists [], []; split; [by apply told_one|done].
  - destruct (node_recv_one _ _ _ _ _) as [[r node] d] eqn:Hn.
    destruct (after_recv cfg r d) as [[l' a]|] eqn:Ha; simplify_eq/=; [by eapply recv_hooks_calls|].
    exists []. unfold after_recv in Ha. destruct r as [[|]|[]|]; simplify_eq/=; [by repeat case_match|].
    split; [done|]. unfold step_reports. rewrite Hq. exists [], []. split; [apply told_nil|done].
  - destruct (_ <? _); simplify_eq/=. unfold step_reports. rewrite Hq.
    destruct (BACKPRESSURE_LOG_THRESHOLD <=? _)%Z eqn:Hb.
    + eexists [OnQueueBackpressure _ _]. split; [done|]. exists [], []. simpl. rewrite Hb.
      split; [by apply told_one|done].
    + exists []. split; [done|]. exists [], []. simpl. rewrite Hb. split; [apply told_nil|done].
Qed.

(** Steps of the calls leave the request the actor works on, or end the actor. *)
Lemma cstep_actor q l q' : cstep q l q' ->
  served [l] = [] /\ answers [l] = [] /\ accepted [l] = [] /\ (q_actor q' = q_actor q \/ gone q').
Proof.
  destruct 1 as [q i t l q' _ Hs|q i c _|q i t q' _ Hs|q _|q to f p t|q c]; try (split_and!; by auto).
  - destruct t as [| ? []| | | | |]; simpl in Hs; repeat case_match; simplify_eq/=; split_and!; by auto.
  - destruct t; simpl in Hs; simplify_eq/=; split_and!; by auto.
  - split_and!; [done..|by right].
Qed.

Lemma reports_client tr s cs l q' : reports tr s cs -> cstep (h_queue s) l q' ->
  reports (tr ++ [(l, None)]) (with_queue q' s) cs.
Proof.
  intros (lost & Ht & Hl) (Hsv & Ha & Hac & Hq)%cstep_actor. unfold reports. rewrite !(fmap_app _ tr). simpl.
  rewrite served_snoc, answers_snoc, accepted_snoc, waits_snoc, Hsv, Ha, Hac. simpl. rewrite !app_nil_r.
  destruct Hq as [Hq|Hg].
  - exists lost. unfold gone in *. by rewrite Hq.
  - exists ((request_info <$> in_hand (q_actor (h_queue s))) ++ lost). rewrite Hg. simpl.
    rewrite fmap_app, <- app_assoc in Ht. by rewrite app_nil_r.
Qed.

Lemma hreach_reports node h tr s : hreach node h tr s ->
  exists cs, h_hooks s = call_hooks h (OnActorStarted :: cs) /\ reports tr s cs.
Proof.
  induction 1 as [|tr s [l w] s' _ (cs & Hh & Hr) Hs].
  - exists []. split; [done|]. exists []. split; [apply told_nil|done].
  - inversion Hs as [now ???? _ Hrun|]; subst.
    + apply hooked_calls in Hrun as (Hg & new & Hn & Hsr). exists (cs ++ new). split; [|by eapply reports_step].
      rewrite Hn, Hh. unfold call_hooks. by rewrite <- foldl_app.
    + exists cs. split; [done|by apply reports_client].
Qed.

(** The hooks of the tokio actor observe it and nothing more: for any
    implementation of [ActorHooks], the runs with hooks are, in queue states and
    labels, the runs without.  What the hooks keep is the result of
    [on_actor_started], once and first, and a list of calls that reports the run:
    one [on_tx_request] for each request taken, in order and as the node is then
    given it; one [on_tx_result] for each answer of the node, which is the one its
    caller gets; one report for each event accepted; [on_rx_filtered_source] only
    for a source the configuration filters; and [on_queue_backpressure] exactly
    for the events that waited a millisecond or longer for the channel. *)
Theorem tokio_hooks_observe (node : Node) (h : Hk) :
  (forall tr s, hreach node h tr s ->
     reach node tr.*1 (h_queue s) /\
     exists cs, h_hooks s = call_hooks h (OnActorStarted :: cs) /\ reports tr s cs) /\
  (forall tr q, reach node tr q ->
     exists htr s, hreach node h htr s /\ htr.*1 = tr /\ h_queue s = q).
Proof.
  split; [|by intros; apply reach_hooked]. intros tr s Hr. split; [by eapply hreach_erase|by eapply hreach_reports].
Qed.
End hooked.

(** * A concrete run *)

(** Steps of the actor at these times. *)
Fixpoint actor_at (times : list Duration) (s : Hooked (Node := ListNode) (E := unit) (S := unit) (Hk := HookLog unit)) :=
  match times with
  | [] => Some s
  | now :: times' => '(_, _, s') ← run_actor_hooked 2 ActorConfig_default now s; actor_at times' s'
  end.

(** A queued send is served, a payload received; its event waits two
    milliseconds before the actor gets to put it into the channel. *)
Definition started : Hooked (Node := ListNode) (E := unit) (S := unit) (Hk := HookLog unit) :=
  with_queue (do_call 0 (do_send 33 [1; 2]%Z ([], make_endpoints demo_node))).2
    (hooked_init demo_node {| hook_log := [] |}).
Example hook_log_run :
  hook_log ∘ h_hooks <$> actor_at [10; 20; 30; 1000; 2001000]%Z started =
    Some [OnActorStarted; OnTxRequest 33 false 2 1000; OnTxResult (Ok tt); OnRxDelivered 17 3;
          OnQueueBackpressure RxEvt 2000000]%Z.
Proof. vm_compute. reflexivity. Qed.
