(* ===== verification/QueueEmbassy.v ===== *)
(** * The embassy queue in front of an ISO-TP endpoint

    Models [iso-tp/can-isotp-queue/src/embassy.rs]: static channels for
    requests, responses and received events, a lock that lets one send at a
    time wait for its response, the actor and any number of calls, interleaved
    where they await.  Requests and responses carry no identity, so a response
    belongs to a request only by the order in which they pass; the theorems
    say when that is enough, and that it is not once a send is dropped while it
    waits for its response. *)
From S2P Require Import Prelude Wire Interface QueueCommon.

Section system.
Context {Node E S : Type} `{IsoTpEndpoint Node E} `{IsoTpRecvInto Node E}.
Context (MAX_PAYLOAD TX_REQ_DEPTH TX_RESP_DEPTH RX_EVT_DEPTH : nat) (cfg : ActorConfig).
Abbreviation QError := (QueueIsoTpError E).

Record IsoTpTxRequest := {
  to : u8;
  is_functional : bool;
  timeout_of : Duration;
  len : nat;
  payload : bytes;
}.

Inductive IsoTpTxResponse := RspOk | RspTimeout | RspBackend (e : E).

Inductive IsoTpRxEvent :=
| EvtDelivered (from : u8) (len : nat) (payload : bytes)
| EvtBufferTooSmall (needed got : nat)
| EvtBackend (e : E).

Definition map_tx_response (resp : IsoTpTxResponse) : SendResult E :=
  match resp with
  | RspOk => Ok tt
  | RspTimeout => Err SendTimeout
  | RspBackend e => Err (SendBackend (Transport e))
  end.

Inductive control := ControlContinue | ControlStop.
Inductive consumer :=
| Into (out : bytes)
| Callback (on_payload : u8 -> bytes -> S -> result control QError * S) (s : S).
Inductive outcome :=
| IntoDone (r : result RecvMetaIntoStatus (RecvError QError)) (out : bytes)
| CallbackDone (r : result bool (RecvError QError)) (s : S).

(** [recv_one_into] once it has an event. *)
Definition consume_into (out : bytes) (evt : IsoTpRxEvent) :
    result RecvMetaIntoStatus (RecvError QError) * bytes :=
  match evt with
  | EvtDelivered from len payload =>
      if length out <? len then (Err (RecvBufferTooSmall len (length out)), out)
      else match slice payload 0 len with
           | Some p => match copy_at out 0 p with
                       | Some out' => (Ok (DeliveredOne from len), out')
                       | None => (Panic, out)
                       end
           | None => (Panic, out)
           end
  | EvtBufferTooSmall needed got => (Err (RecvBufferTooSmall needed got), out)
  | EvtBackend e => (Err (RecvBackend (Transport e)), out)
  end.

(** [recv_one]: receive into a buffer of its own and call back; [true] is
    [DeliveredOne]. *)
Definition consume_callback (on_payload : u8 -> bytes -> S -> result control QError * S) (s : S)
    (evt : IsoTpRxEvent) : result bool (RecvError QError) * S :=
  match consume_into (replicate MAX_PAYLOAD 0%Z) evt with
  | (Ok RecvTimedOut, _) => (Ok false, s)
  | (Ok (DeliveredOne from len), tmp) =>
      match slice tmp 0 len with
      | Some p => match on_payload from p s with
                  | (Ok _, s') => (Ok true, s')
                  | (Err e, s') => (Err (RecvBackend e), s')
                  | (Panic, s') => (Panic, s')
                  end
      | None => (Panic, s)
      end
  | (Err e, _) => (Err e, s)
  | (Panic, _) => (Panic, s)
  end.

Definition consume (c : consumer) (evt : IsoTpRxEvent) : outcome :=
  match c with
  | Into out => let '(r, out') := consume_into out evt in IntoDone r out'
  | Callback f s => let '(r, s') := consume_callback f s evt in CallbackDone r s'
  end.
Definition timed_out (c : consumer) : outcome :=
  match c with Into out => IntoDone (Ok RecvTimedOut) out | Callback f s => CallbackDone (Ok false) s end.

Inductive qtask :=
| SendLock (req : IsoTpTxRequest)    (* awaits [tx_rpc_lock.lock()] *)
| SendReq (req : IsoTpTxRequest)     (* holds the lock, awaits [tx_req.send(req)] *)
| SendResp (req : IsoTpTxRequest)    (* holds the lock, awaits [tx_resp.receive()] *)
| SendDone (req : IsoTpTxRequest) (r : SendResult E)
| SendRefused (r : SendResult E)     (* the payload does not fit *)
| Receiving (c : consumer)           (* awaits [rx_evt.receive()] in a timeout *)
| RecvDone (o : outcome)
| TaskDropped.

(** Where the actor stands; [n] is [tx_processed]. *)
Inductive actor :=
| ActTx (n : nat)
| ActSending (n i : nat) (req : IsoTpTxRequest)
| ActResp (n : nat) (rsp : IsoTpTxResponse)
| ActRx
| ActEvt (evt : IsoTpRxEvent)
| ActPanicked.

(** [QueueResources], the node, the actor and the calls.  A request in the
    channel goes with the index of its call, which only the labels look at. *)
Record Queue := {
  q_node : Node;
  q_rx_buf : bytes;
  q_actor : actor;
  q_tx_req : list (nat * IsoTpTxRequest);
  q_tx_resp : list IsoTpTxResponse;
  q_rx_evt : list IsoTpRxEvent;
  q_tx_rpc_lock : option nat;
  q_tasks : list qtask;
}.

(** What happened: the node sent (and what it answered), an event was accepted
    or taken, a send that waited for its response was dropped. *)
Inductive label :=
| LSilent
| LServe (i : nat) (req : IsoTpTxRequest) (r : result unit (SendError E))
| LAccept (evt : IsoTpRxEvent)
| LTake (evt : IsoTpRxEvent)
| LAbandon (i : nat).

Definition queue_new (node : Node) : Queue :=
  {| q_node := node; q_rx_buf := replicate MAX_PAYLOAD 0%Z; q_actor := ActTx 0; q_tx_req := [];
     q_tx_resp := []; q_rx_evt := []; q_tx_rpc_lock := None; q_tasks := [] |}.

Definition set_node n b q : Queue :=
  {| q_node := n; q_rx_buf := b; q_actor := q_actor q; q_tx_req := q_tx_req q; q_tx_resp := q_tx_resp q;
     q_rx_evt := q_rx_evt q; q_tx_rpc_lock := q_tx_rpc_lock q; q_tasks := q_tasks q |}.
Definition set_actor a q : Queue :=
  {| q_node := q_node q; q_rx_buf := q_rx_buf q; q_actor := a; q_tx_req := q_tx_req q;
     q_tx_resp := q_tx_resp q; q_rx_evt := q_rx_evt q; q_tx_rpc_lock := q_tx_rpc_lock q; q_tasks := q_tasks q |}.
Definition set_tx_req l q : Queue :=
  {| q_node := q_node q; q_rx_buf := q_rx_buf q; q_actor := q_actor q; q_tx_req := l;
     q_tx_resp := q_tx_resp q; q_rx_evt := q_rx_evt q; q_tx_rpc_lock := q_tx_rpc_lock q; q_tasks := q_tasks q |}.
Definition set_tx_resp l q : Queue :=
  {| q_node := q_node q; q_rx_buf := q_rx_buf q; q_actor := q_actor q; q_tx_req := q_tx_req q;
     q_tx_resp := l; q_rx_evt := q_rx_evt q; q_tx_rpc_lock := q_tx_rpc_lock q; q_tasks := q_tasks q |}.
Definition set_rx_evt l q : Queue :=
  {| q_node := q_node q; q_rx_buf := q_rx_buf q; q_actor := q_actor q; q_tx_req := q_tx_req q;
     q_tx_resp := q_tx_resp q; q_rx_evt := l; q_tx_rpc_lock := q_tx_rpc_lock q; q_tasks := q_tasks q |}.
Definition set_lock l q : Queue :=
  {| q_node := q_node q; q_rx_buf := q_rx_buf q; q_actor := q_actor q; q_tx_req := q_tx_req q;
     q_tx_resp := q_tx_resp q; q_rx_evt := q_rx_evt q; q_tx_rpc_lock := l; q_tasks := q_tasks q |}.
Definition set_tasks l q : Queue :=
  {| q_node := q_node q; q_rx_buf := q_rx_buf q; q_actor := q_actor q; q_tx_req := q_tx_req q;
     q_tx_resp := q_tx_resp q; q_rx_evt := q_rx_evt q; q_tx_rpc_lock := q_tx_rpc_lock q; q_tasks := l |}.
Definition set_task i t q : Queue := set_tasks (<[i := t]> (q_tasks q)) q.

(** ** The actor *)

(** The response to a mapped outcome; the two [unreachable!] arms panic. *)
Definition response_of (mapped : SendResult E) : option IsoTpTxResponse :=
  match mapped with
  | Ok _ => Some RspOk
  | Err SendTimeout => Some RspTimeout
  | Err (SendBackend (Transport e)) => Some (RspBackend e)
  | Err (SendBackend (PayloadTooLarge _ _)) => None
  | Err (SendBackend ChannelClosed) => None
  | Panic => None
  end.

Definition after_recv (rx_buf : bytes) (r : result RecvMetaIntoStatus (RecvError E)) : label * actor :=
  match r with
  | Ok RecvTimedOut => (LSilent, ActTx 0)
  | Ok (DeliveredOne reply_to len) =>
      match reply_source cfg reply_to with
      | Some from =>
          match slice rx_buf 0 len with
          | Some p =>
              match copy_at (replicate MAX_PAYLOAD 0%Z) 0 p with
              | Some payload => (LAccept (EvtDelivered from len payload), ActEvt (EvtDelivered from len payload))
              | None => (LSilent, ActPanicked)
              end
          | None => (LSilent, ActPanicked)
          end
      | None => (LSilent, ActTx 0)
      end
  | Err (RecvBufferTooSmall needed got) =>
      (LAccept (EvtBufferTooSmall needed got), ActEvt (EvtBufferTooSmall needed got))
  | Err (RecvBackend err) => (LAccept (EvtBackend err), ActEvt (EvtBackend err))
  | Panic => (LSilent, ActPanicked)
  end.

Definition run_actor_step (q : Queue) : option (label * Queue) :=
  match q_actor q with
  | ActTx n =>
      if n <? normalized_tx_burst_limit cfg then
        match q_tx_req q with
        | (i, req) :: rest => Some (LSilent, set_actor (ActSending (n + 1) i req) (set_tx_req rest q))
        | [] => Some (LSilent, set_actor ActRx q)
        end
      else Some (LSilent, set_actor ActRx q)
  | ActSending n i req =>
      match slice (payload req) 0 (len req) with
      | Some p =>
          let '(r, node) := node_send (is_functional req) (to req) p (timeout_of req) (q_node q) in
          Some (LServe i req r,
                set_actor (match response_of (map_outcome r) with Some rsp => ActResp n rsp | None => ActPanicked end)
                  (set_node node (q_rx_buf q) q))
      | None => Some (LSilent, set_actor ActPanicked q)
      end
  | ActResp n rsp =>
      if length (q_tx_resp q) <? TX_RESP_DEPTH
      then Some (LSilent, set_actor (ActTx n) (set_tx_resp (q_tx_resp q ++ [rsp]) q))
      else None
  | ActRx =>
      let '(r, node, rx_buf) := node_recv_one_into (recv_poll_timeout cfg) (q_rx_buf q) (q_node q) in
      let '(l, a) := after_recv rx_buf r in
      Some (l, set_actor a (set_node node rx_buf q))
  | ActEvt evt =>
      if length (q_rx_evt q) <? RX_EVT_DEPTH
      then Some (LSilent, set_actor (ActTx 0) (set_rx_evt (q_rx_evt q ++ [evt]) q))
      else None
  | ActPanicked => None
  end.

(** ** The calls *)

(** [send_to] and [send_functional_to] up to their first await; [None] is a
    panic of the copy. *)
Definition spawn_send (to : u8) (is_functional : bool) (data : bytes) (timeout : Duration) : option qtask :=
  if MAX_PAYLOAD <? length data
  then Some (SendRefused (Err (SendBackend (PayloadTooLarge (length data) MAX_PAYLOAD))))
  else match copy_at (replicate MAX_PAYLOAD 0%Z) 0 data with
       | Some req_payload =>
           Some (SendLock {| to := to; is_functional := is_functional; timeout_of := timeout;
                             len := length data; payload := req_payload |})
       | None => None
       end.

(** One poll of call [i] that makes progress; taking the lock also drains the
    response channel. *)
Definition call_step (i : nat) (t : qtask) (q : Queue) : option (label * Queue) :=
  match t with
  | SendLock req =>
      match q_tx_rpc_lock q with
      | None => Some (LSilent, set_task i (SendReq req) (set_tx_resp [] (set_lock (Some i) q)))
      | Some _ => None
      end
  | SendReq req =>
      if length (q_tx_req q) <? TX_REQ_DEPTH
      then Some (LSilent, set_task i (SendResp req) (set_tx_req (q_tx_req q ++ [(i, req)]) q))
      else None
  | SendResp req =>
      match q_tx_resp q with
      | rsp :: rest =>
          Some (LSilent, set_task i (SendDone req (map_tx_response rsp)) (set_lock None (set_tx_resp rest q)))
      | [] => None
      end
  | Receiving c =>
      match q_rx_evt q with
      | evt :: rest => Some (LTake evt, set_task i (RecvDone (consume c evt)) (set_rx_evt rest q))
      | [] => None
      end
  | SendDone _ _ | SendRefused _ | RecvDone _ | TaskDropped => None
  end.

(** Dropping a call at an await; the guard releases the lock. *)
Definition call_drop (i : nat) (t : qtask) (q : Queue) : option (label * Queue) :=
  match t with
  | SendLock _ | Receiving _ => Some (LSilent, set_task i TaskDropped q)
  | SendReq _ => Some (LSilent, set_task i TaskDropped (set_lock None q))
  | SendResp _ => Some (LAbandon i, set_task i TaskDropped (set_lock None q))
  | SendDone _ _ | SendRefused _ | RecvDone _ | TaskDropped => None
  end.

Inductive qstep : Queue -> label -> Queue -> Prop :=
| e_actor_steps q l q' : run_actor_step q = Some (l, q') -> qstep q l q'
| e_call_steps q i t l q' : q_tasks q !! i = Some t -> call_step i t q = Some (l, q') -> qstep q l q'
| e_times_out q i c :
    q_tasks q !! i = Some (Receiving c) -> qstep q LSilent (set_task i (RecvDone (timed_out c)) q)
| e_drops q i t l q' : q_tasks q !! i = Some t -> call_drop i t q = Some (l, q') -> qstep q l q'
| e_sends q to is_functional data timeout t :
    spawn_send to is_functional data timeout = Some t -> qstep q LSilent (set_tasks (q_tasks q ++ [t]) q)
| e_receives q c : qstep q LSilent (set_tasks (q_tasks q ++ [Receiving c]) q).

Inductive qreach (node : Node) : list label -> Queue -> Prop :=
| ereach_init : qreach node [] (queue_new node)
| ereach_step tr q l q' : qreach node tr q -> qstep q l q' -> qreach node (tr ++ [l]) q'.
End system.
Arguments Queue Node E S : clear implicits.
Arguments label E : clear implicits.
Arguments qtask E S : clear implicits.

(** * What holds whatever is dropped *)

Section invariant.
Context {Node E S : Type} `{IsoTpEndpoint Node E} `{HL : IsoTpRecvIntoLaws Node E}.
Context (MAX_PAYLOAD TX_REQ_DEPTH TX_RESP_DEPTH RX_EVT_DEPTH : nat) (cfg : ActorConfig).
Implicit Types (q : Queue Node E S) (tr : list (label E)) (t : qtask E S) (req : IsoTpTxRequest).
Abbreviation step := (qstep (Node := Node) (E := E) (S := S) MAX_PAYLOAD TX_REQ_DEPTH TX_RESP_DEPTH RX_EVT_DEPTH cfg).
Abbreviation reach := (qreach (Node := Node) (E := E) (S := S) MAX_PAYLOAD TX_REQ_DEPTH TX_RESP_DEPTH RX_EVT_DEPTH cfg).

Definition accepted tr : list (IsoTpRxEvent (E := E)) :=
  omap (fun l => match l with LAccept evt => Some evt | _ => None end) tr.
Definition taken tr : list (IsoTpRxEvent (E := E)) :=
  omap (fun l => match l with LTake evt => Some evt | _ => None end) tr.
Definition evt_in_hand q : list IsoTpRxEvent := match q_actor q with ActEvt evt => [evt] | _ => [] end.

Definition in_hand q : list (nat * IsoTpTxRequest) :=
  match q_actor q with ActSending _ i req => [(i, req)] | _ => [] end.
Definition outstanding q : list (nat * IsoTpTxRequest) := in_hand q ++ q_tx_req q.

(** A request as [send_to] builds it; a delivered event as the actor does. *)
Definition req_wf req : Prop := len req <= MAX_PAYLOAD /\ length (payload req) = MAX_PAYLOAD.
Definition evt_wf (evt : IsoTpRxEvent (E := E)) : Prop :=
  match evt with
  | EvtDelivered _ len payload => len <= MAX_PAYLOAD /\ length payload = MAX_PAYLOAD
  | _ => True
  end.

(** A call holds a well-formed request; a receiver did not panic by itself. *)
Definition task_wf t : Prop :=
  match t with
  | SendLock req | SendReq req | SendResp req => req_wf req
  | RecvDone (IntoDone r _) => r <> Panic
  | _ => True
  end.

(** The node does not panic in a send. *)
Definition sends_safely : Prop :=
  forall functional to payload timeout (n : Node), (node_send functional to payload timeout n).1 <> Panic.

Record ginv tr q : Prop := {
  g_rx : accepted tr = taken tr ++ q_rx_evt q ++ evt_in_hand q;
  g_rx_len : length (q_rx_evt q) <= RX_EVT_DEPTH;
  g_tx_len : length (q_tx_req q) <= TX_REQ_DEPTH;
  g_resp_len : length (q_tx_resp q) <= TX_RESP_DEPTH;
  g_buf : length (q_rx_buf q) = MAX_PAYLOAD;
  g_reqs : Forall (fun p => req_wf p.2) (outstanding q);
  g_evts : Forall evt_wf (q_rx_evt q ++ evt_in_hand q);
  g_tasks : Forall task_wf (q_tasks q);
  g_actor : q_actor q <> ActPanicked;
}.

Lemma consume_into_no_panic out (evt : IsoTpRxEvent (E := E)) :
  evt_wf evt -> (consume_into out evt).1 <> Panic.
Proof.
  destruct evt as [from n p| |]; simpl; [|done..]. intros [Hn Hp].
  destruct (Nat.ltb_spec (length out) n); [done|]. rewrite slice_to_Some by lia.
  by rewrite copy_at_Some by (rewrite length_take; lia).
Qed.

Lemma response_of_outcome (r : result unit (SendError E)) :
  r <> Panic -> is_Some (response_of (map_outcome r)).
Proof. destruct r as [|[|]|]; simpl; try done; intros _; by eexists. Qed.

Lemma after_recv_wf rx_buf (r : result RecvMetaIntoStatus (RecvError E)) l a :
  length rx_buf = MAX_PAYLOAD -> r <> Panic ->
  (forall reply_to len, r = Ok (DeliveredOne reply_to len) -> len <= length rx_buf) ->
  after_recv MAX_PAYLOAD cfg rx_buf r = (l, a) ->
  (l = LSilent /\ a = ActTx 0) \/ exists evt, l = LAccept evt /\ a = ActEvt evt /\ evt_wf evt.
Proof.
  intros Hb Hp Hlen. unfold after_recv. destruct r as [[|reply_to n]|[]|]; try done.
  - intros [= <- <-]. by left.
  - specialize (Hlen reply_to n eq_refl). destruct (reply_source cfg reply_to) as [from|].
    + rewrite slice_to_Some by lia. destruct (copy_at _ 0 _) as [p|] eqn:Hc.
      * intros [= <- <-]. right. eexists. split_and!; [done|done|]. simpl. split; [lia|].
        apply copy_at_length in Hc. by rewrite Hc, length_replicate.
      * rewrite copy_at_Some in Hc by (rewrite length_take, length_replicate; lia). done.
    + intros [= <- <-]. by left.
  - intros [= <- <-]. right. by eexists.
  - intros [= <- <-]. right. by eexists.
Qed.

(** A step that leaves the receive side alone. *)
Lemma ginv_tx tr q l q' :
  ginv tr q -> accepted [l] = [] -> taken [l] = [] -> q_rx_evt q' = q_rx_evt q ->
  evt_in_hand q' = evt_in_hand q -> q_rx_buf q' = q_rx_buf q ->
  length (q_tx_req q') <= TX_REQ_DEPTH -> length (q_tx_resp q') <= TX_RESP_DEPTH ->
  Forall (fun p => req_wf p.2) (outstanding q') -> Forall task_wf (q_tasks q') ->
  q_actor q' <> ActPanicked -> ginv (tr ++ [l]) q'.
Proof.
  intros [] Ha Ht Hr He Hb. split; rewrite ?Hr, ?He, ?Hb; try done.
  unfold accepted, taken in *. by rewrite !omap_app, Ha, Ht, !app_nil_r.
Qed.

(** A call that moves on and leaves the transmit channels alone. *)
Lemma ginv_call tr q q' i t' :
  ginv tr q -> q_actor q' = q_actor q -> q_tx_req q' = q_tx_req q -> q_rx_evt q' = q_rx_evt q ->
  q_rx_buf q' = q_rx_buf q -> length (q_tx_resp q') <= length (q_tx_resp q) ->
  q_tasks q' = <[i := t']> (q_tasks q) -> task_wf t' -> forall l, accepted [l] = [] -> taken [l] = [] ->
  ginv (tr ++ [l]) q'.
Proof.
  intros Hg Ha Hq Hr Hb Hl Ht Hw l Hla Hlt. destruct (Hg) as [].
  apply (ginv_tx tr q); try done; unfold evt_in_hand, outstanding, in_hand; rewrite ?Ha, ?Hq; try done; [lia|].
  rewrite Ht. by apply Forall_insert.
Qed.

Lemma ginv_actor tr q l q' :
  sends_safely -> ginv tr q ->
  run_actor_step MAX_PAYLOAD TX_RESP_DEPTH RX_EVT_DEPTH cfg q = Some (l, q') -> ginv (tr ++ [l]) q'.
Proof.
  intros Hsafe Hg. destruct (Hg) as [Hrx Hrl Htl Hpl Hb Hreq Hev Htk Hact]. unfold run_actor_step.
  unfold outstanding, in_hand, evt_in_hand in *.
  destruct (q_actor q) as [n|n i req|n rsp| |evt|] eqn:Ha; [..|done].
  - assert (Hidle : ginv (tr ++ [LSilent]) (set_actor ActRx q)).
    { apply (ginv_tx tr q); try done. unfold evt_in_hand. by rewrite Ha. }
    destruct (_ <? _); [|by intros [= <- <-]].
    destruct (q_tx_req q) as [|[i req] rest] eqn:Hq; intros [= <- <-]; [done|].
    apply (ginv_tx tr q); try done; [unfold evt_in_hand; by rewrite Ha|simpl in *; lia].
  - inversion Hreq as [|? ? [Hlen Hpay] Hrest]; subst. simpl in *.
    rewrite slice_to_Some by lia. set (p := take _ _).
    pose proof (Hsafe (is_functional req) (to req) p (timeout_of req) (q_node q)) as Hn.
    destruct (node_send _ _ _ _ _) as [r node]. destruct (response_of_outcome r Hn) as [rsp ->].
    intros [= <- <-]. apply (ginv_tx tr q); try done. unfold evt_in_hand. by rewrite Ha.
  - destruct (Nat.ltb_spec (length (q_tx_resp q)) TX_RESP_DEPTH); intros [= <- <-].
    apply (ginv_tx tr q); try done; [unfold evt_in_hand; by rewrite Ha|simpl; rewrite length_app; simpl; lia].
  - pose proof (recv_into_length (recv_poll_timeout cfg) (q_rx_buf q) (q_node q)) as Hl1.
    pose proof (recv_into_len (recv_poll_timeout cfg) (q_rx_buf q) (q_node q)) as Hl2.
    pose proof (recv_into_no_panic (recv_poll_timeout cfg) (q_rx_buf q) (q_node q)) as Hl3.
    destruct (node_recv_one_into _ _ _) as [[r node] rx_buf]. simpl in *.
    destruct (after_recv MAX_PAYLOAD cfg rx_buf r) as [l' a] eqn:Hr. intros [= <- <-].
    assert (Hbuf : length rx_buf = MAX_PAYLOAD) by congruence.
    apply after_recv_wf in Hr; [|done|done|intros ? ? ->; rewrite Hl1; by eapply Hl2].
    rewrite app_nil_r in Hrx, Hev. destruct Hr as [[-> ->]|(evt & -> & -> & Hwf)].
    + split; simpl; try done; unfold evt_in_hand; simpl; rewrite ?app_nil_r; try done.
      unfold accepted, taken in *. rewrite !omap_app, Hrx. simpl. by rewrite !app_nil_r.
    + split; simpl; try done; unfold evt_in_hand; simpl.
      * unfold accepted, taken in *. rewrite !omap_app, Hrx. simpl. by rewrite app_nil_r, <- app_assoc.
      * apply Forall_app. by split; [|apply Forall_singleton].
  - destruct (Nat.ltb_spec (length (q_rx_evt q)) RX_EVT_DEPTH); intros [= <- <-].
    split; simpl; try done; unfold evt_in_hand; simpl.
    + unfold accepted, taken in *. rewrite !omap_app, Hrx. simpl. by rewrite !app_nil_r.
    + rewrite length_app. simpl. lia.
    + by rewrite app_nil_r.
Qed.

Lemma ginv_step tr q l q' : sends_safely -> ginv tr q -> step q l q' -> ginv (tr ++ [l]) q'.
Proof.
  intros Hsafe Hg Hs. destruct (Hg) as [Hrx Hrl Htl Hpl Hb Hreq Hev Htk Hact].
  destruct Hs as [q l q' Hs|q i t l q' Ht Hs|q i c Ht|q i t l q' Ht Hs|q to fn p tmo t Hs|q c].
  - by eapply ginv_actor.
  - assert (Hw : task_wf t) by (by eapply Forall_lookup_1).
    destruct t as [req|req|req|req r|r|c|o|]; simpl in Hs; try done.
    + destruct (q_tx_rpc_lock q); simplify_eq. eapply (ginv_call tr q); try done. simpl. lia.
    + destruct (Nat.ltb_spec (length (q_tx_req q)) TX_REQ_DEPTH); simplify_eq.
      apply (ginv_tx tr q); try done; simpl.
      * rewrite length_app. simpl. lia.
      * unfold outstanding in *. simpl. rewrite app_assoc. apply Forall_app. by split; [|apply Forall_singleton].
      * by apply Forall_insert.
    + destruct (q_tx_resp q) as [|rsp rest] eqn:Hq; simplify_eq. eapply (ginv_call tr q); try done.
      simpl. rewrite Hq. simpl. lia.
    + destruct (q_rx_evt q) as [|evt rest] eqn:Hq; simplify_eq. inversion Hev as [|? ? He Hrest]; subst.
      split; simpl; try done.
      * unfold accepted, taken in *. rewrite !omap_app, Hrx. simpl. by rewrite app_nil_r, <- app_assoc.
      * simpl in Hrl. lia.
      * apply Forall_insert; [done|]. destruct c as [out|f s]; simpl.
        -- pose proof (consume_into_no_panic out evt He) as Hn. by destruct (consume_into out evt).
        -- by destruct (consume_callback _ _ _ _).
  - eapply (ginv_call tr q); try done. by destruct c.
  - destruct t; simplify_eq/=; by eapply (ginv_call tr q).
  - apply (ginv_tx tr q); try done; simpl. apply Forall_app. split; [done|]. apply Forall_singleton.
    unfold spawn_send in Hs. destruct (Nat.ltb_spec MAX_PAYLOAD (length p)); simplify_eq/=; [done|].
    destruct (copy_at _ 0 p) as [b|] eqn:Hc; simplify_eq/=. split; [simpl; lia|]. simpl.
    apply copy_at_length in Hc. by rewrite Hc, length_replicate.
  - apply (ginv_tx tr q); try done; simpl. apply Forall_app. split; [done|]. by apply Forall_singleton.
Qed.

Lemma ginv_reach node tr q : sends_safely -> reach node tr q -> ginv tr q.
Proof.
  intros Hsafe. induction 1 as [|tr q l q' _ IH Hs]; [|by eapply ginv_step].
  split; simpl; try done; try lia; try apply length_replicate; constructor.
Qed.

(** C28. With a node that keeps its contract, the actor never panics (no slice
    out of range, no [unreachable!]) and no [recv_one_into] does, whatever
    calls are dropped; events are delivered in order and exactly once, and no
    channel exceeds its depth. *)
Theorem embassy_actor_safe node tr q :
  sends_safely -> reach node tr q ->
  q_actor q <> ActPanicked /\ Forall task_wf (q_tasks q) /\
  accepted tr = taken tr ++ q_rx_evt q ++ evt_in_hand q /\
  length (q_tx_req q) <= TX_REQ_DEPTH /\ length (q_tx_resp q) <= TX_RESP_DEPTH /\
  length (q_rx_evt q) <= RX_EVT_DEPTH.
Proof. intros Hsafe [Hrx Hrl Htl Hpl Hb Hreq Hev Htk Hact]%ginv_reach; done. Qed.

(** * As long as no waiting send is dropped *)

Definition rsp_in_hand q : list IsoTpTxResponse := match q_actor q with ActResp _ rsp => [rsp] | _ => [] end.
Definition responses q : list IsoTpTxResponse := q_tx_resp q ++ rsp_in_hand q.
Definition answered tr (i : nat) req (r : SendResult E) : Prop :=
  exists res, LServe i req res ∈ tr /\ res <> Panic /\ r = map_outcome res.

(** Nothing is under way, or exactly the request of call [i] or its response. *)
Definition idle q : Prop := outstanding q = [] /\ responses q = [].
Definition busy tr q (i : nat) req : Prop :=
  (outstanding q = [(i, req)] /\ responses q = []) \/
  (outstanding q = [] /\ exists rsp, responses q = [rsp] /\ answered tr i req (map_tx_response rsp)) \/
  (outstanding q = [] /\ responses q = [] /\ q_actor q = ActPanicked).

Definition phase tr q : Prop :=
  match q_tx_rpc_lock q with
  | None => idle q
  | Some i => exists req, (q_tasks q !! i = Some (SendReq req) /\ idle q) \/
                          (q_tasks q !! i = Some (SendResp req) /\ busy tr q i req)
  end.

Definition etask_ok tr q (i : nat) t : Prop :=
  match t with
  | SendReq _ | SendResp _ => q_tx_rpc_lock q = Some i
  | SendDone req r => answered tr i req r
  | _ => True
  end.

Definition einv tr q : Prop := phase tr q /\ forall i t, q_tasks q !! i = Some t -> etask_ok tr q i t.

Lemma answered_app tr l i req r : answered tr i req r -> answered (tr ++ [l]) i req r.
Proof. intros (res & Hin & Hr). exists res. rewrite elem_of_app. auto. Qed.

Lemma response_back (res : result unit (SendError E)) rsp :
  response_of (map_outcome res) = Some rsp -> map_tx_response rsp = map_outcome res.
Proof. destruct res as [[]|[]|]; simpl; by intros [= <-]. Qed.

(** A step that leaves the requests, the responses, the lock and the other
    sends alone. *)
Lemma einv_same tr q l q' :
  einv tr q -> outstanding q' = outstanding q -> responses q' = responses q ->
  q_tx_rpc_lock q' = q_tx_rpc_lock q -> (q_actor q = ActPanicked -> q_actor q' = ActPanicked) ->
  (forall i, q_tx_rpc_lock q = Some i -> q_tasks q' !! i = q_tasks q !! i) ->
  (forall i t, q_tasks q' !! i = Some t -> q_tasks q !! i = Some t \/ etask_ok (tr ++ [l]) q' i t) ->
  einv (tr ++ [l]) q'.
Proof.
  intros [Hp Ht] Ho Hr Hl Ha Hk Hts. unfold einv, phase, idle, busy in *. rewrite Hl, Ho, Hr.
  destruct (q_tx_rpc_lock q) as [i|] eqn:Hlock.
  - split.
    + destruct Hp as (req & Hcase). exists req. rewrite (Hk i eq_refl). destruct Hcase as [?|[? Hb]]; [by left|].
      right. split; [done|]. destruct Hb as [?|[(? & rsp & ? & ?)|(? & ? & ?)]]; [by left| |right; right; auto].
      right; left. split; [done|]. exists rsp. split; [done|]. by apply answered_app.
    + intros j t [Hold|]%Hts; [|done]. specialize (Ht j t Hold).
      destruct t; simpl in *; try done; try congruence. by apply answered_app.
  - split; [done|]. intros j t [Hold|]%Hts; [|done]. specialize (Ht j t Hold).
    destruct t; simpl in *; try done; try congruence. by apply answered_app.
Qed.

(** The holder of the lock moves on to [t'], and what is under way with it. *)
Lemma einv_holder tr q l q' i t' :
  einv tr q -> i < length (q_tasks q) -> (q_tx_rpc_lock q = None \/ q_tx_rpc_lock q = Some i) ->
  q_tasks q' = <[i := t']> (q_tasks q) -> (q_tx_rpc_lock q' = None \/ q_tx_rpc_lock q' = Some i) ->
  phase (tr ++ [l]) q' -> etask_ok (tr ++ [l]) q' i t' -> einv (tr ++ [l]) q'.
Proof.
  intros [_ Ht] Hlt Hl Hts Hl' Hp Hok. split; [done|]. intros j t. rewrite Hts.
  destruct (decide (i = j)) as [<-|Hne].
  - rewrite list_lookup_insert_eq by done. by intros [= <-].
  - rewrite list_lookup_insert_ne by done. intros Hj. specialize (Ht j t Hj).
    destruct t; simpl in *; try done; [destruct Hl; congruence..|by apply answered_app].
Qed.

(** The request in hand was answered, or the actor panicked with it. *)
Lemma einv_served tr q l q' n i req :
  einv tr q -> q_actor q = ActSending n i req -> q_tasks q' = q_tasks q ->
  q_tx_rpc_lock q' = q_tx_rpc_lock q -> q_tx_req q' = q_tx_req q -> q_tx_resp q' = q_tx_resp q ->
  (q_actor q' = ActPanicked \/
   exists rsp, q_actor q' = ActResp n rsp /\ answered (tr ++ [l]) i req (map_tx_response rsp)) ->
  einv (tr ++ [l]) q'.
Proof.
  intros [Hp Ht] Ha Hts Hl Hq Hr Hcase.
  assert (Hout : outstanding q = (i, req) :: q_tx_req q) by (unfold outstanding, in_hand; by rewrite Ha).
  assert (Hrsp : responses q = q_tx_resp q) by (unfold responses, rsp_in_hand; rewrite Ha; apply app_nil_r).
  unfold phase in Hp. destruct (q_tx_rpc_lock q) as [j|] eqn:Hlock; [|destruct Hp; congruence].
  destruct Hp as (req' & [[_ [Hx _]]|[Hj Hb]]); [congruence|].
  destruct Hb as [[Ho He]|[[Ho _]|[Ho _]]]; [|congruence..]. rewrite Hout in Ho.
  injection Ho as <- <- Hnil. rewrite Hrsp in He. split.
  - unfold phase. rewrite Hl. exists req. right. rewrite Hts. split; [done|]. right.
    unfold outstanding, responses, in_hand, rsp_in_hand.
    destruct Hcase as [->|(rsp & -> & Hans)]; rewrite Hq, Hr, Hnil, He; simpl.
    + by right.
    + left. split; [done|]. by exists rsp.
  - intros k t. rewrite Hts. intros Hk. specialize (Ht k t Hk).
    destruct t; simpl in *; try done; try congruence. by apply answered_app.
Qed.

Lemma einv_actor tr q l q' :
  einv tr q -> run_actor_step MAX_PAYLOAD TX_RESP_DEPTH RX_EVT_DEPTH cfg q = Some (l, q') ->
  einv (tr ++ [l]) q'.
Proof.
  intros Hi. unfold run_actor_step. destruct (q_actor q) as [n|n i req|n rsp| |evt|] eqn:Ha; [..|done].
  - assert (Hidle : einv (tr ++ [LSilent]) (set_actor ActRx q)).
    { apply (einv_same tr q); try done; unfold outstanding, responses, in_hand, rsp_in_hand; rewrite ?Ha; try done.
      by left. }
    destruct (_ <? _); [|by intros [= <- <-]].
    destruct (q_tx_req q) as [|[i req] rest] eqn:Hq; intros [= <- <-]; [done|].
    apply (einv_same tr q); try done; unfold outstanding, responses, in_hand, rsp_in_hand; rewrite ?Ha, ?Hq; try done.
    by left.
  - destruct (slice (payload req) 0 (len req)) as [p|].
    + destruct (node_send _ _ _ _ _) as [r node]. intros [= <- <-].
      eapply (einv_served tr q); try done. simpl.
      destruct (response_of (map_outcome r)) as [rsp|] eqn:Hr; [|by left]. right. exists rsp. split; [done|].
      exists r. rewrite elem_of_app, list_elem_of_singleton. split_and!; [by right|by destruct r|].
      by apply response_back.
    + intros [= <- <-]. eapply (einv_served tr q); try done. by left.
  - destruct (_ <? _); intros [= <- <-].
    apply (einv_same tr q); try done; unfold outstanding, responses, in_hand, rsp_in_hand; rewrite ?Ha; simpl; try done;
      [by rewrite app_nil_r|by left].
  - destruct (node_recv_one_into _ _ _) as [[r node] rx_buf].
    destruct (after_recv MAX_PAYLOAD cfg rx_buf r) as [l' a] eqn:Hr. intros [= <- <-].
    assert (Hquiet : (forall n i req, a <> ActSending n i req) /\ (forall n rsp, a <> ActResp n rsp)).
    { unfold after_recv in Hr. repeat case_match; simplify_eq; done. }
    apply (einv_same tr q); try done; unfold outstanding, responses, in_hand, rsp_in_hand; rewrite ?Ha; simpl; try done.
    + destruct a; try done. by destruct (proj1 Hquiet n i req).
    + destruct a; try done. by destruct (proj2 Hquiet n rsp).
    + by left.
  - destruct (_ <? _); intros [= <- <-].
    apply (einv_same tr q); try done; unfold outstanding, responses, in_hand, rsp_in_hand; rewrite ?Ha; simpl; try done.
    by left.
Qed.

Lemma einv_call tr q i t l q' :
  einv tr q -> q_tasks q !! i = Some t -> call_step MAX_PAYLOAD TX_REQ_DEPTH i t q = Some (l, q') -> einv (tr ++ [l]) q'.
Proof.
  intros Hi Ht. pose proof (lookup_lt_Some _ _ _ Ht) as Hlt. destruct (Hi) as [Hp Hts].
  pose proof (Hts _ _ Ht) as Hok. unfold phase in Hp.
  destruct t as [req|req|req|req r|r|c|o|]; simpl; try done.
  - destruct (q_tx_rpc_lock q) eqn:Hlock; intros [= <- <-].
    eapply (einv_holder tr q); try done; auto. unfold phase. simpl. exists req. left.
    rewrite list_lookup_insert_eq by done. split; [done|]. destruct Hp as [Ho Hr]. split; [done|].
    unfold responses in *. apply app_eq_nil in Hr as [_ Hr]. exact Hr.
  - destruct (_ <? _); intros [= <- <-]. simpl in Hok. rewrite Hok in Hp.
    eapply (einv_holder tr q); try done; auto. unfold phase. simpl. rewrite Hok. exists req. right.
    rewrite list_lookup_insert_eq by done. split; [done|]. left.
    destruct Hp as (req' & [[_ [Ho Hr]]|[Hj _]]); [|congruence]. split; [|done].
    unfold outstanding in *. simpl. change (in_hand (set_task _ _ _)) with (in_hand q).
    by apply app_eq_nil in Ho as [-> ->].
  - destruct (q_tx_resp q) as [|rsp rest] eqn:Hq; intros [= <- <-]. simpl in Hok. rewrite Hok in Hp.
    destruct Hp as (req' & [[Hj _]|[Hj Hb]]); [congruence|]. assert (req' = req) as -> by congruence.
    destruct Hb as [[_ Hr]|[(Ho & rsp' & Hr & Hans)|(_ & Hr & _)]];
      unfold responses in Hr; rewrite Hq in Hr; [done| |done]. simpl in Hr. injection Hr as -> Hrest.
    eapply (einv_holder tr q); [done|done|auto|done|auto| |by apply answered_app]. unfold phase. simpl. by split.
  - destruct (q_rx_evt q) as [|evt rest]; intros [= <- <-]. apply (einv_same tr q); try done.
    + intros j Hj. simpl. rewrite list_lookup_insert_ne; [done|]. intros <-. rewrite Hj in Hp.
      destruct Hp as (req & [[? _]|[? _]]); congruence.
    + intros j t'. simpl. destruct (decide (i = j)) as [<-|Hne].
      * rewrite list_lookup_insert_eq by done. intros [= <-]. by right.
      * rewrite list_lookup_insert_ne by done. by left.
Qed.

(** A call that is not a waiting send changes its state. *)
Lemma einv_other tr q i t t' l :
  einv tr q -> q_tasks q !! i = Some t -> (forall req, t <> SendReq req /\ t <> SendResp req) ->
  (forall tr' q', etask_ok tr' q' i t') -> einv (tr ++ [l]) (set_task i t' q).
Proof.
  intros Hi Ht Hne Hok. pose proof (lookup_lt_Some _ _ _ Ht) as Hlt. destruct (Hi) as [Hp _].
  apply (einv_same tr q); try done.
  - intros j Hj. simpl. rewrite list_lookup_insert_ne; [done|]. intros <-. unfold phase in Hp. rewrite Hj in Hp.
    destruct Hp as (req & Hcase). destruct (Hne req) as [H1 H2].
    destruct Hcase as [[H3 _]|[H3 _]]; congruence.
  - intros j u. simpl. destruct (decide (i = j)) as [<-|].
    + rewrite list_lookup_insert_eq by done. intros [= <-]. by right.
    + rewrite list_lookup_insert_ne by done. by left.
Qed.

Lemma einv_spawn tr q l t :
  einv tr q -> (forall tr' q' i, etask_ok tr' q' i t) -> einv (tr ++ [l]) (set_tasks (q_tasks q ++ [t]) q).
Proof.
  intros Hi Hok. destruct (Hi) as [Hp _]. apply (einv_same tr q); try done.
  - intros j Hj. simpl. unfold phase in Hp. rewrite Hj in Hp.
    rewrite lookup_app. destruct (q_tasks q !! j) eqn:Hq; [done|].
    destruct Hp as (req & [[? _]|[? _]]); congruence.
  - intros j u. simpl. rewrite lookup_app. destruct (q_tasks q !! j); [by left|].
    intros [_ <-]%list_lookup_singleton_Some. by right.
Qed.

Lemma einv_step tr q l q' :
  (forall i, l <> LAbandon i) -> einv tr q -> step q l q' -> einv (tr ++ [l]) q'.
Proof.
  intros Hna Hi Hs. destruct Hs as [q l q' Hs|q i t l q' Ht Hs|q i c Ht|q i t l q' Ht Hs|q to fn p tmo t Hs|q c].
  - by eapply einv_actor.
  - by eapply einv_call.
  - by eapply einv_other.
  - destruct t as [req|req|req| | |c| |]; simplify_eq/=; [by eapply einv_other| |by destruct (Hna i)|by eapply einv_other].
    destruct (Hi) as [Hp Hts]. pose proof (Hts _ _ Ht) as Hl. simpl in Hl.
    eapply (einv_holder tr q); [done|by eapply lookup_lt_Some|by right|done|by left| |done].
    unfold phase in *. rewrite Hl in Hp. simpl. destruct Hp as (req' & [[_ ?]|[? _]]); [done|congruence].
  - apply einv_spawn; [done|]. intros. unfold spawn_send in Hs. by repeat case_match; simplify_eq.
  - by apply einv_spawn.
Qed.

Lemma einv_reach node tr q : reach node tr q -> (forall i, LAbandon i ∉ tr) -> einv tr q.
Proof.
  induction 1 as [|tr q l q' _ IH Hs]; intros Hna; [by split|].
  eapply einv_step; [|apply IH|done].
  - intros i ->. apply (Hna i). apply elem_of_app. right. by left.
  - intros i Hi. apply (Hna i), elem_of_app. by left.
Qed.

(** C21. As long as no send is dropped while it waits for its response, a send
    returns what the node answered to its own request, although responses
    carry no identity; and the actor never waits to hand a response over. *)
Theorem embassy_send_own_result node tr q :
  reach node tr q -> (forall i, LAbandon i ∉ tr) ->
  (forall i req r, q_tasks q !! i = Some (SendDone req r) -> answered tr i req r) /\
  (forall n rsp, q_actor q = ActResp n rsp -> q_tx_resp q = []).
Proof.
  intros Hr Hna. destruct (einv_reach _ _ _ Hr Hna) as [Hp Ht]. split.
  - intros i req r Hi. exact (Ht _ _ Hi).
  - intros n rsp Ha. unfold phase, idle, busy, responses, rsp_in_hand in Hp. rewrite Ha in Hp.
    assert (Hone : forall l rsp', l ++ [rsp] = [rsp'] -> l = []) by (by intros [|? []]).
    destruct (q_tx_rpc_lock q).
    + destruct Hp as (req & [[_ [_ Hx]]|[_ [[_ Hx]|[(_ & rsp' & Hx & _)|(_ & Hx & _)]]]]);
        try (by apply app_eq_nil in Hx as [_ ?]). by eapply Hone.
    + destruct Hp as [_ Hx]. by apply app_eq_nil in Hx as [_ ?].
Qed.
End invariant.

(** * A dropped send *)

Abbreviation DemoQueue := (list (label unit) * Queue ListNode unit unit)%type.
Abbreviation demo_reach :=
  (qreach (Node := ListNode) (E := unit) (S := unit) 4 2 1 2 ActorConfig_default demo_node).

Definition do_actor (s : DemoQueue) : DemoQueue :=
  match run_actor_step 4 1 2 ActorConfig_default s.2 with Some (l, q) => (s.1 ++ [l], q) | None => s end.
Definition do_call (i : nat) (s : DemoQueue) : DemoQueue :=
  match q_tasks s.2 !! i with
  | Some t => match call_step 4 2 i t s.2 with Some (l, q) => (s.1 ++ [l], q) | None => s end
  | None => s
  end.
Definition do_drop (i : nat) (s : DemoQueue) : DemoQueue :=
  match q_tasks s.2 !! i with
  | Some t => match call_drop i t s.2 with Some (l, q) => (s.1 ++ [l], q) | None => s end
  | None => s
  end.
Definition do_send (to : u8) (data : bytes) (s : DemoQueue) : DemoQueue :=
  match spawn_send 4 to false data 1000 with
  | Some t => (s.1 ++ [LSilent], set_tasks (q_tasks s.2 ++ [t]) s.2)
  | None => s
  end.

Lemma em_actor_reach s : demo_reach s.1 s.2 -> demo_reach (do_actor s).1 (do_actor s).2.
Proof.
  intros Hr. unfold do_actor. destruct (run_actor_step _ _ _ _ _) as [[l q]|] eqn:Hs; [|done].
  eapply ereach_step; [done|]. by apply e_actor_steps.
Qed.
Lemma em_call_reach i s : demo_reach s.1 s.2 -> demo_reach (do_call i s).1 (do_call i s).2.
Proof.
  intros Hr. unfold do_call. destruct (q_tasks s.2 !! i) as [t|] eqn:Ht; [|done].
  destruct (call_step _ _ _ _ _) as [[l q]|] eqn:Hs; [|done]. eapply ereach_step; [done|]. by eapply e_call_steps.
Qed.
Lemma em_drop_reach i s : demo_reach s.1 s.2 -> demo_reach (do_drop i s).1 (do_drop i s).2.
Proof.
  intros Hr. unfold do_drop. destruct (q_tasks s.2 !! i) as [t|] eqn:Ht; [|done].
  destruct (call_drop _ _ _) as [[l q]|] eqn:Hs; [|done]. eapply ereach_step; [done|]. by eapply e_drops.
Qed.
Lemma em_send_reach to data s : demo_reach s.1 s.2 -> demo_reach (do_send to data s).1 (do_send to data s).2.
Proof.
  intros Hr. unfold do_send. destruct (spawn_send _ _ _ _ _) as [t|] eqn:Hs; [|done].
  eapply ereach_step; [done|]. by eapply e_sends.
Qed.

Definition em_req : IsoTpTxRequest :=
  {| to := 33; is_functional := false; timeout_of := 1000; len := 2; payload := [1; 2; 0; 0]%Z |}.
Definition em_req' : IsoTpTxRequest :=
  {| to := 34; is_functional := false; timeout_of := 1000; len := 1; payload := [3; 0; 0; 0]%Z |}.

(** One send from start to end. *)
Definition one_sent : DemoQueue :=
  do_call 0 (do_actor (do_actor (do_actor (do_call 0 (do_call 0 (do_send 33 [1; 2]%Z ([], queue_new 4 demo_node))))))).
Lemma one_sent_reach : demo_reach one_sent.1 one_sent.2.
Proof.
  apply em_call_reach. do 3 apply em_actor_reach. do 2 apply em_call_reach. apply em_send_reach, ereach_init.
Qed.

Lemma one_sent_kept i : LAbandon i ∉ one_sent.1.
Proof.
  assert (Htr : one_sent.1 = [LSilent; LSilent; LSilent; LSilent; LServe 0 em_req (Ok tt); LSilent; LSilent])
    by (vm_compute; reflexivity).
  rewrite Htr, !elem_of_cons, elem_of_nil. intuition congruence.
Qed.

(** The first send queues its request and is dropped; the second one finds the
    response channel empty, queues its request, and takes the response to the
    first one. *)
Definition misreported : DemoQueue :=
  do_call 1 (do_actor (do_actor (do_actor (do_call 1 (do_call 1 (do_send 34 [3]%Z
    (do_drop 0 (do_call 0 (do_call 0 (do_send 33 [1; 2]%Z ([], queue_new 4 demo_node))))))))))).
Lemma misreported_reach : demo_reach misreported.1 misreported.2.
Proof.
  apply em_call_reach. do 3 apply em_actor_reach. do 2 apply em_call_reach. apply em_send_reach, em_drop_reach.
  do 2 apply em_call_reach. apply em_send_reach, ereach_init.
Qed.

(** Once a send is dropped while it waits for its response, the next send
    can return the response to the dropped one: there is a run in which a send
    returns [Ok] although the node has not been given its request, which still
    lies in the channel. *)
Theorem embassy_dropped_send_misreports :
  exists tr (q : Queue ListNode unit unit), demo_reach tr q /\
    q_tasks q !! 1 = Some (SendDone em_req' (Ok tt)) /\
    (forall req res, LServe 1 req res ∉ tr) /\ q_tx_req q = [(1, em_req')].
Proof.
  exists misreported.1, misreported.2. split; [exact misreported_reach|].
  split; [vm_compute; reflexivity|]. split; [|vm_compute; reflexivity].
  assert (Htr : misreported.1 = [LSilent; LSilent; LSilent; LAbandon 0; LSilent; LSilent; LSilent; LSilent;
                                 LServe 0 em_req (Ok tt); LSilent; LSilent]) by (vm_compute; reflexivity).
  intros req res. rewrite Htr. rewrite !elem_of_cons, elem_of_nil. intuition congruence.
Qed.

Lemma embassy_actor_safe_witness : q_actor misreported.2 <> ActPanicked.
Proof.
  apply (embassy_actor_safe 4 2 1 2 ActorConfig_default demo_node misreported.1); [|exact misreported_reach].
  intros [] to p t n; discriminate.
Defined.

Lemma embassy_send_own_result_witness : answered one_sent.1 0 em_req (Ok tt).
Proof.
  apply (proj1 (embassy_send_own_result 4 2 1 2 ActorConfig_default demo_node one_sent.1 one_sent.2
    one_sent_reach one_sent_kept)).
  vm_compute. reflexivity.
Defined.
