(* ===== verification/QueueEmbassyHooks.v ===== *)
(** * The hooks of the embassy actor

    [run_actor] of [iso-tp/can-isotp-queue/src/embassy.rs] with its hooks and
    the clock it reads around the two sends that can wait for room: that of a
    response and that of an event.  The clock counts ticks of [embassy_time],
    whose conversions are parameters here.  [QueueEmbassy] models the same actor
    without hooks.

    Proved, as for tokio: the hooks only observe, and what they are told is what
    the actor did. *)
From S2P Require Import Prelude Wire Interface QueueCommon QueueEmbassy.

(** ** Time *)

(** [embassy_time::Duration] in ticks. *)
Class EmbassyTime := { from_micros : Z -> Z; as_micros : Z -> Z }.

(** [from_micros] rounds up to a whole tick and [as_micros] down to a whole
    microsecond, so that a duration of [t] ticks is as long as [m]
    microseconds when it lasts as many ticks; the longest duration compared in
    the queue is a millisecond. *)
Class EmbassyTimeLaws (Time : EmbassyTime) : Prop := {
  rounding : forall m t, (0 <= m < 2 ^ 32)%Z -> (from_micros m <= t)%Z <-> (m <= as_micros t)%Z;
}.

Section time.
Context `{EmbassyTime}.

Definition core_to_embassy_duration (dur : Duration) : Z :=
  let micros := Z.min (dur / 1000) (2 ^ 64 - 1) in
  from_micros micros.
Definition embassy_to_core_duration (dur : Z) : Duration := (as_micros dur * 1000)%Z.

(** [Instant::checked_duration_since]. *)
Definition checked_duration_since (now started : Z) : option Z :=
  if (started <=? now)%Z then Some (now - started)%Z else None.
End time.

(** [BACKPRESSURE_LOG_THRESHOLD], a millisecond. *)
Definition BACKPRESSURE_LOG_THRESHOLD : Duration := 1000000%Z.

Section hooked.
Context {Node E S Hk : Type} `{IsoTpEndpoint Node E} `{IsoTpRecvInto Node E} `{ActorHooks Hk E} `{EmbassyTime}.
Context (MAX_PAYLOAD TX_REQ_DEPTH TX_RESP_DEPTH RX_EVT_DEPTH : nat) (cfg : ActorConfig).
Abbreviation Q := (Queue Node E S).

(** The queue, the hooks, the last reading of the clock and when the send that
    is under way was started. *)
Record Hooked := {
  h_queue : Q;
  h_hooks : Hk;
  h_now : Z;
  h_started : Z;
}.

(** How many ticks a send waited for room, where a step ends a wait. *)
Abbreviation wait := (option (QueueKind * Z)).

(** The end of [send_rx_event] and of the send of a response. *)
Definition sent_after (queue : QueueKind) (started now : Z) (h : Hk) : wait * Hk :=
  match checked_duration_since now started with
  | Some blocked =>
      (Some (queue, blocked),
       if (core_to_embassy_duration BACKPRESSURE_LOG_THRESHOLD <=? blocked)%Z
       then on_queue_backpressure queue (embassy_to_core_duration blocked) h else h)
  | None => (None, h)
  end.

(** The hook calls of the [match] on the outcome of the node's
    [recv_one_into]. *)
Definition recv_hooks (r : result RecvMetaIntoStatus (RecvError E)) (h : Hk) : Hk :=
  match r with
  | Ok RecvTimedOut => h
  | Ok (DeliveredOne reply_to len) => delivery_hook cfg reply_to len h
  | Err (RecvBufferTooSmall needed got) => on_rx_buffer_too_small needed got h
  | Err (RecvBackend err) => on_rx_backend_error err h
  | Panic => h
  end.

(** A step of the actor at the time [now]. *)
Definition run_actor_hooked (now : Z) (s : Hooked) : option (label E * wait * Hooked) :=
  let q := h_queue s in
  let h := h_hooks s in
  let next l w q' h' := Some (l, w, {| h_queue := q'; h_hooks := h'; h_now := now; h_started := h_started s |}) in
  let start l q' h' := Some (l, None, {| h_queue := q'; h_hooks := h'; h_now := now; h_started := now |}) in
  match q_actor q with
  | ActTx n =>
      if n <? normalized_tx_burst_limit cfg then
        match q_tx_req q with
        | (i, req) :: rest =>
            next LSilent None (set_actor (ActSending (n + 1) i req) (set_tx_req rest q))
              (on_tx_request (to req) (is_functional req) (len req) (timeout_of req) h)
        | [] => next LSilent None (set_actor ActRx q) h
        end
      else next LSilent None (set_actor ActRx q) h
  | ActSending n i req =>
      match slice (payload req) 0 (len req) with
      | Some p =>
          let '(r, node) := node_send (is_functional req) (to req) p (timeout_of req) (q_node q) in
          let mapped := map_outcome r in
          start (LServe i req r)
            (set_actor (match response_of mapped with Some rsp => ActResp n rsp | None => ActPanicked end)
              (set_node node (q_rx_buf q) q))
            (match r with Panic => h | _ => on_tx_result mapped h end)
      | None => next LSilent None (set_actor ActPanicked q) h
      end
  | ActResp n rsp =>
      if length (q_tx_resp q) <? TX_RESP_DEPTH then
        let '(w, h') := sent_after TxResp (h_started s) now h in
        next LSilent w (set_actor (ActTx n) (set_tx_resp (q_tx_resp q ++ [rsp]) q)) h'
      else None
  | ActRx =>
      let '(r, node, rx_buf) := node_recv_one_into (recv_poll_timeout cfg) (q_rx_buf q) (q_node q) in
      let '(l, a) := after_recv MAX_PAYLOAD cfg rx_buf r in
      start l (set_actor a (set_node node rx_buf q)) (recv_hooks r h)
  | ActEvt evt =>
      if length (q_rx_evt q) <? RX_EVT_DEPTH then
        let '(w, h') := sent_after RxEvt (h_started s) now h in
        next LSilent w (set_actor (ActTx 0) (set_rx_evt (q_rx_evt q ++ [evt]) q)) h'
      else None
  | ActPanicked => None
  end.

(** What is not a step of the actor: polls, timeouts and drops of calls and new
    calls. *)
Inductive cstep : Q -> label E -> Q -> Prop :=
| c_call_steps q i t l q' :
    q_tasks q !! i = Some t -> call_step MAX_PAYLOAD TX_REQ_DEPTH i t q = Some (l, q') -> cstep q l q'
| c_times_out q i c :
    q_tasks q !! i = Some (Receiving c) -> cstep q LSilent (set_task i (RecvDone (timed_out c)) q)
| c_drops q i t l q' : q_tasks q !! i = Some t -> call_drop i t q = Some (l, q') -> cstep q l q'
| c_sends q to is_functional data timeout t :
    spawn_send MAX_PAYLOAD to is_functional data timeout = Some t -> cstep q LSilent (set_tasks (q_tasks q ++ [t]) q)
| c_receives q c : cstep q LSilent (set_tasks (q_tasks q ++ [Receiving c]) q).

Definition with_queue (q : Q) (s : Hooked) : Hooked :=
  {| h_queue := q; h_hooks := h_hooks s; h_now := h_now s; h_started := h_started s |}.

Inductive hstep : Hooked -> label E * wait -> Hooked -> Prop :=
| h_actor_steps now s l w s' : (h_now s <= now)%Z -> run_actor_hooked now s = Some (l, w, s') -> hstep s (l, w) s'
| h_client_steps s l q' : cstep (h_queue s) l q' -> hstep s (l, None) (with_queue q' s).

Definition hooked_init (node : Node) (h : Hk) : Hooked :=
  {| h_queue := queue_new MAX_PAYLOAD node; h_hooks := on_actor_started h; h_now := 0; h_started := 0 |}.

Inductive hreach (node : Node) (h : Hk) : list (label E * wait) -> Hooked -> Prop :=
| hreach_init : hreach node h [] (hooked_init node h)
| hreach_step tr s l s' : hreach node h tr s -> hstep s l s' -> hreach node h (tr ++ [l]) s'.

(** * The hooks only observe *)

Abbreviation step := (qstep (Node := Node) (E := E) (S := S) MAX_PAYLOAD TX_REQ_DEPTH TX_RESP_DEPTH RX_EVT_DEPTH cfg).
Abbreviation reach := (qreach (Node := Node) (E := E) (S := S) MAX_PAYLOAD TX_REQ_DEPTH TX_RESP_DEPTH RX_EVT_DEPTH cfg).
Abbreviation actor_step := (run_actor_step (Node := Node) (E := E) (S := S) MAX_PAYLOAD TX_RESP_DEPTH RX_EVT_DEPTH cfg).

Lemma em_qstep_split q l q' : step q l q' <-> actor_step q = Some (l, q') \/ cstep q l q'.
Proof.
  split.
  - intros Hs. inversion Hs; subst; [by left|right..]; by econstructor.
  - intros [Ha|Hc]; [by apply e_actor_steps|]. inversion Hc; subst; by econstructor.
Qed.

(** Without its hooks a step is a step of [QueueEmbassy]. *)
Lemma em_hooked_erase now s : option_map (fun '(l, _, s') => (l, h_queue s')) (run_actor_hooked now s) =
  actor_step (h_queue s).
Proof.
  unfold run_actor_hooked, run_actor_step. destruct (q_actor (h_queue s)) as [n|n i req|n rsp| |evt|].
  - destruct (_ <? _); [|done]. by destruct (q_tx_req _) as [|[]].
  - destruct (slice _ _ _); [|done]. by destruct (node_send _ _ _ _ _).
  - destruct (_ <? _); [|done]. by destruct (sent_after _ _ _ _).
  - destruct (node_recv_one_into _ _ _) as [[r node] b]. by destruct (after_recv _ _ _ _).
  - destruct (_ <? _); [|done]. by destruct (sent_after _ _ _ _).
  - done.
Qed.

Lemma em_hreach_erase node h tr s : hreach node h tr s -> reach node tr.*1 (h_queue s).
Proof.
  induction 1 as [|tr s [l w] s' _ IH Hs]; [constructor|].
  rewrite fmap_app. simpl. eapply ereach_step; [exact IH|]. apply em_qstep_split.
  inversion Hs as [now ???? _ Hr|]; subst; [left|by right].
  by rewrite <- (em_hooked_erase now), Hr.
Qed.

Lemma em_reach_hooked node h tr q : reach node tr q ->
  exists htr s, hreach node h htr s /\ htr.*1 = tr /\ h_queue s = q.
Proof.
  induction 1 as [|tr q l q' _ (htr & s & Hr & <- & <-) Hs]; [by eexists [], _; split; [constructor|]|].
  apply em_qstep_split in Hs as [Ha|Hc].
  - rewrite <- (em_hooked_erase (h_now s)) in Ha.
    destruct (run_actor_hooked (h_now s) s) as [[[l' w] s']|] eqn:Hh; simplify_eq/=.
    exists (htr ++ [(l, w)]), s'. rewrite fmap_app. split; [|done].
    eapply hreach_step; [done|]. by eapply h_actor_steps.
  - exists (htr ++ [(l, None)]), (with_queue q' s). rewrite fmap_app. split; [|done].
    eapply hreach_step; [done|]. by constructor.
Qed.

(** * What the hooks are told *)

Context `{!EmbassyTimeLaws _}.

Definition request_info (p : nat * IsoTpTxRequest) : u8 * bool * nat * Duration :=
  let req := p.2 in (to req, is_functional req, len req, timeout_of req).
Definition event_report (evt : IsoTpRxEvent (E := E)) : HookCall E :=
  match evt with
  | EvtDelivered from len _ => OnRxDelivered from len
  | EvtBufferTooSmall needed got => OnRxBufferTooSmall needed got
  | EvtBackend err => OnRxBackendError err
  end.
Definition served (tr : list (label E)) : list (nat * IsoTpTxRequest) :=
  omap (fun l => match l with LServe i req _ => Some (i, req) | _ => None end) tr.
Definition answers (tr : list (label E)) : list (SendResult E) :=
  omap (fun l => match l with LServe _ _ Panic => None | LServe _ _ r => Some (map_outcome r) | _ => None end) tr.

(** A wait of a millisecond or longer, reported in whole microseconds. *)
Definition long_wait (w : wait) : option (QueueKind * Duration) :=
  match w with
  | Some (k, ticks) => if (1000 <=? as_micros ticks)%Z then Some (k, as_micros ticks * 1000)%Z else None
  | None => None
  end.

(** The calls [cs] report the run [tr] that ends in [s]; only a panic of the
    actor loses what it was told of. *)
Definition reports (tr : list (label E * wait)) (s : Hooked) (cs : list (HookCall E)) : Prop :=
  exists lost lost_evt,
    told cfg ((request_info <$> served tr.*1 ++ in_hand (h_queue s)) ++ lost) (answers tr.*1)
      ((event_report <$> accepted tr.*1) ++ lost_evt) (omap long_wait tr.*2) cs /\
    (q_actor (h_queue s) <> ActPanicked -> lost = [] /\ lost_evt = []).

(** A step of the actor with the label [l] makes the calls [new]. *)
Definition step_reports (l : label E) (w : wait) (q q' : Q) (new : list (HookCall E)) : Prop :=
  exists requests lost lost_evt,
    told cfg requests (answers [l]) ((event_report <$> accepted [l]) ++ lost_evt) (omap long_wait [w]) new /\
    (request_info <$> in_hand q) ++ requests = (request_info <$> served [l] ++ in_hand q') ++ lost /\
    (q_actor q' <> ActPanicked -> lost = [] /\ lost_evt = []).

Lemma em_served_snoc (tr : list (label E)) l : served (tr ++ [l]) = served tr ++ served [l].
Proof. apply omap_app. Qed.
Lemma em_answers_snoc (tr : list (label E)) l : answers (tr ++ [l]) = answers tr ++ answers [l].
Proof. apply omap_app. Qed.
Lemma em_accepted_snoc (tr : list (label E)) l : accepted (tr ++ [l]) = accepted tr ++ accepted [l].
Proof. apply omap_app. Qed.
Lemma em_waits_snoc (ws : list wait) w : omap long_wait (ws ++ [w]) = omap long_wait ws ++ omap long_wait [w].
Proof. exact (omap_app long_wait ws [w]). Qed.

Lemma em_reports_step tr s cs l w s' new :
  reports tr s cs -> q_actor (h_queue s) <> ActPanicked -> step_reports l w (h_queue s) (h_queue s') new ->
  reports (tr ++ [(l, w)]) s' (cs ++ new).
Proof.
  intros (lost & lost_evt & Ht & Hl) Hp (requests & lost' & lost_evt' & Hn & Hr & Hl').
  destruct (Hl Hp) as [-> ->]. rewrite !app_nil_r in Ht.
  exists lost', lost_evt'. split; [|done]. pose proof (told_app _ _ _ _ _ _ _ _ _ _ _ Ht Hn) as Hall.
  rewrite !(fmap_app _ tr). simpl. rewrite em_served_snoc, em_answers_snoc, em_accepted_snoc, em_waits_snoc.
  rewrite !fmap_app, <- !app_assoc in Hall. rewrite Hr, !fmap_app, <- !app_assoc in Hall.
  by rewrite !fmap_app, <- !app_assoc.
Qed.

(** The end of a send tells of a long wait and of nothing else. *)
Lemma em_sent_after_told k started now (h : Hk) :
  exists new, (sent_after k started now h).2 = call_hooks h new /\
    told cfg [] [] [] (omap long_wait [(sent_after k started now h).1]) new.
Proof.
  unfold sent_after. destruct (checked_duration_since now started) as [b|]; [|exists []; split; [done|apply told_nil]].
  assert (Hb : (core_to_embassy_duration BACKPRESSURE_LOG_THRESHOLD <=? b)%Z = (1000 <=? as_micros b)%Z).
  { apply eq_true_iff_eq. rewrite !Z.leb_le. by apply rounding. }
  simpl. rewrite Hb. destruct (1000 <=? as_micros b)%Z.
  - eexists [OnQueueBackpressure _ _]. split; [done|by apply told_one].
  - exists []. split; [done|apply told_nil].
Qed.

(** The calls after a receive of the node. *)
Lemma em_recv_hooks_calls rx_buf r (h : Hk) l a q q' :
  after_recv MAX_PAYLOAD cfg rx_buf r = (l, a) -> q_actor q = ActRx -> q_actor q' = a ->
  exists new, recv_hooks r h = call_hooks h new /\ step_reports l None q q' new.
Proof.
  intros Ha Hq Ha'. unfold after_recv, recv_hooks, step_reports, in_hand in *. rewrite Hq, Ha'. clear Ha'.
  destruct r as [[|reply_to n]|[needed got|err]|]; simplify_eq/=.
  - exists []. split; [done|]. exists [], [], []. split; [apply told_nil|done].
  - rewrite delivery_hook_call. exists [delivery_call cfg reply_to n]. split; [done|].
    pose proof (delivery_told (E := E) cfg reply_to n) as Hd.
    destruct (reply_source cfg reply_to) as [from|].
    + destruct (slice rx_buf 0 n) as [p|]; [destruct (copy_at _ 0 p) as [pl|]|]; simplify_eq/=.
      * exists [], [], []. split; [exact Hd|done].
      * exists [], [], [OnRxDelivered from n]. split; [exact Hd|done].
      * exists [], [], [OnRxDelivered from n]. split; [exact Hd|done].
    + simplify_eq/=. exists [], [], []. split; [exact Hd|done].
  - exists [OnRxBufferTooSmall needed got]. split; [done|]. exists [], [], [].
    split; [by apply told_one|done].
  - exists [OnRxBackendError err]. split; [done|]. exists [], [], []. split; [by apply told_one|done].
  - exists []. split; [done|]. exists [], [], []. split; [apply told_nil|done].
Qed.

(** A step of the actor makes the calls that report it. *)
Lemma em_hooked_calls now s l w s' : run_actor_hooked now s = Some (l, w, s') ->
  q_actor (h_queue s) <> ActPanicked /\
  exists new, h_hooks s' = call_hooks (h_hooks s) new /\ step_reports l w (h_queue s) (h_queue s') new.
Proof.
  unfold run_actor_hooked. destruct (q_actor (h_queue s)) as [n|n i req|n rsp| |evt|] eqn:Hq; intros Hr; [..|done];
    (split; [done|]); unfold step_reports, in_hand; try rewrite Hq.
  - destruct (_ <? _); [destruct (q_tx_req _) as [|[i req] rest]|]; simplify_eq/=.
    2: { eexists [OnTxRequest _ _ _ _]. split; [done|]. exists [request_info (i, req)], [], [].
         split; [by apply told_one|done]. }
    all: exists []; split; [done|]; exists [], [], []; split; [apply told_nil|done].
  - destruct (slice _ _ _) as [p|]; simplify_eq/=.
    2: { exists []. split; [done|]. exists [], [request_info (i, req)], []. split; [apply told_nil|done]. }
    destruct (node_send _ _ _ _ _) as [[x|e|] node]; simplify_eq/=.
    + eexists [OnTxResult _]. split; [done|]. exists [], [], []. split; [by apply told_one|done].
    + eexists [OnTxResult _]. split; [done|]. exists [], [], []. split; [by apply told_one|by destruct e].
    + exists []. split; [done|]. exists [], [], []. split; [apply told_nil|done].
  - destruct (_ <? _); [|done]. destruct (em_sent_after_told TxResp (h_started s) now (h_hooks s)) as (new & Hn & Ht).
    destruct (sent_after _ _ _ _) as [w' h']. simplify_eq/=. exists new. split; [done|].
    exists [], [], []. split; [exact Ht|done].
  - destruct (node_recv_one_into _ _ _) as [[r node] rx_buf].
    destruct (after_recv MAX_PAYLOAD cfg rx_buf r) as [l' a] eqn:Ha. simplify_eq/=.
    destruct (em_recv_hooks_calls rx_buf r (h_hooks s) l a (h_queue s) (set_actor a (set_node node rx_buf (h_queue s)))
      Ha Hq eq_refl) as (new & Hn & Hs). exists new. split; [done|].
    unfold step_reports, in_hand in Hs. by rewrite Hq in Hs.
  - destruct (_ <? _); [|done]. destruct (em_sent_after_told RxEvt (h_started s) now (h_hooks s)) as (new & Hn & Ht).
    destruct (sent_after _ _ _ _) as [w' h']. simplify_eq/=. exists new. split; [done|].
    exists [], [], []. split; [exact Ht|done].
Qed.

(** Steps of the calls leave the actor alone. *)
Lemma em_cstep_actor q l q' : cstep q l q' ->
  served [l] = [] /\ answers [l] = [] /\ accepted [l] = [] /\ q_actor q' = q_actor q.
Proof.
  destruct 1 as [q i t l q' _ Hs|q i c _|q i t l q' _ Hs|q to f p t|q c]; try (split_and!; done).
  - destruct t; simpl in Hs; repeat case_match; by simplify_eq/=.
  - destruct t; simpl in Hs; by simplify_eq/=.
Qed.

Lemma em_reports_client tr s cs l q' : reports tr s cs -> cstep (h_queue s) l q' ->
  reports (tr ++ [(l, None)]) (with_queue q' s) cs.
Proof.
  intros Hr (Hsv & Ha & Hac & Hq)%em_cstep_actor. unfold reports, in_hand in *. rewrite !(fmap_app _ tr). simpl.
  rewrite em_served_snoc, em_answers_snoc, em_accepted_snoc, em_waits_snoc, Hsv, Ha, Hac. simpl.
  by rewrite !app_nil_r, Hq.
Qed.

Lemma em_hreach_reports node h tr s : hreach node h tr s ->
  exists cs, h_hooks s = call_hooks h (OnActorStarted :: cs) /\ reports tr s cs.
Proof.
  induction 1 as [|tr s [l w] s' _ (cs & Hh & Hr) Hs].
  - exists []. split; [done|]. exists [], []. split; [apply told_nil|done].
  - inversion Hs as [now ???? _ Hrun|]; subst.
    + apply em_hooked_calls in Hrun as (Hp & new & Hn & Hsr). exists (cs ++ new). split; [|by eapply em_reports_step].
      rewrite Hn, Hh. unfold call_hooks. by rewrite <- foldl_app.
    + exists cs. split; [done|by apply em_reports_client].
Qed.

(** C29. The hooks of the embassy actor observe it and nothing more: for any
    implementation of [ActorHooks], the runs with hooks are, in queue states and
    labels, the runs without.  What the hooks keep is the result of
    [on_actor_started], once and first, and a list of calls that reports the run:
    one [on_tx_request] for each request taken, in order and as the node is then
    given it; one [on_tx_result] for each answer of the node; one report for each
    event accepted; [on_rx_filtered_source] only for a source the configuration
    filters; and [on_queue_backpressure] exactly for the responses and events that
    waited a millisecond or longer for room, whatever the rate of the clock. *)
Theorem embassy_hooks_observe (node : Node) (h : Hk) :
  (forall tr s, hreach node h tr s ->
     reach node tr.*1 (h_queue s) /\
     exists cs, h_hooks s = call_hooks h (OnActorStarted :: cs) /\ reports tr s cs) /\
  (forall tr q, reach node tr q ->
     exists htr s, hreach node h htr s /\ htr.*1 = tr /\ h_queue s = q).
Proof.
  split; [|by intros; apply em_reach_hooked]. intros tr s Hr.
  split; [by eapply em_hreach_erase|by eapply em_hreach_reports].
Qed.
End hooked.

(** * A concrete run *)

(** The tick rate of a watch crystal, 32768 Hz: 512 ticks in 15625
    microseconds. *)
#[global] Instance crystal : EmbassyTime := {
  from_micros m := ((m * 512 + 15624) / 15625)%Z;
  as_micros t := (t * 15625 / 512)%Z;
}.
#[global] Instance crystal_laws : EmbassyTimeLaws crystal.
Proof. split. intros m t _. simpl. Z.div_mod_to_equations. lia. Qed.

Definition do_hooked (now : Z) (s : list (label unit * option (QueueKind * Z)) *
    Hooked (Node := ListNode) (E := unit) (S := unit) (Hk := HookLog unit)) :=
  match run_actor_hooked 4 1 2 ActorConfig_default now s.2 with
  | Some (l, w, s') => (s.1 ++ [(l, w)], s')
  | None => s
  end.
Definition hooked_run := do_hooked 200 (do_hooked 100 (do_hooked 50 ([], hooked_init 4 demo_node {| hook_log := [] |}))).

Abbreviation demo_hreach :=
  (hreach (Node := ListNode) (E := unit) (S := unit) 4 2 1 2 ActorConfig_default demo_node {| hook_log := [] |}).
Lemma do_hooked_reach now s : (h_now s.2 <= now)%Z -> demo_hreach s.1 s.2 ->
  demo_hreach (do_hooked now s).1 (do_hooked now s).2.
Proof.
  intros Hn Hr. unfold do_hooked. destruct (run_actor_hooked _ _ _ _ _ _) as [[[l w] s']|] eqn:Hs; [|done].
  eapply hreach_step; [done|]. by eapply h_actor_steps.
Qed.
Lemma hooked_run_reach : demo_hreach hooked_run.1 hooked_run.2.
Proof. repeat (apply do_hooked_reach; [vm_compute; discriminate|]). apply hreach_init. Qed.

(** A payload is received and its event waits 100 ticks, 3.05 milliseconds. *)
Lemma embassy_hooks_observe_witness :
  hook_log (h_hooks hooked_run.2) =
    [OnActorStarted; OnRxDelivered 17 3; OnQueueBackpressure RxEvt 3051000]%Z /\
  exists cs, h_hooks hooked_run.2 = call_hooks {| hook_log := [] |} (OnActorStarted :: cs) /\
    reports ActorConfig_default hooked_run.1 hooked_run.2 cs.
Proof.
  split; [vm_compute; reflexivity|].
  exact (proj2 (proj1 (embassy_hooks_observe (S := unit) 4 2 1 2 ActorConfig_default demo_node {| hook_log := [] |})
    _ _ hooked_run_reach)).
Defined.
