(* ===== verification/FtSchema.v ===== *)
(** * File-transfer messages and their encoders

    Models [thincan-file-transfer/src/lib.rs] (message values, size bounds),
    [alloc_encode.rs] (the encoders with a heap or thread-local scratch),
    [heapless_encode.rs] (the encoders with a fixed scratch and the in-place
    ones) and the ack decoders.  The Cap'n Proto builder and reader are the
    class [Capnp]; [CapnpLaws] states what its documentation promises (struct
    layout sizes, one segment when the buffer is large enough, a reader sees
    what was set).  The theorems show that every encoder of a value writes the
    same bytes within the announced bound, and that they read back. *)
From S2P Require Import Prelude Wire.

(** * Schema *)

Inductive FileHashAlgo := Sha256.
Inductive FileAckKind := Accept | Ack | Reject | Complete | Abort.
Inductive FileAckError :=
| NoError
| InvalidRequest
| ChunkSizeTooLarge
| ChunkSizeTooSmall
| HashMissing
| HashInvalidLength
| HashAlgoUnsupported
| HashMismatch.

Global Instance FileHashAlgo_eq_dec : EqDecision FileHashAlgo.
Proof. solve_decision. Defined.
Global Instance FileAckKind_eq_dec : EqDecision FileAckKind.
Proof. solve_decision. Defined.
Global Instance FileAckError_eq_dec : EqDecision FileAckError.
Proof. solve_decision. Defined.

(** * Size bounds *)

Definition DEFAULT_CHUNK_SIZE : nat := 64.

Definition capnp_padded_len (len : nat) : nat :=
  Z.to_nat (Z.land (Z.of_nat len + 7) (Z.lnot 7)).

Definition file_req_max_encoded_len : nat := 40.
Definition file_offer_max_encoded_len (metadata_len hash_len : nat) : nat :=
  40 + capnp_padded_len metadata_len + capnp_padded_len hash_len.
Definition file_chunk_max_encoded_len (data_len : nat) : nat := 32 + capnp_padded_len data_len.
Definition file_ack_max_encoded_len : nat := 24.
Definition capnp_scratch_words_for_bytes (bytes : nat) : nat := div_ceil bytes 8.

(** * Configuration and message values *)

Record ReceiverConfig := { max_chunk_size : u32 }.

Record FileReqValue := { req_transfer_id : u32; req_total_len : u32 }.

Record FileOfferValue := {
  offer_transfer_id : u32;
  offer_total_len : u32;
  offer_file_metadata : bytes;
  offer_sender_max_chunk_size : u32;
  offer_file_hash_algo : FileHashAlgo;
  offer_file_hash : bytes;
}.

Record FileChunkValue := {
  chunk_transfer_id : u32;
  chunk_offset : u32;
  chunk_data : bytes;
}.

Record FileAckValue := {
  ack_transfer_id : u32;
  ack_kind : FileAckKind;
  ack_next_offset : u32;
  ack_chunk_size : u32;
  ack_error : FileAckError;
}.

Definition file_req (transfer_id total_len : u32) : FileReqValue :=
  {| req_transfer_id := transfer_id; req_total_len := total_len |}.

Definition file_offer (transfer_id total_len sender_max_chunk_size : u32) (file_metadata : bytes)
    (file_hash_algo : FileHashAlgo) (file_hash : bytes) : FileOfferValue :=
  {| offer_transfer_id := transfer_id; offer_total_len := total_len;
     offer_file_metadata := file_metadata;
     offer_sender_max_chunk_size := sender_max_chunk_size;
     offer_file_hash_algo := file_hash_algo; offer_file_hash := file_hash |}.

Definition file_chunk (transfer_id offset : u32) (data : bytes) : FileChunkValue :=
  {| chunk_transfer_id := transfer_id; chunk_offset := offset; chunk_data := data |}.

(** [FileAckValue::new]. *)
Definition file_ack (transfer_id : u32) (k : FileAckKind) (next_offset chunk_size : u32)
    (error : FileAckError) : FileAckValue :=
  {| ack_transfer_id := transfer_id; ack_kind := k; ack_next_offset := next_offset;
     ack_chunk_size := chunk_size; ack_error := error |}.

Definition file_ack_accept (transfer_id chunk_size : u32) : FileAckValue :=
  file_ack transfer_id Accept 0 chunk_size NoError.
Definition file_ack_progress (transfer_id next_offset : u32) : FileAckValue :=
  file_ack transfer_id Ack next_offset 0 NoError.
Definition file_ack_reject (transfer_id : u32) (error : FileAckError) : FileAckValue :=
  file_ack transfer_id Reject 0 0 error.

(** * Cap'n Proto *)

(** The values a [file_req::Builder] is given by its setters. *)
Record file_req_root := {
  set_transfer_id : u32;
  set_total_len : u32;
  set_file_metadata : bytes;
  set_sender_max_chunk_size : u32;
  set_file_hash_algo : FileHashAlgo;
  set_file_hash : bytes;
}.

(** What the getters of a reader return: an enum out of the schema and a
    broken data pointer are [None]. *)
Record file_req_reader := {
  req_get_transfer_id : u32;
  req_get_total_len : u32;
  req_get_sender_max_chunk_size : u32;
  req_get_file_metadata : option bytes;
  req_get_file_hash_algo : option FileHashAlgo;
  req_get_file_hash : option bytes;
}.
Record file_chunk_reader := {
  chunk_get_transfer_id : u32;
  chunk_get_offset : u32;
  chunk_get_data : option bytes;
}.
Record file_ack_reader := {
  ack_get_transfer_id : u32;
  ack_get_kind : option FileAckKind;
  ack_get_next_offset : u32;
  ack_get_chunk_size : u32;
  ack_get_error : option FileAckError;
}.

(** The capnp crate.  [build_x v buf] is [Builder::new(SingleSegmentAllocator
    ::new(buf))] followed by [init_root] and the setters: it panics ([None])
    or gives the segments for output and the content of [buf] while the
    message lives.  [release] is the content of [buf] once the message is
    dropped.  [read_x] is [CapnpTyped::new(body).with_root], which returns the
    reader or an error. *)
Class Capnp (CapnpError : Type) := {
  build_file_req : file_req_root -> bytes -> option (list bytes * bytes);
  build_file_chunk : FileChunkValue -> bytes -> option (list bytes * bytes);
  build_file_ack : FileAckValue -> bytes -> option (list bytes * bytes);
  release : bytes -> bytes;
  read_file_req : bytes -> file_req_reader + CapnpError;
  read_file_chunk : bytes -> file_chunk_reader + CapnpError;
  read_file_ack : bytes -> file_ack_reader + CapnpError;
}.

(** Encoded sizes by the Cap'n Proto layout rules: one word for the root
    pointer, the data section and the pointer section of the struct, then
    each [Data] field padded to words. *)
Definition words_len (n : nat) : nat := 8 * div_ceil n 8.
Lemma words_len_le n : n <= words_len n.
Proof. unfold words_len. pose proof (div_ceil_spec n 8 ltac:(lia)). lia. Qed.
Definition file_req_size (v : file_req_root) : nat :=
  8 + (16 + 16) + words_len (length (set_file_metadata v)) + words_len (length (set_file_hash v)).
Definition file_chunk_size (v : FileChunkValue) : nat :=
  8 + (8 + 8) + words_len (length (chunk_data v)).
Definition file_ack_size (v : FileAckValue) : nat := 8 + 16.

(** The values the fields can carry: the crate counts the bytes of a [Data]
    field in a [u32]. *)
Definition req_typed (v : file_req_root) : Prop :=
  is_u32 (set_transfer_id v) /\ is_u32 (set_total_len v) /\ is_u32 (set_sender_max_chunk_size v) /\
  is_u32 (Z.of_nat (length (set_file_metadata v))) /\ is_u32 (Z.of_nat (length (set_file_hash v))).
Definition chunk_typed (v : FileChunkValue) : Prop :=
  is_u32 (chunk_transfer_id v) /\ is_u32 (chunk_offset v) /\ is_u32 (Z.of_nat (length (chunk_data v))).

(** The messages a reader with default options takes: its traversal limit is
    8 Mi words, 64 MiB, which is also far below the 2^29 - 1 elements a list of
    Cap'n Proto can have. *)
Definition READER_LIMIT : Z := (8 * (8 * 1024 * 1024))%Z.
Definition req_fits (v : file_req_root) : Prop :=
  req_typed v /\ (Z.of_nat (file_req_size v) <= READER_LIMIT)%Z.
Definition chunk_fits (v : FileChunkValue) : Prop :=
  chunk_typed v /\ (Z.of_nat (file_chunk_size v) <= READER_LIMIT)%Z.
(** The data of a chunk message within the limit: 24 bytes go to the root
    pointer and the struct. *)
Definition MAX_CHUNK_DATA : Z := (READER_LIMIT - 24)%Z.
Definition ack_fits (v : FileAckValue) : Prop :=
  is_u32 (ack_transfer_id v) /\ is_u32 (ack_next_offset v) /\ is_u32 (ack_chunk_size v).

Lemma chunk_within v :
  chunk_typed v -> (Z.of_nat (length (chunk_data v)) <= MAX_CHUNK_DATA)%Z -> chunk_fits v.
Proof.
  intros Hv Hn. split; [done|]. unfold file_chunk_size, words_len, MAX_CHUNK_DATA, READER_LIMIT in *.
  pose proof (div_ceil_spec (length (chunk_data v)) 8 ltac:(lia)). lia.
Qed.

(** What a reader of a message built from [v] returns. *)
Definition req_view (v : file_req_root) : file_req_reader :=
  {| req_get_transfer_id := set_transfer_id v; req_get_total_len := set_total_len v;
     req_get_sender_max_chunk_size := set_sender_max_chunk_size v;
     req_get_file_metadata := Some (set_file_metadata v);
     req_get_file_hash_algo := Some (set_file_hash_algo v);
     req_get_file_hash := Some (set_file_hash v) |}.
Definition chunk_view (v : FileChunkValue) : file_chunk_reader :=
  {| chunk_get_transfer_id := chunk_transfer_id v; chunk_get_offset := chunk_offset v;
     chunk_get_data := Some (chunk_data v) |}.
Definition ack_view (v : FileAckValue) : file_ack_reader :=
  {| ack_get_transfer_id := ack_transfer_id v; ack_get_kind := Some (ack_kind v);
     ack_get_next_offset := ack_next_offset v; ack_get_chunk_size := ack_chunk_size v;
     ack_get_error := Some (ack_error v) |}.

(** [builds build size v]: in a buffer of at least [size] bytes the builder
    makes one segment of [size] bytes, the same for every buffer, at the
    front of the buffer. *)
Definition builds {V} (build : V -> bytes -> option (list bytes * bytes)) (size : nat) (v : V)
    (seg : bytes) : Prop :=
  length seg = size /\
  forall buf, size <= length buf ->
    exists rest, build v buf = Some ([seg], seg ++ rest) /\ length (seg ++ rest) = length buf.

(** [faithful build read view v]: a segment built from [v] is read as [v], or
    not at all. *)
Definition faithful {V R E} (build : V -> bytes -> option (list bytes * bytes)) (read : bytes -> R + E)
    (view : V -> R) (v : V) : Prop :=
  forall buf seg live root, build v buf = Some ([seg], live) -> read seg = inl root -> root = view v.

(** Within the limit messages are built and read.  Beyond it nothing is
    promised but that a message is not read as another one: the builder panics
    on a list whose length does not fit the 29-bit count of its pointer, and
    the reader returns an error when its traversal limit is exceeded. *)
Class CapnpLaws (CapnpError : Type) `{Capnp CapnpError} := {
  file_req_faithful : forall v, req_typed v -> faithful build_file_req read_file_req req_view v;
  file_chunk_faithful : forall v, chunk_typed v -> faithful build_file_chunk read_file_chunk chunk_view v;
  build_file_req_law : forall v, req_fits v -> exists seg,
    builds build_file_req (file_req_size v) v seg /\ read_file_req seg = inl (req_view v);
  build_file_chunk_law : forall v, chunk_fits v -> exists seg,
    builds build_file_chunk (file_chunk_size v) v seg /\ read_file_chunk seg = inl (chunk_view v);
  build_file_ack_law : forall v, ack_fits v -> exists seg,
    builds build_file_ack (file_ack_size v) v seg /\ read_file_ack seg = inl (ack_view v);
  release_length : forall buf, length (release buf) = length buf;
}.

(** What the Rust types of the getters say. *)
Class CapnpReadsU32 (CapnpError : Type) `{Capnp CapnpError} :=
  read_file_req_u32 : forall body root, read_file_req body = inl root ->
    is_u32 (req_get_transfer_id root) /\ is_u32 (req_get_total_len root) /\
    is_u32 (req_get_sender_max_chunk_size root).

(** * Encoders *)

Section encoders.
Context {CapnpError : Type} `{Capnp CapnpError}.

(** [words.resize(min_words, word(0, ..))] when the scratch is shorter; the
    scratch is kept as its bytes, eight per word. *)
Definition resize_words (min_words : nat) (words : bytes) : bytes :=
  if length words / 8 <? min_words
  then words ++ replicate (8 * (min_words - length words / 8)) 0%Z else words.

(** Run [f] on the first [min_len] bytes of a scratch; the state of [f] is the
    scratch slice it gets and the caller's [out]. *)
Definition with_scratch_prefix {R E} (min_len : nat) (f : M (bytes * bytes) E R) :
    M (bytes * bytes) E R := fun '(words, out) =>
  match slice words 0 min_len with
  | None => (Panic, (words, out))
  | Some sub =>
      let '(r, (sub', out')) := f (sub, out) in
      match copy_at words 0 sub' with
      | None => (Panic, (words, out'))
      | Some words' => (r, (words', out'))
      end
  end.

(** [with_capnp_scratch_bytes] with [std]: the state holds the thread-local
    [CAPNP_SCRATCH]. *)
Definition with_capnp_scratch_bytes {R E} (min_len : nat) (f : M (bytes * bytes) E R) :
    M (bytes * bytes) E R := fun '(words, out) =>
  let min_words := div_ceil min_len 8 in
  with_scratch_prefix min_len f (resize_words min_words words, out).

(** [with_capnp_scratch_bytes] without [std]: a new vector per call. *)
Definition with_capnp_scratch_bytes_nostd {R E} (min_len : nat) (f : M (bytes * bytes) E R) :
    M bytes E R := fun out =>
  let min_words := div_ceil min_len 8 in
  let '(r, (_, out')) := with_scratch_prefix min_len f (resize_words min_words [], out) in
  (r, out').

(** The body the encoders share: build the message in the scratch, check the
    segments, copy the bytes out; the message is dropped at the end. *)
Definition encode_segments {V} (build : V -> bytes -> option (list bytes * bytes)) (v : V)
    (max_len : nat) : M (bytes * bytes) Error nat := fun '(scratch, out) =>
  match build v scratch with
  | None => (Panic, (scratch, out))
  | Some (segments, live) =>
      let dropped := release live in
      match segments with
      | [bytes] =>
          if max_len <? length bytes then (Err other_error, (dropped, out))
          else match copy_at out 0 bytes with
               | None => (Panic, (dropped, out))
               | Some out' => (Ok (length bytes), (dropped, out'))
               end
      | _ => (Err other_error, (dropped, out))
      end
  end.

(** The guard and the scratch of the [alloc] encoders; the state is the
    thread-local scratch and [out]. *)
Definition encode_alloc {V} (build : V -> bytes -> option (list bytes * bytes)) (v : V)
    (max_len : nat) : M (bytes * bytes) Error nat := fun '(words, out) =>
  if length out <? max_len then (Err other_error, (words, out))
  else with_capnp_scratch_bytes max_len (encode_segments build v max_len) (words, out).

Definition encode_alloc_nostd {V} (build : V -> bytes -> option (list bytes * bytes)) (v : V)
    (max_len : nat) : M bytes Error nat := fun out =>
  if length out <? max_len then (Err other_error, out)
  else with_capnp_scratch_bytes_nostd max_len (encode_segments build v max_len) out.

(** What each value sets on its root. *)
Definition req_root (v : FileReqValue) : file_req_root :=
  {| set_transfer_id := req_transfer_id v; set_total_len := req_total_len v;
     set_file_metadata := []; set_sender_max_chunk_size := 0;
     set_file_hash_algo := Sha256; set_file_hash := [] |}.
Definition offer_root (v : FileOfferValue) : file_req_root :=
  {| set_transfer_id := offer_transfer_id v; set_total_len := offer_total_len v;
     set_file_metadata := offer_file_metadata v;
     set_sender_max_chunk_size := offer_sender_max_chunk_size v;
     set_file_hash_algo := offer_file_hash_algo v; set_file_hash := offer_file_hash v |}.

(** [max_encoded_len] of each value. *)
Definition req_max_len (v : FileReqValue) : nat := file_req_max_encoded_len.
Definition offer_max_len (v : FileOfferValue) : nat :=
  file_offer_max_encoded_len (length (offer_file_metadata v)) (length (offer_file_hash v)).
Definition chunk_max_len (v : FileChunkValue) : nat :=
  file_chunk_max_encoded_len (length (chunk_data v)).
Definition ack_max_len (v : FileAckValue) : nat := file_ack_max_encoded_len.

(** [alloc_encode.rs]: [EncodeCapnp::encode] of the four values. *)
Definition FileReqValue_encode (v : FileReqValue) : M (bytes * bytes) Error nat :=
  encode_alloc build_file_req (req_root v) (req_max_len v).
Definition FileOfferValue_encode (v : FileOfferValue) : M (bytes * bytes) Error nat :=
  encode_alloc build_file_req (offer_root v) (offer_max_len v).
Definition FileChunkValue_encode (v : FileChunkValue) : M (bytes * bytes) Error nat :=
  encode_alloc build_file_chunk v (chunk_max_len v).
Definition FileAckValue_encode (v : FileAckValue) : M (bytes * bytes) Error nat :=
  encode_alloc build_file_ack v (ack_max_len v).

(** [heapless_encode.rs]: [CapnpScratch<WORDS>], its words as bytes. *)
Record CapnpScratch := { words : bytes }.
Definition CapnpScratch_new : CapnpScratch := {| words := [] |}.

(** [while self.words.len() < min_words { self.words.push(word)?; }]; each
    round adds a word, so [min_words] rounds are enough. *)
Fixpoint push_words (WORDS min_words fuel : nat) : M bytes Error unit := fun w =>
  if length w / 8 <? min_words then
    match fuel with
    | O => (Panic, w)
    | S fuel' =>
        if length w / 8 <? WORDS
        then push_words WORDS min_words fuel' (w ++ replicate 8 0%Z)
        else (Err other_error, w)
    end
  else (Ok tt, w).

Definition with_bytes {R} (WORDS min_len : nat) (f : M (bytes * bytes) Error R) :
    M (CapnpScratch * bytes) Error R := fun '(s, out) =>
  let min_words := capnp_scratch_words_for_bytes min_len in
  if WORDS <? min_words then (Err other_error, (s, out))
  else match push_words WORDS min_words min_words (words s) with
       | (Err e, w) => (Err e, ({| words := w |}, out))
       | (Panic, w) => (Panic, ({| words := w |}, out))
       | (Ok _, w) =>
           let '(r, (w', out')) := with_scratch_prefix min_len f (w, out) in
           (r, ({| words := w' |}, out'))
       end.

Definition encode_heapless {V} (WORDS : nat) (build : V -> bytes -> option (list bytes * bytes))
    (v : V) (max_len : nat) : M (CapnpScratch * bytes) Error nat := fun '(s, out) =>
  if length out <? max_len then (Err other_error, (s, out))
  else with_bytes WORDS max_len (encode_segments build v max_len) (s, out).

Definition encode_file_offer_into (WORDS : nat) (transfer_id total_len sender_max_chunk_size : u32)
    (metadata : bytes) (file_hash_algo : FileHashAlgo) (file_hash : bytes) :
    M (CapnpScratch * bytes) Error nat :=
  let max_len := file_offer_max_encoded_len (length metadata) (length file_hash) in
  encode_heapless WORDS build_file_req
    {| set_transfer_id := transfer_id; set_total_len := total_len;
       set_file_metadata := metadata; set_sender_max_chunk_size := sender_max_chunk_size;
       set_file_hash_algo := file_hash_algo; set_file_hash := file_hash |} max_len.

Definition encode_file_chunk_into (WORDS : nat) (transfer_id offset : u32) (data : bytes) :
    M (CapnpScratch * bytes) Error nat :=
  let max_len := file_chunk_max_encoded_len (length data) in
  encode_heapless WORDS build_file_chunk
    {| chunk_transfer_id := transfer_id; chunk_offset := offset; chunk_data := data |} max_len.

Definition encode_file_ack_into (WORDS : nat) (transfer_id : u32) (k : FileAckKind)
    (next_offset chunk_size : u32) (error : FileAckError) : M (CapnpScratch * bytes) Error nat :=
  let max_len := file_ack_max_encoded_len in
  encode_heapless WORDS build_file_ack
    {| ack_transfer_id := transfer_id; ack_kind := k; ack_next_offset := next_offset;
       ack_chunk_size := chunk_size; ack_error := error |} max_len.

(** The in-place encoder of the no-alloc build: the message is built in [out]
    itself and forgotten, so that its bytes stay; on the error exits it is
    dropped. *)
Definition encode_segmented_root {V} (build : V -> bytes -> option (list bytes * bytes)) (v : V)
    (max_len : nat) : M bytes Error nat := fun out =>
  if length out <? max_len then (Err other_error, out)
  else match build v (take max_len out) with
       | None => (Panic, out)
       | Some (segments, live) =>
           let dropped := release live ++ drop max_len out in
           match segments with
           | [bytes] =>
               if max_len <? length bytes then (Err other_error, dropped)
               else (Ok (length bytes), live ++ drop max_len out)
           | _ => (Err other_error, dropped)
           end
       end.

Definition FileReqValue_encode_in_place (v : FileReqValue) : M bytes Error nat :=
  encode_segmented_root build_file_req (req_root v) (req_max_len v).
Definition FileOfferValue_encode_in_place (v : FileOfferValue) : M bytes Error nat :=
  encode_segmented_root build_file_req (offer_root v) (offer_max_len v).
Definition FileChunkValue_encode_in_place (v : FileChunkValue) : M bytes Error nat :=
  encode_segmented_root build_file_chunk v (chunk_max_len v).
Definition FileAckValue_encode_in_place (v : FileAckValue) : M bytes Error nat :=
  encode_segmented_root build_file_ack v (ack_max_len v).

(** * Decoders *)

(** [with_root(..).map_err(|_| e)?]. *)
Definition with_root {R E} (e : E) (r : R + CapnpError) : result R E :=
  match r with inl root => Ok root | inr _ => Err e end.

(** [decode_file_ack_fields]. *)
Definition decode_file_ack_fields (body : bytes) :
    result (u32 * FileAckKind * u32 * u32 * FileAckError) Error :=
  let? root := with_root other_error (read_file_ack body) in
  let? k := ok_or (ack_get_kind root) other_error in
  let? error := ok_or (ack_get_error root) other_error in
  Ok (ack_get_transfer_id root, k, ack_get_next_offset root, ack_get_chunk_size root, error).

(** [decode_file_ack]; the struct [Ack] has the fields of a [FileAckValue]. *)
Definition decode_file_ack (body : bytes) : result FileAckValue Error :=
  let? root := with_root other_error (read_file_ack body) in
  let? k := ok_or (ack_get_kind root) other_error in
  let? error := ok_or (ack_get_error root) other_error in
  Ok {| ack_transfer_id := ack_get_transfer_id root; ack_kind := k;
        ack_next_offset := ack_get_next_offset root; ack_chunk_size := ack_get_chunk_size root;
        ack_error := error |}.

(** [chunk_transfer_id]. *)
Definition read_chunk_transfer_id (body : bytes) : result u32 Error :=
  let? root := with_root other_error (read_file_chunk body) in
  Ok (chunk_get_transfer_id root).
End encoders.

(** * Sizes *)

Lemma capnp_padded_len_words n : capnp_padded_len n = words_len n.
Proof.
  unfold capnp_padded_len, words_len, div_ceil.
  rewrite <- Z.ldiff_land. change 7%Z with (Z.ones 3) at 2.
  rewrite Z.ldiff_ones_r, Z.shiftl_mul_pow2, Z.shiftr_div_pow2 by lia.
  change (2 ^ 3)%Z with 8%Z. replace (n + 8 - 1) with (n + 7) by lia.
  pose proof (Nat2Z.inj_div (n + 7) 8). lia.
Qed.

Lemma req_size_le v : file_req_size (req_root v) <= req_max_len v.
Proof. reflexivity. Qed.
Lemma offer_size_le v : file_req_size (offer_root v) <= offer_max_len v.
Proof.
  unfold file_req_size, offer_max_len, file_offer_max_encoded_len.
  rewrite !capnp_padded_len_words. simpl. lia.
Qed.
Lemma chunk_size_le v : file_chunk_size v <= chunk_max_len v.
Proof.
  unfold file_chunk_size, chunk_max_len, file_chunk_max_encoded_len.
  rewrite capnp_padded_len_words. lia.
Qed.
Lemma ack_size_le v : file_ack_size v <= ack_max_len v.
Proof. reflexivity. Qed.

(** * Encoder lemmas *)

Section encoder_lemmas.
Context {CapnpError : Type} `{HL : CapnpLaws CapnpError}.
Context {V : Type} (build : V -> bytes -> option (list bytes * bytes)) (v : V).

Lemma resize_words_length n w : 8 * n <= length (resize_words n w).
Proof. unfold resize_words. pose proof (Nat.div_mod_eq (length w) 8). case_bool; len. Qed.

Lemma encode_segments_ok size seg max_len scratch out :
  builds build size v seg -> size <= max_len -> max_len <= length scratch ->
  max_len <= length out ->
  exists scratch', length scratch' = length scratch /\
    encode_segments build v max_len (scratch, out) =
      (Ok size, (scratch', seg ++ drop size out)).
Proof.
  intros [Hseg Hb] Hmax Hs Ho. destruct (Hb scratch) as (rest & Hbuild & Hl); [lia|].
  exists (release (seg ++ rest)). rewrite release_length. split; [done|].
  unfold encode_segments. rewrite Hbuild. case_bool; [lia|].
  rewrite copy_at_Some by lia. simpl. by rewrite Hseg.
Qed.

Lemma with_scratch_prefix_ok size seg max_len w out :
  builds build size v seg -> size <= max_len -> max_len <= length w -> max_len <= length out ->
  exists w', length w' = length w /\
    with_scratch_prefix max_len (encode_segments build v max_len) (w, out) =
      (Ok size, (w', seg ++ drop size out)).
Proof.
  intros Hb Hmax Hw Ho. unfold with_scratch_prefix. rewrite slice_to_Some by done.
  destruct (encode_segments_ok size seg max_len (take max_len w) out) as (s' & Hl & ->);
    [done|done|len..|].
  rewrite length_take in Hl. rewrite copy_at_Some by lia. eexists. split; [|reflexivity]. len.
Qed.

Lemma push_words_ok WORDS n fuel w :
  n <= WORDS -> n - length w / 8 <= fuel ->
  exists w', push_words WORDS n fuel w = (Ok tt, w') /\ 8 * n <= length w'.
Proof.
  intros Hn. revert w. induction fuel as [|fuel IH]; intros w Hf; cbn [push_words];
    pose proof (Nat.div_mod_eq (length w) 8); pose proof (Nat.mod_upper_bound (length w) 8);
    repeat case_bool; try lia; try (eexists; split; [done|lia]).
  apply IH. rewrite length_app, length_replicate.
  replace (length w + 8) with (length w + 1 * 8) by lia. rewrite Nat.div_add by lia. lia.
Qed.

(** The four ways to encode [v] give the same bytes [seg] at the front of
    [out]; [size] is what they return. *)
Lemma encoders_ok size seg max_len WORDS words0 s out :
  builds build size v seg -> size <= max_len -> max_len <= length out ->
  capnp_scratch_words_for_bytes max_len <= WORDS ->
  (exists w', encode_alloc build v max_len (words0, out) = (Ok size, (w', seg ++ drop size out))) /\
  encode_alloc_nostd build v max_len out = (Ok size, seg ++ drop size out) /\
  (exists s', encode_heapless WORDS build v max_len (s, out) = (Ok size, (s', seg ++ drop size out))) /\
  (exists rest, encode_segmented_root build v max_len out = (Ok size, seg ++ rest) /\
     length (seg ++ rest) = length out).
Proof.
  intros Hb Hmax Ho HW.
  pose proof (div_ceil_spec max_len 8 ltac:(lia)) as Hc.
  unfold encode_alloc, encode_alloc_nostd, encode_heapless, encode_segmented_root,
    with_capnp_scratch_bytes, with_capnp_scratch_bytes_nostd, with_bytes,
    capnp_scratch_words_for_bytes in *.
  destruct (Nat.ltb_spec (length out) max_len); [lia|].
  destruct (Nat.ltb_spec WORDS (div_ceil max_len 8)); [lia|]. split_and!.
  - destruct (with_scratch_prefix_ok size seg max_len (resize_words (div_ceil max_len 8) words0) out)
      as (w' & _ & ->); eauto. pose proof (resize_words_length (div_ceil max_len 8) words0). lia.
  - destruct (with_scratch_prefix_ok size seg max_len (resize_words (div_ceil max_len 8) []) out)
      as (w' & _ & ->); eauto. pose proof (resize_words_length (div_ceil max_len 8) []). lia.
  - destruct (push_words_ok WORDS (div_ceil max_len 8) (div_ceil max_len 8) (words s))
      as (w & -> & Hw); [lia..|].
    destruct (with_scratch_prefix_ok size seg max_len w out) as (w' & _ & ->); [done|lia..|]. eauto.
  - destruct Hb as [Hseg Hb]. destruct (Hb (take max_len out)) as (rest & -> & Hl); [len|].
    destruct (Nat.ltb_spec max_len (length seg)); [lia|]. rewrite Hseg, <- app_assoc.
    eexists. split; [done|]. rewrite app_assoc, length_app, Hl. len.
Qed.
End encoder_lemmas.

(** An encoder call returned the length of [seg] and left [seg] in front of
    [out], of unchanged length. *)
Definition wrote (seg out : bytes) (r : result nat Error) (out' : bytes) : Prop :=
  r = Ok (length seg) /\ take (length seg) out' = seg /\ length out' = length out.

Section encoder_theorems.
Context {CapnpError : Type} `{HL : CapnpLaws CapnpError}.

(** What the heap, fixed-scratch and in-place encoders of a value do,
    whatever the scratch holds. *)
Definition encoders_agree (alloc : M (bytes * bytes) Error nat)
    (heapless : nat -> M (CapnpScratch * bytes) Error nat) (in_place : M bytes Error nat)
    (max_len : nat) (seg : bytes) : Prop :=
  length seg <= max_len /\
  forall out words0 s WORDS,
    (max_len <= length out ->
      (let '(r, (_, out')) := alloc (words0, out) in wrote seg out r out') /\
      (let '(r, out') := in_place out in wrote seg out r out') /\
      (capnp_scratch_words_for_bytes max_len <= WORDS ->
       let '(r, (_, out')) := heapless WORDS (s, out) in wrote seg out r out')) /\
    (length out < max_len ->
      alloc (words0, out) = (Err other_error, (words0, out)) /\
      in_place out = (Err other_error, out) /\
      heapless WORDS (s, out) = (Err other_error, (s, out))).

Lemma encoders_agree_build {V} (build : V -> bytes -> option (list bytes * bytes)) v size seg max_len :
  builds build size v seg -> size <= max_len ->
  encoders_agree (encode_alloc build v max_len) (fun WORDS => encode_heapless WORDS build v max_len)
    (encode_segmented_root build v max_len) max_len seg.
Proof.
  intros Hb Hmax. assert (Hseg : length seg = size) by apply Hb. split; [lia|].
  assert (Hw : forall out, max_len <= length out -> wrote seg out (Ok size) (seg ++ drop size out)).
  { intros out Ho. split_and!; [by rewrite Hseg| |len]. by rewrite take_app_length. }
  intros out words0 s WORDS. split; intros Ho.
  - destruct (encoders_ok build v size seg max_len (capnp_scratch_words_for_bytes max_len) words0 s out
      Hb Hmax Ho ltac:(lia)) as ((w' & ->) & _ & _ & (rest & -> & Hrest)).
    split_and!; [by apply Hw| |].
    + split_and!; [by rewrite Hseg|by rewrite take_app_length|done].
    + intros HW. destruct (encoders_ok build v size seg max_len WORDS words0 s out Hb Hmax Ho HW)
        as (_ & _ & (s' & ->) & _). by apply Hw.
  - unfold encode_alloc, encode_heapless, encode_segmented_root. by case_bool; [|lia].
Qed.

(** Every encoder of a file offer (heap scratch, fixed scratch, in place)
    writes the same bytes into an output of at least the announced
    [file_offer_max_encoded_len] bytes, whatever its scratch held before, stays
    within that bound, refuses a shorter output without touching it, and the
    bytes read back as the offer. *)
Theorem offer_encoders_agree (v : FileOfferValue) :
  req_fits (offer_root v) ->
  exists seg,
    read_file_req seg = inl (req_view (offer_root v)) /\
    encoders_agree (FileOfferValue_encode v)
      (fun WORDS => encode_file_offer_into WORDS (offer_transfer_id v) (offer_total_len v)
         (offer_sender_max_chunk_size v) (offer_file_metadata v) (offer_file_hash_algo v)
         (offer_file_hash v))
      (FileOfferValue_encode_in_place v) (offer_max_len v) seg.
Proof.
  intros Hv. destruct (build_file_req_law _ Hv) as (seg & Hb & Hr). exists seg. split; [done|].
  eapply encoders_agree_build; [apply Hb | apply offer_size_le].
Qed.

(** Every encoder of a file chunk (heap scratch, fixed scratch, in place)
    writes the same bytes into an output of at least the announced
    [file_chunk_max_encoded_len] bytes, whatever its scratch held before, stays
    within that bound, refuses a shorter output without touching it, and the
    bytes read back as the chunk. *)
Theorem chunk_encoders_agree (v : FileChunkValue) :
  chunk_fits v ->
  exists seg,
    read_file_chunk seg = inl (chunk_view v) /\
    encoders_agree (FileChunkValue_encode v)
      (fun WORDS => encode_file_chunk_into WORDS (chunk_transfer_id v) (chunk_offset v) (chunk_data v))
      (FileChunkValue_encode_in_place v) (chunk_max_len v) seg.
Proof.
  intros Hv. destruct (build_file_chunk_law _ Hv) as (seg & Hb & Hr). exists seg. split; [done|].
  destruct v. eapply encoders_agree_build; [apply Hb | apply chunk_size_le].
Qed.

(** Every encoder of a file ack writes the same bytes, and both decoders
    give the ack back. *)
Theorem ack_encode_decode (v : FileAckValue) :
  ack_fits v ->
  exists seg,
    decode_file_ack seg = Ok v /\
    decode_file_ack_fields seg =
      Ok (ack_transfer_id v, ack_kind v, ack_next_offset v, ack_chunk_size v, ack_error v) /\
    encoders_agree (FileAckValue_encode v)
      (fun WORDS => encode_file_ack_into WORDS (ack_transfer_id v) (ack_kind v) (ack_next_offset v)
         (ack_chunk_size v) (ack_error v))
      (FileAckValue_encode_in_place v) (ack_max_len v) seg.
Proof.
  intros Hv. destruct (build_file_ack_law _ Hv) as (seg & Hb & Hr). exists seg.
  unfold decode_file_ack, decode_file_ack_fields. rewrite Hr. destruct v. split_and!; [done..|].
  eapply encoders_agree_build; [apply Hb | apply ack_size_le].
Qed.
End encoder_theorems.

(** * The values on the bus *)

(** The values implement the trait the bus sends with. *)
Section instances.
Context {CapnpError : Type} `{Capnp CapnpError}.

Global Instance FileReqValue_EncodeCapnp : EncodeCapnp FileReqValue := {
  max_encoded_len := req_max_len;
  encode v := encode_alloc_nostd build_file_req (req_root v) (req_max_len v);
}.
Global Instance FileOfferValue_EncodeCapnp : EncodeCapnp FileOfferValue := {
  max_encoded_len := offer_max_len;
  encode v := encode_alloc_nostd build_file_req (offer_root v) (offer_max_len v);
}.
Global Instance FileChunkValue_EncodeCapnp : EncodeCapnp FileChunkValue := {
  max_encoded_len := chunk_max_len;
  encode v := encode_alloc_nostd build_file_chunk v (chunk_max_len v);
}.
Global Instance FileAckValue_EncodeCapnp : EncodeCapnp FileAckValue := {
  max_encoded_len := ack_max_len;
  encode v := encode_alloc_nostd build_file_ack v (ack_max_len v);
}.

Lemma encode_alloc_nostd_length {V} (build : V -> bytes -> option (list bytes * bytes)) v n out :
  length (encode_alloc_nostd build v n out).2 = length out.
Proof.
  unfold encode_alloc_nostd, with_capnp_scratch_bytes_nostd, with_scratch_prefix, encode_segments.
  cases; try done; by match goal with E : copy_at out _ _ = Some _ |- _ => apply copy_at_length in E end.
Qed.

Global Instance FileReqValue_keeps : EncodeKeepsLength FileReqValue.
Proof. intros v out. apply encode_alloc_nostd_length. Qed.
Global Instance FileOfferValue_keeps : EncodeKeepsLength FileOfferValue.
Proof. intros v out. apply encode_alloc_nostd_length. Qed.
Global Instance FileChunkValue_keeps : EncodeKeepsLength FileChunkValue.
Proof. intros v out. apply encode_alloc_nostd_length. Qed.
Global Instance FileAckValue_keeps : EncodeKeepsLength FileAckValue.
Proof. intros v out. apply encode_alloc_nostd_length. Qed.
End instances.

(** * A concrete codec

    A fixed layout with the sizes of the schema, to show that the laws of
    [Capnp] can hold: it stands for the crate in the concrete runs. *)
Module FixedLayout.
Definition field (n off : nat) (b : bytes) : Z :=
  wrap (8 * Z.of_nat n) (from_le_bytes (take n (drop off b))).
Definition padded (d : bytes) : bytes := d ++ replicate (words_len (length d) - length d) 0%Z.

Definition kind_code (k : FileAckKind) : Z :=
  match k with Accept => 0 | Ack => 1 | Reject => 2 | Complete => 3 | Abort => 4 end.
Definition code_kind (z : Z) : option FileAckKind :=
  [Accept; Ack; Reject; Complete; Abort] !! Z.to_nat z.
Definition error_code (e : FileAckError) : Z :=
  match e with
  | NoError => 0 | InvalidRequest => 1 | ChunkSizeTooLarge => 2 | ChunkSizeTooSmall => 3
  | HashMissing => 4 | HashInvalidLength => 5 | HashAlgoUnsupported => 6 | HashMismatch => 7
  end.
Definition code_error (z : Z) : option FileAckError :=
  [NoError; InvalidRequest; ChunkSizeTooLarge; ChunkSizeTooSmall; HashMissing;
   HashInvalidLength; HashAlgoUnsupported; HashMismatch] !! Z.to_nat z.

Definition req_seg (v : file_req_root) : bytes :=
  to_le_bytes 8 0 ++ to_le_bytes 4 (set_transfer_id v) ++ to_le_bytes 4 (set_total_len v) ++
  to_le_bytes 4 (set_sender_max_chunk_size v) ++ to_le_bytes 4 0 ++
  to_le_bytes 8 (Z.of_nat (length (set_file_metadata v))) ++
  to_le_bytes 8 (Z.of_nat (length (set_file_hash v))) ++
  padded (set_file_metadata v) ++ padded (set_file_hash v).
Definition chunk_seg (v : FileChunkValue) : bytes :=
  to_le_bytes 8 0 ++ to_le_bytes 4 (chunk_transfer_id v) ++ to_le_bytes 4 (chunk_offset v) ++
  to_le_bytes 8 (Z.of_nat (length (chunk_data v))) ++ padded (chunk_data v).
Definition ack_seg (v : FileAckValue) : bytes :=
  to_le_bytes 8 0 ++ to_le_bytes 4 (ack_transfer_id v) ++ to_le_bytes 2 (kind_code (ack_kind v)) ++
  to_le_bytes 2 (error_code (ack_error v)) ++ to_le_bytes 4 (ack_next_offset v) ++
  to_le_bytes 4 (ack_chunk_size v).

Definition build {V} (seg : V -> bytes) (v : V) (buf : bytes) : option (list bytes * bytes) :=
  if (length buf <? length (seg v)) || (READER_LIMIT <? Z.of_nat (length (seg v)))%Z then None
  else Some ([seg v], seg v ++ drop (length (seg v)) buf).

Definition read_req (b : bytes) : file_req_reader + unit :=
  if length b <? 40 then inr ()
  else
    let md := Z.to_nat (field 8 24 b) in
    let h := Z.to_nat (field 8 32 b) in
    inl {| req_get_transfer_id := field 4 8 b; req_get_total_len := field 4 12 b;
          req_get_sender_max_chunk_size := field 4 16 b;
          req_get_file_metadata := slice b 40 (40 + md);
          req_get_file_hash_algo := if (field 4 20 b =? 0)%Z then Some Sha256 else None;
          req_get_file_hash := slice b (40 + words_len md) (40 + words_len md + h) |}.
Definition read_chunk (b : bytes) : file_chunk_reader + unit :=
  if length b <? 24 then inr ()
  else inl {| chunk_get_transfer_id := field 4 8 b; chunk_get_offset := field 4 12 b;
             chunk_get_data := slice b 24 (24 + Z.to_nat (field 8 16 b)) |}.
Definition read_ack (b : bytes) : file_ack_reader + unit :=
  if length b <? 24 then inr ()
  else inl {| ack_get_transfer_id := field 4 8 b; ack_get_kind := code_kind (field 2 12 b);
             ack_get_next_offset := field 4 16 b; ack_get_chunk_size := field 4 20 b;
             ack_get_error := code_error (field 2 14 b) |}.

Global Instance codec : Capnp unit := {
  build_file_req := build req_seg;
  build_file_chunk := build chunk_seg;
  build_file_ack := build ack_seg;
  release buf := replicate (length buf) 0%Z;
  read_file_req := read_req;
  read_file_chunk := read_chunk;
  read_file_ack := read_ack;
}.

Lemma build_builds {V} (seg : V -> bytes) v n :
  length (seg v) = n -> (Z.of_nat n <= READER_LIMIT)%Z -> builds (build seg) n v (seg v).
Proof.
  intros <- Hn. split; [done|]. intros buf Hbuf. unfold build.
  destruct (Nat.ltb_spec (length buf) (length (seg v))); [lia|].
  destruct (Z.ltb_spec READER_LIMIT (Z.of_nat (length (seg v)))); [lia|].
  eexists. split; [done|]. len.
Qed.
Lemma build_faithful {V R} (seg : V -> bytes) (read : bytes -> R + unit) view v :
  ((Z.of_nat (length (seg v)) <= READER_LIMIT)%Z -> read (seg v) = inl (view v)) -> faithful (build seg) read view v.
Proof.
  intros Hv buf s live root Hb Hr. unfold build in Hb. destruct (_ <? _); [done|].
  destruct (Z.ltb_spec READER_LIMIT (Z.of_nat (length (seg v)))); [done|]. injection Hb as <- _.
  rewrite Hv in Hr by done. by injection Hr as <-.
Qed.

Lemma field_skip n off l1 l2 :
  length l1 <= off -> field n off (l1 ++ l2) = field n (off - length l1) l2.
Proof. intros H. unfold field. by rewrite drop_app_ge. Qed.

Lemma field_here n z l : in_width (8 * Z.of_nat n) z -> field n 0 (to_le_bytes n z ++ l) = z.
Proof.
  intros Hz. unfold field. rewrite drop_0, take_app_length' by (by rewrite length_to_le_bytes).
  rewrite from_to_le_bytes_small by done. by apply wrap_small.
Qed.

Lemma padded_length d : length (padded d) = words_len (length d).
Proof.
  unfold padded, words_len. pose proof (div_ceil_spec (length d) 8 ltac:(lia)). len.
Qed.

Lemma slice_padded d l n : n = length d -> slice (padded d ++ l) 0 n = Some d.
Proof. intros ->. unfold padded. rewrite <- app_assoc. by apply (slice_app_mid []). Qed.

Lemma in_width_mono w w' z : (w <= w')%Z -> in_width w z -> in_width w' z.
Proof. intros. unfold in_width in *. pose proof (Z.pow_le_mono_r 2 w w'). lia. Qed.

Lemma kind_code_inv k : code_kind (kind_code k) = Some k.
Proof. by destruct k. Qed.
Lemma error_code_inv e : code_error (error_code e) = Some e.
Proof. by destruct e. Qed.

(** Read the fields of a segment one after the other. *)
Ltac fields :=
  repeat (rewrite field_skip by (rewrite length_to_le_bytes; simpl; lia);
          rewrite ?length_to_le_bytes; simpl Nat.sub);
  first [rewrite field_here by (eauto using in_width_mono with lia) | idtac].

Lemma u64_of_limit n : (Z.of_nat n <= READER_LIMIT)%Z -> in_width (8 * Z.of_nat 8) (Z.of_nat n).
Proof. unfold READER_LIMIT, in_width. lia. Qed.

Lemma req_round_trip v : req_fits v -> read_req (req_seg v) = inl (req_view v).
Proof.
  intros ((H1 & H2 & H3 & _) & Hsize). pose proof (words_len_le (length (set_file_metadata v))).
  pose proof (words_len_le (length (set_file_hash v))). unfold file_req_size in Hsize.
  assert (H4 := u64_of_limit (length (set_file_metadata v)) ltac:(lia)).
  assert (H5 := u64_of_limit (length (set_file_hash v)) ltac:(lia)).
  assert (Hf : field 4 8 (req_seg v) = set_transfer_id v /\ field 4 12 (req_seg v) = set_total_len v /\
    field 4 16 (req_seg v) = set_sender_max_chunk_size v /\ field 4 20 (req_seg v) = 0%Z /\
    field 8 24 (req_seg v) = Z.of_nat (length (set_file_metadata v)) /\
    field 8 32 (req_seg v) = Z.of_nat (length (set_file_hash v))).
  { unfold req_seg. split_and!; fields; done. }
  destruct Hf as (E1 & E2 & E3 & E4 & E5 & E6). unfold read_req.
  rewrite (proj2 (Nat.ltb_ge _ _)) by (unfold req_seg; len).
  rewrite E1, E2, E3, E4, E5, E6, !Nat2Z.id. unfold req_view. do 2 f_equal.
  - unfold req_seg. rewrite !slice_skip by (rewrite ?length_to_le_bytes; lia).
    rewrite !length_to_le_bytes. apply slice_padded. lia.
  - by destruct (set_file_hash_algo v).
  - unfold req_seg. rewrite !slice_skip by (rewrite ?length_to_le_bytes, ?padded_length; lia).
    rewrite !length_to_le_bytes, padded_length.
    rewrite <- (app_nil_r (padded (set_file_hash v))).
    replace (40 + _ - 8 - 4 - 4 - 4 - 4 - 8 - 8 - _) with 0 by lia. apply slice_padded. lia.
Qed.

Lemma chunk_round_trip v : chunk_fits v -> read_chunk (chunk_seg v) = inl (chunk_view v).
Proof.
  intros ((H1 & H2 & _) & Hsize). pose proof (words_len_le (length (chunk_data v))). unfold file_chunk_size in Hsize.
  assert (H3 := u64_of_limit (length (chunk_data v)) ltac:(lia)).
  assert (Hf : field 4 8 (chunk_seg v) = chunk_transfer_id v /\
    field 4 12 (chunk_seg v) = chunk_offset v /\
    field 8 16 (chunk_seg v) = Z.of_nat (length (chunk_data v))).
  { unfold chunk_seg. split_and!; fields; done. }
  destruct Hf as (E1 & E2 & E3). unfold read_chunk.
  rewrite (proj2 (Nat.ltb_ge _ _)) by (unfold chunk_seg; len).
  rewrite E1, E2, E3, !Nat2Z.id. unfold chunk_view. do 2 f_equal.
  unfold chunk_seg. rewrite !slice_skip by (rewrite ?length_to_le_bytes; lia).
  rewrite !length_to_le_bytes, <- (app_nil_r (padded (chunk_data v))). apply slice_padded. lia.
Qed.

Lemma ack_round_trip v : ack_fits v -> read_ack (ack_seg v) = inl (ack_view v).
Proof.
  intros (H1 & H2 & H3).
  assert (Hf : field 4 8 (ack_seg v) = ack_transfer_id v /\
    field 2 12 (ack_seg v) = kind_code (ack_kind v) /\
    field 2 14 (ack_seg v) = error_code (ack_error v) /\
    field 4 16 (ack_seg v) = ack_next_offset v /\ field 4 20 (ack_seg v) = ack_chunk_size v).
  { unfold ack_seg. rewrite <- (app_nil_r (to_le_bytes 4 (ack_chunk_size v))).
    split_and!; fields; first [done | by destruct (ack_kind v) | by destruct (ack_error v)]. }
  destruct Hf as (E1 & E2 & E3 & E4 & E5). unfold read_ack.
  rewrite (proj2 (Nat.ltb_ge _ _)) by (unfold ack_seg; len).
  rewrite E1, E2, E3, E4, E5. unfold ack_view. by rewrite kind_code_inv, error_code_inv.
Qed.

Lemma req_seg_length v : length (req_seg v) = file_req_size v.
Proof. unfold req_seg, file_req_size. rewrite !length_app, !padded_length. len. Qed.
Lemma chunk_seg_length v : length (chunk_seg v) = file_chunk_size v.
Proof. unfold chunk_seg, file_chunk_size. rewrite !length_app, !padded_length. len. Qed.
Lemma ack_seg_length v : length (ack_seg v) = file_ack_size v.
Proof. unfold ack_seg, file_ack_size. len. Qed.

Global Instance codec_laws : CapnpLaws unit.
Proof.
  split; [| | | | |intros; apply length_replicate]; intros v Hv.
  - apply build_faithful. intros Hn. rewrite req_seg_length in Hn. by apply req_round_trip.
  - apply build_faithful. intros Hn. rewrite chunk_seg_length in Hn. by apply chunk_round_trip.
  - exists (req_seg v). split; [|by apply req_round_trip]. apply build_builds; [apply req_seg_length|apply Hv].
  - exists (chunk_seg v). split; [|by apply chunk_round_trip]. apply build_builds; [apply chunk_seg_length|apply Hv].
  - exists (ack_seg v). split; [|by apply ack_round_trip]. apply build_builds; [apply ack_seg_length|done].
Qed.

Global Instance codec_reads_u32 : CapnpReadsU32 unit.
Proof.
  intros body root. simpl. unfold read_req. destruct (_ <? 40); [done|]. intros [= <-]. simpl.
  split_and!; apply (wrap_in_width 32); lia.
Qed.
End FixedLayout.

Definition demo_offer : FileOfferValue := file_offer 1 5 64 [1; 2; 3]%Z Sha256 (replicate 32 7%Z).
Definition demo_chunk : FileChunkValue := file_chunk 1 64 [1; 2; 3; 4; 5]%Z.

Lemma offer_encoders_agree_witness : req_fits (offer_root demo_offer) /\
  exists seg, read_file_req seg = inl (req_view (offer_root demo_offer)).
Proof.
  assert (Hf : req_fits (offer_root demo_offer)) by (repeat split; vm_compute; done). split; [done|].
  destruct (offer_encoders_agree demo_offer Hf) as (seg & Hr & _). by exists seg.
Defined.

Lemma chunk_encoders_agree_witness : chunk_fits demo_chunk /\
  exists seg, read_file_chunk seg = inl (chunk_view demo_chunk) /\ length seg <= 40.
Proof.
  assert (Hf : chunk_fits demo_chunk) by (repeat split; vm_compute; done). split; [done|].
  destruct (chunk_encoders_agree demo_chunk Hf) as (seg & Hr & Hlen & _). exists seg. split; [done|].
  exact Hlen.
Defined.

Lemma ack_encode_decode_witness : ack_fits (file_ack_progress 1 64) /\
  exists seg, decode_file_ack seg = Ok (file_ack_progress 1 64).
Proof.
  assert (Hf : ack_fits (file_ack_progress 1 64)) by (repeat split; cbn; lia). split; [done|].
  destruct (ack_encode_decode (file_ack_progress 1 64) Hf) as (seg & Hr & _). by exists seg.
Defined.
