(* ===== verification/FtBus.v ===== *)
(** * The bus as the file-transfer protocol sees it

    The async operations [send_to_with_timeout] and [recv_next_from] of a
    [BusHandle], as [thincan-file-transfer/src/tokio_impl.rs] uses them.  What
    the other tasks, the peer and the timers do is an arbitrary script: one
    result per send ([None] is [Ok(())]) and, per message type, the events that arrive at its
    mailbox.  A call that finds no more script is suspended ([Waiting]).  The
    bus keeps a log of what the task sent and what it was given, and of its
    calls on the file store, over which the protocol's properties are stated. *)
From S2P Require Import Prelude Script Wire FtSchema.

(** What a wait on a mailbox sees next: a message body, an error of the
    receive call, or the end of the enclosing timeout. *)
Inductive RecvEvent :=
| Body (b : bytes)
| RecvError (e : Error)
| Elapsed.

Inductive FtMsg :=
| OfferMsg (v : FileOfferValue)
| ChunkMsg (v : FileChunkValue)
| AckMsg (v : FileAckValue).

(** The calls of the receiver on its file store; a failed call is one that
    returned [Err]. *)
Inductive StoreCall :=
| BeginWrite (transfer_id total_len : u32)
| BeginFailed (transfer_id total_len : u32)
| WriteAt (offset : u32) (data : bytes)
| WriteFailed (offset : u32) (data : bytes)
| Commit
| CommitFailed
| AbortWrite.

Inductive LogEntry :=
| Sent (m : FtMsg)
| SendFailed (m : FtMsg) (e : Error)
| Got (b : bytes)
| GotError (e : Error)
| TimedOut
| StoreOp (c : StoreCall).

Record FtBus := {
  send_results : list (option Error);
  req_events : list RecvEvent;
  chunk_events : list RecvEvent;
  ack_events : list RecvEvent;
  log : list LogEntry;
}.

Definition emit (l : LogEntry) (b : FtBus) : FtBus :=
  {| send_results := send_results b; req_events := req_events b;
     chunk_events := chunk_events b; ack_events := ack_events b; log := log b ++ [l] |}.
Definition set_send_results (r : list (option Error)) (b : FtBus) : FtBus :=
  {| send_results := r; req_events := req_events b; chunk_events := chunk_events b;
     ack_events := ack_events b; log := log b |}.
Definition set_req_events (r : list RecvEvent) (b : FtBus) : FtBus :=
  {| send_results := send_results b; req_events := r; chunk_events := chunk_events b;
     ack_events := ack_events b; log := log b |}.
Definition set_chunk_events (r : list RecvEvent) (b : FtBus) : FtBus :=
  {| send_results := send_results b; req_events := req_events b; chunk_events := r;
     ack_events := ack_events b; log := log b |}.
Definition set_ack_events (r : list RecvEvent) (b : FtBus) : FtBus :=
  {| send_results := send_results b; req_events := req_events b;
     chunk_events := chunk_events b; ack_events := r; log := log b |}.

(** [send_to_with_timeout]: hand a message to the bus. *)
Definition send_to_with_timeout (m : FtMsg) : M FtBus (stop Error) unit := fun b =>
  match send_results b with
  | [] => (Err Waiting, b)
  | None :: r => (Ok tt, emit (Sent m) (set_send_results r b))
  | Some e :: r => (Err (Fails e), emit (SendFailed m e) (set_send_results r b))
  end.

(** The entries of a log without the calls on the store. *)
Definition is_bus_entry (e : LogEntry) : bool := match e with StoreOp _ => false | _ => true end.
Definition bus_entries (L : list LogEntry) : list LogEntry := List.filter is_bus_entry L.

Lemma bus_entries_app l1 l2 : bus_entries (l1 ++ l2) = bus_entries l1 ++ bus_entries l2.
Proof. apply List.filter_app. Qed.

(** The log grows only at its end. *)
Definition extends (b b' : FtBus) : Prop := exists l, log b' = log b ++ l.

Global Instance extends_preorder : PreOrder extends.
Proof.
  split.
  - intros b. exists []. by rewrite app_nil_r.
  - intros b1 b2 b3 [l1 H1] [l2 H2]. exists (l1 ++ l2). by rewrite H2, H1, app_assoc.
Qed.

(** Every entry of a log is fine after what came before it. *)
Definition each_entry (ok : list LogEntry -> LogEntry -> Prop) (L : list LogEntry) : Prop :=
  forall l1 e l2, L = l1 ++ e :: l2 -> ok l1 e.

Lemma each_entry_nil ok : each_entry ok [].
Proof. intros [|? ?] e l2; discriminate. Qed.

Lemma each_entry_snoc ok L e : each_entry ok L -> ok L e -> each_entry ok (L ++ [e]).
Proof.
  intros HL He l1 e' l2 Heq. destruct l2 as [|x l2 _] using rev_ind.
  - apply app_inj_tail in Heq as [-> ->]. done.
  - rewrite app_comm_cons, app_assoc in Heq. apply app_inj_tail in Heq as [-> ->]. by eapply HL.
Qed.

Lemma each_entry_snoc_inv ok L e : each_entry ok (L ++ [e]) -> each_entry ok L /\ ok L e.
Proof.
  intros HL. split; [|by apply (HL L e [])]. intros l1 x l2 ->.
  apply (HL l1 x (l2 ++ [e])). by rewrite <- app_assoc.
Qed.

Lemma each_entry_app ok L l :
  each_entry ok L -> (forall L', Forall (ok L') l) -> each_entry ok (L ++ l).
Proof.
  intros HL Hl. revert L HL. induction l as [|e l IH]; intros L HL; [by rewrite app_nil_r|].
  change (e :: l) with ([e] ++ l). rewrite app_assoc. apply IH.
  - intros L'. apply (Forall_cons_1 _ _ _ (Hl L')).
  - apply each_entry_snoc; [done|]. apply (Forall_cons_1 _ _ _ (Hl L)).
Qed.

Definition is_timeout (e : Error) : bool := bool_decide (kind e = Timeout).
