(* ===== verification/FtSender.v ===== *)
(** * The file sender

    Models the sending half of [thincan-file-transfer/src/tokio_impl.rs]:
    [SendConfig], [SendState] and its transfer ids, [inflight_chunk_count],
    [wait_for_transfer_ack], [send_file_impl] and [send_file_with_id_impl]
    with its offer loop, its window loop and its retries.  [Sha256::digest] is
    a parameter.  The theorems hold for every script of the bus: what the
    sender puts on the bus, how far it runs ahead of the acknowledgements, and
    what a successful return means. *)
From S2P Require Import Prelude Script Wire FtSchema FtBus.

Record SendConfig := { sender_max_chunk_size : nat; window_chunks : nat; max_retries : nat }.

Definition SendConfig_default : SendConfig :=
  {| sender_max_chunk_size := DEFAULT_CHUNK_SIZE; window_chunks := 4; max_retries := 5 |}.

Definition validate (c : SendConfig) : result SendConfig Error :=
  if (sender_max_chunk_size c =? 0) || (window_chunks c =? 0) then Err other_error else Ok c.

Record SendState := { next_transfer_id : u32 }.

Definition SendState_new : SendState := {| next_transfer_id := 1 |}.

Definition alloc_transfer_id (s : SendState) : u32 * SendState :=
  let out := next_transfer_id s in
  (out, {| next_transfer_id := wrapping_add32 (next_transfer_id s) 1 |}).

Definition observe_transfer_id (transfer_id : u32) (s : SendState) : SendState :=
  if (next_transfer_id s <=? transfer_id)%Z
  then {| next_transfer_id := wrapping_add32 transfer_id 1 |} else s.

Record SendFileResult := {
  sent_transfer_id : u32;
  sent_total_len : nat;
  sent_chunk_size : nat;
  sent_chunks_sent : nat;
  sent_retries : nat;
}.

Definition inflight_chunk_count (last_acked next_to_send : u32) (chunk_size : nat) :
    result nat Error :=
  if (next_to_send <=? last_acked)%Z then Ok 0
  else
    let outstanding := Z.to_nat (next_to_send - last_acked) in
    if chunk_size =? 0 then Panic else Ok (div_ceil outstanding chunk_size).

Section sender.
Context {CapnpError : Type} `{Capnp CapnpError} (sha256 : bytes -> bytes).

(** The loop of [wait_for_transfer_ack] over the events of the [FileAck]
    mailbox, under its timeout. *)
Fixpoint wait_ack_loop (transfer_id : u32) (evs : list RecvEvent) (b : FtBus) :
    result FileAckValue (stop Error) * FtBus :=
  match evs with
  | [] => (Err Waiting, set_ack_events [] b)
  | Elapsed :: r => (Err (Fails timeout), emit TimedOut (set_ack_events r b))
  | RecvError e :: r => (Err (Fails e), emit (GotError e) (set_ack_events r b))
  | Body x :: r =>
      let b' := emit (Got x) (set_ack_events r b) in
      match decode_file_ack x with
      | Ok ack =>
          if (ack_transfer_id ack =? transfer_id)%Z then (Ok ack, b')
          else wait_ack_loop transfer_id r b'
      | Err e => (Err (Fails e), b')
      | Panic => (Panic, b')
      end
  end.

Definition wait_for_transfer_ack (transfer_id : u32) : M FtBus (stop Error) FileAckValue :=
  fun b => wait_ack_loop transfer_id (ack_events b) b.

(** The offer loop: send the offer until it is accepted; only timeouts are
    retried. *)
Fixpoint offer_loop (fuel : nat) (config : SendConfig) (transfer_id : u32) (offer : FileOfferValue)
    (offer_retries : nat) : M FtBus (stop Error) FileAckValue :=
  match fuel with
  | O => fail OutOfFuel
  | S fuel' =>
      sent ← attempt (send_to_with_timeout (OfferMsg offer));
      match sent with
      | inr e => if is_timeout e then mret tt else fail (Fails e)
      | inl _ => mret tt
      end;;
      r ← attempt (wait_for_transfer_ack transfer_id);
      match r with
      | inr e =>
          if is_timeout e then
            if max_retries config <? offer_retries + 1 then fail (Fails e)
            else offer_loop fuel' config transfer_id offer (offer_retries + 1)
          else fail (Fails e)
      | inl ack =>
          match ack_kind ack with
          | Accept => mret ack
          | Reject | Abort => fail (Fails other_error)
          | Ack | Complete => offer_loop fuel' config transfer_id offer offer_retries
          end
      end
  end.

(** The local variables of the transfer loop. *)
Record Flight := { chunks_sent : nat; retries : nat; last_acked : u32; next_to_send : u32 }.

(** The inner loop: send chunks while the window has room. *)
Fixpoint fill_window (fuel : nat) (transfer_id : u32) (bytes : bytes) (chunk_size window : nat)
    (f : Flight) : M FtBus (stop Error) Flight :=
  match fuel with
  | O => fail OutOfFuel
  | S fuel' =>
      inflight ← try (inflight_chunk_count (last_acked f) (next_to_send f) chunk_size);
      if (inflight <? window) && (Z.to_nat (next_to_send f) <? length bytes) then
        let offset := Z.to_nat (next_to_send f) in
        let end_ := (offset + chunk_size) `min` length bytes in
        data ← or_panic (slice bytes offset end_);
        send_to_with_timeout (ChunkMsg (file_chunk transfer_id (next_to_send f) data));;
        len ← try (ok_or (u32_try_from (length data)) other_error);
        next ← try (ok_or (checked_add32 (next_to_send f) len) other_error);
        fill_window fuel' transfer_id bytes chunk_size window
          {| chunks_sent := chunks_sent f + 1; retries := retries f;
             last_acked := last_acked f; next_to_send := next |}
      else mret f
  end.

(** The outer loop: fill the window, wait for an ack, move on or rewind.  Each
    round takes at least one event of the ack mailbox, each send one send
    result, so the script bounds the rounds. *)
Fixpoint window_loop (fuel : nat) (config : SendConfig) (transfer_id : u32) (bytes : bytes)
    (chunk_size : nat) (f : Flight) : M FtBus (stop Error) Flight :=
  match fuel with
  | O => fail OutOfFuel
  | S fuel' =>
      if Z.to_nat (last_acked f) <? length bytes then
        b ← get;
        f ← fill_window (S (length (send_results b))) transfer_id bytes chunk_size
              (window_chunks config) f;
        r ← attempt (wait_for_transfer_ack transfer_id);
        match r with
        | inr e =>
            if is_timeout e then
              if max_retries config <? retries f + 1 then fail (Fails e)
              else window_loop fuel' config transfer_id bytes chunk_size
                     {| chunks_sent := chunks_sent f; retries := retries f + 1;
                        last_acked := last_acked f; next_to_send := last_acked f |}
            else fail (Fails e)
        | inl ack =>
            match ack_kind ack with
            | Reject | Abort => fail (Fails other_error)
            | Accept => window_loop fuel' config transfer_id bytes chunk_size f
            | Ack | Complete =>
                let next := ack_next_offset ack in
                if (next <? last_acked f)%Z || (length bytes <? Z.to_nat next)
                   || (next_to_send f <? next)%Z
                then fail (Fails other_error)
                else
                  let f := {| chunks_sent := chunks_sent f; retries := retries f;
                              last_acked := next; next_to_send := next_to_send f |} in
                  if decide (ack_kind ack = Complete) then
                    if Z.to_nat (last_acked f) =? length bytes then mret f
                    else fail (Fails other_error)
                  else window_loop fuel' config transfer_id bytes chunk_size f
            end
        end
      else mret f
  end.

(** [send_file_with_id_impl] after the validation of its arguments. *)
Definition send_transfer (config : SendConfig) (transfer_id total_len_u32 max_chunk_u32 : u32)
    (bytes : bytes) : M FtBus (stop Error) SendFileResult :=
  let file_hash := sha256 bytes in
  b ← get;
  accept ← offer_loop (S (length (ack_events b))) config transfer_id
             (file_offer transfer_id total_len_u32 max_chunk_u32 [] Sha256 file_hash) 0;
  let chunk_size := Z.to_nat (ack_chunk_size accept) in
  if (chunk_size =? 0) || (sender_max_chunk_size config <? chunk_size)
  then fail (Fails other_error)
  else
    b ← get;
    f ← window_loop (S (length (ack_events b))) config transfer_id bytes chunk_size
          {| chunks_sent := 0; retries := 0; last_acked := 0; next_to_send := 0 |};
    mret {| sent_transfer_id := transfer_id; sent_total_len := length bytes;
            sent_chunk_size := chunk_size; sent_chunks_sent := chunks_sent f;
            sent_retries := retries f |}.

(** The state is the bundle instance's [send_state] and the bus. *)
Definition send_file_with_id_impl (transfer_id : u32) (bytes : bytes) (config : SendConfig) :
    M (SendState * FtBus) (stop Error) SendFileResult :=
  config ← try (validate config);
  modify (fun '(st, b) => (observe_transfer_id transfer_id st, b));;
  let total_len := length bytes in
  total_len_u32 ← try (ok_or (u32_try_from total_len) other_error);
  max_chunk_u32 ← try (ok_or (u32_try_from (sender_max_chunk_size config)) other_error);
  on_field snd (fun b s => (s.1, b))
    (send_transfer config transfer_id total_len_u32 max_chunk_u32 bytes).

Definition send_file_impl (bytes : bytes) (config : SendConfig) :
    M (SendState * FtBus) (stop Error) SendFileResult := fun '(st, b) =>
  let '(transfer_id, st') := alloc_transfer_id st in
  send_file_with_id_impl transfer_id bytes config (st', b).
End sender.

(** * What the log of a transfer may hold *)

(** A chunk handed to the bus without error. *)
Definition sent_chunk (e : LogEntry) : option FileChunkValue :=
  match e with Sent (ChunkMsg v) => Some v | _ => None end.

(** The entries a wait adds. *)
Definition received_entry (e : LogEntry) : Prop :=
  match e with Got _ | GotError _ | TimedOut => True | _ => False end.

(** [v] is a non-empty piece of [bytes] of at most [max_len] bytes, at its place. *)
Definition piece (transfer_id : u32) (bytes : bytes) (max_len : nat) (v : FileChunkValue) : Prop :=
  chunk_transfer_id v = transfer_id /\ 0 < length (chunk_data v) <= max_len /\
  (0 <= chunk_offset v)%Z /\
  slice bytes (Z.to_nat (chunk_offset v)) (Z.to_nat (chunk_offset v) + length (chunk_data v))
    = Some (chunk_data v).

(** Byte [i] of the file was sent. *)
Definition covered (L : list LogEntry) (i : nat) : Prop :=
  exists v, Sent (ChunkMsg v) ∈ L /\
    Z.to_nat (chunk_offset v) <= i < Z.to_nat (chunk_offset v) + length (chunk_data v).

Section sender_proofs.
Context {CapnpError : Type} `{Capnp CapnpError} (sha256 : bytes -> bytes).

(** The cumulative acknowledgement of the transfer in a log: the highest
    [next_offset] of the progress and completion acks received for it. *)
Definition acked_by (transfer_id : u32) (e : LogEntry) : Z :=
  match e with
  | Got x =>
      match decode_file_ack x with
      | Ok a => if (ack_transfer_id a =? transfer_id)%Z then
                  match ack_kind a with Ack | Complete => ack_next_offset a | _ => 0 end
                else 0
      | _ => 0
      end
  | _ => 0
  end%Z.
Definition acked (transfer_id : u32) (L : list LogEntry) : Z :=
  foldr Z.max 0%Z (map (acked_by transfer_id) L).

Section transfer.
Context (config : SendConfig) (transfer_id : u32) (bytes : bytes) (offer : FileOfferValue).

(** What may follow [L] in the log of the transfer: sends are the offer or
    pieces of the file that end at most a window after the acknowledged bytes. *)
Definition entry_ok (L : list LogEntry) (e : LogEntry) : Prop :=
  match e with
  | Sent m | SendFailed m _ =>
      match m with
      | OfferMsg v => v = offer
      | ChunkMsg v =>
          piece transfer_id bytes (sender_max_chunk_size config) v /\
          (chunk_offset v + Z.of_nat (length (chunk_data v)) <=
           acked transfer_id L + Z.of_nat (window_chunks config * sender_max_chunk_size config))%Z
      | AckMsg _ => False
      end
  | Got _ | GotError _ | TimedOut => True
  | StoreOp _ => False
  end.
Definition log_ok (L : list LogEntry) : Prop := each_entry entry_ok L.

Lemma log_ok_received L l : log_ok L -> Forall received_entry l -> log_ok (L ++ l).
Proof.
  intros HL Hl. apply each_entry_app; [done|]. intros L'.
  eapply Forall_impl; [done|]. by intros [].
Qed.

Lemma acked_app L l : (acked transfer_id L <= acked transfer_id (L ++ l))%Z.
Proof. unfold acked. induction L as [|e L IH]; simpl; [induction l; simpl; lia|lia]. Qed.

Lemma acked_elem e L : e ∈ L -> (acked_by transfer_id e <= acked transfer_id L)%Z.
Proof. unfold acked. induction 1; simpl; lia. Qed.

Lemma covered_app L l i : covered L i -> covered (L ++ l) i.
Proof. intros (v & Hv & Hi). exists v. rewrite elem_of_app. auto. Qed.

Lemma omap_received l : Forall received_entry l -> omap sent_chunk l = [].
Proof. by induction 1 as [|[] l He _ IH]. Qed.

(** * The waits *)

Lemma wait_ack_loop_run evs b :
  let '(r, b') := wait_ack_loop transfer_id evs b in
  exists l, log b' = log b ++ l /\ Forall received_entry l /\
    send_results b' = send_results b /\ length (ack_events b') <= length evs /\
    match r with
    | Ok ack => length (ack_events b') < length evs /\ ack_transfer_id ack = transfer_id /\
                (exists x, Got x ∈ l /\ decode_file_ack x = Ok ack)
    | Err (Fails _) => length (ack_events b') < length evs
    | Err Waiting => True
    | Err OutOfFuel | Panic => False
    end.
Proof.
  revert b. induction evs as [|ev evs IH]; intros b; simpl.
  { exists []. rewrite app_nil_r. repeat split; auto. }
  destruct ev as [x|e|];
    [|eexists [_]; split_and!; [done|by apply Forall_singleton|done|simpl; lia..]..].
  destruct (decode_file_ack x) as [ack|e|] eqn:Hd.
  - destruct (Z.eqb_spec (ack_transfer_id ack) transfer_id) as [Heq|_].
    { exists [Got x]. split_and!; [done|by apply Forall_singleton|done|simpl; lia..|done|].
      exists x. split; [|done]. by apply list_elem_of_singleton. }
    specialize (IH (emit (Got x) (set_ack_events evs b))).
    destruct (wait_ack_loop _ _ _) as [r b']. destruct IH as (l & Hl & Hr & Hs & Hlen & Hres).
    exists (Got x :: l). rewrite Hl. simpl. rewrite <- app_assoc.
    split_and!; [done|by constructor|done|lia|].
    destruct r as [a|[e| |]|]; simpl in *; try lia; [|done..].
    destruct Hres as (? & ? & y & Hy & ?). split; [lia|]. split; [done|]. exists y.
    rewrite elem_of_cons. auto.
  - exists [Got x]. split_and!; [done|by apply Forall_singleton|done|simpl; lia..].
  - exfalso. unfold decode_file_ack, with_root, ok_or in Hd. cases.
Qed.

(** [at_log log0 L b]: since the call started with the log [log0], the bus
    has logged [L], which is fine. *)
Definition at_log (log0 L : list LogEntry) (b : FtBus) : Prop := log b = log0 ++ L /\ log_ok L.
Definition logged (log0 : list LogEntry) (b : FtBus) : Prop := exists L, at_log log0 L b.

Lemma at_log_logged log0 L b : at_log log0 L b -> logged log0 b.
Proof. by exists L. Qed.
Hint Resolve at_log_logged : rust.

Lemma at_log_snoc log0 L e b b' :
  at_log log0 L b -> entry_ok L e -> log b' = log b ++ [e] -> at_log log0 (L ++ [e]) b'.
Proof.
  intros [Hb HL] He Hb'. split; [by rewrite Hb', Hb, app_assoc|by apply each_entry_snoc].
Qed.

Lemma send_spec log0 L b m :
  at_log log0 L b -> entry_ok L (Sent m) ->
  returns_safely (logged log0)
    (fun _ b' => at_log log0 (L ++ [Sent m]) b' /\ ack_events b' = ack_events b /\
                 length (send_results b') < length (send_results b))
    (send_to_with_timeout m b).
Proof.
  intros Hb Hm. unfold send_to_with_timeout, returns_safely.
  destruct (send_results b) as [|[e|] r] eqn:Hr; simpl; split; eauto with rust.
  - eapply at_log_logged, (at_log_snoc _ _ (SendFailed m e)); [done|by destruct m|done].
  - eapply at_log_logged, at_log_snoc; done.
  - split_and!; [by eapply at_log_snoc|done|lia].
Qed.

Lemma wait_spec log0 L b :
  at_log log0 L b ->
  returns_safely (logged log0)
    (fun r b' => exists l, at_log log0 (L ++ l) b' /\ Forall received_entry l /\
       length (ack_events b') < length (ack_events b) /\
       match r with
       | inl ack => ack_transfer_id ack = transfer_id /\
                    (exists x, Got x ∈ l /\ decode_file_ack x = Ok ack)
       | inr _ => True
       end)
    (attempt (wait_for_transfer_ack transfer_id) b).
Proof.
  intros [Hb HL]. unfold attempt, wait_for_transfer_ack, returns_safely.
  pose proof (wait_ack_loop_run (ack_events b) b) as Hw.
  destruct (wait_ack_loop _ _ _) as [r b']. destruct Hw as (l & Hl & Hr & _ & _ & Hres).
  assert (Hat : at_log log0 (L ++ l) b').
  { split; [by rewrite Hl, Hb, app_assoc|]. by apply log_ok_received. }
  destruct r as [a|[e| |]|]; simpl; split; eauto 10 with rust.
Qed.

(** * The offer loop *)

Lemma offer_loop_spec fuel n log0 L b :
  at_log log0 L b -> omap sent_chunk L = [] -> length (ack_events b) < fuel ->
  returns_safely (logged log0)
    (fun _ b' => exists L', at_log log0 L' b' /\ omap sent_chunk L' = [])
    (offer_loop fuel config transfer_id offer n b).
Proof.
  revert n L b. induction fuel as [|fuel IH]; intros n L b Hb HL Hf; [lia|]. cbn [offer_loop].
  eapply safely_bind with (Q := fun r b' => exists L', at_log log0 L' b' /\ omap sent_chunk L' = []
    /\ ack_events b' = ack_events b).
  { unfold attempt, send_to_with_timeout, returns_safely.
    destruct (send_results b) as [|[e|] r] eqn:Hr; simpl; split; eauto with rust.
    - eapply at_log_logged, (at_log_snoc _ _ (SendFailed (OfferMsg offer) e)); done.
    - eexists. split; [by eapply (at_log_snoc _ _ (SendFailed (OfferMsg offer) e))|].
      rewrite omap_app, HL. done.
    - eapply at_log_logged, (at_log_snoc _ _ (Sent (OfferMsg offer))); done.
    - eexists. split; [by eapply (at_log_snoc _ _ (Sent (OfferMsg offer)))|]. rewrite omap_app, HL. done. }
  intros r b1 _ (L1 & Hb1 & HL1 & Hev1).
  eapply safely_bind with (Q := fun _ b' => b' = b1).
  { destruct r as [[]|e]; [|destruct (is_timeout e)]; split; simpl; eauto with rust. }
  intros _ b1' _ ->. eapply safely_bind; [by apply wait_spec|]. simpl.
  intros r2 b2 _ (l & Hb2 & Hl & Hlen & Hres). rewrite Hev1 in Hlen.
  assert (HL2 : omap sent_chunk (L1 ++ l) = []) by (by rewrite omap_app, HL1, omap_received).
  destruct r2 as [ack|e].
  - destruct (ack_kind ack); try (split; simpl; eauto with rust); eapply IH; eauto; lia.
  - destruct (is_timeout e); [|split; simpl; eauto with rust].
    case_bool; [split; simpl; eauto with rust|]. eapply IH; eauto. lia.
Qed.

(** * The transfer loop *)

Record FlightInv (f : Flight) (L : list LogEntry) : Prop := {
  inv_order : (0 <= last_acked f <= next_to_send f /\ next_to_send f <= Z.of_nat (length bytes))%Z;
  inv_acked : (last_acked f <= acked transfer_id L)%Z;
  inv_covered : forall i, i < Z.to_nat (next_to_send f) -> covered L i;
  inv_sent : chunks_sent f = length (omap sent_chunk L);
  inv_retries : retries f <= max_retries config;
}.

Lemma flight_received f L l : Forall received_entry l -> FlightInv f L -> FlightInv f (L ++ l).
Proof.
  intros Hl [? ? Hc Hs ?]. split; [done| |by intros; apply covered_app, Hc| |done].
  - pose proof (acked_app L l). lia.
  - by rewrite omap_app, (omap_received l), app_nil_r.
Qed.

(** One more chunk of the window. *)
Lemma flight_chunk f L cs data end_ :
  FlightInv f L -> 0 < cs <= sender_max_chunk_size config ->
  Z.to_nat (next_to_send f) < length bytes ->
  end_ = (Z.to_nat (next_to_send f) + cs) `min` length bytes ->
  slice bytes (Z.to_nat (next_to_send f)) end_ = Some data ->
  (next_to_send f <= last_acked f + Z.of_nat (cs * (window_chunks config - 1)))%Z ->
  0 < window_chunks config ->
  let v := file_chunk transfer_id (next_to_send f) data in
  length data = end_ - Z.to_nat (next_to_send f) /\
  entry_ok L (Sent (ChunkMsg v)) /\
  FlightInv {| chunks_sent := chunks_sent f + 1; retries := retries f; last_acked := last_acked f;
               next_to_send := next_to_send f + Z.of_nat (length data) |} (L ++ [Sent (ChunkMsg v)]).
Proof.
  intros [Ho Ha Hc Hs Hr] Hcs Hlt -> Hsl Hwin HW v.
  assert (Hlen : length data = (Z.to_nat (next_to_send f) + cs) `min` length bytes - Z.to_nat (next_to_send f)).
  { unfold slice in Hsl. case_decide; [|done]. injection Hsl as <-. len. }
  assert (Hp : piece transfer_id bytes (sender_max_chunk_size config) v).
  { split_and!; simpl; [done|lia|lia|lia|]. rewrite Hlen. rewrite <- Hsl. f_equal. lia. }
  split; [done|]. split.
  { split; [done|]. simpl. nia. }
  split; simpl; [lia| | | |done].
  - pose proof (acked_app L [Sent (ChunkMsg v)]). lia.
  - intros i Hi. destruct (decide (i < Z.to_nat (next_to_send f))) as [Hi'|Hi'].
    + by apply covered_app, Hc.
    + exists v. rewrite elem_of_app, list_elem_of_singleton. split; [by right|]. simpl. lia.
  - rewrite omap_app, length_app, <- Hs. simpl. lia.
Qed.

Lemma fill_window_spec fuel cs f log0 L b :
  at_log log0 L b -> FlightInv f L -> 0 < cs <= sender_max_chunk_size config ->
  length (send_results b) < fuel ->
  returns_safely (logged log0)
    (fun f' b' => exists L', at_log log0 L' b' /\ FlightInv f' L' /\ ack_events b' = ack_events b)
    (fill_window fuel transfer_id bytes cs (window_chunks config) f b).
Proof.
  revert f L b. induction fuel as [|fuel IH]; intros f L b Hb Hf Hcs Hfuel; [lia|].
  cbn [fill_window].
  destruct (inv_order f L Hf) as [Hla Htot].
  eapply safely_bind with (Q := fun n b' => b' = b /\
    (next_to_send f <= last_acked f + Z.of_nat (cs * n))%Z).
  { unfold try, lift, inflight_chunk_count. split; [eauto with rust|].
    case_bool; simpl; [split; [done|lia]|]. case_bool; [lia|]. simpl. split; [done|].
    pose proof (div_ceil_spec (Z.to_nat (next_to_send f - last_acked f)) cs). lia. }
  intros n b1 _ [-> Hn].
  destruct (Nat.ltb_spec n (window_chunks config)) as [HW|]; simpl;
    [|apply safely_ret; eauto with rust].
  destruct (Nat.ltb_spec (Z.to_nat (next_to_send f)) (length bytes)) as [Hlt|];
    [|apply safely_ret; eauto with rust].
  destruct (slice bytes (Z.to_nat (next_to_send f))
    ((Z.to_nat (next_to_send f) + cs) `min` length bytes)) as [data|] eqn:Hsl.
  2:{ rewrite slice_Some in Hsl by lia. done. }
  destruct (flight_chunk f L cs data _ Hf Hcs Hlt eq_refl Hsl) as (Hlen & Hok & Hf'); [nia|lia|].
  eapply safely_bind with (Q := fun d b' => d = data /\ b' = b).
  { split; simpl; eauto with rust. }
  intros d b1 _ [-> ->]. eapply safely_bind; [by apply send_spec|]. simpl.
  intros _ b1 _ (Hb1 & Hev1 & Hlen1).
  eapply safely_bind with (Q := fun n b' => n = Z.of_nat (length data) /\ b' = b1).
  { unfold try, lift, ok_or. split; [eauto with rust|]. unfold u32_try_from. by case_bool. }
  intros m b2 _ [-> ->].
  eapply safely_bind with (Q := fun n b' => n = (next_to_send f + Z.of_nat (length data))%Z /\ b' = b1).
  { unfold try, lift, ok_or, checked_add32. split; [eauto with rust|]. by case_bool. }
  intros next b2 _ [-> ->]. eapply safely_mono; [eapply IH; [done|done|done|lia]|]. simpl.
  intros f' b' _ (L' & ? & ? & ?). exists L'. split_and!; [done..|]. congruence.
Qed.

(** An accepted acknowledgement moves [last_acked] forward. *)
Lemma flight_ack f L l ack x :
  FlightInv f L -> Forall received_entry l ->
  Got x ∈ l -> decode_file_ack x = Ok ack -> ack_transfer_id ack = transfer_id ->
  ack_kind ack = Ack \/ ack_kind ack = Complete ->
  (last_acked f <= ack_next_offset ack <= next_to_send f)%Z ->
  FlightInv {| chunks_sent := chunks_sent f; retries := retries f;
               last_acked := ack_next_offset ack; next_to_send := next_to_send f |} (L ++ l).
Proof.
  intros Hf Hl Hx Hd Hid Hk Hn. apply (flight_received f L l Hl) in Hf. destruct Hf as [Ho Ha Hc Hs Hr].
  split; simpl in *; [lia| |done..].
  assert (Hg : Got x ∈ L ++ l) by (apply elem_of_app; auto).
  apply acked_elem in Hg. simpl in Hg. rewrite Hd, (proj2 (Z.eqb_eq _ _) Hid) in Hg.
  destruct Hk as [Hk|Hk]; by rewrite Hk in Hg.
Qed.

Lemma window_loop_spec fuel cs f log0 L b :
  at_log log0 L b -> FlightInv f L -> 0 < cs <= sender_max_chunk_size config ->
  length (ack_events b) < fuel ->
  returns_safely (logged log0)
    (fun f' b' => exists L', at_log log0 L' b' /\ FlightInv f' L' /\
                             last_acked f' = Z.of_nat (length bytes))
    (window_loop fuel config transfer_id bytes cs f b).
Proof.
  revert f L b. induction fuel as [|fuel IH]; intros f L b Hb Hf Hcs Hfuel; [lia|].
  cbn [window_loop].
  destruct (Nat.ltb_spec (Z.to_nat (last_acked f)) (length bytes)) as [Hlt|Hge].
  2:{ apply safely_ret; [eauto with rust|]. exists L. split_and!; [done..|].
      destruct (inv_order f L Hf). lia. }
  eapply safely_bind with (Q := fun b0 b' => b0 = b /\ b' = b); [split; simpl; eauto with rust|].
  intros b0 b' _ [-> ->].
  eapply safely_bind; [eapply fill_window_spec; [done..|lia]|]. simpl. clear dependent f.
  intros f b1 _ (L1 & Hb1 & Hf & Hev). eapply safely_bind; [by apply wait_spec|]. simpl.
  intros r b2 _ (l & Hb2 & Hl & Hlen & Hres). rewrite Hev in Hlen.
  pose proof (flight_received f L1 l Hl Hf) as Hf2.
  destruct r as [ack|e].
  - destruct Hres as (Hid & x & Hx & Hd). destruct (inv_order f L1 Hf) as [Hla Htot].
    destruct (ack_kind ack) eqn:Hk; try (apply safely_fail; eauto with rust).
    + eapply IH; [done|done|done|lia].
    + match goal with |- returns_safely _ _ ((if ?c then _ else _) _) => destruct c eqn:Hg end;
        [apply safely_fail; eauto with rust|].
      rewrite !orb_false_iff, !Z.ltb_ge, Nat.ltb_ge in Hg.
      rewrite decide_False by congruence. eapply IH; [done|eapply flight_ack; eauto; lia|done|lia].
    + match goal with |- returns_safely _ _ ((if ?c then _ else _) _) => destruct c eqn:Hg end;
        [apply safely_fail; eauto with rust|].
      rewrite !orb_false_iff, !Z.ltb_ge, Nat.ltb_ge in Hg.
      rewrite decide_True by done. simpl last_acked.
      case_bool; [|apply safely_fail; eauto with rust].
      apply safely_ret; [eauto with rust|]. exists (L1 ++ l). simpl.
      split_and!; [done|eapply flight_ack; eauto; lia|lia].
  - destruct (is_timeout e); [|apply safely_fail; eauto with rust].
    case_bool; [apply safely_fail; eauto with rust|].
    eapply IH; [done| |done|lia]. destruct Hf2 as [? ? Hc ? ?]. split; simpl; [lia|done| |done|lia].
    intros i Hi. apply Hc. lia.
Qed.
End transfer.

(** * The whole call *)

Definition transfer_offer (transfer_id : u32) (bytes : bytes) (config : SendConfig) : FileOfferValue :=
  file_offer transfer_id (Z.of_nat (length bytes)) (Z.of_nat (sender_max_chunk_size config)) [] Sha256
    (sha256 bytes).

(** What a successful return says about the log of the call. *)
Definition delivered (transfer_id : u32) (bytes : bytes) (config : SendConfig) (L : list LogEntry)
    (r : SendFileResult) : Prop :=
  sent_transfer_id r = transfer_id /\ sent_total_len r = length bytes /\
  0 < sent_chunk_size r <= sender_max_chunk_size config /\
  sent_retries r <= max_retries config /\
  sent_chunks_sent r = length (omap sent_chunk L) /\
  (Z.of_nat (length bytes) <= acked transfer_id L)%Z /\
  (forall i, i < length bytes -> covered L i).

Lemma send_transfer_spec config tid n m bytes b :
  n = Z.of_nat (length bytes) -> m = Z.of_nat (sender_max_chunk_size config) ->
  let offer := transfer_offer tid bytes config in
  returns_safely (logged config tid bytes offer (log b))
    (fun r b' => exists L, at_log config tid bytes offer (log b) L b' /\ delivered tid bytes config L r)
    (send_transfer sha256 config tid n m bytes b).
Proof.
  intros -> -> offer. unfold send_transfer.
  change (file_offer _ _ _ _ _ _) with offer.
  assert (Hb : at_log config tid bytes offer (log b) [] b).
  { split; [by rewrite app_nil_r|apply each_entry_nil]. }
  eapply safely_bind with (Q := fun b0 b' => b0 = b /\ b' = b).
  { split; simpl; eauto using at_log_logged. }
  intros b0 b' _ [-> ->]. eapply safely_bind; [eapply offer_loop_spec; [done|done|lia]|]. cbv beta.
  intros accept b1 _ (L1 & Hb1 & HL1).
  destruct (Nat.eqb_spec (Z.to_nat (ack_chunk_size accept)) 0) as [|Hcs]; cbn [orb];
    [apply safely_fail; eauto using at_log_logged|].
  case_bool; [apply safely_fail; eauto using at_log_logged|].
  eapply safely_bind with (Q := fun b0 b' => b0 = b1 /\ b' = b1).
  { split; simpl; eauto using at_log_logged. }
  intros b0 b' _ [-> ->]. eapply safely_bind.
  { eapply window_loop_spec; [done| |lia|lia]. split; simpl; [lia| |intros; lia| |lia].
    - apply (acked_app tid [] L1).
    - by rewrite HL1. }
  simpl. intros f b2 _ (L2 & Hb2 & [Ho Ha Hc Hs Hr] & Hall).
  apply safely_ret; [eauto using at_log_logged|]. exists L2. split; [done|].
  split_and!; simpl; try done; try lia. intros i Hi. apply Hc. lia.
Qed.

(** The guards of [send_file_with_id_impl], then the transfer. *)
Lemma send_file_with_id_run tid bytes config st b :
  send_file_with_id_impl sha256 tid bytes config (st, b) =
  if (sender_max_chunk_size config =? 0) || (window_chunks config =? 0)
  then (Err (Fails other_error), (st, b))
  else if (u32_max <? Z.of_nat (length bytes))%Z || (u32_max <? Z.of_nat (sender_max_chunk_size config))%Z
  then (Err (Fails other_error), (observe_transfer_id tid st, b))
  else let '(r, b') := send_transfer sha256 config tid (Z.of_nat (length bytes))
                         (Z.of_nat (sender_max_chunk_size config)) bytes b in
       (r, (observe_transfer_id tid st, b')).
Proof.
  unfold send_file_with_id_impl, validate, try, u32_try_from. unfold_M.
  destruct ((_ =? 0) || _); [done|]. simpl.
  destruct (Z.leb_spec (Z.of_nat (length bytes)) u32_max), (Z.ltb_spec u32_max (Z.of_nat (length bytes)));
    try lia; [|done]. simpl.
  destruct (Z.leb_spec (Z.of_nat (sender_max_chunk_size config)) u32_max),
    (Z.ltb_spec u32_max (Z.of_nat (sender_max_chunk_size config))); try lia; [|done]. simpl.
  unfold on_field. simpl. by destruct (send_transfer _ _ _ _ _ _ _).
Qed.

Lemma send_file_with_id_spec tid bytes config st b :
  let '(r, (st', b')) := send_file_with_id_impl sha256 tid bytes config (st, b) in
  (st' = st \/ st' = observe_transfer_id tid st) /\
  returns_safely (logged config tid bytes (transfer_offer tid bytes config) (log b))
    (fun res b' => exists L, at_log config tid bytes (transfer_offer tid bytes config) (log b) L b' /\
                             delivered tid bytes config L res) (r, b').
Proof.
  rewrite send_file_with_id_run.
  assert (Hnil : logged config tid bytes (transfer_offer tid bytes config) (log b) b).
  { exists []. split; [by rewrite app_nil_r|apply each_entry_nil]. }
  destruct ((_ =? 0) || _); [split; [by left|done]|].
  destruct ((_ <? _)%Z || _); [split; [by right|done]|].
  pose proof (send_transfer_spec config tid _ _ bytes b eq_refl eq_refl) as Hs.
  destruct (send_transfer _ _ _ _ _ _ _) as [r b']. split; [by right|done].
Qed.

(** C12. Whatever the peer, the other tasks and the timers do, a
    [send_file_with_id] call neither panics nor loops without taking an event,
    and everything it hands to the bus is the offer of the file (its length,
    its digest) or a non-empty piece of the file at its own offset, of at most
    [sender_max_chunk_size] bytes, which ends at most
    [window_chunks * sender_max_chunk_size] bytes after the acknowledged part. *)
Theorem send_file_window_safety tid bytes config st b :
  let '(r, (_, b')) := send_file_with_id_impl sha256 tid bytes config (st, b) in
  (r <> Panic /\ r <> Err OutOfFuel) /\
  exists L, log b' = log b ++ L /\
    log_ok config tid bytes (transfer_offer tid bytes config) L.
Proof.
  pose proof (send_file_with_id_spec tid bytes config st b) as Hs.
  destruct (send_file_with_id_impl _ _ _ _ _) as [r [st' b']]. destruct Hs as (_ & (L & HL) & Hr).
  split; [|by exists L]. by destruct r as [a|[e| |]|].
Qed.

(** When [send_file_with_id] returns [Ok], every byte of the file was sent
    in some chunk, the peer acknowledged the whole length, the reported chunk
    count is the number of chunks sent, the chunk size is positive and within
    the configured maximum, and the retries are within [max_retries]. *)
Theorem send_file_ok_delivered tid bytes config st b res st' b' :
  send_file_with_id_impl sha256 tid bytes config (st, b) = (Ok res, (st', b')) ->
  exists L, log b' = log b ++ L /\ delivered tid bytes config L res.
Proof.
  intros Hrun. pose proof (send_file_with_id_spec tid bytes config st b) as Hs. rewrite Hrun in Hs.
  destruct Hs as (_ & _ & L & [HL _] & Hd). by exists L.
Qed.

Lemma wrapping_add32_ne z : is_u32 z -> wrapping_add32 z 1 <> z.
Proof.
  unfold wrapping_add32, wrap, in_width. intros Hz. change (2 ^ 32)%Z with 4294967296%Z in *.
  pose proof (Z.div_mod (z + 1) 4294967296). lia.
Qed.

Lemma observe_ne tid st : is_u32 tid -> next_transfer_id (observe_transfer_id tid st) <> tid.
Proof.
  intros Ht. unfold observe_transfer_id. case_bool; simpl; [by apply wrapping_add32_ne|lia].
Qed.

Lemma observe_own tid :
  is_u32 tid ->
  observe_transfer_id tid {| next_transfer_id := wrapping_add32 tid 1 |} =
    {| next_transfer_id := wrapping_add32 tid 1 |}.
Proof. intros Ht. unfold observe_transfer_id. simpl. by case_bool. Qed.

(** [send_file] uses the state's next transfer id for its messages and,
    whatever the outcome, leaves the following id (wrapping at 2^32) for the
    next call; after a [send_file_with_id] that put anything on the bus, the
    id it used is not the one the next [send_file] takes. *)
Theorem send_file_transfer_ids bytes config st b tid :
  is_u32 (next_transfer_id st) -> is_u32 tid ->
  (let '(_, (st1, b1)) := send_file_impl sha256 bytes config (st, b) in
   next_transfer_id st1 = wrapping_add32 (next_transfer_id st) 1 /\
   exists L, log b1 = log b ++ L /\
     log_ok config (next_transfer_id st) bytes (transfer_offer (next_transfer_id st) bytes config) L) /\
  (let '(_, (st1, b1)) := send_file_with_id_impl sha256 tid bytes config (st, b) in
   b1 = b \/ next_transfer_id st1 <> tid).
Proof.
  intros Hn Ht. split.
  - simpl. pose proof (send_file_with_id_spec (next_transfer_id st) bytes config
      {| next_transfer_id := wrapping_add32 (next_transfer_id st) 1 |} b) as Hs.
    rewrite observe_own in Hs by done.
    destruct (send_file_with_id_impl _ _ _ _ _) as [r [st1 b1]].
    destruct Hs as (Hst & (L & HL) & _). split; [|by exists L]. by destruct Hst as [-> | ->].
  - rewrite send_file_with_id_run. destruct ((_ =? 0) || _); [by left|].
    destruct ((_ <? _)%Z || _); [by left|].
    destruct (send_transfer _ _ _ _ _ _ _) as [r b']. right. by apply observe_ne.
Qed.
End sender_proofs.

(** * A concrete transfer *)

(** Two chunks of at most four bytes, accepted and acknowledged by the peer. *)
Definition demo_file : bytes := [1; 2; 3; 4; 5]%Z.
Definition demo_config : SendConfig :=
  {| sender_max_chunk_size := 8; window_chunks := 2; max_retries := 1 |}.
Definition demo_acks : list RecvEvent :=
  [Elapsed; Body (FixedLayout.ack_seg (file_ack_accept 1 4)); Elapsed;
   Body (FixedLayout.ack_seg (file_ack_progress 1 4));
   Body (FixedLayout.ack_seg (file_ack 1 Complete 5 0 NoError))].
Definition demo_bus : FtBus :=
  {| send_results := replicate 10 None; req_events := []; chunk_events := [];
     ack_events := demo_acks; log := [] |}.
Definition demo_digest (d : bytes) : bytes := replicate 32 (Z.of_nat (length d)).

Definition demo_result : SendFileResult :=
  {| sent_transfer_id := 1; sent_total_len := 5; sent_chunk_size := 4;
     sent_chunks_sent := 4; sent_retries := 1 |}.
Definition demo_final : SendState * FtBus :=
  (send_file_with_id_impl demo_digest 1 demo_file demo_config (SendState_new, demo_bus)).2.

Lemma demo_run_ok :
  send_file_with_id_impl demo_digest 1 demo_file demo_config (SendState_new, demo_bus) =
    (Ok demo_result, (demo_final.1, demo_final.2)).
Proof. vm_compute. reflexivity. Qed.

Lemma send_file_ok_delivered_witness :
  exists L, forall i, i < length demo_file -> covered L i.
Proof.
  destruct (send_file_ok_delivered _ _ _ _ _ _ _ _ _ demo_run_ok)
    as (L & _ & _ & _ & _ & _ & _ & _ & Hc).
  exists L. exact Hc.
Defined.

Lemma send_file_transfer_ids_witness :
  is_u32 (next_transfer_id SendState_new) /\ is_u32 7 /\
  (let '(_, (st1, b1)) := send_file_with_id_impl demo_digest 7 demo_file demo_config
                            (SendState_new, demo_bus) in
   b1 = demo_bus \/ next_transfer_id st1 <> 7%Z).
Proof.
  assert (H1 : is_u32 (next_transfer_id SendState_new)) by (split; simpl; lia).
  assert (H7 : is_u32 7) by (split; lia). split; [exact H1|]. split; [exact H7|].
  exact (proj2 (send_file_transfer_ids demo_digest demo_file demo_config SendState_new demo_bus 7 H1 H7)).
Defined.
