(* ===== verification/FtReceiver.v ===== *)
(** * The file receiver

    Models the receiving half of [thincan-file-transfer/src/tokio_impl.rs]:
    [recv_file_impl] and [recv_file_no_alloc_impl] with the waits, checks,
    rejections and aborts they make, over the trait [AsyncFileStore] (a class)
    and a SHA-256 hasher (a class with the law of an incremental hash).  The
    theorems hold for every script of the bus and every store: the receiver
    acknowledges only what it wrote, writes the file front to back, commits
    only what matches the announced digest, and closes every handle it opened;
    the no-alloc receiver is the same function while its buffers are large
    enough. *)
From S2P Require Import Prelude Script Wire FtSchema FtBus.

Definition PROGRESS_ACK_EVERY_CHUNKS : u32 := 1.
Definition SHA256_HASH_LEN : nat := 32.

(** The trait [AsyncFileStore]; an operation returns its value or its error,
    and the store afterwards. *)
Class AsyncFileStore (St H E : Type) := {
  begin_write : u32 -> u32 -> St -> (H + E) * St;
  write_at : H -> u32 -> bytes -> St -> (unit + E) * H * St;
  commit : H -> St -> (unit + E) * St;
  abort : H -> St -> St;
}.

(** [sha2::Sha256]. *)
Class Sha256Hasher (T : Type) := {
  hasher_new : T;
  hasher_update : T -> bytes -> T;
  hasher_finalize : T -> bytes;
  digest : bytes -> bytes;
}.
Class Sha256Laws (T : Type) `{Sha256Hasher T} :=
  finalize_updates : forall parts, hasher_finalize (fold_left hasher_update parts hasher_new) =
    digest (concat parts).

(** [thincan_file_transfer::Error]. *)
Inductive FtError (E CapnpError : Type) :=
| StoreError (e : E)
| Protocol
| CapnpFailed (e : CapnpError).
Arguments StoreError {E CapnpError} e.
Arguments Protocol {E CapnpError}.
Arguments CapnpFailed {E CapnpError} e.

(** [RecvFileResult]; [RecvFileResultNoAlloc] has the same fields with the
    metadata in a bounded vector. *)
Record RecvFileResult := {
  got_transfer_id : u32;
  got_total_len : u32;
  got_received_len : u32;
  got_sender_max_chunk_size : u32;
  got_negotiated_chunk_size : u32;
  got_metadata : bytes;
  got_file_hash_algo : FileHashAlgo;
  got_file_hash : bytes;
}.

Definition validate_sha256_file_hash (hash : bytes) : result bytes FileAckError :=
  if length hash =? 0 then Err HashMissing
  else if negb (length hash =? SHA256_HASH_LEN) then Err HashInvalidLength
  else let! out := copy_at (replicate SHA256_HASH_LEN 0%Z) 0 hash in Ok out.

Definition negotiated_chunk_size (receiver_max sender_max : u32) : u32 :=
  match receiver_max, sender_max with
  | 0, 0 => 0
  | 0, s => s
  | r, 0 => r
  | r, s => Z.min r s
  end%Z.

(** The parsed request, and the checked one with which the transfer runs. *)
Record Request := {
  rq_transfer_id : u32;
  rq_total_len : u32;
  rq_sender_max_chunk_size : u32;
  rq_metadata : bytes;
  rq_file_hash_algo : option FileHashAlgo;
  rq_file_hash : bytes;
}.
Record Transfer := {
  tr_transfer_id : u32;
  tr_total_len : u32;
  tr_sender_max_chunk_size : u32;
  tr_metadata : bytes;
  tr_file_hash_algo : FileHashAlgo;
  tr_expected_hash : bytes;
  tr_chunk_size : u32;
}.

Section receiver.
Context {St H E T CapnpError : Type} `{AsyncFileStore St H E} `{Sha256Hasher T} `{Capnp CapnpError}.

(** The receiver's operations: state is the store and the bus. *)
Definition RM (A : Type) : Type := M (St * FtBus) (stop (FtError E CapnpError)) A.
#[local] Instance RM_ret : MRet RM := fun A a => mret (M := M _ _) a.
#[local] Instance RM_bind : MBind RM := fun A B f m => mbind (M := M _ _) f m.

Definition exit_with {A} (e : FtError E CapnpError) : RM A := fail (Fails e).

(** [send_to_with_timeout(..).await.is_ok()]. *)
Definition send_ack (a : FileAckValue) : RM bool := fun '(s, b) =>
  match send_to_with_timeout (AckMsg a) b with
  | (Ok _, b') => (Ok true, (s, b'))
  | (Err (Fails _), b') => (Ok false, (s, b'))
  | (Err Waiting, b') => (Err Waiting, (s, b'))
  | (Err OutOfFuel, b') => (Err OutOfFuel, (s, b'))
  | (Panic, b') => (Panic, (s, b'))
  end.

(** The store's operations. *)
Definition store_begin_write (transfer_id total_len : u32) : RM H := fun '(s, b) =>
  match begin_write transfer_id total_len s with
  | (inl h, s') => (Ok h, (s', emit (StoreOp (BeginWrite transfer_id total_len)) b))
  | (inr e, s') =>
      (Err (Fails (StoreError e)), (s', emit (StoreOp (BeginFailed transfer_id total_len)) b))
  end.
Definition store_write_at (h : H) (offset : u32) (data : bytes) : RM (option E * H) := fun '(s, b) =>
  match write_at h offset data s with
  | (inl _, h', s') => (Ok (None, h'), (s', emit (StoreOp (WriteAt offset data)) b))
  | (inr e, h', s') => (Ok (Some e, h'), (s', emit (StoreOp (WriteFailed offset data)) b))
  end.
Definition store_commit (h : H) : RM unit := fun '(s, b) =>
  match commit h s with
  | (inl _, s') => (Ok tt, (s', emit (StoreOp Commit) b))
  | (inr e, s') => (Err (Fails (StoreError e)), (s', emit (StoreOp CommitFailed) b))
  end.
Definition store_abort (h : H) : RM unit := fun '(s, b) =>
  (Ok tt, (abort h s, emit (StoreOp AbortWrite) b)).

(** [bus.recv_next_from::<A::FileReq>(from)]: no timeout runs around it, so an
    elapsed timer does not end it. *)
Fixpoint recv_req_loop (evs : list RecvEvent) (b : FtBus) : result bytes (stop Error) * FtBus :=
  match evs with
  | [] => (Err Waiting, set_req_events [] b)
  | Elapsed :: r => recv_req_loop r b
  | RecvError e :: r => (Err (Fails e), emit (GotError e) (set_req_events r b))
  | Body x :: r => (Ok x, emit (Got x) (set_req_events r b))
  end.
Definition recv_next_req : RM bytes := fun '(s, b) =>
  match recv_req_loop (req_events b) b with
  | (Ok x, b') => (Ok x, (s, b'))
  | (Err (Fails _), b') => (Err (Fails Protocol), (s, b'))
  | (Err Waiting, b') => (Err Waiting, (s, b'))
  | (Err OutOfFuel, b') => (Err OutOfFuel, (s, b'))
  | (Panic, b') => (Panic, (s, b'))
  end.

(** The loop of [wait_for_transfer_chunk] over the events of the [FileChunk]
    mailbox, under its timeout. *)
Fixpoint wait_chunk_loop (transfer_id : u32) (evs : list RecvEvent) (b : FtBus) :
    result bytes (stop Error) * FtBus :=
  match evs with
  | [] => (Err Waiting, set_chunk_events [] b)
  | Elapsed :: r => (Err (Fails timeout), emit TimedOut (set_chunk_events r b))
  | RecvError e :: r => (Err (Fails e), emit (GotError e) (set_chunk_events r b))
  | Body x :: r =>
      let b' := emit (Got x) (set_chunk_events r b) in
      match read_chunk_transfer_id x with
      | Ok id => if (id =? transfer_id)%Z then (Ok x, b') else wait_chunk_loop transfer_id r b'
      | Err e => (Err (Fails e), b')
      | Panic => (Panic, b')
      end
  end.

(** [match wait_for_transfer_chunk(..).await { Ok(v) => .., Err(_) => .. }]. *)
Definition wait_for_transfer_chunk (transfer_id : u32) : RM (option bytes) := fun '(s, b) =>
  match wait_chunk_loop transfer_id (chunk_events b) b with
  | (Ok x, b') => (Ok (Some x), (s, b'))
  | (Err (Fails _), b') => (Ok None, (s, b'))
  | (Err Waiting, b') => (Err Waiting, (s, b'))
  | (Err OutOfFuel, b') => (Err OutOfFuel, (s, b'))
  | (Panic, b') => (Panic, (s, b'))
  end.

(** [let _ = send(file_ack_reject(..)).await; return Err(Error::Protocol)]. *)
Definition reject {A} (transfer_id : u32) (e : FileAckError) : RM A :=
  _ ← send_ack (file_ack_reject transfer_id e); exit_with Protocol.

(** [store.abort(write_bus).await; let _ = send(FileAckValue::new(transfer_id,
    Abort, next_offset, 0, e)).await; return Err(err)]. *)
Definition abort_transfer {A} (h : H) (transfer_id next_offset : u32) (e : FileAckError)
    (err : FtError E CapnpError) : RM A :=
  store_abort h;;
  _ ← send_ack (file_ack transfer_id Abort next_offset 0 e); exit_with err.

(** [store.abort(write_bus).await; return Err(err)]. *)
Definition abort_silently {A} (h : H) (err : FtError E CapnpError) : RM A :=
  store_abort h;; exit_with err.

(** * [recv_file_impl] *)

Definition recv_request : RM Request :=
  body ← recv_next_req;
  match read_file_req body with
  | inr e => exit_with (CapnpFailed e)
  | inl root =>
      mret {| rq_transfer_id := req_get_transfer_id root; rq_total_len := req_get_total_len root;
              rq_sender_max_chunk_size := req_get_sender_max_chunk_size root;
              rq_metadata := default [] (req_get_file_metadata root);
              rq_file_hash_algo := req_get_file_hash_algo root;
              rq_file_hash := default [] (req_get_file_hash root) |}
  end.

(** The checks on the request, each with its rejection. *)
Definition check_request (receiver : ReceiverConfig) (q : Request) : RM Transfer :=
  let transfer_id := rq_transfer_id q in
  match rq_file_hash_algo q with
  | None => reject transfer_id HashAlgoUnsupported
  | Some file_hash_algo =>
      if decide (file_hash_algo <> Sha256) then reject transfer_id HashAlgoUnsupported
      else
        match validate_sha256_file_hash (rq_file_hash q) with
        | Panic => fun s => (Panic, s)
        | Err e => reject transfer_id e
        | Ok expected_hash =>
            let negotiated :=
              negotiated_chunk_size (max_chunk_size receiver) (rq_sender_max_chunk_size q) in
            if (negotiated =? 0)%Z then reject transfer_id ChunkSizeTooSmall
            else mret {| tr_transfer_id := transfer_id; tr_total_len := rq_total_len q;
                         tr_sender_max_chunk_size := rq_sender_max_chunk_size q;
                         tr_metadata := rq_metadata q; tr_file_hash_algo := file_hash_algo;
                         tr_expected_hash := expected_hash; tr_chunk_size := negotiated |}
        end
  end.

Definition recv_result (t : Transfer) (received_len : u32) : RecvFileResult :=
  {| got_transfer_id := tr_transfer_id t; got_total_len := tr_total_len t;
     got_received_len := received_len;
     got_sender_max_chunk_size := tr_sender_max_chunk_size t;
     got_negotiated_chunk_size := tr_chunk_size t; got_metadata := tr_metadata t;
     got_file_hash_algo := tr_file_hash_algo t; got_file_hash := tr_expected_hash t |}.

(** The variables of the receive loop. *)
Record RecvLoop := {
  rl_handle : H;
  rl_hasher : T;
  rl_next_offset : u32;
  rl_last_progress_offset : u32;
}.

(** [if total_len == 0 { .. }]. *)
Definition finish_empty (t : Transfer) (h : H) (hasher : T) : RM RecvFileResult :=
  if decide (hasher_finalize hasher <> tr_expected_hash t)
  then abort_transfer h (tr_transfer_id t) 0 HashMismatch Protocol
  else store_commit h;; mret (recv_result t 0).

(** [if next_offset >= total_len { .. }]. *)
Definition finish_transfer (t : Transfer) (h : H) (hasher : T) : RM RecvFileResult :=
  if decide (hasher_finalize hasher <> tr_expected_hash t)
  then abort_transfer h (tr_transfer_id t) (tr_total_len t) HashMismatch Protocol
  else
    store_commit h;;
    ok ← send_ack (file_ack (tr_transfer_id t) Complete (tr_total_len t) 0 NoError);
    if (ok : bool) then mret (recv_result t (tr_total_len t)) else exit_with Protocol.

(** [begin_write], the accept, and the loop variables. *)
Definition start_transfer (t : Transfer) : RM RecvLoop :=
  h ← store_begin_write (tr_transfer_id t) (tr_total_len t);
  let hasher := hasher_new in
  ok ← send_ack (file_ack_accept (tr_transfer_id t) (tr_chunk_size t));
  if (ok : bool) then
    mret {| rl_handle := h; rl_hasher := hasher; rl_next_offset := 0; rl_last_progress_offset := 0 |}
  else abort_silently h Protocol.

(** The progress ack after a chunk, when a stride of bytes was written since
    the last one. *)
Definition progress_ack (t : Transfer) (st : RecvLoop) : RM RecvLoop :=
  let ack_stride := saturating_mul32 (tr_chunk_size t) PROGRESS_ACK_EVERY_CHUNKS in
  if (ack_stride <=? saturating_sub32 (rl_next_offset st) (rl_last_progress_offset st))%Z then
    ok ← send_ack (file_ack_progress (tr_transfer_id t) (rl_next_offset st));
    if (ok : bool) then
      mret {| rl_handle := rl_handle st; rl_hasher := rl_hasher st;
              rl_next_offset := rl_next_offset st; rl_last_progress_offset := rl_next_offset st |}
    else abort_silently (rl_handle st) Protocol
  else mret st.

(** A chunk at another offset than the next one: repeat the progress ack. *)
Definition resync (t : Transfer) (st : RecvLoop) : RM RecvLoop :=
  ok ← send_ack (file_ack_progress (tr_transfer_id t) (rl_next_offset st));
  if (ok : bool) then
    mret {| rl_handle := rl_handle st; rl_hasher := rl_hasher st;
            rl_next_offset := rl_next_offset st; rl_last_progress_offset := rl_next_offset st |}
  else abort_silently (rl_handle st) Protocol.

(** Write the accepted part of a chunk and advance. *)
Definition write_part (t : Transfer) (st : RecvLoop) (offset : u32) (data : bytes) : RM RecvLoop :=
  '(err, h) ← store_write_at (rl_handle st) offset data;
  match err with
  | Some e => abort_silently h (StoreError e)
  | None =>
      mret {| rl_handle := h; rl_hasher := hasher_update (rl_hasher st) data;
              rl_next_offset := saturating_add32 (rl_next_offset st) (Z.of_nat (length data));
              rl_last_progress_offset := rl_last_progress_offset st |}
  end.

(** The rest of the loop body once the chunk passed its checks: [inl] goes on
    with the loop, [inr] returns from the function. *)
Definition accept_chunk (t : Transfer) (st : RecvLoop) (offset : u32) (data : bytes) :
    RM (RecvLoop + RecvFileResult) :=
  if negb (offset =? rl_next_offset st)%Z then st ← resync t st; mret (inl st)
  else
    let remaining := saturating_sub32 (tr_total_len t) (rl_next_offset st) in
    let write_len := Z.to_nat (Z.min (wrap 32 (Z.of_nat (length data))) remaining) in
    if write_len =? 0 then mret (inl st)
    else
      part ← or_panic (slice data 0 write_len);
      st ← write_part t st offset part;
      if (tr_total_len t <=? rl_next_offset st)%Z
      then r ← finish_transfer t (rl_handle st) (rl_hasher st); mret (inr r)
      else st ← progress_ack t st; mret (inl st).

(** [while next_offset < total_len { .. } Err(Error::Protocol)]; each round
    takes an event of the chunk mailbox. *)
Fixpoint recv_loop (fuel : nat) (t : Transfer) (st : RecvLoop) : RM RecvFileResult :=
  match fuel with
  | O => fail OutOfFuel
  | S fuel' =>
      if (rl_next_offset st <? tr_total_len t)%Z then
        chunk ← wait_for_transfer_chunk (tr_transfer_id t);
        match chunk with
        | None => abort_silently (rl_handle st) Protocol
        | Some body =>
            match read_file_chunk body with
            | inr e => abort_transfer (rl_handle st) (tr_transfer_id t) (rl_next_offset st)
                         InvalidRequest (CapnpFailed e)
            | inl root =>
                let data := default [] (chunk_get_data root) in
                if negb (chunk_get_transfer_id root =? tr_transfer_id t)%Z
                then abort_transfer (rl_handle st) (tr_transfer_id t) (rl_next_offset st)
                       InvalidRequest Protocol
                else if (tr_chunk_size t <? wrap 32 (Z.of_nat (length data)))%Z
                then abort_transfer (rl_handle st) (tr_transfer_id t) (rl_next_offset st)
                       ChunkSizeTooLarge Protocol
                else
                  next ← accept_chunk t st (chunk_get_offset root) data;
                  match next with inr r => mret r | inl st => recv_loop fuel' t st end
            end
        end
      else exit_with Protocol
  end.

Definition chunk_fuel : RM nat := gets (fun '(_, b) => 1 + length (chunk_events b)).

Definition recv_file_impl (receiver : ReceiverConfig) : RM RecvFileResult :=
  q ← recv_request;
  t ← check_request receiver q;
  st ← start_transfer t;
  if (tr_total_len t =? 0)%Z then finish_empty t (rl_handle st) (rl_hasher st)
  else fuel ← chunk_fuel; recv_loop fuel t st.

(** * [recv_file_no_alloc_impl] *)

(** [HeaplessVec::<u8, N>::new().extend_from_slice(d)]: the vector and whether
    [d] fitted; a failed call adds nothing. *)
Definition extend_new (N : nat) (d : bytes) : bytes * bool :=
  if N <? length d then ([], false) else (d, true).

Section no_alloc.
Context (MAX_METADATA MAX_CHUNK : nat).

Definition recv_request_no_alloc : RM (Request * bool * bool) :=
  body ← recv_next_req;
  match read_file_req body with
  | inr e => exit_with (CapnpFailed e)
  | inl root =>
      let '(metadata, metadata_fits) :=
        extend_new MAX_METADATA (default [] (req_get_file_metadata root)) in
      let '(file_hash, file_hash_fits) :=
        extend_new SHA256_HASH_LEN (default [] (req_get_file_hash root)) in
      mret ({| rq_transfer_id := req_get_transfer_id root; rq_total_len := req_get_total_len root;
               rq_sender_max_chunk_size := req_get_sender_max_chunk_size root;
               rq_metadata := metadata; rq_file_hash_algo := req_get_file_hash_algo root;
               rq_file_hash := file_hash |}, metadata_fits, file_hash_fits)
  end.

Definition check_request_no_alloc (receiver : ReceiverConfig)
    (r : Request * bool * bool) : RM Transfer :=
  let '(q, metadata_fits, file_hash_fits) := r in
  let transfer_id := rq_transfer_id q in
  if negb metadata_fits then reject transfer_id InvalidRequest
  else if negb file_hash_fits then reject transfer_id HashInvalidLength
  else
  match rq_file_hash_algo q with
  | None => reject transfer_id HashAlgoUnsupported
  | Some file_hash_algo =>
      if decide (file_hash_algo <> Sha256) then reject transfer_id HashAlgoUnsupported
      else
        match validate_sha256_file_hash (rq_file_hash q) with
        | Panic => fun s => (Panic, s)
        | Err e => reject transfer_id e
        | Ok expected_hash =>
            let negotiated :=
              negotiated_chunk_size (max_chunk_size receiver) (rq_sender_max_chunk_size q) in
            if (negotiated =? 0)%Z then reject transfer_id ChunkSizeTooSmall
            else mret {| tr_transfer_id := transfer_id; tr_total_len := rq_total_len q;
                         tr_sender_max_chunk_size := rq_sender_max_chunk_size q;
                         tr_metadata := rq_metadata q; tr_file_hash_algo := file_hash_algo;
                         tr_expected_hash := expected_hash; tr_chunk_size := negotiated |}
        end
  end.

(** As [accept_chunk], from the buffer [chunk_data] of which [copy_len] bytes
    are the chunk. *)
Definition accept_chunk_no_alloc (t : Transfer) (st : RecvLoop) (offset : u32) (chunk_data : bytes)
    (copy_len : nat) : RM (RecvLoop + RecvFileResult) :=
  if negb (offset =? rl_next_offset st)%Z then st ← resync t st; mret (inl st)
  else
    let remaining := saturating_sub32 (tr_total_len t) (rl_next_offset st) in
    let write_len := copy_len `min` Z.to_nat remaining in
    if write_len =? 0 then mret (inl st)
    else
      part ← or_panic (slice chunk_data 0 write_len);
      st ← write_part t st offset part;
      if (tr_total_len t <=? rl_next_offset st)%Z
      then r ← finish_transfer t (rl_handle st) (rl_hasher st); mret (inr r)
      else st ← progress_ack t st; mret (inl st).

Fixpoint recv_loop_no_alloc (fuel : nat) (t : Transfer) (st : RecvLoop) : RM RecvFileResult :=
  match fuel with
  | O => fail OutOfFuel
  | S fuel' =>
      if (rl_next_offset st <? tr_total_len t)%Z then
        chunk ← wait_for_transfer_chunk (tr_transfer_id t);
        match chunk with
        | None => abort_silently (rl_handle st) Protocol
        | Some body =>
            match read_file_chunk body with
            | inr e => abort_transfer (rl_handle st) (tr_transfer_id t) (rl_next_offset st)
                         InvalidRequest (CapnpFailed e)
            | inl root =>
                let data := default [] (chunk_get_data root) in
                let copy_len := length data `min` MAX_CHUNK in
                src ← or_panic (slice data 0 copy_len);
                chunk_data ← or_panic (copy_at (replicate MAX_CHUNK 0%Z) 0 src);
                if negb (chunk_get_transfer_id root =? tr_transfer_id t)%Z
                then abort_transfer (rl_handle st) (tr_transfer_id t) (rl_next_offset st)
                       InvalidRequest Protocol
                else if (MAX_CHUNK <? length data)
                     || (tr_chunk_size t <? wrap 32 (Z.of_nat (length data)))%Z
                then abort_transfer (rl_handle st) (tr_transfer_id t) (rl_next_offset st)
                       ChunkSizeTooLarge Protocol
                else
                  next ← accept_chunk_no_alloc t st (chunk_get_offset root) chunk_data copy_len;
                  match next with inr r => mret r | inl st => recv_loop_no_alloc fuel' t st end
            end
        end
      else exit_with Protocol
  end.

(** From [begin_write] to the loop: the accept, and the end of the call for an
    empty file ([inr]). *)
Definition begin_no_alloc (t : Transfer) : RM (RecvLoop + RecvFileResult) :=
  st ← start_transfer t;
  if (tr_total_len t =? 0)%Z then r ← finish_empty t (rl_handle st) (rl_hasher st); mret (inr r)
  else mret (inl st).

Definition recv_file_no_alloc_impl (receiver : ReceiverConfig) : RM RecvFileResult :=
  q ← recv_request_no_alloc;
  t ← check_request_no_alloc receiver q;
  next ← begin_no_alloc t;
  match next with
  | inr r => mret r
  | inl st => fuel ← chunk_fuel; recv_loop_no_alloc fuel t st
  end.
End no_alloc.
End receiver.
Arguments RM St E CapnpError A : clear implicits.
Arguments RecvLoop H T : clear implicits.

(** * What the log of a receive call may hold *)

Inductive HandleStatus := NotBegun | Open | Committed | CommitError | Aborted.
Global Instance HandleStatus_eq_dec : EqDecision HandleStatus.
Proof. solve_decision. Defined.

Definition status_step (h : HandleStatus) (e : LogEntry) : HandleStatus :=
  match e with
  | StoreOp (BeginWrite _ _) => Open
  | StoreOp Commit => Committed
  | StoreOp CommitFailed => CommitError
  | StoreOp AbortWrite => Aborted
  | _ => h
  end.
Definition status (L : list LogEntry) : HandleStatus := fold_left status_step L NotBegun.

(** The successful writes, and the content they make. *)
Definition write_data (e : LogEntry) : option bytes :=
  match e with StoreOp (WriteAt _ d) => Some d | _ => None end.
Definition parts (L : list LogEntry) : list bytes := omap write_data L.
Definition written (L : list LogEntry) : bytes := concat (parts L).

Definition no_store_op (e : LogEntry) : Prop := match e with StoreOp _ => False | _ => True end.

Lemma status_snoc L e : status (L ++ [e]) = status_step (status L) e.
Proof. unfold status. by rewrite fold_left_app. Qed.
Lemma status_neutral L l : Forall no_store_op l -> status (L ++ l) = status L.
Proof.
  intros Hl. unfold status. rewrite fold_left_app. generalize (fold_left status_step L NotBegun).
  induction Hl as [|e l He _ IH]; intros h; [done|]. simpl. rewrite IH. by destruct e.
Qed.
Lemma parts_snoc L e : parts (L ++ [e]) = parts L ++ option_list (write_data e).
Proof. unfold parts. rewrite omap_app. simpl. by destruct (write_data e). Qed.
Lemma parts_neutral L l : Forall no_store_op l -> parts (L ++ l) = parts L.
Proof.
  intros Hl. unfold parts. rewrite omap_app. rewrite <- (app_nil_r (omap write_data L)) at 2. f_equal.
  by induction Hl as [|[] l He _ IH].
Qed.

Section receiver_proofs.
Context {St H E T CapnpError : Type} `{AsyncFileStore St H E} `{HS : Sha256Laws T}.
Context `{HC : CapnpReadsU32 CapnpError}.

Section log.
Context (t : Transfer) (start : list LogEntry).

(** What may follow [L] in the log of the transfer [t]. *)
Definition recv_entry_ok (L : list LogEntry) (e : LogEntry) : Prop :=
  match e with
  | Sent (AckMsg a) | SendFailed (AckMsg a) _ =>
      ack_transfer_id a = tr_transfer_id t /\
      match ack_kind a with
      | Accept => status L = Open /\ written L = [] /\ ack_chunk_size a = tr_chunk_size t
      | Ack => status L = Open /\ ack_next_offset a = Z.of_nat (length (written L)) /\
               (ack_next_offset a < tr_total_len t)%Z
      | Complete => status L = Committed /\ ack_next_offset a = tr_total_len t
      | Reject => status L = NotBegun
      | Abort => status L = Aborted
      end
  | Sent _ | SendFailed _ _ => False
  | StoreOp c =>
      match c with
      | BeginWrite i n | BeginFailed i n =>
          status L = NotBegun /\ i = tr_transfer_id t /\ n = tr_total_len t
      | WriteAt off d | WriteFailed off d =>
          status L = Open /\ off = Z.of_nat (length (written L)) /\ d <> [] /\
          (Z.of_nat (length (written L ++ d)) <= tr_total_len t)%Z
      | Commit | CommitFailed =>
          status L = Open /\ Z.of_nat (length (written L)) = tr_total_len t /\
          digest (written L) = tr_expected_hash t
      | AbortWrite => status L = Open
      end
  | Got _ | GotError _ | TimedOut => True
  end.
Definition recv_log_ok (L : list LogEntry) : Prop := each_entry recv_entry_ok L.

Lemma recv_log_ok_received L l :
  recv_log_ok L -> Forall (fun e => no_store_op e /\ forall L', recv_entry_ok L' e) l ->
  recv_log_ok (L ++ l).
Proof.
  intros HL Hl. apply each_entry_app; [done|]. intros L'. eapply Forall_impl; [done|].
  intros e [_ He]. apply He.
Qed.

(** [at_ log0 n L w]: since the call started with the log [log0] it has logged
    [L], which begins with [start] and is fine, and at most [n] events of the
    chunk mailbox are left. *)
Definition at_ (log0 : list LogEntry) (n : nat) (L : list LogEntry) (w : St * FtBus) : Prop :=
  log w.2 = log0 ++ L /\ recv_log_ok L /\ length (chunk_events w.2) <= n /\ start `prefix_of` L.

Lemma at_snoc log0 n L e w w' :
  at_ log0 n L w -> recv_entry_ok L e -> log w'.2 = log w.2 ++ [e] ->
  length (chunk_events w'.2) <= length (chunk_events w.2) -> at_ log0 n (L ++ [e]) w'.
Proof.
  intros (Hl & HL & Hn & Hp) He Hl' Hc.
  split_and!; [by rewrite Hl', Hl, app_assoc|by apply each_entry_snoc|lia|by apply prefix_app_r].
Qed.

(** How a call may end: suspended anywhere; failed with no handle open. *)
Definition suspended (log0 : list LogEntry) (w : St * FtBus) : Prop := exists n L, at_ log0 n L w.
Definition closed (log0 : list LogEntry) (_ : FtError E CapnpError) (w : St * FtBus) : Prop :=
  exists n L, at_ log0 n L w /\ status L <> Open.

Abbreviation finishes log0 Q run := (ends (suspended log0) Q (closed log0) run).

(** An ack leaves the status and the content alone. *)
Lemma send_ack_spec log0 n L a w :
  at_ log0 n L w -> recv_entry_ok L (Sent (AckMsg a)) ->
  finishes log0 (fun ok w' => exists e, at_ log0 n (L ++ [e]) w' /\ status (L ++ [e]) = status L /\
      parts (L ++ [e]) = parts L /\ (ok = true -> e = Sent (AckMsg a)))
    (send_ack a w).
Proof.
  intros Hw Ha. destruct w as [s b]. unfold send_ack, send_to_with_timeout.
  destruct (send_results b) as [|[e|] r] eqn:Hr; simpl; [by exists n, L|..].
  - exists (SendFailed (AckMsg a) e). rewrite status_snoc, parts_snoc, app_nil_r.
    split_and!; [by eapply at_snoc|done..].
  - exists (Sent (AckMsg a)). rewrite status_snoc, parts_snoc, app_nil_r.
    split_and!; [by eapply at_snoc|done..].
Qed.

Lemma reject_spec {A} (Q : A -> St * FtBus -> Prop) log0 n L e w :
  at_ log0 n L w -> status L = NotBegun ->
  finishes log0 Q (reject (tr_transfer_id t) e w).
Proof.
  intros Hw Hs. eapply ends_bind; [by eapply send_ack_spec|]. simpl.
  intros ok w' (x & Hw' & Hst & _). exists n, (L ++ [x]). split; [done|]. by rewrite Hst, Hs.
Qed.

Lemma abort_spec log0 n L h w :
  at_ log0 n L w -> status L = Open ->
  finishes log0 (fun _ w' => at_ log0 n (L ++ [StoreOp AbortWrite]) w' /\
      status (L ++ [StoreOp AbortWrite]) = Aborted) (store_abort h w).
Proof.
  intros Hw Hs. destruct w as [s b]. simpl. rewrite status_snoc. split; [|done].
  by eapply at_snoc.
Qed.

Lemma abort_silently_spec {A} (Q : A -> St * FtBus -> Prop) log0 n L h err w :
  at_ log0 n L w -> status L = Open -> finishes log0 Q (abort_silently h err w).
Proof.
  intros Hw Hs. eapply ends_bind; [by eapply abort_spec|]. simpl. intros _ w' (Hw' & Hst).
  eexists n, _. split; [done|]. by rewrite Hst.
Qed.

Lemma abort_transfer_spec {A} (Q : A -> St * FtBus -> Prop) log0 n L h k e err w :
  at_ log0 n L w -> status L = Open ->
  finishes log0 Q (abort_transfer h (tr_transfer_id t) k e err w).
Proof.
  intros Hw Hs. eapply ends_bind; [by eapply abort_spec|]. simpl. intros _ w' (Hw' & Hst).
  eapply ends_bind; [by eapply send_ack_spec|]. simpl.
  intros ok w2 (x & Hw2 & Hst2 & _). eexists n, _. split; [done|]. by rewrite Hst2, Hst.
Qed.

Lemma wait_chunk_loop_run evs b :
  let '(r, b') := wait_chunk_loop (tr_transfer_id t) evs b in
  exists l, log b' = log b ++ l /\
    Forall (fun e => no_store_op e /\ forall L', recv_entry_ok L' e) l /\
    length (chunk_events b') <= length evs /\
    match r with
    | Ok x => length (chunk_events b') < length evs /\ Got x ∈ l
    | Err (Fails _) => True
    | Err Waiting => True
    | Err OutOfFuel | Panic => False
    end.
Proof.
  revert b. induction evs as [|ev evs IH]; intros b; simpl.
  { exists []. rewrite app_nil_r. repeat split; auto. }
  destruct ev as [x|e|];
    [|eexists [_]; split_and!; [done|by apply Forall_singleton|simpl; lia|done]..].
  destruct (read_chunk_transfer_id x) as [id|e|] eqn:Hd.
  - case_bool.
    { exists [Got x]. split_and!; [done|by apply Forall_singleton|simpl; lia..|].
      by apply list_elem_of_singleton. }
    specialize (IH (emit (Got x) (set_chunk_events evs b))).
    destruct (wait_chunk_loop _ _ _) as [r b']. destruct IH as (l & Hl & Hr & Hlen & Hres).
    exists (Got x :: l). rewrite Hl. simpl. rewrite <- app_assoc.
    split_and!; [done|by constructor|lia|].
    destruct r as [a|[e| |]|]; simpl in *; try done. destruct Hres as [? ?].
    split; [lia|]. rewrite elem_of_cons. auto.
  - exists [Got x]. split_and!; [done|by apply Forall_singleton|simpl; lia|done].
  - exfalso. unfold read_chunk_transfer_id, with_root in Hd. cases.
Qed.

(** A wait returns a chunk and takes an event, or reports that none came. *)
Lemma wait_chunk_spec log0 n L w :
  at_ log0 n L w ->
  finishes log0 (fun o w' => exists l, at_ log0 n (L ++ l) w' /\ status (L ++ l) = status L /\
      parts (L ++ l) = parts L /\
      (forall x, o = Some x -> 0 < n /\ at_ log0 (n - 1) (L ++ l) w'))
    (wait_for_transfer_chunk (tr_transfer_id t) w).
Proof.
  intros (Hl & HL & Hn & Hpre). destruct w as [s b]. unfold wait_for_transfer_chunk.
  pose proof (wait_chunk_loop_run (chunk_events b) b) as Hw.
  destruct (wait_chunk_loop _ _ _) as [r b']. destruct Hw as (l & Hb' & Hr & Hlen & Hres).
  simpl in *.
  assert (Hneut : Forall no_store_op l) by (eapply Forall_impl; [done|]; by intros ? []).
  assert (Hok : recv_log_ok (L ++ l)) by (by apply recv_log_ok_received).
  assert (Hlog : log b' = log0 ++ L ++ l) by (by rewrite Hb', Hl, app_assoc).
  apply (prefix_app_r _ _ l) in Hpre.
  destruct r as [x|[e| |]|]; simpl; [|..|done].
  - exists l. split_and!; [split_and!; simpl; auto; lia|by apply status_neutral|by apply parts_neutral|].
    intros y _. destruct Hres as [? _]. split; [lia|]. split_and!; simpl; auto. lia.
  - exists l. split_and!; [split_and!; simpl; auto; lia|by apply status_neutral|by apply parts_neutral|].
    intros y [=].
  - exists n, (L ++ l). split_and!; simpl; auto. lia.
  - done.
Qed.

(** * The loop *)

(** The handle is open, [next_offset] counts the written bytes and the hasher
    has seen them. *)
Record LoopInv (L : list LogEntry) (st : RecvLoop H T) : Prop := {
  li_open : status L = Open;
  li_next : rl_next_offset st = Z.of_nat (length (written L));
  li_hash : rl_hasher st = fold_left hasher_update (parts L) hasher_new;
}.

Lemma loop_inv_digest L st : LoopInv L st -> hasher_finalize (rl_hasher st) = digest (written L).
Proof. intros [_ _ ->]. apply finalize_updates. Qed.

Lemma loop_inv_neutral L L' st p :
  LoopInv L st -> status L' = status L -> parts L' = parts L ->
  LoopInv L' {| rl_handle := rl_handle st; rl_hasher := rl_hasher st;
                rl_next_offset := rl_next_offset st; rl_last_progress_offset := p |}.
Proof. intros [Ho Hn Hh] Hs Hp. split; simpl; unfold written in *; congruence. Qed.

Lemma write_part_spec log0 n L st data w :
  is_u32 (tr_total_len t) ->
  at_ log0 n L w -> LoopInv L st -> data <> [] ->
  (Z.of_nat (length (written L ++ data)) <= tr_total_len t)%Z ->
  finishes log0 (fun st' w' => exists L', at_ log0 n L' w' /\ LoopInv L' st' /\
      written L' = written L ++ data)
    (write_part t st (rl_next_offset st) data w).
Proof.
  intros Ht Hw [Ho Hn Hh] Hd Hle. destruct w as [s b].
  eapply ends_bind with (Q := fun r w' =>
    let e := match r.1 with None => WriteAt (rl_next_offset st) data
             | Some _ => WriteFailed (rl_next_offset st) data end in
    at_ log0 n (L ++ [StoreOp e]) w' /\ status (L ++ [StoreOp e]) = Open).
  { unfold store_write_at. rewrite <- Ho.
    destruct (write_at (rl_handle st) (rl_next_offset st) data s) as [[[[]|e] h] s']; simpl;
      rewrite status_snoc; (split; [by eapply at_snoc|done]). }
  intros [[e|] h] w' [Hw' Hs']; simpl in *; [by eapply abort_silently_spec|].
  eexists. split; [exact Hw'|].
  assert (Hwr : written (L ++ [StoreOp (WriteAt (rl_next_offset st) data)]) = written L ++ data).
  { unfold written. rewrite parts_snoc, concat_app. simpl. by rewrite app_nil_r. }
  split; [|done]. split; simpl; [done| |].
  - rewrite Hwr, Hn. unfold saturating_add32, u32_max, in_width in *. len.
  - by rewrite parts_snoc, fold_left_app, Hh.
Qed.

(** The result of a successful call: the committed content is the whole file
    and matches the digest. *)
Definition committed (L : list LogEntry) (r : RecvFileResult) : Prop :=
  r = recv_result t (tr_total_len t) /\ status L = Committed /\
  Z.of_nat (length (written L)) = tr_total_len t /\ digest (written L) = tr_expected_hash t /\
  (0 < tr_total_len t ->
     exists L', L = L' ++ [Sent (AckMsg (file_ack (tr_transfer_id t) Complete (tr_total_len t) 0 NoError))])%Z.

Definition received (log0 : list LogEntry) (r : RecvFileResult) (w : St * FtBus) : Prop :=
  exists n L, at_ log0 n L w /\ committed L r.

Lemma commit_spec log0 n L h w :
  at_ log0 n L w -> status L = Open -> Z.of_nat (length (written L)) = tr_total_len t ->
  digest (written L) = tr_expected_hash t ->
  finishes log0 (fun _ w' => at_ log0 n (L ++ [StoreOp Commit]) w' /\
      status (L ++ [StoreOp Commit]) = Committed /\ written (L ++ [StoreOp Commit]) = written L)
    (store_commit h w).
Proof.
  intros Hw Ho Hlen Hd. destruct w as [s b]. unfold store_commit.
  destruct (commit h s) as [[[]|e] s']; simpl.
  - rewrite status_snoc. split_and!; [by eapply at_snoc|done|].
    unfold written. by rewrite parts_snoc, app_nil_r.
  - exists n, (L ++ [StoreOp CommitFailed]). split; [by eapply at_snoc|]. by rewrite status_snoc.
Qed.

Lemma finish_transfer_spec log0 n L st w :
  at_ log0 n L w -> LoopInv L st -> Z.of_nat (length (written L)) = tr_total_len t ->
  finishes log0 (received log0) (finish_transfer t (rl_handle st) (rl_hasher st) w).
Proof.
  intros Hw Hi Hlen. unfold finish_transfer. rewrite (loop_inv_digest L st Hi).
  case_decide as Hd; [eapply abort_transfer_spec; [done|apply Hi]|].
  eapply ends_bind; [eapply commit_spec; [done|apply Hi|done..]|]. cbv beta.
  intros _ w1 (Hw1 & Hst & Hwr). eapply ends_bind; [by eapply send_ack_spec|]. cbv beta.
  intros ok w2 (e & Hw2 & Hst2 & Hp2 & Hok). destruct ok.
  - eexists n, _. split; [exact Hw2|]. unfold committed, written in *.
    rewrite Hst2, Hst, Hp2, Hwr. split_and!; [done..|]. intros _. rewrite (Hok eq_refl). eauto.
  - eexists n, _. split; [exact Hw2|]. by rewrite Hst2, Hst.
Qed.

Lemma finish_empty_spec log0 n L st w :
  at_ log0 n L w -> LoopInv L st -> Z.of_nat (length (written L)) = tr_total_len t ->
  tr_total_len t = 0%Z ->
  finishes log0 (received log0) (finish_empty t (rl_handle st) (rl_hasher st) w).
Proof.
  intros Hw Hi Hlen Hz. unfold finish_empty. rewrite (loop_inv_digest L st Hi).
  case_decide as Hd; [eapply abort_transfer_spec; [done|apply Hi]|].
  eapply ends_bind; [eapply commit_spec; [done|apply Hi|done..]|]. cbv beta.
  intros _ w1 (Hw1 & Hst & Hwr). eexists n, _. split; [exact Hw1|].
  unfold committed. rewrite Hwr, Hst, Hz. split_and!; [done..|congruence|done|lia].
Qed.

(** What one accepted chunk leaves: the loop goes on, or the call returns. *)
Definition next_round (log0 : list LogEntry) (n : nat) (o : RecvLoop H T + RecvFileResult)
    (w : St * FtBus) : Prop :=
  match o with
  | inr r => received log0 r w
  | inl st => exists L, at_ log0 n L w /\ LoopInv L st /\ (rl_next_offset st < tr_total_len t)%Z
  end.

Lemma ack_progress_spec log0 n L st w :
  at_ log0 n L w -> LoopInv L st -> (rl_next_offset st < tr_total_len t)%Z ->
  finishes log0 (fun st' w' => next_round log0 n (inl st') w') (resync t st w) /\
  finishes log0 (fun st' w' => next_round log0 n (inl st') w') (progress_ack t st w).
Proof.
  intros Hw Hi Hlt.
  assert (Hs : finishes log0 (fun st' w' => next_round log0 n (inl st') w') (resync t st w)).
  { destruct (Hi) as [Ho Hn _]. eapply ends_bind; [by eapply send_ack_spec|]. cbv beta.
    intros ok w1 (e & Hw1 & Hst & Hp & _). destruct ok.
    - eexists. split; [exact Hw1|]. split; [|done]. by eapply loop_inv_neutral.
    - eapply abort_silently_spec; [done|]. by rewrite Hst. }
  split; [done|]. unfold progress_ack. case_bool; [exact Hs|]. by exists L.
Qed.

(** The tail of the loop body, for the part of the chunk to be written. *)
Lemma accept_part_spec log0 n L st part w :
  is_u32 (tr_total_len t) ->
  at_ log0 n L w -> LoopInv L st -> part <> [] ->
  (rl_next_offset st + Z.of_nat (length part) <= tr_total_len t)%Z ->
  finishes log0 (next_round log0 n)
    ((write_part t st (rl_next_offset st) part ≫= fun st' =>
      if (tr_total_len t <=? rl_next_offset st')%Z
      then finish_transfer t (rl_handle st') (rl_hasher st') ≫= fun r => mret (inr r)
      else progress_ack t st' ≫= fun st'' => mret (inl st'')) w).
Proof.
  intros Ht Hw Hi Hp Hle. destruct (Hi) as [_ Hn _].
  eapply ends_bind; [eapply write_part_spec; [done..|]; len|]. cbv beta.
  intros st' w' (L' & Hw' & Hi' & Hwr). destruct (Hi') as [_ Hn' _].
  case_bool.
  - eapply ends_bind; [eapply finish_transfer_spec; [done..|]|by intros r w2 Hr].
    rewrite Hwr in *. len.
  - eapply ends_bind; [by eapply ack_progress_spec|]. by intros st2 w2 Hr.
Qed.

Lemma accept_chunk_spec log0 n L st offset data w :
  is_u32 (tr_total_len t) ->
  at_ log0 n L w -> LoopInv L st -> (rl_next_offset st < tr_total_len t)%Z ->
  finishes log0 (next_round log0 n) (accept_chunk t st offset data w).
Proof.
  intros Ht Hw Hi Hlt. unfold accept_chunk. destruct (Z.eqb_spec offset (rl_next_offset st)) as [->|_].
  2:{ eapply ends_bind; [by eapply ack_progress_spec|]. by intros st2 w2 Hr. }
  simpl negb. cbv iota zeta. unfold saturating_sub32.
  set (k := Z.to_nat _).
  assert (Hk : k <= length data /\ (Z.of_nat k <= tr_total_len t - rl_next_offset st)%Z).
  { unfold k, wrap. pose proof (Z.mod_le (Z.of_nat (length data)) (2 ^ 32)). lia. }
  destruct (Nat.eqb_spec k 0) as [|Hk0]; [by exists L|].
  rewrite slice_to_Some by lia. eapply ends_bind with (Q := fun p w' => p = take k data /\ w' = w); [done|].
  intros p w' [-> ->]. eapply accept_part_spec; [done..| |len].
  intros Hnil%(f_equal length). len.
Qed.

Lemma accept_chunk_no_alloc_spec log0 n L st offset buf copy_len w :
  is_u32 (tr_total_len t) -> copy_len <= length buf ->
  at_ log0 n L w -> LoopInv L st -> (rl_next_offset st < tr_total_len t)%Z ->
  finishes log0 (next_round log0 n) (accept_chunk_no_alloc t st offset buf copy_len w).
Proof.
  intros Ht Hc Hw Hi Hlt. unfold accept_chunk_no_alloc.
  destruct (Z.eqb_spec offset (rl_next_offset st)) as [->|_].
  2:{ eapply ends_bind; [by eapply ack_progress_spec|]. by intros st2 w2 Hr. }
  simpl negb. cbv iota zeta. unfold saturating_sub32.
  set (k := copy_len `min` _).
  assert (Hk : k <= length buf /\ (Z.of_nat k <= tr_total_len t - rl_next_offset st)%Z) by lia.
  destruct (Nat.eqb_spec k 0) as [|Hk0]; [by exists L|].
  rewrite slice_to_Some by lia. eapply ends_bind with (Q := fun p w' => p = take k buf /\ w' = w); [done|].
  intros p w' [-> ->]. eapply accept_part_spec; [done..| |len].
  intros Hnil%(f_equal length). len.
Qed.

Lemma recv_loop_spec fuel log0 n L st w :
  is_u32 (tr_total_len t) ->
  at_ log0 n L w -> LoopInv L st -> (rl_next_offset st < tr_total_len t)%Z -> n < fuel ->
  finishes log0 (received log0) (recv_loop fuel t st w).
Proof.
  intros Ht. revert n L st w. induction fuel as [|fuel IH]; intros n L st w Hw Hi Hlt Hf; [lia|].
  cbn [recv_loop]. rewrite (proj2 (Z.ltb_lt _ _) Hlt).
  eapply ends_bind; [by eapply wait_chunk_spec|]. cbv beta.
  intros o w1 (l & Hw1 & Hst & Hp & Hsome).
  assert (Ho : status (L ++ l) = Open) by (rewrite Hst; apply Hi).
  destruct o as [body|]; [|by eapply abort_silently_spec].
  destruct (Hsome body eq_refl) as [Hn Hw1'].
  destruct (read_file_chunk body) as [root|e]; [|by eapply abort_transfer_spec].
  destruct (negb _); [by eapply abort_transfer_spec|].
  destruct (_ <? _)%Z; [by eapply abort_transfer_spec|].
  assert (Hi' : LoopInv (L ++ l) st) by (destruct st; by eapply (loop_inv_neutral _ _ _ _ Hi)).
  eapply ends_bind; [by eapply accept_chunk_spec|].
  intros [st'|r] w2 Hr; [|exact Hr]. destruct Hr as (L' & Hw2 & Hi2 & Hlt2).
  eapply IH; [done..|lia].
Qed.

Lemma recv_loop_no_alloc_spec MAX_CHUNK fuel log0 n L st w :
  is_u32 (tr_total_len t) ->
  at_ log0 n L w -> LoopInv L st -> (rl_next_offset st < tr_total_len t)%Z -> n < fuel ->
  finishes log0 (received log0) (recv_loop_no_alloc MAX_CHUNK fuel t st w).
Proof.
  intros Ht. revert n L st w. induction fuel as [|fuel IH]; intros n L st w Hw Hi Hlt Hf; [lia|].
  cbn [recv_loop_no_alloc]. rewrite (proj2 (Z.ltb_lt _ _) Hlt).
  eapply ends_bind; [by eapply wait_chunk_spec|]. cbv beta.
  intros o w1 (l & Hw1 & Hst & Hp & Hsome).
  assert (Ho : status (L ++ l) = Open) by (rewrite Hst; apply Hi).
  destruct o as [body|]; [|by eapply abort_silently_spec].
  destruct (Hsome body eq_refl) as [Hn Hw1'].
  destruct (read_file_chunk body) as [root|e]; [|by eapply abort_transfer_spec].
  rewrite slice_to_Some by lia. eapply ends_bind with (Q := fun p w' => p = take _ _ /\ w' = w1); [done|].
  intros p w' [-> ->]. rewrite copy_at_Some by len.
  eapply ends_bind with (Q := fun p w' => length p = MAX_CHUNK /\ w' = w1); [split; [len|done]|].
  intros buf w' [Hbuf ->].
  destruct (negb _); [by eapply abort_transfer_spec|].
  destruct (_ || _); [by eapply abort_transfer_spec|].
  assert (Hi' : LoopInv (L ++ l) st) by (destruct st; by eapply (loop_inv_neutral _ _ _ _ Hi)).
  eapply ends_bind; [eapply accept_chunk_no_alloc_spec; [done|lia|done..]|].
  intros [st'|r] w2 Hr; [|exact Hr]. destruct Hr as (L' & Hw2 & Hi2 & Hlt2).
  eapply IH; [done..|lia].
Qed.

Lemma start_transfer_spec log0 n L w :
  at_ log0 n L w -> status L = NotBegun -> parts L = [] ->
  finishes log0 (fun st w' => exists L', at_ log0 n L' w' /\ LoopInv L' st /\ parts L' = [])
    (start_transfer t w).
Proof.
  intros Hw Hs Hp. destruct w as [s b].
  set (e := StoreOp (BeginWrite (tr_transfer_id t) (tr_total_len t))).
  eapply ends_bind with (Q := fun _ w' => at_ log0 n (L ++ [e]) w').
  { unfold store_begin_write. destruct (begin_write _ _ s) as [[h|x] s']; simpl.
    - by eapply at_snoc.
    - exists n, (L ++ [StoreOp (BeginFailed (tr_transfer_id t) (tr_total_len t))]).
      split; [by eapply at_snoc|]. by rewrite status_snoc, Hs. }
  intros h w' Hw'.
  assert (Ho : status (L ++ [e]) = Open) by (by rewrite status_snoc).
  assert (Hp' : parts (L ++ [e]) = []) by (by rewrite parts_snoc, Hp).
  eapply ends_bind; [eapply send_ack_spec; [done|]|].
  { simpl. unfold written. by rewrite Hp'. }
  cbv beta. intros ok w2 (x & Hw2 & Hst & Hp2 & _). destruct ok.
  - eexists. split; [exact Hw2|]. rewrite Hp2, Hp'. split; [|done].
    split; simpl; [congruence|unfold written; by rewrite Hp2, Hp'|by rewrite Hp2, Hp'].
  - eapply abort_silently_spec; [done|]. by rewrite Hst.
Qed.

(** Everything after the checks. *)
Lemma transfer_spec fuel_of (loop : nat -> RecvLoop H T -> RM St E CapnpError RecvFileResult)
    log0 n L w :
  (forall fuel n L st w, at_ log0 n L w -> LoopInv L st -> (rl_next_offset st < tr_total_len t)%Z ->
     n < fuel -> finishes log0 (received log0) (loop fuel st w)) ->
  (forall w, fuel_of w = (Ok (1 + length (chunk_events w.2)), w)) ->
  is_u32 (tr_total_len t) -> at_ log0 n L w -> status L = NotBegun -> parts L = [] ->
  finishes log0 (received log0)
    ((start_transfer t ≫= fun st =>
      if (tr_total_len t =? 0)%Z then finish_empty t (rl_handle st) (rl_hasher st)
      else (fuel_of : M (St * FtBus) (stop (FtError E CapnpError)) nat) ≫= fun fuel => loop fuel st) w).
Proof.
  intros Hloop Hfuel Ht Hw Hs Hp. eapply ends_bind; [by eapply start_transfer_spec|]. cbv beta.
  intros st w1 (L1 & Hw1 & Hi & Hp1). assert (Hwr : written L1 = []) by (unfold written; by rewrite Hp1).
  destruct (Z.eqb_spec (tr_total_len t) 0) as [Hz|Hz].
  { eapply finish_empty_spec; [done..| |done]. by rewrite Hwr, Hz. }
  eapply ends_bind with (Q := fun k w' => w' = w1 /\ k = 1 + length (chunk_events w1.2)).
  { by rewrite Hfuel. }
  intros k w2 [-> ->]. eapply (Hloop _ (length (chunk_events w1.2)) L1).
  - destruct Hw1 as (? & ? & ? & ?). by split_and!.
  - done.
  - destruct Hi as [_ -> _]. rewrite Hwr. simpl. unfold in_width in Ht. lia.
  - lia.
Qed.
End log.

(** * The request *)

(** The transfer the receiver runs for a request it accepts. *)
Definition granted (receiver : ReceiverConfig) (root : file_req_reader) (t : Transfer) : Prop :=
  tr_transfer_id t = req_get_transfer_id root /\ tr_total_len t = req_get_total_len root /\
  tr_sender_max_chunk_size t = req_get_sender_max_chunk_size root /\
  tr_metadata t = default [] (req_get_file_metadata root) /\
  req_get_file_hash_algo root = Some (tr_file_hash_algo t) /\
  req_get_file_hash root = Some (tr_expected_hash t) /\ length (tr_expected_hash t) = SHA256_HASH_LEN /\
  tr_chunk_size t =
    negotiated_chunk_size (max_chunk_size receiver) (req_get_sender_max_chunk_size root) /\
  tr_chunk_size t <> 0%Z.

Lemma validate_hash_ok h h' :
  validate_sha256_file_hash h = Ok h' <-> h' = h /\ length h = SHA256_HASH_LEN.
Proof.
  unfold validate_sha256_file_hash, SHA256_HASH_LEN.
  destruct (Nat.eqb_spec (length h) 0); [split; [done|lia]|].
  destruct (Nat.eqb_spec (length h) 32) as [Hl|Hl]; simpl; [|split; [done|lia]].
  rewrite copy_at_Some by (simpl; lia). simpl.
  rewrite drop_ge by (simpl; lia). rewrite app_nil_r.
  split; [intros [= <-]; done|intros [-> _]; done].
Qed.

Lemma validate_hash_total h : validate_sha256_file_hash h <> Panic.
Proof.
  unfold validate_sha256_file_hash, SHA256_HASH_LEN. repeat case_bool; simpl; try done.
  by rewrite copy_at_Some by (simpl; lia).
Qed.

(** A transfer that only carries the id of the request, for the log of a
    rejection. *)
Definition rejected_transfer (id : u32) : Transfer :=
  {| tr_transfer_id := id; tr_total_len := 0; tr_sender_max_chunk_size := 0; tr_metadata := [];
     tr_file_hash_algo := Sha256; tr_expected_hash := []; tr_chunk_size := 0 |}.

(** What the log of a call says of the transfer it runs: it begins with a
    request that grants the transfer; or no request was accepted and the store
    was not touched, and the transfer carries the id of the request, if one
    was read. *)
Definition requested (receiver : ReceiverConfig) (t : Transfer) (L : list LogEntry) : Prop :=
  (exists body root L', L = Got body :: L' /\ read_file_req body = inl root /\ granted receiver root t) \/
  (Forall no_store_op L /\ forall body root L', L = Got body :: L' -> read_file_req body = inl root ->
     tr_transfer_id t = req_get_transfer_id root).

(** How a receive call may end. *)
Definition call_suspended (receiver : ReceiverConfig) (log0 : list LogEntry) (w : St * FtBus) : Prop :=
  exists t L, log w.2 = log0 ++ L /\ recv_log_ok t L /\ requested receiver t L.
Definition call_failed (receiver : ReceiverConfig) (log0 : list LogEntry) (_ : FtError E CapnpError)
    (w : St * FtBus) : Prop :=
  exists t L, log w.2 = log0 ++ L /\ recv_log_ok t L /\ requested receiver t L /\ status L <> Open.
Definition call_received (receiver : ReceiverConfig) (log0 : list LogEntry) (r : RecvFileResult)
    (w : St * FtBus) : Prop :=
  exists t body root L', read_file_req body = inl root /\ granted receiver root t /\
    log w.2 = log0 ++ Got body :: L' /\ recv_log_ok t (Got body :: L') /\ committed t (Got body :: L') r.

Abbreviation call_ends receiver log0 run :=
  (ends (call_suspended receiver log0) (call_received receiver log0) (call_failed receiver log0) run).

Lemma recv_req_loop_run evs b :
  let '(r, b') := recv_req_loop evs b in
  chunk_events b' = chunk_events b /\
  match r with
  | Ok x => log b' = log b ++ [Got x]
  | Err (Fails e) => log b' = log b ++ [GotError e]
  | Err Waiting => log b' = log b
  | Err OutOfFuel | Panic => False
  end.
Proof. revert b. induction evs as [|[x|e|] evs IH]; intros b; simpl; try done. apply IH. Qed.

(** A call that ends before it knows of a transfer. *)
Lemma requested_none receiver t L :
  Forall no_store_op L -> (forall body root L', L = Got body :: L' -> read_file_req body <> inl root) ->
  requested receiver t L.
Proof. intros HL Hn. right. split; [done|]. intros body root L' -> Hr. by destruct (Hn body root L'). Qed.

(** The body of the request, before anything is known of the transfer. *)
Lemma recv_next_req_spec receiver log0 w :
  log w.2 = log0 ->
  ends (call_suspended receiver log0)
    (fun x w' => forall t, at_ t [Got x] log0 (length (chunk_events w.2)) [Got x] w')
    (call_failed receiver log0) (recv_next_req w).
Proof.
  intros Hw. destruct w as [s b]. unfold recv_next_req.
  pose proof (recv_req_loop_run (req_events b) b) as Hr. simpl in Hw.
  assert (Hone : forall t e, (forall L', recv_entry_ok t L' e) -> recv_log_ok t [e]).
  { intros t e He. apply (each_entry_snoc _ []); [apply each_entry_nil|apply He]. }
  destruct (recv_req_loop _ _) as [[x|[e| |]|] b']; destruct Hr as [Hc Hl]; simpl; try done.
  - intros t. split_and!; simpl; [by rewrite Hl, Hw|by apply Hone|by rewrite Hc|done].
  - exists (rejected_transfer 0), [GotError e].
    split_and!; simpl; [by rewrite Hl, Hw|by apply Hone|by apply requested_none; [constructor|]|done].
  - exists (rejected_transfer 0), [].
    split_and!; simpl; [by rewrite app_nil_r, Hl, Hw|apply each_entry_nil|by apply requested_none].
Qed.

(** A request that is read but rejected. *)
Lemma call_reject {A} receiver (Q : A -> St * FtBus -> Prop) log0 n body root e w :
  at_ (rejected_transfer (req_get_transfer_id root)) [Got body] log0 n [Got body] w ->
  read_file_req body = inl root ->
  ends (call_suspended receiver log0) Q (call_failed receiver log0) (reject (req_get_transfer_id root) e w).
Proof.
  intros (Hl & HL & _ & _) Hr. destruct w as [s b]. simpl in Hl.
  assert (Hreq : forall l, Forall no_store_op l ->
    requested receiver (rejected_transfer (req_get_transfer_id root)) (Got body :: l)).
  { intros l Hn. right. split; [by constructor|]. intros x root' L' [= -> _] Hr'. rewrite Hr in Hr'.
    by injection Hr' as ->. }
  unfold reject, send_ack, send_to_with_timeout, mbind, RM_bind, mbind, M_bind.
  destruct (send_results b) as [|[x|] r]; simpl; eexists (rejected_transfer _).
  { exists [Got body]. split_and!; [done..|by apply Hreq]. }
  all: eexists (_ :: [_]); split_and!; [simpl; by rewrite Hl, <- app_assoc| |by apply Hreq; constructor|done];
    by apply (each_entry_snoc _ [Got body]).
Qed.

(** The transfer granted for a parsed request. *)
Definition granted_q (receiver : ReceiverConfig) (q : Request) (t : Transfer) : Prop :=
  tr_transfer_id t = rq_transfer_id q /\ tr_total_len t = rq_total_len q /\
  tr_sender_max_chunk_size t = rq_sender_max_chunk_size q /\ tr_metadata t = rq_metadata q /\
  rq_file_hash_algo q = Some (tr_file_hash_algo t) /\ rq_file_hash q = tr_expected_hash t /\
  length (tr_expected_hash t) = SHA256_HASH_LEN /\
  tr_chunk_size t = negotiated_chunk_size (max_chunk_size receiver) (rq_sender_max_chunk_size q) /\
  tr_chunk_size t <> 0%Z.

Lemma check_request_spec receiver q body root log0 n w :
  (forall t, at_ t [Got body] log0 n [Got body] w) -> read_file_req body = inl root ->
  rq_transfer_id q = req_get_transfer_id root ->
  ends (call_suspended receiver log0) (fun t w' => w' = w /\ granted_q receiver q t)
    (call_failed receiver log0) (check_request receiver q w).
Proof.
  intros Hw Hr Hid. unfold check_request. rewrite Hid.
  destruct (rq_file_hash_algo q) as [algo|] eqn:Halgo; [|by eapply call_reject].
  case_decide; [by eapply call_reject|].
  destruct (validate_sha256_file_hash (rq_file_hash q)) as [h|e|] eqn:Hh;
    [|by eapply call_reject|by apply validate_hash_total in Hh].
  apply validate_hash_ok in Hh as [-> Hlen].
  case_bool; [by eapply call_reject|]. split; [done|]. by split_and!.
Qed.

Definition parsed (root : file_req_reader) : Request :=
  {| rq_transfer_id := req_get_transfer_id root; rq_total_len := req_get_total_len root;
     rq_sender_max_chunk_size := req_get_sender_max_chunk_size root;
     rq_metadata := default [] (req_get_file_metadata root);
     rq_file_hash_algo := req_get_file_hash_algo root;
     rq_file_hash := default [] (req_get_file_hash root) |}.

Lemma granted_parsed receiver root t : granted_q receiver (parsed root) t -> granted receiver root t.
Proof.
  unfold granted_q, granted, parsed. simpl. intros (? & ? & ? & ? & ? & Hh & Hl & ? & ?).
  split_and!; try done. destruct (req_get_file_hash root) as [h|]; simpl in Hh; [by rewrite Hh|].
  rewrite <- Hh in Hl. done.
Qed.

(** From the request to the end of the call, for either loop. *)
Lemma granted_call_spec receiver root body t fuel_of loop log0 n w :
  read_file_req body = inl root -> granted receiver root t ->
  (forall t start fuel n L st w, is_u32 (tr_total_len t) -> at_ t start log0 n L w -> LoopInv L st ->
     (rl_next_offset st < tr_total_len t)%Z -> n < fuel ->
     ends (suspended t start log0) (received t start log0) (closed t start log0) (loop fuel t st w)) ->
  (forall w, fuel_of w = (Ok (1 + length (chunk_events w.2)), w)) ->
  at_ t [Got body] log0 n [Got body] w ->
  call_ends receiver log0
    ((start_transfer t ≫= fun st =>
      if (tr_total_len t =? 0)%Z then finish_empty t (rl_handle st) (rl_hasher st)
      else (fuel_of : M (St * FtBus) (stop (FtError E CapnpError)) nat) ≫= fun fuel => loop fuel t st) w).
Proof.
  intros Hread Hg Hloop Hfuel Hw.
  assert (Ht : is_u32 (tr_total_len t)).
  { destruct Hg as (_ & -> & _). apply (read_file_req_u32 _ _ Hread). }
  eapply ends_weaken; [eapply (transfer_spec t [Got body] fuel_of (fun fuel st => loop fuel t st)); eauto|..].
  - intros s (m & L & Hl & HL & _ & L' & ->). exists t, (Got body :: L'). split_and!; [done..|].
    left. by exists body, root, L'.
  - intros e s (m & L & (Hl & HL & _ & L' & ->) & Hst). exists t, (Got body :: L'). split_and!; [done..| |done].
    left. by exists body, root, L'.
  - intros r s (m & L & (Hl & HL & _ & L' & ->) & Hc). by exists t, body, root, L'.
Qed.

Lemma unread_request receiver log0 n x e0 w e :
  (forall t, at_ t [Got x] log0 n [Got x] w) -> read_file_req x = inr e0 -> call_failed receiver log0 e w.
Proof.
  intros Hw Hx. destruct (Hw (rejected_transfer 0)) as (Hl & HL & _). exists (rejected_transfer 0), [Got x].
  split_and!; [done..| |done]. apply requested_none; [by constructor|]. intros body root L' [= <- _]. by rewrite Hx.
Qed.

Lemma recv_file_spec receiver w : call_ends receiver (log w.2) (recv_file_impl receiver w).
Proof.
  eapply ends_bind with (Q := fun q w' => exists x root, read_file_req x = inl root /\ q = parsed root /\
    forall t, at_ t [Got x] (log w.2) (length (chunk_events w.2)) [Got x] w').
  { eapply ends_bind; [by apply recv_next_req_spec|]. cbv beta. intros x w1 Hw1.
    destruct (read_file_req x) as [root|e] eqn:Hx; [by exists x, root|]. by eapply unread_request. }
  intros q w1 (x & root & Hx & -> & Hw1).
  eapply ends_bind; [by eapply (check_request_spec receiver (parsed root))|]. cbv beta. intros t w2 [-> Hg].
  eapply granted_call_spec; [done|by apply granted_parsed| |by intros []|done].
  intros. eapply recv_loop_spec; eauto.
Qed.

(** The start of the no-alloc variant in the shape of [recv_file_impl]. *)
Lemma begin_no_alloc_eq (t : Transfer) (k : RecvLoop H T -> RM St E CapnpError RecvFileResult) w :
  (next ← begin_no_alloc t; match next with inr r => mret r | inl st => k st end) w =
  (st ← start_transfer t;
   if (tr_total_len t =? 0)%Z then finish_empty t (rl_handle st) (rl_hasher st) else k st) w.
Proof.
  unfold begin_no_alloc, mbind, RM_bind, mbind, M_bind. destruct (start_transfer t w) as [[st|e|] w']; [|done..].
  destruct (_ =? _)%Z; [|done]. by destruct (finish_empty _ _ _ w') as [[r|e|] w''].
Qed.

Lemma recv_file_no_alloc_spec MAX_METADATA MAX_CHUNK receiver w :
  call_ends receiver (log w.2) (recv_file_no_alloc_impl MAX_METADATA MAX_CHUNK receiver w).
Proof.
  eapply ends_bind with (Q := fun q w' => exists x root, read_file_req x = inl root /\
    rq_transfer_id q.1.1 = req_get_transfer_id root /\ (q.1.2 = true -> q.2 = true -> q.1.1 = parsed root) /\
    forall t, at_ t [Got x] (log w.2) (length (chunk_events w.2)) [Got x] w').
  { eapply ends_bind; [by apply recv_next_req_spec|]. cbv beta. intros x w1 Hw1.
    destruct (read_file_req x) as [root|e] eqn:Hx.
    - unfold extend_new. repeat case_bool; exists x, root; by split_and!.
    - by eapply unread_request. }
  intros [[q mf] hf] w1 (x & root & Hx & Hid & Hq & Hw1). simpl in Hid, Hq.
  eapply ends_bind with (Q := fun t w' => w' = w1 /\ granted receiver root t).
  { unfold check_request_no_alloc. destruct mf; simpl; [|rewrite Hid; by eapply call_reject].
    destruct hf; simpl; [|rewrite Hid; by eapply call_reject]. rewrite (Hq eq_refl eq_refl).
    eapply ends_mono; [by eapply (check_request_spec receiver (parsed root))|].
    intros t w' [-> Hg]. split; [done|]. by apply granted_parsed. }
  intros t w2 [-> Hg]. rewrite begin_no_alloc_eq.
  eapply granted_call_spec; [done|done| |by intros []|done].
  intros. eapply recv_loop_no_alloc_spec; eauto.
Qed.

(** * Both receivers are one function *)

(** The operations between two waits leave the chunk mailbox alone. *)
Definition keeps_chunks {A} (m : RM St E CapnpError A) : Prop :=
  forall w, chunk_events (m w).2.2 = chunk_events w.2.

Lemma keeps_bind {A B} (m : RM St E CapnpError A) (k : A -> RM St E CapnpError B) :
  keeps_chunks m -> (forall a, keeps_chunks (k a)) ->
  keeps_chunks (mbind (M := M (St * FtBus) (stop (FtError E CapnpError))) k m).
Proof.
  intros Hm Hk w. unfold mbind, M_bind. specialize (Hm w).
  destruct (m w) as [[a|e|] w']; simpl in *; [|done..]. by rewrite Hk.
Qed.

Lemma keeps_send_ack a : keeps_chunks (send_ack a).
Proof. intros [s b]. unfold send_ack, send_to_with_timeout. by destruct (send_results b) as [|[]]. Qed.

Lemma keeps_abort {A} h err : keeps_chunks (A := A) (abort_silently h err).
Proof. by intros [s b]. Qed.

Lemma keeps_resync t (st : RecvLoop H T) : keeps_chunks (resync t st).
Proof. apply keeps_bind; [apply keeps_send_ack|]. intros []; [done|apply keeps_abort]. Qed.

Lemma keeps_progress t (st : RecvLoop H T) : keeps_chunks (progress_ack t st).
Proof. unfold progress_ack. case_bool; [apply (keeps_resync t st)|done]. Qed.

Lemma keeps_write_part t (st : RecvLoop H T) o d : keeps_chunks (write_part t st o d).
Proof.
  apply keeps_bind.
  - intros [s b]. unfold store_write_at. by destruct (write_at _ _ _ _) as [[[[]|e] h] s'].
  - intros [[e|] h]; [apply keeps_abort|done].
Qed.

Lemma keeps_finish t (h : H) (hs : T) : keeps_chunks (finish_transfer t h hs).
Proof.
  unfold finish_transfer. case_decide.
  - apply keeps_bind; [by intros [s b]|]. intros _. apply keeps_bind; [apply keeps_send_ack|done].
  - apply keeps_bind; [intros [s b]; unfold store_commit; by destruct (commit h s) as [[[]|e] s']|].
    intros []. apply keeps_bind; [apply keeps_send_ack|]. by intros [].
Qed.

Lemma keeps_accept_chunk t (st : RecvLoop H T) o d : keeps_chunks (accept_chunk t st o d).
Proof.
  unfold accept_chunk. destruct (negb _); [apply keeps_bind; [apply keeps_resync|done]|].
  cbv zeta. case_bool; [done|]. apply keeps_bind; [done|]. intros p.
  apply keeps_bind; [apply keeps_write_part|]. intros st'.
  destruct (_ <=? _)%Z; (apply keeps_bind; [apply keeps_finish || apply keeps_progress|done]).
Qed.

(** Every chunk in the mailbox fits the buffer of the no-alloc receiver. *)
Definition chunks_fit (MAX_CHUNK : nat) (evs : list RecvEvent) : Prop :=
  forall x root, Body x ∈ evs -> read_file_chunk x = inl root ->
    length (default [] (chunk_get_data root)) <= MAX_CHUNK.

Lemma chunks_fit_suffix MAX_CHUNK l evs : chunks_fit MAX_CHUNK (l ++ evs) -> chunks_fit MAX_CHUNK evs.
Proof. intros Hf x root Hx. apply Hf, elem_of_app. by right. Qed.

(** The request fits: the metadata does, and a digest that is too long comes
    with a known algorithm (both receivers then reject its length). *)
Definition request_fits (MAX_METADATA : nat) (evs : list RecvEvent) : Prop :=
  forall x root, Body x ∈ evs -> read_file_req x = inl root ->
    length (default [] (req_get_file_metadata root)) <= MAX_METADATA /\
    (length (default [] (req_get_file_hash root)) <= SHA256_HASH_LEN \/
     req_get_file_hash_algo root <> None).

(** A wait takes a prefix of the mailbox, in which the returned chunk is. *)
Lemma wait_chunk_takes id (s : St) b x s' b' :
  wait_for_transfer_chunk id (s, b) = ((Ok (Some x) : result _ (stop (FtError E CapnpError))), (s', b')) ->
  exists l, chunk_events b = l ++ chunk_events b' /\ Body x ∈ l.
Proof.
  unfold wait_for_transfer_chunk. intros Hw.
  assert (Hl : wait_chunk_loop id (chunk_events b) b = (Ok x, b')).
  { destruct (wait_chunk_loop _ _ _) as [[y|[e| |]|] b2]; by simplify_eq. }
  clear Hw s s'. revert Hl. generalize b at 2. intros b0. revert b0.
  induction (chunk_events b) as [|ev evs IH]; intros b0; simpl; [done|].
  destruct ev as [y|e|]; [|done..]. destruct (read_chunk_transfer_id y) as [i|e|]; [|done..].
  destruct (_ =? _)%Z; intros Hr.
  - simplify_eq. exists [Body x]. split; [done|]. by apply list_elem_of_singleton.
  - destruct (IH _ Hr) as (l & -> & Hx). exists (Body y :: l). split; [done|].
    apply elem_of_cons. by right.
Qed.

Lemma accept_chunk_same t (st : RecvLoop H T) o MAX_CHUNK data (w : St * FtBus) :
  length data <= MAX_CHUNK -> (Z.of_nat MAX_CHUNK < 2 ^ 32)%Z ->
  accept_chunk_no_alloc (CapnpError := CapnpError) t st o (take 0 (replicate MAX_CHUNK 0%Z) ++ data ++
      drop (0 + length data) (replicate MAX_CHUNK 0%Z)) (length data) w =
  accept_chunk t st o data w.
Proof.
  intros Hd HM. unfold accept_chunk_no_alloc, accept_chunk. destruct (negb _); [done|]. cbv zeta.
  rewrite (wrap_small 32 (Z.of_nat (length data))) by (unfold in_width; lia).
  set (k := length data `min` _).
  assert (Hk : k = Z.to_nat (Z.min (Z.of_nat (length data)) (saturating_sub32 (tr_total_len t) (rl_next_offset st)))).
  { unfold k, saturating_sub32. lia. }
  rewrite <- Hk. case_bool; [done|].
  rewrite !slice_to_Some by (simpl; len). simpl. rewrite take_app_le by lia. done.
Qed.

Lemma recv_loop_same MAX_CHUNK fuel t (st : RecvLoop H T) (w : St * FtBus) :
  (Z.of_nat MAX_CHUNK < 2 ^ 32)%Z -> chunks_fit MAX_CHUNK (chunk_events w.2) ->
  recv_loop_no_alloc MAX_CHUNK fuel t st w = recv_loop fuel t st w.
Proof.
  intros HM. revert st w. induction fuel as [|fuel IH]; intros st [s b] Hfit; [done|].
  cbn [recv_loop recv_loop_no_alloc]. destruct (_ <? _)%Z; [|done].
  unfold mbind, RM_bind, mbind, M_bind. simpl in Hfit.
  destruct (wait_for_transfer_chunk _ _) as [[[x|]|e|] [s1 b1]] eqn:Hw; [|done..].
  apply wait_chunk_takes in Hw as (l & Hev & Hx).
  destruct (read_file_chunk x) as [root|e] eqn:Hr; [|done].
  assert (Hd : length (default [] (chunk_get_data root)) <= MAX_CHUNK).
  { eapply Hfit; [|done]. rewrite Hev, elem_of_app. by left. }
  set (data := default [] (chunk_get_data root)) in *. rewrite Hev in Hfit.
  rewrite Nat.min_l, slice_to_Some, take_ge by lia. unfold or_panic at 1.
  rewrite copy_at_Some by (rewrite length_replicate; simpl; lia). unfold or_panic.
  destruct (negb _); [done|]. destruct (Nat.ltb_spec MAX_CHUNK (length data)); [lia|]. cbn [orb].
  destruct (_ <? _)%Z; [done|]. rewrite accept_chunk_same by done.
  pose proof (keeps_accept_chunk t st (chunk_get_offset root) data (s1, b1)) as Hk.
  destruct (accept_chunk _ _ _ _ _) as [[[st'|r]|e|] w2]; [|done..].
  simpl in Hk. apply IH. rewrite Hk. by eapply chunks_fit_suffix.
Qed.

Lemma recv_req_loop_takes evs b x b' :
  recv_req_loop evs b = (Ok x, b') -> Body x ∈ evs /\ chunk_events b' = chunk_events b.
Proof.
  revert b. induction evs as [|[y|e|] evs IH]; intros b; simpl; [done| |done|].
  - intros [= <- <-]. split; [apply elem_of_cons; by left|done].
  - intros Hr. destruct (IH _ Hr). split; [apply elem_of_cons; by right|done].
Qed.

Lemma recv_next_req_takes (s : St) b x s' b' :
  recv_next_req (s, b) = ((Ok x : result _ (stop (FtError E CapnpError))), (s', b')) ->
  Body x ∈ req_events b /\ chunk_events b' = chunk_events b.
Proof.
  unfold recv_next_req. intros Hw. apply (recv_req_loop_takes (req_events b) b x b').
  destruct (recv_req_loop _ _) as [[y|[e| |]|] b2]; by simplify_eq.
Qed.

Lemma validate_hash_long h :
  SHA256_HASH_LEN < length h -> validate_sha256_file_hash h = Err HashInvalidLength.
Proof.
  unfold validate_sha256_file_hash, SHA256_HASH_LEN. intros Hl.
  destruct (Nat.eqb_spec (length h) 0); [lia|]. destruct (Nat.eqb_spec (length h) 32); [lia|done].
Qed.

(** The checks agree on a request that fits. *)
Lemma check_request_same MAX_METADATA receiver root (w : St * FtBus) :
  length (default [] (req_get_file_metadata root)) <= MAX_METADATA ->
  length (default [] (req_get_file_hash root)) <= SHA256_HASH_LEN \/
    req_get_file_hash_algo root <> None ->
  check_request_no_alloc (E := E) (CapnpError := CapnpError) receiver
    (let '(metadata, metadata_fits) :=
       extend_new MAX_METADATA (default [] (req_get_file_metadata root)) in
     let '(file_hash, file_hash_fits) :=
       extend_new SHA256_HASH_LEN (default [] (req_get_file_hash root)) in
     ({| rq_transfer_id := req_get_transfer_id root; rq_total_len := req_get_total_len root;
         rq_sender_max_chunk_size := req_get_sender_max_chunk_size root;
         rq_metadata := metadata; rq_file_hash_algo := req_get_file_hash_algo root;
         rq_file_hash := file_hash |}, metadata_fits, file_hash_fits)) w =
  check_request receiver (parsed root) w.
Proof.
  intros Hm Hh. unfold extend_new.
  destruct (Nat.ltb_spec MAX_METADATA (length (default [] (req_get_file_metadata root)))); [lia|].
  destruct (Nat.ltb_spec SHA256_HASH_LEN (length (default [] (req_get_file_hash root)))) as [Hlt|]; [|done].
  destruct Hh as [|Ha]; [lia|]. unfold check_request_no_alloc, check_request, parsed. simpl.
  destruct (req_get_file_hash_algo root) as [[]|]; [|done].
  rewrite decide_False by (intros []; done). by rewrite validate_hash_long.
Qed.

Lemma keeps_check receiver q : keeps_chunks (check_request receiver q).
Proof.
  assert (Hr : forall A id e, keeps_chunks (A := A) (reject id e)).
  { intros A id e. apply keeps_bind; [apply keeps_send_ack|done]. }
  unfold check_request. destruct (rq_file_hash_algo q); [|apply Hr].
  case_decide; [apply Hr|]. destruct (validate_sha256_file_hash _); [|apply Hr|done].
  cbv zeta. case_bool; [apply Hr|done].
Qed.

Lemma keeps_start t : keeps_chunks (start_transfer (T := T) t).
Proof.
  apply keeps_bind; [intros [s b]; unfold store_begin_write; by destruct (begin_write _ _ s) as [[]]|].
  intros h. apply keeps_bind; [apply keeps_send_ack|]. intros []; [done|apply keeps_abort].
Qed.

(** C11. Whatever the peer, the timers and the store do, [recv_file] neither
    panics nor loops without taking an event, and its log obeys the protocol
    of the transfer its request asks for (id, length, digest and negotiated
    chunk size are those of the request the log begins with; without an
    acceptable request the store is not touched): it acknowledges only bytes already written, writes the file front to back
    without exceeding the announced length, commits only a complete content
    with the announced digest, reports an abort only after aborting the write,
    and never returns an error with a write handle still open. *)
Theorem recv_file_protocol receiver s b :
  let '(r, (_, b')) := recv_file_impl receiver (s, b) in
  (r <> Panic /\ r <> Err OutOfFuel) /\
  exists t L, log b' = log b ++ L /\ requested receiver t L /\ recv_log_ok t L /\
    forall e, r = Err (Fails e) -> status L <> Open.
Proof.
  pose proof (recv_file_spec receiver (s, b)) as Hs. simpl in Hs.
  destruct (recv_file_impl receiver (s, b)) as [r [s' b']]. split; [by eapply ends_safe|].
  destruct r as [r|[e| |]|]; simpl in Hs; [| | |done..].
  - destruct Hs as (t & body & root & L & Hr & Hg & Hl & HL & _). exists t, (Got body :: L).
    split_and!; [done|by left; exists body, root, L|done..].
  - destruct Hs as (t & L & Hl & HL & Hq & Hst). exists t, L. by split_and!.
  - destruct Hs as (t & L & Hl & HL & Hq). by exists t, L.
Qed.

(** When [recv_file] returns [Ok], the store committed exactly the
    announced number of bytes, their SHA-256 digest is the one of the request,
    the result repeats the request and the negotiated chunk size, and the peer
    was sent the completion ack (unless the file is empty). *)
Theorem recv_file_ok_committed receiver s b res s' b' :
  recv_file_impl receiver (s, b) = (Ok res, (s', b')) ->
  exists t body root L, read_file_req body = inl root /\ granted receiver root t /\
    log b' = log b ++ L /\ committed t L res.
Proof.
  intros Hrun. pose proof (recv_file_spec receiver (s, b)) as Hs. rewrite Hrun in Hs.
  destruct Hs as (t & body & root & L & Hb & Hg & Hl & _ & Hc). by exists t, body, root, (Got body :: L).
Qed.

(** The same for the no-alloc receiver, whatever its buffer sizes. *)
Theorem recv_file_no_alloc_protocol MAX_METADATA MAX_CHUNK receiver s b :
  let '(r, (_, b')) := recv_file_no_alloc_impl MAX_METADATA MAX_CHUNK receiver (s, b) in
  (r <> Panic /\ r <> Err OutOfFuel) /\
  exists t L, log b' = log b ++ L /\ requested receiver t L /\ recv_log_ok t L /\
    (forall e, r = Err (Fails e) -> status L <> Open) /\
    (forall res, r = Ok res -> committed t L res).
Proof.
  pose proof (recv_file_no_alloc_spec MAX_METADATA MAX_CHUNK receiver (s, b)) as Hs. simpl in Hs.
  destruct (recv_file_no_alloc_impl _ _ receiver (s, b)) as [r [s' b']]. split; [by eapply ends_safe|].
  destruct r as [r|[e| |]|]; simpl in Hs; [| | |done..].
  - destruct Hs as (t & body & root & L & Hr & Hg & Hl & HL & Hc). exists t, (Got body :: L).
    split_and!; [done|by left; exists body, root, L|done..|]. by intros res [= <-].
  - destruct Hs as (t & L & Hl & HL & Hq & Hst). exists t, L. by split_and!.
  - destruct Hs as (t & L & Hl & HL & Hq). by exists t, L.
Qed.

(** C20. While the metadata and the chunks fit its buffers, the no-alloc
    receiver is the same function of the bus and the store as the allocating
    one: same result, same messages, same store calls. *)
Theorem recv_file_no_alloc_same MAX_METADATA MAX_CHUNK receiver s b :
  request_fits MAX_METADATA (req_events b) -> chunks_fit MAX_CHUNK (chunk_events b) ->
  (Z.of_nat MAX_CHUNK < 2 ^ 32)%Z ->
  recv_file_no_alloc_impl MAX_METADATA MAX_CHUNK receiver (s, b) = recv_file_impl receiver (s, b).
Proof.
  intros Hreq Hch HM. unfold recv_file_no_alloc_impl, recv_file_impl, recv_request_no_alloc, recv_request.
  unfold mbind, RM_bind, mbind, M_bind.
  destruct (recv_next_req (s, b)) as [[x|e|] [s1 b1]] eqn:Hr; [|done..].
  apply recv_next_req_takes in Hr as [Hx Hc].
  destruct (read_file_req x) as [root|e] eqn:Hroot; [|done].
  destruct (Hreq x root Hx Hroot) as [Hm Hh].
  pose proof (check_request_same MAX_METADATA receiver root (s1, b1) Hm Hh) as Hcheck.
  destruct (extend_new MAX_METADATA _) as [md mf], (extend_new SHA256_HASH_LEN _) as [fh hf].
  unfold mret, RM_ret, mret, M_ret. cbv iota beta. rewrite Hcheck. fold (parsed root).
  pose proof (keeps_check receiver (parsed root) (s1, b1)) as Hk.
  destruct (check_request receiver (parsed root) (s1, b1)) as [[t|e|] w2]; [|done..]. simpl in Hk.
  pose proof (begin_no_alloc_eq t (fun st => mbind (M := RM St E CapnpError) (fun fuel => recv_loop_no_alloc MAX_CHUNK fuel t st)
    chunk_fuel) w2) as Hb. unfold mbind, RM_bind, mbind, M_bind in Hb. etransitivity; [exact Hb|]. clear Hb.
  pose proof (keeps_start t w2) as Hk2.
  destruct (start_transfer t w2) as [[st|e|] w3]; [|done..]. simpl in Hk2.
  destruct (_ =? _)%Z; [done|]. destruct w3 as [s3 b3]. unfold chunk_fuel, gets. cbv beta iota.
  apply recv_loop_same; [done|]. cbn [snd] in *. by rewrite Hk2, Hk, Hc.
Qed.
End receiver_proofs.

(** * A store in memory and a concrete run *)

(** [MemoryStore] of the file-transfer benchmark: its handle is [()] and its
    error an out-of-bounds report. *)
Record MemoryStore := { store_bytes : bytes }.

Definition memory_begin_write (transfer_id total_len : u32) (s : MemoryStore) :
    (unit + unit) * MemoryStore :=
  (inl tt, {| store_bytes := replicate (Z.to_nat total_len) 0%Z |}).

(** [end > self.bytes.len()] is the error; the copy is then in range. *)
Definition memory_write_at (h : unit) (offset : u32) (bytes : bytes) (s : MemoryStore) :
    (unit + unit) * unit * MemoryStore :=
  let offset := Z.to_nat offset in
  let end_ := offset + length bytes in
  if length (store_bytes s) <? end_ then (inr tt, h, s)
  else match copy_at (store_bytes s) offset bytes with
       | Some bs => (inl tt, h, {| store_bytes := bs |})
       | None => (inr tt, h, s)
       end.

Global Instance MemoryStore_store : AsyncFileStore MemoryStore unit unit := {
  begin_write := memory_begin_write;
  write_at := memory_write_at;
  commit h s := (inl tt, s);
  abort h s := s;
}.

(** A hasher that keeps its input, with 32-byte digests. *)
Record KeptInput := { kept : bytes }.
Global Instance KeptInput_hasher : Sha256Hasher KeptInput := {
  hasher_new := {| kept := [] |};
  hasher_update h d := {| kept := kept h ++ d |};
  hasher_finalize h := take 32 (kept h ++ replicate 32 0%Z);
  digest d := take 32 (d ++ replicate 32 0%Z);
}.
Global Instance KeptInput_laws : Sha256Laws KeptInput.
Proof.
  intros parts. simpl. do 2 f_equal.
  change (fun h d => _) with (hasher_update (T := KeptInput)).
  enough (Hk : forall h, kept (fold_left hasher_update parts h) = kept h ++ concat parts) by apply (Hk {| kept := [] |}).
  induction parts as [|p ps IH]; intros h; simpl; [by rewrite app_nil_r|].
  rewrite IH. simpl. by rewrite app_assoc.
Qed.

Definition demo_content : bytes := [9; 8; 7; 6; 5]%Z.
Definition demo_req_root : file_req_root :=
  {| set_transfer_id := 3; set_total_len := 5; set_file_metadata := [1]%Z;
     set_sender_max_chunk_size := 4; set_file_hash_algo := Sha256;
     set_file_hash := digest demo_content |}.
Definition demo_recv_bus : FtBus :=
  {| send_results := replicate 10 None;
     req_events := [Body (FixedLayout.req_seg demo_req_root)];
     chunk_events := [Body (FixedLayout.chunk_seg (file_chunk 3 0 [9; 8; 7]%Z));
                      Body (FixedLayout.chunk_seg (file_chunk 3 0 [9; 8; 7]%Z));
                      Body (FixedLayout.chunk_seg (file_chunk 3 3 [6; 5]%Z))];
     ack_events := []; log := [] |}.
Definition demo_receiver : ReceiverConfig := {| max_chunk_size := 0 |}.
Definition demo_store : MemoryStore := {| store_bytes := [] |}.
Definition demo_recv_final : MemoryStore * FtBus :=
  (recv_file_impl (T := KeptInput) demo_receiver (demo_store, demo_recv_bus)).2.
Definition demo_recv_result : RecvFileResult :=
  {| got_transfer_id := 3; got_total_len := 5; got_received_len := 5;
     got_sender_max_chunk_size := 4; got_negotiated_chunk_size := 4; got_metadata := [1]%Z;
     got_file_hash_algo := Sha256; got_file_hash := digest demo_content |}.

Lemma demo_recv_ok :
  recv_file_impl (T := KeptInput) demo_receiver (demo_store, demo_recv_bus) =
    (Ok demo_recv_result, (demo_recv_final.1, demo_recv_final.2)).
Proof. vm_compute. reflexivity. Qed.

Lemma recv_file_ok_committed_witness :
  exists t L, committed (T := KeptInput) t L demo_recv_result.
Proof.
  destruct (recv_file_ok_committed _ _ _ _ _ _ demo_recv_ok) as (t & _ & _ & L & _ & _ & _ & Hc).
  exists t, L. exact Hc.
Defined.

Lemma recv_file_protocol_witness :
  let '(r, (_, b')) := recv_file_impl (T := KeptInput) demo_receiver (demo_store, demo_recv_bus) in
  (r <> Panic /\ r <> Err OutOfFuel) /\
  exists t L, log b' = log demo_recv_bus ++ L /\ requested demo_receiver t L /\
    recv_log_ok (T := KeptInput) t L /\
    forall e, r = Err (Fails e) -> status L <> Open.
Proof. exact (recv_file_protocol (T := KeptInput) demo_receiver demo_store demo_recv_bus). Defined.

Lemma recv_file_no_alloc_protocol_witness :
  let '(r, (_, b')) := recv_file_no_alloc_impl (T := KeptInput) 8 16 demo_receiver
                         (demo_store, demo_recv_bus) in
  (r <> Panic /\ r <> Err OutOfFuel) /\
  exists t L, log b' = log demo_recv_bus ++ L /\ requested demo_receiver t L /\
    recv_log_ok (T := KeptInput) t L /\
    (forall e, r = Err (Fails e) -> status L <> Open) /\
    (forall res, r = Ok res -> committed (T := KeptInput) t L res).
Proof. exact (recv_file_no_alloc_protocol (T := KeptInput) 8 16 demo_receiver demo_store demo_recv_bus). Defined.

Lemma recv_file_no_alloc_same_witness :
  request_fits (CapnpError := unit) 8 (req_events demo_recv_bus) /\
  recv_file_no_alloc_impl (T := KeptInput) 8 16 demo_receiver (demo_store, demo_recv_bus) =
    recv_file_impl (T := KeptInput) demo_receiver (demo_store, demo_recv_bus).
Proof.
  assert (Hr : request_fits (CapnpError := unit) 8 (req_events demo_recv_bus)).
  { intros x root Hx%list_elem_of_singleton. injection Hx as ->. intros Hroot.
    assert (Heq : read_file_req (FixedLayout.req_seg demo_req_root) = inl (req_view demo_req_root)).
    { apply FixedLayout.req_round_trip. repeat split; vm_compute; done. }
    rewrite Heq in Hroot. injection Hroot as <-. simpl. unfold SHA256_HASH_LEN. lia. }
  assert (Hc : chunks_fit (CapnpError := unit) 16 (chunk_events demo_recv_bus)).
  { assert (Hrt : forall v root, chunk_fits v -> length (chunk_data v) <= 16 ->
      read_file_chunk (FixedLayout.chunk_seg v) = inl root ->
      length (default [] (chunk_get_data root)) <= 16).
    { intros v root Hv Hl Hroot. pose proof (FixedLayout.chunk_round_trip v Hv) as Heq.
      simpl in Hroot. rewrite Heq in Hroot. injection Hroot as <-. exact Hl. }
    intros x root Hx. simpl in Hx. rewrite !elem_of_cons in Hx.
    destruct Hx as [[= ->]|[[= ->]|[[= ->]|Hx]]]; [..|by apply not_elem_of_nil in Hx];
      (apply Hrt; [repeat split; vm_compute; done|cbn; lia]). }
  split; [exact Hr|].
  exact (recv_file_no_alloc_same (T := KeptInput) 8 16 demo_receiver demo_store demo_recv_bus Hr Hc
    ltac:(lia)).
Defined.

(** The no-alloc receiver negotiates from the configuration alone: with the
    default configuration and a sender that offers more than [MAX_CHUNK], it
    accepts a chunk size its buffer cannot hold, and aborts the transfer at the
    first full chunk. *)
Definition oversize_bus : FtBus :=
  {| send_results := replicate 10 None;
     req_events := [Body (FixedLayout.req_seg demo_req_root)];
     chunk_events := [Body (FixedLayout.chunk_seg (file_chunk 3 0 [9; 8; 7; 6]%Z))];
     ack_events := []; log := [] |}.

Example no_alloc_accepts_oversize :
  let '(r, (_, b')) := recv_file_no_alloc_impl (T := KeptInput) 8 3 demo_receiver
                         (demo_store, oversize_bus) in
  r = Err (Fails Protocol) /\
  Sent (AckMsg (file_ack_accept 3 4)) ∈ log b' /\
  Sent (AckMsg (file_ack 3 Abort 0 0 ChunkSizeTooLarge)) ∈ log b'.
Proof.
  vm_compute recv_file_no_alloc_impl. split_and!; [done|..]; simpl; repeat (apply elem_of_cons; (by left) || right).
Qed.
