(* ===== verification/FtMemoryStore.v ===== *)
(** * Receiving into memory

    The receiver of [FtReceiver] with the [MemoryStore] of
    [examples/thincan-example/src/file_transfer_bench_common.rs].  The store
    changes only by the calls the receiver logs, so what the log promises
    holds of the bytes in memory: after a successful receive they are the
    file that was announced. *)
From S2P Require Import Prelude Script Wire FtSchema FtBus FtReceiver.

Definition replay_step (s : MemoryStore) (e : LogEntry) : MemoryStore :=
  match e with
  | StoreOp (BeginWrite i n) => (memory_begin_write i n s).2
  | StoreOp (WriteAt off d) => (memory_write_at tt off d s).2
  | _ => s
  end.
Definition replay (L : list LogEntry) (s : MemoryStore) : MemoryStore := fold_left replay_step L s.

Lemma replay_app L l s : replay (L ++ l) s = replay l (replay L s).
Proof. apply fold_left_app. Qed.

Section memory.
Context {T CapnpError : Type} `{HS : Sha256Laws T} `{HC : CapnpReadsU32 CapnpError}.

(** A call changes the store exactly by the store calls it logs. *)
Definition traced {A} (m : RM MemoryStore unit CapnpError A) : Prop :=
  forall w, exists l, log (m w).2.2 = log w.2 ++ l /\ (m w).2.1 = replay l w.1.

Lemma traced_bind {A B} (m : RM MemoryStore unit CapnpError A)
    (k : A -> RM MemoryStore unit CapnpError B) :
  traced m -> (forall a, traced (k a)) ->
  traced (mbind (M := M (MemoryStore * FtBus) (stop (FtError unit CapnpError))) k m).
Proof.
  intros Hm Hk w. unfold mbind, M_bind. destruct (Hm w) as (l & Hl & Hr).
  destruct (m w) as [[a|e|] w1]; simpl in *; [|by exists l..].
  destruct (Hk a w1) as (l2 & Hl2 & Hr2). exists (l ++ l2).
  by rewrite Hl2, Hr2, Hl, Hr, app_assoc, replay_app.
Qed.

(** A call that leaves both alone. *)
Lemma traced_pure {A} (m : RM MemoryStore unit CapnpError A) :
  (forall w, (m w).2 = w) -> traced m.
Proof. intros Hm w. exists []. by rewrite Hm, app_nil_r. Qed.

(** A call that logs one entry. *)
Lemma traced_one {A} (m : RM MemoryStore unit CapnpError A) :
  (forall w, (m w).2 = w \/ exists e, log (m w).2.2 = log w.2 ++ [e] /\ (m w).2.1 = replay_step w.1 e) ->
  traced m.
Proof.
  intros Hm w. destruct (Hm w) as [Hw|(e & Hl & Hs)]; [|by exists [e]].
  exists []. by rewrite Hw, app_nil_r.
Qed.

Lemma traced_send_ack a : traced (send_ack a).
Proof.
  apply traced_one. intros [s b]. unfold send_ack, send_to_with_timeout.
  destruct (send_results b) as [|[e|] r]; [by left|right; by eexists..].
Qed.

Lemma traced_abort h : traced (store_abort h).
Proof. apply traced_one. intros [s b]. right. by eexists. Qed.

Lemma traced_commit h : traced (store_commit h).
Proof. apply traced_one. intros [s b]. right. by eexists. Qed.

Lemma traced_begin i n : traced (store_begin_write i n).
Proof. apply traced_one. intros [s b]. right. by eexists. Qed.

Lemma traced_write h off d : traced (store_write_at h off d).
Proof.
  apply traced_one. intros [s b]. right. unfold store_write_at. simpl. unfold memory_write_at.
  destruct (_ <? _) eqn:Hlt; simpl.
  { by exists (StoreOp (WriteFailed off d)). }
  destruct (copy_at _ _ _) eqn:Hc; simpl.
  - exists (StoreOp (WriteAt off d)). split; [done|]. simpl. unfold memory_write_at. by rewrite Hlt, Hc.
  - by exists (StoreOp (WriteFailed off d)).
Qed.

Lemma traced_recv_req : traced recv_next_req.
Proof.
  intros [s b]. unfold recv_next_req. pose proof (recv_req_loop_run (req_events b) b) as Hr.
  destruct (recv_req_loop _ _) as [[x|[e| |]|] b']; destruct Hr as [_ Hl]; try done; simpl.
  - by exists [Got x].
  - by exists [GotError e].
  - exists []. by rewrite app_nil_r.
Qed.

Lemma replay_neutral l s : Forall no_store_op l -> replay l s = s.
Proof. unfold replay. induction 1 as [|[] l He _ IH]; simpl; done. Qed.

Lemma traced_wait id : traced (wait_for_transfer_chunk id).
Proof.
  intros [s b]. unfold wait_for_transfer_chunk.
  pose proof (wait_chunk_loop_run (rejected_transfer id) (chunk_events b) b) as Hw.
  change (tr_transfer_id (rejected_transfer id)) with id in Hw.
  destruct (wait_chunk_loop _ _ _) as [r b']. destruct Hw as (l & Hl & Hn & _ & Hres).
  assert (Hneut : Forall no_store_op l) by (eapply Forall_impl; [done|]; by intros ? []).
  exists l. destruct r as [x|[e| |]|]; simpl; by rewrite ?replay_neutral.
Qed.

Hint Resolve traced_send_ack traced_abort traced_commit traced_begin traced_write traced_recv_req
  traced_wait : rust.

(** Follow the structure of a call. *)
Ltac trace := repeat first
  [ solve [eauto with rust] | solve [apply traced_pure; done]
  | apply traced_bind; [|intros] | progress cbv zeta beta iota
  | match goal with
    | |- traced (if ?c then _ else _) => destruct c
    | |- traced (match ?c with _ => _ end) => destruct c
    end ].

Lemma traced_abort_transfer {A} h id k e err : traced (A := A) (abort_transfer h id k e err).
Proof. unfold abort_transfer. trace. Qed.
Lemma traced_abort_silently {A} h err : traced (A := A) (abort_silently h err).
Proof. unfold abort_silently. trace. Qed.
Lemma traced_reject {A} id e : traced (A := A) (reject id e).
Proof. unfold reject. trace. Qed.
Hint Resolve traced_abort_transfer traced_abort_silently traced_reject : rust.

Lemma traced_finish t h (hs : T) : traced (finish_transfer t h hs) /\ traced (finish_empty t h hs).
Proof. unfold finish_transfer, finish_empty. split; trace. Qed.
Lemma traced_accept_chunk t (st : RecvLoop unit T) o d : traced (accept_chunk t st o d).
Proof.
  unfold accept_chunk, resync, write_part, progress_ack. trace; apply traced_finish.
Qed.
Hint Resolve traced_accept_chunk : rust.

Lemma traced_recv_loop fuel t (st : RecvLoop unit T) : traced (recv_loop fuel t st).
Proof. revert st. induction fuel as [|fuel IH]; intros st; cbn [recv_loop]; trace. Qed.

Lemma traced_recv_file receiver : traced (recv_file_impl (T := T) receiver).
Proof.
  unfold recv_file_impl, recv_request, check_request, start_transfer, chunk_fuel.
  trace; first [apply traced_finish | apply traced_recv_loop | idtac].
Qed.

(** ** The content *)

Lemma written_snoc L e : written (L ++ [e]) = written L ++ default [] (write_data e).
Proof.
  unfold written. rewrite parts_snoc, concat_app. destruct (write_data e); simpl; [|done].
  by rewrite app_nil_r.
Qed.

(** What the store holds after a log that obeys the protocol. *)
Definition holds (t : Transfer) (L : list LogEntry) (s : MemoryStore) : Prop :=
  match status L with
  | NotBegun => written L = []
  | _ => length (written L) <= Z.to_nat (tr_total_len t) /\
         store_bytes s = written L ++ replicate (Z.to_nat (tr_total_len t) - length (written L)) 0%Z
  end.

(** A write of the receiver lands right after what was written. *)
Lemma holds_write t L s d :
  status L = Open -> holds t L s -> (Z.of_nat (length (written L ++ d)) <= tr_total_len t)%Z ->
  store_bytes (memory_write_at tt (Z.of_nat (length (written L))) d s).2 =
    (written L ++ d) ++ replicate (Z.to_nat (tr_total_len t) - length (written L ++ d)) 0%Z.
Proof.
  unfold holds. intros -> [Hle Hs] Hlen. rewrite length_app in Hlen. unfold memory_write_at.
  rewrite Nat2Z.id, Hs. destruct (Nat.ltb_spec (length (written L ++
    replicate (Z.to_nat (tr_total_len t) - length (written L)) 0%Z)) (length (written L) + length d)); [len|].
  replace (Z.to_nat (tr_total_len t) - length (written L)) with
    (length d + (Z.to_nat (tr_total_len t) - length (written L ++ d))) by len.
  rewrite replicate_add, copy_at_app by len. simpl. by rewrite app_assoc.
Qed.

Lemma replay_holds t L s : recv_log_ok (T := T) t L -> holds t L (replay L s).
Proof.
  induction L as [|e L IH] using rev_ind; intros Hok; [done|].
  apply each_entry_snoc_inv in Hok as [HL He]. specialize (IH HL).
  rewrite replay_app. set (s1 := replay L s) in *.
  unfold holds in *. rewrite status_snoc, written_snoc.
  destruct e as [[]|[] e|x|e| |[]]; simpl in *; rewrite ?app_nil_r; try done;
    try (by rewrite He in IH); try (by rewrite (proj1 He) in IH);
    try (by rewrite (proj1 He) in IH |- *).
  - destruct He as (Hst & _ & ->). rewrite Hst in IH. rewrite IH. simpl. split; [lia|].
    by rewrite Nat.sub_0_r.
  - destruct He as (Hst & -> & _ & Hlen). rewrite Hst in *.
    rewrite (holds_write t); [|done|unfold holds; by rewrite Hst|done].
    split; [|done]. rewrite length_app in *. lia.
Qed.

(** What a successful receive leaves in memory is what its log wrote. *)
Lemma recv_file_stored receiver s b res s' b' :
  recv_file_impl (T := T) (CapnpError := CapnpError) receiver (s, b) = (Ok res, (s', b')) ->
  exists L, log b' = log b ++ L /\ s' = replay L s /\ store_bytes s' = written L /\
    Z.of_nat (length (written L)) = got_total_len res /\ digest (written L) = got_file_hash res.
Proof.
  intros Hrun. pose proof (recv_file_spec (T := T) receiver (s, b)) as Hs. rewrite Hrun in Hs.
  destruct Hs as (t & body & root & L0 & _ & _ & Hl & HL & -> & Hst & Hlen & Hd & _).
  set (L := Got body :: L0) in *. destruct (traced_recv_file receiver (s, b)) as (l & Hl' & Hs'). rewrite Hrun in Hl', Hs'.
  simpl in Hl, Hl', Hs'. rewrite Hl in Hl'. apply app_inv_head in Hl' as <-.
  pose proof (replay_holds t L s HL) as Hh. unfold holds in Hh. rewrite Hst, <- Hs' in Hh.
  destruct Hh as [_ Hb]. replace (Z.to_nat (tr_total_len t) - length (written L)) with 0 in Hb by lia.
  rewrite app_nil_r in Hb. by exists L.
Qed.

(** When [recv_file] into a [MemoryStore] returns [Ok], the bytes in memory
    have the announced length and their SHA-256 digest is the announced one,
    whatever chunks, repetitions and losses the sender and the bus produced;
    the store changed exactly by the logged store calls. *)
Theorem recv_file_memory receiver s b res s' b' :
  recv_file_impl (T := T) (CapnpError := CapnpError) receiver (s, b) = (Ok res, (s', b')) ->
  Z.of_nat (length (store_bytes s')) = got_total_len res /\
  digest (store_bytes s') = got_file_hash res /\
  exists L, log b' = log b ++ L /\ s' = replay L s.
Proof.
  intros (L & Hl & Hs & -> & Hlen & Hd)%recv_file_stored. split_and!; [exact Hlen|exact Hd|by exists L].
Qed.
End memory.

Lemma recv_file_memory_witness :
  digest (T := KeptInput) (store_bytes demo_recv_final.1) = got_file_hash demo_recv_result.
Proof. exact (proj1 (proj2 (recv_file_memory _ _ _ _ _ _ demo_recv_ok))). Defined.
