(* ===== verification/FtEndToEnd.v ===== *)
(** * A file transfer from end to end

    The sender of [FtSender] and the receiver of [FtReceiver] on one bus that
    may lose, repeat, delay and reorder messages but does not make them up: a
    body in a mailbox is the encoding of a message the peer tried to send.
    Each side runs on its own script, so every interleaving of the two is
    covered.  The theorems compose what the two logs promise: what the
    receiver commits is the sender's file byte for byte, and a sender that
    returns [Ok] has had its file committed. *)
From S2P Require Import Prelude Script Wire FtSchema FtBus FtSender FtReceiver FtMemoryStore.

Section bus.
Context {CapnpError : Type} `{HL : CapnpLaws CapnpError}.

(** The encoder [send_to_with_timeout] runs for a message; the state is the
    scratch and the output buffer. *)
Definition encode_msg (m : FtMsg) : M (bytes * bytes) Error nat :=
  match m with
  | OfferMsg v => FileOfferValue_encode v
  | ChunkMsg v => FileChunkValue_encode v
  | AckMsg v => FileAckValue_encode v
  end.

(** [x] is the body of the message [m] on the wire. *)
Definition body_of (m : FtMsg) (x : bytes) : Prop :=
  exists words out n words' out',
    encode_msg m (words, out) = (Ok n, (words', out')) /\ x = take n out'.

(** The peer handed [m] to its bus; a send that reported an error may still
    have reached the wire. *)
Definition tried (m : FtMsg) (L : list LogEntry) : Prop :=
  Sent m ∈ L \/ exists e, SendFailed m e ∈ L.

Lemma encode_alloc_body {V} (build : V -> bytes -> option (list bytes * bytes)) v size seg max_len
    words out n words' out' :
  builds build size v seg -> size <= max_len ->
  encode_alloc build v max_len (words, out) = (Ok n, (words', out')) -> take n out' = seg.
Proof.
  intros Hb Hmax Hrun. destruct (Nat.ltb_spec (length out) max_len) as [Hlt|Hge].
  { unfold encode_alloc in Hrun. case_bool; [done|lia]. }
  destruct (encoders_ok build v size seg max_len (capnp_scratch_words_for_bytes max_len) words
    CapnpScratch_new out Hb Hmax Hge ltac:(lia)) as ((w' & Hok) & _).
  rewrite Hrun in Hok. injection Hok as -> _ ->. destruct Hb as [<- _]. by rewrite take_app_length.
Qed.

(** The bytes of a successful encoding are a segment the builder made. *)
Lemma encode_alloc_built {V} (build : V -> bytes -> option (list bytes * bytes)) v max_len
    words out n words' out' :
  encode_alloc build v max_len (words, out) = (Ok n, (words', out')) ->
  exists scratch live, build v scratch = Some ([take n out'], live).
Proof.
  unfold encode_alloc, with_capnp_scratch_bytes, with_scratch_prefix, encode_segments.
  destruct (_ <? _); [done|]. destruct (slice _ _ _) as [sub|]; [|done].
  destruct (build v sub) as [[segs live]|] eqn:Hb; [|by destruct (copy_at _ _ _)].
  destruct segs as [|seg [|]]; [by destruct (copy_at _ _ _)| |by destruct (copy_at _ _ _)].
  destruct (_ <? _); [by destruct (copy_at _ _ _)|].
  destruct (copy_at out 0 seg) as [out1|] eqn:Hc; [|by clear Hc; destruct (copy_at _ _ _)].
  destruct (copy_at _ 0 (release live)) as [w1|]; [|done]. intros [= <- _ <-]. exists sub, live.
  rewrite Hb. repeat f_equal. unfold copy_at in Hc. case_decide; [|done]. injection Hc as <-. simpl.
  by rewrite take_app_length.
Qed.

(** What a reader that takes the body of a message sees in it. *)
Lemma offer_body_reads v x root :
  req_typed (offer_root v) -> body_of (OfferMsg v) x -> read_file_req x = inl root ->
  root = req_view (offer_root v).
Proof.
  intros Hv (w & out & n & w' & out' & Hrun & ->) Hr.
  destruct (encode_alloc_built _ _ _ _ _ _ _ _ Hrun) as (sc & live & Hb).
  exact (file_req_faithful _ Hv _ _ _ _ Hb Hr).
Qed.

Lemma chunk_body_reads v x root :
  chunk_typed v -> body_of (ChunkMsg v) x -> read_file_chunk x = inl root -> root = chunk_view v.
Proof.
  intros Hv (w & out & n & w' & out' & Hrun & ->) Hr.
  destruct (encode_alloc_built _ _ _ _ _ _ _ _ Hrun) as (sc & live & Hb).
  exact (file_chunk_faithful _ Hv _ _ _ _ Hb Hr).
Qed.

(** Within the limit the body is taken. *)
Lemma offer_fits_reads v x :
  req_fits (offer_root v) -> body_of (OfferMsg v) x -> read_file_req x = inl (req_view (offer_root v)).
Proof.
  intros Hv (w & out & n & w' & out' & Hrun & ->).
  destruct (build_file_req_law _ Hv) as (seg & Hb & Hr).
  by rewrite (encode_alloc_body _ _ _ _ _ _ _ _ _ _ Hb (offer_size_le v) Hrun).
Qed.

Lemma chunk_fits_reads v x :
  chunk_fits v -> body_of (ChunkMsg v) x -> read_file_chunk x = inl (chunk_view v).
Proof.
  intros Hv (w & out & n & w' & out' & Hrun & ->).
  destruct (build_file_chunk_law _ Hv) as (seg & Hb & Hr).
  by rewrite (encode_alloc_body _ _ _ _ _ _ _ _ _ _ Hb (chunk_size_le v) Hrun).
Qed.

Lemma ack_body_reads v x :
  ack_fits v -> body_of (AckMsg v) x -> decode_file_ack x = Ok v.
Proof.
  intros Hv (w & out & n & w' & out' & Hrun & ->).
  destruct (build_file_ack_law _ Hv) as (seg & Hb & Hr).
  rewrite (encode_alloc_body _ _ _ _ _ _ _ _ _ _ Hb (ack_size_le v) Hrun).
  unfold decode_file_ack. rewrite Hr. by destruct v.
Qed.

(** No body with the transfer id [tid] in a mailbox is made up. *)
Definition requests_from (tid : u32) (L : list LogEntry) (evs : list RecvEvent) : Prop :=
  forall x root, Body x ∈ evs -> read_file_req x = inl root -> req_get_transfer_id root = tid ->
    exists v, tried (OfferMsg v) L /\ body_of (OfferMsg v) x.
Definition chunks_from (tid : u32) (L : list LogEntry) (evs : list RecvEvent) : Prop :=
  forall x root, Body x ∈ evs -> read_file_chunk x = inl root -> chunk_get_transfer_id root = tid ->
    exists v, tried (ChunkMsg v) L /\ body_of (ChunkMsg v) x.
(** [ack_fits] is what the type of [FileAckValue] says: its fields are [u32]. *)
Definition acks_from (tid : u32) (L : list LogEntry) (evs : list RecvEvent) : Prop :=
  forall x a, Body x ∈ evs -> decode_file_ack x = Ok a -> ack_transfer_id a = tid ->
    exists v, ack_fits v /\ tried (AckMsg v) L /\ body_of (AckMsg v) x.
End bus.

(** * Where the sender's acks come from *)

Section taken.
Context {CapnpError : Type} `{Capnp CapnpError}.

(** Only the ack mailbox is read. *)
Definition reads_acks (b b' : FtBus) : Prop :=
  ack_events b' ⊆ ack_events b /\ req_events b' = req_events b /\ chunk_events b' = chunk_events b.
#[local] Instance reads_acks_preorder : PreOrder reads_acks.
Proof.
  split; [by intros b|]. intros b1 b2 b3 (? & ? & ?) (? & ? & ?). split_and!; [by etrans|congruence..].
Qed.

(** A call is given only bodies of the ack mailbox. *)
Definition takes {A} (m : M FtBus (stop Error) A) : Prop :=
  forall b, exists l, log (m b).2 = log b ++ l /\ (forall x, Got x ∈ l -> Body x ∈ ack_events b) /\
    reads_acks b (m b).2.

Lemma takes_bind {A B} (m : M FtBus (stop Error) A) (k : A -> M FtBus (stop Error) B) :
  takes m -> (forall a, takes (k a)) -> takes (m ≫= k).
Proof.
  intros Hm Hk b. unfold mbind, M_bind. destruct (Hm b) as (l & Hl & Hg & Hc).
  destruct (m b) as [[a|e|] b1]; simpl in *; [|by exists l..].
  destruct (Hk a b1) as (l2 & Hl2 & Hg2 & Hc2). exists (l ++ l2).
  split_and!; [by rewrite Hl2, Hl, app_assoc| |by etrans].
  intros x [Hx|Hx]%elem_of_app; [by apply Hg|]. by apply Hc, Hg2.
Qed.

Lemma takes_pure {A} (m : M FtBus (stop Error) A) : (forall b, (m b).2 = b) -> takes m.
Proof. intros Hm b. exists []. rewrite Hm, app_nil_r. split_and!; [done| |done]. by intros x ?%not_elem_of_nil. Qed.

Lemma takes_attempt {A} (m : M FtBus (stop Error) A) : takes m -> takes (attempt m).
Proof.
  intros Hm b. unfold attempt. destruct (Hm b) as (l & ?).
  destruct (m b) as [[a|[e| |]|] b1]; by exists l.
Qed.

Lemma takes_send m : takes (send_to_with_timeout m).
Proof.
  intros b. unfold send_to_with_timeout. destruct (send_results b) as [|[e|] r]; simpl.
  - exists []. rewrite app_nil_r. split_and!; [done| |done]. by intros x ?%not_elem_of_nil.
  - exists [SendFailed m e]. split_and!; [done| |done]. by intros x ?%list_elem_of_singleton.
  - exists [Sent m]. split_and!; [done| |done]. by intros x ?%list_elem_of_singleton.
Qed.

Lemma wait_ack_takes tid evs (b : FtBus) :
  exists l, log (wait_ack_loop tid evs b).2 = log b ++ l /\ (forall x, Got x ∈ l -> Body x ∈ evs) /\
    ack_events (wait_ack_loop tid evs b).2 ⊆ evs /\
    req_events (wait_ack_loop tid evs b).2 = req_events b /\
    chunk_events (wait_ack_loop tid evs b).2 = chunk_events b.
Proof.
  revert b. induction evs as [|ev evs IH]; intros b0; simpl.
  - exists []. rewrite app_nil_r. split_and!; [done| |done..]. by intros x ?%not_elem_of_nil.
  - assert (Hone : forall y, Got y ∈ [match ev with Body x => Got x | RecvError e => GotError e | Elapsed => TimedOut end] ->
      Body y ∈ ev :: evs).
    { intros y Hy%list_elem_of_singleton. destruct ev; simplify_eq. apply elem_of_cons. by left. }
    assert (Htl : evs ⊆ ev :: evs) by (intros y Hy; by right).
    destruct ev as [x|e|]; [|by eexists [_]..].
    destruct (decode_file_ack x) as [a|e|]; [|by eexists [_]..].
    destruct (_ =? _)%Z; [by eexists [_]|].
    destruct (IH (emit (Got x) (set_ack_events evs b0))) as (l & Hl & Hg & Hc & Hr & Hk). exists (Got x :: l).
    rewrite Hl. simpl. rewrite <- app_assoc. split_and!; [done| |by etrans|done..].
    intros y [[= ->]|Hy]%elem_of_cons; apply elem_of_cons; [by left|right; by apply Hg].
Qed.
Lemma takes_wait tid : takes (wait_for_transfer_ack tid).
Proof. intros b. destruct (wait_ack_takes tid (ack_events b) b) as (l & ? & ? & ? & ? & ?). by exists l. Qed.
Hint Resolve takes_attempt takes_send takes_wait : rust.

Ltac take_acks := repeat first
  [ solve [eauto with rust] | solve [apply takes_pure; done]
  | apply takes_bind; [|intros] | progress cbv zeta beta iota
  | match goal with
    | |- takes (if ?c then _ else _) => destruct c
    | |- takes (match ?c with _ => _ end) => destruct c
    end ].

Lemma takes_offer_loop fuel config tid offer n : takes (offer_loop fuel config tid offer n).
Proof. revert n. induction fuel as [|fuel IH]; intros n; cbn [offer_loop]; take_acks. Qed.

Lemma takes_fill_window fuel tid file cs w f : takes (fill_window fuel tid file cs w f).
Proof. revert f. induction fuel as [|fuel IH]; intros f; cbn [fill_window]; take_acks. Qed.
Hint Resolve takes_offer_loop takes_fill_window : rust.

Lemma takes_window_loop fuel config tid file cs f : takes (window_loop fuel config tid file cs f).
Proof.
  revert f. induction fuel as [|fuel IH]; intros f; cbn [window_loop]; take_acks.
Qed.
Hint Resolve takes_window_loop : rust.

Lemma takes_transfer sha256 config tid n k file : takes (send_transfer sha256 config tid n k file).
Proof. unfold send_transfer. take_acks. Qed.

(** The bodies a send call was given were in the ack mailbox, the only one it
    reads. *)
Lemma sender_takes sha256 tid file config sst b r sst' b' :
  send_file_with_id_impl sha256 tid file config (sst, b) = (r, (sst', b')) ->
  reads_acks b b' /\ forall L x, log b' = log b ++ L -> Got x ∈ L -> Body x ∈ ack_events b.
Proof.
  rewrite send_file_with_id_run. intros Hrun.
  assert (Hsame : b' = b -> reads_acks b b' /\ forall L x, log b' = log b ++ L -> Got x ∈ L -> Body x ∈ ack_events b).
  { intros ->. split; [done|]. intros L x Hl Hx. rewrite <- (app_nil_r (log b)) in Hl at 1. apply app_inv_head in Hl as <-.
    by apply not_elem_of_nil in Hx. }
  destruct ((_ =? 0) || _); [apply Hsame; congruence|].
  destruct (_ || _); [apply Hsame; congruence|].
  destruct (takes_transfer sha256 config tid (Z.of_nat (length file))
    (Z.of_nat (sender_max_chunk_size config)) file b) as (l & Hl' & Hg & Hk).
  destruct (send_transfer _ _ _ _ _ _ _) as [r1 b1].
  injection Hrun as <- _ <-. simpl in Hl', Hk. split; [done|]. intros L x Hl Hx.
  rewrite Hl in Hl'. apply app_inv_head in Hl' as <-. by apply Hg.
Qed.
End taken.

(** * Where the receiver's store calls come from *)

Section sources.
Context {St H E T CapnpError : Type} `{AsyncFileStore St H E} `{HS : Sha256Laws T}.
Context `{HC : CapnpReadsU32 CapnpError}.

(** A write handle is opened for a request in the mailbox, a write is a
    prefix of a chunk of the same transfer in the mailbox, at its offset. *)
Definition sourced_entry (id : u32) (reqs chunks : list RecvEvent) (e : LogEntry) : Prop :=
  match e with
  | StoreOp (BeginWrite i n) | StoreOp (BeginFailed i n) =>
      exists x root, Body x ∈ reqs /\ read_file_req x = inl root /\
        req_get_transfer_id root = id /\ i = id /\ n = req_get_total_len root
  | StoreOp (WriteAt off d) | StoreOp (WriteFailed off d) =>
      exists x root, Body x ∈ chunks /\ read_file_chunk x = inl root /\
        chunk_get_transfer_id root = id /\ off = chunk_get_offset root /\
        d `prefix_of` default [] (chunk_get_data root)
  | _ => True
  end.

(** A call logs only sourced entries and adds nothing to the chunk mailbox. *)
Definition sourced_run {A} (id : u32) (reqs chunks : list RecvEvent) (w : St * FtBus)
    (run : result A (stop (FtError E CapnpError)) * (St * FtBus)) : Prop :=
  exists l, log run.2.2 = log w.2 ++ l /\ Forall (sourced_entry id reqs chunks) l /\
    chunk_events run.2.2 ⊆ chunk_events w.2.
Definition sourced {A} (id : u32) (reqs chunks : list RecvEvent) (m : RM St E CapnpError A) : Prop :=
  forall w, chunk_events w.2 ⊆ chunks -> sourced_run id reqs chunks w (m w).

Section calls.
Context (id : u32) (reqs chunks : list RecvEvent).
Abbreviation from m := (sourced id reqs chunks m).

Lemma sourced_run_bind {A B} (m : RM St E CapnpError A) (k : A -> RM St E CapnpError B) w :
  sourced_run id reqs chunks w (m w) ->
  (forall a w', m w = (Ok a, w') -> chunk_events w'.2 ⊆ chunk_events w.2 ->
     sourced_run id reqs chunks w' (k a w')) ->
  sourced_run id reqs chunks w
    (mbind (M := M (St * FtBus) (stop (FtError E CapnpError))) k m w).
Proof.
  intros (l & Hl & Hf & Hc) Hk. unfold mbind, M_bind.
  destruct (m w) as [[a|e|] w1] eqn:Hmw; simpl in *; [|by exists l..].
  destruct (Hk a w1 eq_refl Hc) as (l2 & Hl2 & Hf2 & Hc2). exists (l ++ l2).
  split_and!; [by rewrite Hl2, Hl, app_assoc|by apply Forall_app_2|by etrans].
Qed.

Lemma sourced_bind_ok {A B} (m : RM St E CapnpError A) (k : A -> RM St E CapnpError B) :
  from m ->
  (forall w a w', chunk_events w.2 ⊆ chunks -> m w = (Ok a, w') -> from (k a)) ->
  from (mbind (M := M (St * FtBus) (stop (FtError E CapnpError))) k m).
Proof.
  intros Hm Hk w Hw. apply sourced_run_bind; [by apply Hm|]. intros a w' Hrun Hc.
  eapply Hk; [done..|by etrans].
Qed.

Lemma sourced_bind {A B} (m : RM St E CapnpError A) (k : A -> RM St E CapnpError B) :
  from m -> (forall a, from (k a)) ->
  from (mbind (M := M (St * FtBus) (stop (FtError E CapnpError))) k m).
Proof. intros Hm Hk. by apply sourced_bind_ok. Qed.

Lemma sourced_pure {A} (m : RM St E CapnpError A) : (forall w, (m w).2 = w) -> from m.
Proof. intros Hm w Hw. exists []. by rewrite Hm, app_nil_r. Qed.

Lemma sourced_one {A} (m : RM St E CapnpError A) :
  (forall w, chunk_events (m w).2.2 = chunk_events w.2 /\
     (log (m w).2.2 = log w.2 \/
      exists e, log (m w).2.2 = log w.2 ++ [e] /\ sourced_entry id reqs chunks e)) -> from m.
Proof.
  intros Hm w Hw. destruct (Hm w) as [Hc [Hl|(e & Hl & He)]].
  - exists []. rewrite Hl, Hc, app_nil_r. by split_and!.
  - exists [e]. rewrite Hl, Hc. split_and!; [done|by apply Forall_singleton|done].
Qed.

Lemma sourced_send_ack a : from (send_ack a).
Proof.
  apply sourced_one. intros [s b]. unfold send_ack, send_to_with_timeout.
  destruct (send_results b) as [|[e|] r]; simpl; (split; [done|]); [by left|right; by eexists..].
Qed.
Lemma sourced_abort h : from (store_abort h).
Proof. apply sourced_one. intros [s b]. split; [done|]. right. by eexists. Qed.
Lemma sourced_commit h : from (store_commit h).
Proof.
  apply sourced_one. intros [s b]. unfold store_commit. destruct (commit h s) as [[u|e] s']; simpl;
    (split; [done|]); right; by eexists.
Qed.
Lemma sourced_begin x root n :
  Body x ∈ reqs -> read_file_req x = inl root -> req_get_transfer_id root = id ->
  n = req_get_total_len root -> from (store_begin_write id n).
Proof.
  intros Hx Hr Hid Hn. apply sourced_one. intros [s b]. unfold store_begin_write.
  destruct (begin_write id n s) as [[u|e] s']; simpl; (split; [done|]); right; eexists;
    (split; [done|]); by exists x, root.
Qed.

(** The piece of a chunk the loop writes. *)
Definition chunk_part (off : u32) (d : bytes) : Prop :=
  exists x root, Body x ∈ chunks /\ read_file_chunk x = inl root /\
    chunk_get_transfer_id root = id /\ off = chunk_get_offset root /\
    d `prefix_of` default [] (chunk_get_data root).

Lemma sourced_write h off d : chunk_part off d -> from (store_write_at h off d).
Proof.
  intros Hd. apply sourced_one. intros [s b]. unfold store_write_at.
  destruct (write_at h off d s) as [[[u|e] h'] s']; simpl; (split; [done|]); right; by eexists.
Qed.

Lemma sourced_abort_transfer {A} h k e err : from (abort_transfer (A := A) h id k e err).
Proof.
  apply sourced_bind; [apply sourced_abort|]. intros _. apply sourced_bind; [apply sourced_send_ack|].
  intros ?. by apply sourced_pure.
Qed.
Lemma sourced_abort_silently {A} h err : from (abort_silently (A := A) h err).
Proof. apply sourced_bind; [apply sourced_abort|]. intros _. by apply sourced_pure. Qed.
Hint Resolve sourced_send_ack sourced_abort sourced_commit sourced_write sourced_abort_transfer
  sourced_abort_silently : rust.

(** Follow the structure of a call. *)
Ltac source := repeat first
  [ solve [eauto with rust] | solve [apply sourced_pure; done]
  | apply sourced_bind; [|intros] | progress cbv zeta beta iota
  | match goal with
    | |- sourced _ _ _ (if ?c then _ else _) => destruct c
    | |- sourced _ _ _ (match ?c with _ => _ end) => destruct c
    end ].

Section transfer.
Context (t : Transfer) (Hid : tr_transfer_id t = id).

Lemma sourced_finish h (hs : T) : from (finish_transfer t h hs) /\ from (finish_empty t h hs).
Proof. unfold finish_transfer, finish_empty. rewrite Hid. split; source. Qed.

(** The tail of the loop body, for the part of the chunk to be written. *)
Lemma sourced_write_part (st : RecvLoop H T) off d :
  chunk_part off d ->
  from (write_part t st off d ≫= fun st' =>
    if (tr_total_len t <=? rl_next_offset st')%Z
    then finish_transfer t (rl_handle st') (rl_hasher st') ≫= fun r => mret (inr r)
    else progress_ack t st' ≫= fun st'' => mret (inl st'')).
Proof. intros Hd. unfold write_part, progress_ack. source. apply sourced_finish. Qed.

Lemma sourced_accept_chunk (st : RecvLoop H T) off d :
  chunk_part off d -> from (accept_chunk t st off d).
Proof.
  intros (x & root & Hx & Hr & Hi & Ho & Hp). unfold accept_chunk.
  destruct (negb _); [unfold resync; source|]. cbv zeta.
  destruct (_ =? 0); [by apply sourced_pure|].
  intros w Hw. unfold slice. case_decide as Hk; [|by exists []; rewrite app_nil_r].
  eapply sourced_write_part; [|done]. exists x, root. split_and!; [done..|].
  rewrite Nat.sub_0_r, drop_0. etrans; [apply prefix_take|done].
Qed.

Lemma sourced_accept_chunk_no_alloc (st : RecvLoop H T) off d buf k :
  chunk_part off d -> take k buf = d -> k <= length buf ->
  from (accept_chunk_no_alloc t st off buf k).
Proof.
  intros (x & root & Hx & Hr & Hi & Ho & Hp) Hd Hk. unfold accept_chunk_no_alloc.
  destruct (negb _); [unfold resync; source|]. cbv zeta.
  destruct (_ =? 0); [by apply sourced_pure|].
  rewrite slice_to_Some by lia. intros w Hw.
  eapply sourced_write_part; [|done]. exists x, root. split_and!; [done..|]. etrans; [|done].
  rewrite <- Hd, Nat.min_comm, <- take_take. apply prefix_take.
Qed.

(** A wait hands out a body of the mailbox. *)
Lemma sourced_wait : from (wait_for_transfer_chunk id).
Proof.
  rewrite <- Hid. intros [s b] Hw. unfold sourced_run, wait_for_transfer_chunk.
  pose proof (wait_chunk_loop_run (T := T) t (chunk_events b) b) as Hrun.
  assert (Hsub : chunk_events (wait_chunk_loop (tr_transfer_id t) (chunk_events b) b).2 ⊆ chunk_events b).
  { clear. generalize b at 2. induction (chunk_events b) as [|[x|e|] evs IH]; intros b0; simpl.
    - done.
    - destruct (read_chunk_transfer_id x) as [i|e|]; simpl; [destruct (_ =? _)%Z; simpl|..];
        try (intros y Hy; by right). etrans; [apply IH|]. intros y Hy. by right.
    - intros y Hy. by right.
    - intros y Hy. by right. }
  destruct (wait_chunk_loop _ _ _) as [r b']. destruct Hrun as (l & Hl & Hn & _).
  assert (Hs : Forall (sourced_entry id reqs chunks) l).
  { eapply Forall_impl; [exact Hn|]. by intros [] [Hno _]. }
  rewrite Hid. exists l. destruct r as [x|[e| |]|]; by split_and!.
Qed.

(** The body the loop runs for a chunk it was given. *)
Lemma sourced_round {A} (k : option bytes -> RM St E CapnpError A) :
  from (k None) -> (forall x, Body x ∈ chunks -> from (k (Some x))) ->
  from (mbind (M := M (St * FtBus) (stop (FtError E CapnpError))) k (wait_for_transfer_chunk id)).
Proof.
  intros Hnone Hsome. apply sourced_bind_ok; [apply sourced_wait|].
  intros [s b] [x|] [s' b'] Hb Hrun; [|done]. apply Hsome.
  apply wait_chunk_takes in Hrun as (l & Hev & Hx). apply Hb. simpl. rewrite Hev, elem_of_app. by left.
Qed.

Lemma sourced_recv_loop fuel (st : RecvLoop H T) : from (recv_loop fuel t st).
Proof.
  revert st. induction fuel as [|fuel IH]; intros st; cbn [recv_loop]; [by apply sourced_pure|].
  destruct (_ <? _)%Z; [|by apply sourced_pure]. rewrite Hid.
  apply sourced_round; [source|]. intros x Hx.
  destruct (read_file_chunk x) as [root|e] eqn:Hr; [|source]. cbv zeta.
  destruct (Z.eqb_spec (chunk_get_transfer_id root) id) as [Hi|]; [|source]. cbn [negb].
  destruct (_ <? _)%Z; [source|]. apply sourced_bind; [|intros []; [apply IH|by apply sourced_pure]].
  apply sourced_accept_chunk. by exists x, root.
Qed.

Lemma sourced_recv_loop_no_alloc MAX_CHUNK fuel (st : RecvLoop H T) :
  from (recv_loop_no_alloc MAX_CHUNK fuel t st).
Proof.
  revert st. induction fuel as [|fuel IH]; intros st; cbn [recv_loop_no_alloc]; [by apply sourced_pure|].
  destruct (_ <? _)%Z; [|by apply sourced_pure]. rewrite Hid.
  apply sourced_round; [source|]. intros x Hx.
  destruct (read_file_chunk x) as [root|e] eqn:Hr; [|source]. cbv zeta.
  set (data := default [] (chunk_get_data root)).
  rewrite slice_to_Some by lia. apply sourced_bind_ok; [by apply sourced_pure|].
  intros ? ? ? _ [= <- _]. rewrite copy_at_Some by len.
  apply sourced_bind_ok; [by apply sourced_pure|]. intros ? ? ? _ [= <- _].
  destruct (Z.eqb_spec (chunk_get_transfer_id root) id) as [Hi|]; [|source]. cbn [negb].
  destruct (_ || _); [source|]. apply sourced_bind; [|intros []; [apply IH|by apply sourced_pure]].
  apply sourced_accept_chunk_no_alloc with (d := take (length data `min` MAX_CHUNK) data).
  - exists x, root. split_and!; [done..|]. apply prefix_take.
  - simpl. rewrite take_app_le by len. rewrite take_take. f_equal. lia.
  - len.
Qed.

(** Everything after the checks, for a request of the mailbox. *)
Lemma sourced_transfer x root (loop : nat -> RecvLoop H T -> RM St E CapnpError RecvFileResult) :
  Body x ∈ reqs -> read_file_req x = inl root -> req_get_transfer_id root = id ->
  tr_total_len t = req_get_total_len root -> (forall fuel st, from (loop fuel st)) ->
  from (mbind (M := M (St * FtBus) (stop (FtError E CapnpError))) (fun st =>
      if (tr_total_len t =? 0)%Z then finish_empty t (rl_handle st) (rl_hasher st)
      else mbind (M := M (St * FtBus) (stop (FtError E CapnpError))) (fun fuel => loop fuel st) chunk_fuel)
    (start_transfer t)).
Proof.
  intros Hx Hr Hroot Hn Hloop. apply sourced_bind.
  - unfold start_transfer. rewrite Hid. apply sourced_bind; [by eapply sourced_begin|]. intros. source.
  - intros st. case_bool; [apply sourced_finish|]. apply sourced_bind; [by apply sourced_pure; intros []|].
    intros fuel. apply Hloop.
Qed.
End transfer.

Lemma sourced_reject {A} i e : from (reject (A := A) i e).
Proof. unfold reject. source. Qed.
Hint Resolve sourced_reject : rust.
Lemma sourced_check receiver q : from (check_request receiver q).
Proof. unfold check_request. source. Qed.
Lemma sourced_check_no_alloc receiver q : from (check_request_no_alloc receiver q).
Proof. unfold check_request_no_alloc. source. Qed.
End calls.

Lemma check_request_ids receiver q (w : St * FtBus) t w' :
  check_request (E := E) (CapnpError := CapnpError) receiver q w = (Ok t, w') ->
  tr_transfer_id t = rq_transfer_id q /\ tr_total_len t = rq_total_len q.
Proof.
  unfold check_request, reject, exit_with, mbind, RM_bind, mbind, M_bind, mret, RM_ret, mret, M_ret, fail.
  intros Hc. cases; done.
Qed.
Lemma check_request_no_alloc_ids receiver q (w : St * FtBus) t w' :
  check_request_no_alloc (E := E) (CapnpError := CapnpError) receiver q w = (Ok t, w') ->
  tr_transfer_id t = rq_transfer_id q.1.1 /\ tr_total_len t = rq_total_len q.1.1.
Proof.
  destruct q as [[q mf] hf].
  unfold check_request_no_alloc, reject, exit_with, mbind, RM_bind, mbind, M_bind, mret, RM_ret, mret,
    M_ret, fail. simpl. intros Hc. cases; done.
Qed.

(** [recv_file] and, with its two buffer sizes, [recv_file_no_alloc]. *)
Definition recv_call (buffers : option (nat * nat)) (receiver : ReceiverConfig) :
    RM St E CapnpError RecvFileResult :=
  match buffers with
  | None => recv_file_impl (T := T) receiver
  | Some (MAX_METADATA, MAX_CHUNK) => recv_file_no_alloc_impl (T := T) MAX_METADATA MAX_CHUNK receiver
  end.

Lemma recv_call_spec buffers receiver (w : St * FtBus) :
  ends (call_suspended (T := T) receiver (log w.2)) (call_received (T := T) receiver (log w.2))
    (call_failed (T := T) receiver (log w.2)) (recv_call buffers receiver w).
Proof. destruct buffers as [[m c]|]; [apply recv_file_no_alloc_spec|apply recv_file_spec]. Qed.

Lemma recv_next_req_logs (w : St * FtBus) :
  let '(r, w') := recv_next_req (E := E) (CapnpError := CapnpError) w in
  chunk_events w'.2 = chunk_events w.2 /\ exists l, log w'.2 = log w.2 ++ l /\ Forall received_entry l.
Proof.
  destruct w as [s b]. unfold recv_next_req. pose proof (recv_req_loop_run (req_events b) b) as Hr.
  destruct (recv_req_loop _ _) as [[x|[e| |]|] b']; destruct Hr as [Hc Hl]; simpl; try done; (split; [done|]).
  - exists [Got x]. by split; [|constructor].
  - exists [GotError e]. by split; [|constructor].
  - exists []. by rewrite app_nil_r.
Qed.

(** The transfer id of the request a call reads. *)
Definition request_id (w : St * FtBus) : u32 :=
  match recv_next_req (E := E) (CapnpError := CapnpError) w with
  | (Ok x, _) => match read_file_req x with inl root => req_get_transfer_id root | inr _ => 0%Z end
  | _ => 0%Z
  end.

(** The request a call parsed is in the mailbox. *)
Definition parsed_from (w : St * FtBus) (q : Request) : Prop :=
  exists x root, Body x ∈ req_events w.2 /\ read_file_req x = inl root /\
    req_get_transfer_id root = request_id w /\
    rq_transfer_id q = request_id w /\ rq_total_len q = req_get_total_len root.

Lemma sourced_requests MAX_METADATA (w : St * FtBus) :
  (sourced_run (request_id w) (req_events w.2) (chunk_events w.2) w (recv_request w) /\
   forall q w', recv_request (E := E) (CapnpError := CapnpError) w = (Ok q, w') -> parsed_from w q) /\
  (sourced_run (request_id w) (req_events w.2) (chunk_events w.2) w
     (recv_request_no_alloc MAX_METADATA w) /\
   forall q w', recv_request_no_alloc (E := E) (CapnpError := CapnpError) MAX_METADATA w = (Ok q, w') ->
     parsed_from w q.1.1).
Proof.
  unfold recv_request, recv_request_no_alloc, parsed_from, request_id, mbind, RM_bind, mbind, M_bind.
  pose proof (recv_next_req_logs w) as Hr.
  destruct (recv_next_req w) as [[x|e|] w1] eqn:Hrun; destruct Hr as (Hc & l & Hl & Hf);
    (assert (Hs : forall id A (r : result A (stop (FtError E CapnpError))),
       sourced_run id (req_events w.2) (chunk_events w.2) w (r, w1)) by
     (intros id A r; exists l; simpl; rewrite Hc; split_and!; [done|eapply Forall_impl; [exact Hf|by intros []]|done]));
    [|split; (split; [apply Hs|done])..].
  destruct w as [s b], w1 as [s1 b1]. apply recv_next_req_takes in Hrun as [Hx _].
  destruct (read_file_req x) as [root|e] eqn:Hroot; [|split; (split; [apply Hs|done])].
  destruct (extend_new _ _), (extend_new _ _).
  split; (split; [apply Hs|]); intros q w' [= <- _]; by exists x, root.
Qed.

(** Every store call of a receive call has its source in the mailboxes. *)
Lemma sourced_recv_call buffers receiver (w : St * FtBus) :
  sourced_run (request_id w) (req_events w.2) (chunk_events w.2) w (recv_call buffers receiver w).
Proof.
  destruct buffers as [[MM MC]|]; simpl.
  - destruct (sourced_requests MM w) as [_ [Hs Hq]]. apply sourced_run_bind; [done|].
    intros q w1 Hrun Hc. destruct (Hq _ _ Hrun) as (x & root & Hx & Hr & Hid & Hqi & Hqn).
    apply sourced_run_bind; [by apply sourced_check_no_alloc|]. intros t w2 Ht Hc2.
    apply check_request_no_alloc_ids in Ht as [Hti Htn].
    refine (eq_ind_r (sourced_run _ _ _ _) _ (begin_no_alloc_eq t _ w2)).
    eapply sourced_transfer; [congruence|done..|congruence| |by etrans].
    intros. apply sourced_recv_loop_no_alloc. congruence.
  - destruct (sourced_requests 0 w) as [[Hs Hq] _]. apply sourced_run_bind; [done|].
    intros q w1 Hrun Hc. destruct (Hq _ _ Hrun) as (x & root & Hx & Hr & Hid & Hqi & Hqn).
    apply sourced_run_bind; [by apply sourced_check|]. intros t w2 Ht Hc2.
    apply check_request_ids in Ht as [Hti Htn].
    eapply sourced_transfer; [congruence|done..|congruence| |by etrans].
    intros. apply sourced_recv_loop. congruence.
Qed.
End sources.

(** * The composition *)

(** What a call added to the log of its bus. *)
Definition call_log (b b' : FtBus) : list LogEntry := drop (length (log b)) (log b').

Lemma call_log_app b b' L : log b' = log b ++ L -> call_log b b' = L.
Proof. intros Hl. unfold call_log. by rewrite Hl, drop_app_length. Qed.

(** SHA-256 digests have 32 bytes. *)
Class DigestLength (T : Type) `{Sha256Hasher T} :=
  digest_length : forall d, length (digest d) = SHA256_HASH_LEN.

Global Instance KeptInput_digest_length : DigestLength KeptInput.
Proof. intros d. simpl. unfold SHA256_HASH_LEN. len. Qed.

Section composition.
Context {T CapnpError : Type} `{HS : Sha256Laws T} `{HD : !DigestLength T}.
Context `{HL : CapnpLaws CapnpError} `{HC : !CapnpReadsU32 CapnpError}.

(** ** The sender's messages *)

Section sent.
Context (tid : u32) (file : bytes) (config : SendConfig).

Lemma entry_of_tried m L :
  log_ok config tid file (transfer_offer digest tid file config) L -> tried m L ->
  match m with
  | OfferMsg v => v = transfer_offer digest tid file config
  | ChunkMsg v => piece tid file (sender_max_chunk_size config) v
  | AckMsg _ => False
  end.
Proof.
  intros HLog [Hin|[e Hin]]; apply list_elem_of_split in Hin as (l1 & l2 & ->);
    pose proof (HLog _ _ _ eq_refl) as He; destruct m; simpl in He; tauto.
Qed.

Lemma piece_bounds n v :
  piece tid file n v -> Z.to_nat (chunk_offset v) + length (chunk_data v) <= length file /\
  chunk_data v = take (length (chunk_data v)) (drop (Z.to_nat (chunk_offset v)) file).
Proof.
  intros (_ & _ & _ & Hsl). unfold slice in Hsl. case_decide; [|done]. injection Hsl as Hd.
  split; [lia|]. rewrite <- Hd at 1. f_equal. lia.
Qed.

(** Everything the sender tried to send fits the schema, and is the offer of
    the file or a piece of it. *)
Lemma sender_messages sst sb rs sst' sb' m :
  is_u32 tid -> send_file_with_id_impl digest tid file config (sst, sb) = (rs, (sst', sb')) ->
  tried m (call_log sb sb') ->
  match m with
  | OfferMsg v => v = transfer_offer digest tid file config /\ req_typed (offer_root v)
  | ChunkMsg v => piece tid file (sender_max_chunk_size config) v /\ chunk_typed v
  | AckMsg _ => False
  end.
Proof.
  intros Htid Hrun Hm. pose proof (send_file_with_id_spec digest tid file config sst sb) as Hs.
  rewrite Hrun in Hs. destruct Hs as (_ & (L & Hl & HLog) & _). simpl in Hl.
  rewrite (call_log_app _ _ L Hl) in Hm. pose proof (entry_of_tried m L HLog Hm) as Hent.
  assert (Hlen : (Z.of_nat (length file) <= u32_max /\
                  Z.of_nat (sender_max_chunk_size config) <= u32_max)%Z).
  { rewrite send_file_with_id_run in Hrun.
    assert (Hne : sb' <> sb).
    { intros ->. rewrite <- (app_nil_r (log sb)) in Hl at 1. apply app_inv_head in Hl as <-.
      destruct Hm as [Hm|[e Hm]]; by apply not_elem_of_nil in Hm. }
    destruct ((_ =? 0) || _); [by simplify_eq|].
    destruct (_ || _) eqn:Hg; [by simplify_eq|]. rewrite orb_false_iff, !Z.ltb_ge in Hg. lia. }
  change u32_max with 4294967295%Z in Hlen.
  destruct m as [v|v|v]; [|split; [done|]|done].
  - subst v. split; [done|]. unfold req_typed, in_width. simpl. rewrite digest_length.
    unfold SHA256_HASH_LEN. unfold in_width in Htid. lia.
  - pose proof (piece_bounds _ _ Hent) as [Hb _]. destruct Hent as (Hi & ? & ? & _).
    unfold chunk_typed. rewrite Hi. unfold in_width in *. lia.
Qed.
End sent.

(** ** What the receiver may have written *)

Section content.
Context (tid : u32) (file : bytes) (t : Transfer) (reqs chunks : list RecvEvent).

(** The chunks of the transfer in the mailbox are pieces of the file, and its
    requests announce the length of the file. *)
Definition chunk_of_file : Prop :=
  forall x root, Body x ∈ chunks -> read_file_chunk x = inl root -> chunk_get_transfer_id root = tid ->
    exists v n, piece tid file n v /\ root = chunk_view v.
Definition length_of_file : Prop :=
  forall x root, Body x ∈ reqs -> read_file_req x = inl root -> req_get_transfer_id root = tid ->
    req_get_total_len root = Z.of_nat (length file).

Lemma prefix_extend (l d data : bytes) n :
  l `prefix_of` file -> data = take n (drop (length l) file) -> d `prefix_of` data ->
  (l ++ d) `prefix_of` file.
Proof.
  intros [k ->] -> Hd. rewrite drop_app_length in Hd. apply prefix_app. etrans; [exact Hd|].
  apply prefix_take.
Qed.

(** What is written is a prefix of the file. *)
Lemma written_prefix L :
  chunk_of_file -> recv_log_ok (T := T) t L -> Forall (sourced_entry tid reqs chunks) L ->
  written L `prefix_of` file.
Proof.
  intros Hch. induction L as [|e L IH] using rev_ind; intros Hok Hsrc; [apply prefix_nil|].
  apply each_entry_snoc_inv in Hok as [HLok He]. apply Forall_app in Hsrc as [HLs Hs].
  specialize (IH HLok HLs). rewrite written_snoc.
  destruct (write_data e) as [d|] eqn:Hd; simpl; [|by rewrite app_nil_r].
  destruct e as [ | | | | |[]]; try done. injection Hd as ->.
  apply Forall_singleton in Hs as (x & root & Hx & Hr & Hi & Ho & Hp).
  destruct He as (_ & Hoff & _). destruct (Hch x root Hx Hr Hi) as (v & n & Hv & ->).
  destruct (piece_bounds tid file n v Hv) as [_ Hdata]. simpl in *.
  eapply prefix_extend; [done| |exact Hp]. rewrite Hdata at 1. do 2 f_equal. lia.
Qed.

(** An open, committed or aborted handle was opened for the transfer. *)
Lemma begun_entry L :
  recv_log_ok (T := T) t L -> status L <> NotBegun ->
  StoreOp (BeginWrite (tr_transfer_id t) (tr_total_len t)) ∈ L.
Proof.
  induction L as [|e L IH] using rev_ind; intros Hok Hst; [done|].
  apply each_entry_snoc_inv in Hok as [HLok He]. rewrite status_snoc in Hst. apply elem_of_app.
  destruct (decide (status L = NotBegun)) as [Hn|Hn]; [right|left; apply IH; [done|]].
  - rewrite Hn in Hst. destruct e as [ | | | | |[]]; simpl in *; try done;
      try (by rewrite Hn in He); try (by destruct He as [Hx _]; rewrite Hn in Hx).
    destruct He as (_ & -> & ->). by apply list_elem_of_singleton.
  - done.
Qed.

(** Once committed, a log stays committed with the same content. *)
Lemma committed_stays L l :
  recv_log_ok (T := T) t (L ++ l) -> status L = Committed ->
  status (L ++ l) = Committed /\ written (L ++ l) = written L.
Proof.
  intros Hok Hst. induction l as [|e l IH] using rev_ind; [by rewrite app_nil_r|].
  rewrite app_assoc in *. apply each_entry_snoc_inv in Hok as [HLok He].
  destruct (IH HLok) as [Hs Hw]. rewrite status_snoc, written_snoc.
  destruct e as [ | | | | |[]]; simpl in *; rewrite ?app_nil_r; try done;
    rewrite Hs in He; first [done | by destruct He].
Qed.

(** A committed log of the transfer holds the file. *)
Lemma committed_is_file L :
  chunk_of_file -> length_of_file ->
  recv_log_ok (T := T) t L -> Forall (sourced_entry tid reqs chunks) L ->
  status L <> NotBegun -> Z.of_nat (length (written L)) = tr_total_len t -> written L = file.
Proof.
  intros Hch Hlen Hok Hsrc Hst Hw. pose proof (begun_entry L Hok Hst) as Hb.
  rewrite Forall_forall in Hsrc. destruct (Hsrc _ Hb) as (x & root & Hx & Hr & Hi & _ & Hn).
  rewrite <- Forall_forall in Hsrc. destruct (written_prefix L Hch Hok Hsrc) as [k Hk].
  assert (k = []) as ->.
  { apply nil_length_inv. pose proof (Hlen x root Hx Hr Hi) as Hl. rewrite Hk in Hl. len. }
  by rewrite app_nil_r in Hk.
Qed.
End content.

(** A bus that makes nothing up carries only pieces of the file. *)
Lemma sender_chunks tid file config sst sb rs sst' sb' evs :
  is_u32 tid -> send_file_with_id_impl digest tid file config (sst, sb) = (rs, (sst', sb')) ->
  chunks_from tid (call_log sb sb') evs -> chunk_of_file tid file evs.
Proof.
  intros Htid Hrun Hfrom x root Hx Hr Hi. destruct (Hfrom x root Hx Hr Hi) as (v & Hv & Hbody).
  destruct (sender_messages _ _ _ _ _ _ _ _ _ Htid Hrun Hv) as [Hp Hf].
  rewrite (chunk_body_reads v x root Hf Hbody Hr). by eexists v, _.
Qed.

Lemma sender_requests tid file config sst sb rs sst' sb' evs :
  is_u32 tid -> send_file_with_id_impl digest tid file config (sst, sb) = (rs, (sst', sb')) ->
  requests_from tid (call_log sb sb') evs -> length_of_file tid file evs.
Proof.
  intros Htid Hrun Hfrom x root Hx Hr Hi. destruct (Hfrom x root Hx Hr Hi) as (v & Hv & Hbody).
  destruct (sender_messages _ _ _ _ _ _ _ _ _ Htid Hrun Hv) as [-> Hf].
  by rewrite (offer_body_reads _ x root Hf Hbody Hr).
Qed.

Section receive.
Context {St Handle E : Type} `{AsyncFileStore St Handle E}.

(** What the log of a receive call says, however it ended. *)
Lemma recv_call_log buffers receiver (s : St) b r s' b' :
  recv_call (T := T) (CapnpError := CapnpError) buffers receiver (s, b) = (r, (s', b')) ->
  exists t id L, log b' = log b ++ L /\ recv_log_ok (T := T) t L /\
    Forall (sourced_entry id (req_events b) (chunk_events b)) L /\
    (forall res, r = Ok res -> committed (T := T) t L res).
Proof.
  intros Hrun. pose proof (recv_call_spec (T := T) (CapnpError := CapnpError) buffers receiver (s, b)) as Hs.
  destruct (sourced_recv_call (T := T) (CapnpError := CapnpError) buffers receiver (s, b))
    as (l & Hl & Hsrc & _). rewrite Hrun in Hs, Hl. simpl in *.
  assert (Ht : exists t L, log b' = log b ++ L /\ recv_log_ok (T := T) t L /\
    (forall res, r = Ok res -> committed (T := T) t L res)).
  { destruct r as [res|[e| |]|]; simpl in Hs; [| | |done..].
    - destruct Hs as (t & body & root & L & _ & _ & HL1 & HL2 & Hc). exists t, (Got body :: L).
      split_and!; [done..|]. by intros ? [= <-].
    - destruct Hs as (t & L & HL1 & HL2 & _). by exists t, L.
    - destruct Hs as (t & L & HL1 & HL2 & _). by exists t, L. }
  destruct Ht as (t & L & HL1 & HL2 & Hc). eexists t, _, L. split_and!; [done..| |done].
  rewrite HL1 in Hl. by apply app_inv_head in Hl as <-.
Qed.

(** The id a log is sourced with is the id of its transfer. *)
Lemma sourced_id t id reqs chunks L :
  recv_log_ok (T := T) t L -> Forall (sourced_entry id reqs chunks) L -> status L <> NotBegun ->
  tr_transfer_id t = id.
Proof.
  intros Hok Hsrc Hst. rewrite Forall_forall in Hsrc.
  by destruct (Hsrc _ (begun_entry t L Hok Hst)) as (_ & _ & _ & _ & _ & -> & _).
Qed.

(** A receive that returned [Ok] read a request with the id of its result. *)
Lemma received_request buffers receiver (s : St) b res s' b' :
  recv_call (T := T) (CapnpError := CapnpError) buffers receiver (s, b) = (Ok res, (s', b')) ->
  exists x root, Body x ∈ req_events b /\ read_file_req x = inl root /\
    req_get_transfer_id root = got_transfer_id res.
Proof.
  intros Hrecv. destruct (recv_call_log _ _ _ _ _ _ _ Hrecv) as (t & id & L & _ & Hok & Hsrc & Hc).
  destruct (Hc res eq_refl) as (-> & Hst & _). rewrite Forall_forall in Hsrc.
  destruct (Hsrc _ (begun_entry t L Hok ltac:(by rewrite Hst))) as (x & root & Hx & Hr & Hi & Hid & _).
  exists x, root. split_and!; [done..|]. simpl. congruence.
Qed.

(** A receive that returned [Ok] committed the file its mailboxes tell of. *)
Lemma received_file buffers file receiver (s : St) b res s' b' :
  recv_call (T := T) (CapnpError := CapnpError) buffers receiver (s, b) = (Ok res, (s', b')) ->
  chunk_of_file (got_transfer_id res) file (chunk_events b) ->
  length_of_file (got_transfer_id res) file (req_events b) ->
  log b' = log b ++ call_log b b' /\ status (call_log b b') = Committed /\
  written (call_log b b') = file.
Proof.
  intros Hrecv Hch Hreq. destruct (recv_call_log _ _ _ _ _ _ _ Hrecv) as (t & id & L & Hl & Hok & Hsrc & Hc).
  destruct (Hc res eq_refl) as (-> & Hst & Hlen & _). rewrite (call_log_app _ _ L Hl).
  split_and!; [done..|].
  assert (Hns : status L <> NotBegun) by (by rewrite Hst).
  pose proof (sourced_id _ _ _ _ _ Hok Hsrc Hns) as Hi. rewrite <- Hi in Hsrc.
  by eapply committed_is_file.
Qed.

(** C2. A file arrives intact: when [recv_file] (or the no-alloc variant)
    returns [Ok] for a transfer whose requests and chunks all come from one
    [send_file_with_id] call, through a bus that may lose, repeat, delay and
    reorder messages but not make them up, the content it wrote to the store
    and committed is the sender's file, whatever the two configurations, the
    timeouts and the store do. *)
Theorem file_arrives_intact buffers tid file config sst sb rs sst' sb' receiver (s : St) b res s' b' :
  is_u32 tid ->
  send_file_with_id_impl digest tid file config (sst, sb) = (rs, (sst', sb')) ->
  recv_call (T := T) (CapnpError := CapnpError) buffers receiver (s, b) = (Ok res, (s', b')) ->
  got_transfer_id res = tid ->
  requests_from tid (call_log sb sb') (req_events b) ->
  chunks_from tid (call_log sb sb') (chunk_events b) ->
  log b' = log b ++ call_log b b' /\ status (call_log b b') = Committed /\
  written (call_log b b') = file.
Proof.
  intros Htid Hsend Hrecv <- Hreq Hch.
  eapply received_file; [exact Hrecv|by eapply sender_chunks|by eapply sender_requests].
Qed.

(** A committed content has the announced length. *)
Lemma committed_length t L :
  recv_log_ok (T := T) t L -> status L = Committed ->
  Z.of_nat (length (written L)) = tr_total_len t.
Proof.
  induction L as [|e L IH] using rev_ind; intros Hok Hst; [done|].
  apply each_entry_snoc_inv in Hok as [HLok He]. rewrite status_snoc in Hst. rewrite written_snoc.
  destruct e as [ | | | | |[]]; simpl in *; rewrite ?app_nil_r; try done;
    try (by apply IH); try (by destruct He as [Ho _]; rewrite Ho in Hst). apply He.
Qed.

(** An ack of a receive call that covers the whole announced length is the
    completion, sent after the commit. *)
Lemma full_ack_committed t a L :
  recv_log_ok (T := T) t L -> tried (AckMsg a) L -> ack_kind a = Ack \/ ack_kind a = Complete ->
  (tr_total_len t <= ack_next_offset a)%Z -> status L = Committed.
Proof.
  intros Hok Ht Hk Hn.
  assert (He : exists l1 e l2, L = l1 ++ e :: l2 /\ recv_entry_ok (T := T) t l1 (Sent (AckMsg a))).
  { destruct Ht as [Hin|[e Hin]]; apply list_elem_of_split in Hin as (l1 & l2 & Heq);
      eexists l1, _, l2; (split; [exact Heq|]); apply (Hok _ _ _ Heq). }
  destruct He as (l1 & e & l2 & -> & [_ Ha]).
  destruct Hk as [Hk|Hk]; rewrite Hk in Ha; [lia|]. exact (proj1 (committed_stays t l1 (e :: l2) Hok (proj1 Ha))).
Qed.

Lemma status_begun L l : status L <> NotBegun -> status (L ++ l) <> NotBegun.
Proof.
  intros Hst. induction l as [|e l IH] using rev_ind; [by rewrite app_nil_r|].
  rewrite app_assoc, status_snoc. by destruct e as [ | | | | |[]].
Qed.

(** A call that acknowledged bytes has begun its write. *)
Lemma acked_begun t a L :
  recv_log_ok (T := T) t L -> tried (AckMsg a) L -> ack_kind a = Ack \/ ack_kind a = Complete ->
  ack_transfer_id a = tr_transfer_id t /\ status L <> NotBegun.
Proof.
  intros Hok Ht Hk.
  assert (He : exists l1 l2, L = l1 ++ l2 /\ recv_entry_ok (T := T) t l1 (Sent (AckMsg a))).
  { destruct Ht as [Hin|[e Hin]]; apply list_elem_of_split in Hin as (l1 & l2 & Heq);
      eexists l1, _; (split; [exact Heq|]); apply (Hok _ _ _ Heq). }
  destruct He as (l1 & l2 & -> & [Hid Ha]). split; [done|]. apply status_begun.
  destruct Hk as [Hk|Hk]; rewrite Hk in Ha; destruct Ha as [Ha _]; by rewrite Ha.
Qed.

(** An acknowledged byte was acknowledged by an ack of the transfer. *)
Lemma acked_elem_inv tid L n :
  (0 < n <= acked tid L)%Z ->
  exists x a, Got x ∈ L /\ decode_file_ack x = Ok a /\ ack_transfer_id a = tid /\
    (ack_kind a = Ack \/ ack_kind a = Complete) /\ (n <= ack_next_offset a)%Z.
Proof.
  intros Hn. unfold acked in Hn. induction L as [|e L IH]; simpl in Hn; [lia|].
  destruct (Z.le_gt_cases n (acked_by tid e)) as [Hle|Hgt].
  - destruct e as [| |x| | |]; simpl in Hle; try lia. exists x.
    destruct (decode_file_ack x) as [a|e|]; try lia. exists a.
    destruct (Z.eqb_spec (ack_transfer_id a) tid) as [Hi|]; [|lia].
    split; [apply elem_of_cons; by left|]. destruct (ack_kind a); try lia; auto 6.
  - destruct IH as (x & a & Hx & ?); [lia|]. exists x, a. split; [|done]. apply elem_of_cons. by right.
Qed.

(** A sender that returned [Ok] was told so by a receiver that committed. *)
Lemma sent_file buffers tid file config sst sb res sst' sb' receiver (s : St) b r s' b' :
  is_u32 tid -> file <> [] ->
  send_file_with_id_impl digest tid file config (sst, sb) = (Ok res, (sst', sb')) ->
  recv_call (T := T) (CapnpError := CapnpError) buffers receiver (s, b) = (r, (s', b')) ->
  requests_from tid (call_log sb sb') (req_events b) ->
  chunks_from tid (call_log sb sb') (chunk_events b) ->
  acks_from tid (call_log b b') (ack_events sb) ->
  status (call_log b b') = Committed /\ written (call_log b b') = file.
Proof.
  intros Htid Hne Hsend Hrecv Hreq Hch Hack.
  destruct (recv_call_log _ _ _ _ _ _ _ Hrecv) as (t & id & L & Hl & Hok & Hsrc & _).
  rewrite (call_log_app _ _ L Hl) in *.
  pose proof (send_file_with_id_spec digest tid file config sst sb) as Hs. rewrite Hsend in Hs.
  destruct Hs as (_ & _ & Ls & [HLs _] & Hdel). simpl in HLs.
  assert (Hacked : (0 < Z.of_nat (length file) <= acked tid Ls)%Z).
  { destruct Hdel as (_ & _ & _ & _ & _ & Ha & _). destruct file; [done|]. simpl in *. lia. }
  destruct (acked_elem_inv _ _ _ Hacked) as (x & a & Hx & Hd & Hi & Hk & Hn).
  pose proof (proj2 (sender_takes _ _ _ _ _ _ _ _ _ Hsend) _ _ HLs Hx) as Hxe.
  destruct (Hack x a Hxe Hd Hi) as (v & Hfit & Hv & Hbody).
  rewrite (ack_body_reads v x Hfit Hbody) in Hd. injection Hd as ->.
  destruct (acked_begun t a L Hok Hv Hk) as [Hta Hst].
  pose proof (sourced_id _ _ _ _ _ Hok Hsrc Hst) as Hid. rewrite <- Hid, <- Hta, Hi in Hsrc.
  assert (Htot : tr_total_len t = Z.of_nat (length file)).
  { rewrite Forall_forall in Hsrc.
    destruct (Hsrc _ (begun_entry t L Hok Hst)) as (y & root & Hy & Hr & Hri & _ & ->).
    by apply (sender_requests _ _ _ _ _ _ _ _ _ Htid Hsend Hreq y). }
  assert (Hcom : status L = Committed) by (eapply full_ack_committed; eauto; lia).
  split; [done|]. eapply committed_is_file; [by eapply sender_chunks|by eapply sender_requests|done..|].
  by apply committed_length.
Qed.

(** C3. When [send_file_with_id] returns [Ok] for a non-empty file and the
    requests, chunks and acks of the transfer all come from the one sender and
    the one receive call (lost, repeated, delayed or reordered, but not made
    up), the receiver committed the write and its content is the sender's
    file, even when the receive call itself failed to report it. *)
Theorem sender_ok_committed buffers tid file config sst sb res sst' sb' receiver (s : St) b r s' b' :
  is_u32 tid -> file <> [] ->
  send_file_with_id_impl digest tid file config (sst, sb) = (Ok res, (sst', sb')) ->
  recv_call (T := T) (CapnpError := CapnpError) buffers receiver (s, b) = (r, (s', b')) ->
  requests_from tid (call_log sb sb') (req_events b) ->
  chunks_from tid (call_log sb sb') (chunk_events b) ->
  acks_from tid (call_log b b') (ack_events sb) ->
  status (call_log b b') = Committed /\ written (call_log b b') = file.
Proof. apply sent_file. Qed.
End receive.
End composition.
