(* ===== verification/FtLossless.v ===== *)
(** * A file transfer on a bus that loses nothing

    The sender and the receiver of the file transfer, each given what the
    other one sends, in order and once.  The file is cut in [div_ceil len cs]
    pieces of the negotiated size [cs]; the sender answers the acks of the
    pieces with exactly the chunks, the receiver answers the chunks with
    exactly the acks, and both calls return [Ok]: the exchange succeeds without
    a retry, for every file, window and pair of configurations. *)
From S2P Require Import Prelude Script Wire FtSchema FtBus FtSender FtReceiver FtMemoryStore FtEndToEnd.

(** The messages of a log that were handed to the bus. *)
Definition sent_msg (e : LogEntry) : option FtMsg := match e with Sent m => Some m | _ => None end.
Definition sent_msgs (L : list LogEntry) : list FtMsg := omap sent_msg L.

Section bodies.
Context {CapnpError : Type} `{HL : CapnpLaws CapnpError}.

Definition msg_max_len (m : FtMsg) : nat :=
  match m with
  | OfferMsg v => offer_max_len v
  | ChunkMsg v => chunk_max_len v
  | AckMsg v => ack_max_len v
  end.

(** The body the encoder writes into a buffer of the announced size. *)
Definition wire_body (m : FtMsg) : bytes :=
  match encode_msg m ([], replicate (msg_max_len m) 0%Z) with
  | (Ok n, (_, out)) => take n out
  | _ => []
  end.

Definition msg_fits (m : FtMsg) : Prop :=
  match m with
  | OfferMsg v => req_fits (offer_root v)
  | ChunkMsg v => chunk_fits v
  | AckMsg v => ack_fits v
  end.

Lemma encode_alloc_runs {V} (build : V -> bytes -> option (list bytes * bytes)) v size seg max_len :
  builds build size v seg -> size <= max_len ->
  exists n w out, encode_alloc build v max_len ([], replicate max_len 0%Z) = (Ok n, (w, out)).
Proof.
  intros Hb Hmax.
  destruct (encoders_ok build v size seg max_len (capnp_scratch_words_for_bytes max_len) []
    CapnpScratch_new (replicate max_len 0%Z) Hb Hmax ltac:(len) ltac:(lia)) as ((w' & ->) & _).
  by eexists _, _, _.
Qed.

Lemma wire_body_of m : msg_fits m -> body_of m (wire_body m).
Proof.
  intros Hm. unfold body_of, wire_body.
  assert (Hrun : exists n w out, encode_msg m ([], replicate (msg_max_len m) 0%Z) = (Ok n, (w, out))).
  { destruct m as [v|v|v]; cbn [msg_fits msg_max_len encode_msg] in *.
    - destruct (build_file_req_law _ Hm) as (seg & Hb & _). eapply encode_alloc_runs; [done|].
      apply offer_size_le.
    - destruct (build_file_chunk_law _ Hm) as (seg & Hb & _). eapply encode_alloc_runs; [done|].
      apply chunk_size_le.
    - destruct (build_file_ack_law _ Hm) as (seg & Hb & _). eapply encode_alloc_runs; [done|].
      apply ack_size_le. }
  destruct Hrun as (n & w & out & Hrun). rewrite Hrun. by eexists _, _, n, w, out.
Qed.
End bodies.

(** * The pieces of a file *)

Section pieces.
Context (file : bytes) (cs : nat) (tid : u32).

Definition piece_count : nat := div_ceil (length file) cs.
(** Where piece [j] starts. *)
Definition cut (j : nat) : nat := (j * cs) `min` length file.
Definition nth_piece (j : nat) : FileChunkValue :=
  file_chunk tid (Z.of_nat (cut j)) (take (cut (S j) - cut j) (drop (cut j) file)).
(** The ack for piece [j]. *)
Definition nth_ack (j : nat) : FileAckValue :=
  if S j =? piece_count then file_ack tid Complete (Z.of_nat (length file)) 0 NoError
  else file_ack_progress tid (Z.of_nat (cut (S j))).

Lemma cut_le j : cut j <= length file.
Proof. unfold cut. lia. Qed.

Context (Hcs : 0 < cs).

Lemma cut_count : cut piece_count = length file.
Proof. unfold cut, piece_count. pose proof (div_ceil_spec (length file) cs Hcs). nia. Qed.

Lemma piece_count_pos : file <> [] -> 0 < piece_count.
Proof.
  intros Hne. destruct (decide (piece_count = 0)) as [Hz|]; [|lia]. pose proof cut_count as Hc.
  rewrite Hz in Hc. unfold cut in Hc. simpl in Hc. by destruct file.
Qed.

Lemma cut_lt j : j < piece_count -> cut j = j * cs /\ j * cs < length file.
Proof. unfold cut, piece_count. pose proof (div_ceil_spec (length file) cs Hcs). nia. Qed.

Lemma cut_step j : j < piece_count -> cut j < cut (S j) <= cut j + cs.
Proof. intros Hj. pose proof (cut_lt j Hj). unfold cut. lia. Qed.

Lemma cut_last j : S j = piece_count <-> j < piece_count /\ cut (S j) = length file.
Proof.
  split.
  - intros Hj. rewrite Hj. split; [lia|]. apply cut_count.
  - intros [Hj Hc]. destruct (decide (S j = piece_count)) as [|Hne]; [done|].
    pose proof (cut_lt (S j) ltac:(lia)). lia.
Qed.

Lemma inflight_pieces i j :
  i <= j <= piece_count ->
  inflight_chunk_count (Z.of_nat (cut i)) (Z.of_nat (cut j)) cs = Ok (j - i).
Proof.
  intros Hij. unfold inflight_chunk_count.
  destruct (decide (i = j)) as [->|Hne].
  { rewrite Nat.sub_diag. by destruct (Z.leb_spec (Z.of_nat (cut j)) (Z.of_nat (cut j))); [|lia]. }
  assert (Hi : i < piece_count) by lia. pose proof (cut_lt i Hi) as [Hci _].
  assert (Hd : exists d, j = i + S d) by (exists (j - i - 1); lia). destruct Hd as [d Hd].
  assert (Hx : d * cs < cut j - cut i <= S d * cs).
  { destruct (decide (j = piece_count)) as [Hj|].
    - rewrite Hj, cut_count, Hci. unfold piece_count in Hj.
      pose proof (div_ceil_spec (length file) cs Hcs). rewrite <- Hj, Hd in *. nia.
    - pose proof (cut_lt j ltac:(lia)) as [-> _]. rewrite Hci, Hd. nia. }
  destruct (Z.leb_spec (Z.of_nat (cut j)) (Z.of_nat (cut i))); [lia|].
  destruct (Nat.eqb_spec cs 0); [lia|]. f_equal.
  replace (Z.to_nat _) with (cut j - cut i) by lia.
  pose proof (div_ceil_spec (cut j - cut i) cs Hcs). replace (j - i) with (S d) by lia. nia.
Qed.

Lemma piece_slice j :
  j < piece_count ->
  slice file (cut j) ((cut j + cs) `min` length file) = Some (chunk_data (nth_piece j)) /\
  length (chunk_data (nth_piece j)) = cut (S j) - cut j.
Proof.
  intros Hj. pose proof (cut_step j Hj). pose proof (cut_le (S j)). pose proof (cut_lt j Hj).
  assert (Hend : (cut j + cs) `min` length file = cut (S j)) by (unfold cut in *; lia).
  rewrite Hend, slice_Some by lia. split; [done|]. simpl. len.
Qed.

Lemma take_piece j :
  j < piece_count -> take (cut (S j)) file = take (cut j) file ++ chunk_data (nth_piece j).
Proof.
  intros Hj. pose proof (cut_step j Hj). rewrite <- (take_drop (cut j) (take (cut (S j)) file)).
  rewrite take_take, Nat.min_l by lia. f_equal.
  cbn [nth_piece file_chunk chunk_data]. rewrite take_drop_commute. do 2 f_equal. lia.
Qed.
End pieces.

(** * The sender *)

Lemma try_bind {S E A B} (a : A) (k : A -> M S (stop E) B) (s : S) : (try (Ok a) ≫= k) s = k a s.
Proof. done. Qed.
Lemma panic_bind {S E A B} (a : A) (k : A -> M S E B) (s : S) : (or_panic (Some a) ≫= k) s = k a s.
Proof. done. Qed.

Section sender_run.
Context {CapnpError : Type} `{HL : CapnpLaws CapnpError}.
Context (file : bytes) (cs : nat) (tid : u32) (config : SendConfig).
Context (Hcs : 0 < cs) (Hlen : (Z.of_nat (length file) <= u32_max)%Z).
Context (Hwin : 0 < window_chunks config).
Abbreviation n := (piece_count file cs).
Abbreviation at_cut j := (Z.of_nat (cut file cs j)).

(** The sender's variables when the acks of [i] pieces arrived and [j] pieces
    were sent. *)
Definition flight (i j : nat) : Flight :=
  {| chunks_sent := j; retries := 0; last_acked := at_cut i; next_to_send := at_cut j |}.

Definition sends (j k : nat) : list FtMsg := map (fun j => ChunkMsg (nth_piece file cs tid j)) (seq j k).

Lemma fill_window_lossless fuel i j b r :
  i <= j <= n -> i < n -> send_results b = replicate (n - j) None ++ r ->
  n - j < fuel ->
  let J := j `max` ((i + window_chunks config) `min` n) in
  exists b', fill_window fuel tid file cs (window_chunks config) (flight i j) b = (Ok (flight i J), b') /\
    send_results b' = replicate (n - J) None ++ r /\ ack_events b' = ack_events b /\
    log b' = log b ++ map Sent (sends j (J - j)).
Proof.
  revert j b. induction fuel as [|fuel IH]; intros j b Hij Hi Hres Hf; [lia|].
  cbn [fill_window flight last_acked next_to_send chunks_sent retries].
  rewrite inflight_pieces, try_bind, Nat2Z.id by done. cbv zeta.
  destruct (Nat.ltb_spec (j - i) (window_chunks config)) as [HW|HW]; cbn [andb].
  2:{ exists b. replace (j `max` _) with j by lia. rewrite Nat.sub_diag, app_nil_r. by split_and!. }
  destruct (Nat.ltb_spec (cut file cs j) (length file)) as [Hj|Hj].
  2:{ assert (j = n) as ->.
      { destruct (decide (j = n)) as [|Hne]; [done|]. pose proof (cut_lt file cs Hcs j ltac:(lia)). lia. }
      exists b. replace (n `max` _) with n by lia. rewrite Nat.sub_diag, ?app_nil_r in *. by split_and!. }
  assert (Hjn : j < n).
  { destruct (decide (j = n)) as [->|]; [|lia]. rewrite cut_count in Hj by done. lia. }
  destruct (piece_slice file cs tid Hcs j Hjn) as [-> Hd].
  pose proof (cut_step file cs Hcs j Hjn) as Hstep. pose proof (cut_le file cs (S j)) as Hle.
  replace (n - j) with (S (n - S j)) in Hres by lia. simpl in Hres.
  rewrite panic_bind, (bind_ok _ _ _ tt (emit (Sent (ChunkMsg (nth_piece file cs tid j)))
    (set_send_results (replicate (n - S j) None ++ r) b)))
    by (unfold send_to_with_timeout; by rewrite Hres).
  assert (Hu : u32_try_from (cut file cs (S j) - cut file cs j) =
    Some (Z.of_nat (cut file cs (S j) - cut file cs j))) by (apply u32_try_from_Some; lia).
  rewrite Hd, Hu. cbn [ok_or].
  rewrite try_bind. unfold checked_add32.
  replace (at_cut j + Z.of_nat (cut file cs (S j) - cut file cs j))%Z with (at_cut (S j)) by lia.
  destruct (Z.leb_spec (at_cut (S j)) u32_max); [|lia]. cbn [ok_or]. rewrite try_bind, Nat.add_1_r.
  set (b1 := emit _ _).
  destruct (IH (S j) b1 ltac:(lia) Hi eq_refl ltac:(lia)) as (b' & Hrun & Hr & Ha & Hl).
  change (fill_window fuel tid file cs (window_chunks config) (flight i (S j)) b1 =
          (Ok (flight i (S j `max` ((i + window_chunks config) `min` n))), b')) in Hrun.
  replace (S j `max` ((i + window_chunks config) `min` n))
    with (j `max` ((i + window_chunks config) `min` n)) in * by lia.
  exists b'. split_and!; [exact Hrun|done|done|]. rewrite Hl. simpl. rewrite <- app_assoc. f_equal.
  unfold sends. by replace (j `max` ((i + window_chunks config) `min` n) - j)
    with (S (j `max` ((i + window_chunks config) `min` n) - S j)) by lia.
Qed.

(** An ack of the transfer in front of the mailbox is what a wait returns. *)
Lemma wait_ack_lossless x a evs b :
  ack_events b = Body x :: evs -> decode_file_ack x = Ok a -> ack_transfer_id a = tid ->
  attempt (wait_for_transfer_ack tid) b = (Ok (inl a), emit (Got x) (set_ack_events evs b)).
Proof.
  intros Hev Hd Hi. unfold attempt, wait_for_transfer_ack. rewrite Hev. simpl. rewrite Hd.
  by destruct (Z.eqb_spec (ack_transfer_id a) tid).
Qed.

Context (Htid : is_u32 tid).

(** The mailbox from the ack of piece [i] on. *)
Definition acks_after (i : nat) : list RecvEvent :=
  map (fun i => Body (wire_body (AckMsg (nth_ack file cs tid i)))) (seq i (n - i)).

Lemma nth_ack_fits i : ack_fits (nth_ack file cs tid i).
Proof.
  pose proof (cut_le file cs (S i)). unfold ack_fits, nth_ack. change u32_max with 4294967295%Z in Hlen.
  destruct (_ =? _); simpl; unfold in_width in *; lia.
Qed.
Lemma nth_ack_body i : decode_file_ack (wire_body (AckMsg (nth_ack file cs tid i))) = Ok (nth_ack file cs tid i).
Proof. apply ack_body_reads; [apply nth_ack_fits|]. apply (wire_body_of (AckMsg _)), nth_ack_fits. Qed.
Lemma nth_ack_id i : ack_transfer_id (nth_ack file cs tid i) = tid.
Proof. unfold nth_ack. by destruct (_ =? _). Qed.

Lemma acks_after_cons i :
  i < n -> acks_after i = Body (wire_body (AckMsg (nth_ack file cs tid i))) :: acks_after (S i).
Proof. intros Hi. unfold acks_after. by replace (n - i) with (S (n - S i)) by lia. Qed.

(** What the loop does from the ack of piece [i] on: fill the window, then wait
    for that ack; [k] acks are outstanding. *)
Fixpoint window_entries (k i j : nat) : list LogEntry :=
  match k with
  | O => []
  | S k' =>
      let J := j `max` ((i + window_chunks config) `min` n) in
      map Sent (sends j (J - j)) ++ Got (wire_body (AckMsg (nth_ack file cs tid i))) :: window_entries k' (S i) J
  end.

Lemma sent_msgs_app l1 l2 : sent_msgs (l1 ++ l2) = sent_msgs l1 ++ sent_msgs l2.
Proof. apply omap_app. Qed.
Lemma sent_msgs_map ms : sent_msgs (map Sent ms) = ms.
Proof. induction ms as [|m ms IH]; [done|]. unfold sent_msgs in *. simpl. by f_equal. Qed.

Lemma window_entries_sent k i j :
  i + k = n -> i <= j <= n -> i < n \/ j = n -> sent_msgs (window_entries k i j) = sends j (n - j).
Proof.
  revert i j. induction k as [|k IH]; intros i j Hk Hij Hn; simpl.
  - replace (n - j) with 0 by lia. done.
  - set (J := j `max` _). rewrite sent_msgs_app, sent_msgs_map.
    change (sent_msgs (Got ?x :: ?l)) with (sent_msgs l). rewrite IH by lia.
    unfold sends. rewrite <- map_app. f_equal. replace (n - j) with ((J - j) + (n - J)) by lia.
    rewrite seq_app. do 2 f_equal. lia.
Qed.

Lemma window_loop_lossless fuel i j b r :
  i <= j <= n -> i < n -> send_results b = replicate (n - j) None ++ r ->
  ack_events b = acks_after i -> n - i < fuel ->
  exists b', window_loop fuel config tid file cs (flight i j) b = (Ok (flight n n), b') /\
    log b' = log b ++ window_entries (n - i) i j.
Proof.
  revert i j b. induction fuel as [|fuel IH]; intros i j b Hij Hi Hres Hack Hf; [lia|].
  cbn [window_loop flight last_acked]. rewrite Nat2Z.id.
  pose proof (cut_lt file cs Hcs i Hi) as [_ Hlt]. pose proof (cut_lt file cs Hcs i Hi) as [Hci _].
  destruct (Nat.ltb_spec (cut file cs i) (length file)); [|lia].
  rewrite (bind_ok _ _ _ b b) by done.
  destruct (fill_window_lossless (S (length (send_results b))) i j b r Hij Hi Hres) as
    (b1 & Hfill & Hr1 & Ha1 & Hl1); [rewrite Hres; len|].
  set (J := j `max` ((i + window_chunks config) `min` n)) in *.
  rewrite (bind_ok _ _ _ _ _ Hfill).
  rewrite Hack, acks_after_cons in Ha1 by done.
  rewrite (bind_ok _ _ _ _ _ (wait_ack_lossless _ _ _ _ Ha1 (nth_ack_body i) (nth_ack_id i))).
  set (b2 := emit _ _).
  assert (HJ : S i <= J <= n /\ j <= J) by lia.
  pose proof (cut_step file cs Hcs i Hi) as Hstep. pose proof (cut_le file cs (S i)) as Hle.
  assert (Hcut : cut file cs (S i) <= cut file cs J) by (unfold cut; nia).
  assert (Hlog : log b2 = log b ++ map Sent (sends j (J - j)) ++ [Got (wire_body (AckMsg (nth_ack file cs tid i)))]).
  { simpl. by rewrite Hl1, app_assoc. }
  replace (n - i) with (S (n - S i)) by lia. cbn [window_entries]. fold J.
  set (got := Got (wire_body (AckMsg (nth_ack file cs tid i)))) in *.
  assert (Hguard : forall z, z = at_cut (S i) ->
    (z <? at_cut i)%Z || (length file <? Z.to_nat z) || (at_cut J <? z)%Z = false).
  { intros z ->. rewrite Nat2Z.id, !orb_false_iff, !Z.ltb_ge, Nat.ltb_ge. lia. }
  unfold nth_ack. destruct (Nat.eqb_spec (S i) n) as [Hlast|Hmore].
  - assert (J = n) as -> by lia. cbn [ack_kind file_ack ack_next_offset flight last_acked next_to_send].
    rewrite (Hguard (Z.of_nat (length file))) by (rewrite Hlast, cut_count; done).
    rewrite decide_True by done. cbn [last_acked]. rewrite Nat2Z.id, Nat.eqb_refl.
    exists b2. split; [unfold flight; by rewrite cut_count|]. rewrite Hlog. by rewrite Hlast, Nat.sub_diag.
  - cbn [ack_kind file_ack file_ack_progress ack_next_offset flight last_acked next_to_send chunks_sent retries].
    rewrite Hguard by done. rewrite decide_False by done.
    destruct (IH (S i) J b2) as (b' & Hrun & Hl); [lia|lia|done|done|lia|].
    exists b'. split; [exact Hrun|]. by rewrite Hl, Hlog, <- !app_assoc.
Qed.

(** The whole call: the acceptance, then the acks of the pieces. *)
Lemma send_file_lossless sha256 sst r :
  file <> [] -> cs <= sender_max_chunk_size config ->
  (Z.of_nat (sender_max_chunk_size config) <= u32_max)%Z ->
  let b := {| send_results := replicate (S n) None ++ r; req_events := []; chunk_events := [];
              ack_events := Body (wire_body (AckMsg (file_ack_accept tid (Z.of_nat cs)))) :: acks_after 0;
              log := [] |} in
  exists b', send_file_with_id_impl sha256 tid file config (sst, b) =
      (Ok {| sent_transfer_id := tid; sent_total_len := length file; sent_chunk_size := cs;
             sent_chunks_sent := n; sent_retries := 0 |}, (observe_transfer_id tid sst, b')) /\
    log b' = Sent (OfferMsg (transfer_offer sha256 tid file config)) ::
      Got (wire_body (AckMsg (file_ack_accept tid (Z.of_nat cs)))) :: window_entries n 0 0.
Proof.
  intros Hne Hmax Hm32 b.
  assert (Hn : 0 < n) by (by apply piece_count_pos).
  rewrite send_file_with_id_run.
  destruct (Nat.eqb_spec (sender_max_chunk_size config) 0) as [|_]; [lia|].
  destruct (Nat.eqb_spec (window_chunks config) 0) as [|_]; [lia|]. cbn [orb].
  destruct (Z.ltb_spec u32_max (Z.of_nat (length file))); [lia|].
  destruct (Z.ltb_spec u32_max (Z.of_nat (sender_max_chunk_size config))); [lia|]. cbn [orb].
  unfold send_transfer. change (file_offer _ _ _ _ _ _) with (transfer_offer sha256 tid file config).
  set (offer := transfer_offer sha256 tid file config).
  rewrite (bind_ok _ _ _ b b) by done.
  assert (Hfit : ack_fits (file_ack_accept tid (Z.of_nat cs))).
  { change u32_max with 4294967295%Z in Hm32. unfold ack_fits, in_width in *. simpl. lia. }
  set (b1 := emit (Sent (OfferMsg offer)) (set_send_results (replicate n None ++ r) b)).
  set (b2 := emit (Got (wire_body (AckMsg (file_ack_accept tid (Z.of_nat cs)))))
               (set_ack_events (acks_after 0) b1)).
  assert (Hoff : offer_loop (S (length (ack_events b))) config tid offer 0 b =
    (Ok (file_ack_accept tid (Z.of_nat cs)), b2)).
  { cbn [offer_loop]. rewrite (bind_ok _ _ _ (inl tt) b1) by done. rewrite (bind_ok _ _ _ tt b1) by done.
    rewrite (bind_ok _ _ _ (inl (file_ack_accept tid (Z.of_nat cs))) b2); [done|].
    apply (wait_ack_lossless (wire_body (AckMsg (file_ack_accept tid (Z.of_nat cs))))); [done| |done].
    apply ack_body_reads; [exact Hfit|]. by apply (wire_body_of (AckMsg _)). }
  rewrite (bind_ok _ _ _ _ _ Hoff). cbn [ack_chunk_size file_ack_accept file_ack].
  rewrite Nat2Z.id. destruct (Nat.eqb_spec cs 0) as [|_]; [lia|].
  destruct (Nat.ltb_spec (sender_max_chunk_size config) cs); [lia|]. cbn [orb].
  rewrite (bind_ok _ _ _ b2 b2) by done.
  destruct (window_loop_lossless (S (length (ack_events b2))) 0 0 b2 r) as (b' & Hrun & Hl);
    [lia|lia|by rewrite Nat.sub_0_r|done|simpl; unfold acks_after; len; rewrite length_seq; lia|].
  change {| chunks_sent := 0; retries := 0; last_acked := 0; next_to_send := 0 |} with (flight 0 0).
  rewrite (bind_ok _ _ _ _ _ Hrun). exists b'. split; [done|]. by rewrite Hl, Nat.sub_0_r.
Qed.
End sender_run.

(** * The receiver *)

Section receiver_run.
Context {T CapnpError : Type} `{HS : Sha256Laws T} `{HL : CapnpLaws CapnpError}.
Context (file : bytes) (cs : nat) (tid : u32) (t : Transfer).
Context (Hcs : 0 < cs) (Hlen : (Z.of_nat (length file) <= u32_max)%Z) (Htid : is_u32 tid).
Context (Ht_id : tr_transfer_id t = tid) (Ht_len : tr_total_len t = Z.of_nat (length file)).
Context (Ht_cs : tr_chunk_size t = Z.of_nat cs) (Ht_hash : tr_expected_hash t = digest file).
Context (Hread : (Z.of_nat (cs `min` length file) <= MAX_CHUNK_DATA)%Z).
Abbreviation n := (piece_count file cs).
Abbreviation at_cut j := (Z.of_nat (cut file cs j)).
Abbreviation RMem := (RM MemoryStore unit CapnpError).

Lemma RM_bind_ok {A B} (m : RMem A) (k : A -> RMem B) w a w' :
  m w = (Ok a, w') -> mbind (M := RMem) (MBind := RM_bind) k m w = k a w'.
Proof. intros Hm. unfold mbind, RM_bind, mbind, M_bind. by rewrite Hm. Qed.

(** The receiver's variables and store when [i] pieces were written. *)
Record RecvAt (i : nat) (st : RecvLoop unit T) (s : MemoryStore) : Prop := {
  ra_next : rl_next_offset st = at_cut i;
  ra_progress : rl_last_progress_offset st = at_cut i;
  ra_hash : exists parts, rl_hasher st = fold_left hasher_update parts hasher_new /\
              concat parts = take (cut file cs i) file;
  ra_store : store_bytes s = take (cut file cs i) file ++ replicate (length file - cut file cs i) 0%Z;
}.

Lemma nth_piece_fits i : i < n -> chunk_fits (nth_piece file cs tid i).
Proof.
  intros Hi. destruct (piece_slice file cs tid Hcs i Hi) as [_ Hd].
  pose proof (cut_le file cs i). pose proof (cut_le file cs (S i)).
  assert (cut file cs (S i) - cut file cs i <= cs `min` length file) by (unfold cut in *; lia).
  change u32_max with 4294967295%Z in Hlen.
  apply chunk_within; [unfold chunk_typed|]; rewrite Hd; unfold in_width in *; simpl; lia.
Qed.
Lemma nth_piece_body i :
  i < n -> read_file_chunk (wire_body (ChunkMsg (nth_piece file cs tid i))) =
    inl (chunk_view (nth_piece file cs tid i)).
Proof.
  intros Hi. apply chunk_fits_reads; [by apply nth_piece_fits|].
  by apply (wire_body_of (ChunkMsg _)), nth_piece_fits.
Qed.

(** The chunk mailbox from piece [i] on. *)
Definition chunks_after (i : nat) : list RecvEvent :=
  map (fun i => Body (wire_body (ChunkMsg (nth_piece file cs tid i)))) (seq i (n - i)).

Lemma wait_chunk_lossless i (s : MemoryStore) b :
  i < n -> chunk_events b = chunks_after i ->
  wait_for_transfer_chunk tid (s, b) =
    ((Ok (Some (wire_body (ChunkMsg (nth_piece file cs tid i)))) : result _ (stop (FtError unit CapnpError))),
     (s, emit (Got (wire_body (ChunkMsg (nth_piece file cs tid i)))) (set_chunk_events (chunks_after (S i)) b))).
Proof.
  intros Hi Hev. unfold wait_for_transfer_chunk. rewrite Hev. unfold chunks_after at 1.
  replace (n - i) with (S (n - S i)) by lia. cbn [seq map wait_chunk_loop].
  unfold read_chunk_transfer_id. rewrite nth_piece_body by done. simpl. by rewrite Z.eqb_refl.
Qed.

Lemma write_lossless i (s : MemoryStore) b h :
  i < n -> store_bytes s = take (cut file cs i) file ++ replicate (length file - cut file cs i) 0%Z ->
  exists s', store_write_at h (at_cut i) (chunk_data (nth_piece file cs tid i)) (s, b) =
    ((Ok (None, h) : result _ (stop (FtError unit CapnpError))),
     (s', emit (StoreOp (WriteAt (at_cut i) (chunk_data (nth_piece file cs tid i)))) b)) /\
    store_bytes s' = take (cut file cs (S i)) file ++ replicate (length file - cut file cs (S i)) 0%Z.
Proof.
  intros Hi Hs. destruct (piece_slice file cs tid Hcs i Hi) as [_ Hd].
  pose proof (cut_step file cs Hcs i Hi). pose proof (cut_le file cs (S i)).
  unfold store_write_at. cbn [write_at MemoryStore_store]. unfold memory_write_at. rewrite Nat2Z.id, Hd, Hs.
  destruct (Nat.ltb_spec (length (take (cut file cs i) file ++ replicate (length file - cut file cs i) 0%Z))
    (cut file cs i + (cut file cs (S i) - cut file cs i))); [len|].
  replace (length file - cut file cs i)
    with (length (chunk_data (nth_piece file cs tid i)) + (length file - cut file cs (S i))) by lia.
  rewrite replicate_add, copy_at_app by len. eexists. split; [done|]. simpl.
  rewrite app_assoc. f_equal. symmetry. by apply (take_piece file cs tid Hcs i).
Qed.

(** The ack of a send that the bus takes. *)
Lemma send_ack_lossless a (s : MemoryStore) b r :
  send_results b = None :: r ->
  send_ack a (s, b) =
    ((Ok true : result _ (stop (FtError unit CapnpError))), (s, emit (Sent (AckMsg a)) (set_send_results r b))).
Proof. intros Hr. unfold send_ack, send_to_with_timeout. by rewrite Hr. Qed.

(** The variables after piece [i] was written. *)
Definition after_write (i : nat) (st : RecvLoop unit T) : RecvLoop unit T :=
  {| rl_handle := rl_handle st; rl_hasher := hasher_update (rl_hasher st) (chunk_data (nth_piece file cs tid i));
     rl_next_offset := at_cut (S i); rl_last_progress_offset := at_cut i |}.

Lemma write_part_lossless i st (s : MemoryStore) b :
  i < n -> RecvAt i st s ->
  exists s' b', write_part t st (at_cut i) (chunk_data (nth_piece file cs tid i)) (s, b) =
      ((Ok (after_write i st) : result _ (stop (FtError unit CapnpError))), (s', b')) /\
    log b' = log b ++ [StoreOp (WriteAt (at_cut i) (chunk_data (nth_piece file cs tid i)))] /\
    chunk_events b' = chunk_events b /\ send_results b' = send_results b /\
    RecvAt (S i) {| rl_handle := rl_handle st; rl_hasher := rl_hasher (after_write i st);
                    rl_next_offset := at_cut (S i); rl_last_progress_offset := at_cut (S i) |} s'.
Proof.
  intros Hi [Hn Hp (parts & Hh & Hc) Hs].
  destruct (piece_slice file cs tid Hcs i Hi) as [_ Hd].
  pose proof (cut_step file cs Hcs i Hi). pose proof (cut_le file cs (S i)).
  destruct (write_lossless i s b (rl_handle st) Hi Hs) as (s' & Hw & Hs').
  unfold write_part. rewrite (RM_bind_ok _ _ _ _ _ Hw). cbv iota beta.
  eexists s', (emit (StoreOp (WriteAt (at_cut i) (chunk_data (nth_piece file cs tid i)))) b).
  split_and!; [|done..|].
  - rewrite Hn, Hp, Hd.
    replace (saturating_add32 _ _) with (at_cut (S i)) by (unfold saturating_add32; lia). done.
  - split; simpl; [done..| |done].
    exists (parts ++ [chunk_data (nth_piece file cs tid i)]). rewrite fold_left_app, Hh. split; [done|].
    rewrite concat_app, Hc. simpl. rewrite app_nil_r.
    symmetry. by apply (take_piece file cs tid Hcs i).
Qed.

(** After the last piece the receiver commits and completes. *)
Lemma finish_lossless i st (s : MemoryStore) b r :
  S i = n -> RecvAt n {| rl_handle := rl_handle st; rl_hasher := rl_hasher (after_write i st);
                         rl_next_offset := at_cut (S i); rl_last_progress_offset := at_cut (S i) |} s ->
  send_results b = None :: r ->
  finish_transfer t (rl_handle st) (rl_hasher (after_write i st)) (s, b) =
    ((Ok (recv_result t (tr_total_len t)) : result _ (stop (FtError unit CapnpError))),
     (s, emit (Sent (AckMsg (nth_ack file cs tid i))) (set_send_results r (emit (StoreOp Commit) b)))) /\
  store_bytes s = file.
Proof.
  intros Hlast [_ _ (parts & Hh & Hcat) Hs] Hr. cbn [rl_hasher] in Hh. rewrite cut_count in Hcat, Hs by done.
  rewrite take_ge in Hcat, Hs by done. split; [|by rewrite Hs, Nat.sub_diag, app_nil_r].
  assert (Hfin : hasher_finalize (rl_hasher (after_write i st)) = tr_expected_hash t).
  { by rewrite Hh, finalize_updates, Hcat, Ht_hash. }
  unfold finish_transfer. rewrite decide_False by (by intros []).
  rewrite (RM_bind_ok _ _ _ tt (s, emit (StoreOp Commit) b)) by done.
  rewrite (RM_bind_ok _ _ _ true (s, emit (Sent (AckMsg (nth_ack file cs tid i)))
    (set_send_results r (emit (StoreOp Commit) b)))); [done|].
  unfold nth_ack. rewrite (proj2 (Nat.eqb_eq _ _) Hlast), Ht_id, Ht_len. by apply send_ack_lossless.
Qed.

(** After any other piece it reports progress. *)
Lemma progress_lossless i st (s : MemoryStore) b r :
  S i < n -> send_results b = None :: r ->
  progress_ack t (after_write i st) (s, b) =
    ((Ok {| rl_handle := rl_handle st; rl_hasher := rl_hasher (after_write i st);
            rl_next_offset := at_cut (S i); rl_last_progress_offset := at_cut (S i) |}
      : result _ (stop (FtError unit CapnpError))),
     (s, emit (Sent (AckMsg (nth_ack file cs tid i))) (set_send_results r b))).
Proof.
  intros Hi Hr. pose proof (cut_lt file cs Hcs i ltac:(lia)) as [Hci _].
  pose proof (cut_lt file cs Hcs (S i) Hi) as [Hcsi _].
  unfold progress_ack. cbn [after_write rl_next_offset rl_last_progress_offset rl_handle].
  unfold saturating_mul32, saturating_sub32, PROGRESS_ACK_EVERY_CHUNKS. rewrite Ht_cs. cbv zeta.
  destruct (Z.leb_spec (Z.min (Z.of_nat cs * 1) u32_max) (Z.max (at_cut (S i) - at_cut i) 0)); [|lia].
  rewrite (RM_bind_ok _ _ _ true (s, emit (Sent (AckMsg (nth_ack file cs tid i))) (set_send_results r b)));
    [done|].
  unfold nth_ack. rewrite (proj2 (Nat.eqb_neq (S i) n)), Ht_id by lia. by apply send_ack_lossless.
Qed.

(** Piece [i] of the file is written and acknowledged; the last one is
    committed. *)
Lemma accept_lossless i st (s : MemoryStore) b r :
  i < n -> RecvAt i st s -> send_results b = None :: r ->
  exists o s' b' l, accept_chunk t st (at_cut i) (chunk_data (nth_piece file cs tid i)) (s, b) =
      ((Ok o : result _ (stop (FtError unit CapnpError))), (s', b')) /\
    log b' = log b ++ l /\ chunk_events b' = chunk_events b /\ send_results b' = r /\
    bus_entries l = [Sent (AckMsg (nth_ack file cs tid i))] /\
    match o with
    | inr res => S i = n /\ res = recv_result t (tr_total_len t) /\ store_bytes s' = file
    | inl st' => S i < n /\ RecvAt (S i) st' s'
    end.
Proof.
  intros Hi Hat Hr. destruct (piece_slice file cs tid Hcs i Hi) as [_ Hd].
  pose proof (cut_step file cs Hcs i Hi) as Hstep. pose proof (cut_le file cs (S i)) as Hle.
  destruct (write_part_lossless i st s b Hi Hat) as (s1 & b1 & Hw & Hl1 & Hc1 & Hr1 & Hat1).
  rewrite Hr in Hr1. change u32_max with 4294967295%Z in Hlen.
  unfold accept_chunk. rewrite (ra_next _ _ _ Hat), Z.eqb_refl, Ht_len, Hd. cbn [negb]. cbv zeta.
  replace (Z.to_nat _) with (length (chunk_data (nth_piece file cs tid i)))
    by (rewrite Hd, wrap_small by (unfold in_width; lia); unfold saturating_sub32; lia).
  destruct (Nat.eqb_spec (length (chunk_data (nth_piece file cs tid i))) 0) as [|_]; [lia|].
  rewrite slice_to_Some, take_ge by lia. rewrite (RM_bind_ok _ _ _ _ (s, b)) by done.
  rewrite (RM_bind_ok _ _ _ _ _ Hw). cbn [after_write rl_next_offset].
  destruct (Z.leb_spec (Z.of_nat (length file)) (at_cut (S i))) as [Hend|Hmore].
  - assert (Hlast : S i = n) by (apply cut_last; [done|split; [done|lia]]).
    rewrite Hlast in Hat1 at 1. destruct (finish_lossless i st s1 b1 r Hlast Hat1 Hr1) as [Hf Hfile].
    rewrite (RM_bind_ok _ _ _ _ _ Hf).
    eexists (inr _), s1, _, [StoreOp (WriteAt (at_cut i) (chunk_data (nth_piece file cs tid i))); StoreOp Commit;
      Sent (AckMsg (nth_ack file cs tid i))].
    split_and!; [reflexivity|simpl; by rewrite Hl1, <- !app_assoc|by rewrite ?Ht_len..].
  - assert (Hne : S i < n).
    { destruct (decide (S i = n)) as [Hl|]; [|lia]. rewrite Hl, cut_count in Hmore by done. lia. }
    rewrite (RM_bind_ok _ _ _ _ _ (progress_lossless i st s1 b1 r Hne Hr1)).
    eexists (inl _), s1, _, [StoreOp (WriteAt (at_cut i) (chunk_data (nth_piece file cs tid i)));
      Sent (AckMsg (nth_ack file cs tid i))].
    split_and!; [reflexivity|simpl; by rewrite Hl1, <- !app_assoc|done..].
Qed.

(** What the loop does on the bus for the pieces from [i] on. *)
Definition answers (i k : nat) : list LogEntry :=
  concat (map (fun j => [Got (wire_body (ChunkMsg (nth_piece file cs tid j))); Sent (AckMsg (nth_ack file cs tid j))])
    (seq i k)).

Lemma recv_loop_lossless fuel i st (s : MemoryStore) b r :
  i < n -> RecvAt i st s -> send_results b = replicate (n - i) None ++ r ->
  chunk_events b = chunks_after i -> n - i < fuel ->
  exists s' b' l, recv_loop fuel t st (s, b) =
      ((Ok (recv_result t (tr_total_len t)) : result _ (stop (FtError unit CapnpError))), (s', b')) /\
    log b' = log b ++ l /\ store_bytes s' = file /\ bus_entries l = answers i (n - i).
Proof.
  revert i st s b. induction fuel as [|fuel IH]; intros i st s b Hi Hat Hr Hc Hf; [lia|].
  pose proof (cut_lt file cs Hcs i Hi) as [Hci Hlt]. pose proof (cut_step file cs Hcs i Hi) as Hstep.
  destruct (piece_slice file cs tid Hcs i Hi) as [_ Hd]. pose proof (cut_le file cs (S i)).
  cbn [recv_loop]. rewrite (ra_next _ _ _ Hat), Ht_len, Ht_id.
  destruct (Z.ltb_spec (at_cut i) (Z.of_nat (length file))); [|lia].
  rewrite (RM_bind_ok _ _ _ _ _ (wait_chunk_lossless i s b Hi Hc)). cbv iota beta.
  rewrite nth_piece_body by done. set (v := nth_piece file cs tid i) in *.
  change (chunk_get_transfer_id (chunk_view v)) with tid. change (chunk_get_offset (chunk_view v)) with (at_cut i).
  change (default [] (chunk_get_data (chunk_view v))) with (chunk_data v). rewrite Z.eqb_refl. cbn [negb].
  cbv zeta. change u32_max with 4294967295%Z in Hlen.
  rewrite Ht_cs, Hd, wrap_small by (unfold in_width; lia).
  destruct (Z.ltb_spec (Z.of_nat cs) (Z.of_nat (cut file cs (S i) - cut file cs i))); [lia|].
  set (b1 := emit _ _). replace (n - i) with (S (n - S i)) in * by lia.
  destruct (accept_lossless i st s b1 (replicate (n - S i) None ++ r) Hi Hat Hr)
    as (o & s2 & b2 & l & Hrun & Hl & Hc2 & Hr2 & Hs2 & Ho).
  rewrite (RM_bind_ok _ _ _ _ _ Hrun).
  assert (Hlog : log b2 = log b ++ Got (wire_body (ChunkMsg (nth_piece file cs tid i))) :: l).
  { rewrite Hl. simpl. by rewrite <- app_assoc. }
  destruct o as [st'|res].
  - destruct Ho as [Hne Hat2].
    destruct (IH (S i) st' s2 b2 Hne Hat2 Hr2 Hc2 ltac:(lia)) as (s' & b' & l2 & Hrun2 & Hl2 & Hfile & Hs').
    eexists s', b', _. split_and!; [by rewrite <- Ht_len|by rewrite Hl2, Hlog, <- app_assoc|done|].
    rewrite bus_entries_app, Hs'. cbn [bus_entries List.filter is_bus_entry]. fold (bus_entries l). by rewrite Hs2.
  - destruct Ho as (Hlast & -> & Hfile). eexists s2, b2, _. split_and!; [by rewrite <- Ht_len|exact Hlog|done|].
    cbn [bus_entries List.filter is_bus_entry]. fold (bus_entries l). rewrite Hs2, Hlast, Nat.sub_diag. done.
Qed.

(** From the acceptance to the end of the call. *)
Lemma transfer_lossless (s : MemoryStore) b r :
  file <> [] -> send_results b = replicate (S n) None ++ r -> chunk_events b = chunks_after 0 ->
  exists s' b' l,
    mbind (M := RMem) (MBind := RM_bind) (fun st =>
        if (tr_total_len t =? 0)%Z then finish_empty t (rl_handle st) (rl_hasher st)
        else mbind (M := RMem) (MBind := RM_bind) (fun fuel => recv_loop fuel t st) chunk_fuel)
      (start_transfer (T := T) t) (s, b) = (Ok (recv_result t (tr_total_len t)), (s', b')) /\
    log b' = log b ++ l /\ store_bytes s' = file /\
    bus_entries l = Sent (AckMsg (file_ack_accept tid (Z.of_nat cs))) :: answers 0 n.
Proof.
  intros Hne Hr Hc.
  assert (Hn : 0 < n) by (by apply piece_count_pos).
  set (b1 := emit (Sent (AckMsg (file_ack_accept tid (Z.of_nat cs)))) (set_send_results (replicate n None ++ r)
    (emit (StoreOp (BeginWrite tid (Z.of_nat (length file)))) b))).
  set (s1 := {| store_bytes := replicate (length file) 0%Z |}).
  set (st := {| rl_handle := tt; rl_hasher := hasher_new; rl_next_offset := 0; rl_last_progress_offset := 0 |}
    : RecvLoop unit T).
  rewrite (RM_bind_ok _ _ _ st (s1, b1)).
  2:{ unfold start_transfer. rewrite Ht_id, Ht_len, Ht_cs.
      rewrite (RM_bind_ok _ _ _ tt (s1, emit (StoreOp (BeginWrite tid (Z.of_nat (length file)))) b))
        by (unfold store_begin_write, s1; simpl; by rewrite Nat2Z.id).
      rewrite (RM_bind_ok _ _ _ true (s1, b1)) by (by apply send_ack_lossless). done. }
  destruct (Z.eqb_spec (tr_total_len t) 0) as [Hz|_]; [destruct file; simpl in *; [done|lia]|].
  rewrite (RM_bind_ok chunk_fuel _ (s1, b1) (1 + length (chunk_events b1)) (s1, b1)) by done.
  destruct (recv_loop_lossless (1 + length (chunk_events b1)) 0 st s1 b1 r) as (s' & b' & l & Hrun & Hl & Hf & Hs).
  - done.
  - split; simpl; [done..| |]; [by exists []|]. by rewrite Nat.sub_0_r.
  - simpl. by rewrite Nat.sub_0_r.
  - done.
  - simpl. rewrite Hc. unfold chunks_after. rewrite length_map, length_seq. lia.
  - eexists s', b', _. split_and!; [exact Hrun|rewrite Hl; simpl; by rewrite <- !app_assoc|done|].
    cbn [app bus_entries List.filter is_bus_entry]. fold (bus_entries l). by rewrite Hs, Nat.sub_0_r.
Qed.
End receiver_run.

(** * Both sides *)

Section lossless.
Context {T CapnpError : Type} `{HS : Sha256Laws T} `{HD : !DigestLength T} `{HL : CapnpLaws CapnpError}.
Context (file : bytes) (tid : u32) (config : SendConfig) (receiver : ReceiverConfig).

(** The chunk size the two sides agree on, and what they say to each other. *)
Definition agreed_size : nat :=
  Z.to_nat (negotiated_chunk_size (max_chunk_size receiver) (Z.of_nat (sender_max_chunk_size config))).
Definition agreed_transfer : Transfer :=
  {| tr_transfer_id := tid; tr_total_len := Z.of_nat (length file);
     tr_sender_max_chunk_size := Z.of_nat (sender_max_chunk_size config); tr_metadata := [];
     tr_file_hash_algo := Sha256; tr_expected_hash := digest file;
     tr_chunk_size := Z.of_nat agreed_size |}.
Definition offer_msgs : list FtMsg := [OfferMsg (transfer_offer digest tid file config)].
Definition chunk_msgs : list FtMsg := sends file agreed_size tid 0 (piece_count file agreed_size).
Definition ack_msgs : list FtMsg :=
  AckMsg (file_ack_accept tid (Z.of_nat agreed_size)) ::
  map (fun j => AckMsg (nth_ack file agreed_size tid j)) (seq 0 (piece_count file agreed_size)).

(** The bodies of the messages, as they arrive in a mailbox. *)
Definition arriving (ms : list FtMsg) : list RecvEvent := map (fun m => Body (wire_body m)) ms.

Definition sender_bus : FtBus :=
  {| send_results := map (fun _ => None) (offer_msgs ++ chunk_msgs); req_events := []; chunk_events := [];
     ack_events := arriving ack_msgs; log := [] |}.
Definition receiver_bus : FtBus :=
  {| send_results := map (fun _ => None) ack_msgs; req_events := arriving offer_msgs;
     chunk_events := arriving chunk_msgs; ack_events := []; log := [] |}.

(** What each side does on the bus, in order. *)
Definition sender_entries : list LogEntry :=
  map Sent offer_msgs ++ Got (wire_body (AckMsg (file_ack_accept tid (Z.of_nat agreed_size)))) ::
  window_entries file agreed_size tid config (piece_count file agreed_size) 0 0.
Definition receiver_entries : list LogEntry :=
  Got (wire_body (OfferMsg (transfer_offer digest tid file config))) ::
  Sent (AckMsg (file_ack_accept tid (Z.of_nat agreed_size))) ::
  answers file agreed_size tid 0 (piece_count file agreed_size).

Context (Hlen : (Z.of_nat (length file) <= u32_max)%Z) (Htid : is_u32 tid).
Context (Hmax : (0 < Z.of_nat (sender_max_chunk_size config) <= u32_max)%Z).
Context (Hrecv : is_u32 (max_chunk_size receiver)).

Lemma agreed_bounds :
  0 < agreed_size <= sender_max_chunk_size config /\
  negotiated_chunk_size (max_chunk_size receiver) (Z.of_nat (sender_max_chunk_size config)) =
    Z.of_nat agreed_size.
Proof.
  unfold agreed_size, negotiated_chunk_size, in_width in *.
  destruct (max_chunk_size receiver) as [|p|p], (Z.of_nat (sender_max_chunk_size config)) as [|q|q] eqn:Hq; lia.
Qed.

Lemma offer_fits : req_fits (offer_root (transfer_offer digest tid file config)).
Proof.
  unfold req_fits, req_typed, file_req_size. simpl. rewrite digest_length. split; [|by vm_compute].
  unfold SHA256_HASH_LEN. change u32_max with 4294967295%Z in *. unfold in_width in *. lia.
Qed.

Lemma replicate_map {A B} (y : B) (l : list A) : map (fun _ => y) l = replicate (length l) y.
Proof. induction l; simpl; congruence. Qed.

(** The checks of the receiver pass. *)
Lemma check_lossless (w : MemoryStore * FtBus) :
  check_request receiver (parsed (req_view (offer_root (transfer_offer digest tid file config)))) w =
    ((Ok agreed_transfer : result _ (stop (FtError unit CapnpError))), w).
Proof.
  destruct agreed_bounds as [Hcs Hneg]. unfold check_request, parsed. simpl.
  rewrite (proj2 (validate_hash_ok (digest file) (digest file)) (conj eq_refl (digest_length file))).
  rewrite Hneg. destruct (Z.eqb_spec (Z.of_nat agreed_size) 0); [lia|]. done.
Qed.

Context (Hread : (Z.of_nat (agreed_size `min` length file) <= MAX_CHUNK_DATA)%Z).

Lemma recv_file_lossless (s : MemoryStore) :
  file <> [] ->
  exists s' b', recv_file_impl (T := T) receiver (s, receiver_bus) =
      ((Ok (recv_result agreed_transfer (Z.of_nat (length file))) : result _ (stop (FtError unit CapnpError))),
       (s', b')) /\
    store_bytes s' = file /\ bus_entries (log b') = receiver_entries.
Proof.
  intros Hne. destruct agreed_bounds as [Hcs _].
  set (x := wire_body (OfferMsg (transfer_offer digest tid file config))).
  set (b1 := emit (Got x) (set_req_events [] receiver_bus)).
  assert (Hreq : recv_request (s, receiver_bus) =
    ((Ok (parsed (req_view (offer_root (transfer_offer digest tid file config))))
      : result _ (stop (FtError unit CapnpError))), (s, b1))).
  { unfold recv_request. rewrite (RM_bind_ok recv_next_req _ _ x (s, b1)) by done.
    unfold x. rewrite (offer_fits_reads _ _ offer_fits); [done|].
    apply (wire_body_of (OfferMsg _)), offer_fits. }
  unfold recv_file_impl. rewrite (RM_bind_ok _ _ _ _ _ Hreq), (RM_bind_ok _ _ _ _ _ (check_lossless _)).
  destruct (transfer_lossless (T := T) (CapnpError := CapnpError) file agreed_size tid agreed_transfer
    ltac:(lia) Hlen Htid eq_refl eq_refl eq_refl eq_refl Hread s b1 [] Hne) as (s' & b' & l & Hrun & Hl & Hf & Hs).
  - simpl. rewrite replicate_map, length_map, length_seq, app_nil_r. done.
  - simpl. unfold arriving, chunk_msgs, sends, chunks_after. by rewrite map_map, Nat.sub_0_r.
  - exists s', b'. split_and!; [exact Hrun|done|]. rewrite Hl. simpl. fold (bus_entries l). by rewrite Hs.
Qed.

(** Both calls, with all that they do on the bus. *)
Lemma lossless_calls sst (s : MemoryStore) :
  file <> [] -> 0 < window_chunks config ->
  exists sb' s' rb',
    send_file_with_id_impl digest tid file config (sst, sender_bus) =
      (Ok {| sent_transfer_id := tid; sent_total_len := length file; sent_chunk_size := agreed_size;
             sent_chunks_sent := piece_count file agreed_size; sent_retries := 0 |},
       (observe_transfer_id tid sst, sb')) /\
    log sb' = sender_entries /\
    recv_file_impl (T := T) receiver (s, receiver_bus) =
      ((Ok (recv_result agreed_transfer (Z.of_nat (length file))) : result _ (stop (FtError unit CapnpError))),
       (s', rb')) /\
    bus_entries (log rb') = receiver_entries /\ store_bytes s' = file.
Proof.
  intros Hne Hwin. destruct agreed_bounds as [Hcs _].
  destruct (recv_file_lossless s Hne) as (s' & rb' & Hrun & Hfile & Hacks).
  destruct (send_file_lossless file agreed_size tid config ltac:(lia) Hlen Hwin Htid digest sst [] Hne
    ltac:(lia) ltac:(lia)) as (sb' & Hsend & Hmsgs).
  exists sb', s', rb'. split_and!; [|done..]. rewrite <- Hsend. do 2 f_equal.
  unfold sender_bus, arriving, ack_msgs, acks_after, chunk_msgs, sends. f_equal.
  - rewrite replicate_map, app_nil_r. simpl. by rewrite length_map, length_seq.
  - simpl. by rewrite map_map, Nat.sub_0_r.
Qed.

Lemma sent_msgs_bus L : sent_msgs (bus_entries L) = sent_msgs L.
Proof.
  induction L as [|e L IH]; [done|]. unfold sent_msgs in *. simpl.
  destruct e as [m| | | | |]; simpl; try exact IH. by f_equal.
Qed.
Lemma answers_sent i k :
  sent_msgs (answers file agreed_size tid i k) = map (fun j => AckMsg (nth_ack file agreed_size tid j)) (seq i k).
Proof.
  revert i. induction k as [|k IH]; intros i; [done|]. unfold answers in *. cbn [seq map concat].
  rewrite sent_msgs_app, IH. done.
Qed.

(** C5. On a bus that delivers every message in order, a transfer of any
    non-empty file whose length the protocol can announce succeeds without a
    retry, for every positive window and every positive sender chunk size (the
    values [SendConfig::validate] and the [u32] fields take) as long as its
    pieces fit the default limit of a Cap'n Proto reader: given the acks of the receiver, [send_file_with_id] sends the offer
    and exactly the [div_ceil len chunk_size] pieces of the file and returns
    [Ok]; given that offer and those pieces, [recv_file] sends exactly those
    acks, stores the file and returns [Ok].  Neither call is suspended or runs
    out of fuel. *)
Theorem lossless_transfer sst (s : MemoryStore) :
  file <> [] -> 0 < window_chunks config ->
  exists sb' s' rb',
    send_file_with_id_impl digest tid file config (sst, sender_bus) =
      (Ok {| sent_transfer_id := tid; sent_total_len := length file; sent_chunk_size := agreed_size;
             sent_chunks_sent := piece_count file agreed_size; sent_retries := 0 |},
       (observe_transfer_id tid sst, sb')) /\
    sent_msgs (log sb') = offer_msgs ++ chunk_msgs /\
    recv_file_impl (T := T) receiver (s, receiver_bus) =
      ((Ok (recv_result agreed_transfer (Z.of_nat (length file))) : result _ (stop (FtError unit CapnpError))),
       (s', rb')) /\
    sent_msgs (log rb') = ack_msgs /\ store_bytes s' = file.
Proof.
  intros Hne Hwin. destruct agreed_bounds as [Hcs _].
  destruct (lossless_calls sst s Hne Hwin) as (sb' & s' & rb' & Hsend & Hs & Hrun & Hr & Hfile).
  exists sb', s', rb'. split_and!; [done| |done| |done].
  - rewrite Hs. unfold sender_entries. rewrite sent_msgs_app, sent_msgs_map. f_equal.
    change (sent_msgs (Got ?x :: ?l)) with (sent_msgs l). rewrite window_entries_sent; [|lia..|].
    + by rewrite Nat.sub_0_r.
    + left. by apply piece_count_pos; [lia|].
  - rewrite <- sent_msgs_bus, Hr. unfold receiver_entries.
    change (sent_msgs (Got ?x :: Sent ?m :: ?l)) with (m :: sent_msgs l). by rewrite answers_sent.
Qed.
End lossless.

(** * A concrete transfer *)

Definition pair_config : SendConfig := {| sender_max_chunk_size := 4; window_chunks := 2; max_retries := 1 |}.
Definition pair_receiver : ReceiverConfig := {| max_chunk_size := 3 |}.
Definition pair_sender_bus : FtBus :=
  sender_bus (T := KeptInput) (CapnpError := unit) demo_content 3 pair_config pair_receiver.
Definition pair_receiver_bus : FtBus :=
  receiver_bus (T := KeptInput) (CapnpError := unit) demo_content 3 pair_config pair_receiver.
Definition pair_send : result SendFileResult (stop Error) * (SendState * FtBus) :=
  send_file_with_id_impl (CapnpError := unit) (digest (T := KeptInput)) 3 demo_content pair_config
    (SendState_new, pair_sender_bus).
Definition pair_recv : result RecvFileResult (stop (FtError unit unit)) * (MemoryStore * FtBus) :=
  recv_call (T := KeptInput) None pair_receiver (demo_store, pair_receiver_bus).

Definition pair_sent : SendFileResult :=
  {| sent_transfer_id := 3; sent_total_len := 5; sent_chunk_size := 3; sent_chunks_sent := 2; sent_retries := 0 |}.
Definition pair_got : RecvFileResult :=
  {| got_transfer_id := 3; got_total_len := 5; got_received_len := 5; got_sender_max_chunk_size := 4;
     got_negotiated_chunk_size := 3; got_metadata := []; got_file_hash_algo := Sha256;
     got_file_hash := digest (T := KeptInput) demo_content |}.

Lemma pair_send_ok :
  send_file_with_id_impl (CapnpError := unit) (digest (T := KeptInput)) 3 demo_content pair_config
    (SendState_new, pair_sender_bus) = (Ok pair_sent, (pair_send.2.1, pair_send.2.2)).
Proof. vm_compute. reflexivity. Qed.
Lemma pair_recv_ok :
  recv_call (T := KeptInput) (CapnpError := unit) None pair_receiver (demo_store, pair_receiver_bus) =
    (Ok pair_got, (pair_recv.2.1, pair_recv.2.2)).
Proof. vm_compute. reflexivity. Qed.

Lemma lossless_transfer_witness :
  exists sb' s' rb',
    pair_send = (Ok pair_sent, (observe_transfer_id 3 SendState_new, sb')) /\
    pair_recv = (Ok pair_got, (s', rb')) /\ store_bytes s' = demo_content.
Proof.
  destruct (lossless_transfer (T := KeptInput) (CapnpError := unit) demo_content 3 pair_config pair_receiver
    ltac:(simpl; unfold u32_max; lia) ltac:(split; lia) ltac:(simpl; unfold u32_max; lia)
    ltac:(split; simpl; lia) ltac:(vm_compute; discriminate) SendState_new demo_store ltac:(done) ltac:(simpl; lia))
    as (sb' & s' & rb' & Hsend & _ & Hrecv & _ & Hfile).
  exists sb', s', rb'. split; [exact Hsend|]. split; [exact Hrecv|exact Hfile].
Defined.

(** What arrives is what the peer sent. *)
Lemma arriving_elem {CapnpError} `{Capnp CapnpError} x ms :
  Body x ∈ arriving ms -> exists m, m ∈ ms /\ x = wire_body m.
Proof.
  unfold arriving. intros (m & Hm & Hin)%list_elem_of_fmap. injection Hm as ->. by exists m.
Qed.

Lemma pair_log_elem (L : list LogEntry) ms m :
  sent_msgs L = ms -> m ∈ ms -> tried m L.
Proof.
  intros <- Hm. apply list_elem_of_omap in Hm as (e & He & Hs). left.
  destruct e; simplify_eq/=. done.
Qed.

Definition pair_sender_log : list LogEntry := call_log pair_sender_bus pair_send.2.2.
Definition pair_receiver_log : list LogEntry := call_log pair_receiver_bus pair_recv.2.2.

Lemma pair_sender_msgs :
  sent_msgs pair_sender_log =
    offer_msgs (T := KeptInput) demo_content 3 pair_config ++ chunk_msgs demo_content 3 pair_config pair_receiver.
Proof. vm_compute. reflexivity. Qed.
Lemma pair_receiver_msgs :
  sent_msgs pair_receiver_log = ack_msgs demo_content 3 pair_config pair_receiver.
Proof. vm_compute. reflexivity. Qed.

Lemma pair_requests_from :
  requests_from (CapnpError := unit) 3 pair_sender_log (req_events pair_receiver_bus).
Proof.
  intros x root Hx _ _. apply arriving_elem in Hx as (m & Hm & ->). pose proof Hm as Hin.
  apply list_elem_of_singleton in Hm as ->. eexists. split.
  - eapply pair_log_elem; [apply pair_sender_msgs|]. apply elem_of_app. left. exact Hin.
  - apply (wire_body_of (OfferMsg _)). split_and!; vm_compute; done.
Qed.

Lemma pair_chunks_from :
  chunks_from (CapnpError := unit) 3 pair_sender_log (chunk_events pair_receiver_bus).
Proof.
  intros x root Hx _ _. apply arriving_elem in Hx as (m & Hm & ->). pose proof Hm as Hin.
  apply list_elem_of_fmap in Hm as (j & -> & Hj). eexists. split.
  - eapply pair_log_elem; [apply pair_sender_msgs|]. apply elem_of_app. right. exact Hin.
  - apply (wire_body_of (ChunkMsg _)). apply elem_of_seq in Hj.
    apply (nth_piece_fits demo_content 3 3); [lia|vm_compute; done|split; lia|vm_compute; done|]. vm_compute in *. lia.
Qed.

Lemma pair_acks_from : acks_from (CapnpError := unit) 3 pair_receiver_log (ack_events pair_sender_bus).
Proof.
  intros x a Hx _ _. apply arriving_elem in Hx as (m & Hm & ->). pose proof Hm as Hin.
  assert (Hfit : exists v, m = AckMsg v /\ ack_fits v).
  { apply elem_of_cons in Hm as [->|Hm].
    - eexists. split; [done|]. split_and!; vm_compute; done.
    - apply list_elem_of_fmap in Hm as (j & -> & Hj). eexists. split; [done|].
      apply (nth_ack_fits demo_content 3 3 pair_config); first [split; lia | simpl; unfold u32_max; lia]. }
  destruct Hfit as (v & -> & Hv). exists v. split_and!; [done| |by apply (wire_body_of (AckMsg _))].
  eapply pair_log_elem; [apply pair_receiver_msgs|exact Hin].
Qed.

Lemma file_arrives_intact_witness :
  is_u32 3 /\ got_transfer_id pair_got = 3%Z /\ written pair_receiver_log = demo_content.
Proof.
  split; [split; lia|]. split; [reflexivity|].
  exact (proj2 (proj2 (file_arrives_intact (T := KeptInput) (CapnpError := unit) None 3 demo_content pair_config
    SendState_new pair_sender_bus (Ok pair_sent) pair_send.2.1 pair_send.2.2 pair_receiver demo_store
    pair_receiver_bus pair_got pair_recv.2.1 pair_recv.2.2 ltac:(split; lia) pair_send_ok pair_recv_ok eq_refl pair_requests_from pair_chunks_from))).
Defined.

Lemma sender_ok_committed_witness :
  demo_content <> [] /\ status pair_receiver_log = Committed /\ written pair_receiver_log = demo_content.
Proof.
  split; [discriminate|].
  exact (sender_ok_committed (T := KeptInput) (CapnpError := unit) None 3 demo_content pair_config
    SendState_new pair_sender_bus pair_sent pair_send.2.1 pair_send.2.2 pair_receiver demo_store
    pair_receiver_bus (Ok pair_got) pair_recv.2.1 pair_recv.2.2 ltac:(split; lia) ltac:(discriminate) pair_send_ok pair_recv_ok pair_requests_from pair_chunks_from
    pair_acks_from).
Defined.

(** ** An empty file *)

(** A store that cannot commit. *)
Record FullStore := { full_bytes : bytes }.
#[local] Instance FullStore_store : AsyncFileStore FullStore unit unit := {
  begin_write _ _ s := (inl tt, s);
  write_at _ _ _ s := (inl tt, tt, s);
  commit _ s := (inr tt, s);
  abort _ s := s;
}.

(** The sender of an empty file has no piece to wait for: it returns [Ok] on
    the [Accept], which the receiver sends before it commits; a commit that
    then fails is not reported to the sender. *)
Example empty_file_ok_uncommitted :
  let '(rs, _) := send_file_with_id_impl (CapnpError := unit) (digest (T := KeptInput)) 3 [] pair_config
    (SendState_new, sender_bus (T := KeptInput) (CapnpError := unit) [] 3 pair_config pair_receiver) in
  let '(rr, (_, rb)) := recv_file_impl (T := KeptInput) (CapnpError := unit) pair_receiver
    ({| full_bytes := [] |}, receiver_bus (T := KeptInput) (CapnpError := unit) [] 3 pair_config pair_receiver) in
  rs = Ok {| sent_transfer_id := 3; sent_total_len := 0; sent_chunk_size := 3; sent_chunks_sent := 0; sent_retries := 0 |} /\
  rr = Err (Fails (StoreError tt)) /\ status (log rb) = CommitError /\
  sent_msgs (log rb) = [AckMsg (file_ack_accept 3 3)].
Proof. by vm_compute. Qed.
