(* ===== verification/FtSession.v ===== *)
(** * The file transfer as a task on a node's interface

    [FtBus] gives the file-transfer code a script of what the bus answers.
    Here the answers come from the bus itself: a [Session] is one node's
    [Interface] ([src/thincan/src/lib.rs]) with its calls interleaved at their
    awaits ([BusSystem]), on which one task, the client, runs the protocol of
    [thincan-file-transfer/src/tokio_impl.rs]: it sends messages
    ([send_to_with_timeout]) and receives from the mailboxes of the three
    message types ([recv_next_from]), under timeouts.  Other tasks ingest
    payloads, receive and send as they like.

    A session keeps, next to the state, the history of what happened: what the
    client did and saw, what was stored in the mailboxes, what was given to
    [ingest] and what was handed to the ISO-TP node.  [script_of] turns the
    client's history into the script the protocol code is run on.

    Proved here: whatever a receive call of the client returns was ingested
    under the message's id from the peer, in the order of storing and at most
    once; and every payload handed to the node is an encoded message. *)
From S2P Require Import Prelude Script Wire Maplet Mailbox Interface BusSystem FtSchema FtBus FtEndToEnd.

(** * Messages of the file transfer *)

(** The trait [Atlas]: the message ids an application gives the three types. *)
Record Atlas := { FileReq_ID : u16; FileChunk_ID : u16; FileAck_ID : u16 }.

(** [FileTransferBundle::MESSAGE_IDS]. *)
Definition FILE_TRANSFER_MESSAGE_COUNT : nat := 3.
Definition FileTransferBundle_MESSAGE_IDS (A : Atlas) : list u16 :=
  [FileReq_ID A; FileChunk_ID A; FileAck_ID A].

Inductive FtKind := KReq | KChunk | KAck.
#[global] Instance FtKind_eq_dec : EqDecision FtKind.
Proof. solve_decision. Defined.

Definition kind_id (A : Atlas) (k : FtKind) : u16 :=
  match k with KReq => FileReq_ID A | KChunk => FileChunk_ID A | KAck => FileAck_ID A end.
Definition msg_kind (m : FtMsg) : FtKind :=
  match m with OfferMsg _ => KReq | ChunkMsg _ => KChunk | AckMsg _ => KAck end.

(** What the types of the values say: their numbers are [u32]. *)
Definition msg_typed (m : FtMsg) : Prop :=
  match m with
  | OfferMsg v => is_u32 (offer_transfer_id v) /\ is_u32 (offer_total_len v) /\
      is_u32 (offer_sender_max_chunk_size v)
  | ChunkMsg v => is_u32 (chunk_transfer_id v) /\ is_u32 (chunk_offset v)
  | AckMsg v => ack_fits v
  end.
#[global] Instance in_width_dec w z : Decision (in_width w z).
Proof. unfold in_width. apply _. Defined.
#[global] Instance msg_typed_dec m : Decision (msg_typed m).
Proof. destruct m; unfold msg_typed, ack_fits; apply _. Defined.

(** * Sessions *)

(** What the client did and what the bus answered. *)
Inductive SessEvent :=
| EvSend (m : FtMsg) (r : option Error)
| EvRecv (k : FtKind) (ev : RecvEvent).

(** What happens next on the node. *)
Inductive SessAction :=
| ActIngest (from : u8) (payload : bytes)
| ActStep (i : nat)
| ActDrop (i : nat)
| ActRecvOther (ID : u16) (from : u8) (accept : bytes -> bool)
| ActSendOther (ID : u16) (to : u8) (value : RawBody)
| ActSend (m : FtMsg)
| ActRecv (k : FtKind)
| ActTimeout.

(** An ISO-TP node with the list of the payloads that were handed to it. *)
Record Recorded (Node : Type) := { rec_node : Node; handed : list (u8 * bytes) }.
Arguments rec_node {Node}.
Arguments handed {Node}.
#[global] Instance Recorded_endpoint {Node E} `{IsoTpEndpoint Node E} : IsoTpEndpoint (Recorded Node) E := {
  node_send_to to p t n :=
    let '(r, n') := node_send_to to p t (rec_node n) in (r, {| rec_node := n'; handed := handed n ++ [(to, p)] |});
  node_send_functional_to to p t n :=
    let '(r, n') := node_send_functional_to to p t (rec_node n) in
    (r, {| rec_node := n'; handed := handed n ++ [(to, p)] |});
}.

Record Session (Node W R : Type) := {
  ss_tx : TxState (Recorded Node);
  ss_shared : Shared W;
  ss_tasks : list (task R);
  ss_call : option (FtKind * nat);          (** the receive call the client awaits *)
  ss_trace : list SessEvent;                (** the client's history *)
  ss_ingested : list (u8 * bytes);          (** payloads given to [ingest] *)
  ss_stored : list (nat * (u8 * bytes));    (** what [ingest] put into which mailbox *)
  ss_others : list (u16 * bytes);           (** what the other tasks sent *)
}.
Arguments ss_tx {Node W R}.
Arguments ss_shared {Node W R}.
Arguments ss_tasks {Node W R}.
Arguments ss_call {Node W R}.
Arguments ss_trace {Node W R}.
Arguments ss_ingested {Node W R}.
Arguments ss_stored {Node W R}.
Arguments ss_others {Node W R}.
(** The payloads handed to the node of a session. *)
Definition ss_handed {Node W R} (s : Session Node W R) : list (u8 * bytes) := handed (tx_node (ss_tx s)).

Section session.
Context {Node E W R CapnpError : Type} `{IsoTpEndpoint Node E} `{WatchOps W R} `{Capnp CapnpError}.
Context (A : Atlas) (MESSAGE_IDS : list u16) (DEPTH MAX_BODY MAX_WAITERS : nat).
Context (peer : u8) (timeout : Duration).
Abbreviation Sess := (Session Node W R).

Definition session_init (node : Node) (buf : bytes) : Sess :=
  {| ss_tx := {| tx_node := {| rec_node := node; handed := [] |}; tx := buf |};
     ss_shared := {| sh_rx := rx_new (length MESSAGE_IDS) DEPTH MAX_BODY;
                     sh_notify := replicate (length MESSAGE_IDS) (watch_new_with MAX_WAITERS) |};
     ss_tasks := []; ss_call := None; ss_trace := []; ss_ingested := []; ss_stored := [];
     ss_others := [] |}.

(** [DoodadCapnpExt::send_to] on the handle of the client: the transmit lock is
    held from encoding to the node's answer, so a send is one step of the
    transmit side. *)
Definition ft_send_to (to : u8) (m : FtMsg) : M (TxState (Recorded Node)) Error unit :=
  match m with
  | OfferMsg v => tx_send_capnp node_send_to (FileReq_ID A) to v timeout
  | ChunkMsg v => tx_send_capnp node_send_to (FileChunk_ID A) to v timeout
  | AckMsg v => tx_send_capnp node_send_to (FileAck_ID A) to v timeout
  end.

(** [DoodadCapnpExt::recv_next_from]. *)
Definition ft_recv_next_from (k : FtKind) (sh : Shared W) : task R * Shared W :=
  spawn_recv MESSAGE_IDS (kind_id A k) peer (fun _ => true) sh.

Definition after_send (tx' : TxState (Recorded Node)) (ev : list SessEvent)
    (other : list (u16 * bytes)) (s : Sess) : Sess :=
  {| ss_tx := tx'; ss_shared := ss_shared s; ss_tasks := ss_tasks s; ss_call := ss_call s;
     ss_trace := ss_trace s ++ ev; ss_ingested := ss_ingested s; ss_stored := ss_stored s;
     ss_others := ss_others s ++ other |}.

(** The calls changed: the task list, the shared state and the histories. *)
Definition after_task (sh : Shared W) (ts : list (task R)) (call : option (FtKind * nat))
    (ev : list SessEvent) (ing : list (u8 * bytes)) (st : list (nat * (u8 * bytes))) (s : Sess) : Sess :=
  {| ss_tx := ss_tx s; ss_shared := sh; ss_tasks := ts; ss_call := call;
     ss_trace := ss_trace s ++ ev; ss_ingested := ss_ingested s ++ ing; ss_stored := ss_stored s ++ st;
     ss_others := ss_others s |}.

(** What a finished receive call says; [None] is a panic. *)
Definition recv_event (r : result Received Error) : option RecvEvent :=
  match r with
  | Ok m => b ← received_body m; Some (Body b)
  | Err e => Some (FtBus.RecvError e)
  | Panic => None
  end.

(** The client takes the answer of its call as soon as it is there. *)
Definition client_takes (k : FtKind) (i : nat) (t : task R) : option (option (FtKind * nat) * list SessEvent) :=
  match t with
  | RecvDone r => ev ← recv_event r; Some (None, [EvRecv k ev])
  | _ => Some (Some (k, i), [])
  end.

(** What a step of [ingest] put into a mailbox. *)
Definition stored_by (t t' : task R) : list (nat * (u8 * bytes)) :=
  match t, t' with
  | IngLock from raw slot, IngNotify _ _ => [(slot, (from, body raw))]
  | _, _ => []
  end.

Definition session_step (a : SessAction) (s : Sess) : option Sess :=
  let sh := ss_shared s in
  let ts := ss_tasks s in
  match a with
  | ActIngest from payload =>
      Some (after_task sh (ts ++ [spawn_ingest MESSAGE_IDS from payload]) (ss_call s) [] [(from, payload)] [] s)
  | ActStep i =>
      t ← ts !! i;
      '(t', sh') ← task_step DEPTH MAX_BODY t sh;
      '(call, ev) ← match ss_call s with
                    | Some (k, j) => if decide (i = j) then client_takes k i t' else Some (ss_call s, [])
                    | None => Some (None, [])
                    end;
      Some (after_task sh' (<[i := t']> ts) call ev [] (stored_by t t') s)
  | ActDrop i =>
      t ← ts !! i;
      sh' ← task_drop t sh;
      if decide (snd <$> ss_call s = Some i) then None
      else Some (after_task sh' (<[i := Dropped]> ts) (ss_call s) [] [] [] s)
  | ActRecvOther ID from accept =>
      let '(t, sh') := spawn_recv MESSAGE_IDS ID from accept sh in
      Some (after_task sh' (ts ++ [t]) (ss_call s) [] [] [] s)
  | ActSendOther ID to value =>
      if decide (is_u16 ID) then
        match tx_send_capnp node_send_to ID to value timeout (ss_tx s) with
        | (Panic, _) => None
        | (_, tx') => Some (after_send tx' [] [(ID, raw_body value)] s)
        end
      else None
  | ActSend m =>
      match ss_call s with
      | Some _ => None
      | None =>
          if decide (msg_typed m) then
            match ft_send_to peer m (ss_tx s) with
            | (Ok _, tx') => Some (after_send tx' [EvSend m None] [] s)
            | (Err e, tx') => Some (after_send tx' [EvSend m (Some e)] [] s)
            | (Panic, _) => None
            end
          else None
      end
  | ActRecv k =>
      match ss_call s with
      | Some _ => None
      | None =>
          let '(t, sh') := ft_recv_next_from k sh in
          '(call, ev) ← client_takes k (length ts) t;
          Some (after_task sh' (ts ++ [t]) call ev [] [] s)
      end
  | ActTimeout =>
      '(k, i) ← ss_call s;
      t ← ts !! i;
      sh' ← task_drop t sh;
      Some (after_task sh' (<[i := Dropped]> ts) None [EvRecv k Elapsed] [] [] s)
  end.

Fixpoint session_run (acts : list SessAction) (s : Sess) : option Sess :=
  match acts with
  | [] => Some s
  | a :: acts' => s' ← session_step a s; session_run acts' s'
  end.

Lemma session_run_app l1 l2 s : session_run (l1 ++ l2) s = s' ← session_run l1 s; session_run l2 s'.
Proof.
  revert s. induction l1 as [|a l1 IH]; intros s; [done|]. simpl. destruct (session_step a s); [apply IH|done].
Qed.
End session.

(** * The client's script *)

Definition event_of (k : FtKind) (e : SessEvent) : option RecvEvent :=
  match e with EvRecv k' ev => if decide (k = k') then Some ev else None | EvSend _ _ => None end.
Definition send_result_of (e : SessEvent) : option (option Error) :=
  match e with EvSend _ r => Some r | EvRecv _ _ => None end.
Definition body_event (k : FtKind) (e : SessEvent) : option bytes :=
  match event_of k e with Some (Body x) => Some x | _ => None end.
(** The bodies the client received in the mailbox of a type. *)
Definition bodies (k : FtKind) (tr : list SessEvent) : list bytes := omap (body_event k) tr.

(** The answers of the bus, as the protocol code is given them. *)
Definition script_of (tr : list SessEvent) : FtBus :=
  {| send_results := omap send_result_of tr; req_events := omap (event_of KReq) tr;
     chunk_events := omap (event_of KChunk) tr; ack_events := omap (event_of KAck) tr; log := [] |}.

(** The same history as entries of the protocol's log. *)
Definition log_entry (e : SessEvent) : LogEntry :=
  match e with
  | EvSend m None => Sent m
  | EvSend m (Some err) => SendFailed m err
  | EvRecv _ (Body x) => Got x
  | EvRecv _ (FtBus.RecvError err) => GotError err
  | EvRecv _ Elapsed => FtBus.TimedOut
  end.

(** The protocol code was the client of the session: run on the script of the
    session, it made the session's calls in the session's order. *)
Definition played (tr : list SessEvent) (L : list LogEntry) : Prop := bus_entries L = map log_entry tr.

(** * What a send hands to the node *)

Section handed.
Context {Node E CapnpError : Type} `{IsoTpEndpoint Node E} `{Capnp CapnpError} (A : Atlas).

(** The payload of a value in a transmit buffer, when there is one. *)
Definition payload_in {V} `{EncodeCapnp V} (ID : u16) (v : V) (buf : bytes) : option bytes :=
  match encode_capnp_into_buf ID v buf with (Ok p, _) => Some p | _ => None end.
Definition ft_payload (m : FtMsg) (buf : bytes) : option bytes :=
  match m with
  | OfferMsg v => payload_in (FileReq_ID A) v buf
  | ChunkMsg v => payload_in (FileChunk_ID A) v buf
  | AckMsg v => payload_in (FileAck_ID A) v buf
  end.

(** A send hands over the payload it encoded, or nothing. *)
Lemma tx_send_handed {V} `{EncodeCapnp V} ID to (v : V) timeout (t : TxState (Recorded Node)) r t' :
  tx_send_capnp node_send_to ID to v timeout t = (r, t') ->
  handed (tx_node t') = handed (tx_node t) ++
    match payload_in ID v (tx t) with Some p => [(to, p)] | None => [] end.
Proof.
  unfold tx_send_capnp, payload_in, on_field, catch. unfold_M.
  destruct (encode_capnp_into_buf ID v (tx t)) as [[p|e|] b]; simpl;
    [|intros [= <- <-]; simpl; by rewrite app_nil_r..].
  destruct (node_send_to to p timeout (rec_node (tx_node t))) as [[u|e|] n]; by intros [= <- <-].
Qed.

Lemma ft_send_handed timeout to m (t : TxState (Recorded Node)) r t' :
  ft_send_to A timeout to m t = (r, t') ->
  handed (tx_node t') = handed (tx_node t) ++
    match ft_payload m (tx t) with Some p => [(to, p)] | None => [] end.
Proof. destruct m; simpl; apply tx_send_handed. Qed.
End handed.

(** * What a step does to the queues *)

Section queues.
Context {W R : Type} `{WatchLaws W R}.
Context (MESSAGE_IDS : list u16) (DEPTH MAX_BODY : nat).
Implicit Types (sh : Shared W) (t : task R).
Abbreviation ok := (shared_ok MESSAGE_IDS DEPTH MAX_BODY).
Abbreviation tstep := (task_step DEPTH MAX_BODY).

Lemma shared_queue sh slot :
  ok sh -> slot < length MESSAGE_IDS -> exists q, rx_abs (sh_rx sh) !! slot = Some q.
Proof.
  intros [Hwf _] Hs. destruct (rx_wf_lookup _ _ _ _ _ Hwf Hs) as (mb & Hmb & _).
  exists (mailbox_abs mb). by rewrite rx_abs_lookup, Hmb.
Qed.

Lemma ing_lock_queue sh from raw slot t' sh' q :
  ok sh -> rx_abs (sh_rx sh) !! slot = Some q -> tstep (IngLock from raw slot) sh = Some (t', sh') ->
  (exists o, t' = IngNotify slot o) /\
    rx_abs (sh_rx sh') = <[slot := q ++ [(from, body raw)]]> (rx_abs (sh_rx sh)) \/
  (exists r, t' = IngDone r) /\ rx_abs (sh_rx sh') = rx_abs (sh_rx sh).
Proof.
  intros [Hwf _] Hq. simpl.
  destruct (rx_push_refines _ _ _ _ slot from (body raw) _ Hwf Hq) as (r & st' & -> & _ & -> & Habs).
  unfold spec_push in *. repeat case_bool; simpl in *; intros [= <- <-]; simpl;
    rewrite Habs, ?(list_insert_id _ _ _ Hq); eauto.
Qed.

Lemma recv_lock_queue sh ID slot from accept rcv t' sh' q :
  ok sh -> rx_abs (sh_rx sh) !! slot = Some q -> tstep (RecvLock ID slot from accept rcv) sh = Some (t', sh') ->
  (exists m b q1 q2, t' = RecvDone (Ok m) /\ received_body m = Some b /\ q = q1 ++ (from, b) :: q2 /\
     Forall (fun m' => ~ matches from accept m') q1 /\
     rx_abs (sh_rx sh') = <[slot := q1 ++ q2]> (rx_abs (sh_rx sh))) \/
  t' = RecvWait ID slot from accept rcv /\ rx_abs (sh_rx sh') = rx_abs (sh_rx sh) /\
    Forall (fun m' => ~ matches from accept m') q.
Proof.
  intros [Hwf _] Hq. pose proof Hq as Hmb. rewrite rx_abs_lookup in Hmb.
  destruct (sh_rx sh !! slot) as [mb|] eqn:Hl; [|done]. injection Hmb as <-.
  assert (mailbox_wf DEPTH MAX_BODY mb) as Hm by (destruct Hwf as [_ Hwf]; by eapply Forall_lookup_1).
  destruct (mailbox_pop_refines DEPTH MAX_BODY (pure_predicate accept) from tt mb Hm)
    as (out & [] & mb' & Hpop & _ & Hspec & Hs).
  pose proof (spec_pop_oldest accept from (mailbox_abs mb)) as Ho. rewrite Hspec in Ho.
  simpl. unfold rx_pop_matching_where. rewrite Hl. simpl. rewrite Hpop.
  destruct out as [s|]; simpl in Ho |- *; intros [= <- <-]; simpl; rewrite rx_abs_insert.
  - destruct Ho as (q1 & q2 & Hq12 & Hq' & [Hf _] & Hq1). left.
    eexists _, (slot_msg s).2, q1, q2. split_and!; [done| | |done|by rewrite Hq'].
    + unfold received_body. simpl. destruct Hs as (? & ? & _). by rewrite slice_to_Some by lia.
    + rewrite Hq12. simpl in Hf. by rewrite <- Hf.
  - destruct Ho as [-> Hno]. right. split_and!; [done|by apply list_insert_id|done].
Qed.
End queues.

(** The bodies of one sender in a queue, and those stored in a mailbox. *)
Definition body_from (from : u8) (m : u8 * bytes) : option bytes :=
  if (m.1 =? from)%Z then Some m.2 else None.
Definition bodies_from (from : u8) (q : queue) : list bytes := omap (body_from from) q.
Definition stored_in (slot : nat) (from : u8) (st : list (nat * (u8 * bytes))) : list bytes :=
  omap (fun x => if decide (x.1 = slot) then body_from from x.2 else None) st.

Lemma bodies_from_pop from accept b q1 q2 :
  (forall x, accept x = true) -> Forall (fun m' => ~ matches from accept m') q1 ->
  bodies_from from (q1 ++ (from, b) :: q2) = b :: bodies_from from (q1 ++ q2).
Proof.
  intros Ha Hq. unfold bodies_from. rewrite !omap_app.
  assert (omap (body_from from) q1 = []) as ->.
  { induction Hq as [|[f x] q1 Hm _ IH]; simpl; [done|]. unfold body_from at 1. simpl.
    destruct (Z.eqb_spec f from) as [->|]; [|done]. destruct Hm. by split. }
  simpl. unfold body_from at 1. simpl. by rewrite Z.eqb_refl.
Qed.

Lemma omap_sublist {X Y} (f : X -> option Y) l1 l2 : l1 `sublist_of` l2 -> omap f l1 `sublist_of` omap f l2.
Proof.
  induction 1 as [|x l1 l2 _ IH|x l1 l2 _ IH]; simpl; [done| |];
    destruct (f x); eauto using sublist_skip, sublist_cons.
Qed.

(** * Invariants of a session *)

Section invariant.
Context {Node E W R CapnpError : Type} `{IsoTpEndpoint Node E} `{WatchLaws W R} `{Capnp CapnpError}.
Context (A : Atlas) (MESSAGE_IDS : list u16) (DEPTH MAX_BODY MAX_WAITERS : nat).
Context (peer : u8) (timeout : Duration).
Implicit Types (s : Session Node W R) (t : task R).
Abbreviation sstep := (session_step A MESSAGE_IDS DEPTH MAX_BODY peer timeout).
Abbreviation slot_of k := (slot_for_id MESSAGE_IDS (kind_id A k)).

(** The mailbox a pending receive call looks into. *)
Definition receives t : option (u16 * nat * u8) :=
  match t with
  | RecvLock ID slot from _ _ | RecvWait ID slot from _ _ => Some (ID, slot, from)
  | _ => None
  end.

(** A message of a mailbox came in a payload given to [ingest]. *)
Definition sourced_msg s (x : nat * (u8 * bytes)) : Prop :=
  exists p raw, (x.2.1, p) ∈ ss_ingested s /\ decode_wire p = Ok raw /\
    slot_for_id MESSAGE_IDS (id raw) = Some x.1 /\ body raw = x.2.2.
Definition sourced_task s t : Prop :=
  match t with
  | IngLock from raw slot => sourced_msg s (slot, (from, body raw))
  | RecvLock ID slot _ _ _ | RecvWait ID slot _ _ _ => slot_for_id MESSAGE_IDS ID = Some slot
  | _ => True
  end.

(** A payload handed to the node encodes a message of the client, or one of
    another task. *)
Definition encoded s (x : u8 * bytes) : Prop :=
  (exists m r buf, EvSend m r ∈ ss_trace s /\ msg_typed m /\ ft_payload A m buf = Some x.2) \/
  (exists ID v buf, (ID, raw_body v) ∈ ss_others s /\ is_u16 ID /\ payload_in ID v buf = Some x.2).

(** The call the client waits for is a receive call of its type. *)
Definition call_ok s : Prop :=
  forall k i, ss_call s = Some (k, i) ->
    exists slot rcv, slot_of k = Some slot /\
      (ss_tasks s !! i = Some (RecvLock (kind_id A k) slot peer (fun _ => true) rcv) \/
       ss_tasks s !! i = Some (RecvWait (kind_id A k) slot peer (fun _ => true) rcv)).

Definition sess_ok s : Prop :=
  inv MESSAGE_IDS DEPTH MAX_BODY (ss_shared s, ss_tasks s) /\ Forall (sourced_task s) (ss_tasks s) /\
  Forall (sourced_msg s) (ss_stored s) /\ Forall (encoded s) (ss_handed s) /\ call_ok s.

(** The histories only grow. *)
Definition grows s s' : Prop :=
  ss_ingested s ⊆ ss_ingested s' /\ ss_trace s ⊆ ss_trace s' /\ ss_others s ⊆ ss_others s'.

Lemma sourced_msg_grows s s' x : grows s s' -> sourced_msg s x -> sourced_msg s' x.
Proof. intros (Hi & _) (p & raw & ? & ?). exists p, raw. split; [by apply Hi|done]. Qed.
Lemma sourced_task_grows s s' t : grows s s' -> sourced_task s t -> sourced_task s' t.
Proof. intros Hg. destruct t; simpl; try done. by apply sourced_msg_grows. Qed.
Lemma encoded_grows s s' x : grows s s' -> encoded s x -> encoded s' x.
Proof.
  intros (_ & Ht & Ho) [(m & r & buf & ? & ?)|(ID & v & buf & ? & ?)]; [left|right].
  - exists m, r, buf. split; [by apply Ht|done].
  - exists ID, v, buf. split; [by apply Ho|done].
Qed.

(** A call on the mailboxes: the tasks of the system take a step, one of them
    becomes [t'], and the histories grow. *)
Lemma sess_ok_task s sh' ts' call ev ing st t' :
  sess_ok s -> step MESSAGE_IDS DEPTH MAX_BODY (ss_shared s, ss_tasks s) (sh', ts') ->
  (forall t, t ∈ ts' -> t = t' \/ t ∈ ss_tasks s) ->
  let s' := after_task sh' ts' call ev ing st s in
  sourced_task s' t' -> Forall (sourced_msg s') st -> call_ok s' -> sess_ok s'.
Proof.
  intros (Hinv & Hsrc & Hst & Hh & _) Hstep Hts s' Ht' Hnew Hcall.
  assert (grows s s') as Hg by (split_and!; intros x Hx; simpl; first [done | apply elem_of_app; by left]).
  split_and!; [by eapply inv_step| | | |done].
  - apply Forall_forall. intros t [->|Ht]%Hts; [done|]. eapply sourced_task_grows; [done|].
    by eapply Forall_forall in Hsrc.
  - apply Forall_app. split; [|done]. eapply Forall_impl; [done|]. intros x. by apply sourced_msg_grows.
  - eapply Forall_impl; [done|]. intros x. by apply encoded_grows.
Qed.

Lemma sess_ok_send s to p tx' ev other :
  sess_ok s -> let s' := after_send tx' ev other s in
  handed (tx_node tx') = ss_handed s ++ match p with Some p => [(to, p)] | None => [] end ->
  (forall x, p = Some x -> encoded s' (to, x)) -> sess_ok s'.
Proof.
  intros (Hinv & Hsrc & Hst & Hh & Hc) s' Hhand Hp.
  assert (grows s s') as Hg by (split_and!; [done|intros x Hx; simpl; apply elem_of_app; by left..]).
  split_and!; [done|done|done| |done].
  unfold ss_handed. simpl. rewrite Hhand. apply Forall_app. split.
  - eapply Forall_impl; [done|]. intros x. by apply encoded_grows.
  - destruct p as [x|]; [|done]. apply Forall_singleton. by apply Hp.
Qed.

(** A spawned receive call. *)
Lemma spawn_recv_sourced s ID from accept (sh : Shared W) t sh' :
  spawn_recv MESSAGE_IDS ID from accept sh = (t, sh') ->
  sourced_task s t /\
  ((exists slot rcv, slot_for_id MESSAGE_IDS ID = Some slot /\ t = RecvLock ID slot from accept rcv) \/
   exists r, t = RecvDone r /\ forall m, r <> Ok m).
Proof.
  assert (forall r, (forall m, r <> Ok m) -> sourced_task s (RecvDone r : task R) /\
    ((exists slot rcv, slot_for_id MESSAGE_IDS ID = Some slot /\ RecvDone r = (RecvLock ID slot from accept rcv : task R)) \/
     exists r', (RecvDone r : task R) = RecvDone r' /\ forall m, r' <> Ok m)) as Hdone
    by (intros r Hr; split; [done|]; right; by exists r).
  unfold spawn_recv. destruct (slot_for_id MESSAGE_IDS ID) as [slot|] eqn:Hs; [|intros [= <- _]; by apply Hdone].
  destruct (sh_notify sh !! slot) as [w|]; [|intros [= <- _]; by apply Hdone].
  destruct (watch_receiver w) as [[rcv w']|]; intros [= <- _]; [|by apply Hdone].
  split; [done|]. left. by exists slot, rcv.
Qed.

(** Stepping a pending receive call keeps it on its mailbox, or ends it. *)
Lemma recv_step_shape ID slot from accept rcv sh t' sh' :
  (task_step DEPTH MAX_BODY (RecvLock ID slot from accept rcv) sh = Some (t', sh') \/
   task_step DEPTH MAX_BODY (RecvWait ID slot from accept rcv) sh = Some (t', sh')) ->
  (exists r, t' = RecvDone r) \/
  exists rcv', t' = RecvLock ID slot from accept rcv' \/ t' = RecvWait ID slot from accept rcv'.
Proof.
  intros [Hs|Hs]; simpl in Hs.
  - destruct (rx_pop_matching_where _ _ _ _ _ _) as [[[[?|] ?] ?]|]; simplify_eq; eauto.
  - destruct (sh_notify sh !! slot) as [w|]; simplify_eq/=. destruct (watch_changed rcv w); simplify_eq/=. eauto.
Qed.

Lemma ing_step_shape t sh t' sh' :
  receives t = None -> task_step DEPTH MAX_BODY t sh = Some (t', sh') ->
  receives t' = None /\ forall from raw slot, t' <> IngLock from raw slot.
Proof.
  destruct t as [from raw slot|slot o| | | | |]; simpl; try done; intros _.
  - destruct (rx_push _ _ _ _ _ _) as [[?|?|] st]; intros [= <- _]; done.
  - destruct (notify_slot slot _); intros [= <- _]; done.
Qed.

(** The task a step leaves behind is sourced when the one before it was. *)
Lemma step_sourced s s' t t' (sh sh' : Shared W) :
  sourced_task s t -> grows s s' -> task_step DEPTH MAX_BODY t sh = Some (t', sh') -> sourced_task s' t'.
Proof.
  intros Hs Hg Ht. destruct (receives t) as [[[ID slot] from]|] eqn:Hr.
  - destruct t; simplify_eq/=;
      (edestruct recv_step_shape as [[r ->]|(rcv' & [-> | ->])]; [by (left + right)|done..]).
  - destruct (ing_step_shape _ _ _ _ Hr Ht) as [Hr' Hn]. destruct t'; try done. by edestruct Hn.
Qed.

(** Stepping the client's call: it goes on waiting, or it is over. *)
Lemma client_takes_ok k i t' call ev :
  client_takes k i t' = Some (call, ev) ->
  call = None /\ (exists r e, t' = RecvDone r /\ recv_event r = Some e /\ ev = [EvRecv k e]) \/
  call = Some (k, i) /\ ev = [] /\ forall r, t' <> RecvDone r.
Proof.
  destruct t'; simpl; try (intros [= <- <-]; by right).
  destruct (recv_event r) as [e|] eqn:He; intros; simplify_eq/=. left. eauto 6.
Qed.

(** The client's call is where it was when another task moved. *)
Lemma call_ok_app s sh ts ev ing st :
  call_ok s -> call_ok (after_task sh (ss_tasks s ++ ts) (ss_call s) ev ing st s).
Proof.
  intros Hc k i Hk. destruct (Hc k i Hk) as (slot & rcv & Hs & Ht). exists slot, rcv. split; [done|].
  simpl. destruct Ht as [Ht|Ht]; rewrite lookup_app_l by (by eapply lookup_lt_Some); auto.
Qed.
Lemma call_ok_insert s sh j t' ev ing st :
  call_ok s -> snd <$> ss_call s <> Some j ->
  call_ok (after_task sh (<[j := t']> (ss_tasks s)) (ss_call s) ev ing st s).
Proof.
  intros Hc Hj k i Hk. simpl in Hk. destruct (Hc k i Hk) as (slot & rcv & Hs & Ht). exists slot, rcv.
  rewrite Hk in Hj. simpl in *. split; [done|].
  rewrite !list_lookup_insert_ne by congruence. done.
Qed.

Lemma call_ok_none s sh ts ev ing st : call_ok (after_task sh ts None ev ing st s).
Proof. by intros k i. Qed.

(** The client's call after a step of it. *)
Lemma call_ok_takes s k i t t' (sh sh' : Shared W) call ev ing st :
  call_ok s -> ss_call s = Some (k, i) -> ss_tasks s !! i = Some t ->
  task_step DEPTH MAX_BODY t sh = Some (t', sh') -> client_takes k i t' = Some (call, ev) ->
  call_ok (after_task sh' (<[i := t']> (ss_tasks s)) call ev ing st s).
Proof.
  intros Hc Hk Hi Ht [[-> _]|(-> & _ & Hn)]%client_takes_ok; [apply call_ok_none|].
  intros k0 i0 [= <- <-]. destruct (Hc k i Hk) as (slot & rcv & Hs & Hti). exists slot.
  assert (exists rcv', t' = RecvLock (kind_id A k) slot peer (fun _ => true) rcv' \/
                       t' = RecvWait (kind_id A k) slot peer (fun _ => true) rcv') as [rcv' Hr].
  { edestruct recv_step_shape as [[r Hr]|Hr]; [|by destruct (Hn r)|exact Hr].
    destruct Hti as [Hti|Hti]; rewrite Hi in Hti; injection Hti as ->; eauto. }
  exists rcv'. split; [done|]. simpl.
  rewrite list_lookup_insert_eq by (by eapply lookup_lt_Some). destruct Hr as [-> | ->]; auto.
Qed.

Lemma grows_task s sh ts call ev ing st : grows s (after_task sh ts call ev ing st s).
Proof. split_and!; intros x Hx; simpl; first [done | apply elem_of_app; by left]. Qed.

Lemma stored_by_sourced s sh ts call ev ing t t' :
  sourced_task s t -> Forall (sourced_msg (after_task sh ts call ev ing (stored_by t t') s)) (stored_by t t').
Proof.
  intros Hs. destruct t, t'; simpl; try done. apply Forall_singleton.
  eapply sourced_msg_grows; [apply grows_task|done].
Qed.

Lemma encoded_payload m r s to p tx' :
  msg_typed m -> ft_payload A m (tx (ss_tx s)) = Some p ->
  encoded (after_send tx' [EvSend m r] [] s) (to, p).
Proof.
  intros Hm Hp. left. exists m, r, (tx (ss_tx s)). split_and!; [|done..]. simpl.
  apply elem_of_app. right. by left.
Qed.

Lemma in_snoc_new {X} (l : list X) y x : x ∈ l ++ [y] -> x = y \/ x ∈ l.
Proof. rewrite elem_of_app, list_elem_of_singleton. tauto. Qed.

Lemma session_task_step_ok i s s' : sess_ok s -> sstep (ActStep i) s = Some s' -> sess_ok s'.
Proof.
  intros Hok Hs. pose proof Hok as (Hinv & Hsrc & Hst & Hh & Hc). unfold session_step in Hs.
  destruct (ss_tasks s !! i) as [t|] eqn:Hi; simpl in Hs; [|done].
  destruct (task_step DEPTH MAX_BODY t (ss_shared s)) as [[t' sh']|] eqn:Ht; simpl in Hs; [|done].
  pose proof (Forall_lookup_1 _ _ _ _ Hsrc Hi) as Hti.
  assert (forall call ev, call_ok (after_task sh' (<[i := t']> (ss_tasks s)) call ev [] (stored_by t t') s) ->
    sess_ok (after_task sh' (<[i := t']> (ss_tasks s)) call ev [] (stored_by t t') s)) as Hgo.
  { intros call ev. eapply (sess_ok_task s _ _ _ _ _ _ t'); [done|by eapply step_task| | |by apply stored_by_sourced].
    - intros x. apply elem_of_insert_inv.
    - eapply step_sourced; [done|apply grows_task|done]. }
  destruct (ss_call s) as [[k j]|] eqn:Hcall; simpl in Hs.
  + case_decide as Hij.
    * destruct (client_takes k i t') as [[call ev]|] eqn:Htk; simplify_eq/=. apply Hgo. by eapply call_ok_takes.
    * injection Hs as <-. apply Hgo. rewrite <- Hcall. apply call_ok_insert; [done|]. rewrite Hcall. simpl. congruence.
  + injection Hs as <-. apply Hgo, call_ok_none.
Qed.

Lemma session_recv_ok k s s' : sess_ok s -> sstep (ActRecv k) s = Some s' -> sess_ok s'.
Proof.
  intros Hok Hs. pose proof Hok as (Hinv & Hsrc & Hst & Hh & Hc). unfold session_step in Hs.
  destruct (ss_call s) eqn:Hcall; [done|].
  destruct (ft_recv_next_from A MESSAGE_IDS peer k (ss_shared s)) as [t sh'] eqn:Ht.
  destruct (client_takes k (length (ss_tasks s)) t) as [[call ev]|] eqn:Htk; simplify_eq/=.
  eapply sess_ok_task; [done|by eapply step_recv|apply in_snoc_new|by eapply spawn_recv_sourced|done|].
  apply client_takes_ok in Htk as [[-> _]|(-> & _ & Hn)]; [apply call_ok_none|].
  destruct (spawn_recv_sourced s _ _ _ _ _ _ Ht) as [_ [(slot & rcv & Hsl & ->)|(r & -> & _)]]; [|by destruct (Hn r)].
  intros k0 i0 [= <- <-]. exists slot, rcv. split; [done|]. left. simpl. by apply list_lookup_middle.
Qed.

Lemma session_step_ok a s s' : sess_ok s -> sstep a s = Some s' -> sess_ok s'.
Proof.
  intros Hok. pose proof Hok as (Hinv & Hsrc & Hst & Hh & Hc).
  intros Hs.
  destruct a as [from payload|i|i|ID from accept|ID to v|m|k|];
    [|by eapply session_task_step_ok| | | | |by eapply session_recv_ok|]; unfold session_step in Hs.
  - injection Hs as <-. eapply sess_ok_task; [done|apply step_ingest|apply in_snoc_new| |done|by apply call_ok_app].
    unfold spawn_ingest, ingest_decode. destruct (decode_wire payload) as [raw|e|] eqn:Hd; simpl; try done.
    destruct (slot_for_id MESSAGE_IDS (id raw)) as [slot|] eqn:Hsl; simpl; [|done].
    exists payload, raw. split_and!; try done. simpl. apply elem_of_app. right. by left.
  - destruct (ss_tasks s !! i) as [t|] eqn:Hi; simpl in Hs; [|done].
    destruct (task_drop t (ss_shared s)) as [sh'|] eqn:Ht; simpl in Hs; [|done].
    case_decide as Hj; [done|]. injection Hs as <-.
    eapply (sess_ok_task s _ _ _ _ _ _ Dropped); [done|by eapply step_drop| |done|done|by apply call_ok_insert].
    intros x. apply elem_of_insert_inv.
  - destruct (spawn_recv MESSAGE_IDS ID from accept (ss_shared s)) as [t sh'] eqn:Ht. injection Hs as <-.
    eapply sess_ok_task; [done|by eapply step_recv|apply in_snoc_new| |done|by apply call_ok_app].
    by eapply spawn_recv_sourced.
  - case_decide; [|done].
    destruct (tx_send_capnp _ _ _ _ _ _) as [[u|e|] tx'] eqn:Hsend; simplify_eq;
      (eapply sess_ok_send; [done|by eapply tx_send_handed|]); intros p Hp; right; exists ID, v, (tx (ss_tx s));
      (split; [|done]); simpl; apply elem_of_app; right; by left.
  - destruct (ss_call s); [done|]. case_decide as Hm; [|done].
    destruct (ft_send_to _ _ _ _ _) as [[u|e|] tx'] eqn:Hsend; simplify_eq;
      (eapply sess_ok_send; [done|by eapply ft_send_handed|]); intros p Hp; by apply encoded_payload.
  - destruct (ss_call s) as [[k i]|] eqn:Hcall; simpl in Hs; [|done].
    destruct (ss_tasks s !! i) as [t|] eqn:Hi; simpl in Hs; [|done].
    destruct (task_drop t (ss_shared s)) as [sh'|] eqn:Ht; simpl in Hs; [|done]. injection Hs as <-.
    eapply (sess_ok_task s _ _ _ _ _ _ Dropped); [done|by eapply step_drop| |done|done|apply call_ok_none].
    intros x. apply elem_of_insert_inv.
Qed.

Lemma session_init_ok node buf : sess_ok (session_init MESSAGE_IDS DEPTH MAX_BODY MAX_WAITERS node buf).
Proof. split_and!; try done. eapply inv_reachable, reach_init. Qed.

(** ** The queue of a mailbox over a step *)

Definition queue_at (slot : nat) (sh : Shared W) : queue := default [] (rx_abs (sh_rx sh) !! slot).

(** A step either moves messages along (from the queue to the client, from
    [ingest] to the queue), or another receiver took one of the peer's. *)
Definition effect (k : FtKind) (slot : nat) s s' : Prop :=
  exists nt ns, bodies k (ss_trace s') = bodies k (ss_trace s) ++ nt /\
    stored_in slot peer (ss_stored s') = stored_in slot peer (ss_stored s) ++ ns /\
    (nt ++ bodies_from peer (queue_at slot (ss_shared s')) =
       bodies_from peer (queue_at slot (ss_shared s)) ++ ns \/
     nt = [] /\ ns = [] /\
     bodies_from peer (queue_at slot (ss_shared s')) `sublist_of` bodies_from peer (queue_at slot (ss_shared s)) /\
     exists i ID accept rcv, ss_tasks s !! i = Some (RecvLock ID slot peer accept rcv) /\ ss_call s <> Some (k, i)).

Lemma effect_none k slot s sh ts call ev ing :
  omap (body_event k) ev = [] -> queue_at slot sh = queue_at slot (ss_shared s) ->
  effect k slot s (after_task sh ts call ev ing [] s).
Proof.
  intros He Hq. exists [], []. simpl. unfold bodies, stored_in. rewrite !omap_app, He, !app_nil_r, Hq.
  split_and!; [done..|]. by left.
Qed.

Lemma effect_send k slot s tx' m r other : effect k slot s (after_send tx' [EvSend m r] other s).
Proof.
  exists [], []. simpl. unfold bodies. rewrite omap_app, !app_nil_r. split_and!; [done..|]. by left.
Qed.

Lemma spawn_recv_queue slot ID from accept (sh : Shared W) t sh' :
  spawn_recv MESSAGE_IDS ID from accept sh = (t, sh') -> queue_at slot sh' = queue_at slot sh.
Proof.
  unfold spawn_recv. destruct (slot_for_id MESSAGE_IDS ID) as [n|]; [|by intros [= _ <-]].
  destruct (sh_notify sh !! n) as [w|]; [|by intros [= _ <-]].
  destruct (watch_receiver w) as [[rcv w']|]; by intros [= _ <-].
Qed.
Lemma task_drop_queue slot t (sh sh' : Shared W) :
  task_drop t sh = Some sh' -> queue_at slot sh' = queue_at slot sh.
Proof. destruct t; simpl; intros; by simplify_eq. Qed.

Lemma queue_at_insert slot slot0 (sh sh' : Shared W) q q' :
  rx_abs (sh_rx sh) !! slot0 = Some q -> rx_abs (sh_rx sh') = <[slot0 := q']> (rx_abs (sh_rx sh)) ->
  queue_at slot sh' = if decide (slot0 = slot) then q' else queue_at slot sh.
Proof.
  intros Hq Habs. unfold queue_at. rewrite Habs. case_decide as Hs.
  - subst. by rewrite list_lookup_insert_eq by (by eapply lookup_lt_Some).
  - by rewrite list_lookup_insert_ne.
Qed.
Lemma queue_at_eq slot0 (sh : Shared W) q : rx_abs (sh_rx sh) !! slot0 = Some q -> queue_at slot0 sh = q.
Proof. unfold queue_at. by intros ->. Qed.

(** [ingest] stores a message. *)
Lemma effect_ing_lock k slot s i from raw slot0 t' sh' :
  sess_ok s -> ss_tasks s !! i = Some (IngLock from raw slot0) ->
  task_step DEPTH MAX_BODY (IngLock from raw slot0) (ss_shared s) = Some (t', sh') ->
  effect k slot s (after_task sh' (<[i := t']> (ss_tasks s)) (ss_call s) []  []
    (stored_by (IngLock from raw slot0) t') s).
Proof.
  intros ((Hsh & Hok & _) & _) Hi Ht.
  pose proof (Forall_lookup_1 _ _ _ _ Hok Hi) as Hlt. simpl in Hlt, Hsh.
  destruct (shared_queue _ _ _ _ _ Hsh Hlt) as [q Hq].
  destruct (ing_lock_queue _ _ _ _ _ _ _ _ _ _ Hsh Hq Ht) as [[[o ->] Habs]|[[r ->] Habs]]; cbn [stored_by].
  - exists [], (stored_in slot peer [(slot0, (from, body raw))]).
    split; [simpl; by rewrite !app_nil_r|]. split; [simpl; unfold stored_in; by rewrite omap_app|]. left.
    simpl. rewrite (queue_at_insert slot _ _ _ _ _ Hq Habs). case_decide as Hs; [|by rewrite app_nil_r].
    subst. rewrite (queue_at_eq _ _ _ Hq). unfold bodies_from. by rewrite omap_app.
  - apply effect_none; [done|]. unfold queue_at. by rewrite Habs.
Qed.

(** A receive call looks into its mailbox. *)
Lemma effect_recv_lock k slot s i ID slot0 from accept rcv t' sh' call ev :
  slot_of k = Some slot -> sess_ok s -> ss_tasks s !! i = Some (RecvLock ID slot0 from accept rcv) ->
  task_step DEPTH MAX_BODY (RecvLock ID slot0 from accept rcv) (ss_shared s) = Some (t', sh') ->
  (ss_call s = Some (k, i) /\ client_takes k i t' = Some (call, ev) \/
   ss_call s <> Some (k, i) /\ omap (body_event k) ev = []) ->
  effect k slot s (after_task sh' (<[i := t']> (ss_tasks s)) call ev [] [] s).
Proof.
  intros Hk ((Hsh & Hok & _) & _ & _ & _ & Hc) Hi Ht Hcl.
  pose proof (Forall_lookup_1 _ _ _ _ Hok Hi) as [Hlt _]. simpl in Hsh.
  destruct (shared_queue _ _ _ _ _ Hsh Hlt) as [q Hq].
  destruct (recv_lock_queue _ _ _ _ _ _ _ _ _ _ _ _ Hsh Hq Ht)
    as [(m & b & q1 & q2 & -> & Hb & -> & Hq1 & Habs)|(-> & Habs & _)].
  - pose proof (queue_at_insert slot _ _ _ _ _ Hq Habs) as Hnew.
    destruct Hcl as [[Hcall Htk]|[Hcall Hev]].
    + simpl in Htk. rewrite Hb in Htk. injection Htk as <- <-.
      destruct (Hc k i Hcall) as (slot' & rcv' & Hs' & [Hi'|Hi']); rewrite Hi in Hi'; simplify_eq.
      exists [b], []. simpl. unfold bodies. rewrite omap_app, !app_nil_r. simpl.
      split; [by destruct k|]. split; [done|]. left. rewrite Hnew, decide_True by done.
      rewrite (queue_at_eq _ _ _ Hq), (bodies_from_pop _ (fun _ => true)) by done. done.
    + exists [], []. simpl. unfold bodies. rewrite omap_app, Hev, !app_nil_r. split_and!; [done..|].
      rewrite Hnew. case_decide as Hs; [|by left]. subst slot0. rewrite (queue_at_eq _ _ _ Hq).
      destruct (Z.eqb_spec from peer) as [->|Hne].
      * right. split_and!; [done..| |by eexists i, _, _, _]. apply omap_sublist.
        apply sublist_app; [done|]. by apply sublist_cons.
      * left. assert (body_from peer (from, b) = None) as Hno
          by (unfold body_from; simpl; by rewrite (proj2 (Z.eqb_neq _ _) Hne)).
        unfold bodies_from. rewrite !omap_app. simpl. by rewrite Hno.
  - apply effect_none; [|unfold queue_at; by rewrite Habs].
    destruct Hcl as [[_ Htk]|[_ Hev]]; [|done]. by injection Htk as <- <-.
Qed.

Lemma takes_other_kind k k' i t' call ev :
  client_takes k' i t' = Some (call, ev) -> k' <> k -> omap (body_event k) ev = [].
Proof.
  intros [[_ (r & e & _ & _ & ->)]|(_ & -> & _)]%client_takes_ok Hne; [|done].
  simpl. unfold body_event, event_of. by rewrite decide_False by congruence.
Qed.

(** The other steps of a call leave the queues alone, and the client is not
    given anything. *)
Lemma effect_quiet k slot s i t t' sh' call ev :
  (forall ID sl from accept rcv, t <> RecvLock ID sl from accept rcv) ->
  (forall from raw sl, t <> IngLock from raw sl) ->
  task_step DEPTH MAX_BODY t (ss_shared s) = Some (t', sh') ->
  (ev = [] \/ exists k', client_takes k' i t' = Some (call, ev) /\ receives t <> None) ->
  effect k slot s (after_task sh' (<[i := t']> (ss_tasks s)) call ev [] (stored_by t t') s).
Proof.
  intros Hnr Hni Ht Hev.
  assert (stored_by t t' = []) as -> by (destruct t; try done; by edestruct Hni).
  apply effect_none.
  - destruct Hev as [->|(k' & Htk & Hr)]; [done|].
    destruct t as [| | |ID sl from accept rcv|ID sl from accept rcv| |]; try done; [by edestruct Hnr|].
    simpl in Ht. destruct (sh_notify _ !! sl) as [w|]; simplify_eq/=.
    by destruct (watch_changed rcv w); simplify_eq/=.
  - destruct t as [| | |ID sl from accept rcv|ID sl from accept rcv| |]; simpl in Ht; try done;
      [by edestruct Hni| |by edestruct Hnr|].
    + destruct (notify_slot slot0 _); by simplify_eq/=.
    + destruct (sh_notify _ !! sl) as [w|]; simplify_eq/=. by destruct (watch_changed rcv w); simplify_eq/=.
Qed.

Lemma effect_task_step k slot i s s' :
  slot_of k = Some slot -> sess_ok s -> sstep (ActStep i) s = Some s' -> effect k slot s s'.
Proof.
  intros Hk Hok Hs. pose proof Hok as (_ & _ & _ & _ & Hc). unfold session_step in Hs.
  destruct (ss_tasks s !! i) as [t|] eqn:Hi; simpl in Hs; [|done].
  destruct (task_step DEPTH MAX_BODY t (ss_shared s)) as [[t' sh']|] eqn:Ht; simpl in Hs; [|done].
  assert (exists call ev, s' = after_task sh' (<[i := t']> (ss_tasks s)) call ev [] (stored_by t t') s /\
    ((exists k', ss_call s = Some (k', i) /\ client_takes k' i t' = Some (call, ev)) \/
     (forall k', ss_call s <> Some (k', i)) /\ call = ss_call s /\ ev = [])) as (call & ev & -> & Hcl).
  { destruct (ss_call s) as [[k' j]|]; simpl in Hs; [case_decide as Hij|].
    - destruct (client_takes k' i t') as [[call ev]|] eqn:Htk; simplify_eq/=. eexists _, _. split; [done|].
      left. by exists k'.
    - injection Hs as <-. eexists _, _. split; [done|]. right. split_and!; [congruence|done..].
    - injection Hs as <-. eexists _, _. split; [done|]. by right. }
  destruct t as [from raw sl|sl o|r|ID sl from accept rcv|ID sl from accept rcv|r|].
  1: { destruct Hcl as [(k' & Hcall & _)|(_ & -> & ->)]; [|by eapply effect_ing_lock].
    destruct (Hc k' i Hcall) as (? & ? & _ & [Hx|Hx]); by rewrite Hi in Hx. }
  3: { eapply effect_recv_lock; [done..|]. destruct Hcl as [(k' & Hcall & Htk)|(Hn & _ & ->)]; [|by right].
    destruct (decide (k' = k)) as [->|Hne]; [by left|right]. split; [congruence|by eapply takes_other_kind]. }
  all: try done; (eapply effect_quiet; [done..|]);
    (destruct Hcl as [(k' & Hcall & Htk)|(_ & _ & ->)]; [right|by left]);
    exists k'; (split; [done|]); destruct (Hc k' i Hcall) as (? & ? & _ & [Hx|Hx]); rewrite Hi in Hx; by simplify_eq.
Qed.

Lemma session_effect k slot a s s' :
  slot_of k = Some slot -> sess_ok s -> sstep a s = Some s' -> effect k slot s s'.
Proof.
  intros Hk Hok Hs.
  destruct a as [from payload|i|i|ID from accept|ID to v|m|k'|]; [|by eapply effect_task_step|..];
    unfold session_step in Hs.
  - injection Hs as <-. by apply effect_none.
  - destruct (ss_tasks s !! i) as [t|]; simpl in Hs; [|done].
    destruct (task_drop t (ss_shared s)) as [sh'|] eqn:Ht; simpl in Hs; [|done].
    case_decide; [done|]. injection Hs as <-. apply effect_none; [done|]. by eapply task_drop_queue.
  - destruct (spawn_recv MESSAGE_IDS ID from accept (ss_shared s)) as [t sh'] eqn:Ht. injection Hs as <-.
    apply effect_none; [done|]. by eapply spawn_recv_queue.
  - case_decide; [|done].
    destruct (tx_send_capnp _ _ _ _ _ _) as [[u|e|] tx']; simplify_eq; exists [], []; simpl;
      rewrite !app_nil_r; (split_and!; [done..|by left]).
  - destruct (ss_call s); [done|]. case_decide; [|done].
    destruct (ft_send_to _ _ _ _ _) as [[u|e|] tx']; simplify_eq; apply effect_send.
  - destruct (ss_call s); [done|].
    destruct (ft_recv_next_from A MESSAGE_IDS peer k' (ss_shared s)) as [t sh'] eqn:Ht.
    destruct (client_takes k' (length (ss_tasks s)) t) as [[call ev]|] eqn:Htk; simplify_eq/=.
    apply effect_none; [|by eapply spawn_recv_queue].
    apply client_takes_ok in Htk as [[-> (r & e & -> & He & ->)]|(_ & -> & _)]; [|done].
    destruct (spawn_recv_sourced s _ _ _ _ _ _ Ht) as [_ [(? & ? & _ & ?)|(r' & [= <-] & Hn)]]; [done|].
    destruct r as [m|err|]; [by destruct (Hn m)| |done]. injection He as <-.
    simpl. unfold body_event, event_of. by case_decide.
  - destruct (ss_call s) as [[k' i]|]; simpl in Hs; [|done].
    destruct (ss_tasks s !! i) as [t|]; simpl in Hs; [|done].
    destruct (task_drop t (ss_shared s)) as [sh'|] eqn:Ht; simpl in Hs; [|done]. injection Hs as <-.
    apply effect_none; [|by eapply task_drop_queue]. simpl. unfold body_event, event_of. by case_decide.
Qed.

(** ** A mailbox only the client reads *)

Lemma same_slot_id ID ID' slot :
  slot_for_id MESSAGE_IDS ID = Some slot -> slot_for_id MESSAGE_IDS ID' = Some slot -> ID = ID'.
Proof. intros [H1' _]%slot_for_id_Some [H2' _]%slot_for_id_Some. congruence. Qed.

Lemma kind_id_inj k k' : NoDup (FileTransferBundle_MESSAGE_IDS A) -> kind_id A k = kind_id A k' -> k = k'.
Proof.
  unfold FileTransferBundle_MESSAGE_IDS. intros Hnd Hk.
  apply NoDup_cons in Hnd as [Hr Hnd]. apply NoDup_cons in Hnd as [Hc _].
  destruct k, k'; simpl in Hk; try done; exfalso; (apply Hr + apply Hc);
    rewrite !elem_of_cons; solve [auto].
Qed.

(** Every call that waits for the peer's messages of the type is the client's. *)
Definition exclusive (k : FtKind) (slot : nat) s : Prop :=
  forall j t ID, ss_tasks s !! j = Some t -> receives t = Some (ID, slot, peer) -> ss_call s = Some (k, j).

Lemma exclusive_insert k slot s sh i t t' call ev ing st :
  exclusive k slot s -> ss_tasks s !! i = Some t ->
  (receives t' = receives t \/ receives t' = None) ->
  (receives t' <> None -> call = ss_call s) -> (forall j, j <> i -> ss_call s = Some (k, j) -> call = ss_call s) ->
  exclusive k slot (after_task sh (<[i := t']> (ss_tasks s)) call ev ing st s).
Proof.
  intros Hex Hi Hr Hc Ho j t0 ID Hj Hr0. simpl in *.
  apply list_lookup_insert_Some in Hj as [(<- & <- & _)|[Hne Hj]].
  - destruct Hr as [Hr|Hr]; [|congruence]. rewrite Hc by congruence. eapply Hex; [done|]. by rewrite <- Hr.
  - pose proof (Hex j t0 ID Hj Hr0) as Hcall. by rewrite (Ho j) by done.
Qed.

Lemma exclusive_snoc k slot s sh t call ev ing st :
  exclusive k slot s ->
  (forall ID, receives t = Some (ID, slot, peer) -> call = Some (k, length (ss_tasks s))) ->
  (ss_call s <> None -> call = ss_call s) ->
  exclusive k slot (after_task sh (ss_tasks s ++ [t]) call ev ing st s).
Proof.
  intros Hex Ht Hc j t0 ID Hj Hr. simpl in *.
  apply lookup_snoc_Some in Hj as [[_ Hj]|[-> <-]]; [|by eapply Ht].
  pose proof (Hex j t0 ID Hj Hr) as Hcall. rewrite Hc by congruence. done.
Qed.

Lemma step_receives t (sh : Shared W) t' sh' :
  task_step DEPTH MAX_BODY t sh = Some (t', sh') -> receives t' = receives t \/ receives t' = None.
Proof.
  intros Ht. destruct (receives t) as [[[ID slot] from]|] eqn:Hr.
  - destruct t; simplify_eq/=;
      (edestruct recv_step_shape as [[r ->]|(rcv' & [-> | ->])]; [by (left + right)|by auto..]).
  - right. by apply (ing_step_shape _ _ _ _ Hr Ht).
Qed.

Lemma exclusive_step k slot a s s' :
  NoDup (FileTransferBundle_MESSAGE_IDS A) -> slot_of k = Some slot -> sess_ok s -> exclusive k slot s ->
  (forall accept, a <> ActRecvOther (kind_id A k) peer accept) ->
  sstep a s = Some s' -> exclusive k slot s'.
Proof.
  intros Hnd Hk (_ & _ & _ & _ & Hc) Hex Ha Hs.
  destruct a as [from payload|i|i|ID from accept|ID to v|m|k'|]; unfold session_step in Hs.
  - injection Hs as <-. apply exclusive_snoc; try done. intros ID.
    unfold spawn_ingest. by destruct (ingest_decode _ _) as [[raw sl]|e|].
  - destruct (ss_tasks s !! i) as [t|] eqn:Hi; simpl in Hs; [|done].
    destruct (task_step DEPTH MAX_BODY t (ss_shared s)) as [[t' sh']|] eqn:Ht; simpl in Hs; [|done].
    pose proof (step_receives _ _ _ _ Ht) as Hr.
    destruct (ss_call s) as [[k' j]|] eqn:Hcall; simpl in Hs; [case_decide as Hij|];
      [|injection Hs as <-; by eapply exclusive_insert..].
    destruct (client_takes k' i t') as [[call ev]|] eqn:Htk; simplify_eq/=.
    eapply exclusive_insert; [done..| |congruence].
    apply client_takes_ok in Htk as [[-> (r & e & -> & _)]|(-> & _ & _)]; [done|by rewrite Hcall].
  - destruct (ss_tasks s !! i) as [t|] eqn:Hi; simpl in Hs; [|done].
    destruct (task_drop t (ss_shared s)) as [sh'|]; simpl in Hs; [|done].
    case_decide; [done|]. injection Hs as <-. eapply exclusive_insert; eauto.
  - destruct (spawn_recv MESSAGE_IDS ID from accept (ss_shared s)) as [t sh'] eqn:Ht. injection Hs as <-.
    apply exclusive_snoc; try done. intros ID' Hr. exfalso.
    destruct (spawn_recv_sourced s _ _ _ _ _ _ Ht) as [_ [(sl & rcv & Hsl & ->)|(r & -> & _)]]; [|done].
    simplify_eq/=. rewrite (same_slot_id _ _ _ Hsl Hk) in Ha. by edestruct Ha.
  - case_decide; [|done]. destruct (tx_send_capnp _ _ _ _ _ _) as [[u|e|] tx']; by simplify_eq.
  - destruct (ss_call s) eqn:Hcall; [done|]. case_decide; [|done].
    destruct (ft_send_to _ _ _ _ _) as [[u|e|] tx']; simplify_eq; intros j t ID Hj Hr; eapply Hex; eauto.
  - destruct (ss_call s) eqn:Hcall; [done|].
    destruct (ft_recv_next_from A MESSAGE_IDS peer k' (ss_shared s)) as [t sh'] eqn:Ht.
    destruct (client_takes k' (length (ss_tasks s)) t) as [[call ev]|] eqn:Htk; simplify_eq/=.
    apply exclusive_snoc; [done| |by rewrite Hcall]. intros ID Hr.
    destruct (spawn_recv_sourced s _ _ _ _ _ _ Ht) as [_ [(sl & rcv & Hsl & ->)|(r & -> & _)]]; [|done].
    simplify_eq/=. pose proof (same_slot_id _ _ _ Hsl Hk) as Hid.
    by rewrite (kind_id_inj _ _ Hnd Hid).
  - destruct (ss_call s) as [[k' i]|] eqn:Hcall; simpl in Hs; [|done].
    destruct (ss_tasks s !! i) as [t|] eqn:Hi; simpl in Hs; [|done].
    destruct (task_drop t (ss_shared s)) as [sh'|]; simpl in Hs; [|done]. injection Hs as <-.
    eapply exclusive_insert; eauto; [done|]. congruence.
Qed.

(** ** Runs *)

Abbreviation run := (session_run A MESSAGE_IDS DEPTH MAX_BODY peer timeout).

Lemma session_run_inv (P : Session Node W R -> Prop) acts s s' :
  (forall a s1 s2, a ∈ acts -> sess_ok s1 -> P s1 -> sstep a s1 = Some s2 -> P s2) ->
  sess_ok s -> P s -> run acts s = Some s' -> sess_ok s' /\ P s'.
Proof.
  revert s. induction acts as [|a acts IH]; simpl; intros s HP Hok Hs Hrun; [by simplify_eq|].
  destruct (sstep a s) as [s1|] eqn:Ha; simplify_eq/=. apply (IH s1); [|by eapply session_step_ok| |done].
  - intros a0 ? ? Ha0. apply HP. by right.
  - eapply HP; [|done..]. by left.
Qed.

Lemma session_run_ok acts s s' : sess_ok s -> run acts s = Some s' -> sess_ok s'.
Proof. intros Hok Hrun. by apply (session_run_inv (fun _ => True) acts s s') in Hrun as [? _]. Qed.

Definition delivered_of (k : FtKind) (slot : nat) s : list bytes :=
  bodies k (ss_trace s) ++ bodies_from peer (queue_at slot (ss_shared s)).

Lemma effect_sublist k slot s s' :
  effect k slot s s' -> delivered_of k slot s `sublist_of` stored_in slot peer (ss_stored s) ->
  delivered_of k slot s' `sublist_of` stored_in slot peer (ss_stored s').
Proof.
  unfold delivered_of. intros (nt & ns & -> & -> & [Heq|(-> & -> & Hsub & _)]) Hs.
  - rewrite <- app_assoc, Heq, app_assoc. by apply sublist_app.
  - rewrite !app_nil_r. etrans; [|exact Hs]. by apply sublist_app.
Qed.

Lemma effect_exact k slot s s' :
  effect k slot s s' -> exclusive k slot s -> delivered_of k slot s = stored_in slot peer (ss_stored s) ->
  delivered_of k slot s' = stored_in slot peer (ss_stored s').
Proof.
  unfold delivered_of. intros (nt & ns & -> & -> & [Heq|(_ & _ & _ & i & ID & accept & rcv & Hi & Hn)]) Hex Hs.
  - by rewrite <- app_assoc, Heq, app_assoc, Hs.
  - destruct Hn. by eapply Hex.
Qed.
End invariant.

(** * Theorems *)

Section theorems.
Context {Node E W R CapnpError : Type} `{IsoTpEndpoint Node E} `{WatchLaws W R} `{Capnp CapnpError}.
Context (A : Atlas) (MESSAGE_IDS : list u16) (DEPTH MAX_BODY MAX_WAITERS : nat).
Context (peer : u8) (timeout : Duration).
Implicit Types s : Session Node W R.
Abbreviation init := (session_init (R := R) MESSAGE_IDS DEPTH MAX_BODY MAX_WAITERS).
Abbreviation run := (session_run A MESSAGE_IDS DEPTH MAX_BODY peer timeout).
Abbreviation slot_of k := (slot_for_id MESSAGE_IDS (kind_id A k)).

Lemma run_init_ok acts (node : Node) buf s :
  run acts (init node buf) = Some s -> sess_ok A MESSAGE_IDS DEPTH MAX_BODY peer s.
Proof. intros Hrun. eapply session_run_ok; [|done]. apply session_init_ok. Qed.

Lemma init_delivered k slot (node : Node) buf :
  delivered_of peer k slot (init node buf) = stored_in slot peer (ss_stored (init node buf)).
Proof.
  unfold delivered_of, queue_at. simpl. rewrite rx_abs_new.
  destruct (replicate _ [] !! slot) as [q|] eqn:Hq; [|done]. by apply lookup_replicate in Hq as [-> _].
Qed.

Lemma run_sublist acts (node : Node) buf s k slot :
  run acts (init node buf) = Some s -> slot_of k = Some slot ->
  delivered_of peer k slot s `sublist_of` stored_in slot peer (ss_stored s).
Proof.
  intros Hrun Hk.
  apply (session_run_inv A MESSAGE_IDS DEPTH MAX_BODY peer timeout
    (fun s => delivered_of peer k slot s `sublist_of` stored_in slot peer (ss_stored s))) in Hrun as [_ ?]; [done|..].
  - intros a s1 s2 _ Hok Hs Hst. eapply effect_sublist; [|done]. by eapply session_effect.
  - apply session_init_ok.
  - by rewrite init_delivered.
Qed.

Lemma run_exact acts (node : Node) buf s k slot :
  run acts (init node buf) = Some s -> slot_of k = Some slot ->
  NoDup (FileTransferBundle_MESSAGE_IDS A) ->
  (forall accept, ActRecvOther (kind_id A k) peer accept ∉ acts) ->
  delivered_of peer k slot s = stored_in slot peer (ss_stored s).
Proof.
  intros Hrun Hk Hnd Hno.
  apply (session_run_inv A MESSAGE_IDS DEPTH MAX_BODY peer timeout
    (fun s => exclusive peer k slot s /\ delivered_of peer k slot s = stored_in slot peer (ss_stored s)))
    in Hrun as (_ & _ & ?); [done|..].
  - intros a s1 s2 Ha Hok [Hex Hs] Hst. split.
    + eapply exclusive_step; [done..| |done]. intros accept ->. by apply (Hno accept).
    + eapply effect_exact; [by eapply session_effect|done..].
  - apply session_init_ok.
  - split; [by intros j t ID|apply init_delivered].
Qed.

Lemma stored_in_elem slot x st : x ∈ stored_in slot peer st -> (slot, (peer, x)) ∈ st.
Proof.
  unfold stored_in, body_from. intros ([sl [f b]] & Hin & Hx)%list_elem_of_omap. simpl in Hx.
  case_decide; [|done]. destruct (Z.eqb_spec f peer); by simplify_eq.
Qed.

Lemma stored_payload acts (node : Node) buf s k slot x :
  run acts (init node buf) = Some s -> slot_of k = Some slot -> x ∈ stored_in slot peer (ss_stored s) ->
  exists p, (peer, p) ∈ ss_ingested s /\ decode_wire p = Ok {| id := kind_id A k; body := x |}.
Proof.
  intros Hrun Hk Hx%stored_in_elem. destruct (run_init_ok _ _ _ _ Hrun) as (_ & _ & Hst & _).
  eapply Forall_forall in Hst as (p & raw & Hin & Hd & Hsl & Hb); [|done]. simpl in *.
  exists p. split; [done|]. rewrite Hd. f_equal. destruct raw as [i b]. simpl in *. subst b. f_equal.
  by eapply same_slot_id.
Qed.

(** C10. The receive calls of a task refine a first-in first-out queue per
    message type and sender: under any interleaving with other tasks that
    ingest, receive, send and are dropped, and with its own calls timing out,
    the bodies the task was given, followed by those of the peer that still
    wait in the mailbox, are in order among those [ingest] stored, each at most
    once; when no other task receives that type from that peer, they are all of
    them.  Each was ingested under the type's id from that peer, and no call
    panics. *)
Theorem session_fifo acts (node : Node) buf s :
  run acts (init node buf) = Some s ->
  (forall k slot, slot_of k = Some slot ->
     let given := bodies k (ss_trace s) in
     let waiting := bodies_from peer (queue_at slot (ss_shared s)) in
     let stored := stored_in slot peer (ss_stored s) in
     (given ++ waiting) `sublist_of` stored /\
     (NoDup (FileTransferBundle_MESSAGE_IDS A) ->
      (forall accept, ActRecvOther (kind_id A k) peer accept ∉ acts) -> given ++ waiting = stored) /\
     (forall x, x ∈ stored -> exists p, (peer, p) ∈ ss_ingested s /\
        decode_wire p = Ok {| id := kind_id A k; body := x |})) /\
  ~ (IngDone Panic ∈ ss_tasks s) /\ ~ (RecvDone Panic ∈ ss_tasks s).
Proof.
  intros Hrun. split.
  - intros k slot Hk. split_and!; [by eapply run_sublist|by intros; eapply run_exact|].
    intros x. by eapply stored_payload.
  - destruct (run_init_ok _ _ _ _ Hrun) as ((_ & Hok & _) & _). simpl in Hok. rewrite Forall_forall in Hok.
    split; intros Ht%Hok; by apply Ht.
Qed.

(** What the client was given in the mailbox of a type. *)
Lemma event_body k x tr : Body x ∈ omap (event_of k) tr -> x ∈ bodies k tr.
Proof.
  intros (e & He & Hx)%list_elem_of_omap. apply list_elem_of_omap. exists e. split; [done|].
  unfold body_event. by rewrite Hx.
Qed.

(** ... came in a payload of the peer. *)
Lemma given_payload acts (node : Node) buf s k x :
  run acts (init node buf) = Some s -> kind_id A k ∈ MESSAGE_IDS ->
  Body x ∈ omap (event_of k) (ss_trace s) ->
  exists p, (peer, p) ∈ ss_ingested s /\ decode_wire p = Ok {| id := kind_id A k; body := x |}.
Proof.
  intros Hrun Hk Hx%event_body. destruct (slot_of k) as [slot|] eqn:Hs; [|by apply slot_for_id_None in Hs].
  eapply stored_payload; [done..|]. pose proof (run_sublist _ _ _ _ _ _ Hrun Hs) as Hsub.
  eapply elem_of_sublist; [|exact Hsub]. apply elem_of_app. by left.
Qed.
End theorems.
