(* ===== verification/FtOnBus.v ===== *)
(** * A file transfer between two nodes

    The sender and the receiver of the file transfer
    ([thincan-file-transfer/src/tokio_impl.rs]), each the client of a session
    ([FtSession]) on its own node: encoding into the node's transmit buffer,
    the ISO-TP node, the pump's [ingest], the mailboxes and the receive calls
    are the definitions of [Wire], [Interface], [Mailbox] and [BusSystem], with
    any other tasks on both nodes.  Of the network between the two ISO-TP nodes
    only this is assumed: a payload that arrives from a node was handed to that
    node for the receiver (it may be lost, repeated, delayed and reordered). *)
From S2P Require Import Prelude Script Wire Maplet Mailbox Interface BusSystem FtSchema FtBus FtSender FtReceiver FtMemoryStore FtEndToEnd FtSession FtLossless.

(** * From a payload to the message it carries *)

Section payloads.
Context {CapnpError : Type} `{HL : CapnpLaws CapnpError}.
Context (A : Atlas) (Hu16 : Forall is_u16 (FileTransferBundle_MESSAGE_IDS A))
  (Hnd : NoDup (FileTransferBundle_MESSAGE_IDS A)).

Lemma kind_id_u16 k : is_u16 (kind_id A k).
Proof.
  unfold FileTransferBundle_MESSAGE_IDS in Hu16. rewrite !Forall_cons in Hu16.
  destruct Hu16 as (? & ? & ? & _). by destruct k.
Qed.

Lemma payload_decodes {V} `{EncodeKeepsLength V} ID (v : V) buf p :
  is_u16 ID -> payload_in ID v buf = Some p ->
  exists used out, encode v (take (max_encoded_len v) (drop HEADER_LEN buf)) = (Ok used, out) /\
    decode_wire p = Ok {| id := ID; body := take used out |}.
Proof.
  intros HID. unfold payload_in. destruct (encode_capnp_into_buf ID v buf) as [[q|e|] b] eqn:Henc; [|done..].
  intros [= ->]. destruct (encode_capnp_into_buf_Ok _ _ _ _ _ HID Henc) as (used & out & ? & _ & _ & ? & _).
  by exists used, out.
Qed.

(** Without a heap shared between calls, the encoders start from an empty
    scratch. *)
Lemma encode_nostd_alloc {V} (build : V -> bytes -> option (list bytes * bytes)) v n out used out' :
  encode_alloc_nostd build v n out = (Ok used, out') ->
  exists words', encode_alloc build v n ([], out) = (Ok used, (words', out')).
Proof.
  unfold encode_alloc_nostd, encode_alloc. destruct (_ <? _); [done|].
  unfold with_capnp_scratch_bytes_nostd, with_capnp_scratch_bytes.
  destruct (with_scratch_prefix _ _ _) as [r [w o]]. intros [= -> ->]. by exists w.
Qed.

(** The payload of a message carries its body under its id. *)
Lemma ft_payload_body m buf p :
  ft_payload A m buf = Some p ->
  exists x, decode_wire p = Ok {| id := kind_id A (msg_kind m); body := x |} /\ body_of m x.
Proof.
  intros Hp. assert (HID := kind_id_u16 (msg_kind m)).
  destruct m as [v|v|v]; cbn [ft_payload msg_kind kind_id] in *;
    destruct (payload_decodes _ _ _ _ HID Hp) as (used & out & Henc & Hd);
    apply encode_nostd_alloc in Henc as [w Henc];
    (exists (take used out); split; [done|]); by eexists [], _, used, w, out.
Qed.

(** Another task's message arrives as it is. *)
Lemma raw_payload_body ID v buf p :
  is_u16 ID -> payload_in ID v buf = Some p -> decode_wire p = Ok {| id := ID; body := raw_body v |}.
Proof.
  intros HID Hp. destruct (payload_decodes _ _ _ _ HID Hp) as (used & out & Henc & Hd). rewrite Hd. do 2 f_equal.
  unfold encode, RawBody_EncodeCapnp, copy_from_slice in Henc. unfold_M.
  destruct (copy_at _ 0 (raw_body v)) as [o|] eqn:Ho; [|done]. injection Henc as <- <-.
  unfold copy_at in Ho. case_decide; [|done]. injection Ho as <-. simpl.
  by rewrite take_app_length.
Qed.
End payloads.

(** * Two sessions and a network *)

(** What the client of a session sent is in the log of the protocol code that
    played it. *)
Lemma played_tried tr L m r : played tr L -> EvSend m r ∈ tr -> tried m L.
Proof.
  intros Hp Hm. assert (log_entry (EvSend m r) ∈ L) as Hin.
  { assert (log_entry (EvSend m r) ∈ bus_entries L) as Hb.
    { rewrite Hp. by apply list_elem_of_fmap_2. }
    unfold bus_entries in Hb. apply list_elem_of_In, filter_In in Hb as [Hb _]. by apply list_elem_of_In. }
  destruct r as [e|]; [right; by exists e|by left].
Qed.

Section network.
Context {Node E W R CapnpError : Type}.

(** A payload that arrives from [from] at the node [to] was handed to the
    sending node for it. *)
Definition carries (from to : u8) (src dst : Session Node W R) : Prop :=
  forall p, (from, p) ∈ ss_ingested dst -> (to, p) ∈ ss_handed src.

(** No other task of the node sends messages of the transfer [tid]. *)
Definition foreign `{Capnp CapnpError} (A : Atlas) (tid : u32) (others : list (u16 * bytes)) : Prop :=
  (forall x root, (FileReq_ID A, x) ∈ others -> read_file_req x = inl root -> req_get_transfer_id root <> tid) /\
  (forall x root, (FileChunk_ID A, x) ∈ others -> read_file_chunk x = inl root -> chunk_get_transfer_id root <> tid) /\
  (forall x a, (FileAck_ID A, x) ∈ others -> decode_file_ack x = Ok a -> ack_transfer_id a <> tid).
End network.

Section over_bus.
Context {Node E W R T CapnpError : Type} `{IsoTpEndpoint Node E} `{WatchLaws W R}.
Context `{HS : Sha256Laws T} `{HD : !DigestLength T}.
Context `{HL : CapnpLaws CapnpError} `{HC : !CapnpReadsU32 CapnpError}.
Context (A : Atlas) (Hu16 : Forall is_u16 (FileTransferBundle_MESSAGE_IDS A))
  (Hnd : NoDup (FileTransferBundle_MESSAGE_IDS A)).

(** A node of the application: its maplet, which has the file-transfer bundle,
    its mailboxes and its address. *)
Record NodeConfig := {
  nc_ids : list u16; nc_depth : nat; nc_max_body : nat; nc_max_waiters : nat; nc_addr : u8;
}.
Definition node_session (c : NodeConfig) (peer : u8) (timeout : Duration) (node : Node) (buf : bytes)
    (acts : list SessAction) (s : Session Node W R) : Prop :=
  FileTransferBundle_MESSAGE_IDS A ⊆ nc_ids c /\
  session_run A (nc_ids c) (nc_depth c) (nc_max_body c) peer timeout acts
    (session_init (nc_ids c) (nc_depth c) (nc_max_body c) (nc_max_waiters c) node buf) = Some s.

Lemma kind_in_bundle k : kind_id A k ∈ FileTransferBundle_MESSAGE_IDS A.
Proof. unfold FileTransferBundle_MESSAGE_IDS. rewrite !elem_of_cons. destruct k; simpl; auto. Qed.

Section directed.
Context (src dst : NodeConfig) (ts td : Duration) (ns nd : Node) (bs bd : bytes) (acs acd : list SessAction).
Context (ss sd : Session Node W R) (tid : u32) (L : list LogEntry).
Context (Hsrc : node_session src (nc_addr dst) ts ns bs acs ss).
Context (Hdst : node_session dst (nc_addr src) td nd bd acd sd).
Context (Hnet : carries (nc_addr src) (nc_addr dst) ss sd).
Context (Hplay : played (ss_trace ss) L) (Hfor : foreign A tid (ss_others ss)).

(** A body the receiving client was given is one the sending client sent, or
    one of another task. *)
Lemma given_tried k x :
  Body x ∈ omap (event_of k) (ss_trace sd) ->
  (exists m, tried m L /\ msg_typed m /\ msg_kind m = k /\ body_of m x) \/ (kind_id A k, x) ∈ ss_others ss.
Proof.
  intros Hx. destruct Hdst as [Hin Hrun].
  destruct (given_payload _ _ _ _ _ _ _ _ _ _ _ _ _ Hrun (Hin _ (kind_in_bundle k)) Hx) as (p & Hp & Hd).
  apply Hnet in Hp. destruct Hsrc as [_ Hruns].
  destruct (run_init_ok _ _ _ _ _ _ _ _ _ _ _ Hruns) as (_ & _ & _ & Henc & _).
  eapply Forall_forall in Henc; [|exact Hp].
  destruct Henc as [(m & r & buf & Hm & Ht & Hpay)|(ID & v & buf & Ho & HID & Hpay)]; simpl in *.
  - left. exists m. destruct (ft_payload_body A Hu16 _ _ _ Hpay) as (y & Hy & Hbody).
    rewrite Hd in Hy. injection Hy as Hk ->. split_and!; [by eapply played_tried|done| |done].
    symmetry. by apply (kind_id_inj A).
  - right. rewrite (raw_payload_body _ _ _ _ HID Hpay) in Hd. by injection Hd as <- <-.
Qed.

Lemma bus_requests_from : requests_from tid L (req_events (script_of (ss_trace sd))).
Proof.
  intros x root Hx Hr Hi. destruct (given_tried KReq x Hx) as [(m & Hm & _ & Hk & Hb)|Ho].
  - destruct m as [v|v|v]; try done. by exists v.
  - by destruct (proj1 Hfor x root Ho Hr).
Qed.
Lemma bus_chunks_from : chunks_from tid L (chunk_events (script_of (ss_trace sd))).
Proof.
  intros x root Hx Hr Hi. destruct (given_tried KChunk x Hx) as [(m & Hm & _ & Hk & Hb)|Ho].
  - destruct m as [v|v|v]; try done. by exists v.
  - by destruct (proj1 (proj2 Hfor) x root Ho Hr).
Qed.
Lemma bus_acks_from : acks_from tid L (ack_events (script_of (ss_trace sd))).
Proof.
  intros x a Hx Hr Hi. destruct (given_tried KAck x Hx) as [(m & Hm & Ht & Hk & Hb)|Ho].
  - destruct m as [v|v|v]; try done. by exists v.
  - by destruct (proj2 (proj2 Hfor) x a Ho Hr).
Qed.
End directed.

Lemma call_log_script tr b' : call_log (script_of tr) b' = log b'.
Proof. done. Qed.

Context {St Handle SE : Type} `{AsyncFileStore St Handle SE}.

(** The two calls, each on its session: a receiver that returns [Ok] has
    committed the sender's file, and so has the receiver of a sender that
    returns [Ok]. *)
Lemma transfer_over_sessions (src dst : NodeConfig) ts td ns nd bs bd acs acd ss sd
    tid file config sst rs sst' sb' buffers receiver (s : St) r s' b' :
  node_session src (nc_addr dst) ts ns bs acs ss -> node_session dst (nc_addr src) td nd bd acd sd ->
  carries (nc_addr src) (nc_addr dst) ss sd -> carries (nc_addr dst) (nc_addr src) sd ss ->
  foreign A tid (ss_others ss) -> foreign A tid (ss_others sd) ->
  is_u32 tid ->
  send_file_with_id_impl digest tid file config (sst, script_of (ss_trace ss)) = (rs, (sst', sb')) ->
  played (ss_trace ss) (log sb') ->
  recv_call (T := T) (CapnpError := CapnpError) buffers receiver (s, script_of (ss_trace sd)) = (r, (s', b')) ->
  played (ss_trace sd) (log b') ->
  (forall res, r = Ok res -> got_transfer_id res = tid ->
     status (log b') = Committed /\ written (log b') = file) /\
  (forall res, rs = Ok res -> file <> [] -> status (log b') = Committed /\ written (log b') = file).
Proof.
  intros Hs Hd Hsd Hds Hfs Hfd Htid Hsend Hps Hrecv Hpd.
  pose proof (bus_requests_from src dst ts td ns nd bs bd acs acd ss sd tid _ Hs Hd Hsd Hps Hfs) as Hreq.
  pose proof (bus_chunks_from src dst ts td ns nd bs bd acs acd ss sd tid _ Hs Hd Hsd Hps Hfs) as Hch.
  pose proof (bus_acks_from dst src td ts nd ns bd bs acd acs sd ss tid _ Hd Hs Hds Hpd Hfd) as Hack.
  rewrite <- call_log_script with (tr := ss_trace ss) in Hreq, Hch.
  split.
  - intros res -> <-. destruct (received_file _ file _ _ _ _ _ _ Hrecv) as (_ & Hst & Hw); [..|by split].
    + by eapply sender_chunks.
    + by eapply sender_requests.
  - intros res -> Hne. exact (sent_file _ _ _ _ _ _ _ _ _ _ _ _ _ _ _ Htid Hne Hsend Hrecv Hreq Hch Hack).
Qed.
End over_bus.
