(* ===== verification/FtNetwork.v ===== *)
(** * Two nodes and the network between them, run step by step

    The two sessions of a file transfer ([FtSession]) as one system: a step is
    an action on one of the two nodes, and a payload arrives from the other
    node only after that node was handed it.  [FtOnBus] shows that whatever
    such a system does, a file that is received is the one sent; here the
    converse is shown, that the system can always transfer a file: for every
    file and every pair of configurations there is a run, through the encoders,
    transmit buffers, mailboxes and watches of both nodes, in which both calls
    return [Ok], provided the buffers hold the messages. *)
From S2P Require Import Prelude Script Wire Maplet Mailbox Interface BusSystem FtSchema FtBus FtSender FtReceiver FtMemoryStore FtEndToEnd FtLossless FtSession FtOnBus.

(** * The system *)

Section network.
Context {Node E W R CapnpError : Type} `{IsoTpEndpoint Node E} `{WatchOps W R} `{Capnp CapnpError}.
Context (A : Atlas) (ca cb : NodeConfig) (ta tb : Duration).
Abbreviation Sess := (Session Node W R).

Record Network := { net_a : Sess; net_b : Sess }.
Inductive NetAction := OnA (a : SessAction) | OnB (a : SessAction).

(** What arrives from the other node must have been handed to it. *)
Definition may_happen (from to : u8) (src : Sess) (a : SessAction) : bool :=
  match a with
  | ActIngest f p => negb (f =? from)%Z || bool_decide ((to, p) ∈ ss_handed src)
  | _ => true
  end.

Definition node_step (c : NodeConfig) (peer : u8) (t : Duration) (a : SessAction) (s : Sess) : option Sess :=
  session_step A (nc_ids c) (nc_depth c) (nc_max_body c) peer t a s.
Definition node_init (c : NodeConfig) (node : Node) (buf : bytes) : Sess :=
  session_init (nc_ids c) (nc_depth c) (nc_max_body c) (nc_max_waiters c) node buf.

Definition net_step (x : NetAction) (n : Network) : option Network :=
  match x with
  | OnA a =>
      if may_happen (nc_addr cb) (nc_addr ca) (net_b n) a then
        s ← node_step ca (nc_addr cb) ta a (net_a n); Some {| net_a := s; net_b := net_b n |}
      else None
  | OnB a =>
      if may_happen (nc_addr ca) (nc_addr cb) (net_a n) a then
        s ← node_step cb (nc_addr ca) tb a (net_b n); Some {| net_a := net_a n; net_b := s |}
      else None
  end.
Fixpoint net_run (l : list NetAction) (n : Network) : option Network :=
  match l with
  | [] => Some n
  | x :: l' => n' ← net_step x n; net_run l' n'
  end.
Definition net_init (node_a node_b : Node) (buf_a buf_b : bytes) : Network :=
  {| net_a := node_init ca node_a buf_a; net_b := node_init cb node_b buf_b |}.

Lemma net_run_app l1 l2 n : net_run (l1 ++ l2) n = n' ← net_run l1 n; net_run l2 n'.
Proof.
  revert n. induction l1 as [|x l1 IH]; intros n; [done|]. simpl. destruct (net_step x n); [apply IH|done].
Qed.

(** The actions of each node. *)
Definition acts_on_a (l : list NetAction) : list SessAction :=
  omap (fun x => match x with OnA a => Some a | OnB _ => None end) l.
Definition acts_on_b (l : list NetAction) : list SessAction :=
  omap (fun x => match x with OnB a => Some a | OnA _ => None end) l.

(** What was handed over stays handed over, and ingesting is an action. *)
Lemma step_handed c peer t a (s s' : Sess) :
  node_step c peer t a s = Some s' ->
  ss_handed s ⊆ ss_handed s' /\
  ss_ingested s' = ss_ingested s ++ match a with ActIngest f p => [(f, p)] | _ => [] end.
Proof.
  intros Hs. unfold node_step, session_step in Hs.
  destruct a as [from payload|i|i|ID from accept|ID to v|m|k|].
  - injection Hs as <-. by split.
  - destruct (ss_tasks s !! i) as [u|]; simpl in Hs; [|done].
    destruct (task_step _ _ u _) as [[t' sh']|]; simpl in Hs; [|done].
    destruct (ss_call s) as [[k j]|]; simpl in Hs; [case_decide; [destruct (client_takes k i t') as [[call ev]|]|]|];
      simplify_eq/=; (split; [done|by rewrite app_nil_r]).
  - destruct (ss_tasks s !! i) as [u|]; simpl in Hs; [|done]. destruct (task_drop u _); simpl in Hs; [|done].
    case_decide; simplify_eq/=. split; [done|by rewrite app_nil_r].
  - destruct (spawn_recv _ _ _ _ _); simplify_eq/=. split; [done|by rewrite app_nil_r].
  - case_decide; [|done]. destruct (tx_send_capnp _ _ _ _ _ _) as [[u|e|] tx'] eqn:Htx; simplify_eq;
      apply tx_send_handed in Htx; unfold ss_handed; simpl; rewrite Htx, app_nil_r;
      (split; [intros x Hx; apply elem_of_app; by left|done]).
  - destruct (ss_call s); [done|]. case_decide; [|done].
    destruct (ft_send_to _ _ _ _ _) as [[u|e|] tx'] eqn:Htx; simplify_eq;
      apply ft_send_handed in Htx; unfold ss_handed; simpl; rewrite Htx, app_nil_r;
      (split; [intros x Hx; apply elem_of_app; by left|done]).
  - destruct (ss_call s); [done|]. destruct (ft_recv_next_from _ _ _ _ _) as [u sh'].
    destruct (client_takes _ _ _) as [[call ev]|]; simplify_eq/=. split; [done|by rewrite app_nil_r].
  - destruct (ss_call s) as [[k i]|]; simpl in Hs; [|done]. destruct (ss_tasks s !! i) as [u|]; simpl in Hs; [|done].
    destruct (task_drop u _); simplify_eq/=. split; [done|by rewrite app_nil_r].
Qed.

(** A run of the system is a run of each node, and the network makes nothing up. *)
Lemma net_run_sessions l n n' :
  net_run l n = Some n' ->
  session_run A (nc_ids ca) (nc_depth ca) (nc_max_body ca) (nc_addr cb) ta (acts_on_a l) (net_a n) = Some (net_a n') /\
  session_run A (nc_ids cb) (nc_depth cb) (nc_max_body cb) (nc_addr ca) tb (acts_on_b l) (net_b n) = Some (net_b n').
Proof.
  revert n. induction l as [|[a|a] l IH]; simpl; intros n Hrun; [by simplify_eq|..];
    destruct (may_happen _ _ _ a); simpl in Hrun; try done.
  - destruct (node_step ca _ _ a (net_a n)) as [s|] eqn:Hs; simplify_eq/=.
    unfold node_step in Hs. rewrite Hs. apply (IH _ Hrun).
  - destruct (node_step cb _ _ a (net_b n)) as [s|] eqn:Hs; simplify_eq/=.
    unfold node_step in Hs. rewrite Hs. apply (IH _ Hrun).
Qed.

Lemma carries_step c peer t from to a (src dst dst' : Sess) :
  may_happen from to src a = true -> node_step c peer t a dst = Some dst' ->
  carries from to src dst -> carries from to src dst'.
Proof.
  intros Hm Hs Hc p Hp. rewrite (proj2 (step_handed _ _ _ _ _ _ Hs)) in Hp.
  apply elem_of_app in Hp as [Hp|Hp]; [by apply Hc|].
  destruct a as [f q| | | | | | |]; try (by apply not_elem_of_nil in Hp).
  apply list_elem_of_singleton in Hp. simplify_eq. simpl in Hm. rewrite Z.eqb_refl in Hm. simpl in Hm.
  by apply bool_decide_eq_true in Hm.
Qed.
Lemma carries_grows c peer t from to a (src src' dst : Sess) :
  node_step c peer t a src = Some src' -> carries from to src dst -> carries from to src' dst.
Proof. intros Hs Hc p Hp. apply (proj1 (step_handed _ _ _ _ _ _ Hs)). by apply Hc. Qed.

Definition net_carries (n : Network) : Prop :=
  carries (nc_addr ca) (nc_addr cb) (net_a n) (net_b n) /\ carries (nc_addr cb) (nc_addr ca) (net_b n) (net_a n).

Lemma net_run_carries l n n' : net_carries n -> net_run l n = Some n' -> net_carries n'.
Proof.
  revert n. induction l as [|[a|a] l IH]; simpl; intros n [Hab Hba] Hrun; [by simplify_eq|..];
    destruct (may_happen _ _ _ a) eqn:Hm; simpl in Hrun; try done.
  - destruct (node_step ca _ _ a (net_a n)) as [s|] eqn:Hs; simplify_eq/=. eapply IH; [|done].
    split; simpl; [by eapply carries_grows|by eapply carries_step].
  - destruct (node_step cb _ _ a (net_b n)) as [s|] eqn:Hs; simplify_eq/=. eapply IH; [|done].
    split; simpl; [by eapply carries_step|by eapply carries_grows].
Qed.

Lemma net_init_carries na nb ba bb : net_carries (net_init na nb ba bb).
Proof. by split; intros p ?%not_elem_of_nil. Qed.
End network.

(** * Safety *)

Section safety.
Context {Node E W R T CapnpError : Type} `{IsoTpEndpoint Node E} `{WatchLaws W R}.
Context `{HS : Sha256Laws T} `{HD : !DigestLength T}.
Context `{HL : CapnpLaws CapnpError} `{HC : !CapnpReadsU32 CapnpError}.
Context {St Handle SE : Type} `{AsyncFileStore St Handle SE}.

(** C1. A file transfer over the bus: [send_file_with_id] runs as a task of one
    node and [recv_file] (or the no-alloc variant) as a task of another, both
    with the bundle's distinct message ids in their maplets, over
    the nodes' encoders, transmit buffers, ISO-TP nodes, [ingest], mailboxes
    and watches, interleaved with other calls on both nodes that send nothing
    of the bundle under the transfer's id; the network may lose, repeat, delay
    and reorder payloads.  When the receiver returns [Ok] for the transfer,
    what it committed to its store is the sender's file; when the sender
    returns [Ok] for a non-empty file, the receiver has committed the file.
    (An empty file has no chunk to acknowledge: its sender returns [Ok] on the
    acceptance, before the commit.) *)
Theorem network_transfer_safe (A : Atlas) (ca cb : NodeConfig) ta tb (na nb : Node) ba bb l (net : Network (W := W) (R := R))
    tid file config sst rs sst' sb' buffers receiver (s : St) r s' b' :
  Forall is_u16 (FileTransferBundle_MESSAGE_IDS A) -> NoDup (FileTransferBundle_MESSAGE_IDS A) ->
  FileTransferBundle_MESSAGE_IDS A ⊆ nc_ids ca -> FileTransferBundle_MESSAGE_IDS A ⊆ nc_ids cb ->
  net_run A ca cb ta tb l (net_init ca cb na nb ba bb) = Some net ->
  foreign A tid (ss_others (net_a net)) -> foreign A tid (ss_others (net_b net)) -> is_u32 tid ->
  send_file_with_id_impl digest tid file config (sst, script_of (ss_trace (net_a net))) = (rs, (sst', sb')) ->
  played (ss_trace (net_a net)) (log sb') ->
  recv_call (T := T) (CapnpError := CapnpError) buffers receiver (s, script_of (ss_trace (net_b net))) =
    (r, (s', b')) ->
  played (ss_trace (net_b net)) (log b') ->
  (forall res, r = Ok res -> got_transfer_id res = tid ->
     status (log b') = Committed /\ written (log b') = file) /\
  (forall res, rs = Ok res -> file <> [] -> status (log b') = Committed /\ written (log b') = file).
Proof.
  intros Hu16 Hnd Hia Hib Hrun Hfa Hfb Htid Hsend Hps Hrecv Hpd.
  destruct (net_run_sessions _ _ _ _ _ _ _ _ Hrun) as [Ha Hb].
  destruct (net_run_carries _ _ _ _ _ _ _ _ (net_init_carries ca cb na nb ba bb) Hrun) as [Hab Hba].
  exact (transfer_over_sessions A Hu16 Hnd ca cb _ _ _ _ _ _ _ _ _ _ _ _ _ _ _ _ _ _ _ _ _ _ _
    (conj Hia Ha) (conj Hib Hb) Hab Hba Hfa Hfb Htid Hsend Hps Hrecv Hpd).
Qed.
End safety.

(** * A node that waits for nothing *)

Section quiet.
Context {Node E W R CapnpError : Type} `{IsoTpEndpoint Node E} `{WatchLaws W R} `{HW : !WatchCapacity W R}.
Context `{HL : CapnpLaws CapnpError}.
Context (A : Atlas) (Hu16 : Forall is_u16 (FileTransferBundle_MESSAGE_IDS A)).
Context (c : NodeConfig) (peer : u8) (t : Duration).
Context (Hids : FileTransferBundle_MESSAGE_IDS A ⊆ nc_ids c) (Hdepth : 0 < nc_depth c).
Context (Hsends : forall to p t (n : Node), (node_send_to to p t n).1 = Ok tt).
Implicit Types s : Session Node W R.
Abbreviation sok := (sess_ok A (nc_ids c) (nc_depth c) (nc_max_body c) peer).
Abbreviation run := (session_run A (nc_ids c) (nc_depth c) (nc_max_body c) peer t).
Abbreviation queues s := (rx_abs (sh_rx (ss_shared s))).

(** The client is not in a call, the mailboxes are empty, every watch has room
    for a receiver, and the transmit buffer has [len] bytes. *)
Record quiet (len : nat) s : Prop := {
  q_ok : sok s;
  q_call : ss_call s = None;
  q_empty : queues s = replicate (length (nc_ids c)) [];
  q_room : Forall (fun w => 0 < watch_room w) (sh_notify (ss_shared s));
  q_buf : length (tx (ss_tx s)) = len;
  q_others : ss_others s = [];
}.

Lemma encode_fits m out :
  msg_fits m -> msg_max_len m <= length out ->
  exists size rest,
    match m with
    | OfferMsg v => encode v out
    | ChunkMsg v => encode v out
    | AckMsg v => encode v out
    end = (Ok size, wire_body m ++ rest) /\
    length (wire_body m) = size /\ size <= msg_max_len m.
Proof.
  intros Hm Hlen.
  assert (forall V (build : V -> bytes -> option (list bytes * bytes)) v size seg,
    builds build size v seg -> size <= msg_max_len m ->
    wire_body m = (match encode_alloc build v (msg_max_len m) ([], replicate (msg_max_len m) 0%Z) with
                   | (Ok n, (_, o)) => take n o | _ => [] end) ->
    exists size rest, encode_alloc_nostd build v (msg_max_len m) out = (Ok size, wire_body m ++ rest) /\
      length (wire_body m) = size /\ size <= msg_max_len m) as Hgen.
  { intros V build v size seg Hb Hs Hw.
    destruct (encoders_ok build v size seg (msg_max_len m) (capnp_scratch_words_for_bytes (msg_max_len m)) []
      CapnpScratch_new out Hb Hs Hlen ltac:(lia)) as (_ & Hn & _).
    destruct (encode_alloc_runs build v size seg (msg_max_len m) Hb Hs) as (k & w & o & Hrun).
    rewrite Hrun, (encode_alloc_body _ _ _ _ _ _ _ _ _ _ Hb Hs Hrun) in Hw. rewrite Hw.
    exists size, (drop size out). split_and!; [done|by apply Hb|done]. }
  destruct m as [v|v|v]; cbn [msg_fits msg_max_len] in *.
  - destruct (build_file_req_law _ Hm) as (seg & Hb & _). eapply Hgen; [done|apply offer_size_le|done].
  - destruct (build_file_chunk_law _ Hm) as (seg & Hb & _). eapply Hgen; [done|apply chunk_size_le|done].
  - destruct (build_file_ack_law _ Hm) as (seg & Hb & _). eapply Hgen; [done|apply ack_size_le|done].
Qed.

Lemma tx_send_ok {V} `{EncodeKeepsLength V} ID to (v : V) x (tx0 : TxState (Recorded Node)) :
  is_u16 ID -> HEADER_LEN + max_encoded_len v <= length (tx tx0) ->
  (forall out, max_encoded_len v <= length out ->
     exists size rest, encode v out = (Ok size, x ++ rest) /\ length x = size /\ size <= max_encoded_len v) ->
  exists tx' p, tx_send_capnp node_send_to ID to v t tx0 = (Ok tt, tx') /\
    length (tx tx') = length (tx tx0) /\ handed (tx_node tx') = handed (tx_node tx0) ++ [(to, p)] /\
    decode_wire p = Ok {| id := ID; body := x |}.
Proof.
  intros HID Hlen Henc. unfold tx_send_capnp, on_field, catch. unfold_M.
  assert (length (encode_capnp_into_buf ID v (tx tx0)).2 = length (tx tx0)) as Hkeep.
  { pose proof (encode_capnp_into_buf_safe ID v (tx tx0)) as Hs. destruct (encode_capnp_into_buf ID v (tx tx0)). apply Hs. }
  rewrite encode_capnp_into_buf_eq in *. unfold encode_capnp_spec in *.
  destruct (Nat.ltb_spec (length (tx tx0)) (HEADER_LEN + max_encoded_len v)); [lia|].
  destruct (Henc (take (max_encoded_len v) (drop HEADER_LEN (tx tx0)))) as (size & rest & Hrun & Hx & Hle); [len|].
  rewrite Hrun in *. destruct (Nat.ltb_spec (max_encoded_len v) size); [lia|].
  rewrite take_app_le, take_ge in * by lia. simpl.
  pose proof (Hsends to (to_le_bytes 2 ID ++ x) t (rec_node (tx_node tx0))) as Hok.
  destruct (node_send_to _ _ _ _) as [r n']. simpl in Hok. subst r. simpl in *.
  eexists _, _. split_and!; [done|exact Hkeep|done|]. by apply decode_wire_le_bytes.
Qed.

Lemma ft_send_ok to m (tx0 : TxState (Recorded Node)) :
  msg_fits m -> HEADER_LEN + msg_max_len m <= length (tx tx0) ->
  exists tx' p, ft_send_to A t to m tx0 = (Ok tt, tx') /\
    length (tx tx') = length (tx tx0) /\ handed (tx_node tx') = handed (tx_node tx0) ++ [(to, p)] /\
    decode_wire p = Ok {| id := kind_id A (msg_kind m); body := wire_body m |}.
Proof.
  intros Hm Hlen. pose proof (kind_id_u16 A Hu16 (msg_kind m)) as HID.
  destruct m as [v|v|v]; cbn [ft_send_to msg_kind kind_id msg_max_len] in *; apply tx_send_ok; try done;
    intros out Hout.
  - exact (encode_fits (OfferMsg v) out Hm Hout).
  - exact (encode_fits (ChunkMsg v) out Hm Hout).
  - exact (encode_fits (AckMsg v) out Hm Hout).
Qed.

Lemma msg_fits_typed m : msg_fits m -> msg_typed m.
Proof. destruct m; simpl; unfold req_fits, req_typed, chunk_fits, chunk_typed; simpl; tauto. Qed.

(** A send of a quiet node. *)
Lemma quiet_send len s m :
  quiet len s -> msg_fits m -> HEADER_LEN + msg_max_len m <= len ->
  exists s' p, run [ActSend m] s = Some s' /\ quiet len s' /\ ss_trace s' = ss_trace s ++ [EvSend m None] /\
    ss_handed s' = ss_handed s ++ [(peer, p)] /\
    decode_wire p = Ok {| id := kind_id A (msg_kind m); body := wire_body m |}.
Proof.
  intros Hq Hm Hlen. destruct (ft_send_ok peer m (ss_tx s) Hm) as (tx' & p & Hrun & Hl & Hh & Hd);
    [by rewrite (q_buf _ _ Hq)|].
  assert (session_step A (nc_ids c) (nc_depth c) (nc_max_body c) peer t (ActSend m) s =
    Some (after_send tx' [EvSend m None] [] s)) as Hstep.
  { unfold session_step. rewrite (q_call _ _ Hq), decide_True by (by apply msg_fits_typed). by rewrite Hrun. }
  eexists _, p. split; [cbn [session_run]; by rewrite Hstep|]. split_and!; [|done..].
  split; simpl; try apply Hq; [by eapply session_step_ok, Hstep; apply Hq| |].
  - rewrite Hl. apply Hq.
  - by rewrite (q_others _ _ Hq).
Qed.

(** A payload of the peer is ingested. *)
Lemma quiet_deliver len s slot p raw :
  quiet len s -> decode_wire p = Ok raw -> slot_for_id (nc_ids c) (id raw) = Some slot ->
  length (body raw) <= nc_max_body c ->
  let n := length (ss_tasks s) in
  exists s', run [ActIngest peer p; ActStep n; ActStep n] s = Some s' /\
    ss_call s' = None /\ queues s' = <[slot := [(peer, body raw)]]> (queues s) /\
    sh_notify (ss_shared s') = alter watch_send slot (sh_notify (ss_shared s)) /\
    ss_trace s' = ss_trace s /\ ss_tx s' = ss_tx s /\ ss_others s' = ss_others s /\ length (ss_tasks s') = S n.
Proof.
  intros Hq Hd Hs Hlen n. pose proof (slot_for_id_lt _ _ _ Hs) as Hlt.
  pose proof (q_ok _ _ Hq) as (((Hwf & Hn) & _) & _). simpl in Hwf, Hn.
  assert (queues s !! slot = Some []) as Hq0 by (rewrite (q_empty _ _ Hq); by apply lookup_replicate_2).
  destruct (rx_push_refines _ _ _ _ slot peer (body raw) _ Hwf Hq0) as (r & st' & Hpush & _ & Hr & Habs).
  assert (spec_push (nc_depth c) (nc_max_body c) peer (body raw) [] = (Ok tt, [(peer, body raw)])) as Hsp.
  { unfold spec_push. destruct (Nat.ltb_spec (nc_max_body c) (length (body raw))); [lia|].
    by destruct (Nat.eqb_spec (length (@nil (u8 * bytes))) (nc_depth c)) as [He|]; [simpl in He; lia|]. }
  rewrite Hsp in Hr, Habs. simpl in Hr, Habs. subst r.
  cbn [session_run session_step]. unfold spawn_ingest, ingest_decode. rewrite Hd. simpl. rewrite Hs. simpl.
  rewrite list_lookup_middle by done. simpl. rewrite Hpush. simpl. rewrite (q_call _ _ Hq). simpl.
  rewrite insert_app_r_alt, Nat.sub_diag by done. simpl. rewrite list_lookup_middle by done. simpl.
  rewrite notify_slot_alter by lia. simpl. rewrite insert_app_r_alt, Nat.sub_diag by done. simpl.
  eexists. split; [done|]. simpl. rewrite !app_nil_r. split_and!; try done. len.
Qed.

(** The client receives the one message in the mailbox. *)
Lemma client_take s k slot x :
  sok s -> ss_call s = None -> slot_for_id (nc_ids c) (kind_id A k) = Some slot ->
  queues s !! slot = Some [(peer, x)] -> Forall (fun w => 0 < watch_room w) (sh_notify (ss_shared s)) ->
  exists s', run [ActRecv k; ActStep (length (ss_tasks s))] s = Some s' /\
    ss_call s' = None /\ queues s' = <[slot := []]> (queues s) /\
    Forall (fun w => 0 < watch_room w) (sh_notify (ss_shared s')) /\
    ss_trace s' = ss_trace s ++ [EvRecv k (Body x)] /\ ss_tx s' = ss_tx s /\ ss_others s' = ss_others s.
Proof.
  intros Hok Hcall Hs Hq Hroom. pose proof (slot_for_id_lt _ _ _ Hs) as Hlt.
  pose proof Hok as (((Hwf & Hn) & _) & _). simpl in Hwf, Hn.
  destruct (lookup_lt_is_Some_2 (sh_notify (ss_shared s)) slot) as [w Hw]; [lia|].
  pose proof (Forall_lookup_1 _ _ _ _ Hroom Hw) as Hwr. simpl in Hwr.
  destruct (room_receiver w Hwr) as [[rcv w'] Hrcv].
  set (sh1 := {| sh_rx := sh_rx (ss_shared s); sh_notify := <[slot := w']> (sh_notify (ss_shared s)) |}).
  assert (exists t' sh', task_step (nc_depth c) (nc_max_body c) (RecvLock (kind_id A k) slot peer (fun _ => true) rcv)
    sh1 = Some (t', sh')) as (t' & sh' & Hstep).
  { simpl. destruct (rx_pop_matching_where _ _ _ _ _ _) as [[[[?|] ?] ?]|]; by eexists _, _. }
  assert (shared_ok (nc_ids c) (nc_depth c) (nc_max_body c) sh1) as Hsh1 by (split; simpl; [done|len]).
  destruct (recv_lock_queue _ _ _ _ _ _ _ _ _ _ _ _ Hsh1 Hq Hstep)
    as [(m & b & q1 & q2 & -> & Hb & Hq12 & _ & Habs)|(_ & _ & Hno)].
  2: { apply Forall_cons in Hno as [Hno _]. destruct Hno. by split. }
  destruct q1 as [|y q1]; [|by destruct q1]. injection Hq12 as <- <-.
  assert (sh_notify sh' = alter (watch_drop rcv) slot (sh_notify sh1)) as Hnot.
  { simpl in Hstep. by destruct (rx_pop_matching_where _ _ _ _ _ _) as [[[[?|] ?] ?]|]; simplify_eq/=. }
  cbn [session_run session_step]. rewrite Hcall. unfold ft_recv_next_from, spawn_recv. rewrite Hs, Hw, Hrcv.
  fold sh1. cbn [client_takes mbind option_bind ss_tasks ss_shared ss_call after_task].
  rewrite list_lookup_middle by done. cbn [mbind option_bind]. rewrite Hstep. cbn [mbind option_bind].
  rewrite decide_True by done. cbn [client_takes recv_event]. rewrite Hb. cbn [mbind option_bind].
  eexists. split; [done|]. simpl. rewrite !app_nil_r. split_and!; try done.
  rewrite Hnot. simpl. rewrite (alter_as_insert _ _ _ w') by (apply list_lookup_insert_eq; lia).
  rewrite list_insert_insert_eq. apply Forall_insert; [done|]. by rewrite (room_drop _ _ _ Hrcv).
Qed.

(** A message of the peer arrives and the client receives it. *)
Lemma quiet_get len s m p :
  quiet len s -> decode_wire p = Ok {| id := kind_id A (msg_kind m); body := wire_body m |} ->
  length (wire_body m) <= nc_max_body c ->
  exists acts s', run (ActIngest peer p :: acts) s = Some s' /\ quiet len s' /\
    Forall (fun a => forall f q, a <> ActIngest f q) acts /\
    ss_trace s' = ss_trace s ++ [EvRecv (msg_kind m) (Body (wire_body m))] /\ ss_handed s' = ss_handed s.
Proof.
  intros Hq Hd Hlen. destruct (slot_for_id (nc_ids c) (kind_id A (msg_kind m))) as [slot|] eqn:Hs.
  2: { apply slot_for_id_None in Hs. by destruct (Hs (Hids _ (kind_in_bundle A (msg_kind m)))). }
  pose proof (slot_for_id_lt _ _ _ Hs) as Hlt.
  destruct (quiet_deliver len s slot p _ Hq Hd Hs Hlen) as (s1 & Hrun1 & Hc1 & Hq1 & Hn1 & Ht1 & Htx1 & Ho1 & Hl1).
  assert (sok s1) as Hok1 by (eapply session_run_ok; [apply Hq|exact Hrun1]).
  destruct (client_take s1 (msg_kind m) slot (wire_body m) Hok1 Hc1 Hs) as (s2 & Hrun2 & Hc2 & Hq2 & Hr2 & Ht2 & Htx2 & Ho2).
  { rewrite Hq1. apply list_lookup_insert_eq. rewrite (q_empty _ _ Hq). len. }
  { rewrite Hn1. apply Forall_alter; [apply Hq|]. intros w _ Hw. by rewrite room_send. }
  set (n := length (ss_tasks s)) in *.
  exists [ActStep n; ActStep n; ActRecv (msg_kind m); ActStep (S n)], s2. split_and!.
  - change (ActIngest peer p :: _) with ([ActIngest peer p; ActStep n; ActStep n] ++ [ActRecv (msg_kind m); ActStep (S n)]).
    rewrite session_run_app, Hrun1. simpl. by rewrite <- Hl1.
  - split; [|done|..|done| |].
    + eapply session_run_ok; [exact Hok1|exact Hrun2].
    + rewrite Hq2, Hq1, list_insert_insert_eq, (q_empty _ _ Hq). by apply insert_replicate.
    + rewrite Htx2, Htx1. apply Hq.
    + rewrite Ho2, Ho1. apply Hq.
  - repeat constructor; done.
  - by rewrite Ht2, Ht1.
  - unfold ss_handed. by rewrite Htx2, Htx1.
Qed.
End quiet.

(** * Liveness *)

Section linked.
Context {Node E W R CapnpError : Type} `{IsoTpEndpoint Node E} `{WatchLaws W R} `{HW : !WatchCapacity W R}.
Context `{HL : CapnpLaws CapnpError}.
Context (A : Atlas) (Hu16 : Forall is_u16 (FileTransferBundle_MESSAGE_IDS A)).
Context (ca cb : NodeConfig) (ta tb : Duration).
Context (Hia : FileTransferBundle_MESSAGE_IDS A ⊆ nc_ids ca) (Hib : FileTransferBundle_MESSAGE_IDS A ⊆ nc_ids cb).
Context (Hda : 0 < nc_depth ca) (Hdb : 0 < nc_depth cb).
Context (Hsends : forall to p t (n : Node), (node_send_to to p t n).1 = Ok tt).
Context (la lb : nat).
Implicit Types (net : Network (Node := Node) (W := W) (R := R)) (tra trb : list SessEvent) (m : FtMsg).
Abbreviation nrun := (net_run A ca cb ta tb).

(** A payload that carries [m] is under way to [to]. *)
Definition under_way (to : u8) m (s : Session Node W R) : Prop :=
  exists p, (to, p) ∈ ss_handed s /\ decode_wire p = Ok {| id := kind_id A (msg_kind m); body := wire_body m |}.

(** Both nodes are quiet, and what their clients sent is under way. *)
Record linked tra trb net : Prop := {
  ln_a : quiet A ca (nc_addr cb) la (net_a net);
  ln_b : quiet A cb (nc_addr ca) lb (net_b net);
  ln_ta : ss_trace (net_a net) = tra;
  ln_tb : ss_trace (net_b net) = trb;
  ln_ab m : EvSend m None ∈ tra -> under_way (nc_addr cb) m (net_a net);
  ln_ba m : EvSend m None ∈ trb -> under_way (nc_addr ca) m (net_b net);
}.

Definition leads tra trb net tra' trb' : Prop :=
  exists l net', nrun l net = Some net' /\ linked tra' trb' net'.

Lemma leads_trans tra trb net tra1 trb1 tra2 trb2 :
  leads tra trb net tra1 trb1 ->
  (forall net1, linked tra1 trb1 net1 -> leads tra1 trb1 net1 tra2 trb2) -> leads tra trb net tra2 trb2.
Proof.
  intros (l1 & net1 & Hrun1 & Hln1) Hk. destruct (Hk net1 Hln1) as (l2 & net2 & Hrun2 & Hln2).
  exists (l1 ++ l2), net2. split; [|done]. by rewrite net_run_app, Hrun1.
Qed.
Lemma leads_refl tra trb net : linked tra trb net -> leads tra trb net tra trb.
Proof. intros Hln. by exists [], net. Qed.

(** A run of one node is a run of the system. *)
Lemma lift_a acts net s' :
  session_run A (nc_ids ca) (nc_depth ca) (nc_max_body ca) (nc_addr cb) ta acts (net_a net) = Some s' ->
  Forall (fun a => may_happen (nc_addr cb) (nc_addr ca) (net_b net) a = true) acts ->
  nrun (map OnA acts) net = Some {| net_a := s'; net_b := net_b net |}.
Proof.
  revert net. induction acts as [|a acts IH]; intros [sa sb] Hrun Hm; simpl in *; [by simplify_eq|].
  apply Forall_cons in Hm as [Ha Hm]. rewrite Ha. unfold node_step.
  destruct (session_step _ _ _ _ _ _ a sa) as [s1|]; simplify_eq/=. by apply (IH {| net_a := s1; net_b := sb |}).
Qed.
Lemma lift_b acts net s' :
  session_run A (nc_ids cb) (nc_depth cb) (nc_max_body cb) (nc_addr ca) tb acts (net_b net) = Some s' ->
  Forall (fun a => may_happen (nc_addr ca) (nc_addr cb) (net_a net) a = true) acts ->
  nrun (map OnB acts) net = Some {| net_a := net_a net; net_b := s' |}.
Proof.
  revert net. induction acts as [|a acts IH]; intros [sa sb] Hrun Hm; simpl in *; [by simplify_eq|].
  apply Forall_cons in Hm as [Ha Hm]. rewrite Ha. unfold node_step.
  destruct (session_step _ _ _ _ _ _ a sb) as [s1|]; simplify_eq/=. by apply (IH {| net_a := sa; net_b := s1 |}).
Qed.

Lemma harmless from to (src : Session Node W R) acts :
  Forall (fun a => forall f q, a <> ActIngest f q) acts -> Forall (fun a => may_happen from to src a = true) acts.
Proof. intros Ha. eapply Forall_impl; [exact Ha|]. intros a Hn. destruct a; try done. by destruct (Hn from0 payload). Qed.

Lemma arriving_ok from to (src : Session Node W R) p acts :
  (to, p) ∈ ss_handed src -> Forall (fun a => forall f q, a <> ActIngest f q) acts ->
  Forall (fun a => may_happen from to src a = true) (ActIngest from p :: acts).
Proof.
  intros Hp Ha. constructor; [|by apply harmless]. simpl. rewrite (bool_decide_eq_true_2 _ Hp).
  apply orb_true_r.
Qed.

(** What was under way stays under way, and a send adds to it. *)
Lemma under_way_grows to m (s s' : Session Node W R) :
  ss_handed s ⊆ ss_handed s' -> under_way to m s -> under_way to m s'.
Proof. intros Hs (p & Hp & Hd). exists p. split; [by apply Hs|done]. Qed.

Lemma under_way_sent to m (s s' : Session Node W R) p tr :
  ss_handed s' = ss_handed s ++ [(to, p)] -> decode_wire p = Ok {| id := kind_id A (msg_kind m); body := wire_body m |} ->
  (forall m', EvSend m' None ∈ tr -> under_way to m' s) ->
  forall m', EvSend m' None ∈ tr ++ [EvSend m None] -> under_way to m' s'.
Proof.
  intros Hh Hd Htr m' [Hm|Hm]%elem_of_app.
  - eapply under_way_grows; [|by apply Htr]. intros x Hx. rewrite Hh. apply elem_of_app. by left.
  - apply list_elem_of_singleton in Hm. simplify_eq. exists p. split; [|done]. rewrite Hh. apply elem_of_app. right. by left.
Qed.

Lemma under_way_got to k x (s s' : Session Node W R) tr :
  ss_handed s' = ss_handed s -> (forall m', EvSend m' None ∈ tr -> under_way to m' s) ->
  forall m', EvSend m' None ∈ tr ++ [EvRecv k (Body x)] -> under_way to m' s'.
Proof.
  intros Hh Htr m' [Hm|Hm]%elem_of_app; [|by apply list_elem_of_singleton in Hm].
  eapply under_way_grows; [|by apply Htr]. by rewrite Hh.
Qed.

Lemma send_a tra trb net m :
  linked tra trb net -> msg_fits m -> HEADER_LEN + msg_max_len m <= la ->
  leads tra trb net (tra ++ [EvSend m None]) trb.
Proof.
  intros [Ha Hb Hta Htb Hab Hba] Hm Hlen.
  destruct (quiet_send A Hu16 ca (nc_addr cb) ta Hda Hsends la _ m Ha Hm Hlen) as (s' & p & Hrun & Hq & Ht & Hh & Hd).
  eexists _, _. split; [eapply lift_a; [exact Hrun|by constructor]|].
  split; simpl; [done..|by rewrite Ht, Hta|done|by eapply under_way_sent|done].
Qed.
Lemma send_b tra trb net m :
  linked tra trb net -> msg_fits m -> HEADER_LEN + msg_max_len m <= lb ->
  leads tra trb net tra (trb ++ [EvSend m None]).
Proof.
  intros [Ha Hb Hta Htb Hab Hba] Hm Hlen.
  destruct (quiet_send A Hu16 cb (nc_addr ca) tb Hdb Hsends lb _ m Hb Hm Hlen) as (s' & p & Hrun & Hq & Ht & Hh & Hd).
  eexists _, _. split; [eapply lift_b; [exact Hrun|by constructor]|].
  split; simpl; [done..|by rewrite Ht, Htb|done|by eapply under_way_sent].
Qed.

Lemma get_a tra trb net m :
  linked tra trb net -> EvSend m None ∈ trb -> length (wire_body m) <= nc_max_body ca ->
  leads tra trb net (tra ++ [EvRecv (msg_kind m) (Body (wire_body m))]) trb.
Proof.
  intros [Ha Hb Hta Htb Hab Hba] Hm Hlen. destruct (Hba m Hm) as (p & Hp & Hd).
  destruct (quiet_get A ca (nc_addr cb) ta Hia Hda la _ m p Ha Hd Hlen) as (acts & s' & Hrun & Hq & Hacts & Ht & Hh).
  eexists _, _. split; [eapply lift_a; [exact Hrun|by apply arriving_ok]|].
  split; simpl; [done..|by rewrite Ht, Hta|done|by eapply under_way_got|done].
Qed.
Lemma get_b tra trb net m :
  linked tra trb net -> EvSend m None ∈ tra -> length (wire_body m) <= nc_max_body cb ->
  leads tra trb net tra (trb ++ [EvRecv (msg_kind m) (Body (wire_body m))]).
Proof.
  intros [Ha Hb Hta Htb Hab Hba] Hm Hlen. destruct (Hab m Hm) as (p & Hp & Hd).
  destruct (quiet_get A cb (nc_addr ca) tb Hib Hdb lb _ m p Hb Hd Hlen) as (acts & s' & Hrun & Hq & Hacts & Ht & Hh).
  eexists _, _. split; [eapply lift_b; [exact Hrun|by apply arriving_ok]|].
  split; simpl; [done..|by rewrite Ht, Htb|done|by eapply under_way_got].
Qed.

Lemma sends_a ms tra trb net :
  linked tra trb net -> Forall msg_fits ms -> Forall (fun m => HEADER_LEN + msg_max_len m <= la) ms ->
  leads tra trb net (tra ++ map (fun m => EvSend m None) ms) trb.
Proof.
  revert tra net. induction ms as [|m ms IH]; intros tra net Hln Hf Hl; simpl.
  - rewrite app_nil_r. by apply leads_refl.
  - apply Forall_cons in Hf as [Hm Hf], Hl as [Hlm Hl].
    rewrite cons_middle, app_assoc. eapply leads_trans; [by apply send_a|]. intros net1 Hln1. by apply IH.
Qed.

Lemma net_init_linked na nb ba bb :
  0 < nc_max_waiters ca -> 0 < nc_max_waiters cb -> length ba = la -> length bb = lb ->
  linked [] [] (net_init ca cb na nb ba bb).
Proof.
  intros Hwa Hwb Hla Hlb.
  split; simpl; try done; try (by intros m ?%not_elem_of_nil); (split; simpl; try done;
    [apply session_init_ok|apply rx_abs_new|apply Forall_replicate; by rewrite room_new]).
Qed.
End linked.

(** * The run of a transfer *)

Section traces.
Context {CapnpError : Type} `{HL : CapnpLaws CapnpError}.
Context (file : bytes) (cs : nat) (tid : u32) (config : SendConfig).
Abbreviation n := (piece_count file cs).
Abbreviation chunk j := (ChunkMsg (nth_piece file cs tid j)).
Abbreviation ack j := (AckMsg (nth_ack file cs tid j)).
Definition send_events (ms : list FtMsg) : list SessEvent := map (fun m => EvSend m None) ms.

(** The two clients' histories from the ack of piece [i] on. *)
Fixpoint window_trace (k i j : nat) : list SessEvent :=
  match k with
  | O => []
  | S k' =>
      let J := j `max` ((i + window_chunks config) `min` n) in
      send_events (sends file cs tid j (J - j)) ++ EvRecv KAck (Body (wire_body (ack i))) :: window_trace k' (S i) J
  end.
Fixpoint answer_trace (k i : nat) : list SessEvent :=
  match k with
  | O => []
  | S k' => EvRecv KChunk (Body (wire_body (chunk i))) :: EvSend (ack i) None :: answer_trace k' (S i)
  end.

Lemma window_trace_log k i j : map log_entry (window_trace k i j) = window_entries file cs tid config k i j.
Proof.
  revert i j. induction k as [|k IH]; intros i j; [done|]. cbn [window_trace window_entries].
  rewrite map_app. cbn [map log_entry]. rewrite IH. f_equal. unfold send_events. by rewrite map_map.
Qed.
Lemma answer_trace_log k i : map log_entry (answer_trace k i) = answers file cs tid i k.
Proof.
  revert i. induction k as [|k IH]; intros i; [done|]. cbn [answer_trace map log_entry]. by rewrite IH.
Qed.

Lemma send_events_results ms : omap send_result_of (send_events ms) = map (fun _ => None) ms.
Proof. induction ms; simpl; [done|]. by f_equal. Qed.
Lemma send_events_silent k ms : omap (event_of k) (send_events ms) = [].
Proof. by induction ms. Qed.

Lemma window_trace_script k i j :
  0 < window_chunks config -> i + k = n -> i <= j <= n -> i < n \/ j = n ->
  omap send_result_of (window_trace k i j) = map (fun _ => None) (sends file cs tid j (n - j)) /\
  omap (event_of KAck) (window_trace k i j) = map (fun l => Body (wire_body (ack l))) (seq i k) /\
  omap (event_of KReq) (window_trace k i j) = [] /\ omap (event_of KChunk) (window_trace k i j) = [].
Proof.
  intros Hw. revert i j. induction k as [|k IH]; intros i j Hk Hij Hn.
  - replace (n - j) with 0 by lia. done.
  - cbn [window_trace]. set (J := j `max` _). rewrite !omap_app.
    destruct (IH (S i) J) as (H1 & H2 & H3 & H4); [lia..|].
    rewrite send_events_results, !send_events_silent. cbn [omap list_omap send_result_of event_of].
    change (list_omap ?f ?l) with (omap f l). cbn [seq map].
    rewrite H1. split_and!; simpl; [|by f_equal|exact H3|exact H4].
    rewrite <- map_app. f_equal. unfold sends. rewrite <- map_app. f_equal.
    replace (n - j) with ((J - j) + (n - J)) by lia. rewrite seq_app. do 2 f_equal. lia.
Qed.

Lemma answer_trace_script k i :
  omap send_result_of (answer_trace k i) = map (fun _ => None) (seq i k) /\
  omap (event_of KChunk) (answer_trace k i) = map (fun l => Body (wire_body (chunk l))) (seq i k) /\
  omap (event_of KReq) (answer_trace k i) = [] /\ omap (event_of KAck) (answer_trace k i) = [].
Proof.
  revert i. induction k as [|k IH]; intros i; [done|]. destruct (IH (S i)) as (H1 & H2 & H3 & H4).
  cbn [answer_trace seq map]. split_and!; simpl; [by f_equal|by f_equal|exact H3|exact H4].
Qed.
End traces.

Section live.
Context {Node E W R T CapnpError : Type} `{IsoTpEndpoint Node E} `{WatchLaws W R} `{HW : !WatchCapacity W R}.
Context `{HS : Sha256Laws T} `{HD : !DigestLength T} `{HL : CapnpLaws CapnpError}.
Context (A : Atlas) (Hu16 : Forall is_u16 (FileTransferBundle_MESSAGE_IDS A)).
Context (ca cb : NodeConfig) (ta tb : Duration).
Context (Hia : FileTransferBundle_MESSAGE_IDS A ⊆ nc_ids ca) (Hib : FileTransferBundle_MESSAGE_IDS A ⊆ nc_ids cb).
Context (Hda : 0 < nc_depth ca) (Hdb : 0 < nc_depth cb).
Context (Hwa : 0 < nc_max_waiters ca) (Hwb : 0 < nc_max_waiters cb).
Context (Hsends : forall to p t (n : Node), (node_send_to to p t n).1 = Ok tt).
Context (file : bytes) (tid : u32) (config : SendConfig) (receiver : ReceiverConfig) (ba bb : bytes).
Context (Hne : file <> []) (Hlen : (Z.of_nat (length file) <= u32_max)%Z) (Htid : is_u32 tid).
Context (Hmax : (0 < Z.of_nat (sender_max_chunk_size config) <= u32_max)%Z).
Context (Hwin : 0 < window_chunks config) (Hrecv : is_u32 (max_chunk_size receiver)).

(** A message fits the transmit buffer of its sender and a mailbox slot of its
    receiver. *)
Definition has_room (buf : bytes) (dst : NodeConfig) (m : FtMsg) : Prop :=
  HEADER_LEN + msg_max_len m <= length buf /\ length (wire_body m) <= nc_max_body dst.
#[global] Instance has_room_dec buf dst m : Decision (has_room buf dst m).
Proof. unfold has_room. apply _. Defined.
Abbreviation cs := (agreed_size config receiver).
Abbreviation n := (piece_count file cs).
Context (Hread : (Z.of_nat (cs `min` length file) <= MAX_CHUNK_DATA)%Z).
Context (Hra : Forall (has_room ba cb) (offer_msgs (T := T) file tid config ++ chunk_msgs file tid config receiver)).
Context (Hrb : Forall (has_room bb ca) (ack_msgs file tid config receiver)).

Lemma cs_bounds : 0 < cs /\ (Z.of_nat cs <= u32_max)%Z.
Proof. pose proof (agreed_bounds file config receiver Hmax Hrecv) as [? _]. lia. Qed.

Lemma chunk_ok j : j < n ->
  msg_fits (ChunkMsg (nth_piece file cs tid j)) /\ has_room ba cb (ChunkMsg (nth_piece file cs tid j)).
Proof.
  intros Hj. split; [apply (nth_piece_fits file cs tid); [apply cs_bounds|done..]|].
  apply Forall_app in Hra as [_ Hc]. eapply Forall_forall in Hc; [exact Hc|]. unfold chunk_msgs, sends.
  apply list_elem_of_fmap. exists j. split; [done|]. apply elem_of_seq. lia.
Qed.
Lemma ack_ok j : j < n ->
  msg_fits (AckMsg (nth_ack file cs tid j)) /\ has_room bb ca (AckMsg (nth_ack file cs tid j)).
Proof.
  intros Hj. split; [apply (nth_ack_fits file cs tid config); [apply cs_bounds|done..]|].
  apply Forall_cons in Hrb as [_ Hc]. eapply Forall_forall in Hc; [exact Hc|].
  apply list_elem_of_fmap. exists j. split; [done|]. apply elem_of_seq. lia.
Qed.

Abbreviation lnk := (linked (Node := Node) (W := W) (R := R) A ca cb (length ba) (length bb)).
Abbreviation lds := (leads (Node := Node) (W := W) (R := R) A ca cb ta tb (length ba) (length bb)).

(** The pieces from [i] on: fill the window; the receiver takes piece [i] and
    acknowledges it; the sender takes the ack. *)
Lemma live_window k i j tra trb net :
  i + k = n -> i <= j <= n -> (forall l, l < j -> EvSend (ChunkMsg (nth_piece file cs tid l)) None ∈ tra) ->
  lnk tra trb net ->
  lds tra trb net (tra ++ window_trace file cs tid config k i j) (trb ++ answer_trace file cs tid k i).
Proof.
  revert i j tra trb net. induction k as [|k IH]; intros i j tra trb net Hk Hij Hsent Hln.
  { simpl. rewrite !app_nil_r. by apply leads_refl. }
  cbn [window_trace answer_trace]. set (J := j `max` _).
  set (ms := sends file cs tid j (J - j)). set (tra1 := tra ++ send_events ms).
  assert (forall l, l < J -> EvSend (ChunkMsg (nth_piece file cs tid l)) None ∈ tra1) as Hsent1.
  { intros l Hl. apply elem_of_app. destruct (decide (l < j)) as [|Hge]; [left; by apply Hsent|right].
    apply list_elem_of_fmap. eexists. split; [done|]. apply list_elem_of_fmap. exists l. split; [done|]. apply elem_of_seq. lia. }
  assert (Forall (fun m => msg_fits m /\ has_room ba cb m) ms) as Hms.
  { apply Forall_forall. intros m (l & -> & Hl)%list_elem_of_fmap. apply elem_of_seq in Hl. apply chunk_ok. lia. }
  destruct (chunk_ok i ltac:(lia)) as [_ [_ Hroom]]. destruct (ack_ok i ltac:(lia)) as [Hafit [Hal Har]].
  rewrite (app_assoc tra), (cons_middle _ (tra ++ _)), (app_assoc (tra ++ _)). fold tra1.
  rewrite (cons_middle _ trb), (app_assoc trb), (cons_middle _ (trb ++ _)), (app_assoc (trb ++ _)).
  assert (Forall msg_fits ms /\ Forall (fun m => HEADER_LEN + msg_max_len m <= length ba) ms) as [Hfits Hlens].
  { split; (eapply Forall_impl; [exact Hms|]); intros m (Hf & Hl & _); done. }
  eapply leads_trans; [by eapply sends_a|].
  intros net1 Hln1. fold (send_events ms) in *. fold tra1 in Hln1 |- *.
  eapply leads_trans; [eapply get_b with (m := ChunkMsg (nth_piece file cs tid i)); try done; apply Hsent1; lia|].
  intros net2 Hln2.
  eapply leads_trans; [by eapply (send_b A) with (m := AckMsg (nth_ack file cs tid i))|].
  intros net3 Hln3.
  eapply leads_trans; [eapply get_a with (m := AckMsg (nth_ack file cs tid i)); try done; apply elem_of_app; right; by left|].
  intros net4 Hln4. apply IH; [lia|lia| |exact Hln4].
  intros l Hl. apply elem_of_app. left. by apply Hsent1.
Qed.

Abbreviation offer := (OfferMsg (transfer_offer digest tid file config)).
Abbreviation accept := (AckMsg (file_ack_accept tid (Z.of_nat cs))).
Definition sender_trace : list SessEvent :=
  [EvSend offer None; EvRecv KAck (Body (wire_body accept))] ++ window_trace file cs tid config n 0 0.
Definition receiver_trace : list SessEvent :=
  [EvRecv KReq (Body (wire_body offer)); EvSend accept None] ++ answer_trace file cs tid n 0.

Lemma sender_script : script_of sender_trace = sender_bus (T := T) file tid config receiver.
Proof.
  destruct cs_bounds as [Hcs _]. pose proof (piece_count_pos file cs Hcs Hne) as Hn.
  destruct (window_trace_script file cs tid config n 0 0 Hwin) as (H1' & H2' & H3' & H4'); [lia..|].
  unfold script_of, sender_bus, sender_trace, arriving, ack_msgs, offer_msgs, chunk_msgs.
  rewrite !omap_app, H1', H2', H3', H4', Nat.sub_0_r. simpl. f_equal. f_equal. by rewrite map_map.
Qed.
Lemma receiver_script : script_of receiver_trace = receiver_bus (T := T) file tid config receiver.
Proof.
  destruct (answer_trace_script file cs tid n 0) as (H1' & H2' & H3' & H4').
  unfold script_of, receiver_bus, receiver_trace, arriving, ack_msgs, offer_msgs, chunk_msgs, sends.
  rewrite !omap_app, H1', H2', H3', H4'. simpl. f_equal; [f_equal|]; by rewrite map_map.
Qed.

Lemma played_trace tr L : bus_entries L = map log_entry tr -> played tr L.
Proof. done. Qed.
Lemma trace_on_bus tr : bus_entries (map log_entry tr) = map log_entry tr.
Proof. induction tr as [|[m [e|]|k [x|e|]] tr IH]; simpl; [done|..]; by f_equal. Qed.

(** The offer is accepted, then the pieces go. *)
Lemma live_run (na nb : Node) :
  lds [] [] (net_init ca cb na nb ba bb) sender_trace receiver_trace.
Proof.
  destruct (proj1 (Forall_cons _ _ _) Hra) as [[Hol Hor] _]. destruct (proj1 (Forall_cons _ _ _) Hrb) as [[Hal Har] _].
  pose proof (offer_fits (T := T) file tid config Hlen Htid Hmax) as Hof.
  assert (ack_fits (file_ack_accept tid (Z.of_nat cs))) as Haf.
  { destruct cs_bounds as [_ Hc]. change u32_max with 4294967295%Z in Hc. unfold ack_fits, in_width in *. simpl. lia. }
  eapply leads_trans; [eapply (send_a A) with (m := offer); try done; by apply net_init_linked|]. intros net1 Hln1.
  eapply leads_trans; [eapply get_b with (m := offer); try done; by left|]. intros net2 Hln2.
  eapply leads_trans; [by eapply (send_b A) with (m := accept)|]. intros net3 Hln3.
  eapply leads_trans; [eapply get_a with (m := accept); try done; by right; left|]. intros net4 Hln4.
  apply (live_window n 0 0); [lia|lia|lia|exact Hln4].
Qed.

(** C4. A file can be transferred: for every non-empty file whose length the
    protocol can announce, every positive window, every positive sender chunk
    size and every receiver configuration such that the pieces fit the default
    limit of a Cap'n Proto reader, and two nodes with the bundle's messages in
    their maplets, at least one mailbox slot and one waiter, transmit buffers
    and slots that hold the messages of the transfer, and ISO-TP sends that
    succeed, there is a run of the two nodes and the network between them (each
    payload arrives after it was sent) in which both calls, played by the
    clients of the two nodes, return [Ok] without a retry and the file is in
    the receiver's store. *)
Theorem network_transfer_live (na nb : Node) sst (s : MemoryStore) :
  exists l net sb' s' rb',
    net_run A ca cb ta tb l (net_init (W := W) (R := R) ca cb na nb ba bb) = Some net /\
    send_file_with_id_impl digest tid file config (sst, script_of (ss_trace (net_a net))) =
      (Ok {| sent_transfer_id := tid; sent_total_len := length file; sent_chunk_size := cs;
             sent_chunks_sent := n; sent_retries := 0 |}, (observe_transfer_id tid sst, sb')) /\
    played (ss_trace (net_a net)) (log sb') /\
    recv_file_impl (T := T) receiver (s, script_of (ss_trace (net_b net))) =
      ((Ok (recv_result (agreed_transfer (T := T) file tid config receiver) (Z.of_nat (length file)))
        : result _ (stop (FtError unit CapnpError))), (s', rb')) /\
    played (ss_trace (net_b net)) (log rb') /\ store_bytes s' = file.
Proof.
  destruct (live_run na nb) as (l & net & Hrun & Hln).
  destruct (lossless_calls (T := T) file tid config receiver Hlen Htid Hmax Hrecv Hread sst s Hne Hwin)
    as (sb' & s' & rb' & Hsend & Hps & Hrc & Hpr & Hfile).
  rewrite <- sender_script in Hsend. rewrite <- receiver_script in Hrc.
  exists l, net, sb', s', rb'. rewrite (ln_ta _ _ _ _ _ _ _ _ Hln), (ln_tb _ _ _ _ _ _ _ _ Hln).
  split_and!; [done|done| |done| |done]; unfold played.
  - rewrite <- trace_on_bus, Hps. f_equal. unfold sender_entries, sender_trace.
    rewrite map_app, window_trace_log. done.
  - rewrite Hpr. unfold receiver_entries, receiver_trace. rewrite map_app, answer_trace_log. done.
Qed.
End live.

(** * Two concrete nodes *)

Definition pair_atlas : Atlas := {| FileReq_ID := 256; FileChunk_ID := 257; FileAck_ID := 258 |}.
Definition node_a : NodeConfig :=
  {| nc_ids := [256; 257; 258; 300]%Z; nc_depth := 2; nc_max_body := 200; nc_max_waiters := 2; nc_addr := 1 |}.
Definition node_b : NodeConfig :=
  {| nc_ids := [256; 257; 258]%Z; nc_depth := 2; nc_max_body := 200; nc_max_waiters := 1; nc_addr := 2 |}.
Definition pair_buf : bytes := replicate 250 0%Z.
Definition pair_payload (m : FtMsg) : bytes := default [] (ft_payload (CapnpError := unit) pair_atlas m pair_buf).

(** What a client does, with the arrival of the message it waits for: before
    the receive call, or while the call is parked. *)
Inductive Scene := SSend (m : FtMsg) | SGet (k : FtKind) (from : u8) (m : FtMsg)
  | SPark (k : FtKind) (from : u8) (m : FtMsg).
Fixpoint scenes (n : nat) (l : list Scene) : list SessAction :=
  match l with
  | [] => []
  | SSend m :: l' => ActSend m :: scenes n l'
  | SGet k from m :: l' =>
      [ActIngest from (pair_payload m); ActStep n; ActStep n; ActRecv k; ActStep (S n)] ++ scenes (2 + n) l'
  | SPark k from m :: l' =>
      [ActRecv k; ActStep n; ActIngest from (pair_payload m); ActStep (S n); ActStep (S n); ActStep n; ActStep n]
        ++ scenes (2 + n) l'
  end.

Definition nth_msg (ms : list FtMsg) (i : nat) : FtMsg := nth i ms (AckMsg (file_ack_accept 0 0)).
Definition pair_offer : FtMsg :=
  nth_msg (offer_msgs (T := KeptInput) demo_content 3 pair_config) 0.
Definition pair_chunk (i : nat) : FtMsg := nth_msg (chunk_msgs demo_content 3 pair_config pair_receiver) i.
Definition pair_ack (i : nat) : FtMsg := nth_msg (ack_msgs demo_content 3 pair_config pair_receiver) i.

Definition net_acts : list NetAction :=
  map OnA ([ActSendOther 300 9 {| raw_body := [5]%Z |}; ActRecvOther 300 9 (fun _ => true); ActStep 0] ++
           scenes 1 [SSend pair_offer]) ++
  map OnB (scenes 0 [SGet KReq 1 pair_offer; SSend (pair_ack 0)]) ++
  map OnA (scenes 1 [SPark KAck 2 (pair_ack 0); SSend (pair_chunk 0); SSend (pair_chunk 1)]) ++
  map OnB (scenes 2 [SGet KChunk 1 (pair_chunk 0); SSend (pair_ack 1); SPark KChunk 1 (pair_chunk 1);
                     SSend (pair_ack 2)]) ++
  map OnA (scenes 3 [SGet KAck 2 (pair_ack 1); SGet KAck 2 (pair_ack 2)]).

Abbreviation PairNetwork := (Network (Node := ListNode) (W := CounterWatch) (R := nat)).
Definition pair_node : ListNode := {| sent := []; inbox := [] |}.
Definition pair_init : PairNetwork := net_init node_a node_b pair_node pair_node pair_buf pair_buf.
Definition pair_net : PairNetwork :=
  default pair_init (net_run (CapnpError := unit) pair_atlas node_a node_b 0 0 net_acts pair_init).
Definition bus_send : result SendFileResult (stop Error) * (SendState * FtBus) :=
  send_file_with_id_impl (CapnpError := unit) (digest (T := KeptInput)) 3 demo_content pair_config
    (SendState_new, script_of (ss_trace (net_a pair_net))).
Definition bus_recv : result RecvFileResult (stop (FtError unit unit)) * (MemoryStore * FtBus) :=
  recv_call (T := KeptInput) None pair_receiver (demo_store, script_of (ss_trace (net_b pair_net))).

Lemma pair_bundle_in c : c = node_a \/ c = node_b -> FileTransferBundle_MESSAGE_IDS pair_atlas ⊆ nc_ids c.
Proof.
  intros Hc x Hx. assert (x ∈ take 3 (nc_ids c)) as Hin by (by destruct Hc as [-> | ->]).
  rewrite <- (take_drop 3 (nc_ids c)). apply elem_of_app. by left.
Qed.
Lemma pair_net_run :
  net_run (CapnpError := unit) pair_atlas node_a node_b 0 0 net_acts pair_init = Some pair_net.
Proof. vm_compute. reflexivity. Qed.

Lemma network_transfer_safe_witness :
  bus_send.1 = Ok pair_sent /\ bus_recv.1 = Ok pair_got /\
  status (log bus_recv.2.2) = Committed /\ written (log bus_recv.2.2) = demo_content.
Proof.
  split; [vm_compute; reflexivity|]. split; [vm_compute; reflexivity|].
  refine (proj1 (network_transfer_safe (Node := ListNode) (W := CounterWatch) (R := nat) (T := KeptInput)
    (CapnpError := unit) pair_atlas node_a node_b 0 0 pair_node pair_node pair_buf pair_buf net_acts pair_net
    3 demo_content pair_config SendState_new (Ok pair_sent) bus_send.2.1 bus_send.2.2 None pair_receiver demo_store
    (Ok pair_got) bus_recv.2.1 bus_recv.2.2
    _ _ _ _ pair_net_run _ _ _ _ _ _ _) pair_got eq_refl eq_refl).
  - refine (bool_decide_unpack _ _). vm_compute. exact I.
  - refine (bool_decide_unpack _ _). vm_compute. exact I.
  - apply pair_bundle_in. by left.
  - apply pair_bundle_in. by right.
  - split_and!; intros x root Hx; vm_compute in Hx; exfalso; inversion Hx as [|? ? ? Hx']; inversion Hx'.
  - split_and!; intros x root Hx; vm_compute in Hx; exfalso; inversion Hx.
  - split; lia.
  - vm_compute. reflexivity.
  - vm_compute. reflexivity.
  - vm_compute. reflexivity.
  - vm_compute. reflexivity.
Defined.

Lemma network_transfer_live_witness :
  exists l net s' rb', net_run (CapnpError := unit) pair_atlas node_a node_b 0 0 l pair_init = Some net /\
    recv_file_impl (T := KeptInput) pair_receiver (demo_store, script_of (ss_trace (net_b net))) =
      ((Ok pair_got : result _ (stop (FtError unit unit))), (s', rb')) /\
    store_bytes s' = demo_content.
Proof.
  destruct (network_transfer_live (Node := ListNode) (W := CounterWatch) (R := nat) (T := KeptInput)
    (CapnpError := unit) pair_atlas ltac:(refine (bool_decide_unpack _ _); vm_compute; exact I) node_a node_b 0 0
    (pair_bundle_in node_a (or_introl eq_refl)) (pair_bundle_in node_b (or_intror eq_refl))
    ltac:(simpl; lia) ltac:(simpl; lia) ltac:(simpl; lia) ltac:(simpl; lia) ltac:(reflexivity)
    demo_content 3 pair_config pair_receiver pair_buf pair_buf ltac:(discriminate)
    ltac:(simpl; unfold u32_max; lia) ltac:(split; lia) ltac:(simpl; unfold u32_max; lia) ltac:(simpl; lia)
    ltac:(split; simpl; lia) ltac:(vm_compute; discriminate) ltac:(refine (bool_decide_unpack _ _); vm_compute; exact I)
    ltac:(refine (bool_decide_unpack _ _); vm_compute; exact I) pair_node pair_node SendState_new demo_store)
    as (l & net & sb' & s' & rb' & Hrun & Hsend & _ & Hrecv & _ & Hfile).
  exists l, net, s', rb'. split; [exact Hrun|]. split; [exact Hrecv|exact Hfile].
Defined.

(** The receiving client was given both chunks, in order, and nothing waits. *)
Lemma session_fifo_witness :
  length (bodies KChunk (ss_trace (net_b pair_net))) = 2 /\
  bodies KChunk (ss_trace (net_b pair_net)) ++ bodies_from 1 (queue_at 1 (ss_shared (net_b pair_net))) =
  stored_in 1 1 (ss_stored (net_b pair_net)).
Proof.
  split; [vm_compute; reflexivity|].
  refine (proj1 (proj2 (proj1 (session_fifo (Node := ListNode) (W := CounterWatch) (R := nat) (CapnpError := unit)
    pair_atlas (nc_ids node_b) (nc_depth node_b) (nc_max_body node_b) (nc_max_waiters node_b) 1 0
    (acts_on_b net_acts) pair_node pair_buf (net_b pair_net) _) KChunk 1 _)) _ _).
  - vm_compute. reflexivity.
  - reflexivity.
  - refine (bool_decide_unpack _ _). vm_compute. exact I.
  - intros accept Ha.
    assert (forallb (fun a => match a with ActRecvOther _ _ _ => false | _ => true end) (acts_on_b net_acts) = true)
      as Hno by (vm_compute; reflexivity).
    rewrite forallb_forall in Hno. apply list_elem_of_In in Ha. discriminate (Hno _ Ha).
Defined.
