(* ===== verification/FtInstance.v ===== *)
(** * The file-transfer bundle instance

    [FileTransferBundleInstance] of [thincan-file-transfer/src/tokio_impl.rs],
    the value an application holds: a handle of the bus and the allocator of
    transfer ids, with its four calls.  The peer's address and the timeouts
    are in the script of the bus ([FtBus]).  The theorem is the invariant that
    keeps transfers apart: over any history of calls on an instance a
    [send_file] takes a transfer id under which the instance has sent nothing
    before. *)
From S2P Require Import Prelude Script Wire FtSchema FtBus FtSender FtReceiver FtMemoryStore FtEndToEnd.

(** * The calls *)

Record FileTransferBundleInstance := { bus : FtBus; send_state : SendState }.

Definition instance_new (bus : FtBus) : FileTransferBundleInstance :=
  {| bus := bus; send_state := SendState_new |}.
(** [BundleFactory::make]. *)
Definition make (bus : FtBus) : FileTransferBundleInstance := instance_new bus.

Section calls.
Context {T CapnpError St H E : Type} `{Sha256Hasher T} `{Capnp CapnpError} `{AsyncFileStore St H E}.

(** The sender borrows both fields. *)
Definition on_instance {A} (m : M (SendState * FtBus) (stop Error) A) :
    M FileTransferBundleInstance (stop Error) A :=
  on_field (fun i => (send_state i, bus i)) (fun w _ => {| bus := w.2; send_state := w.1 |}) m.

Definition send_file (bytes : bytes) (config : SendConfig) :
    M FileTransferBundleInstance (stop Error) SendFileResult :=
  on_instance (send_file_impl (digest (T := T)) bytes config).

Definition send_file_with_id (transfer_id : u32) (bytes : bytes) (config : SendConfig) :
    M FileTransferBundleInstance (stop Error) SendFileResult :=
  on_instance (send_file_with_id_impl (digest (T := T)) transfer_id bytes config).

(** The receiver borrows the bus only, and the caller's store. *)
Definition on_bus {A} (m : RM St E CapnpError A) :
    M (St * FileTransferBundleInstance) (stop (FtError E CapnpError)) A :=
  on_field (fun w => (w.1, bus w.2)) (fun x w => (x.1, {| bus := x.2; send_state := send_state w.2 |})) m.

Definition recv_file (receiver : ReceiverConfig) :
    M (St * FileTransferBundleInstance) (stop (FtError E CapnpError)) RecvFileResult :=
  on_bus (recv_file_impl (T := T) receiver).

Definition recv_file_no_alloc (MAX_METADATA MAX_CHUNK : nat) (receiver : ReceiverConfig) :
    M (St * FileTransferBundleInstance) (stop (FtError E CapnpError)) RecvFileResult :=
  on_bus (recv_file_no_alloc_impl (T := T) MAX_METADATA MAX_CHUNK receiver).

(** ** Histories of calls *)

Inductive InstanceCall :=
| SendFile (file : bytes) (config : SendConfig)
| SendFileWithId (tid : u32) (file : bytes) (config : SendConfig)
| RecvFile (receiver : ReceiverConfig) (store : St)
| RecvFileNoAlloc (MAX_METADATA MAX_CHUNK : nat) (receiver : ReceiverConfig) (store : St).

(** The instance after a call, whatever the call returns. *)
Definition after_call (c : InstanceCall) (i : FileTransferBundleInstance) : FileTransferBundleInstance :=
  match c with
  | SendFile file config => (send_file file config i).2
  | SendFileWithId tid file config => (send_file_with_id tid file config i).2
  | RecvFile receiver store => (recv_file receiver (store, i)).2.2
  | RecvFileNoAlloc mm mc receiver store => (recv_file_no_alloc mm mc receiver (store, i)).2.2
  end.
Definition after_calls (cs : list InstanceCall) (i : FileTransferBundleInstance) : FileTransferBundleInstance :=
  fold_left (fun i c => after_call c i) cs i.

(** The ids the caller chooses. *)
Definition chosen_id (c : InstanceCall) : option u32 :=
  match c with SendFileWithId tid _ _ => Some tid | _ => None end.
End calls.
Arguments InstanceCall St : clear implicits.

(** * Transfer ids *)

(** The transfer a sender's message belongs to. *)
Definition sender_id (m : FtMsg) : option u32 :=
  match m with
  | OfferMsg v => Some (offer_transfer_id v)
  | ChunkMsg v => Some (chunk_transfer_id v)
  | AckMsg _ => None
  end.
(** An instance used [tid] as a sender. *)
Definition used (L : list LogEntry) (tid : u32) : Prop := exists m, tried m L /\ sender_id m = Some tid.

Lemma used_app L l tid : used (L ++ l) tid <-> used L tid \/ used l tid.
Proof. unfold used, tried. split.
  - intros (m & [Hm|(e & Hm)] & Hi); apply elem_of_app in Hm as [Hm|Hm]; eauto 8.
  - intros [(m & Hm & Hi)|(m & Hm & Hi)]; exists m; (split; [|done]);
      (destruct Hm as [Hm|(e & Hm)]; [left|right; exists e]; apply elem_of_app; eauto).
Qed.

Section ids.
Context {T CapnpError St H E : Type} `{HT : Sha256Laws T} `{HL : CapnpLaws CapnpError}
  `{HC : !CapnpReadsU32 CapnpError} `{HS : AsyncFileStore St H E}.
Abbreviation Inst := FileTransferBundleInstance.
Implicit Types i : Inst.

(** What a send adds carries its id. *)
Lemma send_uses tid file config st b :
  let '(_, (_, b')) := send_file_with_id_impl (digest (T := T)) tid file config (st, b) in
  exists L, log b' = log b ++ L /\ forall x, used L x -> x = tid.
Proof.
  pose proof (send_file_with_id_spec (digest (T := T)) tid file config st b) as Hs.
  destruct (send_file_with_id_impl _ _ _ _ _) as [r [st' b']]. destruct Hs as (_ & (L & Hl & HL') & _).
  exists L. split; [done|]. intros x (m & Hm & Hx).
  pose proof (entry_of_tried tid file config m L HL' Hm) as He. destruct m as [v|v|v]; [subst v|destruct He|done];
    simpl in *; congruence.
Qed.

(** A receive sends only acks. *)
Lemma recv_uses buffers receiver (s : St) b :
  let '(_, (_, b')) := recv_call (T := T) (CapnpError := CapnpError) buffers receiver (s, b) in
  exists L, log b' = log b ++ L /\ forall x, ~ used L x.
Proof.
  destruct (recv_call buffers receiver (s, b)) as [r [s' b']] eqn:Hrun.
  destruct (recv_call_log _ _ _ _ _ _ _ Hrun) as (t & id & L & Hl & Hok & _). exists L. split; [done|].
  intros x (m & [Hm|(e & Hm)] & Hx); apply list_elem_of_split in Hm as (l1 & l2 & ->);
    pose proof (Hok _ _ _ eq_refl) as He; by destruct m.
Qed.

(** The invariant: every id used lies below the next one. *)
Definition ids_below (bound : Z) i : Prop :=
  (0 <= next_transfer_id (send_state i) <= bound)%Z /\
  forall x, used (log (bus i)) x -> (x < next_transfer_id (send_state i))%Z.

Lemma wrapping_next z : (0 <= z < u32_max)%Z -> wrapping_add32 z 1 = (z + 1)%Z.
Proof. intros Hz. unfold wrapping_add32. apply wrap_small. unfold in_width, u32_max in *. lia. Qed.

Lemma send_with_id_below bound tid file config st b :
  (0 <= tid < bound)%Z -> (bound <= u32_max)%Z ->
  ids_below bound {| bus := b; send_state := st |} ->
  let '(_, (st', b')) := send_file_with_id_impl (digest (T := T)) tid file config (st, b) in
  ids_below bound {| bus := b'; send_state := st' |} /\ (next_transfer_id st <= next_transfer_id st')%Z.
Proof.
  intros Htid Hb [Hn Hu]. pose proof (send_uses tid file config st b) as Hs. simpl in *.
  assert (Hobs : (next_transfer_id st <= next_transfer_id (observe_transfer_id tid st) <= bound)%Z /\
                 (tid < next_transfer_id (observe_transfer_id tid st))%Z).
  { unfold observe_transfer_id. destruct (Z.leb_spec (next_transfer_id st) tid); simpl; [|lia].
    rewrite wrapping_next by lia. lia. }
  rewrite send_file_with_id_run in Hs |- *. destruct ((_ =? 0) || _); [done|].
  assert (Hgo : forall b', (exists L, log b' = log b ++ L /\ forall x, used L x -> x = tid) ->
    ids_below bound {| bus := b'; send_state := observe_transfer_id tid st |}).
  { intros b' (L & Hl & HLu). split; [simpl; lia|]. simpl. rewrite Hl. intros x [Hx|Hx]%used_app;
      [apply Hu in Hx|apply HLu in Hx]; lia. }
  destruct ((_ <? _)%Z || _); [split; [by apply Hgo|lia]|].
  destruct (send_transfer _ _ _ _ _ _ _) as [r b']. split; [by apply Hgo|lia].
Qed.

Lemma ids_below_weaken bound bound' i : (bound <= bound')%Z -> ids_below bound i -> ids_below bound' i.
Proof. intros Hb [Hn Hu]. split; [lia|done]. Qed.

(** A call on an instance keeps it, one id further at most. *)
Lemma call_below bound (c : InstanceCall St) i :
  (bound < u32_max)%Z -> (forall tid, chosen_id c = Some tid -> 0 <= tid < bound)%Z ->
  ids_below bound i -> ids_below (bound + 1) (after_call (T := T) (CapnpError := CapnpError) c i).
Proof.
  intros Hb Hid Hi. destruct i as [b st]. pose proof Hi as [Hn Hu]. simpl in Hn, Hu.
  assert (Hrecv : forall b', (exists L, log b' = log b ++ L /\ forall x, ~ used L x) ->
    ids_below (bound + 1) {| bus := b'; send_state := st |}).
  { intros b' (L & Hl & HLu). split; [simpl; lia|]. simpl. rewrite Hl. intros x [Hx|Hx]%used_app; [auto|by apply HLu in Hx]. }
  destruct c as [file config|tid file config|receiver s|mm mc receiver s]; simpl.
  - unfold send_file, on_instance, on_field, send_file_impl. simpl.
    set (tid := next_transfer_id st). pose proof (send_with_id_below (bound + 1) tid file config
      {| next_transfer_id := wrapping_add32 tid 1 |} b) as Hs.
    rewrite wrapping_next in * by (unfold tid; lia).
    destruct (send_file_with_id_impl _ _ _ _ _) as [r [st' b']]. apply Hs; [unfold tid; lia|lia|].
    split; [simpl; unfold tid; lia|]. simpl. intros x Hx. apply Hu in Hx. unfold tid. lia.
  - unfold send_file_with_id, on_instance, on_field. simpl.
    pose proof (send_with_id_below (bound + 1) tid file config st b) as Hs.
    destruct (send_file_with_id_impl _ _ _ _ _) as [r [st' b']].
    specialize (Hid tid eq_refl). apply Hs; [lia|lia|]. by eapply ids_below_weaken; [|exact Hi]; lia.
  - unfold recv_file, on_bus, on_field. simpl. pose proof (recv_uses None receiver s b) as Hr. simpl in Hr.
    destruct (recv_file_impl receiver (s, b)) as [r [s' b']]. by apply Hrecv.
  - unfold recv_file_no_alloc, on_bus, on_field. simpl.
    pose proof (recv_uses (Some (mm, mc)) receiver s b) as Hr. simpl in Hr.
    destruct (recv_file_no_alloc_impl mm mc receiver (s, b)) as [r [s' b']]. by apply Hrecv.
Qed.

Lemma calls_below bound (cs : list (InstanceCall St)) i :
  (bound + Z.of_nat (length cs) <= u32_max)%Z ->
  (forall c tid, c ∈ cs -> chosen_id c = Some tid -> 0 <= tid < bound)%Z ->
  ids_below bound i ->
  ids_below (bound + Z.of_nat (length cs)) (after_calls (T := T) (CapnpError := CapnpError) cs i).
Proof.
  revert bound i. induction cs as [|c cs IH]; intros bound i Hb Hid Hi; [by rewrite Z.add_0_r|].
  simpl length in *. cbn [after_calls fold_left].
  replace (bound + Z.of_nat (S (length cs)))%Z with (bound + 1 + Z.of_nat (length cs))%Z by lia.
  apply IH; [lia| |].
  - intros c' tid Hc Ht. specialize (Hid c' tid ltac:(by right) Ht). lia.
  - apply call_below; [lia| |done]. intros tid Ht. apply (Hid c tid); [by left|done].
Qed.

(** C7. Transfers of one instance are kept apart: after any history of sends and receives on a
    fresh instance, whatever they returned, as long as the ids the caller chose and the
    number of calls stay below 2^32, a [send_file] runs under an id under which
    the instance has never sent an offer or a chunk, so that no ack for an
    earlier transfer is taken for one of this transfer. *)
Theorem send_file_fresh_id bound (cs : list (InstanceCall St)) b file config :
  (0 < bound)%Z -> (bound + Z.of_nat (length cs) <= u32_max)%Z ->
  (forall c tid, c ∈ cs -> chosen_id c = Some tid -> 0 <= tid < bound)%Z ->
  log b = [] ->
  let i := after_calls (T := T) (CapnpError := CapnpError) cs (make b) in
  let i' := (send_file (T := T) (CapnpError := CapnpError) file config i).2 in
  exists tid L, log (bus i') = log (bus i) ++ L /\
    (forall x, used L x -> x = tid) /\ ~ used (log (bus i)) tid.
Proof.
  intros Hb0 Hb Hid Hlog i i'.
  destruct (calls_below bound cs (make b) Hb Hid) as [Hn Hu].
  { split; [simpl; lia|]. simpl. rewrite Hlog. by intros x (m & [Hm|(e & Hm)] & _); apply not_elem_of_nil in Hm. }
  fold i in Hn, Hu. exists (next_transfer_id (send_state i)).
  pose proof (send_uses (next_transfer_id (send_state i)) file config
    {| next_transfer_id := wrapping_add32 (next_transfer_id (send_state i)) 1 |} (bus i)) as Hs.
  unfold i', send_file, on_instance, on_field, send_file_impl, alloc_transfer_id.
  destruct (send_file_with_id_impl _ _ _ _ _) as [r [st' b']]. destruct Hs as (L & Hl & HLu).
  exists L. split_and!; [done..|]. intros Hx. apply Hu in Hx. lia.
Qed.
End ids.

Lemma send_file_fresh_id_witness :
  let i := after_calls (T := KeptInput) (CapnpError := unit) (St := MemoryStore)
             [SendFileWithId 1 demo_file demo_config; RecvFile demo_receiver demo_store] (make demo_bus) in
  let i' := (send_file (T := KeptInput) (CapnpError := unit) demo_file demo_config i).2 in
  exists tid L, log (bus i') = log (bus i) ++ L /\ (forall x, used L x -> x = tid) /\ ~ used (log (bus i)) tid.
Proof.
  apply (send_file_fresh_id 5); [lia|vm_compute; discriminate| |reflexivity].
  intros c tid Hc Ht. repeat (apply elem_of_cons in Hc as [->|Hc]; [simplify_eq/=; lia|]). by apply not_elem_of_nil in Hc.
Defined.
