(* ===== verification/EchoBench.v ===== *)
(** * The echo benchmark

    Models [examples/thincan-example/src/bin/file-transfer-bench-a.rs], which
    sends a random file and expects it back, and [file-transfer-bench-b.rs],
    which receives a file and returns it, over the file-transfer instances of
    [FtInstance].  The theorem composes runs of the two programs: on a bus that
    makes nothing up, a file the responder has received is one the initiator
    sent, and a round ends in an echo mismatch only through a transfer of
    another round. *)
From stdpp Require Import strings.
From S2P Require Import Prelude Script Wire FtSchema FtBus FtSender FtReceiver FtMemoryStore FtEndToEnd FtLossless FtInstance.

(** * The programs *)

Definition SEND_CHUNK_SIZE : nat := 1024.
Definition SEND_WINDOW_CHUNKS : nat := 8.
Definition SEND_MAX_RETRIES : nat := 5.

Definition default_send_config : SendConfig :=
  {| sender_max_chunk_size := SEND_CHUNK_SIZE; window_chunks := SEND_WINDOW_CHUNKS;
     max_retries := SEND_MAX_RETRIES |}.
Definition default_receiver_config : ReceiverConfig :=
  {| max_chunk_size := wrap 32 (Z.of_nat SEND_CHUNK_SIZE) |}.

(** The options of the two programs, with their defaults. *)
Record InitiatorArgs := {
  a_bytes : Z;
  a_rounds : u32;
  a_timeout_ms : u64;
  a_wait_for_socket_ms : u64;
  a_startup_delay_ms : u64;
  a_offer_retries : nat;
  a_offer_retry_delay_ms : u64;
  a_seed : option u64;
  a_start_bus_server : bool;
}.
Definition InitiatorArgs_default : InitiatorArgs :=
  {| a_bytes := 1024 * 1024; a_rounds := 3; a_timeout_ms := 5000; a_wait_for_socket_ms := 30000;
     a_startup_delay_ms := 500; a_offer_retries := 8; a_offer_retry_delay_ms := 200; a_seed := None;
     a_start_bus_server := false |}.
Record ResponderArgs := { b_rounds : u32; b_timeout_ms : u64; b_wait_for_socket_ms : u64 }.
Definition ResponderArgs_default : ResponderArgs :=
  {| b_rounds := 3; b_timeout_ms := 5000; b_wait_for_socket_ms := 30000 |}.

(** How a round, or the program, ends without success. *)
Inductive BenchError (CapnpError : Type) :=
| BusServerNotStarted
| NotConnected
| SendFileFailed (e : Error)
| SendFileFailedAfterRetries
| RecvFileFailed (e : FtError unit CapnpError)
| EchoMismatch (round : Z) (bytes : nat)
| PumpNotJoined.
Arguments BusServerNotStarted {CapnpError}.
Arguments NotConnected {CapnpError}.
Arguments SendFileFailed {CapnpError} e.
Arguments SendFileFailedAfterRetries {CapnpError}.
Arguments RecvFileFailed {CapnpError} e.
Arguments EchoMismatch {CapnpError} round bytes.
Arguments PumpNotJoined {CapnpError}.

Section programs.
Context {T CapnpError : Type} `{Sha256Hasher T} `{Capnp CapnpError}.
Abbreviation Inst := FileTransferBundleInstance.
Abbreviation BM := (M Inst (stop (BenchError CapnpError))).

(** The loop over the attempts to send: [left] of them to go. *)
Fixpoint send_attempts (left attempt offer_retries : nat) (payload : bytes) : BM (option SendFileResult) := fun i =>
  match left with
  | O => (Ok None, i)
  | S left' =>
      match send_file (T := T) payload default_send_config i with
      | (Ok out, i') => (Ok (Some out), i')
      | (Err (Fails e), i') =>
          if is_timeout e && (attempt + 1 <? offer_retries)
          then send_attempts left' (attempt + 1) offer_retries payload i'
          else (Err (Fails (SendFileFailed e)), i')
      | (Err Waiting, i') => (Err Waiting, i')
      | (Err OutOfFuel, i') => (Err OutOfFuel, i')
      | (Panic, i') => (Panic, i')
      end
  end.

(** [recv_file] into a [MemoryStore::default()]. *)
Definition recv_into_memory : BM (RecvFileResult * MemoryStore) := fun i =>
  match recv_file (T := T) default_receiver_config ({| store_bytes := [] |}, i) with
  | (Ok out, (store, i')) => (Ok (out, store), i')
  | (Err (Fails e), (_, i')) => (Err (Fails (RecvFileFailed e)), i')
  | (Err Waiting, (_, i')) => (Err Waiting, i')
  | (Err OutOfFuel, (_, i')) => (Err OutOfFuel, i')
  | (Panic, (_, i')) => (Panic, i')
  end.

(** One round of the initiator. *)
Definition initiator_round (offer_retries : nat) (round : Z) (payload : bytes) :
    BM (SendFileResult * RecvFileResult) :=
  out ← send_attempts offer_retries 0 offer_retries payload;
  send_out ← lift (ok_or out (Fails SendFileFailedAfterRetries));
  '(recv_out, store) ← recv_into_memory;
  if bool_decide (store_bytes store = payload) then mret (send_out, recv_out)
  else fail (Fails (EchoMismatch (round + 1) (length payload))).

(** [for round in 0..rounds]; [fill_bytes] is [StdRng::seed_from_u64] and
    [fill_bytes] on that many bytes. *)
Fixpoint initiator_rounds (left : nat) (round : Z) (fill_bytes : u64 -> Z -> bytes) (seed : u64)
    (args : InitiatorArgs) : BM unit :=
  match left with
  | O => mret tt
  | S left' =>
      initiator_round (a_offer_retries args) round (fill_bytes (wrapping_add64 seed round) (a_bytes args));;
      initiator_rounds left' (round + 1) fill_bytes seed args
  end.

(** One round of the responder. *)
Definition responder_round : BM (RecvFileResult * SendFileResult) :=
  '(recv_out, store) ← recv_into_memory;
  send_out ← map_fails SendFileFailed (send_file (T := T) (store_bytes store) default_send_config);
  mret (recv_out, send_out).
Fixpoint responder_rounds (left : nat) : BM unit :=
  match left with O => mret tt | S left' => responder_round;; responder_rounds left' end.

(** The end of both programs: the pump is stopped and joined, its error is only
    printed. *)
Definition finish (joined : bool) (bench_result : result unit (stop (BenchError CapnpError))) :
    result unit (stop (BenchError CapnpError)) :=
  match bench_result with
  | Ok _ | Err (Fails _) => if joined then bench_result else Err (Fails PumpNotJoined)
  | _ => bench_result
  end.

(** [run] of the initiator: [server] and [node] are what starting the bus server
    and connecting return, [random] the seed when none is given. *)
Definition run_initiator (args : InitiatorArgs) (server : bool) (node : option FtBus) (random : u64)
    (fill_bytes : u64 -> Z -> bytes) (joined : bool) : result unit (stop (BenchError CapnpError)) :=
  if a_start_bus_server args && negb server then Err (Fails BusServerNotStarted)
  else
    match node with
    | None => Err (Fails NotConnected)
    | Some b =>
        finish joined
          (initiator_rounds (Z.to_nat (a_rounds args)) 0 fill_bytes (default random (a_seed args)) args (make b)).1
    end.

Definition run_responder (args : ResponderArgs) (node : option FtBus) (joined : bool) :
    result unit (stop (BenchError CapnpError)) :=
  match node with
  | None => Err (Fails NotConnected)
  | Some b => finish joined (responder_rounds (Z.to_nat (b_rounds args)) (make b)).1
  end.
End programs.

(** * A round of the two programs *)

Section echo.
Context {T CapnpError : Type} `{HS : Sha256Laws T} `{HD : !DigestLength T}.
Context `{HL : CapnpLaws CapnpError} `{HC : !CapnpReadsU32 CapnpError}.
Abbreviation Inst := FileTransferBundleInstance.
Implicit Types i : Inst.

(** [shipped s0 files L]: the offers and chunks of the log are of the files sent
    by the calls since the next transfer id was [s0]; the [k]th call has the
    id [s0 + k]. *)
Definition shipped (s0 : u32) (files : list bytes) (L : list LogEntry) : Prop :=
  forall m x, tried m L -> sender_id m = Some x ->
    exists k file, files !! k = Some file /\ x = wrap 32 (s0 + Z.of_nat k) /\
    match m with
    | OfferMsg v => offer_total_len v = Z.of_nat (length file) /\ req_typed (offer_root v)
    | ChunkMsg v => (exists n, piece x file n v) /\ chunk_typed v
    | AckMsg _ => True
    end.

Lemma tried_app m L l : tried m (L ++ l) <-> tried m L \/ tried m l.
Proof.
  unfold tried. setoid_rewrite elem_of_app. split; [intros [[]|(e & [])]|intros [[|(e & ?)]|[|(e & ?)]]]; eauto.
Qed.

Lemma wrap32_add s a b : wrap 32 (wrap 32 (s + a) + b) = wrap 32 (s + (a + b)).
Proof. unfold wrap. rewrite Zplus_mod_idemp_l. f_equal. lia. Qed.
Lemma wrap32_inj s a b : (0 <= a < 2 ^ 32 -> 0 <= b < 2 ^ 32 -> wrap 32 (s + a) = wrap 32 (s + b) -> a = b)%Z.
Proof.
  unfold wrap. intros Ha Hb Heq. rewrite <- (Z.mod_small a (2 ^ 32)), <- (Z.mod_small b (2 ^ 32)) by lia.
  replace a with (s + a - s)%Z by lia. replace b with (s + b - s)%Z by lia.
  by rewrite (Zminus_mod (s + a)), (Zminus_mod (s + b)), Heq.
Qed.

(** What calls add to the log of the instance is of [files], one transfer id
    each. *)
Definition adds (files : list bytes) i i' : Prop :=
  next_transfer_id (send_state i') = wrap 32 (next_transfer_id (send_state i) + Z.of_nat (length files)) /\
  exists L, log (bus i') = log (bus i) ++ L /\ shipped (next_transfer_id (send_state i)) files L.

Lemma adds_quiet i i' :
  is_u32 (next_transfer_id (send_state i)) -> send_state i' = send_state i ->
  (exists L, log (bus i') = log (bus i) ++ L /\ forall x, ~ used L x) -> adds [] i i'.
Proof.
  intros Hi Hs (L & Hl & HL'). split; [simpl; by rewrite Hs, Z.add_0_r, wrap_small|]. exists L. split; [done|].
  intros m x Hm Hx. destruct (HL' x). by exists m.
Qed.
Lemma adds_refl i : is_u32 (next_transfer_id (send_state i)) -> adds [] i i.
Proof.
  intros Hi. apply adds_quiet; [done..|]. exists []. split; [by rewrite app_nil_r|].
  by intros x (m & [Hm|(e & Hm)] & _); apply not_elem_of_nil in Hm.
Qed.
Lemma adds_trans f1 f2 i1 i2 i3 : adds f1 i1 i2 -> adds f2 i2 i3 -> adds (f1 ++ f2) i1 i3.
Proof.
  intros (Hn1 & L1 & H1 & Hc1) (Hn2 & L2 & H2 & Hc2). rewrite Hn1 in Hn2, Hc2. split.
  { rewrite Hn2, wrap32_add. do 2 f_equal. len. }
  exists (L1 ++ L2). split; [by rewrite H2, H1, app_assoc|]. intros m x [Hm|Hm]%tried_app Hx.
  - destruct (Hc1 m x Hm Hx) as (k & file & Hk & Hr). exists k, file. split; [|done].
    rewrite lookup_app_l; [done|]. by eapply lookup_lt_Some.
  - destruct (Hc2 m x Hm Hx) as (k & file & Hk & -> & Hr). exists (length f1 + k), file.
    split_and!; [by rewrite lookup_app_r, Nat.add_sub' by lia| |done].
    rewrite wrap32_add. do 2 f_equal. lia.
Qed.
Lemma adds_u32 files i i' : adds files i i' -> is_u32 (next_transfer_id (send_state i')).
Proof. intros [-> _]. by apply wrap_in_width. Qed.

Lemma send_file_adds file config i :
  is_u32 (next_transfer_id (send_state i)) ->
  adds [file] i (send_file (T := T) (CapnpError := CapnpError) file config i).2.
Proof.
  intros Hi. unfold send_file, on_instance, on_field, send_file_impl, alloc_transfer_id.
  set (tid := next_transfer_id (send_state i)) in *.
  set (st := {| next_transfer_id := wrapping_add32 tid 1 |}).
  pose proof (send_file_with_id_spec (digest (T := T)) tid file config st (bus i)) as Hs.
  destruct (send_file_with_id_impl _ _ _ _ _) as [r [st' b']] eqn:Hrun. simpl.
  destruct Hs as (Hst & (L & Hl & HLog) & _). unfold st in Hst. rewrite observe_own in Hst by done. split.
  { by destruct Hst as [-> | ->]. }
  exists L. split; [done|]. intros m x Hm Hx. rewrite <- (call_log_app _ _ L Hl) in Hm.
  pose proof (sender_messages tid file config st (bus i) r st' b' m Hi Hrun Hm) as Hent. exists 0, file.
  assert (x = tid) as ->.
  { destruct m as [v|v|v]; [destruct Hent as [-> _]|destruct Hent as [[Hp _] _]|done]; simpl in *; congruence. }
  split_and!; [done|simpl; by rewrite Z.add_0_r, wrap_small|].
  destruct m as [v|v|v]; [destruct Hent as [-> Hf]; done|destruct Hent; split; [by eexists|done]|done].
Qed.

Lemma recv_adds i :
  is_u32 (next_transfer_id (send_state i)) ->
  adds [] i (recv_into_memory (T := T) (CapnpError := CapnpError) i).2.
Proof.
  intros Hi. unfold recv_into_memory, recv_file, on_bus, on_field. simpl.
  pose proof (recv_uses (T := T) (CapnpError := CapnpError) None default_receiver_config
    {| store_bytes := [] |} (bus i)) as Hu. simpl in Hu.
  destruct (recv_file_impl _ _) as [r [s b']].
  assert (Ha : adds [] i {| bus := b'; send_state := send_state i |}) by (by apply adds_quiet).
  by destruct r as [out|[e| |]|].
Qed.

Lemma send_attempts_adds left attempt offer_retries payload i :
  is_u32 (next_transfer_id (send_state i)) ->
  exists n, n <= left /\ adds (replicate n payload) i
    (send_attempts (T := T) (CapnpError := CapnpError) left attempt offer_retries payload i).2.
Proof.
  revert attempt i. induction left as [|left IH]; intros attempt i Hi; cbn [send_attempts].
  { exists 0. split; [lia|by apply adds_refl]. }
  pose proof (send_file_adds payload default_send_config i Hi) as Hs.
  destruct (send_file payload default_send_config i) as [[out|[e| |]|] i1]; try (exists 1; split; [lia|done]).
  simpl in Hs. destruct (is_timeout e && _); [|exists 1; split; [lia|done]].
  destruct (IH (attempt + 1) i1 (adds_u32 _ _ _ Hs)) as (n & Hn & Ha). exists (S n). split; [lia|].
  exact (adds_trans _ _ _ _ _ Hs Ha).
Qed.

(** A bus between two instances that makes nothing up: the mailboxes of [j]
    hold what [i] sent until it was [i'], any number of times and in any
    order. *)
Definition nothing_made_up (i i' j : Inst) : Prop :=
  forall tid, requests_from tid (call_log (bus i) (bus i')) (req_events (bus j)) /\
              chunks_from tid (call_log (bus i) (bus i')) (chunk_events (bus j)).

(** What is received is the file sent under the id that was received. *)
Lemma recv_shipped files i0 i1 j out store j' :
  adds files i0 i1 -> (Z.of_nat (length files) <= 2 ^ 32)%Z -> nothing_made_up i0 i1 j ->
  recv_into_memory (T := T) (CapnpError := CapnpError) j = (Ok (out, store), j') ->
  exists k, files !! k = Some (store_bytes store) /\
    got_transfer_id out = wrap 32 (next_transfer_id (send_state i0) + Z.of_nat k).
Proof.
  intros (_ & L & Hlog & Hc) Hlen Hfrom Hrun. unfold nothing_made_up in Hfrom.
  rewrite (call_log_app _ _ L Hlog) in Hfrom.
  unfold recv_into_memory, recv_file, on_bus, on_field in Hrun. simpl in Hrun.
  destruct (recv_file_impl _ _) as [[res|[e| |]|] [s b']] eqn:Hrecv; try done. injection Hrun as -> -> _.
  destruct (recv_file_stored _ _ _ _ _ _ Hrecv) as (L' & Hl & _ & -> & _).
  rewrite <- (call_log_app _ _ L' Hl). destruct (Hfrom (got_transfer_id out)) as [Hreq Hch].
  destruct (received_request None _ _ _ _ _ _ Hrecv) as (x & root & Hx & Hr & Hi).
  destruct (Hreq x root Hx Hr Hi) as (v & Hv & Hbody).
  destruct (Hc _ _ Hv eq_refl) as (k & file & Hk & Hid & _ & Hf).
  rewrite (offer_body_reads v x root Hf Hbody Hr) in Hi. simpl in Hi. rewrite Hid in Hi.
  assert (Huniq : forall k' file', files !! k' = Some file' ->
    got_transfer_id out = wrap 32 (next_transfer_id (send_state i0) + Z.of_nat k') -> file' = file).
  { intros k' file' Hk' Hid'. rewrite <- Hi in Hid'.
    apply wrap32_inj in Hid'; [|apply lookup_lt_Some in Hk; lia|apply lookup_lt_Some in Hk'; lia].
    apply Nat2Z.inj in Hid' as <-. congruence. }
  exists k. split; [|done]. rewrite Hk. f_equal. symmetry. eapply (received_file None file); [exact Hrecv|..].
  - intros y r Hy Hry Hiy. destruct (Hch y r Hy Hry Hiy) as (w & Hw & Hbw).
    destruct (Hc _ _ Hw eq_refl) as (k' & file' & Hk' & Hid' & [n Hp] & Hfw).
    rewrite (chunk_body_reads w y r Hfw Hbw Hry) in Hiy |- *. simpl in Hiy.
    rewrite <- (Huniq k' file' Hk'); [|by rewrite <- Hiy]. rewrite <- Hiy. by exists w, n.
  - intros y r Hy Hry Hiy. destruct (Hreq y r Hy Hry Hiy) as (w & Hw & Hbw).
    destruct (Hc _ _ Hw eq_refl) as (k' & file' & Hk' & Hid' & Hn & Hfw).
    rewrite (offer_body_reads w y r Hfw Hbw Hry) in Hiy |- *. simpl in Hiy |- *.
    rewrite <- (Huniq k' file' Hk'); [done|by rewrite <- Hiy].
Qed.

(** ** The two sides of a round *)

Lemma initiator_adds retries round payload i :
  is_u32 (next_transfer_id (send_state i)) ->
  exists n, n <= retries /\ adds (replicate n payload) i
    (initiator_round (T := T) (CapnpError := CapnpError) retries round payload i).2.
Proof.
  intros Hi. unfold initiator_round, mbind, M_bind.
  destruct (send_attempts_adds retries 0 retries payload i Hi) as (n & Hn & Hs). exists n. split; [done|].
  destruct (send_attempts _ _ _ _ i) as [[[out|]|e|] i1]; try done. simpl in *.
  pose proof (adds_trans _ _ _ _ _ Hs (recv_adds i1 (adds_u32 _ _ _ Hs))) as Hboth. rewrite app_nil_r in Hboth.
  destruct (recv_into_memory i1) as [[[res store]|e|] i2]; try done. by destruct (bool_decide _).
Qed.

(** The responder returns what it got, or sends nothing. *)
Lemma responder_adds j :
  is_u32 (next_transfer_id (send_state j)) ->
  exists files, adds files j (responder_round (T := T) (CapnpError := CapnpError) j).2 /\
    (files = [] \/ exists out store j1,
       recv_into_memory (T := T) (CapnpError := CapnpError) j = (Ok (out, store), j1) /\ files = [store_bytes store]).
Proof.
  intros Hj. unfold responder_round, mbind, M_bind. pose proof (recv_adds j Hj) as Hr.
  destruct (recv_into_memory j) as [[[res store]|e|] j1] eqn:Hrun; try (exists []; split; [done|by left]).
  simpl in Hr. exists [store_bytes store]. split; [|right; by eexists _, _, _].
  pose proof (send_file_adds (store_bytes store) default_send_config j1 (adds_u32 _ _ _ Hr)) as Hs.
  assert (Hboth := adds_trans _ _ _ _ _ Hr Hs). unfold map_fails.
  by destruct (send_file (store_bytes store) default_send_config j1) as [[out|[e| |]|] j2].
Qed.

(** ** Runs of rounds *)

(** The initiator went from [i] to [i'] in rounds with the payloads [ps], the
    responder from [j] to [j'] in [n] rounds, whatever the rounds returned. *)
Inductive initiated (retries : nat) (i : Inst) : list bytes -> Inst -> Prop :=
| initiated_none : initiated retries i [] i
| initiated_round ps i1 round p :
    initiated retries i ps i1 ->
    initiated retries i (ps ++ [p])
      (initiator_round (T := T) (CapnpError := CapnpError) retries round p i1).2.
Inductive responded (j : Inst) : nat -> Inst -> Prop :=
| responded_none : responded j 0 j
| responded_round n j1 :
    responded j n j1 -> responded j (S n) (responder_round (T := T) (CapnpError := CapnpError) j1).2.

Lemma initiated_adds retries i ps i' :
  is_u32 (next_transfer_id (send_state i)) -> initiated retries i ps i' ->
  exists files, adds files i i' /\ files ⊆ ps /\ length files <= retries * length ps.
Proof.
  intros Hi. induction 1 as [|ps i1 round p _ (files & Ha & Hsub & Hlen)].
  { exists []. split_and!; [by apply adds_refl|done|simpl; lia]. }
  destruct (initiator_adds retries round p i1 (adds_u32 _ _ _ Ha)) as (n & Hn & Hb).
  exists (files ++ replicate n p). split_and!; [by eapply adds_trans| |len].
  intros f [Hf|Hf]%elem_of_app; apply elem_of_app; [left; by apply Hsub|right].
  apply elem_of_replicate in Hf as [-> _]. by left.
Qed.
Lemma responded_adds j n j' :
  is_u32 (next_transfer_id (send_state j)) -> responded j n j' ->
  exists files, adds files j j' /\ length files <= n.
Proof.
  intros Hj. induction 1 as [|n j1 _ (files & Ha & Hlen)].
  { exists []. by split; [apply adds_refl|]. }
  destruct (responder_adds j1 (adds_u32 _ _ _ Ha)) as (f & Hb & Hf). exists (files ++ f).
  split; [by eapply adds_trans|]. destruct Hf as [->|(out & store & j2 & _ & ->)]; len.
Qed.

(** A file received in the middle of a run is of the run; it is of a part of
    the run or its id was not used in that part. *)
Lemma recv_part before part after i0 i1 i2 i3 j out store j1 :
  adds before i0 i1 -> adds part i1 i2 -> adds after i2 i3 ->
  (Z.of_nat (length (before ++ part ++ after)) <= 2 ^ 32)%Z -> nothing_made_up i0 i3 j ->
  recv_into_memory (T := T) (CapnpError := CapnpError) j = (Ok (out, store), j1) ->
  store_bytes store ∈ before ++ part ++ after /\
  (store_bytes store ∈ part \/ ~ used (call_log (bus i1) (bus i2)) (got_transfer_id out)).
Proof.
  intros Hb Hp Ha Hlen Hfrom Hrun.
  destruct (recv_shipped _ _ _ _ _ _ _ (adds_trans _ _ _ _ _ Hb (adds_trans _ _ _ _ _ Hp Ha)) Hlen Hfrom Hrun)
    as (k & Hk & Hid).
  split; [by eapply list_elem_of_lookup_2|].
  destruct (decide (length before <= k < length before + length part)) as [Hin|Hout].
  { left. rewrite lookup_app_r, lookup_app_l in Hk by lia. by eapply list_elem_of_lookup_2. }
  right. intros (m & Hm & Hx). destruct Hb as [Hn _], Hp as (_ & L & Hl & Hs).
  rewrite (call_log_app _ _ L Hl) in Hm. destruct (Hs m _ Hm Hx) as (k' & file & Hk' & Hid' & _).
  rewrite Hid, Hn, wrap32_add in Hid'. apply lookup_lt_Some in Hk, Hk'. rewrite !length_app in *.
  apply wrap32_inj in Hid'; lia.
Qed.

(** Sending reads the ack mailbox only. *)
Lemma send_attempts_reads left attempt offer_retries payload i :
  reads_acks (bus i) (bus (send_attempts (T := T) (CapnpError := CapnpError) left attempt offer_retries payload i).2).
Proof.
  revert attempt i. induction left as [|left IH]; intros attempt i; cbn [send_attempts]; [done|].
  unfold send_file, on_instance, on_field, send_file_impl, alloc_transfer_id.
  destruct (send_file_with_id_impl _ _ _ _ _) as [r [st' b']] eqn:Hrun. apply sender_takes in Hrun as [Hr _].
  destruct r as [out|[e| |]|]; try done. destruct (is_timeout e && _); [|done].
  specialize (IH (attempt + 1) {| bus := b'; send_state := st' |}). simpl in *.
  destruct Hr as (? & ? & ?), IH as (? & ? & ?). split_and!; [by etrans|congruence..].
Qed.

Definition mismatch {A} (r : result A (stop (BenchError CapnpError))) : Prop :=
  match r with Err (Fails (EchoMismatch _ _)) => True | _ => False end.

Lemma attempts_no_mismatch left attempt offer_retries payload i :
  ~ mismatch (send_attempts (T := T) (CapnpError := CapnpError) left attempt offer_retries payload i).1.
Proof.
  revert attempt i. induction left as [|left IH]; intros attempt i; cbn [send_attempts]; [by intros []|].
  destruct (send_file payload default_send_config i) as [[out|[e| |]|] i']; try (by intros []).
  destruct (is_timeout e && _); [apply IH|by intros []].
Qed.
Lemma recv_no_mismatch i : ~ mismatch (recv_into_memory (T := T) (CapnpError := CapnpError) i).1.
Proof.
  unfold recv_into_memory. destruct (recv_file _ _) as [[out|[e| |]|] [s i']]; by intros [].
Qed.

(** The first half of a round that ends in a mismatch: the file was sent and
    another one came back. *)
Lemma mismatch_received retries round payload i :
  mismatch (initiator_round (T := T) (CapnpError := CapnpError) retries round payload i).1 ->
  exists sent i1 out store,
    send_attempts (T := T) (CapnpError := CapnpError) retries 0 retries payload i = (Ok (Some sent), i1) /\
    recv_into_memory (T := T) (CapnpError := CapnpError) i1 =
      (Ok (out, store), (initiator_round (T := T) (CapnpError := CapnpError) retries round payload i).2) /\
    store_bytes store <> payload.
Proof.
  unfold initiator_round, mbind, M_bind. pose proof (attempts_no_mismatch retries 0 retries payload i) as Hn.
  destruct (send_attempts _ _ _ _ i) as [[[sent|]|e|] i1]; simpl in *; [|by intros []|done|by intros []].
  pose proof (recv_no_mismatch i1) as Hm.
  destruct (recv_into_memory i1) as [[[out store]|e|] i2] eqn:Hrecv; simpl in *; [|done|by intros []].
  case_bool_decide as Hd; [by intros []|]. intros _. by exists sent, i1, out, store.
Qed.

(** C6. A round of each program in the middle of a run, over a bus that loses,
    repeats, delays and reorders messages of the whole run but makes none up.
    The file the responder receives is one of the initiator's payloads, and
    the payload of the round if its transfer id is one the initiator used in
    this round.  A round of the initiator ends in an echo mismatch only
    through a transfer of another round: the responder took one the initiator
    did not send in this round, or the initiator one the responder did not
    send in its round. *)
Theorem echo_round retries ps qs round payload i0 i i' iN n m j0 j j' jN :
  is_u32 (next_transfer_id (send_state i0)) -> is_u32 (next_transfer_id (send_state j0)) ->
  initiated retries i0 ps i -> i' = (initiator_round (T := T) (CapnpError := CapnpError) retries round payload i).2 ->
  initiated retries i' qs iN ->
  responded j0 n j -> j' = (responder_round (T := T) (CapnpError := CapnpError) j).2 -> responded j' m jN ->
  (Z.of_nat (retries * length (ps ++ payload :: qs)) <= 2 ^ 32)%Z -> (Z.of_nat (n + 1 + m) <= 2 ^ 32)%Z ->
  nothing_made_up i0 iN j -> nothing_made_up j0 jN i ->
  (forall out store j1, recv_into_memory (T := T) (CapnpError := CapnpError) j = (Ok (out, store), j1) ->
     store_bytes store ∈ ps ++ payload :: qs /\
     (used (call_log (bus i) (bus i')) (got_transfer_id out) -> store_bytes store = payload)) /\
  (mismatch (initiator_round (T := T) (CapnpError := CapnpError) retries round payload i).1 ->
     (exists out store j1, recv_into_memory (T := T) (CapnpError := CapnpError) j = (Ok (out, store), j1) /\
        ~ used (call_log (bus i) (bus i')) (got_transfer_id out)) \/
     (exists sent i1 out store,
        send_attempts (T := T) (CapnpError := CapnpError) retries 0 retries payload i = (Ok (Some sent), i1) /\
        recv_into_memory (T := T) (CapnpError := CapnpError) i1 = (Ok (out, store), i') /\
        ~ used (call_log (bus j) (bus j')) (got_transfer_id out))).
Proof.
  intros Hi0 Hj0 Hps -> Hqs Hn -> Hm Hleni Hlenj Hij Hji.
  destruct (initiated_adds _ _ _ _ Hi0 Hps) as (fb & Hb & Hbs & Hbl).
  destruct (initiator_adds retries round payload i (adds_u32 _ _ _ Hb)) as (k & Hk & Hp).
  destruct (initiated_adds _ _ _ _ (adds_u32 _ _ _ Hp) Hqs) as (fa & Ha & Has & Hal).
  destruct (responded_adds _ _ _ Hj0 Hn) as (gb & Hgb & Hgbl).
  destruct (responder_adds j (adds_u32 _ _ _ Hgb)) as (gp & Hgp & Hgot).
  destruct (responded_adds _ _ _ (adds_u32 _ _ _ Hgp) Hm) as (ga & Hga & Hgal).
  rewrite length_app in Hleni. cbn [length] in Hleni.
  assert (Hgpl : length gp <= 1) by (by destruct Hgot as [->|(? & ? & ? & _ & ->)]; simpl; lia).
  assert (Hrj : forall out store j1,
    recv_into_memory (T := T) (CapnpError := CapnpError) j = (Ok (out, store), j1) ->
    store_bytes store ∈ ps ++ payload :: qs /\
    (store_bytes store = payload \/
     ~ used (call_log (bus i) (bus (initiator_round (T := T) (CapnpError := CapnpError) retries round payload i).2)) (got_transfer_id out))).
  { intros out store j1 Hrun.
    destruct (recv_part _ _ _ _ _ _ _ _ _ _ _ Hb Hp Ha ltac:(rewrite !length_app, length_replicate; nia) Hij Hrun) as [Hall Hpart].
    rewrite !elem_of_app, elem_of_replicate in Hall. rewrite elem_of_replicate in Hpart.
    rewrite elem_of_app, elem_of_cons. split; [|tauto]. destruct Hall as [?|[[? _]|?]]; auto. }
  split.
  { intros out store j1 Hrun. destruct (Hrj out store j1 Hrun) as [Hall [Heq|Hno]]; by split. }
  intros (sent & i1 & out & store & Hsent & Hrun & Hne)%mismatch_received.
  pose proof (send_attempts_reads retries 0 retries payload i) as Hkeep. rewrite Hsent in Hkeep.
  destruct Hkeep as (_ & Hreq & Hch). simpl in Hreq, Hch.
  assert (Hji1 : nothing_made_up j0 jN i1) by (unfold nothing_made_up; rewrite Hreq, Hch; exact Hji).
  destruct (recv_part _ _ _ _ _ _ _ _ _ _ _ Hgb Hgp Hga ltac:(rewrite !length_app; lia) Hji1 Hrun) as [_ [Hin|Hno]];
    [|right; by exists sent, i1, out, store].
  destruct Hgot as [->|(outj & storej & j1 & Hrunj & ->)]; [by apply not_elem_of_nil in Hin|].
  apply list_elem_of_singleton in Hin. left. exists outj, storej, j1. split; [done|].
  destruct (Hrj outj storej j1 Hrunj) as [_ [Heq|Hno]]; [congruence|done].
Qed.
End echo.

(** * Concrete rounds *)

(** The messages of the transfer [tid] of [file], with the options of the two
    programs. *)
Definition offer_of (tid : u32) (file : bytes) : FileOfferValue :=
  transfer_offer (digest (T := KeptInput)) tid file default_send_config.
Definition chunk_of (tid : u32) (file : bytes) : FileChunkValue :=
  nth_piece file (agreed_size default_send_config default_receiver_config) tid 0.
Definition acks_of (tid : u32) (file : bytes) : list FtMsg :=
  ack_msgs file tid default_send_config default_receiver_config.
Definition echo_instance (offers : list FileOfferValue) (chunks : list FileChunkValue) (acks : list FtMsg) :
    FileTransferBundleInstance :=
  make {| send_results := replicate 20 None; req_events := arriving (CapnpError := unit) (map OfferMsg offers);
          chunk_events := arriving (CapnpError := unit) (map ChunkMsg chunks);
          ack_events := arriving (CapnpError := unit) acks; log := [] |}.
Definition run_a (round : Z) (payload : bytes) (i : FileTransferBundleInstance) :=
  initiator_round (T := KeptInput) (CapnpError := unit) 8 round payload i.
Definition run_b (j : FileTransferBundleInstance) := responder_round (T := KeptInput) (CapnpError := unit) j.

(** Two rounds in which the bus repeats a chunk of the first round in the
    second one; both sides find the same messages in their mailboxes. *)
Definition first_payload : bytes := demo_content.
Definition second_payload : bytes := [1; 2; 3]%Z.
Definition echo_start : FileTransferBundleInstance :=
  echo_instance [offer_of 1 first_payload; offer_of 2 second_payload]
    [chunk_of 1 first_payload; chunk_of 1 first_payload; chunk_of 2 second_payload]
    (acks_of 1 first_payload ++ acks_of 2 second_payload).
Definition echo_a1 := run_a 0 first_payload echo_start.
Definition echo_a2 := run_a 1 second_payload echo_a1.2.
Definition echo_b1 := run_b echo_start.
Definition echo_b2 := run_b echo_b1.2.

Example echo_rounds_succeed :
  match echo_a1.1, echo_b1.1, echo_a2.1, echo_b2.1 with
  | Ok (s1, r1), Ok (r1', s1'), Ok (s2, r2), Ok (r2', s2') =>
      got_total_len r1' = 5%Z /\ got_total_len r1 = 5%Z /\ got_total_len r2' = 3%Z /\ got_total_len r2 = 3%Z /\
      sent_transfer_id s2 = 2%Z /\ sent_transfer_id s2' = 2%Z
  | _, _, _, _ => False
  end.
Proof. vm_compute. done. Qed.

Lemma echo_from os cs (i i' j : FileTransferBundleInstance) :
  req_events (bus j) = arriving (CapnpError := unit) (map OfferMsg os) ->
  chunk_events (bus j) = arriving (CapnpError := unit) (map ChunkMsg cs) ->
  Forall (fun v => req_fits (offer_root v) /\ OfferMsg v ∈ sent_msgs (call_log (bus i) (bus i'))) os ->
  Forall (fun v => chunk_fits v /\ ChunkMsg v ∈ sent_msgs (call_log (bus i) (bus i'))) cs ->
  nothing_made_up (CapnpError := unit) i i' j.
Proof.
  intros Hos Hcs Ho Hc tid. rewrite Forall_forall in Ho. rewrite Forall_forall in Hc. rewrite Hos, Hcs.
  split; intros x root Hx _ _; apply arriving_elem in Hx as (m & (v & -> & Hv)%list_elem_of_fmap & ->); exists v.
  - destruct (Ho v Hv) as [Hf Hin]. split; [by eapply pair_log_elem|by apply (wire_body_of (OfferMsg v))].
  - destruct (Hc v Hv) as [Hf Hin]. split; [by eapply pair_log_elem|by apply (wire_body_of (ChunkMsg v))].
Qed.

(** The second round of both programs. *)
Lemma echo_round_witness :
  exists out store j1, recv_into_memory (T := KeptInput) (CapnpError := unit) echo_b1.2 = (Ok (out, store), j1) /\
    got_transfer_id out = 2%Z /\ store_bytes store ∈ [first_payload; second_payload].
Proof.
  assert (Hr : exists out store j1,
    recv_into_memory (T := KeptInput) (CapnpError := unit) echo_b1.2 = (Ok (out, store), j1) /\
    got_transfer_id out = 2%Z) by (vm_compute; eexists _, _, _; split; reflexivity).
  destruct Hr as (out & store & j1 & Hr & Hid). exists out, store, j1. split; [exact Hr|]. split; [exact Hid|].
  assert (Ha : nothing_made_up (CapnpError := unit) echo_start echo_a2.2 echo_b1.2).
  { apply (echo_from [offer_of 2 second_payload] [chunk_of 1 first_payload; chunk_of 2 second_payload]);
      [vm_compute; reflexivity..| |]; repeat apply Forall_cons_2; try apply Forall_nil_2; split;
      vm_compute; repeat constructor; done. }
  assert (Hb : nothing_made_up (CapnpError := unit) echo_start echo_b2.2 echo_a1.2).
  { apply (echo_from [offer_of 2 second_payload] [chunk_of 1 first_payload; chunk_of 2 second_payload]);
      [vm_compute; reflexivity..| |]; repeat apply Forall_cons_2; try apply Forall_nil_2; split;
      vm_compute; repeat constructor; done. }
  assert (H0 : is_u32 (next_transfer_id (send_state echo_start))) by (split; vm_compute; done).
  pose proof (echo_round (T := KeptInput) (CapnpError := unit) 8 [first_payload] [] 1 second_payload
    echo_start echo_a1.2 echo_a2.2 echo_a2.2 1 0 echo_start echo_b1.2 echo_b2.2 echo_b2.2 H0 H0
    (initiated_round 8 echo_start [] echo_start 0 first_payload (initiated_none 8 echo_start))) as Hx.
  specialize (Hx ltac:(reflexivity)).
  specialize (Hx (initiated_none 8 _)).
  specialize (Hx (responded_round echo_start 0 echo_start (responded_none echo_start))).
  specialize (Hx ltac:(reflexivity)).
  specialize (Hx (responded_none _) ltac:(vm_compute; discriminate) ltac:(vm_compute; discriminate) Ha Hb).
  exact (proj1 (proj1 Hx out store j1 Hr)).
Defined.

(** A mismatch through a transfer of an earlier round: the bus repeats the
    offer and the chunk of the first round; the responder receives and returns
    the first payload again, and the initiator takes it for the echo of its
    second payload. *)
Definition stale_a : FileTransferBundleInstance :=
  echo_instance [offer_of 1 first_payload; offer_of 2 first_payload]
    [chunk_of 1 first_payload; chunk_of 2 first_payload] (acks_of 1 first_payload ++ acks_of 2 second_payload).
Definition stale_b : FileTransferBundleInstance :=
  echo_instance [offer_of 1 first_payload; offer_of 1 first_payload; offer_of 2 second_payload]
    [chunk_of 1 first_payload; chunk_of 1 first_payload; chunk_of 2 second_payload]
    (acks_of 1 first_payload ++ acks_of 2 first_payload ++ acks_of 3 second_payload).

Example stale_offer_mismatch :
  (run_a 1 second_payload (run_a 0 first_payload stale_a).2).1 = Err (Fails (EchoMismatch 2 3)) /\
  match (run_b (run_b stale_b).2).1 with Ok (got, _) => got_transfer_id got = 1%Z | _ => False end.
Proof. vm_compute. done. Qed.
