(* ===== verification/UnixWire.v ===== *)
(** * Frames and wire format of the Unix-socket CAN bus

    Models [embedded-can/embedded-can-unix-socket/src/frame.rs] and [wire.rs]:
    the frame type with its constructors, and the encoders and decoders of the
    messages between clients and server.  The identifier types of the
    [embedded_can] crate are a class with the laws of its newtypes.  The
    theorems give the round trips, and the decoders' behaviour on arbitrary
    bytes: no panic, and only well-formed frames come out. *)
From stdpp Require Import strings.
From S2P Require Import Prelude.

(** * Identifiers *)

(** [StandardId] and [ExtendedId] of [embedded_can]. *)
Class EmbeddedCan (SId EId : Type) := {
  StandardId_new : u16 -> option SId;
  StandardId_as_raw : SId -> u16;
  ExtendedId_new : u32 -> option EId;
  ExtendedId_as_raw : EId -> u32;
}.
Class EmbeddedCanLaws (SId EId : Type) `{EmbeddedCan SId EId} := {
  standard_new_raw : forall i : SId, StandardId_new (StandardId_as_raw i) = Some i;
  standard_raw_u16 : forall i : SId, is_u16 (StandardId_as_raw i);
  extended_new_raw : forall i : EId, ExtendedId_new (ExtendedId_as_raw i) = Some i;
  extended_raw_u32 : forall i : EId, is_u32 (ExtendedId_as_raw i);
}.

Inductive Id (SId EId : Type) := Standard (i : SId) | Extended (i : EId).
Arguments Standard {SId EId} i.
Arguments Extended {SId EId} i.

Inductive IdMask := StandardMask (m : u16) | ExtendedMask (m : u32).
Record IdMaskFilter (SId EId : Type) := { filter_id : Id SId EId; filter_mask : IdMask }.
Arguments filter_id {SId EId} _.
Arguments filter_mask {SId EId} _.

(** * Frames *)

Definition MAX_DLC : nat := 64.

Record UnixFrame (SId EId : Type) := {
  frame_id : Id SId EId;
  frame_data : bytes;
  frame_dlc : u8;
  frame_remote : bool;
}.
Arguments frame_id {SId EId} _.
Arguments frame_data {SId EId} _.
Arguments frame_dlc {SId EId} _.
Arguments frame_remote {SId EId} _.

(** * Messages *)

Definition MSG_SEND_FRAME : u8 := 1.
Definition MSG_FRAME : u8 := 2.
Definition MSG_ACK : u8 := 3.
Definition MSG_SET_FILTERS : u8 := 4.
Definition MSG_HELLO : u8 := 5.
Definition MSG_FILTERS_ACK : u8 := 6.

Definition ACK_OK : u8 := 0.
Definition ACK_NO_ACK : u8 := 1.
Definition ACK_BAD_FRAME : u8 := 2.
Definition ACK_SERVER_ERR : u8 := 3.

Definition FLAG_REMOTE : u8 := Z.shiftl 1 0.
Definition FLAG_EXTENDED : u8 := Z.shiftl 1 1.
Definition FLAG_EXPECT_ACK : u8 := Z.shiftl 1 2.

Definition MAX_PAYLOAD_LEN : nat := 64 * 64.
Definition MAX_DATA_LEN : nat := 64.
Definition SEND_FRAME_HDR_LEN : nat := 14.
Definition FRAME_HDR_LEN : nat := 6.
Definition ACK_LEN : nat := 9.

Inductive IoError := InvalidInput | InvalidData | UnexpectedEof | WriteFailed.

(** [flags & bit != 0]. *)
Definition has_flag (flags bit : u8) : bool := negb (Z.land flags bit =? 0)%Z.

(** [reader.read_exact(&mut buf)] with a buffer of [n] bytes, on a stream that
    ends after the given bytes. *)
Definition read_exact (n : nat) : M bytes IoError bytes := fun stream =>
  if n <=? length stream then (Ok (take n stream), drop n stream) else (Err UnexpectedEof, []).

(** [write_msg] on a writer that takes every byte; the state is what it got. *)
Definition write_msg (msg_type : u8) (payload : bytes) : M bytes IoError unit :=
  if (u32_max <? Z.of_nat (length payload))%Z then fail InvalidInput
  else
    header ← or_panic (set_at (replicate 5 0%Z) 0 msg_type);
    header ← or_panic (copy_at header 1 (to_le_bytes 4 (wrap 32 (Z.of_nat (length payload)))));
    modify (fun written => written ++ header);;
    modify (fun written => written ++ payload).

(** [read_msg_into]: the message type and the payload. *)
Definition read_msg_into : M bytes IoError (u8 * bytes) :=
  header ← read_exact 5;
  msg_type ← or_panic (header !! 0);
  len_bytes ← or_panic (slice header 1 5);
  let len := Z.to_nat (from_le_bytes len_bytes) in
  if MAX_PAYLOAD_LEN <? len then fail InvalidData
  else
    payload ← read_exact len;
    mret (msg_type, payload).

Section wire.
Context {SId EId : Type} `{EmbeddedCan SId EId}.
Abbreviation Frame := (UnixFrame SId EId).
Abbreviation Filter := (IdMaskFilter SId EId).

(** ** Frame constructors; [Err tt] is [None] *)

Definition frame_new (id : Id SId EId) (data : bytes) : result Frame unit :=
  if MAX_DLC <? length data then Err tt
  else
    let! buf := copy_at (replicate MAX_DLC 0%Z) 0 data in
    Ok {| frame_id := id; frame_data := buf; frame_dlc := wrap 8 (Z.of_nat (length data));
          frame_remote := false |}.

Definition frame_new_remote (id : Id SId EId) (dlc : nat) : result Frame unit :=
  if MAX_DLC <? dlc then Err tt
  else Ok {| frame_id := id; frame_data := replicate MAX_DLC 0%Z;
             frame_dlc := wrap 8 (Z.of_nat dlc); frame_remote := true |}.

Definition frame_is_extended (f : Frame) : bool :=
  match frame_id f with Extended _ => true | Standard _ => false end.

(** [Frame::data]: the outer [None] is a panic. *)
Definition frame_payload (f : Frame) : option bytes :=
  if frame_remote f then Some [] else slice (frame_data f) 0 (Z.to_nat (frame_dlc f)).

Definition from_parts (id : Id SId EId) (dlc : u8) (data : bytes) (remote : bool) : option Frame :=
  if MAX_DLC <? Z.to_nat dlc then None
  else Some {| frame_id := id; frame_data := data; frame_dlc := dlc; frame_remote := remote |}.

(** ** Encoders and decoders *)

Definition frame_flags (f : Frame) (expect_ack : bool) : u8 :=
  let flags := 0%Z in
  let flags := if frame_remote f then Z.lor flags FLAG_REMOTE else flags in
  let flags := if frame_is_extended f then Z.lor flags FLAG_EXTENDED else flags in
  if expect_ack then Z.lor flags FLAG_EXPECT_ACK else flags.

Definition frame_id_raw (id : Id SId EId) : u32 :=
  match id with Standard i => StandardId_as_raw i | Extended i => ExtendedId_as_raw i end.

Definition decode_frame_from_parts (flags : u8) (id_raw : u32) (dlc : u8) (data : bytes) :
    result Frame string :=
  let remote := has_flag flags FLAG_REMOTE in
  let? id := if has_flag flags FLAG_EXTENDED
             then let? i := ok_or (ExtendedId_new id_raw) "invalid extended id"%string in Ok (Extended i)
             else let? i := ok_or (StandardId_new (wrap 16 id_raw)) "invalid standard id"%string in
                  Ok (Standard i) in
  ok_or (from_parts id dlc data remote) "invalid frame"%string.

Record SendFrame := { sf_seq : u64; sf_expect_ack : bool; sf_frame : Frame }.

Definition encode_send_frame_into (seq : u64) (expect_ack : bool) (f : Frame) : M bytes unit nat :=
  copy_from_slice 0 (to_le_bytes 8 seq);;
  set_index 8 (frame_flags f expect_ack);;
  copy_from_slice 9 (to_le_bytes 4 (frame_id_raw (frame_id f)));;
  set_index 13 (frame_dlc f);;
  let dlc := Z.to_nat (frame_dlc f) in
  d ← or_panic (slice (frame_data f) 0 dlc);
  copy_from_slice 14 d;;
  mret (SEND_FRAME_HDR_LEN + dlc).

Definition decode_send_frame (payload : bytes) : result SendFrame string :=
  if length payload <? SEND_FRAME_HDR_LEN then Err "invalid send frame payload length"%string
  else
    let! seq := slice payload 0 8 in
    let! flags := payload !! 8 in
    let! id_raw := slice payload 9 13 in
    let! dlc := payload !! 13 in
    let dlc_usize := Z.to_nat dlc in
    if MAX_DATA_LEN <? dlc_usize then Err "invalid dlc"%string
    else
      let expected := SEND_FRAME_HDR_LEN + dlc_usize in
      if negb (length payload =? expected) then Err "invalid send frame payload length"%string
      else
        let! d := slice payload 14 (14 + dlc_usize) in
        let! data := copy_at (replicate MAX_DATA_LEN 0%Z) 0 d in
        let? frame := decode_frame_from_parts flags (from_le_bytes id_raw) dlc data in
        Ok {| sf_seq := from_le_bytes seq; sf_expect_ack := has_flag flags FLAG_EXPECT_ACK;
              sf_frame := frame |}.

Definition encode_frame_into (f : Frame) : M bytes unit nat :=
  set_index 0 (frame_flags f false);;
  copy_from_slice 1 (to_le_bytes 4 (frame_id_raw (frame_id f)));;
  set_index 5 (frame_dlc f);;
  let dlc := Z.to_nat (frame_dlc f) in
  d ← or_panic (slice (frame_data f) 0 dlc);
  copy_from_slice 6 d;;
  mret (FRAME_HDR_LEN + dlc).

Definition decode_frame (payload : bytes) : result Frame string :=
  if length payload <? FRAME_HDR_LEN then Err "invalid frame payload length"%string
  else
    let! flags := payload !! 0 in
    let! id_raw := slice payload 1 5 in
    let! dlc := payload !! 5 in
    let dlc_usize := Z.to_nat dlc in
    if MAX_DATA_LEN <? dlc_usize then Err "invalid dlc"%string
    else
      let expected := FRAME_HDR_LEN + dlc_usize in
      if negb (length payload =? expected) then Err "invalid frame payload length"%string
      else
        let! d := slice payload 6 (6 + dlc_usize) in
        let! data := copy_at (replicate MAX_DATA_LEN 0%Z) 0 d in
        decode_frame_from_parts flags (from_le_bytes id_raw) dlc data.

Definition encode_ack_into (seq : u64) (status : u8) : M bytes unit unit :=
  copy_from_slice 0 (to_le_bytes 8 seq);;
  set_index 8 status.

Definition decode_ack (payload : bytes) : result (u64 * u8) string :=
  if negb (length payload =? ACK_LEN) then Err "invalid ack payload length"%string
  else
    let! seq := slice payload 0 8 in
    let! status := payload !! 8 in
    Ok (from_le_bytes seq, status).

(** The flags, raw identifier and raw mask of a filter. *)
Definition filter_parts (f : Filter) : u8 * u32 * u32 :=
  match filter_id f, filter_mask f with
  | Standard i, StandardMask m => (0, StandardId_as_raw i, m)
  | Standard i, ExtendedMask _ => (0, StandardId_as_raw i, 0)
  | Extended i, ExtendedMask m => (FLAG_EXTENDED, ExtendedId_as_raw i, m)
  | Extended i, StandardMask _ => (FLAG_EXTENDED, ExtendedId_as_raw i, 0)
  end%Z.

Definition encode_filter (f : Filter) : bytes :=
  let '(flags, id_raw, mask_raw) := filter_parts f in
  [flags] ++ to_le_bytes 4 id_raw ++ to_le_bytes 4 mask_raw.

Definition encode_filters (seq : u64) (filters : list Filter) : bytes :=
  let count := wrap 16 (Z.of_nat (length filters)) in
  to_le_bytes 8 seq ++ to_le_bytes 2 count ++ concat (map encode_filter filters).

(** The [for _ in 0..count] loop. *)
Fixpoint decode_filters_loop (payload : bytes) (count offset : nat) (filters : list Filter) :
    result (list Filter) string :=
  match count with
  | O => Ok filters
  | S count' =>
      let! flags := payload !! offset in
      let! id_raw := slice payload (offset + 1) (offset + 5) in
      let! mask_raw := slice payload (offset + 5) (offset + 9) in
      let? f :=
        if has_flag flags FLAG_EXTENDED
        then let? i := ok_or (ExtendedId_new (from_le_bytes id_raw)) "invalid extended id"%string in
             Ok {| filter_id := Extended i; filter_mask := ExtendedMask (from_le_bytes mask_raw) |}
        else let? i := ok_or (StandardId_new (wrap 16 (from_le_bytes id_raw)))
                         "invalid standard id"%string in
             Ok {| filter_id := Standard i;
                   filter_mask := StandardMask (wrap 16 (from_le_bytes mask_raw)) |} in
      decode_filters_loop payload count' (offset + 9) (filters ++ [f])
  end.

Definition decode_filters (payload : bytes) : result (u64 * list Filter) string :=
  if length payload <? 10 then Err "invalid filters payload length"%string
  else
    let! seq := slice payload 0 8 in
    let! count_bytes := slice payload 8 10 in
    let count := Z.to_nat (from_le_bytes count_bytes) in
    let expected := 10 + count * 9 in
    if negb (length payload =? expected) then Err "invalid filters payload length"%string
    else
      let? filters := decode_filters_loop payload count 10 [] in
      Ok (from_le_bytes seq, filters).
End wire.
Arguments SendFrame SId EId : clear implicits.

(** * Round trips *)

Section wire_proofs.
Context {SId EId : Type} `{HL : EmbeddedCanLaws SId EId}.
Abbreviation Frame := (UnixFrame SId EId).
Abbreviation Filter := (IdMaskFilter SId EId).

(** The frames the crate can make: at most 64 bytes, zeros behind them. *)
Definition frame_wf (f : Frame) : Prop :=
  (0 <= frame_dlc f <= 64)%Z /\
  exists d, length d = Z.to_nat (frame_dlc f) /\
    frame_data f = d ++ replicate (MAX_DLC - length d) 0%Z.

Definition frame_content (f : Frame) : bytes := take (Z.to_nat (frame_dlc f)) (frame_data f).

Lemma frame_wf_content f :
  frame_wf f ->
  length (frame_content f) = Z.to_nat (frame_dlc f) /\ Z.to_nat (frame_dlc f) <= 64 /\
  frame_data f = frame_content f ++ replicate (64 - length (frame_content f)) 0%Z /\
  slice (frame_data f) 0 (Z.to_nat (frame_dlc f)) = Some (frame_content f).
Proof.
  intros (Hd & d & Hlen & Hf). unfold frame_content. rewrite Hf. unfold MAX_DLC.
  rewrite take_app_length' by done. split_and!; [done|lia|done|]. by apply slice_here.
Qed.

Lemma padded_copy d : length d <= 64 ->
  copy_at (replicate 64 0%Z) 0 d = Some (d ++ replicate (64 - length d) 0%Z).
Proof.
  intros Hd. rewrite copy_at_Some by (rewrite length_replicate; lia).
  by rewrite take_0, app_nil_l, Nat.add_0_l, drop_replicate.
Qed.

Lemma flags_back (f : Frame) e :
  has_flag (frame_flags f e) FLAG_REMOTE = frame_remote f /\
  has_flag (frame_flags f e) FLAG_EXTENDED = frame_is_extended f /\
  has_flag (frame_flags f e) FLAG_EXPECT_ACK = e.
Proof. unfold frame_flags. by destruct (frame_remote f), (frame_is_extended f), e. Qed.

Lemma id_raw_u32 (id : Id SId EId) : is_u32 (frame_id_raw id).
Proof.
  destruct id as [i|i]; simpl; [|apply extended_raw_u32].
  pose proof (standard_raw_u16 i). unfold in_width in *. lia.
Qed.

Lemma frame_parts_back f e :
  frame_wf f ->
  decode_frame_from_parts (frame_flags f e) (frame_id_raw (frame_id f)) (frame_dlc f) (frame_data f) =
    Ok f.
Proof.
  intros [Hdlc _]. unfold decode_frame_from_parts. destruct (flags_back f e) as (-> & -> & _).
  unfold frame_is_extended, from_parts, MAX_DLC.
  destruct (Nat.ltb_spec 64 (Z.to_nat (frame_dlc f))); [lia|].
  destruct f as [[i|i] data dlc r]; simpl.
  - rewrite wrap_small by apply standard_raw_u16. by rewrite standard_new_raw.
  - by rewrite extended_new_raw.
Qed.

(** The payload of a [MSG_SEND_FRAME] and of a [MSG_FRAME]. *)
Definition frame_bytes (e : bool) (f : Frame) : bytes :=
  [frame_flags f e] ++ to_le_bytes 4 (frame_id_raw (frame_id f)) ++ [frame_dlc f] ++ frame_content f.

(** Run the next write of an encoder. *)
Ltac fill := erewrite bind_ok by (first [apply copy_next | apply set_next]; solve [len]).

Lemma encode_frame_run f out :
  frame_wf f -> length out = FRAME_HDR_LEN + MAX_DATA_LEN ->
  encode_frame_into f out =
    (Ok (length (frame_bytes false f)),
     frame_bytes false f ++ drop (length (frame_bytes false f)) out).
Proof.
  intros Hf%frame_wf_content Ho. destruct Hf as (Hc & Hle & _ & Hs).
  unfold FRAME_HDR_LEN, MAX_DATA_LEN in Ho. unfold encode_frame_into, frame_bytes.
  erewrite bind_ok by (apply (set_next [] out); [done|lia]).
  fill. fill. cbv zeta. erewrite bind_ok by (unfold or_panic; by rewrite Hs). fill.
  unfold mret, M_ret. rewrite !drop_drop, !length_app, length_to_le_bytes, Hc. simpl.
  f_equal.
Qed.

Lemma decode_frame_bytes f : frame_wf f -> decode_frame (frame_bytes false f) = Ok f.
Proof.
  intros Hf. destruct (frame_wf_content f Hf) as (Hc & Hle & Hd & Hs).
  unfold decode_frame, FRAME_HDR_LEN, MAX_DATA_LEN.
  assert (Hlen : length (frame_bytes false f) = 6 + length (frame_content f)) by (unfold frame_bytes; len).
  rewrite Hlen. destruct (Nat.ltb_spec (6 + length (frame_content f)) 6); [lia|].
  assert (Hsl : slice (frame_bytes false f) 1 5 = Some (to_le_bytes 4 (frame_id_raw (frame_id f)))).
  { unfold frame_bytes. rewrite slice_skip by (simpl; lia). by apply slice_here. }
  assert (Hd5 : frame_bytes false f !! 5 = Some (frame_dlc f)).
  { unfold frame_bytes. rewrite !lookup_app_r by (simpl; rewrite ?length_to_le_bytes; lia). done. }
  assert (Hdata : slice (frame_bytes false f) 6 (6 + Z.to_nat (frame_dlc f)) = Some (frame_content f)).
  { unfold frame_bytes. rewrite !slice_skip by (simpl; rewrite ?length_to_le_bytes; simpl; lia).
    rewrite <- (app_nil_r (frame_content f)) at 1. apply slice_here. rewrite length_to_le_bytes. simpl. lia. }
  change (frame_bytes false f !! 0) with (Some (frame_flags f false)). rewrite Hsl, Hd5, Hdata.
  destruct (Nat.ltb_spec 64 (Z.to_nat (frame_dlc f))); [lia|].
  rewrite Hc, Nat.eqb_refl. simpl negb. rewrite padded_copy, <- Hd by lia.
  rewrite from_to_le_bytes_small by apply id_raw_u32. by apply frame_parts_back.
Qed.

(** ** Send-frame messages *)

Definition send_frame_bytes (seq : u64) (e : bool) (f : Frame) : bytes :=
  to_le_bytes 8 seq ++ frame_bytes e f.

Lemma encode_send_frame_run seq e f out :
  frame_wf f -> length out = SEND_FRAME_HDR_LEN + MAX_DATA_LEN ->
  encode_send_frame_into seq e f out =
    (Ok (length (send_frame_bytes seq e f)),
     send_frame_bytes seq e f ++ drop (length (send_frame_bytes seq e f)) out).
Proof.
  intros Hf%frame_wf_content Ho. destruct Hf as (Hc & Hle & _ & Hs).
  unfold SEND_FRAME_HDR_LEN, MAX_DATA_LEN in Ho.
  unfold encode_send_frame_into, send_frame_bytes, frame_bytes.
  erewrite bind_ok by (apply (copy_next [] out); [done|len]).
  fill. fill. fill. cbv zeta. erewrite bind_ok by (unfold or_panic; by rewrite Hs). fill.
  unfold mret, M_ret. rewrite !drop_drop, !length_app, !length_to_le_bytes, Hc. simpl.
  f_equal.
Qed.

Lemma decode_send_frame_bytes seq e f :
  is_u64 seq -> frame_wf f ->
  decode_send_frame (send_frame_bytes seq e f) =
    Ok {| sf_seq := seq; sf_expect_ack := e; sf_frame := f |}.
Proof.
  intros Hseq Hf. destruct (frame_wf_content f Hf) as (Hc & Hle & Hd & Hs).
  unfold decode_send_frame, SEND_FRAME_HDR_LEN, MAX_DATA_LEN.
  set (p := send_frame_bytes seq e f).
  assert (Hlen : length p = 14 + length (frame_content f)) by (unfold p, send_frame_bytes, frame_bytes; len).
  rewrite Hlen. destruct (Nat.ltb_spec (14 + length (frame_content f)) 14); [lia|].
  assert (Hp0 : slice p 0 8 = Some (to_le_bytes 8 seq)) by (by apply slice_here).
  assert (Hp8 : p !! 8 = Some (frame_flags f e)).
  { unfold p, send_frame_bytes. by rewrite lookup_app_r by (rewrite length_to_le_bytes; lia). }
  assert (Hp9 : slice p 9 13 = Some (to_le_bytes 4 (frame_id_raw (frame_id f)))).
  { unfold p, send_frame_bytes, frame_bytes.
    rewrite !slice_skip by (simpl; rewrite ?length_to_le_bytes; simpl; lia). by apply slice_here. }
  assert (Hp13 : p !! 13 = Some (frame_dlc f)).
  { unfold p, send_frame_bytes, frame_bytes.
    rewrite !lookup_app_r by (simpl; rewrite ?length_to_le_bytes; simpl; lia). done. }
  assert (Hp14 : slice p 14 (14 + Z.to_nat (frame_dlc f)) = Some (frame_content f)).
  { unfold p, send_frame_bytes, frame_bytes.
    rewrite !slice_skip by (simpl; rewrite ?length_to_le_bytes; simpl; lia).
    rewrite <- (app_nil_r (frame_content f)) at 1. apply slice_here. rewrite !length_to_le_bytes. simpl. lia. }
  rewrite Hp0, Hp8, Hp9, Hp13, Hp14. destruct (Nat.ltb_spec 64 (Z.to_nat (frame_dlc f))); [lia|].
  rewrite Hc, Nat.eqb_refl. simpl negb. rewrite padded_copy, <- Hd by lia.
  rewrite (from_to_le_bytes_small 4) by apply id_raw_u32. rewrite frame_parts_back by done.
  rewrite from_to_le_bytes_small by done. by destruct (flags_back f e) as (_ & _ & ->).
Qed.

(** ** Acks and filters *)

Definition ack_bytes (seq : u64) (status : u8) : bytes := to_le_bytes 8 seq ++ [status].

Lemma encode_ack_run seq status out :
  length out = ACK_LEN -> encode_ack_into seq status out = (Ok tt, ack_bytes seq status).
Proof.
  unfold ACK_LEN. intros Ho. unfold encode_ack_into.
  erewrite bind_ok by (apply (copy_next [] out); [done|len]).
  rewrite set_next by len. rewrite drop_drop, drop_ge by len. by rewrite app_nil_r.
Qed.

Lemma decode_ack_bytes seq status :
  is_u64 seq -> decode_ack (ack_bytes seq status) = Ok (seq, status).
Proof.
  intros Hs. unfold decode_ack, ack_bytes. rewrite length_app, length_to_le_bytes.
  change (8 + length [status] =? ACK_LEN) with true. cbn [negb].
  rewrite slice_here by (by rewrite length_to_le_bytes).
  rewrite lookup_app_r by (rewrite length_to_le_bytes; lia). rewrite length_to_le_bytes. simpl.
  by rewrite from_to_le_bytes_small.
Qed.

(** A filter as the wire carries it: a mask of the other kind counts as 0. *)
Definition wire_filter (f : Filter) : Filter :=
  match filter_id f, filter_mask f with
  | Standard _, ExtendedMask _ => {| filter_id := filter_id f; filter_mask := StandardMask 0 |}
  | Extended _, StandardMask _ => {| filter_id := filter_id f; filter_mask := ExtendedMask 0 |}
  | _, _ => f
  end.
Definition mask_ok (f : Filter) : Prop :=
  match filter_mask f with StandardMask m => is_u16 m | ExtendedMask m => is_u32 m end.

Lemma encode_filter_length (f : Filter) : length (encode_filter f) = 9.
Proof. unfold encode_filter. destruct (filter_parts f) as [[? ?] ?]. len. Qed.

Lemma encode_filters_body_length (fs : list Filter) : length (concat (map encode_filter fs)) = 9 * length fs.
Proof. induction fs as [|f fs IH]; simpl; [done|]. rewrite length_app, IH, encode_filter_length. lia. Qed.

(** One round of the decoding loop reads one encoded filter. *)
Lemma decode_filter_round l1 (f : Filter) l2 n off acc :
  mask_ok f -> off = length l1 ->
  decode_filters_loop (l1 ++ encode_filter f ++ l2) (S n) off acc =
  decode_filters_loop (l1 ++ encode_filter f ++ l2) n (off + 9) (acc ++ [wire_filter f]).
Proof.
  intros Hm ->. cbn [decode_filters_loop].
  destruct (filter_parts f) as [[flags id_raw] mask_raw] eqn:Hp.
  assert (He : encode_filter f = [flags] ++ to_le_bytes 4 id_raw ++ to_le_bytes 4 mask_raw)
    by (unfold encode_filter; by rewrite Hp).
  assert (H0 : (l1 ++ encode_filter f ++ l2) !! length l1 = Some flags).
  { rewrite He, lookup_app_r, Nat.sub_diag by lia. done. }
  assert (H1 : slice (l1 ++ encode_filter f ++ l2) (length l1 + 1) (length l1 + 5) =
               Some (to_le_bytes 4 id_raw)).
  { rewrite He, <- !app_assoc, !slice_skip by (simpl; lia). simpl length.
    replace (length l1 + 1 - length l1 - 1) with 0 by lia. apply slice_here.
    rewrite length_to_le_bytes. lia. }
  assert (H5 : slice (l1 ++ encode_filter f ++ l2) (length l1 + 5) (length l1 + 9) =
               Some (to_le_bytes 4 mask_raw)).
  { rewrite He, <- !app_assoc, !slice_skip by (rewrite ?length_to_le_bytes; simpl; lia).
    rewrite length_to_le_bytes. simpl length.
    replace (length l1 + 5 - length l1 - 1 - 4) with 0 by lia. apply slice_here.
    rewrite length_to_le_bytes. lia. }
  rewrite H0, H1, H5.
  assert (Hparts : is_u32 id_raw /\ is_u32 mask_raw).
  { unfold filter_parts, mask_ok in *.
    destruct (filter_id f) as [i|i], (filter_mask f) as [m|m]; simplify_eq;
      try pose proof (standard_raw_u16 i); try pose proof (extended_raw_u32 i); unfold in_width in *; lia. }
  rewrite !from_to_le_bytes_small by apply Hparts.
  unfold filter_parts, mask_ok, wire_filter in *.
  destruct f as [[i|i] [m|m]]; simpl in *; simplify_eq; simpl;
    rewrite ?(wrap_small 16 (StandardId_as_raw i)), ?standard_new_raw, ?extended_new_raw
      by apply standard_raw_u16; simpl; rewrite ?wrap_small by done; done.
Qed.

Lemma decode_filters_all fs pre acc :
  Forall mask_ok fs ->
  decode_filters_loop (pre ++ concat (map encode_filter fs)) (length fs) (length pre) acc =
    Ok (acc ++ map wire_filter fs).
Proof.
  intros Hm. revert pre acc. induction Hm as [|f fs Hf _ IH]; intros pre acc;
    [simpl; by rewrite (app_nil_r acc)|].
  cbn [map concat length]. rewrite decode_filter_round by done.
  replace (length pre + 9) with (length (pre ++ encode_filter f))
    by (rewrite length_app, encode_filter_length; lia).
  rewrite app_assoc, IH. by rewrite <- app_assoc.
Qed.

Lemma decode_encode_filters seq fs :
  is_u64 seq -> Forall mask_ok fs -> (Z.of_nat (length fs) < 65536)%Z ->
  decode_filters (encode_filters seq fs) = Ok (seq, map wire_filter fs).
Proof.
  intros Hs Hm Hn. unfold encode_filters.
  assert (Hc : is_u16 (Z.of_nat (length fs))) by (unfold in_width; lia).
  rewrite (wrap_small 16) by done. unfold decode_filters.
  rewrite !length_app, !length_to_le_bytes, encode_filters_body_length.
  destruct (Nat.ltb_spec (8 + (2 + 9 * length fs)) 10); [lia|].
  rewrite slice_here by (by rewrite length_to_le_bytes).
  rewrite slice_skip, slice_here by (rewrite ?length_to_le_bytes; lia).
  rewrite (from_to_le_bytes_small 2), Nat2Z.id by done.
  destruct (Nat.eqb_spec (8 + (2 + 9 * length fs)) (10 + length fs * 9)); [|lia]. cbn [negb].
  pose proof (decode_filters_all fs (to_le_bytes 8 seq ++ to_le_bytes 2 (Z.of_nat (length fs))) [] Hm) as Hd.
  rewrite length_app, !length_to_le_bytes, <- app_assoc in Hd. simpl Nat.add in Hd. rewrite Hd.
  by rewrite from_to_le_bytes_small.
Qed.

(** ** The decoders on arbitrary bytes *)

Lemma frame_from_parts_wf flags id_raw dlc d f :
  (0 <= dlc <= 64)%Z -> length d = Z.to_nat dlc ->
  decode_frame_from_parts flags id_raw dlc (d ++ replicate (64 - length d) 0%Z) = Ok f -> frame_wf f.
Proof.
  intros Hdlc Hd. unfold decode_frame_from_parts, from_parts, ok_or, MAX_DLC.
  destruct (Nat.ltb_spec 64 (Z.to_nat dlc)); [lia|]. intros Hr.
  assert (Hf : frame_dlc f = dlc /\ frame_data f = d ++ replicate (64 - length d) 0%Z).
  { revert Hr. destruct (has_flag flags FLAG_EXTENDED);
      [destruct (ExtendedId_new _)|destruct (StandardId_new _)]; intros [= <-]; done. }
  destruct Hf as [Hdl Hda]. split; rewrite Hdl; [done|]. by exists d.
Qed.

Lemma frame_from_parts_no_panic flags id_raw dlc d :
  decode_frame_from_parts (SId := SId) (EId := EId) flags id_raw dlc d <> Panic.
Proof. unfold decode_frame_from_parts, from_parts, ok_or. repeat case_match; simplify_eq; done. Qed.

Lemma decode_frame_no_panic p : decode_frame (SId := SId) (EId := EId) p <> Panic.
Proof.
  unfold decode_frame, FRAME_HDR_LEN, MAX_DATA_LEN.
  destruct (Nat.ltb_spec (length p) 6); [done|].
  destruct (lookup_lt_is_Some_2 p 0 ltac:(lia)) as [flags ->].
  destruct (lookup_lt_is_Some_2 p 5 ltac:(lia)) as [dlc ->].
  rewrite (slice_Some p 1 5) by lia.
  destruct (Nat.ltb_spec 64 (Z.to_nat dlc)); [done|].
  destruct (Nat.eqb_spec (length p) (6 + Z.to_nat dlc)) as [Hl|]; [|done]. cbn [negb].
  rewrite (slice_Some p 6) by lia. rewrite padded_copy by len. apply frame_from_parts_no_panic.
Qed.

Lemma decode_ack_no_panic p : decode_ack p <> Panic.
Proof.
  unfold decode_ack, ACK_LEN. destruct (Nat.eqb_spec (length p) 9); [|done]. cbn [negb].
  rewrite slice_Some by lia. by destruct (lookup_lt_is_Some_2 p 8 ltac:(lia)) as [x ->].
Qed.

Lemma decode_frame_safe p :
  Forall is_u8 p ->
  decode_frame p <> Panic /\ forall f : Frame, decode_frame p = Ok f -> frame_wf f.
Proof.
  intros Hu. unfold decode_frame, FRAME_HDR_LEN, MAX_DATA_LEN.
  destruct (Nat.ltb_spec (length p) 6); [done|].
  destruct (lookup_lt_is_Some_2 p 0 ltac:(lia)) as [flags ->].
  destruct (lookup_lt_is_Some_2 p 5 ltac:(lia)) as [dlc Hdlc]. rewrite Hdlc.
  assert (Hd : (0 <= dlc)%Z) by (apply (Forall_lookup_1 _ _ _ _ Hu Hdlc)).
  rewrite (slice_Some p 1 5) by lia.
  destruct (Nat.ltb_spec 64 (Z.to_nat dlc)); [done|].
  destruct (Nat.eqb_spec (length p) (6 + Z.to_nat dlc)) as [Hl|]; [|done]. cbn [negb].
  rewrite (slice_Some p 6) by lia. rewrite padded_copy by len.
  split; [apply frame_from_parts_no_panic|]. intros f. apply frame_from_parts_wf; [lia|len].
Qed.

Lemma decode_send_frame_safe p :
  Forall is_u8 p ->
  decode_send_frame p <> Panic /\
  forall sf : SendFrame SId EId, decode_send_frame p = Ok sf -> frame_wf (sf_frame sf).
Proof.
  intros Hu. unfold decode_send_frame, SEND_FRAME_HDR_LEN, MAX_DATA_LEN.
  destruct (Nat.ltb_spec (length p) 14); [done|].
  destruct (lookup_lt_is_Some_2 p 8 ltac:(lia)) as [flags ->].
  destruct (lookup_lt_is_Some_2 p 13 ltac:(lia)) as [dlc Hdlc]. rewrite Hdlc.
  assert (Hd : (0 <= dlc)%Z) by (apply (Forall_lookup_1 _ _ _ _ Hu Hdlc)).
  rewrite (slice_Some p 0 8), (slice_Some p 9 13) by lia.
  destruct (Nat.ltb_spec 64 (Z.to_nat dlc)); [done|].
  destruct (Nat.eqb_spec (length p) (14 + Z.to_nat dlc)) as [Hl|]; [|done]. cbn [negb].
  rewrite (slice_Some p 14) by lia. rewrite padded_copy by len.
  destruct (decode_frame_from_parts _ _ _ _) as [f|e|] eqn:Hf.
  - split; [done|]. intros sf [= <-]. eapply frame_from_parts_wf; [| |exact Hf]; [lia|len].
  - done.
  - by apply frame_from_parts_no_panic in Hf.
Qed.

Lemma decode_filters_loop_safe p n off acc :
  off + 9 * n <= length p -> decode_filters_loop (SId := SId) (EId := EId) p n off acc <> Panic.
Proof.
  revert off acc. induction n as [|n IH]; intros off acc Hl; cbn [decode_filters_loop]; [done|].
  destruct (lookup_lt_is_Some_2 p off ltac:(lia)) as [flags ->].
  rewrite !slice_Some by lia. destruct (has_flag flags FLAG_EXTENDED); unfold ok_or.
  - destruct (ExtendedId_new _); [apply IH; lia|done].
  - destruct (StandardId_new _); [apply IH; lia|done].
Qed.

Lemma decode_filters_safe p : decode_filters (SId := SId) (EId := EId) p <> Panic.
Proof.
  unfold decode_filters. destruct (Nat.ltb_spec (length p) 10); [done|].
  rewrite !slice_Some by lia. set (n := Z.to_nat _).
  destruct (Nat.eqb_spec (length p) (10 + n * 9)); [|done]. cbn [negb].
  pose proof (decode_filters_loop_safe p n 10 [] ltac:(lia)) as Hs.
  by destruct (decode_filters_loop p n 10 []).
Qed.

(** ** The byte stream *)

Definition msg_bytes (msg_type : u8) (payload : bytes) : bytes :=
  [msg_type] ++ to_le_bytes 4 (Z.of_nat (length payload)) ++ payload.

Lemma write_msg_run msg_type payload w :
  (Z.of_nat (length payload) <= u32_max)%Z ->
  write_msg msg_type payload w = (Ok tt, w ++ msg_bytes msg_type payload).
Proof.
  intros Hl. unfold write_msg. destruct (Z.ltb_spec u32_max (Z.of_nat (length payload))); [lia|].
  rewrite wrap_small by (unfold in_width, u32_max in *; lia).
  erewrite bind_ok by (unfold or_panic; rewrite set_at_Some by (simpl; lia); reflexivity).
  erewrite bind_ok.
  2:{ unfold or_panic. rewrite (copy_at_app [msg_type] (replicate 4 0%Z) [] 1) by done. reflexivity. }
  erewrite bind_ok by reflexivity. unfold modify, msg_bytes. by rewrite app_nil_r, <- !app_assoc.
Qed.

Lemma read_msg_run msg_type payload rest :
  length payload <= MAX_PAYLOAD_LEN ->
  read_msg_into (msg_bytes msg_type payload ++ rest) = (Ok (msg_type, payload), rest).
Proof.
  intros Hl. unfold MAX_PAYLOAD_LEN in Hl. unfold read_msg_into, msg_bytes.
  erewrite bind_ok.
  2:{ unfold read_exact. destruct (Nat.leb_spec 5 (length (([msg_type] ++
        to_le_bytes 4 (Z.of_nat (length payload)) ++ payload) ++ rest))); [|len].
      rewrite <- !app_assoc. rewrite (app_assoc [msg_type]).
      assert (Hh : 5 = length ([msg_type] ++ to_le_bytes 4 (Z.of_nat (length payload)))) by len.
      rewrite take_app_length', drop_app_length' by exact Hh. reflexivity. }
  erewrite bind_ok by reflexivity.
  erewrite bind_ok.
  2:{ unfold or_panic. rewrite (slice_skip [msg_type]) by (simpl; lia). simpl length.
      rewrite <- (app_nil_r (to_le_bytes 4 _)), slice_here by done. reflexivity. }
  rewrite from_to_le_bytes_small by (unfold in_width; lia). rewrite Nat2Z.id.
  destruct (Nat.ltb_spec MAX_PAYLOAD_LEN (length payload)); [unfold MAX_PAYLOAD_LEN in *; lia|].
  erewrite bind_ok; [reflexivity|]. unfold read_exact.
  destruct (Nat.leb_spec (length payload) (length (payload ++ rest))); [|len].
  by rewrite take_app_length, drop_app_length.
Qed.

Lemma read_msg_too_long msg_type payload rest :
  MAX_PAYLOAD_LEN < length payload -> (Z.of_nat (length payload) <= u32_max)%Z ->
  (read_msg_into (msg_bytes msg_type payload ++ rest)).1 = Err InvalidData.
Proof.
  intros Hl Hm. unfold read_msg_into, msg_bytes.
  erewrite bind_ok.
  2:{ unfold read_exact. destruct (Nat.leb_spec 5 (length (([msg_type] ++
        to_le_bytes 4 (Z.of_nat (length payload)) ++ payload) ++ rest))); [|len].
      rewrite <- !app_assoc. rewrite (app_assoc [msg_type]).
      assert (Hh : 5 = length ([msg_type] ++ to_le_bytes 4 (Z.of_nat (length payload)))) by len.
      rewrite take_app_length', drop_app_length' by exact Hh. reflexivity. }
  erewrite bind_ok by reflexivity.
  erewrite bind_ok.
  2:{ unfold or_panic. rewrite (slice_skip [msg_type]) by (simpl; lia). simpl length.
      rewrite <- (app_nil_r (to_le_bytes 4 _)), slice_here by done. reflexivity. }
  rewrite from_to_le_bytes_small by (unfold in_width, u32_max in *; lia). rewrite Nat2Z.id.
  destruct (Nat.ltb_spec MAX_PAYLOAD_LEN (length payload)); [done|lia].
Qed.

Lemma take_prefix {A} (l1 l2 : list A) : take (length l1) (l1 ++ l2) = l1.
Proof. apply take_app_length. Qed.

(** A payload written as a message is read back, whatever follows it. *)
Lemma msg_round_trip msg_type payload w rest :
  length payload <= MAX_PAYLOAD_LEN ->
  exists m, write_msg msg_type payload w = (Ok tt, w ++ m) /\
    read_msg_into (m ++ rest) = (Ok (msg_type, payload), rest).
Proof.
  intros Hl. exists (msg_bytes msg_type payload). split; [|by apply read_msg_run].
  apply write_msg_run. unfold MAX_PAYLOAD_LEN, u32_max in *. lia.
Qed.

(** [UnixFrame::new] refuses exactly data of more than 64 bytes; the frame
    it makes is well formed, and gives the data back; a remote frame carries
    its length code and no data. *)
Theorem frame_new_spec (id : Id SId EId) data dlc :
  match frame_new id data with
  | Ok f => length data <= 64 /\ frame_wf f /\ frame_payload f = Some data /\ frame_id f = id
  | Err _ => 64 < length data
  | Panic => False
  end /\
  match frame_new_remote id dlc with
  | Ok f => dlc <= 64 /\ frame_wf f /\ frame_payload f = Some [] /\ Z.to_nat (frame_dlc f) = dlc
  | Err _ => 64 < dlc
  | Panic => False
  end.
Proof.
  unfold frame_new, frame_new_remote, frame_wf, frame_payload, MAX_DLC. split.
  - destruct (Nat.ltb_spec 64 (length data)); [done|]. rewrite padded_copy by done. cbn.
    rewrite (wrap_small 8) by (unfold in_width; lia). rewrite Nat2Z.id.
    split_and!; [done|lia..|by exists data|by apply slice_here|done].
  - destruct (Nat.ltb_spec 64 dlc); [done|]. cbn [frame_dlc frame_data frame_remote].
    rewrite (wrap_small 8) by (unfold in_width; lia). rewrite Nat2Z.id.
    split_and!; [done|lia..| |done|done]. exists (replicate dlc 0%Z).
    rewrite length_replicate. split; [done|]. rewrite <- replicate_add. f_equal. lia.
Qed.

(** A frame a client sends arrives at the server: encoding it into any
    buffer, writing the message to the stream, reading the next message of the
    stream and decoding it gives the frame, the sequence number and the
    ack flag back, and leaves the rest of the stream. *)
Theorem send_frame_round_trip seq e (f : Frame) out w rest :
  is_u64 seq -> frame_wf f -> length out = SEND_FRAME_HDR_LEN + MAX_DATA_LEN ->
  exists n out' m,
    encode_send_frame_into seq e f out = (Ok n, out') /\
    write_msg MSG_SEND_FRAME (take n out') w = (Ok tt, w ++ m) /\
    read_msg_into (m ++ rest) = (Ok (MSG_SEND_FRAME, take n out'), rest) /\
    decode_send_frame (take n out') = Ok {| sf_seq := seq; sf_expect_ack := e; sf_frame := f |}.
Proof.
  intros Hs Hf Ho. rewrite encode_send_frame_run by done.
  exists (length (send_frame_bytes seq e f)), (send_frame_bytes seq e f ++ drop (length (send_frame_bytes seq e f)) out).
  destruct (msg_round_trip MSG_SEND_FRAME (send_frame_bytes seq e f) w rest) as (m & Hw & Hr).
  { destruct (frame_wf_content f Hf) as (Hc & Hle & _). unfold send_frame_bytes, frame_bytes, MAX_PAYLOAD_LEN.
    len. }
  exists m. rewrite take_prefix. split_and!; [done..|]. by apply decode_send_frame_bytes.
Qed.

(** A frame and an ack the server sends arrive at the client. *)
Theorem server_msg_round_trip (f : Frame) seq status fout aout w rest :
  is_u64 seq -> frame_wf f -> length fout = FRAME_HDR_LEN + MAX_DATA_LEN -> length aout = ACK_LEN ->
  (exists n out' m,
    encode_frame_into f fout = (Ok n, out') /\
    write_msg MSG_FRAME (take n out') w = (Ok tt, w ++ m) /\
    read_msg_into (m ++ rest) = (Ok (MSG_FRAME, take n out'), rest) /\
    decode_frame (take n out') = Ok f) /\
  (exists out' m,
    encode_ack_into seq status aout = (Ok tt, out') /\
    write_msg MSG_ACK out' w = (Ok tt, w ++ m) /\
    read_msg_into (m ++ rest) = (Ok (MSG_ACK, out'), rest) /\
    decode_ack out' = Ok (seq, status)).
Proof.
  intros Hs Hf Hfo Hao. split.
  - rewrite encode_frame_run by done.
    exists (length (frame_bytes false f)), (frame_bytes false f ++ drop (length (frame_bytes false f)) fout).
    destruct (msg_round_trip MSG_FRAME (frame_bytes false f) w rest) as (m & Hw & Hr).
    { destruct (frame_wf_content f Hf) as (Hc & Hle & _). unfold frame_bytes, MAX_PAYLOAD_LEN. len. }
    exists m. rewrite take_prefix. split_and!; [done..|]. by apply decode_frame_bytes.
  - exists (ack_bytes seq status). rewrite encode_ack_run by done.
    destruct (msg_round_trip MSG_ACK (ack_bytes seq status) w rest) as (m & Hw & Hr).
    { unfold ack_bytes, MAX_PAYLOAD_LEN. len. }
    exists m. split_and!; [done..|]. by apply decode_ack_bytes.
Qed.

(** A filter list a client sets arrives at the server unchanged up to masks
    of the wrong kind (which become 0) as long as it has at most 454 filters;
    a longer one makes a message the server refuses to read. *)
Theorem filters_round_trip seq (fs : list Filter) w rest :
  is_u64 seq -> Forall mask_ok fs -> (Z.of_nat (length fs) < 65536)%Z ->
  exists m, write_msg MSG_SET_FILTERS (encode_filters seq fs) w = (Ok tt, w ++ m) /\
    (length fs <= 454 ->
      read_msg_into (m ++ rest) = (Ok (MSG_SET_FILTERS, encode_filters seq fs), rest) /\
      decode_filters (encode_filters seq fs) = Ok (seq, map wire_filter fs)) /\
    (454 < length fs -> (read_msg_into (m ++ rest)).1 = Err InvalidData).
Proof.
  intros Hs Hm Hn. exists (msg_bytes MSG_SET_FILTERS (encode_filters seq fs)).
  assert (Hl : length (encode_filters seq fs) = 10 + 9 * length fs).
  { unfold encode_filters. rewrite !length_app, !length_to_le_bytes, encode_filters_body_length. lia. }
  split; [|split].
  - apply write_msg_run. rewrite Hl. unfold u32_max. lia.
  - intros Hle. split; [apply read_msg_run; rewrite Hl; unfold MAX_PAYLOAD_LEN; lia|].
    by apply decode_encode_filters.
  - intros Hgt. apply read_msg_too_long; rewrite Hl; unfold MAX_PAYLOAD_LEN, u32_max; lia.
Qed.

(** C31. On any bytes whatever the decoders return a value or an error, never
    panic, and every frame that comes out is well formed. *)
Theorem decoders_safe p :
  Forall is_u8 p ->
  (decode_send_frame (SId := SId) (EId := EId) p <> Panic /\
   forall sf : SendFrame SId EId, decode_send_frame p = Ok sf -> frame_wf (sf_frame sf)) /\
  (decode_frame (SId := SId) (EId := EId) p <> Panic /\
   forall f : Frame, decode_frame p = Ok f -> frame_wf f) /\
  decode_filters (SId := SId) (EId := EId) p <> Panic /\ decode_ack p <> Panic.
Proof.
  intros Hu. split_and!; try apply (decode_send_frame_safe p Hu); try apply (decode_frame_safe p Hu);
    [apply decode_filters_safe|apply decode_ack_no_panic].
Qed.
End wire_proofs.

(** * Concrete identifiers *)

(** The newtypes over [u16] and [u32], with their documented ranges. *)
Record StdId := { std_raw : Z }.
Record ExtId := { ext_raw : Z }.
Global Instance RawIds : EmbeddedCan { i : StdId | bool_decide (0 <= std_raw i < 2048)%Z }
    { i : ExtId | bool_decide (0 <= ext_raw i < 536870912)%Z } := {
  StandardId_new r := match decide (bool_decide (0 <= r < 2048)%Z) with
                      | left H => Some ({| std_raw := r |} ↾ H) | right _ => None end;
  StandardId_as_raw i := std_raw (`i);
  ExtendedId_new r := match decide (bool_decide (0 <= r < 536870912)%Z) with
                      | left H => Some ({| ext_raw := r |} ↾ H) | right _ => None end;
  ExtendedId_as_raw i := ext_raw (`i);
}.
Global Instance RawIds_laws : EmbeddedCanLaws { i : StdId | bool_decide (0 <= std_raw i < 2048)%Z }
  { i : ExtId | bool_decide (0 <= ext_raw i < 536870912)%Z }.
Proof.
  split; intros [[r] Hr]; simpl; try (apply bool_decide_unpack in Hr; simpl in Hr; unfold in_width; lia).
  - destruct (decide _) as [H|H]; [|done]. f_equal. apply (sig_eq_pi _). done.
  - destruct (decide _) as [H|H]; [|done]. f_equal. apply (sig_eq_pi _). done.
Qed.

Definition demo_can_id : Id { i : StdId | bool_decide (0 <= std_raw i < 2048)%Z }
    { i : ExtId | bool_decide (0 <= ext_raw i < 536870912)%Z } :=
  Standard ({| std_raw := 291 |} ↾ I).
Definition demo_frame :=
  {| frame_id := demo_can_id; frame_data := [1; 2]%Z ++ replicate 62 0%Z; frame_dlc := 2;
     frame_remote := false |}.

Lemma demo_frame_wf : frame_wf demo_frame.
Proof. split; [simpl; lia|]. by exists [1; 2]%Z. Qed.

Lemma frame_new_spec_witness :
  match frame_new demo_can_id [1; 2]%Z with
  | Ok f => frame_payload f = Some [1; 2]%Z | _ => False end.
Proof.
  destruct (frame_new_spec demo_can_id [1; 2]%Z 0) as [H _]. simpl in *. apply H.
Defined.

Lemma send_frame_round_trip_witness :
  exists n out' m,
    encode_send_frame_into 7 true demo_frame (replicate 78 0%Z) = (Ok n, out') /\
    write_msg MSG_SEND_FRAME (take n out') [] = (Ok tt, [] ++ m) /\
    read_msg_into (m ++ [5]%Z) = (Ok (MSG_SEND_FRAME, take n out'), [5]%Z) /\
    decode_send_frame (take n out') = Ok {| sf_seq := 7; sf_expect_ack := true; sf_frame := demo_frame |}.
Proof.
  apply (send_frame_round_trip 7 true demo_frame (replicate 78 0%Z) [] [5]%Z);
    [split; lia|exact demo_frame_wf|reflexivity].
Defined.

Lemma server_msg_round_trip_witness :
  exists n out', encode_frame_into demo_frame (replicate 70 0%Z) = (Ok n, out') /\
    decode_frame (take n out') = Ok demo_frame.
Proof.
  destruct (server_msg_round_trip demo_frame 7 0 (replicate 70 0%Z) (replicate 9 0%Z) [] [])
    as [(n & out' & m & H1 & _ & _ & H2) _];
    [split; lia|exact demo_frame_wf|reflexivity|reflexivity|]. exists n, out'. split; assumption.
Defined.

Definition demo_filters :=
  [{| filter_id := demo_can_id; filter_mask := StandardMask 2047 |}].

Lemma filters_round_trip_witness :
  Forall mask_ok demo_filters /\
  decode_filters (encode_filters 3 demo_filters) = Ok (3%Z, map wire_filter demo_filters).
Proof.
  assert (Hm : Forall mask_ok demo_filters) by (apply Forall_singleton; split; simpl; lia).
  split; [exact Hm|].
  destruct (filters_round_trip 3 demo_filters [] []) as (m & _ & Hr & _);
    [split; lia|exact Hm|simpl; lia|]. apply Hr. simpl. lia.
Defined.

Lemma decoders_safe_witness : Forall is_u8 [1; 2; 3]%Z /\ decode_ack [1; 2; 3]%Z <> Panic.
Proof.
  assert (Hu : Forall is_u8 [1; 2; 3]%Z) by (repeat constructor; lia). split; [exact Hu|].
  apply (decoders_safe (SId := { i : StdId | bool_decide (0 <= std_raw i < 2048)%Z })
    (EId := { i : ExtId | bool_decide (0 <= ext_raw i < 536870912)%Z }) _ Hu).
Defined.

