(* ===== verification/UnixServer.v ===== *)
(** * The Unix-socket CAN bus server

    Models [embedded-can/embedded-can-unix-socket/src/server.rs]: the bus
    thread ([handle_command], [bus_loop], [broadcast_frame], the filters), the
    reader and writer threads of a client as functions on their streams.  The
    [mpsc] channels are the lists of the messages sent to them.  The main
    theorem says what each client gets, for any sequence of commands, as a
    function of the commands alone. *)
From stdpp Require Import gmap strings.
From S2P Require Import Prelude UnixWire.

Abbreviation ClientId := Z (only parsing).
Abbreviation ChanId := Z (only parsing).

Section server.
Context {SId EId : Type} `{EmbeddedCan SId EId}.
Abbreviation Frame := (UnixFrame SId EId).
Abbreviation Filter := (IdMaskFilter SId EId).

Inductive ServerMsg :=
| FrameMsg (f : Frame)
| AckMsg (seq : u64) (status : u8)
| Hello
| FiltersAck (seq : u64) (status : u8).

(** The sender half of a channel is its number. *)
Inductive BusCommand :=
| AddClient (id : ClientId) (tx : ChanId)
| RemoveClient (id : ClientId)
| SendFrameCmd (id : ClientId) (seq : u64) (expect_ack : bool) (frame : Frame)
| SetFilters (id : ClientId) (seq : u64) (filters : list Filter)
| Shutdown.

Record ClientState := { client_tx : ChanId; client_filters : list Filter }.
Record PendingFilters := { pending_seq : u64; pending_list : list Filter }.

(** The maps of [bus_loop] and, per channel, what was sent to it. *)
Record Bus := {
  clients : gmap ClientId ClientState;
  pending_filters : gmap ClientId PendingFilters;
  chans : gmap ChanId (list ServerMsg);
}.

Definition bus_new : Bus := {| clients := ∅; pending_filters := ∅; chans := ∅ |}.

(** [let _ = tx.send(msg)]. *)
Definition send_chan (tx : ChanId) (msg : ServerMsg) (cs : gmap ChanId (list ServerMsg)) :
    gmap ChanId (list ServerMsg) :=
  <[tx := default [] (cs !! tx) ++ [msg]]> cs.

Definition filter_match (filter : Filter) (id : Id SId EId) : bool :=
  match filter_id filter, filter_mask filter, id with
  | Standard fid, StandardMask mask, Standard id =>
      (Z.land (StandardId_as_raw id) mask =? Z.land (StandardId_as_raw fid) mask)%Z
  | Extended fid, ExtendedMask mask, Extended id =>
      (Z.land (ExtendedId_as_raw id) mask =? Z.land (ExtendedId_as_raw fid) mask)%Z
  | _, _, _ => false
  end.

Definition filters_match (filters : list Filter) (frame : Frame) : bool :=
  match filters with
  | [] => true
  | _ => existsb (fun filter => filter_match filter (frame_id frame)) filters
  end.

(** [for client in clients.values() { .. }]. *)
Definition broadcast_frame (cl : gmap ClientId ClientState) (frame : Frame)
    (cs : gmap ChanId (list ServerMsg)) : gmap ChanId (list ServerMsg) :=
  foldr (fun kc cs => if filters_match (client_filters kc.2) frame
                      then send_chan (client_tx kc.2) (FrameMsg frame) cs else cs)
    cs (map_to_list cl).

Definition handle_command (cmd : BusCommand) (b : Bus) : Bus :=
  match cmd with
  | AddClient id tx =>
      let pending := pending_filters b !! id in
      let filters := default [] (pending_list <$> pending) in
      let cs := send_chan tx Hello (chans b) in
      {| clients := <[id := {| client_tx := tx; client_filters := filters |}]> (clients b);
         pending_filters := delete id (pending_filters b);
         chans := match pending with
                  | Some p => send_chan tx (FiltersAck (pending_seq p) ACK_OK) cs
                  | None => cs
                  end |}
  | RemoveClient id =>
      {| clients := delete id (clients b); pending_filters := delete id (pending_filters b);
         chans := chans b |}
  | SendFrameCmd id seq expect_ack frame =>
      let ack_status := if expect_ack && (size (clients b) <=? 1) then ACK_NO_ACK else ACK_OK in
      let cs := broadcast_frame (clients b) frame (chans b) in
      {| clients := clients b; pending_filters := pending_filters b;
         chans := match expect_ack, clients b !! id with
                  | true, Some client => send_chan (client_tx client) (AckMsg seq ack_status) cs
                  | _, _ => cs
                  end |}
  | SetFilters id seq filters =>
      if (seq =? 0)%Z then
        match clients b !! id with
        | Some client =>
            {| clients := clients b; pending_filters := pending_filters b;
               chans := send_chan (client_tx client) (FiltersAck seq ACK_SERVER_ERR) (chans b) |}
        | None => b
        end
      else
        match clients b !! id with
        | Some client =>
            {| clients := <[id := {| client_tx := client_tx client; client_filters := filters |}]> (clients b);
               pending_filters := pending_filters b;
               chans := send_chan (client_tx client) (FiltersAck seq ACK_OK) (chans b) |}
        | None =>
            {| clients := clients b;
               pending_filters := <[id := {| pending_seq := seq; pending_list := filters |}]>
                                    (pending_filters b);
               chans := chans b |}
        end
  | Shutdown => b
  end.

(** [bus_loop] over the commands its channel yields; it stops at [Shutdown]. *)
Fixpoint bus_loop (cmds : list BusCommand) (b : Bus) : Bus :=
  match cmds with
  | [] => b
  | Shutdown :: _ => b
  | cmd :: cmds' => bus_loop cmds' (handle_command cmd b)
  end.

(** ** The threads of a client *)

(** [client_reader_loop]: the commands it sends for what it reads from its
    stream; each message takes at least five bytes, so the length of the stream
    bounds the rounds. *)
Fixpoint client_reader_loop (fuel : nat) (id : ClientId) (stream : bytes) : option (list BusCommand) :=
  match fuel with
  | O => None
  | S fuel' =>
      match read_msg_into stream with
      | (Ok (msg_type, payload), stream') =>
          if (msg_type =? MSG_SEND_FRAME)%Z then
            match decode_send_frame payload with
            | Ok send =>
                cons (SendFrameCmd id (sf_seq send) (sf_expect_ack send) (sf_frame send)) <$>
                  client_reader_loop fuel' id stream'
            | _ => Some [RemoveClient id]
            end
          else if (msg_type =? MSG_SET_FILTERS)%Z then
            match decode_filters payload with
            | Ok (seq, filters) => cons (SetFilters id seq filters) <$> client_reader_loop fuel' id stream'
            | _ => cons (SetFilters id 0 []) <$> client_reader_loop fuel' id stream'
            end
          else client_reader_loop fuel' id stream'
      | _ => Some [RemoveClient id]
      end
  end.

(** One message of [client_writer_loop]: the buffers are reused. *)
Definition write_server_msg (msg : ServerMsg) (frame_buf ack_buf : bytes) (w : bytes) :
    result unit IoError * bytes * bytes * bytes :=
  match msg with
  | FrameMsg f =>
      match encode_frame_into f frame_buf with
      | (Ok len, frame_buf') =>
          match slice frame_buf' 0 len with
          | Some p => let '(r, w') := write_msg MSG_FRAME p w in (r, frame_buf', ack_buf, w')
          | None => (Panic, frame_buf', ack_buf, w)
          end
      | (_, frame_buf') => (Panic, frame_buf', ack_buf, w)
      end
  | AckMsg seq status =>
      match encode_ack_into seq status ack_buf with
      | (Ok _, ack_buf') => let '(r, w') := write_msg MSG_ACK ack_buf' w in (r, frame_buf, ack_buf', w')
      | (_, ack_buf') => (Panic, frame_buf, ack_buf', w)
      end
  | Hello => let '(r, w') := write_msg MSG_HELLO [] w in (r, frame_buf, ack_buf, w')
  | FiltersAck seq status =>
      match encode_ack_into seq status ack_buf with
      | (Ok _, ack_buf') =>
          let '(r, w') := write_msg MSG_FILTERS_ACK ack_buf' w in (r, frame_buf, ack_buf', w')
      | (_, ack_buf') => (Panic, frame_buf, ack_buf', w)
      end
  end.

(** [client_writer_loop] on the messages of its channel. *)
Fixpoint client_writer_loop (msgs : list ServerMsg) (frame_buf ack_buf : bytes) (w : bytes) :
    result unit IoError * bytes :=
  match msgs with
  | [] => (Ok tt, w)
  | msg :: msgs' =>
      match write_server_msg msg frame_buf ack_buf w with
      | (Ok _, frame_buf', ack_buf', w') => client_writer_loop msgs' frame_buf' ack_buf' w'
      | (Err e, _, _, w') => (Err e, w')
      | (Panic, _, _, w') => (Panic, w')
      end
  end.
End server.
Arguments ServerMsg SId EId : clear implicits.
Arguments BusCommand SId EId : clear implicits.
Arguments ClientState SId EId : clear implicits.
Arguments PendingFilters SId EId : clear implicits.
Arguments Bus SId EId : clear implicits.

(** * What one client sees *)

Section views.
Context {SId EId : Type} `{EmbeddedCan SId EId}.
Abbreviation Frame := (UnixFrame SId EId).
Abbreviation Filter := (IdMaskFilter SId EId).
Abbreviation Msgs := (list (ServerMsg SId EId)).
Abbreviation Command := (BusCommand SId EId).

(** The specification, for a client [c]: who is connected, the filters of [c]
    when it is connected, and the filters it asked for before that. *)
Record View := {
  members : gset ClientId;
  accepts : option (list Filter);
  waiting : option (PendingFilters SId EId);
}.
Definition view_new : View := {| members := ∅; accepts := None; waiting := None |}.

Definition frames_for (v : View) (f : Frame) : Msgs :=
  match accepts v with
  | Some fl => if filters_match fl f then [FrameMsg f] else []
  | None => []
  end.

(** The messages a command makes the server send to [c], and the next view. *)
Definition view_step (c : ClientId) (cmd : Command) (v : View) : Msgs * View :=
  match cmd with
  | AddClient id _ =>
      if decide (id = c) then
        (Hello :: match waiting v with Some p => [FiltersAck (pending_seq p) ACK_OK] | None => [] end,
         {| members := members v ∪ {[id]};
            accepts := Some (default [] (pending_list <$> waiting v)); waiting := None |})
      else ([], {| members := members v ∪ {[id]}; accepts := accepts v; waiting := waiting v |})
  | RemoveClient id =>
      ([], {| members := members v ∖ {[id]};
              accepts := if decide (id = c) then None else accepts v;
              waiting := if decide (id = c) then None else waiting v |})
  | SendFrameCmd id seq expect_ack f =>
      (frames_for v f ++
       (if expect_ack && bool_decide (id = c) && bool_decide (is_Some (accepts v))
        then [AckMsg seq (if size (members v) <=? 1 then ACK_NO_ACK else ACK_OK)] else []), v)
  | SetFilters id seq fl =>
      if decide (id = c) then
        match accepts v, (seq =? 0)%Z with
        | Some _, true => ([FiltersAck seq ACK_SERVER_ERR], v)
        | Some _, false =>
            ([FiltersAck seq ACK_OK], {| members := members v; accepts := Some fl; waiting := waiting v |})
        | None, true => ([], v)
        | None, false =>
            ([], {| members := members v; accepts := None;
                    waiting := Some {| pending_seq := seq; pending_list := fl |} |})
        end
      else ([], v)
  | Shutdown => ([], v)
  end.

Fixpoint view_run (c : ClientId) (cmds : list Command) (v : View) : Msgs :=
  match cmds with
  | [] | Shutdown :: _ => []
  | cmd :: cmds' => let '(out, v') := view_step c cmd v in out ++ view_run c cmds' v'
  end.

(** ** Refinement *)

(** [handle_client] makes one channel per client: [ch]. *)
Context (ch : ClientId -> ChanId) `{!Inj (=) (=) ch}.

Definition own_channel (cmd : Command) : Prop :=
  match cmd with AddClient id tx => tx = ch id | _ => True end.

Definition content (cs : gmap ChanId Msgs) (c : ClientId) : Msgs := default [] (cs !! ch c).

Lemma content_send_self cs c msg : content (send_chan (ch c) msg cs) c = content cs c ++ [msg].
Proof. unfold content, send_chan. by rewrite lookup_insert_eq. Qed.
Lemma content_send_other cs c d msg : d <> c -> content (send_chan (ch d) msg cs) c = content cs c.
Proof.
  intros Hne. unfold content, send_chan. rewrite lookup_insert_ne; [done|].
  intros Heq. by apply (inj ch) in Heq.
Qed.

Record sees (c : ClientId) (b : Bus SId EId) (v : View) : Prop := {
  sees_members : dom (clients b) = members v;
  sees_accepts : client_filters <$> clients b !! c = accepts v;
  sees_waiting : pending_filters b !! c = waiting v;
  sees_chan : forall id st, clients b !! id = Some st -> client_tx st = ch id;
}.

Lemma broadcast_list c f cs (l : list (ClientId * ClientState SId EId)) :
  NoDup l.*1 -> (forall k st, (k, st) ∈ l -> client_tx st = ch k) ->
  content (foldr (fun kc cs => if filters_match (client_filters kc.2) f
                      then send_chan (client_tx kc.2) (FrameMsg f) cs else cs) cs l) c =
  content cs c ++
  match list_to_map (M := gmap ClientId (ClientState SId EId)) l !! c with
  | Some st => if filters_match (client_filters st) f then [FrameMsg f] else []
  | None => []
  end.
Proof.
  induction l as [|[k st] l IH]; simpl; [by rewrite app_nil_r|].
  intros [Hk Hnd]%list.NoDup_cons Hch.
  assert (Htx : client_tx st = ch k) by (apply Hch; apply elem_of_cons; by left).
  specialize (IH Hnd ltac:(intros; apply Hch; apply elem_of_cons; by right)).
  destruct (decide (k = c)) as [->|Hne].
  - rewrite lookup_insert_eq. rewrite not_elem_of_list_to_map_1 in IH by done.
    rewrite app_nil_r in IH. destruct (filters_match _ f); [|by rewrite IH, app_nil_r].
    by rewrite Htx, content_send_self, IH.
  - rewrite lookup_insert_ne by done. destruct (filters_match (client_filters st) f); [|done].
    by rewrite Htx, content_send_other by done.
Qed.

Lemma content_broadcast c f b v :
  sees c b v ->
  content (broadcast_frame (clients b) f (chans b)) c = content (chans b) c ++ frames_for v f.
Proof.
  intros [_ Hacc _ Hch]. unfold broadcast_frame. rewrite broadcast_list.
  - rewrite list_to_map_to_list. unfold frames_for. rewrite <- Hacc. by destruct (clients b !! c).
  - apply NoDup_fst_map_to_list.
  - intros k st Hk. apply Hch. by apply elem_of_map_to_list.
Qed.

Lemma clients_insert (b : Bus SId EId) id tx fl :
  tx = ch id -> (forall i st, clients b !! i = Some st -> client_tx st = ch i) ->
  forall i st, <[id := {| client_tx := tx; client_filters := fl |}]> (clients b) !! i = Some st ->
    client_tx st = ch i.
Proof.
  intros -> Hch i st. destruct (decide (id = i)) as [->|Hne].
  - rewrite lookup_insert_eq. by intros [= <-].
  - rewrite lookup_insert_ne by done. apply Hch.
Qed.

Lemma step_add c id tx b v :
  sees c b v -> tx = ch id ->
  let '(out, v') := view_step c (AddClient id tx) v in
  sees c (handle_command (AddClient id tx) b) v' /\
  content (chans (handle_command (AddClient id tx) b)) c = content (chans b) c ++ out.
Proof.
  intros [Hm Ha Hw Hch] Htx. simpl. case_decide as Hid; subst.
  - split.
    + split; simpl; [by rewrite dom_insert_L, Hm, union_comm_L|by rewrite lookup_insert_eq, Hw|
        by rewrite lookup_delete_eq|by apply clients_insert].
    + rewrite Hw. destruct (waiting v); simpl; by rewrite !content_send_self, <- ?app_assoc.
  - split.
    + split; simpl; [by rewrite dom_insert_L, Hm, union_comm_L|by rewrite lookup_insert_ne|
        by rewrite lookup_delete_ne|by apply clients_insert].
    + rewrite app_nil_r. destruct (pending_filters b !! id); simpl; by rewrite !content_send_other.
Qed.

Lemma step_set_filters c id seq fl b v :
  sees c b v ->
  let '(out, v') := view_step c (SetFilters id seq fl) v in
  sees c (handle_command (SetFilters id seq fl) b) v' /\
  content (chans (handle_command (SetFilters id seq fl) b)) c = content (chans b) c ++ out.
Proof.
  intros Hs. destruct (Hs) as [Hm Ha Hw Hch]. simpl. case_decide as Hid; subst.
  - destruct (clients b !! c) as [st|] eqn:Hc; simpl in Ha; rewrite <- Ha;
      destruct (seq =? 0)%Z; simpl.
    + split; [|by rewrite (Hch _ _ Hc), content_send_self].
      split; simpl; [done|by rewrite Hc|done|done].
    + split; [|by rewrite (Hch _ _ Hc), content_send_self].
      split; simpl; [|by rewrite lookup_insert_eq|done|].
      * by rewrite dom_insert_lookup_L.
      * apply clients_insert; [by apply Hch|done].
    + split; [done|by rewrite app_nil_r].
    + split; [|by rewrite app_nil_r]. split; simpl; [done|by rewrite Hc|by rewrite lookup_insert_eq|done].
  - rewrite app_nil_r. destruct (clients b !! id) as [st|] eqn:Hc; destruct (seq =? 0)%Z; simpl.
    + split; [by split|]. by rewrite (Hch _ _ Hc), content_send_other.
    + split; [|by rewrite (Hch _ _ Hc), content_send_other].
      split; simpl; [|by rewrite lookup_insert_ne|done|].
      * by rewrite dom_insert_lookup_L.
      * apply clients_insert; [by apply Hch|done].
    + done.
    + split; [|done]. split; simpl; [done|done|by rewrite lookup_insert_ne|done].
Qed.

Lemma step_send c id seq e f b v :
  sees c b v ->
  let '(out, v') := view_step c (SendFrameCmd id seq e f) v in
  sees c (handle_command (SendFrameCmd id seq e f) b) v' /\
  content (chans (handle_command (SendFrameCmd id seq e f) b)) c = content (chans b) c ++ out.
Proof.
  intros Hs. destruct (Hs) as [Hm Ha Hw Hch]. simpl. split; [by split|].
  pose proof (content_broadcast c f b v Hs) as Hb.
  destruct e; simpl; [|by rewrite app_nil_r].
  rewrite <- Hm, <- Ha, size_dom.
  destruct (clients b !! id) as [st|] eqn:Hid; simpl.
  - rewrite (Hch _ _ Hid). destruct (decide (id = c)) as [->|Hne].
    + rewrite content_send_self, Hb, Hid. simpl.
      rewrite (bool_decide_eq_true_2 (c = c)) by done. simpl.
      by rewrite <- app_assoc.
    + rewrite content_send_other, Hb by done. rewrite (bool_decide_eq_false_2 (id = c)) by done.
      by rewrite app_nil_r.
  - rewrite Hb. destruct (decide (id = c)) as [->|Hne].
    + rewrite Hid, (bool_decide_eq_false_2 (is_Some _)) by (by intros [? ?]).
      by rewrite andb_false_r, app_nil_r.
    + rewrite (bool_decide_eq_false_2 (id = c)) by done. by rewrite app_nil_r.
Qed.

Lemma bus_step_sees c cmd b v :
  sees c b v -> own_channel cmd ->
  let '(out, v') := view_step c cmd v in
  sees c (handle_command cmd b) v' /\
  content (chans (handle_command cmd b)) c = content (chans b) c ++ out.
Proof.
  intros Hs Hown. destruct cmd as [id tx|id|id seq e f|id seq fl|].
  - by apply step_add.
  - destruct Hs as [Hm Ha Hw Hch]. simpl. rewrite app_nil_r. split; [|done].
    split; simpl.
    + by rewrite dom_delete_L, Hm.
    + case_decide; subst; [by rewrite lookup_delete_eq|by rewrite lookup_delete_ne].
    + case_decide; subst; [by rewrite lookup_delete_eq|by rewrite lookup_delete_ne].
    + intros i st [_ Hi]%lookup_delete_Some. by apply Hch.
  - by apply step_send.
  - by apply step_set_filters.
  - simpl. by rewrite app_nil_r.
Qed.

Lemma bus_loop_sees c cmds b v :
  sees c b v -> Forall own_channel cmds ->
  content (chans (bus_loop cmds b)) c = content (chans b) c ++ view_run c cmds v.
Proof.
  intros Hs Hown. revert b v Hs. induction Hown as [|cmd cmds Hc _ IH]; intros b v Hs; simpl;
    [by rewrite app_nil_r|].
  pose proof (bus_step_sees c cmd b v Hs Hc) as Hstep.
  destruct cmd; [..|by rewrite app_nil_r];
    (destruct (view_step c _ v) as [out v'] eqn:Hv; destruct Hstep as [Hs' Hcont];
     rewrite (IH _ _ Hs'), Hcont; by rewrite <- app_assoc).
Qed.

Lemma sees_new c : sees c bus_new view_new.
Proof. split; simpl; [apply dom_empty_L|by rewrite lookup_empty..|]. intros id st. by rewrite lookup_empty. Qed.

(** For any sequence of commands, what the bus server has put on a client's
    channel is what the specification of that client's view says: hello and
    pending filter ack on connection, every frame on the bus (its own
    included) that passes the filters in force at that point, an ack per
    acknowledged send that says whether another client was connected, and an
    ack per filter change, all in command order. *)
Theorem bus_loop_refines_views cmds c :
  Forall own_channel cmds ->
  content (chans (bus_loop cmds bus_new)) c = view_run c cmds view_new.
Proof.
  intros Hown. rewrite (bus_loop_sees c cmds bus_new view_new (sees_new c) Hown). unfold content.
  simpl. by rewrite lookup_empty.
Qed.

(** ** Filter changes *)

Definition not_shutdown (cmd : Command) : Prop := match cmd with Shutdown => False | _ => True end.

(** A command that leaves the connection and the filters of [c] alone. *)
Definition quiet (c : ClientId) (cmd : Command) : Prop :=
  match cmd with
  | AddClient id _ | RemoveClient id | SetFilters id _ _ => id <> c
  | SendFrameCmd _ _ _ _ => True
  | Shutdown => False
  end.

Lemma bus_loop_app cmds1 cmds2 (b : Bus SId EId) :
  Forall not_shutdown cmds1 -> bus_loop (cmds1 ++ cmds2) b = bus_loop cmds2 (bus_loop cmds1 b).
Proof.
  intros Hn. revert b. induction Hn as [|cmd cmds Hc _ IH]; intros b; [done|].
  destruct cmd; simpl; [apply IH..|done].
Qed.

Lemma bus_loop_keeps_view c cmds b v :
  sees c b v -> Forall own_channel cmds -> exists v', sees c (bus_loop cmds b) v'.
Proof.
  intros Hs Hown. revert b v Hs. induction Hown as [|cmd cmds Hc _ IH]; intros b v Hs; simpl; [by exists v|].
  pose proof (bus_step_sees c cmd b v Hs Hc) as Hstep.
  destruct (view_step c cmd v) as [out v']. destruct Hstep as [Hs' _].
  destruct cmd; [by eapply IH..|by exists v].
Qed.

Definition passes (fl : list Filter) (m : ServerMsg SId EId) : Prop :=
  match m with FrameMsg f => filters_match fl f = true | FiltersAck _ _ | Hello => False | AckMsg _ _ => True end.

Lemma quiet_view_run c cmds v fl :
  accepts v = Some fl -> Forall (quiet c) cmds -> Forall (passes fl) (view_run c cmds v).
Proof.
  intros Ha Hq. revert v Ha. induction Hq as [|cmd cmds Hc _ IH]; intros v Ha; [constructor|].
  destruct cmd as [id tx|id|id seq e f|id seq fl'|]; simpl in *; [..|done].
  - rewrite decide_False by done. by apply IH.
  - rewrite !decide_False by done. by apply IH.
  - rewrite <- app_assoc, !Forall_app. split_and!; [| |by apply IH].
    + unfold frames_for. rewrite Ha. destruct (filters_match fl f) eqn:Hf; by repeat constructor.
    + destruct (_ && _); by repeat constructor.
  - rewrite decide_False by done. by apply IH.
Qed.

(** A filter change is ordered with the traffic: once a connected client's
    [SetFilters] is handled, its channel carries the ack and after it, until
    the client changes its filters again or leaves, only frames that pass the
    new filters. *)
Theorem filter_change_ordered c pre seq fl post st :
  Forall own_channel (pre ++ SetFilters c seq fl :: post) -> Forall not_shutdown pre ->
  clients (bus_loop pre bus_new) !! c = Some st -> (seq <> 0)%Z -> Forall (quiet c) post ->
  exists l,
    content (chans (bus_loop (pre ++ SetFilters c seq fl :: post) bus_new)) c =
      content (chans (bus_loop pre bus_new)) c ++ [FiltersAck seq ACK_OK] ++ l /\
    Forall (passes fl) l.
Proof.
  intros [Hpre Hpost]%Forall_app Hns Hc Hseq Hq. apply Forall_cons_1 in Hpost as [_ Hpost].
  destruct (bus_loop_keeps_view c pre bus_new view_new (sees_new c) Hpre) as [v Hv].
  rewrite bus_loop_app by done. set (b := bus_loop pre bus_new) in *. cbn [bus_loop].
  pose proof (step_set_filters c c seq fl b v Hv) as Hstep.
  assert (Ha : accepts v = Some (client_filters st)) by (by rewrite <- (sees_accepts _ _ _ Hv), Hc).
  cbn [view_step] in Hstep. rewrite decide_True, Ha, (proj2 (Z.eqb_neq _ _) Hseq) in Hstep by done.
  destruct Hstep as [Hs' Hcont].
  rewrite (bus_loop_sees c post _ _ Hs' Hpost), Hcont, <- app_assoc.
  eexists. split; [done|]. by apply quiet_view_run.
Qed.
End views.

(** * The threads of a client *)

Section threads.
Context {SId EId : Type} `{HL : EmbeddedCanLaws SId EId}.
Abbreviation Frame := (UnixFrame SId EId).

Lemma read_msg_consumes s r s' : read_msg_into s = (Ok r, s') -> length s' + 5 <= length s.
Proof.
  unfold read_msg_into, read_exact. unfold mbind, M_bind.
  destruct (Nat.leb_spec 5 (length s)); [|done]. unfold or_panic.
  destruct (take 5 s !! 0); [|done]. destruct (slice (take 5 s) 1 5) as [lb|]; [|done].
  destruct (_ <? _); [done|].
  destruct (Nat.leb_spec (Z.to_nat (from_le_bytes lb)) (length (drop 5 s))); [|done].
  intros [= _ <-]. len.
Qed.

Lemma reader_total fuel id s :
  length s < fuel -> exists cmds, client_reader_loop (SId := SId) (EId := EId) fuel id s = Some cmds.
Proof.
  revert s. induction fuel as [|fuel IH]; intros s Hf; [lia|]. cbn [client_reader_loop].
  destruct (read_msg_into s) as [[[ty p]|e|] s'] eqn:Hr; [|by eexists..].
  apply read_msg_consumes in Hr. destruct (IH s' ltac:(lia)) as [cmds Hc].
  destruct (_ =? _)%Z; [destruct (decode_send_frame p); rewrite ?Hc; by eexists|].
  destruct (_ =? _)%Z; [|by eexists]. destruct (decode_filters p) as [[? ?]|?|]; rewrite Hc; by eexists.
Qed.

(** What a client writes for a list of sends. *)
Definition send_stream (sends : list (u64 * bool * Frame)) : bytes :=
  concat (map (fun '(seq, e, f) => msg_bytes MSG_SEND_FRAME (send_frame_bytes seq e f)) sends).

Lemma reader_reads_sends fuel id sends :
  Forall (fun '(seq, e, f) => is_u64 seq /\ frame_wf f) sends ->
  length (send_stream sends) < fuel ->
  client_reader_loop fuel id (send_stream sends) =
    Some (map (fun '(seq, e, f) => SendFrameCmd id seq e f) sends ++ [RemoveClient id]).
Proof.
  intros Hs. revert fuel. induction Hs as [|[[seq e] f] sends [Hseq Hf] _ IH]; intros fuel Hl.
  { destruct fuel; [lia|]. done. }
  destruct fuel as [|fuel]; [lia|]. unfold send_stream in *. cbn [map concat client_reader_loop] in *.
  rewrite read_msg_run.
  - change (MSG_SEND_FRAME =? MSG_SEND_FRAME)%Z with true. rewrite decode_send_frame_bytes by done.
    simpl. rewrite IH; [done|].
    assert (1 <= length (msg_bytes MSG_SEND_FRAME (send_frame_bytes seq e f)))
      by (unfold msg_bytes; simpl; lia).
    rewrite length_app in Hl. lia.
  - destruct (frame_wf_content f Hf) as (Hc & Hle & _). unfold send_frame_bytes, frame_bytes, MAX_PAYLOAD_LEN.
    len.
Qed.

(** The reader thread of a client ends on every byte stream, and the frames
    a client sent come out as commands in order, followed by its removal when
    the stream ends. *)
Theorem client_reader_correct id s sends :
  (exists cmds, client_reader_loop (SId := SId) (EId := EId) (S (length s)) id s = Some cmds) /\
  (Forall (fun '(seq, e, f) => is_u64 seq /\ frame_wf f) sends ->
   client_reader_loop (S (length (send_stream sends))) id (send_stream sends) =
     Some (map (fun '(seq, e, f) => SendFrameCmd id seq e f) sends ++ [RemoveClient id])).
Proof.
  split; [apply reader_total; lia|]. intros Hs. apply reader_reads_sends; [done|lia].
Qed.

(** What the writer thread puts on the stream for a message. *)
Definition server_msg_bytes (m : ServerMsg SId EId) : bytes :=
  match m with
  | FrameMsg f => msg_bytes MSG_FRAME (frame_bytes false f)
  | AckMsg seq status => msg_bytes MSG_ACK (ack_bytes seq status)
  | Hello => msg_bytes MSG_HELLO []
  | FiltersAck seq status => msg_bytes MSG_FILTERS_ACK (ack_bytes seq status)
  end.
Definition server_msg_wf (m : ServerMsg SId EId) : Prop :=
  match m with FrameMsg f => frame_wf f | _ => True end.

Lemma write_server_msg_run m fb ab w :
  server_msg_wf m -> length fb = FRAME_HDR_LEN + MAX_DATA_LEN -> length ab = ACK_LEN ->
  exists fb' ab', write_server_msg m fb ab w = (Ok tt, fb', ab', w ++ server_msg_bytes m) /\
    length fb' = length fb /\ length ab' = length ab.
Proof.
  intros Hm Hfb Hab. destruct m as [f|seq status| |seq status]; cbn [write_server_msg].
  - rewrite encode_frame_run by done. set (p := frame_bytes false f).
    assert (Hp : length p <= 70).
    { destruct (frame_wf_content f Hm) as (Hc & Hle & _). unfold p, frame_bytes. len. }
    rewrite slice_here by done. rewrite write_msg_run by (unfold u32_max; lia).
    do 2 eexists. split; [done|]. unfold FRAME_HDR_LEN, MAX_DATA_LEN in *. split; [len|done].
  - rewrite encode_ack_run by done.
    rewrite write_msg_run by (unfold ack_bytes, u32_max; rewrite length_app, length_to_le_bytes; simpl; lia).
    do 2 eexists. split_and!; [done..|]. unfold ack_bytes, ACK_LEN in *. len.
  - rewrite write_msg_run by (unfold u32_max; simpl; lia). by do 2 eexists.
  - rewrite encode_ack_run by done.
    rewrite write_msg_run by (unfold ack_bytes, u32_max; rewrite length_app, length_to_le_bytes; simpl; lia).
    do 2 eexists. split_and!; [done..|]. unfold ack_bytes, ACK_LEN in *. len.
Qed.

(** The writer thread of a client never panics and turns the messages of
    its channel into their encodings, in order. *)
Theorem client_writer_correct msgs w :
  Forall server_msg_wf msgs ->
  client_writer_loop msgs (replicate (FRAME_HDR_LEN + MAX_DATA_LEN) 0%Z) (replicate ACK_LEN 0%Z) w =
    (Ok tt, w ++ concat (map server_msg_bytes msgs)).
Proof.
  intros Hm.
  enough (Hg : forall fb ab w, length fb = FRAME_HDR_LEN + MAX_DATA_LEN -> length ab = ACK_LEN ->
    client_writer_loop msgs fb ab w = (Ok tt, w ++ concat (map server_msg_bytes msgs)))
    by (apply Hg; apply length_replicate).
  induction Hm as [|m msgs Hwf _ IH]; intros fb ab w' Hfb Hab; simpl; [by rewrite app_nil_r|].
  destruct (write_server_msg_run m fb ab w' Hwf Hfb Hab) as (fb' & ab' & -> & Hfb' & Hab').
  rewrite IH by lia. by rewrite <- app_assoc.
Qed.
End threads.

(** * A concrete bus *)

Definition demo_commands :=
  [AddClient 1 1; AddClient 2 2; SendFrameCmd 1 5 true demo_frame]%Z.

Lemma demo_own : Forall (own_channel (fun id => id)) demo_commands.
Proof. by repeat constructor. Qed.

Lemma bus_loop_refines_views_witness :
  content (fun id => id) (chans (bus_loop demo_commands bus_new)) 1%Z =
    [Hello; FrameMsg demo_frame; AckMsg 5 ACK_OK].
Proof. exact (bus_loop_refines_views (fun id => id) demo_commands 1%Z demo_own). Defined.

Lemma filter_change_ordered_witness :
  exists l, content (fun id => id) (chans (bus_loop ([AddClient 1 1; AddClient 2 2] ++
      SetFilters 1 9 demo_filters :: [SendFrameCmd 2 1 true demo_frame]) bus_new))%Z 1%Z = Hello :: l.
Proof.
  destruct (filter_change_ordered (fun id => id) 1 [AddClient 1 1; AddClient 2 2]%Z 9 demo_filters
    [SendFrameCmd 2 1 true demo_frame]%Z {| client_tx := 1; client_filters := [] |})
    as (l & Hl & _); [by repeat constructor|by repeat constructor|reflexivity|lia|by repeat constructor|].
  eexists. exact Hl.
Defined.

Lemma client_reader_correct_witness :
  client_reader_loop (S (length (send_stream [(7%Z, true, demo_frame)]))) 1
      (send_stream [(7%Z, true, demo_frame)]) =
    Some [SendFrameCmd 1 7 true demo_frame; RemoveClient 1]%Z.
Proof.
  apply (proj2 (client_reader_correct 1 [] [(7%Z, true, demo_frame)])).
  apply Forall_singleton. split; [split; lia|exact demo_frame_wf].
Defined.

Lemma client_writer_correct_witness :
  client_writer_loop [FrameMsg demo_frame] (replicate (FRAME_HDR_LEN + MAX_DATA_LEN) 0%Z)
      (replicate ACK_LEN 0%Z) [] =
    (Ok tt, [] ++ concat (map server_msg_bytes [FrameMsg demo_frame])).
Proof.
  apply (client_writer_correct [FrameMsg demo_frame] []). apply Forall_singleton. exact demo_frame_wf.
Defined.
