(* ===== verification/UnixSystem.v ===== *)
(** * The bus server as a whole

    Puts the threads of [embedded-can/embedded-can-unix-socket/src/server.rs]
    together: the accept thread ([accept_loop], [handle_client]), the reader and
    writer thread of every client and the bus thread, interleaved in any order,
    with [BusServer::start] as the initial state and [shutdown] as a step.  The
    theorems say what is on the socket of a client, as a function of the
    commands the bus thread took, that those are what the clients sent, and that
    what one client writes reaches the others. *)
From stdpp Require Import gmap.
From S2P Require Import Prelude UnixWire UnixServer.

Section system.
Context {SId EId : Type} `{EmbeddedCan SId EId}.
Abbreviation Command := (BusCommand SId EId).

(** A reader thread: what has arrived on its stream and is not read yet, and
    whether the peer closed it.  [rd_all] and [rd_sent] record everything that
    arrived and every command it sent. *)
Record Reader := {
  rd_id : ClientId;
  rd_rest : bytes;
  rd_eof : bool;
  rd_alive : bool;
  rd_all : bytes;
  rd_sent : list Command;
}.

(** A writer thread: its buffers, how many messages of its channel it took, and
    what it wrote. *)
Record Writer := {
  wr_id : ClientId;
  wr_pos : nat;
  wr_frame_buf : bytes;
  wr_ack_buf : bytes;
  wr_alive : bool;
  wr_out : bytes;
}.

(** [next_chan] names the channels [handle_client] creates, and the threads
    that belong to one; [cmds] is the command channel, [taken] what the bus
    thread received from it. *)
Record Server := {
  next_id : u64;
  next_chan : ChanId;
  accepting : bool;
  stop_msg : bool;
  cmds : list Command;
  taken : list Command;
  bus_alive : bool;
  bus : Bus SId EId;
  readers : gmap ChanId Reader;
  writers : gmap ChanId Writer;
}.

(** [BusServer::start]. *)
Definition server_start : Server :=
  {| next_id := 1; next_chan := 1; accepting := true; stop_msg := false; cmds := []; taken := [];
     bus_alive := true; bus := bus_new; readers := ∅; writers := ∅ |}.

(** [let _ = cmd_tx.send(cmd)]: lost once the bus thread has ended. *)
Definition cmd_send (cs : list Command) (s : Server) : Server :=
  {| next_id := next_id s; next_chan := next_chan s; accepting := accepting s; stop_msg := stop_msg s;
     cmds := if bus_alive s then cmds s ++ cs else cmds s; taken := taken s; bus_alive := bus_alive s;
     bus := bus s; readers := readers s; writers := writers s |}.
Definition set_readers (rs : gmap ChanId Reader) (s : Server) : Server :=
  {| next_id := next_id s; next_chan := next_chan s; accepting := accepting s; stop_msg := stop_msg s;
     cmds := cmds s; taken := taken s; bus_alive := bus_alive s; bus := bus s; readers := rs;
     writers := writers s |}.
Definition set_writers (ws : gmap ChanId Writer) (s : Server) : Server :=
  {| next_id := next_id s; next_chan := next_chan s; accepting := accepting s; stop_msg := stop_msg s;
     cmds := cmds s; taken := taken s; bus_alive := bus_alive s; bus := bus s; readers := readers s;
     writers := ws |}.
Definition set_accepting (on : bool) (s : Server) : Server :=
  {| next_id := next_id s; next_chan := next_chan s; accepting := on; stop_msg := stop_msg s;
     cmds := cmds s; taken := taken s; bus_alive := bus_alive s; bus := bus s; readers := readers s;
     writers := writers s |}.

(** ** The accept thread *)

Definition new_reader (id : ClientId) : Reader :=
  {| rd_id := id; rd_rest := []; rd_eof := false; rd_alive := true; rd_all := []; rd_sent := [] |}.
Definition new_writer (id : ClientId) : Writer :=
  {| wr_id := id; wr_pos := 0; wr_frame_buf := replicate (FRAME_HDR_LEN + MAX_DATA_LEN) 0%Z;
     wr_ack_buf := replicate ACK_LEN 0%Z; wr_alive := true; wr_out := [] |}.

(** [handle_client] with the channel [k]: the command is sent before the
    threads are spawned. *)
Definition handle_client (k : ChanId) (id : ClientId) (s : Server) : Server :=
  let s := cmd_send [AddClient id k] s in
  set_writers (<[k := new_writer id]> (writers s)) (set_readers (<[k := new_reader id]> (readers s)) s).

(** What [listener.accept()] answers; the stream of a new client may fail to
    be set up. *)
Inductive AcceptAnswer := Accepted (setup_ok : bool) | AcceptWouldBlock | AcceptFailed.

(** One round of [accept_loop]. *)
Definition accept_step (a : AcceptAnswer) (s : Server) : Server :=
  if stop_msg s then set_accepting false s
  else
    match a with
    | Accepted setup_ok =>
        let id := next_id s in
        let k := next_chan s in
        let s := {| next_id := wrapping_add64 id 1; next_chan := (k + 1)%Z; accepting := accepting s;
                    stop_msg := stop_msg s; cmds := cmds s; taken := taken s; bus_alive := bus_alive s;
                    bus := bus s; readers := readers s; writers := writers s |} in
        if setup_ok then handle_client k id s else s
    | AcceptWouldBlock => s
    | AcceptFailed => set_accepting false s
    end.

(** ** The threads of a client *)

(** What [client_reader_loop] does with a message: the commands it sends, and
    whether it goes on. *)
Definition reader_round (id : ClientId) (msg_type : u8) (payload : bytes) : list Command * bool :=
  if (msg_type =? MSG_SEND_FRAME)%Z then
    match decode_send_frame payload with
    | Ok send => ([SendFrameCmd id (sf_seq send) (sf_expect_ack send) (sf_frame send)], true)
    | _ => ([RemoveClient id], false)
    end
  else if (msg_type =? MSG_SET_FILTERS)%Z then
    match decode_filters payload with
    | Ok (seq, filters) => ([SetFilters id seq filters], true)
    | _ => ([SetFilters id 0 []], true)
    end
  else ([], true).

Definition reader_sends (k : ChanId) (r : Reader) (rest : bytes) (cs : list Command) (alive : bool)
    (s : Server) : Server :=
  set_readers (<[k := {| rd_id := rd_id r; rd_rest := rest; rd_eof := rd_eof r; rd_alive := alive;
                         rd_all := rd_all r; rd_sent := rd_sent r ++ cs |}]> (readers s)) (cmd_send cs s).

(** One round of [client_reader_loop]; [None] when it waits for more bytes. *)
Definition reader_step (k : ChanId) (s : Server) : option Server :=
  r ← readers s !! k;
  if rd_alive r then
    match read_msg_into (rd_rest r) with
    | (Ok (msg_type, payload), rest) =>
        let '(cs, alive) := reader_round (rd_id r) msg_type payload in
        Some (reader_sends k r rest cs alive s)
    | (Err UnexpectedEof, _) =>
        if rd_eof r then Some (reader_sends k r [] [RemoveClient (rd_id r)] false s) else None
    | (_, rest) => Some (reader_sends k r rest [RemoveClient (rd_id r)] false s)
    end
  else None.

(** Bytes arrive at the server's end of a stream; [eof] when the peer closed it
    after them or the stream fails. *)
Definition arrive (k : ChanId) (bs : bytes) (eof : bool) (s : Server) : option Server :=
  r ← readers s !! k;
  if rd_eof r then None
  else Some (set_readers (<[k := {| rd_id := rd_id r; rd_rest := rd_rest r ++ bs; rd_eof := eof;
                                    rd_alive := rd_alive r; rd_all := rd_all r ++ bs;
                                    rd_sent := rd_sent r |}]> (readers s)) s).

Definition set_writer_alive (alive : bool) (w : Writer) : Writer :=
  {| wr_id := wr_id w; wr_pos := wr_pos w; wr_frame_buf := wr_frame_buf w; wr_ack_buf := wr_ack_buf w;
     wr_alive := alive; wr_out := wr_out w |}.

Definition channel (s : Server) (k : ChanId) : list (ServerMsg SId EId) := default [] (chans (bus s) !! k).

(** One round of [client_writer_loop].  The stream may fail after [cut] bytes
    of the message.  [None] when the channel is empty. *)
Definition writer_step (k : ChanId) (cut : option nat) (s : Server) : option Server :=
  w ← writers s !! k;
  msg ← channel s k !! wr_pos w;
  if wr_alive w then
    let '(r, frame_buf, ack_buf, out) := write_server_msg msg (wr_frame_buf w) (wr_ack_buf w) (wr_out w) in
    let next alive out :=
      set_writers (<[k := {| wr_id := wr_id w; wr_pos := S (wr_pos w); wr_frame_buf := frame_buf;
                             wr_ack_buf := ack_buf; wr_alive := alive; wr_out := out |}]> (writers s)) s in
    match r, cut with
    | Panic, _ => Some (next false out)
    | Ok _, None => Some (next true out)
    | Ok _, Some n => Some (cmd_send [RemoveClient (wr_id w)] (next false (take (length (wr_out w) + n) out)))
    | Err _, _ => Some (cmd_send [RemoveClient (wr_id w)] (next false out))
    end
  else None.

(** ** The bus thread and [shutdown] *)

Definition bus_step (s : Server) : option Server :=
  if bus_alive s then
    match cmds s with
    | [] => None
    | cmd :: rest =>
        Some {| next_id := next_id s; next_chan := next_chan s; accepting := accepting s;
                stop_msg := stop_msg s; cmds := rest; taken := taken s ++ [cmd];
                bus_alive := match cmd with Shutdown => false | _ => true end;
                bus := match cmd with Shutdown => bus s | _ => handle_command cmd (bus s) end;
                readers := readers s; writers := writers s |}
    end
  else None.

(** [shutdown] up to its joins: the stop message and the command. *)
Definition server_shutdown (s : Server) : Server :=
  cmd_send [Shutdown]
    {| next_id := next_id s; next_chan := next_chan s; accepting := accepting s; stop_msg := true;
       cmds := cmds s; taken := taken s; bus_alive := bus_alive s; bus := bus s; readers := readers s;
       writers := writers s |}.

(** ** Interleaving *)

Inductive server_steps : Server -> Server -> Prop :=
| step_accept a s : accepting s = true -> server_steps s (accept_step a s)
| step_arrive k bs eof s s' : Forall is_u8 bs -> arrive k bs eof s = Some s' -> server_steps s s'
| step_reader k s s' : reader_step k s = Some s' -> server_steps s s'
| step_bus s s' : bus_step s = Some s' -> server_steps s s'
| step_writer k cut s s' : writer_step k cut s = Some s' -> server_steps s s'
| step_writer_done k w s :
    (* the senders were dropped with the client's entry *)
    writers s !! k = Some w -> length (channel s k) <= wr_pos w ->
    (bus_alive s = true -> forall id,
       (AddClient id k ∉ cmds s) /\ (forall st, clients (bus s) !! id = Some st -> client_tx st <> k)) ->
    server_steps s (set_writers (<[k := set_writer_alive false w]> (writers s)) s)
| step_shutdown s : server_steps s (server_shutdown s).

Inductive server_reachable : Server -> Prop :=
| reach_start : server_reachable server_start
| reach_step s s' : server_reachable s -> server_steps s s' -> server_reachable s'.
End system.
Arguments Reader SId EId : clear implicits.
Arguments Server SId EId : clear implicits.

(** * Readers *)

Section reader_facts.
Context {SId EId : Type} `{HL : EmbeddedCanLaws SId EId}.
Abbreviation Command := (BusCommand SId EId).

(** What arrives later does not change a message that is complete, nor a
    message that is refused. *)
Lemma read_msg_extend (s more : bytes) :
  match read_msg_into s with
  | (Ok x, s') => read_msg_into (s ++ more) = (Ok x, s' ++ more)
  | (Err UnexpectedEof, _) => True
  | (Err e, _) => exists s', read_msg_into (s ++ more) = (Err e, s')
  | (Panic, _) => False
  end.
Proof.
  unfold read_msg_into, mbind, M_bind, read_exact.
  destruct (Nat.leb_spec 5 (length s)) as [Hs|]; [|done].
  destruct (Nat.leb_spec 5 (length (s ++ more))) as [_|]; [|len].
  rewrite take_app_le, drop_app_le by lia. unfold or_panic.
  destruct (take 5 s) as [|b0 h] eqn:Hh; [apply (f_equal length) in Hh; len|]. simpl.
  assert (Hlen : length (b0 :: h) = 5) by (rewrite <- Hh; len).
  rewrite slice_Some by lia. destruct (MAX_PAYLOAD_LEN <? _); [by eexists|].
  set (n := Z.to_nat _). destruct (Nat.leb_spec n (length (drop 5 s))) as [Hn|]; [|done].
  destruct (Nat.leb_spec n (length (drop 5 s ++ more))); [|len]. unfold mret, M_ret.
  by rewrite take_app_le, drop_app_le by lia.
Qed.

(** The commands of a reader thread on a whole stream. *)
Definition reader_all (id : ClientId) (s : bytes) : list Command :=
  default [] (client_reader_loop (S (length s)) id s).

Lemma reader_loop_round fuel id s :
  client_reader_loop (SId := SId) (EId := EId) (S fuel) id s =
  match read_msg_into s with
  | (Ok (ty, p), s') =>
      let '(cs, alive) := reader_round id ty p in
      if alive then app cs <$> client_reader_loop fuel id s' else Some cs
  | _ => Some [RemoveClient id]
  end.
Proof.
  cbn [client_reader_loop]. unfold reader_round. destruct (read_msg_into s) as [[[ty p]|e|] s']; [|done..].
  destruct (ty =? MSG_SEND_FRAME)%Z; [by destruct (decode_send_frame p)|].
  destruct (ty =? MSG_SET_FILTERS)%Z; [by destruct (decode_filters p) as [[??]|?|]|].
  by destruct (client_reader_loop fuel id s').
Qed.

Lemma reader_loop_fuel fuel id s :
  length s < fuel -> client_reader_loop (SId := SId) (EId := EId) fuel id s = Some (reader_all id s).
Proof.
  intros Hf. unfold reader_all.
  enough (Hg : forall f1 f2 s, length s < f1 -> length s < f2 ->
    client_reader_loop (SId := SId) (EId := EId) f1 id s = client_reader_loop f2 id s).
  { rewrite (Hg fuel (S (length s))) by lia.
    destruct (reader_total (SId := SId) (EId := EId) (S (length s)) id s) as [cs ->]; [lia|done]. }
  clear. induction f1 as [|f1 IH]; intros [|f2] s H1 H2; [lia..|]. rewrite !reader_loop_round.
  destruct (read_msg_into s) as [[[ty p]|e|] s'] eqn:Hr; [|done..]. apply read_msg_consumes in Hr.
  destruct (reader_round id ty p) as [cs []]; [|done]. by rewrite (IH f2 s') by lia.
Qed.

Lemma reader_all_round id s :
  reader_all id s =
  match read_msg_into s with
  | (Ok (ty, p), s') =>
      let '(cs, alive) := reader_round id ty p in if alive then cs ++ reader_all id s' else cs
  | _ => [RemoveClient id]
  end.
Proof.
  unfold reader_all at 1. rewrite reader_loop_round.
  destruct (read_msg_into s) as [[[ty p]|e|] s'] eqn:Hr; [|done..]. apply read_msg_consumes in Hr.
  destruct (reader_round id ty p) as [cs []]; [|done]. by rewrite reader_loop_fuel by lia.
Qed.

(** What a reader has sent and what it would still send for the rest of its
    stream is what the loop sends for the whole stream. *)
Definition reader_ok (r : Reader SId EId) : Prop := forall more,
  (rd_eof r = true -> more = []) ->
  reader_all (rd_id r) (rd_all r ++ more) =
    rd_sent r ++ (if rd_alive r then reader_all (rd_id r) (rd_rest r ++ more) else []).

(** The frames and filter changes of a client. *)
Definition client_cmd (k : ClientId) (c : Command) : bool :=
  match c with SendFrameCmd id _ _ _ | SetFilters id _ _ => (id =? k)%Z | _ => false end.
Definition from_client (k : ClientId) (cs : list Command) : list Command :=
  filter (fun c => client_cmd k c = true) cs.

Lemma from_client_app k cs cs' : from_client k (cs ++ cs') = from_client k cs ++ from_client k cs'.
Proof. apply filter_app. Qed.

Definition cmd_wf (c : Command) : Prop := match c with SendFrameCmd _ _ _ f => frame_wf f | _ => True end.

(** What a round sends is the reader's own and well formed. *)
Lemma reader_round_own id ty p :
  Forall is_u8 p ->
  Forall (fun c => cmd_wf c /\ own_channel (fun id => id) c /\ not_shutdown c /\
                   forall k, k <> id -> client_cmd k c = false) (reader_round id ty p).1.
Proof.
  intros Hp. unfold reader_round. destruct (ty =? MSG_SEND_FRAME)%Z.
  - destruct (decode_send_frame_safe (SId := SId) (EId := EId) p Hp) as [_ Hwf].
    destruct (decode_send_frame p) as [sf|e|]; simpl; apply Forall_singleton; (split_and!; [simpl; auto|done|done|]);
      [|done..]. intros k Hk. simpl. apply Z.eqb_neq. congruence.
  - destruct (ty =? MSG_SET_FILTERS)%Z; [|constructor].
    destruct (decode_filters p) as [[seq fl]|e|]; simpl; apply Forall_singleton;
      (split_and!; [done..|]); intros k Hk; simpl; apply Z.eqb_neq; congruence.
Qed.

Lemma read_msg_u8 s ty p s' :
  Forall is_u8 s -> read_msg_into s = (Ok (ty, p), s') -> Forall is_u8 p /\ Forall is_u8 s'.
Proof.
  unfold read_msg_into, read_exact, mbind, M_bind, or_panic. intros Hs.
  destruct (5 <=? length s); [|done]. destruct (take 5 s !! 0); [|done].
  destruct (slice (take 5 s) 1 5) as [lb|]; [|done]. destruct (_ <? _); [done|].
  destruct (_ <=? length (drop 5 s)); [|done]. intros [= _ <- <-]. auto using Forall_take, Forall_drop.
Qed.

Lemma read_msg_rest_u8 s : Forall is_u8 s -> Forall is_u8 (read_msg_into s).2.
Proof.
  unfold read_msg_into, read_exact, mbind, M_bind, or_panic. intros Hs.
  destruct (5 <=? length s); [|done]. destruct (take 5 s !! 0); [|by apply Forall_drop].
  destruct (slice (take 5 s) 1 5) as [lb|]; [|by apply Forall_drop]. destruct (_ <? _); [by apply Forall_drop|].
  destruct (_ <=? length (drop 5 s)); simpl; auto using Forall_drop.
Qed.
End reader_facts.

(** * The invariant *)

Section system_proofs.
Context {SId EId : Type} `{HL : EmbeddedCanLaws SId EId}.
Abbreviation Command := (BusCommand SId EId).
Abbreviation Sys := (Server SId EId).
Abbreviation own := (own_channel (fun id : ClientId => id)).
Implicit Types (s : Sys) (k : ChanId).

Definition cmd_log s : list Command := taken s ++ cmds s.

Definition reader_inv s k (r : Reader SId EId) : Prop :=
  (1 <= k < next_chan s)%Z /\ rd_id r = k /\ reader_ok r /\ Forall is_u8 (rd_rest r) /\
  from_client k (cmd_log s) `prefix_of` from_client k (rd_sent r) /\
  (bus_alive s = true -> from_client k (cmd_log s) = from_client k (rd_sent r)).

Definition writer_inv s k (w : Writer) : Prop :=
  (1 <= k < next_chan s)%Z /\ length (wr_frame_buf w) = FRAME_HDR_LEN + MAX_DATA_LEN /\
  length (wr_ack_buf w) = ACK_LEN /\ wr_pos w <= length (channel s k) /\
  wr_out w `prefix_of` concat (map server_msg_bytes (take (wr_pos w) (channel s k))) /\
  (wr_alive w = true -> wr_out w = concat (map server_msg_bytes (take (wr_pos w) (channel s k)))).

Record server_inv s : Prop := {
  si_id : next_id s = wrap 64 (next_chan s) /\ (1 <= next_chan s)%Z;
  si_reader k r : readers s !! k = Some r -> reader_inv s k r;
  si_none k : readers s !! k = None -> from_client k (cmd_log s) = [];
  si_writer k w : writers s !! k = Some w -> writer_inv s k w;
  si_own : Forall own (cmd_log s);
  si_wf : Forall cmd_wf (cmd_log s);
  si_bus : bus s = bus_loop (taken s) bus_new;
  si_alive : bus_alive s = true -> Forall not_shutdown (taken s);
  si_msgs k : Forall server_msg_wf (channel s k);
}.

Global Instance chan_inj : Inj (=) (=) (fun id : ClientId => id).
Proof. by intros ??. Qed.

(** ** Commands *)

(** A command that is no client's frame or filter change. *)
Definition neutral (c : Command) : Prop := own c /\ cmd_wf c /\ forall k, client_cmd k c = false.

Lemma from_client_none k (cs : list Command) : Forall (fun c => client_cmd k c = false) cs -> from_client k cs = [].
Proof.
  induction 1 as [|c cs Hc _ IH]; [done|]. unfold from_client in *.
  rewrite filter_cons_False; [done|]. by rewrite Hc.
Qed.

Lemma cmd_log_send cs s :
  cmd_log (cmd_send cs s) = if bus_alive s then cmd_log s ++ cs else cmd_log s.
Proof. unfold cmd_log, cmd_send. simpl. destruct (bus_alive s); [by rewrite app_assoc|done]. Qed.

Lemma inv_send_neutral cs s : server_inv s -> Forall neutral cs -> server_inv (cmd_send cs s).
Proof.
  intros [Hid Hr Hn Hw Ho Hwf Hb Ha Hm] Hcs.
  assert (Hlog : forall k, from_client k (cmd_log (cmd_send cs s)) = from_client k (cmd_log s)).
  { intros k. rewrite cmd_log_send. destruct (bus_alive s); [|done]. rewrite from_client_app.
    rewrite (from_client_none k cs); [by rewrite app_nil_r|].
    eapply Forall_impl; [exact Hcs|]. intros c (_ & _ & Hc). apply Hc. }
  assert (HF : forall P, Forall P (cmd_log s) -> Forall P cs -> Forall P (cmd_log (cmd_send cs s))).
  { intros P HP HP'. rewrite cmd_log_send. destruct (bus_alive s); [by apply Forall_app|done]. }
  split; try done.
  - intros k r Hk. unfold reader_inv. rewrite Hlog. by apply Hr.
  - intros k Hk. rewrite Hlog. by apply Hn.
  - apply HF; [done|]. eapply Forall_impl; [exact Hcs|]. by intros c (? & _).
  - apply HF; [done|]. eapply Forall_impl; [exact Hcs|]. by intros c (_ & ? & _).
Qed.

Lemma inv_set_writer k w s :
  server_inv s -> writer_inv s k w -> server_inv (set_writers (<[k := w]> (writers s)) s).
Proof.
  intros [Hid Hr Hn Hw Ho Hwf Hb Ha Hm] Hk. split; try done.
  intros k' w'. simpl. destruct (decide (k = k')) as [<-|Hne].
  - rewrite lookup_insert_eq. by intros [= <-].
  - rewrite lookup_insert_ne by done. apply Hw.
Qed.

Lemma inv_set_reader k r s :
  server_inv s -> is_Some (readers s !! k) -> reader_inv s k r ->
  server_inv (set_readers (<[k := r]> (readers s)) s).
Proof.
  intros [Hid Hr Hn Hw Ho Hwf Hb Ha Hm] Hsome Hk. split; try done; simpl.
  - intros k' r'. destruct (decide (k = k')) as [<-|Hne].
    + rewrite lookup_insert_eq. by intros [= <-].
    + rewrite lookup_insert_ne by done. apply Hr.
  - intros k' Hk'. apply Hn. destruct (decide (k = k')) as [<-|Hne].
    + by rewrite lookup_insert_eq in Hk'.
    + by rewrite lookup_insert_ne in Hk'.
Qed.

(** ** The threads *)

Lemma inv_start : server_inv server_start.
Proof. by split. Qed.

Lemma inv_accept a s :
  (next_chan (accept_step a s) <= 2 ^ 64)%Z -> server_inv s -> server_inv (accept_step a s).
Proof.
  intros Hbound Hinv. unfold accept_step in *. destruct (stop_msg s); [by destruct Hinv; split|].
  destruct a as [ok| |]; [|done|by destruct Hinv; split].
  destruct (si_id _ Hinv) as [Hid Hpos].
  set (s1 := {| next_id := _ |}) in *.
  assert (Hb : (next_chan s + 1 <= 2 ^ 64)%Z) by by destruct ok.
  assert (Hk : next_id s = next_chan s) by (rewrite Hid; apply wrap_small; split; lia).
  assert (Hs1 : server_inv s1).
  { destruct Hinv as [_ Hr Hn Hw Ho Hwf Hbus Ha Hm]. split; try done; simpl.
    - split; [|lia]. rewrite Hk. done.
    - intros k r Hkr. destruct (Hr k r Hkr) as (? & ?). split; [simpl; lia|done].
    - intros k w Hkw. destruct (Hw k w Hkw) as (? & ?). split; [simpl; lia|done]. }
  destruct ok; [|done]. unfold handle_client. rewrite Hk.
  assert (Hnone : readers s !! next_chan s = None).
  { destruct (readers s !! next_chan s) as [r|] eqn:Hr; [|done]. destruct (si_reader _ Hinv _ _ Hr); lia. }
  assert (Hs2 : server_inv (cmd_send [AddClient (next_chan s) (next_chan s)] s1)).
  { apply inv_send_neutral; [done|]. by apply Forall_singleton. }
  set (s2 := cmd_send _ s1) in *.
  assert (Hfrom : from_client (next_chan s) (cmd_log s2) = []) by (apply (si_none _ Hs2); done).
  assert (Hs3 : server_inv (set_readers (<[next_chan s := new_reader (next_chan s)]> (readers s2)) s2)).
  { destruct Hs2 as [Hid2 Hr Hn Hw Ho Hwf Hbus Ha Hm]. split; try done; simpl.
    - intros k r. destruct (decide (next_chan s = k)) as [<-|Hne].
      + rewrite lookup_insert_eq. intros [= <-]. unfold reader_inv.
        change (cmd_log (set_readers _ s2)) with (cmd_log s2). rewrite Hfrom.
        split_and!; [simpl; lia|simpl; lia|done|by intros more _|constructor|done|done].
      + rewrite lookup_insert_ne by done. apply Hr.
    - intros k Hkn. apply Hn. destruct (decide (next_chan s = k)) as [<-|Hne]; [done|].
      by rewrite lookup_insert_ne in Hkn. }
  apply (inv_set_writer _ _ (set_readers (<[next_chan s := new_reader (next_chan s)]> (readers s2)) s2));
    [done|]. split_and!; simpl; [lia|lia|done|done|lia|done|done].
Qed.

Lemma inv_writer k cut s s' : writer_step k cut s = Some s' -> server_inv s -> server_inv s'.
Proof.
  unfold writer_step. intros Hstep Hinv. destruct (writers s !! k) as [w|] eqn:Hw; [|done]. simpl in Hstep.
  destruct (channel s k !! wr_pos w) as [msg|] eqn:Hmsg; [|done]. simpl in Hstep.
  destruct (wr_alive w) eqn:Hal; [|done].
  destruct (si_writer _ Hinv _ _ Hw) as (Hk & Hfb & Hab & Hpos & _ & Hout). specialize (Hout Hal).
  assert (Hwf : server_msg_wf msg) by (eapply Forall_lookup_1; [apply (si_msgs _ Hinv k)|exact Hmsg]).
  destruct (write_server_msg_run msg _ _ (wr_out w) Hwf Hfb Hab) as (fb & ab & Hrun & Hfb' & Hab').
  rewrite Hrun in Hstep.
  assert (Hnext : wr_out w ++ server_msg_bytes msg =
                  concat (map server_msg_bytes (take (S (wr_pos w)) (channel s k)))).
  { rewrite (take_S_r _ _ _ Hmsg), map_app, concat_app, <- Hout. simpl. by rewrite app_nil_r. }
  apply lookup_lt_Some in Hmsg.
  destruct cut as [n|]; simplify_eq.
  - apply inv_send_neutral; [|by apply Forall_singleton]. apply inv_set_writer; [done|].
    split_and!; simpl; [lia|lia|by rewrite Hfb'|by rewrite Hab'|lia| |done]. rewrite <- Hnext. apply prefix_take.
  - apply inv_set_writer; [done|]. split_and!; simpl; [lia|lia|by rewrite Hfb'|by rewrite Hab'|lia|by rewrite Hnext|done].
Qed.

Lemma inv_writer_done k w s :
  writers s !! k = Some w -> server_inv s ->
  server_inv (set_writers (<[k := set_writer_alive false w]> (writers s)) s).
Proof.
  intros Hw Hinv. apply inv_set_writer; [done|].
  destruct (si_writer _ Hinv _ _ Hw) as (? & ? & ? & ? & ? & _).
  split_and!; simpl; done || lia.
Qed.

Lemma inv_arrive k bs eof s s' :
  Forall is_u8 bs -> arrive k bs eof s = Some s' -> server_inv s -> server_inv s'.
Proof.
  unfold arrive. intros Hbs Hstep Hinv. destruct (readers s !! k) as [r|] eqn:Hr; [|done]. simpl in Hstep.
  destruct (rd_eof r) eqn:Heof; [done|]. simplify_eq.
  destruct (si_reader _ Hinv _ _ Hr) as (Hk & Hid & Hok & Hu & Hpre & Heq).
  apply inv_set_reader; [done|by eexists|]. split_and!; simpl; try done; try lia.
  - intros more _. simpl. rewrite <- !app_assoc. apply Hok. by rewrite Heof.
  - by apply Forall_app.
Qed.

(** What a reader may send: its own frames, filter changes and removal. *)
Definition sent_by (id : ClientId) (c : Command) : Prop :=
  cmd_wf c /\ own c /\ not_shutdown c /\ forall k, k <> id -> client_cmd k c = false.

Lemma sent_by_other id k (cs : list Command) : Forall (sent_by id) cs -> k <> id -> from_client k cs = [].
Proof.
  intros Hcs Hk. apply from_client_none. eapply Forall_impl; [exact Hcs|].
  intros c (_ & _ & _ & Hc). by apply Hc.
Qed.

Lemma inv_reader_sends k r rest cs alive s :
  server_inv s -> readers s !! k = Some r -> Forall (sent_by k) cs -> Forall is_u8 rest ->
  reader_ok {| rd_id := rd_id r; rd_rest := rest; rd_eof := rd_eof r; rd_alive := alive;
               rd_all := rd_all r; rd_sent := rd_sent r ++ cs |} ->
  server_inv (reader_sends k r rest cs alive s).
Proof.
  intros [Hid Hr Hn Hw Ho Hwf Hb Ha Hm] Hk Hcs Hu Hok.
  set (s' := reader_sends k r rest cs alive s).
  assert (Hlog : cmd_log s' = if bus_alive s then cmd_log s ++ cs else cmd_log s) by apply cmd_log_send.
  assert (Hother : forall k', k' <> k -> from_client k' (cmd_log s') = from_client k' (cmd_log s)).
  { intros k' Hne. rewrite Hlog. destruct (bus_alive s); [|done].
    by rewrite from_client_app, (sent_by_other k k' cs Hcs Hne), app_nil_r. }
  assert (HF : forall P, Forall P (cmd_log s) -> Forall P cs -> Forall P (cmd_log s')).
  { intros P HP HP'. rewrite Hlog. destruct (bus_alive s); [by apply Forall_app|done]. }
  split; try done.
  - intros k' r'. unfold s' at 1, reader_sends. simpl. destruct (decide (k = k')) as [<-|Hne].
    + rewrite lookup_insert_eq. intros [= <-]. destruct (Hr _ _ Hk) as (? & ? & _ & _ & Hpre & Heq).
      split_and!; simpl; try done; try lia.
      * rewrite Hlog, from_client_app. destruct (bus_alive s).
        -- by rewrite from_client_app, Heq.
        -- by apply prefix_app_r.
      * intros Halive. rewrite Hlog, Halive, !from_client_app. by rewrite Heq.
    + rewrite lookup_insert_ne by done. intros Hk'. unfold reader_inv. rewrite Hother by congruence.
      by apply Hr.
  - intros k'. unfold s' at 1, reader_sends. simpl. intros Hk'.
    assert (Hne : k' <> k) by (intros ->; by rewrite lookup_insert_eq in Hk').
    rewrite Hother by done. apply Hn. by rewrite lookup_insert_ne in Hk'.
  - apply HF; [done|]. eapply Forall_impl; [exact Hcs|]. by intros c (_ & ? & _).
  - apply HF; [done|]. eapply Forall_impl; [exact Hcs|]. by intros c (? & _).
Qed.

(** A round keeps what the reader did and will do equal to what the loop does
    on the whole stream. *)
Lemma reader_ok_msg (r : Reader SId EId) ty p rest cs alive :
  reader_ok r -> rd_alive r = true -> read_msg_into (rd_rest r) = (Ok (ty, p), rest) ->
  reader_round (rd_id r) ty p = (cs, alive) ->
  reader_ok {| rd_id := rd_id r; rd_rest := rest; rd_eof := rd_eof r; rd_alive := alive;
               rd_all := rd_all r; rd_sent := rd_sent r ++ cs |}.
Proof.
  intros Hok Hal Hread Hround more Hmore. simpl in *. rewrite Hok, Hal by done.
  pose proof (read_msg_extend (rd_rest r) more) as Hext. rewrite Hread in Hext.
  rewrite reader_all_round, Hext, Hround, <- app_assoc. by destruct alive; rewrite ?app_nil_r.
Qed.

Lemma reader_ok_end (r : Reader SId EId) rest :
  reader_ok r -> rd_alive r = true ->
  match (read_msg_into (rd_rest r)).1 with
  | Ok _ => False
  | Err UnexpectedEof => rd_eof r = true
  | _ => True
  end ->
  reader_ok {| rd_id := rd_id r; rd_rest := rest; rd_eof := rd_eof r; rd_alive := false;
               rd_all := rd_all r; rd_sent := rd_sent r ++ [RemoveClient (rd_id r)] |}.
Proof.
  intros Hok Hal Hread more Hmore. simpl in *. rewrite Hok, Hal by done.
  rewrite app_nil_r. f_equal. rewrite reader_all_round.
  pose proof (read_msg_extend (rd_rest r) more) as Hext.
  destruct (read_msg_into (rd_rest r)) as [[x|e|] rest'] eqn:Hr; simpl in Hread; [done| |done].
  destruct e; [by destruct Hext as [s' ->]..| |by destruct Hext as [s' ->]].
  rewrite (Hmore Hread), app_nil_r. by rewrite Hr.
Qed.

Lemma inv_reader k s s' : reader_step k s = Some s' -> server_inv s -> server_inv s'.
Proof.
  unfold reader_step. intros Hstep Hinv. destruct (readers s !! k) as [r|] eqn:Hr; [|done]. simpl in Hstep.
  destruct (rd_alive r) eqn:Hal; [|done].
  destruct (si_reader _ Hinv _ _ Hr) as (Hk & Hid & Hok & Hu & _).
  assert (Hrm : Forall (sent_by k) [RemoveClient (rd_id r)]) by (by apply Forall_singleton).
  destruct (read_msg_into (rd_rest r)) as [[[ty p]|e|] rest] eqn:Hread.
  - destruct (reader_round (rd_id r) ty p) as [cs alive] eqn:Hround. injection Hstep as <-.
    destruct (read_msg_u8 _ _ _ _ Hu Hread) as [Hp Hrest].
    apply inv_reader_sends; [done|done| |done|by eapply reader_ok_msg].
    rewrite Hid in Hround. pose proof (reader_round_own (SId := SId) (EId := EId) k ty p Hp) as Hown.
    by rewrite Hround in Hown.
  - pose proof (reader_ok_end r) as Hend. rewrite Hread in Hend. simpl in Hend.
    pose proof (read_msg_rest_u8 (rd_rest r) Hu) as Hrest. rewrite Hread in Hrest. simpl in Hrest.
    destruct e; try (injection Hstep as <-; apply inv_reader_sends; auto; fail).
    destruct (rd_eof r) eqn:Heof; [|done]. injection Hstep as <-. apply inv_reader_sends; auto.
    rewrite Heof. by apply Hend.
  - pose proof (read_msg_extend (rd_rest r) []) as Hext. by rewrite Hread in Hext.
Qed.

(** ** The bus thread *)

Lemma view_step_wf k (cmd : Command) v : cmd_wf cmd -> Forall server_msg_wf (view_step k cmd v).1.
Proof.
  intros Hwf. destruct cmd as [id tx|id|id seq e f|id seq fl|]; simpl in *.
  - case_decide; simpl; [|constructor]. constructor; [done|]. destruct (waiting v); by repeat constructor.
  - constructor.
  - apply Forall_app. unfold frames_for.
    split; [destruct (accepts v) as [fl|]; [destruct (filters_match fl f)|]|destruct (_ && _)];
      [by apply Forall_singleton|constructor|constructor|by apply Forall_singleton|constructor].
  - case_decide; [|constructor]. destruct (accepts v), (seq =? 0)%Z; by repeat constructor.
  - constructor.
Qed.

Lemma command_grows s cmd :
  server_inv s -> own cmd -> cmd_wf cmd ->
  forall k, exists out, Forall server_msg_wf out /\
    default [] (chans (handle_command cmd (bus s)) !! k) = channel s k ++ out.
Proof.
  intros Hinv Hown Hwf k. pose proof (si_own _ Hinv) as [Htaken _]%Forall_app.
  destruct (bus_loop_keeps_view (fun id => id) k (taken s) bus_new view_new (sees_new _ k) Htaken) as [v Hv].
  rewrite <- (si_bus _ Hinv) in Hv.
  pose proof (bus_step_sees (fun id => id) k cmd (bus s) v Hv Hown) as Hstep.
  pose proof (view_step_wf k cmd v Hwf) as Hout.
  destruct (view_step k cmd v) as [out v']. destruct Hstep as [_ Hc]. by exists out.
Qed.

Lemma writer_grow s s' k w out :
  next_chan s' = next_chan s -> channel s' k = channel s k ++ out -> writer_inv s k w -> writer_inv s' k w.
Proof.
  intros Hn Hc (Hk & Hfb & Hab & Hpos & Hout). unfold writer_inv. rewrite Hn, Hc, take_app_le by lia.
  split_and!; try done; try lia; [len|apply Hout..].
Qed.

Lemma inv_bus s s' : bus_step s = Some s' -> server_inv s -> server_inv s'.
Proof.
  unfold bus_step. intros Hstep Hinv. destruct (bus_alive s) eqn:Hal; [|done].
  destruct (cmds s) as [|cmd rest] eqn:Hcmds; [done|]. injection Hstep as Hs'.
  assert (Hlog : cmd_log s' = cmd_log s).
  { subst s'. unfold cmd_log. simpl. by rewrite Hcmds, <- app_assoc. }
  pose proof (si_own _ Hinv) as Ho. pose proof (si_wf _ Hinv) as Hwf.
  unfold cmd_log in Ho, Hwf. rewrite Hcmds in Ho, Hwf.
  apply Forall_app in Ho as [_ [Ho _]%Forall_cons_1]. apply Forall_app in Hwf as [_ [Hwf _]%Forall_cons_1].
  assert (Hgrow : forall k, exists out, Forall server_msg_wf out /\ channel s' k = channel s k ++ out).
  { intros k. subst s'. destruct (command_grows s cmd Hinv Ho Hwf k) as (out & Hout & Hk).
    unfold channel at 1. simpl. destruct cmd; [by exists out..|]. exists []. by rewrite app_nil_r. }
  assert (Hsame : next_id s' = next_id s /\ next_chan s' = next_chan s /\ readers s' = readers s /\
                  writers s' = writers s) by by subst s'.
  destruct Hsame as (Hi & Hc & Hrd & Hwr).
  destruct Hinv as [Hid Hr Hn Hw Ho' Hwf' Hb Ha Hm]. split; rewrite ?Hlog, ?Hi, ?Hc, ?Hrd, ?Hwr; try done.
  - intros k r Hk. destruct (Hr k r Hk) as (? & ? & ? & ? & ? & Heq). unfold reader_inv.
    rewrite Hlog, Hc. split_and!; try done; try lia. intros _. by apply Heq.
  - intros k w Hk. destruct (Hgrow k) as (out & _ & Hout). eapply writer_grow; [done|done|by apply Hw].
  - subst s'. simpl. rewrite bus_loop_app by by apply Ha. rewrite <- Hb. by destruct cmd.
  - subst s'. simpl. intros Hns. apply Forall_app. split; [by apply Ha|]. apply Forall_singleton. by destruct cmd.
  - intros k. destruct (Hgrow k) as (out & Hout & ->). apply Forall_app. by split.
Qed.

Lemma inv_shutdown s : server_inv s -> server_inv (server_shutdown s).
Proof.
  intros Hinv. apply inv_send_neutral; [|by apply Forall_singleton]. by destruct Hinv; split.
Qed.

(** ** Reachable states *)

Lemma next_chan_mono s s' : server_steps s s' -> (next_chan s <= next_chan s')%Z.
Proof.
  destruct 1 as [a s _|k bs eof s s' _ Hs|k s s' Hs|s s' Hs|k cut s s' Hs|k w s _ _ _|s]; [..|done|done].
  - unfold accept_step. destruct (stop_msg s); [done|]. destruct a as [[]| |]; simpl; lia.
  - unfold arrive in Hs. destruct (readers s !! k) as [r|]; [|done]. simpl in Hs.
    destruct (rd_eof r); [done|]. by simplify_eq.
  - unfold reader_step in Hs. destruct (readers s !! k) as [r|]; [|done]. simpl in Hs.
    destruct (rd_alive r); [|done]. destruct (read_msg_into _) as [[[ty p]|[]|] rest].
    + destruct (reader_round _ _ _). by simplify_eq.
    + by simplify_eq.
    + by simplify_eq.
    + destruct (rd_eof r); by simplify_eq.
    + by simplify_eq.
    + by simplify_eq.
  - unfold bus_step in Hs. destruct (bus_alive s), (cmds s); by simplify_eq.
  - unfold writer_step in Hs. destruct (writers s !! k) as [w|]; [|done]. simpl in Hs.
    destruct (channel s k !! wr_pos w); [|done]. simpl in Hs. destruct (wr_alive w); [|done].
    destruct (write_server_msg _ _ _ _) as [[[[]] ]], cut; by simplify_eq.
Qed.

(** Client ids are 64 bits wide and wrap: the invariant holds as long as they
    have not. *)
Lemma server_inv_reachable s : server_reachable s -> (next_chan s <= 2 ^ 64)%Z -> server_inv s.
Proof.
  induction 1 as [|s s' Hreach IH Hstep]; intros Hb; [apply inv_start|].
  assert (Hinv : server_inv s) by (apply IH; pose proof (next_chan_mono _ _ Hstep); lia).
  destruct Hstep.
  - by apply inv_accept.
  - by eapply inv_arrive.
  - by eapply inv_reader.
  - by eapply inv_bus.
  - by eapply inv_writer.
  - by apply inv_writer_done.
  - by apply inv_shutdown.
Qed.

Lemma channel_view s k : server_inv s -> channel s k = view_run k (taken s) view_new.
Proof.
  intros Hinv. pose proof (si_own _ Hinv) as [Htaken _]%Forall_app. unfold channel.
  rewrite (si_bus _ Hinv).
  rewrite (bus_loop_sees (fun id => id) k (taken s) bus_new view_new (sees_new _ k) Htaken :
    default [] (chans (bus_loop (taken s) bus_new) !! k) = _). unfold content. simpl. by rewrite lookup_empty.
Qed.

(** What the bus thread took from a client, against the bytes that arrived. *)
Lemma taken_prefix s k r :
  server_inv s -> readers s !! k = Some r ->
  from_client k (taken s) `prefix_of` from_client k (reader_all k (rd_all r)).
Proof.
  intros Hinv Hr. destruct (si_reader _ Hinv _ _ Hr) as (_ & Hid & Hok & _ & Hpre & _).
  specialize (Hok [] ltac:(done)). rewrite Hid, app_nil_r in Hok. rewrite Hok, from_client_app.
  apply prefix_app_r. etrans; [|exact Hpre]. unfold cmd_log. rewrite from_client_app. by apply prefix_app_r.
Qed.

Lemma taken_all s k r :
  server_inv s -> readers s !! k = Some r ->
  bus_alive s = true -> cmds s = [] -> reader_step k s = None ->
  from_client k (taken s) = from_client k (reader_all k (rd_all r)).
Proof.
  intros Hinv Hr Hal Hcmds Hidle. destruct (si_reader _ Hinv _ _ Hr) as (_ & Hid & Hok & _ & _ & Heq).
  specialize (Heq Hal). unfold cmd_log in Heq. rewrite Hcmds, app_nil_r in Heq. rewrite Heq.
  specialize (Hok [] ltac:(done)). rewrite Hid, !app_nil_r in Hok. rewrite Hok, from_client_app.
  unfold reader_step in Hidle. rewrite Hr in Hidle. simpl in Hidle.
  destruct (rd_alive r); [|by rewrite app_nil_r]. rewrite reader_all_round.
  destruct (read_msg_into (rd_rest r)) as [[[ty p]|e|] rest]; [|by rewrite app_nil_r..].
  by destruct (reader_round _ _ _).
Qed.

Lemma written s k w :
  server_inv s -> writers s !! k = Some w ->
  wr_out w `prefix_of` concat (map server_msg_bytes (channel s k)) /\
  (wr_alive w = true -> writer_step k None s = None ->
   wr_out w = concat (map server_msg_bytes (channel s k))).
Proof.
  intros Hinv Hw. destruct (si_writer _ Hinv _ _ Hw) as (_ & Hfb & Hab & Hpos & Hpre & Hout). split.
  - etrans; [exact Hpre|]. rewrite <- (take_drop (wr_pos w) (channel s k)) at 2.
    rewrite map_app, concat_app. by apply prefix_app_r.
  - intros Hal Hidle. rewrite Hout by done. unfold writer_step in Hidle. rewrite Hw in Hidle. simpl in Hidle.
    destruct (channel s k !! wr_pos w) as [msg|] eqn:Hmsg.
    + simpl in Hidle. rewrite Hal in Hidle. by destruct (write_server_msg _ _ _ _) as [[[[]] ]].
    + apply lookup_ge_None_1 in Hmsg. by rewrite take_ge.
Qed.

(** C14. The bus server as a system.  In every state its threads can reach, in
    any interleaving and with any bytes arriving on the sockets, up to the wrap
    of the 64-bit client ids: the commands the bus thread took from a client
    are, in order, a prefix of what the bytes from that client say, and all of
    it once the client's reader waits and the command channel is empty; no
    command comes from a client that is not there; what was sent to a client is
    what its view of those commands says; and the bytes on its socket are the
    encodings of that, a prefix of them at any time and all of them once its
    writer waits. *)
Theorem bus_server_system s k r w :
  server_reachable s -> (next_chan s <= 2 ^ 64)%Z ->
  readers s !! k = Some r -> writers s !! k = Some w ->
  from_client k (taken s) `prefix_of` from_client k (reader_all k (rd_all r)) /\
  (bus_alive s = true -> cmds s = [] -> reader_step k s = None ->
   from_client k (taken s) = from_client k (reader_all k (rd_all r))) /\
  (forall j, readers s !! j = None -> from_client j (taken s) = []) /\
  channel s k = view_run k (taken s) view_new /\
  wr_out w `prefix_of` concat (map server_msg_bytes (channel s k)) /\
  (wr_alive w = true -> writer_step k None s = None ->
   wr_out w = concat (map server_msg_bytes (channel s k))).
Proof.
  intros Hs Hb Hr Hw. pose proof (server_inv_reachable s Hs Hb) as Hinv.
  split_and!; [by apply taken_prefix|by apply taken_all| |by apply channel_view|by apply written..].
  intros j Hj. apply (si_none _ Hinv) in Hj. unfold cmd_log in Hj. rewrite from_client_app in Hj.
  by apply app_eq_nil in Hj as [? _].
Qed.

(** ** Delivery *)

Definition frame_of (c : Command) : option (UnixFrame SId EId) :=
  match c with SendFrameCmd _ _ _ f => Some f | _ => None end.
Definition frame_got (m : ServerMsg SId EId) : option (UnixFrame SId EId) :=
  match m with FrameMsg f => Some f | _ => None end.

Definition no_filters (b : ClientId) (c : Command) : Prop :=
  match c with SetFilters id _ _ => id <> b | _ => True end.

Lemma view_frames b post v :
  accepts v = Some [] -> Forall (quiet b) post -> omap frame_got (view_run b post v) = omap frame_of post.
Proof.
  intros Ha Hq. revert v Ha. induction Hq as [|cmd cmds Hc _ IH]; intros v Ha; [done|].
  destruct cmd as [id tx|id|id seq e f|id seq fl'|]; simpl in *; [..|done].
  - rewrite decide_False by done. by apply IH.
  - rewrite !decide_False by done. by apply IH.
  - unfold frames_for. rewrite Ha. simpl. f_equal.
    destruct (e && bool_decide (id = b) && _); by apply IH.
  - rewrite decide_False by done. by apply IH.
Qed.

Definition view_after (c : ClientId) (cs : list Command) (v : View) : View :=
  foldl (fun v cmd => (view_step c cmd v).2) v cs.

Lemma view_run_app c pre post v :
  Forall not_shutdown pre -> view_run c (pre ++ post) v = view_run c pre v ++ view_run c post (view_after c pre v).
Proof.
  intros Hn. revert v. induction Hn as [|cmd pre Hc _ IH]; intros v; [done|].
  unfold view_after in *. cbn [app foldl].
  destruct cmd; [..|done]; cbn [view_run]; destruct (view_step c _ v) as [out v']; simpl;
    by rewrite IH, app_assoc.
Qed.

Lemma waiting_after b cs v :
  Forall (no_filters b) cs -> waiting v = None -> waiting (view_after b cs v) = None.
Proof.
  intros Hcs. revert v. induction Hcs as [|cmd cs Hc _ IH]; intros v Hv; [done|]. apply IH.
  destruct cmd as [id tx|id|id seq e f|id seq fl|]; simpl in *; try done; case_decide; done.
Qed.

(** What the bus put on the channel of a client that joined and set no filters. *)
Lemma joined_channel s b pre post :
  server_inv s -> bus_alive s = true -> taken s = pre ++ AddClient b b :: post ->
  Forall (no_filters b) pre -> Forall (quiet b) post ->
  exists before after, channel s b = before ++ after /\ omap frame_got after = omap frame_of post.
Proof.
  intros Hinv Hal Ht Hpre Hpost. pose proof (si_alive _ Hinv Hal) as Hns. rewrite Ht in Hns.
  apply Forall_app in Hns as [Hns _]. rewrite (channel_view s b Hinv), Ht, view_run_app by done.
  set (v := view_after b pre view_new).
  assert (Hw : waiting v = None) by by apply waiting_after. cbn [view_run view_step].
  rewrite decide_True, Hw by done. simpl. eexists (_ ++ [Hello]), _. split; [by rewrite <- app_assoc|].
  by apply view_frames.
Qed.

Lemma reader_all_sends k sends :
  Forall (fun '(seq, _, f) => is_u64 seq /\ frame_wf f) sends ->
  from_client k (reader_all k (send_stream sends)) = map (fun '(seq, e, f) => SendFrameCmd k seq e f) sends.
Proof.
  intros Hs. unfold reader_all. rewrite reader_reads_sends by (done || lia). simpl.
  rewrite from_client_app. unfold from_client at 2. simpl. rewrite app_nil_r.
  clear Hs. induction sends as [|[[seq e] f] sends IH]; [done|]. unfold from_client in *. simpl.
  rewrite filter_cons_True; [by rewrite IH|]. simpl. apply Z.eqb_refl.
Qed.

Lemma frames_of_client a (cs : list Command) : omap frame_of (from_client a cs) `sublist_of` omap frame_of cs.
Proof.
  unfold from_client. induction cs as [|c cs IH]; [done|]. rewrite filter_cons.
  case_decide; simpl; destruct (frame_of c); by try constructor.
Qed.

(** C13. Delivery between two clients: once everything waits (the reader of [a],
    the bus thread, the writer of [b]), the frames [a] wrote to its socket are
    on the socket of [b], in the order [a] wrote them and none missing, if [b]
    was connected before [a] sent, stayed and set no filters. *)
Theorem bus_server_delivers s a b r w sends pre post :
  server_reachable s -> (next_chan s <= 2 ^ 64)%Z ->
  readers s !! a = Some r -> rd_all r = send_stream sends ->
  Forall (fun '(seq, _, f) => is_u64 seq /\ frame_wf f) sends ->
  reader_step a s = None -> bus_alive s = true -> cmds s = [] ->
  writers s !! b = Some w -> wr_alive w = true -> writer_step b None s = None ->
  taken s = pre ++ AddClient b b :: post ->
  from_client a pre = [] -> Forall (no_filters b) pre -> Forall (quiet b) post ->
  exists msgs, wr_out w = concat (map server_msg_bytes msgs) /\
    map (fun '(_, _, f) => f) sends `sublist_of` omap frame_got msgs.
Proof.
  intros Hs Hb Hr Hall Hsends Hidle Hal Hcmds Hw Hwal Hwidle Ht Hapre Hpre Hpost.
  pose proof (server_inv_reachable s Hs Hb) as Hinv. exists (channel s b).
  split; [by apply (written s b w Hinv Hw)|].
  destruct (joined_channel s b pre post Hinv Hal Ht Hpre Hpost) as (m1 & m2 & -> & Hm2).
  rewrite omap_app, Hm2. apply sublist_inserts_l.
  assert (Hfrom : from_client a post = map (fun '(seq, e, f) => SendFrameCmd a seq e f) sends).
  { rewrite <- (reader_all_sends a sends Hsends), <- Hall, <- (taken_all s a r) by done.
    rewrite Ht, from_client_app, Hapre. unfold from_client. by rewrite filter_cons_False. }
  etrans; [|apply (frames_of_client a)]. rewrite Hfrom.
  clear. induction sends as [|[[seq e] f] sends IH]; simpl; by constructor.
Qed.
End system_proofs.

(** * A concrete run *)

Lemma reach_default {SId EId : Type} `{EmbeddedCan SId EId} (s : Server SId EId) (o : option (Server SId EId)) :
  server_reachable s -> (forall s', o = Some s' -> server_steps s s') -> server_reachable (default s o).
Proof. intros Hs Ho. destruct o as [s'|]; [|done]. apply (reach_step s); auto. Qed.

(** Two clients join, the first sends a frame, the second gets it. *)
Definition demo_bytes : bytes := send_stream [(7%Z, true, demo_frame)].
Definition demo_joined :=
  let s := accept_step (Accepted true) (accept_step (Accepted true) server_start) in
  let s := default s (bus_step s) in default s (bus_step s).
Definition demo_server :=
  let s := default demo_joined (arrive 1 demo_bytes false demo_joined) in
  let s := default s (reader_step 1 s) in
  let s := default s (bus_step s) in
  let s := default s (writer_step 2 None s) in
  default s (writer_step 2 None s).

Lemma demo_bytes_u8 : Forall is_u8 demo_bytes.
Proof. unfold is_u8. repeat (constructor; [split; vm_compute; done|]). constructor. Qed.

Lemma demo_reachable : server_reachable demo_server.
Proof.
  unfold demo_server, demo_joined.
  repeat (apply reach_default;
    [|intros s' Hs'; eauto using server_steps, demo_bytes_u8]).
  do 2 (eapply reach_step; [|by apply step_accept]). constructor.
Qed.

Definition demo_reader k := default (new_reader 0) (readers demo_server !! k).
Definition demo_writer k := default (new_writer 0) (writers demo_server !! k).

Lemma demo_threads :
  readers demo_server !! 1%Z = Some (demo_reader 1) /\ readers demo_server !! 2%Z = Some (demo_reader 2) /\
  writers demo_server !! 2%Z = Some (demo_writer 2) /\ wr_alive (demo_writer 2) = true /\
  writer_step 2 None demo_server = None /\ reader_step 1 demo_server = None /\
  bus_alive demo_server = true /\ cmds demo_server = [] /\ rd_all (demo_reader 1) = demo_bytes.
Proof. do 8 (apply conj; [reflexivity|]). reflexivity. Qed.

Lemma bus_server_system_witness :
  wr_out (demo_writer 2) = concat (map server_msg_bytes (view_run 2 (taken demo_server) view_new)).
Proof.
  destruct demo_threads as (_ & Hr & Hw & Hal & Hidle & _).
  destruct (bus_server_system demo_server 2 _ _ demo_reachable ltac:(vm_compute; discriminate) Hr Hw)
    as (_ & _ & _ & Hview & _ & Hout).
  rewrite <- Hview. exact (Hout Hal Hidle).
Defined.

Lemma bus_server_delivers_witness :
  exists msgs, wr_out (demo_writer 2) = concat (map server_msg_bytes msgs) /\
    [demo_frame] `sublist_of` omap frame_got msgs.
Proof.
  destruct demo_threads as (Hr & _ & Hw & Hal & Hidle & Hrd & Hbus & Hcmds & Hall).
  apply (bus_server_delivers demo_server 1 2 (demo_reader 1) (demo_writer 2) [(7%Z, true, demo_frame)]
    [AddClient 1 1]%Z [SendFrameCmd 1 7 true demo_frame]%Z);
    [exact demo_reachable|vm_compute; discriminate|exact Hr|exact Hall| |exact Hrd|exact Hbus|exact Hcmds|
     exact Hw|exact Hal|exact Hidle|reflexivity|reflexivity|by repeat constructor|
     by repeat constructor].
  apply Forall_singleton. split; [split; lia|exact demo_frame_wf].
Defined.
