(* ===== verification/UnixClient.v ===== *)
(** * The Unix-socket CAN client

    Models [embedded-can/embedded-can-unix-socket/src/client.rs]: the receive
    buffer and its reassembly of messages, the blocking waits, sends with and
    without acknowledgement, receives and filter changes.  The socket, [poll]
    and the clock are scripts of what their calls return.  The theorems show
    that no frame is lost, repeated or reordered by the ways the client waits
    for other messages, and that a blocking send returns [Ok] only for an
    accepted ack. *)
From stdpp Require Import strings.
From S2P Require Import Prelude Script UnixWire UnixServer.

Inductive UnixCanError :=
| CanIo (e : OsError)
| CanProtocol (msg : string)
| CanTimeout
| CanWouldBlock
| CanDisconnected
| CanNoAck.

(** [From<io::Error>]. *)
Definition from_io (e : OsError) : UnixCanError :=
  match e with EWouldBlock => CanWouldBlock | ETimedOut => CanTimeout | _ => CanIo e end.

(** [embedded_can::ErrorKind] of an error. *)
Inductive CanErrorKind := Acknowledge | OtherKind.
Definition error_kind (e : UnixCanError) : CanErrorKind :=
  match e with CanNoAck => Acknowledge | _ => OtherKind end.

(** What the system calls return next. *)
Inductive ReadEvent := ReadData (d : bytes) | ReadFails (e : OsError).
Inductive PollEvent := PollReady | PollTimedOut | PollFails (e : OsError).
Inductive WriteEvent := Wrote (n : nat) | WriteFails (e : OsError).

Section client.
Context {SId EId : Type} `{EmbeddedCan SId EId}.
Abbreviation Frame := (UnixFrame SId EId).
Abbreviation Filter := (IdMaskFilter SId EId).

Inductive DecodedMsg :=
| DFrame (f : Frame)
| DAck (seq : u64) (status : u8)
| DFiltersAck (seq : u64) (status : u8)
| DHello
| DUnknown.

(** The fields of [UnixCan] and the scripts of its socket. *)
Record UnixCan := {
  rx_queue : list Frame;
  rx_bytes : bytes;
  rx_off : nat;
  next_seq : u64;
  can_filters : list Filter;
  reads : list ReadEvent;
  polls : list PollEvent;
  writes : list WriteEvent;
  clock : list Z;
  written : bytes;
}.

Definition set_rx_queue q (c : UnixCan) : UnixCan :=
  {| rx_queue := q; rx_bytes := rx_bytes c; rx_off := rx_off c; next_seq := next_seq c;
     can_filters := can_filters c; reads := reads c; polls := polls c; writes := writes c;
     clock := clock c; written := written c |}.
Definition set_rx b o (c : UnixCan) : UnixCan :=
  {| rx_queue := rx_queue c; rx_bytes := b; rx_off := o; next_seq := next_seq c;
     can_filters := can_filters c; reads := reads c; polls := polls c; writes := writes c;
     clock := clock c; written := written c |}.
Definition set_next_seq n (c : UnixCan) : UnixCan :=
  {| rx_queue := rx_queue c; rx_bytes := rx_bytes c; rx_off := rx_off c; next_seq := n;
     can_filters := can_filters c; reads := reads c; polls := polls c; writes := writes c;
     clock := clock c; written := written c |}.
Definition set_can_filters l (c : UnixCan) : UnixCan :=
  {| rx_queue := rx_queue c; rx_bytes := rx_bytes c; rx_off := rx_off c; next_seq := next_seq c;
     can_filters := l; reads := reads c; polls := polls c; writes := writes c;
     clock := clock c; written := written c |}.
Definition set_reads r (c : UnixCan) : UnixCan :=
  {| rx_queue := rx_queue c; rx_bytes := rx_bytes c; rx_off := rx_off c; next_seq := next_seq c;
     can_filters := can_filters c; reads := r; polls := polls c; writes := writes c;
     clock := clock c; written := written c |}.
Definition set_os p t (c : UnixCan) : UnixCan :=
  {| rx_queue := rx_queue c; rx_bytes := rx_bytes c; rx_off := rx_off c; next_seq := next_seq c;
     can_filters := can_filters c; reads := reads c; polls := p; writes := writes c;
     clock := t; written := written c |}.
Definition set_writes l w (c : UnixCan) : UnixCan :=
  {| rx_queue := rx_queue c; rx_bytes := rx_bytes c; rx_off := rx_off c; next_seq := next_seq c;
     can_filters := can_filters c; reads := reads c; polls := polls c; writes := l;
     clock := clock c; written := w |}.

Abbreviation CM := (M UnixCan (stop UnixCanError)).

(** [fn next_seq]. *)
Definition take_seq : CM u64 :=
  c ← get; modify (set_next_seq (wrapping_add64 (next_seq c) 1));; mret (next_seq c).

(** [Instant::now()]. *)
Definition now : CM Z := fun c =>
  match clock c with
  | [] => (Err Waiting, c)
  | t :: ts => (Ok t, set_os (polls c) ts c)
  end.

(** [Instant::now() + t]. *)
Definition now_plus (t : Duration) : CM Z := n ← now; or_panic (instant_add n t).

Definition deadline_after (timeout : option Duration) : CM (option Z) :=
  match timeout with
  | None => mret None
  | Some t => d ← now_plus t; mret (Some d)
  end.

(** [remaining_ms]; the milliseconds only go to [poll]. *)
Definition remaining_ms (deadline : option Z) : CM Z :=
  match deadline with
  | None => mret (-1)%Z
  | Some d =>
      n ← now;
      if (d <=? n)%Z then fail (Fails CanTimeout)
      else mret (Z.min ((d - n) / 1000000) 2147483647)
  end.

(** The loop of [wait_readable] and [wait_writable] over the results of [poll]. *)
Fixpoint poll_loop (evs : list PollEvent) (deadline : option Z) : CM unit :=
  match evs with
  | [] => _ ← remaining_ms deadline; fail Waiting
  | ev :: evs' =>
      _ ← remaining_ms deadline;
      modify (fun c => set_os evs' (clock c) c);;
      match ev with
      | PollReady => mret tt
      | PollTimedOut => fail (Fails CanTimeout)
      | PollFails EInterrupted => poll_loop evs' deadline
      | PollFails e => fail (Fails (CanIo e))
      end
  end.
Definition wait_readable (deadline : option Z) : CM unit :=
  c ← get; poll_loop (polls c) deadline.
Definition wait_writable (deadline : option Z) : CM unit :=
  c ← get; poll_loop (polls c) deadline.

(** [stream.read(&mut buf)] with a buffer of 4096 bytes: what does not fit
    stays in the socket. *)
Definition read_more_once : CM bool := fun c =>
  match reads c with
  | [] => (Err Waiting, c)
  | ReadData [] :: r => (Err (Fails CanDisconnected), set_reads r c)
  | ReadData d :: r =>
      let n := length d `min` 4096 in
      let rest := if length d <=? 4096 then r else ReadData (drop 4096 d) :: r in
      (Ok true, set_reads rest (set_rx (rx_bytes c ++ take n d) (rx_off c) c))
  | ReadFails EWouldBlock :: r => (Ok false, set_reads r c)
  | ReadFails e :: r => (Err (Fails (from_io e)), set_reads r c)
  end.

Definition with_next_msg {R} (f : u8 -> bytes -> result R UnixCanError) : CM (option R) :=
  c ← get;
  let avail := length (rx_bytes c) - rx_off c in
  if avail <? 5 then mret None
  else
    let base := rx_off c in
    msg_type ← or_panic (rx_bytes c !! base);
    len_bytes ← or_panic (slice (rx_bytes c) (base + 1) (base + 5));
    let len := Z.to_nat (from_le_bytes len_bytes) in
    if MAX_PAYLOAD_LEN <? len then fail (Fails (CanProtocol "payload exceeds limit"))
    else
      let total := 5 + len in
      if avail <? total then mret None
      else
        payload ← or_panic (slice (rx_bytes c) (base + 5) (base + total));
        out ← try (f msg_type payload);
        let off := rx_off c + total in
        (if (64 * 64 <=? off) && (length (rx_bytes c) / 2 <=? off)
         then modify (set_rx (drop off (rx_bytes c)) 0)
         else modify (set_rx (rx_bytes c) off));;
        mret (Some out).

(** The closure of [next_decoded_msg]. *)
Definition decode_msg (msg_type : u8) (payload : bytes) : result DecodedMsg UnixCanError :=
  if (msg_type =? MSG_FRAME)%Z then
    let? f := map_err CanProtocol (decode_frame payload) in Ok (DFrame f)
  else if (msg_type =? MSG_ACK)%Z then
    let? (seq, status) := map_err CanProtocol (decode_ack payload) in Ok (DAck seq status)
  else if (msg_type =? MSG_FILTERS_ACK)%Z then
    let? (seq, status) := map_err CanProtocol (decode_ack payload) in Ok (DFiltersAck seq status)
  else if (msg_type =? MSG_HELLO)%Z then Ok DHello
  else Ok DUnknown.

Definition next_decoded_msg : CM (option DecodedMsg) := with_next_msg decode_msg.

(** The work left in the read script: a round of a receive loop takes some. *)
Definition read_work (evs : list ReadEvent) : nat :=
  foldr (fun ev n => match ev with ReadData d => length d | ReadFails _ => 0 end + 1 + n) 0 evs.

Fixpoint recv_blocking_loop (fuel : nat) (deadline : option Z) : CM DecodedMsg :=
  match fuel with
  | O => fail OutOfFuel
  | S fuel' =>
      m ← next_decoded_msg;
      match m with
      | Some msg => mret msg
      | None =>
          got ← read_more_once;
          (if (got : bool) then mret tt else wait_readable deadline);;
          recv_blocking_loop fuel' deadline
      end
  end.
Definition recv_decoded_msg_blocking (deadline : option Z) : CM DecodedMsg :=
  c ← get; recv_blocking_loop (1 + read_work (reads c)) deadline.

(** [write_all_deadline] over the results of [write], which takes at most what
    it is given. *)
Fixpoint write_all_loop (evs : list WriteEvent) (bytes : bytes) (deadline : option Z) : CM unit :=
  match bytes with
  | [] => mret tt
  | _ =>
      match evs with
      | [] => fail Waiting
      | Wrote 0 :: evs' => modify (fun c => set_writes evs' (written c) c);; fail (Fails CanDisconnected)
      | Wrote k :: evs' =>
          let n := k `min` length bytes in
          rest ← or_panic (slice bytes n (length bytes));
          modify (fun c => set_writes evs' (written c ++ take n bytes) c);;
          write_all_loop evs' rest deadline
      | WriteFails EWouldBlock :: evs' =>
          modify (fun c => set_writes evs' (written c) c);;
          wait_writable deadline;;
          write_all_loop evs' bytes deadline
      | WriteFails EInterrupted :: evs' =>
          modify (fun c => set_writes evs' (written c) c);;
          write_all_loop evs' bytes deadline
      | WriteFails e :: evs' =>
          modify (fun c => set_writes evs' (written c) c);; fail (Fails (from_io e))
      end
  end.
Definition write_all_deadline (bytes : bytes) (deadline : option Z) : CM unit :=
  c ← get; write_all_loop (writes c) bytes deadline.

Definition write_msg_deadline (msg_type : u8) (payload : bytes) (deadline : option Z) : CM unit :=
  if (u32_max <? Z.of_nat (length payload))%Z then fail (Fails (CanProtocol "payload too large"))
  else
    header ← or_panic (set_at (replicate 5 0%Z) 0 msg_type);
    header ← or_panic (copy_at header 1 (to_le_bytes 4 (wrap 32 (Z.of_nat (length payload)))));
    write_all_deadline header deadline;;
    write_all_deadline payload deadline.

(** Keep a frame that arrives while something else is awaited. *)
Definition push_frame (f : Frame) : CM unit := modify (fun c => set_rx_queue (rx_queue c ++ [f]) c).

(** The waits: [want] says what to do with a message, [None] is to go on. *)
Fixpoint wait_loop (fuel : nat) (deadline : option Z)
    (want : DecodedMsg -> option (result unit UnixCanError)) : CM unit :=
  match fuel with
  | O => fail OutOfFuel
  | S fuel' =>
      m ← recv_decoded_msg_blocking deadline;
      match want m with
      | Some r => try r
      | None =>
          (match m with DFrame f => push_frame f | _ => mret tt end);;
          wait_loop fuel' deadline want
      end
  end.

(** Each round takes a message of at least five bytes of what is buffered or
    still to be read. *)
Definition msg_fuel (c : UnixCan) : nat := 1 + (length (rx_bytes c) - rx_off c) + read_work (reads c).

Definition wait_for_hello : CM unit :=
  c ← get;
  wait_loop (msg_fuel c) None (fun m => match m with DHello => Some (Ok tt) | _ => None end).

Definition wait_for_filters_ack (seq : u64) (timeout : option Duration) : CM unit :=
  deadline ← deadline_after timeout;
  c ← get;
  wait_loop (msg_fuel c) deadline (fun m =>
    match m with
    | DFiltersAck ack_seq status =>
        if (ack_seq =? seq)%Z then
          Some (if (status =? ACK_OK)%Z then Ok tt
                else if (status =? ACK_SERVER_ERR)%Z then Err (CanProtocol "server error")
                else Err (CanProtocol "filters ack failed"))
        else None
    | _ => None
    end).

Definition wait_for_ack (seq : u64) (timeout : option Duration) : CM unit :=
  deadline ← deadline_after timeout;
  c ← get;
  wait_loop (msg_fuel c) deadline (fun m =>
    match m with
    | DAck ack_seq status =>
        if (ack_seq =? seq)%Z then
          Some (if (status =? ACK_OK)%Z then Ok tt
                else if (status =? ACK_NO_ACK)%Z then Err CanNoAck
                else if (status =? ACK_BAD_FRAME)%Z then Err (CanProtocol "bad frame")
                else if (status =? ACK_SERVER_ERR)%Z then Err (CanProtocol "server error")
                else Err (CanProtocol "unknown ack status"))
        else None
    | _ => None
    end).

(** ** The public operations *)

(** [connect] on a fresh stream. *)
Definition client_new (r : list ReadEvent) (p : list PollEvent) (w : list WriteEvent) (t : list Z) :
    UnixCan :=
  {| rx_queue := []; rx_bytes := []; rx_off := 0; next_seq := 1; can_filters := [];
     reads := r; polls := p; writes := w; clock := t; written := [] |}.

(** [connect], with [io::Error::other("handshake failed")] as [EOther 0]. *)
Definition connect (r : list ReadEvent) (p : list PollEvent) (w : list WriteEvent) (t : list Z) :
    result UnixCan (stop OsError) :=
  match wait_for_hello (client_new r p w t) with
  | (Ok _, c) => Ok c
  | (Err (Fails (CanIo e)), _) => Err (Fails e)
  | (Err (Fails _), _) => Err (Fails (EOther 0))
  | (Err Waiting, _) => Err Waiting
  | (Err OutOfFuel, _) => Err OutOfFuel
  | (Panic, _) => Panic
  end.

(** The payload of [send], [try_send] and [send_timeout]. *)
Definition send_payload (seq : u64) (expect_ack : bool) (frame : Frame) : CM bytes := fun c =>
  match encode_send_frame_into seq expect_ack frame
          (replicate (SEND_FRAME_HDR_LEN + MAX_DATA_LEN) 0%Z) with
  | (Ok len, payload) => (match slice payload 0 len with Some p => Ok p | None => Panic end, c)
  | (_, _) => (Panic, c)
  end.

Definition send (frame : Frame) : CM unit :=
  seq ← take_seq;
  payload ← send_payload seq true frame;
  write_msg_deadline MSG_SEND_FRAME payload None;;
  wait_for_ack seq None.

Definition try_send (frame : Frame) : CM unit :=
  seq ← take_seq;
  payload ← send_payload seq false frame;
  write_msg_deadline MSG_SEND_FRAME payload None.

Definition send_timeout (frame : Frame) (timeout : Duration) : CM unit :=
  seq ← take_seq;
  payload ← send_payload seq true frame;
  deadline ← now_plus timeout;
  write_msg_deadline MSG_SEND_FRAME payload (Some deadline);;
  wait_for_ack seq (Some timeout).

Definition send_filters : CM unit :=
  seq ← take_seq;
  c ← get;
  write_msg_deadline MSG_SET_FILTERS (encode_filters seq (can_filters c)) None;;
  wait_for_filters_ack seq None.

Definition set_filters (filters : list Filter) : CM unit :=
  modify (set_can_filters filters);; send_filters.

(** [modify_filters]: the caller edits the list through the handle, whose drop
    sends it and ignores the result. *)
Definition modify_filters (edit : list Filter -> list Filter) : CM unit :=
  modify (fun c => set_can_filters (edit (can_filters c)) c);;
  _ ← attempt send_filters;
  mret tt.

(** [rx_queue.pop_front()]. *)
Definition pop_queue : CM (option Frame) := fun c =>
  match rx_queue c with
  | [] => (Ok None, c)
  | f :: q => (Ok (Some f), set_rx_queue q c)
  end.

(** The loop of [recv] and [recv_timeout]. *)
Fixpoint recv_loop (fuel : nat) (deadline : option Z) : CM Frame :=
  match fuel with
  | O => fail OutOfFuel
  | S fuel' =>
      m ← recv_decoded_msg_blocking deadline;
      match m with DFrame f => mret f | _ => recv_loop fuel' deadline end
  end.

Definition recv : CM Frame :=
  q ← pop_queue;
  match q with
  | Some f => mret f
  | None => c ← get; recv_loop (msg_fuel c) None
  end.

Definition recv_timeout (timeout : Duration) : CM Frame :=
  q ← pop_queue;
  match q with
  | Some f => mret f
  | None =>
      deadline ← now_plus timeout;
      c ← get; recv_loop (msg_fuel c) (Some deadline)
  end.

Fixpoint try_recv_loop (fuel : nat) : CM Frame :=
  match fuel with
  | O => fail OutOfFuel
  | S fuel' =>
      m ← next_decoded_msg;
      match m with
      | Some (DFrame f) => mret f
      | Some _ => try_recv_loop fuel'
      | None => fail (Fails CanWouldBlock)
      end
  end.

Definition try_recv : CM Frame :=
  q ← pop_queue;
  match q with
  | Some f => mret f
  | None => _ ← read_more_once; c ← get; try_recv_loop (msg_fuel c)
  end.

Definition wait_not_empty : CM unit :=
  c ← get;
  match rx_queue c with
  | _ :: _ => mret tt
  | [] => wait_readable None
  end.
End client.
Arguments UnixCan SId EId : clear implicits.
Arguments DecodedMsg SId EId : clear implicits.

(** * The receive side *)

Section client_proofs.
Context {SId EId : Type} `{HL : EmbeddedCanLaws SId EId}.
Abbreviation Frame := (UnixFrame SId EId).
Abbreviation Client := (UnixCan SId EId).
Abbreviation Msg := (DecodedMsg SId EId).

(** The bytes received and not yet consumed, and those still in the socket. *)
Definition pending (c : Client) : bytes := drop (rx_off c) (rx_bytes c).
Definition to_read (evs : list ReadEvent) : bytes :=
  concat (map (fun ev => match ev with ReadData d => d | ReadFails _ => [] end) evs).
Definition incoming (c : Client) : bytes := pending c ++ to_read (reads c).

(** The monotonic clock and the timeouts stay below half of what an [Instant]
    holds, some 146 billion years, so that deadlines do not overflow. *)
Definition sane_time (t : Z) : Prop := (2 * t < INSTANT_LIMIT)%Z.
Definition sane_clock (c : Client) : Prop := Forall sane_time (clock c).
Definition client_wf (c : Client) : Prop := rx_off c <= length (rx_bytes c) /\ sane_clock c.

(** The specification of reassembly: the first message of some bytes. *)
Definition next_msg (bs : bytes) : result (option (Msg * bytes)) UnixCanError :=
  if length bs <? 5 then Ok None
  else
    let! msg_type := bs !! 0 in
    let! len_bytes := slice bs 1 5 in
    let len := Z.to_nat (from_le_bytes len_bytes) in
    if MAX_PAYLOAD_LEN <? len then Err (CanProtocol "payload exceeds limit")
    else if length bs <? 5 + len then Ok None
    else
      let! payload := slice bs 5 (5 + len) in
      let? m := decode_msg msg_type payload in Ok (Some (m, drop (5 + len) bs)).

Inductive consumes : bytes -> list Msg -> bytes -> Prop :=
| consumes_none bs : consumes bs [] bs
| consumes_msg bs m rest ms bs' :
    next_msg bs = Ok (Some (m, rest)) -> consumes rest ms bs' -> consumes bs (m :: ms) bs'.

Lemma consumes_app bs ms bs' ms' bs'' :
  consumes bs ms bs' -> consumes bs' ms' bs'' -> consumes bs (ms ++ ms') bs''.
Proof. induction 1; intros Hc; [done|]. econstructor; eauto. Qed.

Lemma slice_drop {A} (l : list A) o a b : slice (drop o l) a b = slice l (o + a) (o + b) \/ length l < o.
Proof.
  destruct (decide (o <= length l)); [left|right; lia]. unfold slice. rewrite length_drop, drop_drop.
  destruct (decide (a <= b /\ b <= length l - o)), (decide (o + a <= o + b /\ o + b <= length l)); try lia;
    [|done]. do 2 f_equal. lia.
Qed.

(** The client's step is the specification on the pending bytes, whatever the
    offset and the compaction do. *)
Lemma next_decoded_msg_spec (c : Client) :
  client_wf c ->
  match next_msg (pending c) with
  | Ok None => next_decoded_msg c = (Ok None, c)
  | Ok (Some (m, rest)) =>
      exists b o, next_decoded_msg c = (Ok (Some m), set_rx b o c) /\ drop o b = rest /\ o <= length b
  | Err e => next_decoded_msg c = (Err (Fails e), c)
  | Panic => False
  end.
Proof.
  intros [Hwf _]. unfold next_msg, next_decoded_msg, with_next_msg, pending.
  unfold_M. rewrite length_drop. destruct (_ <? 5) eqn:H5; [done|]. apply Nat.ltb_ge in H5.
  rewrite lookup_drop, Nat.add_0_r.
  destruct (lookup_lt_is_Some_2 (rx_bytes c) (rx_off c) ltac:(lia)) as [ty ->].
  destruct (slice_drop (rx_bytes c) (rx_off c) 1 5) as [->|]; [|lia].
  rewrite (slice_Some (rx_bytes c)) by lia. set (n := Z.to_nat _).
  destruct (_ <? n); [done|]. destruct (_ <? 5 + n) eqn:Hn; [done|]. apply Nat.ltb_ge in Hn.
  destruct (slice_drop (rx_bytes c) (rx_off c) 5 (5 + n)) as [->|]; [|lia].
  rewrite (slice_Some (rx_bytes c)) by lia. unfold try, lift.
  set (p := take _ _). destruct (decode_msg ty p) as [m|e|] eqn:Hd; simpl; [|done|].
  - destruct (_ && _).
    + exists (drop (rx_off c + S (S (S (S (S n))))) (rx_bytes c)), 0. rewrite drop_0, drop_drop.
      split_and!; [done|f_equal; lia|lia].
    + exists (rx_bytes c), (rx_off c + S (S (S (S (S n))))). rewrite drop_drop.
      split_and!; [done|f_equal; lia|lia].
  - unfold decode_msg, map_err in Hd.
    pose proof (decode_frame_no_panic (SId := SId) (EId := EId) p). pose proof (decode_ack_no_panic p).
    repeat case_match; simplify_eq; done.
Qed.

Lemma next_msg_extend bs m rest x :
  next_msg bs = Ok (Some (m, rest)) ->
  next_msg (bs ++ x) = Ok (Some (m, rest ++ x)) /\ length rest + 5 <= length bs.
Proof.
  unfold next_msg. destruct (Nat.ltb_spec (length bs) 5); [done|].
  destruct (Nat.ltb_spec (length (bs ++ x)) 5); [len|].
  rewrite lookup_app_l by lia. destruct (bs !! 0) as [ty|]; [|done].
  rewrite !(slice_Some _ 1 5) by len. rewrite drop_app_le, take_app_le by len.
  set (n := Z.to_nat _). destruct (_ <? n); [done|].
  destruct (Nat.ltb_spec (length bs) (5 + n)); [done|].
  destruct (Nat.ltb_spec (length (bs ++ x)) (5 + n)); [len|].
  rewrite !(slice_Some _ 5 (5 + n)) by len. rewrite drop_app_le, take_app_le by len.
  destruct (decode_msg ty _) as [m'|e|]; [|done..]. intros [= -> <-].
  rewrite drop_app_le by lia. split; [done|]. rewrite length_drop. lia.
Qed.

Lemma next_msg_extend_err bs e x : next_msg bs = Err e -> next_msg (bs ++ x) = Err e.
Proof.
  unfold next_msg. destruct (Nat.ltb_spec (length bs) 5); [done|].
  destruct (Nat.ltb_spec (length (bs ++ x)) 5); [len|].
  rewrite lookup_app_l by lia. destruct (bs !! 0) as [ty|]; [|done].
  rewrite !(slice_Some _ 1 5) by len. rewrite drop_app_le, take_app_le by len.
  set (n := Z.to_nat _). destruct (_ <? n); [done|].
  destruct (Nat.ltb_spec (length bs) (5 + n)); [done|].
  destruct (Nat.ltb_spec (length (bs ++ x)) (5 + n)); [len|].
  rewrite !(slice_Some _ 5 (5 + n)) by len. rewrite drop_app_le, take_app_le by len.
  by destruct (decode_msg ty _).
Qed.

(** ** Frame conditions *)

(** The size of what a wait can still look at. *)
Definition rx_work (c : Client) : nat := length (pending c) + read_work (reads c).

(** Nothing of the receive side changed. *)
Definition same_rx (c c' : Client) : Prop :=
  rx_queue c' = rx_queue c /\ rx_bytes c' = rx_bytes c /\ rx_off c' = rx_off c /\ reads c' = reads c /\
  (sane_clock c -> sane_clock c').

(** Bytes may have been read, no message was consumed. *)
Definition no_msg (c c' : Client) : Prop :=
  client_wf c' /\ incoming c' = incoming c /\ rx_queue c' = rx_queue c /\ rx_work c' <= rx_work c.

Lemma same_rx_no_msg c c' : client_wf c -> same_rx c c' -> no_msg c c'.
Proof.
  intros [Hwf Hs] (Hq & Hb & Ho & Hr & Hc). unfold no_msg, client_wf, incoming, rx_work, pending in *.
  rewrite Hq, Hb, Ho, Hr. split_and!; [done|by apply Hc|done..].
Qed.

Lemma no_msg_trans c1 c2 c3 : no_msg c1 c2 -> no_msg c2 c3 -> no_msg c1 c3.
Proof. unfold no_msg. intros (? & ? & ? & ?) (? & ? & ? & ?). split_and!; [done|congruence..|lia]. Qed.

Global Instance same_rx_preorder : PreOrder same_rx.
Proof. split; unfold same_rx; [done|]. intros ? ? ? (? & ? & ? & ? & ?) (? & ? & ? & ? & ?).
  split_and!; [congruence..|auto]. Qed.

(** A call that only touches the send side, the polls and the clock. *)
Definition tx_only {A} (m : M Client (stop UnixCanError) A) : Prop :=
  forall c, sane_clock c -> ends (same_rx c) (fun _ => same_rx c) (fun _ => same_rx c) (m c).

Lemma tx_only_bind {A B} (m : M Client (stop UnixCanError) A) (k : A -> M Client (stop UnixCanError) B) :
  tx_only m -> (forall a, tx_only (k a)) -> tx_only (m ≫= k).
Proof.
  intros Hm Hk c Hc. eapply ends_bind; [by apply Hm|]. simpl. intros a c1 H1.
  eapply ends_weaken; [apply Hk; by apply H1|..]; intros; by etrans.
Qed.

Lemma tx_only_now : tx_only now.
Proof.
  intros c Hc. unfold now. destruct (clock c) as [|t ts] eqn:Ht; [done|]. split_and!; try done.
  intros _. unfold sane_clock in *. rewrite Ht in Hc. by inversion Hc.
Qed.

Lemma tx_only_now_plus t : sane_time t -> tx_only (now_plus t).
Proof.
  intros Ht c Hc. unfold now_plus, mbind, M_bind. pose proof (tx_only_now c Hc) as Hn.
  unfold now in *. destruct (clock c) as [|n ts] eqn:Hn'; [done|].
  unfold or_panic, instant_add, sane_clock, sane_time in *. rewrite Hn' in Hc. inversion Hc; subst.
  destruct (Z.ltb_spec (n + t) INSTANT_LIMIT); [done|lia].
Qed.

Lemma tx_only_deadline t :
  (forall d, t = Some d -> sane_time d) -> tx_only (deadline_after t).
Proof.
  intros Ht. destruct t as [d|]; [|done].
  apply tx_only_bind; [by apply tx_only_now_plus, Ht|done].
Qed.

Lemma tx_only_remaining d : tx_only (remaining_ms d).
Proof.
  destruct d; [|by intros c]. apply tx_only_bind; [apply tx_only_now|]. intros t. by case_bool.
Qed.

Lemma tx_only_poll evs d : tx_only (poll_loop evs d).
Proof.
  induction evs as [|ev evs IH]; cbn [poll_loop]; (apply tx_only_bind; [apply tx_only_remaining|]).
  { done. }
  intros _. apply tx_only_bind; [done|]. intros _. destruct ev as [| |[]]; done.
Qed.

Lemma tx_only_wait_readable d : tx_only (wait_readable d).
Proof. intros c Hc. by apply (tx_only_poll (polls c) d c). Qed.
Lemma tx_only_wait_writable d : tx_only (wait_writable d).
Proof. intros c Hc. by apply (tx_only_poll (polls c) d c). Qed.

Lemma tx_only_write_loop evs bytes d : tx_only (write_all_loop evs bytes d).
Proof.
  revert bytes. induction evs as [|ev evs IH]; intros bytes; destruct bytes as [|x bytes]; try done.
  cbn [write_all_loop]. destruct ev as [[|k]|[]].
  - by apply tx_only_bind.
  - cbv zeta. set (n := S k `min` _). apply tx_only_bind.
    + intros c Hc. rewrite slice_from_Some by lia. done.
    + intros rest. apply tx_only_bind; [done|]. intros _. apply IH.
  - apply tx_only_bind; [done|]. intros _. apply tx_only_bind; [apply tx_only_wait_writable|]. intros _. apply IH.
  - by apply tx_only_bind.
  - apply tx_only_bind; [done|]. intros _. apply IH.
  - by apply tx_only_bind.
  - by apply tx_only_bind.
Qed.

Lemma tx_only_write_all bytes d : tx_only (write_all_deadline bytes d).
Proof. intros c Hc. by apply (tx_only_write_loop (writes c) bytes d c). Qed.

Lemma tx_only_write_msg ty payload d : tx_only (write_msg_deadline ty payload d).
Proof.
  intros c Hc. unfold write_msg_deadline. case_bool; [done|].
  erewrite bind_ok by (unfold or_panic; rewrite set_at_Some by (simpl; lia); reflexivity).
  erewrite bind_ok by (unfold or_panic; rewrite copy_at_Some by (rewrite length_to_le_bytes; simpl; lia); reflexivity).
  by apply (tx_only_bind _ _ (tx_only_write_all _ d) (fun _ => tx_only_write_all payload d) c).
Qed.

Lemma tx_only_send_payload seq e (f : Frame) : frame_wf f -> tx_only (send_payload seq e f).
Proof.
  intros Hf c Hc. unfold send_payload. rewrite encode_send_frame_run by (done || apply length_replicate).
  by rewrite slice_here.
Qed.

Lemma tx_only_seq : tx_only take_seq.
Proof. done. Qed.

(** ** Reading *)

Lemma to_read_cons ev evs :
  to_read (ev :: evs) = match ev with ReadData d => d | ReadFails _ => [] end ++ to_read evs.
Proof. done. Qed.

(** The result of a read, once an event is there: progress in the script. *)
Lemma read_more_spec (c : Client) :
  client_wf c ->
  ends (no_msg c) (fun _ c' => no_msg c c' /\ read_work (reads c') < read_work (reads c))
    (fun _ => no_msg c) (read_more_once c).
Proof.
  intros Hwf. unfold read_more_once.
  assert (Hself : no_msg c c) by (by apply same_rx_no_msg). destruct Hwf as [Hwf Hck].
  destruct (reads c) as [|[d|e] r] eqn:Hr; [done|..].
  - destruct d as [|x d].
    { unfold no_msg, client_wf, incoming, rx_work, pending. simpl. rewrite Hr, to_read_cons. simpl.
      split_and!; [done..|lia]. }
    cbv zeta. revert Hr. generalize (x :: d). clear x d. intros dd Hr.
    assert (Hinc : forall rest, take (length dd `min` 4096) dd ++ to_read rest = dd ++ to_read r ->
      read_work rest + length dd `min` 4096 <= length dd + 1 + read_work r ->
      no_msg c (set_reads rest (set_rx (rx_bytes c ++ take (length dd `min` 4096) dd) (rx_off c) c))).
    { intros rest Ht Hw. unfold no_msg, client_wf, incoming, rx_work, pending.
      cbn [set_reads set_rx rx_bytes rx_off reads rx_queue].
      rewrite drop_app_le by done. rewrite Hr, to_read_cons, <- app_assoc, Ht.
      split_and!; [len|done..|]. simpl. rewrite !length_app, length_take, length_drop. simpl in *. lia. }
    destruct (Nat.leb_spec (length dd) 4096).
    + split; [|simpl; lia]. apply Hinc; [|lia]. by rewrite take_ge by lia.
    + split; [|simpl; len]. apply Hinc.
      * rewrite to_read_cons, app_assoc, Nat.min_r by lia. by rewrite take_drop.
      * simpl read_work. rewrite length_drop. lia.
  - assert (Hs : no_msg c (set_reads r c)).
    { unfold no_msg, client_wf, incoming, rx_work, pending. simpl. rewrite Hr, to_read_cons. simpl.
      split_and!; [done..|lia]. }
    destruct e; simpl; try done. split; [done|lia].
Qed.

(** One message was consumed. *)
Definition one_msg (c : Client) (m : Msg) (c' : Client) : Prop :=
  client_wf c' /\ consumes (incoming c) [m] (incoming c') /\ rx_queue c' = rx_queue c /\
  rx_work c' + 5 <= rx_work c.

Lemma next_decoded_one c m :
  client_wf c ->
  forall rest b o, next_msg (pending c) = Ok (Some (m, rest)) -> drop o b = rest -> o <= length b ->
  one_msg c m (set_rx b o c).
Proof.
  intros Hwf rest b o Hn Hd Ho. destruct (next_msg_extend _ _ _ (to_read (reads c)) Hn) as [Hx Hlen].
  unfold one_msg, client_wf, incoming, rx_work. split_and!; simpl; [done|apply Hwf| |done|].
  - econstructor; [exact Hx|]. unfold pending. simpl. rewrite Hd. constructor.
  - unfold pending at 1. simpl. rewrite Hd. lia.
Qed.

Lemma no_one_msg c c1 m c2 : no_msg c c1 -> one_msg c1 m c2 -> one_msg c m c2.
Proof.
  intros (_ & Hi & Hq & Hw) (? & Hc & ? & ?). rewrite Hi in Hc. split_and!; [done..|congruence|lia].
Qed.

Lemma recv_blocking_spec fuel d c :
  client_wf c -> read_work (reads c) < fuel ->
  ends (no_msg c) (one_msg c) (fun _ => no_msg c) (recv_blocking_loop fuel d c).
Proof.
  revert c. induction fuel as [|fuel IH]; intros c Hwf Hf; [lia|]. cbn [recv_blocking_loop].
  assert (Hself : no_msg c c) by (by apply same_rx_no_msg).
  pose proof (next_decoded_msg_spec c Hwf) as Hn.
  destruct (next_msg (pending c)) as [[[m rest]|]|e|] eqn:Hm; [| | |done].
  - destruct Hn as (b & o & Hrun & Hd & Ho). rewrite (bind_ok _ _ _ _ _ Hrun). simpl.
    by eapply next_decoded_one.
  - rewrite (bind_ok _ _ _ _ _ Hn). cbv beta iota.
    eapply ends_bind; [by apply read_more_spec|]. cbv beta. intros got c1 [H1 Hw].
    eapply ends_bind with (Q := fun _ c2 => no_msg c c2 /\ reads c2 = reads c1).
    { destruct got; [done|]. eapply ends_weaken; [apply tx_only_wait_readable, H1|..].
      - intros s Hs. eapply no_msg_trans; [done|]. apply same_rx_no_msg; [apply H1|done].
      - intros e s Hs. eapply no_msg_trans; [done|]. apply same_rx_no_msg; [apply H1|done].
      - intros [] s Hs. split; [|by destruct Hs as (_ & _ & _ & ? & _)].
        eapply no_msg_trans; [done|]. apply same_rx_no_msg; [apply H1|done]. }
    intros _ c2 [H2 Hr2]. eapply ends_weaken; [apply IH; [apply H2|rewrite Hr2; lia]|..].
    + intros s Hs. by eapply no_msg_trans.
    + intros e s Hs. by eapply no_msg_trans.
    + intros m s Hs. by eapply no_one_msg.
  - unfold mbind, M_bind. by rewrite Hn.
Qed.

Lemma recv_decoded_spec d c :
  client_wf c ->
  ends (no_msg c) (one_msg c) (fun _ => no_msg c) (recv_decoded_msg_blocking d c).
Proof. intros Hwf. apply recv_blocking_spec; [done|]. lia. Qed.

(** ** Frames are conserved *)

Definition frames_of (ms : list Msg) : list Frame :=
  omap (fun m => match m with DFrame f => Some f | _ => None end) ms.

(** The messages consumed between [c] and [c'] carried the frames that were
    delivered ([out]) or queued, in order. *)
Definition moved (c : Client) (out : list Frame) (c' : Client) : Prop :=
  client_wf c' /\
  exists ms, consumes (incoming c) ms (incoming c') /\ rx_queue c ++ frames_of ms = out ++ rx_queue c'.

Lemma no_msg_moved c c' : no_msg c c' -> moved c [] c'.
Proof.
  intros (Hwf & Hi & Hq & _). split; [done|]. exists []. rewrite Hi, Hq, app_nil_r.
  split; [constructor|done].
Qed.

Lemma one_msg_other c m c' : one_msg c m c' -> (forall f, m <> DFrame f) -> moved c [] c'.
Proof.
  intros (Hwf & Hc & Hq & _) Hm. split; [done|]. exists [m]. split; [done|]. rewrite Hq.
  destruct m; simpl; rewrite ?app_nil_r; try done. by destruct (Hm f).
Qed.

Lemma moved_trans c1 out1 c2 out2 c3 :
  moved c1 out1 c2 -> moved c2 out2 c3 -> moved c1 (out1 ++ out2) c3.
Proof.
  intros (_ & ms1 & Hc1 & Hf1) (Hwf & ms2 & Hc2 & Hf2). split; [done|]. exists (ms1 ++ ms2).
  split; [by eapply consumes_app|]. unfold frames_of in *.
  by rewrite omap_app, app_assoc, Hf1, <- !app_assoc, Hf2.
Qed.

(** A call that delivers nothing, or one frame. *)
Abbreviation conserves c m := (ends (moved c []) (fun _ => moved c []) (fun _ => moved c []) m).
Abbreviation delivers c m := (ends (moved c []) (fun f => moved c [f]) (fun _ => moved c []) m).

Lemma conserves_tx {A} (m : M Client (stop UnixCanError) A) c :
  tx_only m -> client_wf c -> conserves c (m c).
Proof.
  intros Hm Hwf. eapply ends_weaken; [apply Hm, Hwf|..]; intros; by apply no_msg_moved, same_rx_no_msg.
Qed.

Lemma conserves_bind {A B} (m : M Client (stop UnixCanError) A) (k : A -> M Client (stop UnixCanError) B) c :
  conserves c (m c) -> (forall a c1, client_wf c1 -> conserves c1 (k a c1)) -> conserves c ((m ≫= k) c).
Proof.
  intros Hm Hk. eapply ends_bind; [exact Hm|]. simpl. intros a c1 H1.
  eapply ends_weaken; [apply Hk; apply H1|..]; intros; by apply (moved_trans _ [] _ [] _ H1).
Qed.

(** Deliver after a step that delivered nothing. *)
Lemma ends_moved_trans c c1 (run : result Frame (stop UnixCanError) * Client) :
  moved c [] c1 -> delivers c1 run -> delivers c run.
Proof.
  intros Hm Hr. eapply ends_weaken; [exact Hr|..]; simpl.
  - intros s Hs. by apply (moved_trans _ [] _ [] _ Hm).
  - intros e s Hs. by apply (moved_trans _ [] _ [] _ Hm).
  - intros f s Hs. by apply (moved_trans _ [] _ [f] _ Hm).
Qed.

(** A wait that ended well: the frames it passed are queued, and the last
    message it took is one it wanted. *)
Definition awaited (want : Msg -> option (result unit UnixCanError)) (c c' : Client) : Prop :=
  exists ms m, consumes (incoming c) (ms ++ [m]) (incoming c') /\ want m = Some (Ok tt) /\
    rx_queue c' = rx_queue c ++ frames_of ms.

Lemma wait_loop_spec want fuel d c :
  (forall f, want (DFrame f) = None) -> (forall m, want m <> Some Panic) ->
  client_wf c -> rx_work c < fuel ->
  ends (moved c []) (fun _ c' => moved c [] c' /\ awaited want c c') (fun _ => moved c [])
    (wait_loop fuel d want c).
Proof.
  intros Hnf Hnp. revert c. induction fuel as [|fuel IH]; intros c Hwf Hf; [lia|]. cbn [wait_loop].
  eapply ends_bind.
  { eapply ends_weaken; [by apply recv_decoded_spec|..].
    - intros s Hs. by apply no_msg_moved.
    - intros e s Hs. by apply no_msg_moved.
    - intros m s Hs. exact Hs. }
  intros m c1 H1. destruct (H1) as (Hwf1 & Hc1 & Hq1 & Hw1).
  destruct (want m) as [r|] eqn:Hwant.
  - assert (Hm : moved c [] c1) by (eapply one_msg_other; [done|]; intros f ->; by rewrite Hnf in Hwant).
    destruct r as [[]|e|]; simpl; [|done|by apply Hnp in Hwant].
    split; [done|]. exists [], m. simpl. by rewrite app_nil_r.
  - eapply ends_bind with (Q := fun _ c2 => moved c [] c2 /\ rx_work c2 < rx_work c /\
        consumes (incoming c) [m] (incoming c2) /\ rx_queue c2 = rx_queue c ++ frames_of [m]).
    { destruct m as [f| | | |]; simpl; rewrite ?app_nil_r;
        try (split_and!; [by eapply one_msg_other|lia|done|done]).
      split_and!; [|unfold rx_work, pending in *; simpl; lia|done|by rewrite Hq1].
      split; [done|]. exists [DFrame f]. simpl. by rewrite Hq1. }
    intros _ c2 (H2 & Hw2 & Hc2 & Hq2). eapply ends_weaken; [apply IH; [apply H2|lia]|..].
    + intros s Hs. by apply (moved_trans _ [] _ [] _ H2).
    + intros e s Hs. by apply (moved_trans _ [] _ [] _ H2).
    + intros [] s [Hs (ms & m' & Hcs & Hwm & Hqs)]. split; [by apply (moved_trans _ [] _ [] _ H2)|].
      exists (m :: ms), m'. split_and!; [by apply (consumes_app _ [m] _ (ms ++ [m']) _ Hc2)|done|].
      rewrite Hqs, Hq2, <- app_assoc. unfold frames_of. by rewrite <- omap_app.
Qed.

Lemma msg_fuel_enough (c : Client) : rx_work c < msg_fuel c.
Proof. unfold rx_work, msg_fuel, pending. rewrite length_drop. lia. Qed.

Lemma client_recv_loop_spec fuel d c :
  client_wf c -> rx_queue c = [] -> rx_work c < fuel -> delivers c (recv_loop fuel d c).
Proof.
  revert c. induction fuel as [|fuel IH]; intros c Hwf Hq Hf; [lia|]. cbn [recv_loop].
  eapply ends_bind.
  { eapply ends_weaken; [by apply recv_decoded_spec|..].
    - intros s Hs. by apply no_msg_moved.
    - intros e s Hs. by apply no_msg_moved.
    - intros m s Hs. exact Hs. }
  intros m c1 H1. destruct (H1) as (Hwf1 & Hc1 & Hq1 & Hw1).
  destruct m as [f| | | |].
  { split; [done|]. exists [DFrame f]. by rewrite Hq1, Hq. }
  all: assert (Hm : moved c [] c1) by (by eapply one_msg_other);
    (eapply (ends_moved_trans _ _ _ Hm), IH; [done|congruence|lia]).
Qed.

Lemma try_recv_loop_spec fuel c :
  client_wf c -> rx_queue c = [] -> rx_work c < fuel -> delivers c (try_recv_loop fuel c).
Proof.
  revert c. induction fuel as [|fuel IH]; intros c Hwf Hq Hf; [lia|]. cbn [try_recv_loop].
  assert (Hself : moved c [] c) by (by apply no_msg_moved, same_rx_no_msg).
  pose proof (next_decoded_msg_spec c Hwf) as Hn.
  destruct (next_msg (pending c)) as [[[m rest]|]|e|] eqn:Hm; [| | |done].
  - destruct Hn as (b & o & Hrun & Hd & Ho). rewrite (bind_ok _ _ _ _ _ Hrun). cbv beta iota.
    pose proof (next_decoded_one c m Hwf rest b o Hm Hd Ho) as H1.
    destruct (H1) as (Hwf1 & Hc1 & Hq1 & Hw1). destruct m as [f| | | |].
    { split; [done|]. exists [DFrame f]. rewrite Hq1, Hq. done. }
    all: assert (Hmv : moved c [] (set_rx b o c)) by (by eapply one_msg_other);
      (eapply (ends_moved_trans _ _ _ Hmv), IH; [done|congruence|lia]).
  - rewrite (bind_ok _ _ _ _ _ Hn). done.
  - unfold mbind, M_bind. by rewrite Hn.
Qed.

(** ** The public operations *)

Inductive ClientOp :=
| OpSend (f : Frame)
| OpTrySend (f : Frame)
| OpSendTimeout (f : Frame) (t : Duration)
| OpSetFilters (fl : list (IdMaskFilter SId EId))
| OpModifyFilters (edit : list (IdMaskFilter SId EId) -> list (IdMaskFilter SId EId))
| OpRecv
| OpTryRecv
| OpRecvTimeout (t : Duration)
| OpWaitNotEmpty.

(** One call: what it delivers. *)
Definition run_op (op : ClientOp) : M Client (stop UnixCanError) (list Frame) :=
  match op with
  | OpSend f => send f;; mret []
  | OpTrySend f => try_send f;; mret []
  | OpSendTimeout f t => send_timeout f t;; mret []
  | OpSetFilters fl => set_filters fl;; mret []
  | OpModifyFilters edit => modify_filters edit;; mret []
  | OpRecv => f ← recv; mret [f]
  | OpTryRecv => f ← try_recv; mret [f]
  | OpRecvTimeout t => f ← recv_timeout t; mret [f]
  | OpWaitNotEmpty => wait_not_empty;; mret []
  end.
Definition op_wf (op : ClientOp) : Prop :=
  match op with
  | OpSend f | OpTrySend f => frame_wf f
  | OpSendTimeout f t => frame_wf f /\ sane_time t
  | OpRecvTimeout t => sane_time t
  | _ => True
  end.

(** A caller that goes on after every error: the frames it was given, and
    whether every call returned or is suspended. *)
Fixpoint run_ops (ops : list ClientOp) (c : Client) : list Frame * bool * Client :=
  match ops with
  | [] => ([], true, c)
  | op :: ops' =>
      let '(r, c1) := run_op op c in
      let '(fs, ok, c2) := run_ops ops' c1 in
      match r with
      | Ok out => (out ++ fs, ok, c2)
      | Err (Fails _) | Err Waiting => (fs, ok, c2)
      | Err OutOfFuel | Panic => (fs, false, c2)
      end
  end.

Lemma conserves_wait_ack seq t c :
  (forall d, t = Some d -> sane_time d) -> client_wf c -> conserves c (wait_for_ack seq t c).
Proof.
  intros Ht Hwf. apply conserves_bind; [apply conserves_tx; [by apply tx_only_deadline|done]|].
  - intros d c1 Hwf1. eapply ends_mono.
    + apply (wait_loop_spec _ (msg_fuel c1) d c1); [done| |done|apply msg_fuel_enough].
      intros []; simpl; try done. repeat case_bool; done.
    + by intros [] s [Hs _].
Qed.

Lemma conserves_wait_filters_ack seq t c :
  (forall d, t = Some d -> sane_time d) -> client_wf c -> conserves c (wait_for_filters_ack seq t c).
Proof.
  intros Ht Hwf. apply conserves_bind; [apply conserves_tx; [by apply tx_only_deadline|done]|].
  - intros d c1 Hwf1. eapply ends_mono.
    + apply (wait_loop_spec _ (msg_fuel c1) d c1); [done| |done|apply msg_fuel_enough].
      intros []; simpl; try done. repeat case_bool; done.
    + by intros [] s [Hs _].
Qed.

Lemma conserves_send_filters c : client_wf c -> conserves c (send_filters c).
Proof.
  intros Hwf. apply conserves_bind; [by apply conserves_tx|]. intros seq c2 H2.
  apply conserves_bind; [by apply conserves_tx|]. intros c' c3 H3.
  apply conserves_bind; [by apply conserves_tx; [apply tx_only_write_msg|]|]. intros _ c4 H4.
  by apply conserves_wait_filters_ack.
Qed.

Lemma conserves_attempt {A} (m : M Client (stop UnixCanError) A) c :
  conserves c (m c) -> conserves c (attempt m c).
Proof. unfold attempt. by destruct (m c) as [[a|[e| |]|] c1]. Qed.

(** Take a frame from the queue, or go on with an empty queue. *)
Lemma delivers_pop (k : M Client (stop UnixCanError) Frame) c :
  client_wf c -> (rx_queue c = [] -> delivers c (k c)) ->
  delivers c ((pop_queue ≫= fun q => match q with Some f => mret f | None => k end) c).
Proof.
  intros Hwf Hk. unfold mbind, M_bind, pop_queue.
  destruct (rx_queue c) as [|f q] eqn:Hq; [by apply Hk|]. simpl. split; [done|].
  exists []. simpl. rewrite Hq, app_nil_r. split; [constructor|done].
Qed.

(** What the three sends have in common: a sequence number and the payload. *)
Lemma conserves_sending {A} e f (k : u64 -> bytes -> M Client (stop UnixCanError) A) c :
  frame_wf f -> client_wf c -> (forall seq p c1, client_wf c1 -> conserves c1 (k seq p c1)) ->
  conserves c ((seq ← take_seq; p ← send_payload seq e f; k seq p) c).
Proof.
  intros Hf Hwf Hk. apply conserves_bind; [by apply conserves_tx|]. intros seq c1 H1.
  apply conserves_bind; [by apply conserves_tx; [apply tx_only_send_payload|]|]. intros p c2 H2. by apply Hk.
Qed.

Lemma run_op_moved op c :
  op_wf op -> client_wf c ->
  ends (moved c []) (fun out => moved c out) (fun _ => moved c []) (run_op op c).
Proof.
  intros Hop Hwf.
  assert (Hnil : forall m : M Client (stop UnixCanError) unit, conserves c (m c) ->
    ends (moved c []) (fun out => moved c out) (fun _ => moved c []) ((m;; mret []) c)).
  { intros m Hm. eapply ends_bind; [exact Hm|]. done. }
  assert (Hone : forall m : M Client (stop UnixCanError) Frame, delivers c (m c) ->
    ends (moved c []) (fun out => moved c out) (fun _ => moved c []) ((f ← m; mret [f]) c)).
  { intros m Hm. eapply ends_bind; [exact Hm|]. done. }
  destruct op as [f|f|f t|fl|edit| | |t|]; simpl in *; [apply Hnil..|apply Hone|apply Hone|apply Hone|apply Hnil].
  - apply conserves_sending; [done..|]. intros seq p c2 H2.
    apply conserves_bind; [by apply conserves_tx; [apply tx_only_write_msg|]|]. intros _ c3 H3.
    apply conserves_wait_ack; [|done]. by intros d [= <-].
  - apply conserves_sending; [done..|]. intros seq p c2 H2. by apply conserves_tx; [apply tx_only_write_msg|].
  - destruct Hop as [Hf Ht]. apply conserves_sending; [done..|]. intros seq p c2 H2.
    apply conserves_bind; [by apply conserves_tx; [apply tx_only_now_plus|]|]. intros n c3 H3.
    apply conserves_bind; [by apply conserves_tx; [apply tx_only_write_msg|]|]. intros _ c4 H4.
    apply conserves_wait_ack; [|done]. by intros d [= <-].
  - apply conserves_bind; [by apply conserves_tx|]. intros _ c1 H1. by apply conserves_send_filters.
  - apply conserves_bind; [by apply conserves_tx|]. intros _ c1 H1.
    apply conserves_bind; [|intros _ c2 H2; by apply conserves_tx].
    by apply conserves_attempt, conserves_send_filters.
  - apply delivers_pop; [done|]. intros Hq. apply client_recv_loop_spec; [done..|apply msg_fuel_enough].
  - apply delivers_pop; [done|]. intros Hq. eapply ends_bind.
    { eapply ends_weaken; [by apply read_more_spec|..].
      - intros s Hs. by apply no_msg_moved.
      - intros e s Hs. by apply no_msg_moved.
      - intros a s [Hs _]. exact Hs. }
    intros got c1 H1. destruct (H1) as (Hwf1 & _ & Hq1 & _).
    eapply (ends_moved_trans _ _ _ (no_msg_moved _ _ H1)), try_recv_loop_spec;
      [done|congruence|apply msg_fuel_enough].
  - apply delivers_pop; [done|]. intros Hq.
    eapply ends_bind with (Q := fun _ => same_rx c).
    { eapply ends_weaken; [apply (tx_only_now_plus t Hop), Hwf|..|done];
        intros; by apply no_msg_moved, same_rx_no_msg. }
    intros d c1 H1. pose proof (same_rx_no_msg _ _ Hwf H1) as Hn.
    eapply (ends_moved_trans _ _ _ (no_msg_moved _ _ Hn)), client_recv_loop_spec; [apply Hn| |apply msg_fuel_enough].
    destruct H1 as [-> _]. done.
  - apply conserves_tx; [|done]. intros c0. unfold wait_not_empty, mbind, M_bind, get.
    destruct (rx_queue c0); [apply tx_only_wait_readable|done].
Qed.

(** Induction over the calls: each call moves the stream on. *)
Lemma run_ops_moved ops c :
  Forall op_wf ops -> client_wf c ->
  let '(fs, ok, c') := run_ops ops c in
  ok = true /\ moved c fs c'.
Proof.
  intros Hops. revert c. induction Hops as [|op ops Hop _ IH]; intros c Hwf; simpl.
  { split; [done|]. by apply no_msg_moved, same_rx_no_msg. }
  pose proof (run_op_moved op c Hop Hwf) as Hr. destruct (run_op op c) as [r c1].
  assert (Hwf1 : client_wf c1) by (destruct r as [out|[e| |]|]; try done; apply Hr).
  specialize (IH c1 Hwf1). destruct (run_ops ops c1) as [[fs ok] c2]. destruct IH as [-> Hm].
  destruct r as [out|[e| |]|]; try done; (split; [done|]);
    [by eapply moved_trans|by apply (moved_trans _ [] _ _ _ Hr)..].
Qed.

(** C15. Whatever the socket, the clock and the timeouts do, and however calls
    to send, receive and set filters are mixed, the client delivers the frames
    of the byte stream in order, without loss or repetition: what was
    delivered and what is queued is what the consumed messages carried.  No
    call panics. *)
Theorem client_frames_fifo ops c :
  Forall op_wf ops -> client_wf c ->
  let '(fs, ok, c') := run_ops ops c in
  ok = true /\ moved c fs c'.
Proof. apply run_ops_moved. Qed.

(** ** Sends *)

(** The ack with number [seq] arrived, and everything before it was kept. *)
Definition acked (seq : u64) (c c' : Client) : Prop :=
  exists ms, consumes (incoming c) (ms ++ [DAck seq ACK_OK]) (incoming c') /\
    rx_queue c' = rx_queue c ++ frames_of ms.

Lemma same_rx_incoming c c' : same_rx c c' -> incoming c' = incoming c /\ rx_queue c' = rx_queue c.
Proof. intros (Hq & Hb & Ho & Hr & _). unfold incoming, pending. by rewrite Hq, Hb, Ho, Hr. Qed.

Lemma acked_after seq c c1 c' : moved c [] c1 -> acked seq c1 c' -> acked seq c c'.
Proof.
  intros (_ & ms1 & Hc1 & Hf1) (ms & Hc & Hq). exists (ms1 ++ ms). rewrite <- app_assoc.
  split; [by eapply consumes_app|]. simpl in Hf1. rewrite Hq, <- Hf1. unfold frames_of.
  by rewrite omap_app, app_assoc.
Qed.

Lemma wait_for_ack_acked seq t c :
  (forall d, t = Some d -> sane_time d) -> client_wf c ->
  ends (fun _ => True) (fun _ => acked seq c) (fun _ _ => True) (wait_for_ack seq t c).
Proof.
  intros Ht Hwf. eapply ends_bind with (Q := fun _ => same_rx c).
  { eapply ends_weaken; [by apply tx_only_deadline; [|apply Hwf]|done..]. }
  intros d c1 H1. destruct (same_rx_incoming _ _ H1) as [Hi Hq].
  assert (Hwf1 : client_wf c1) by (apply (same_rx_no_msg c c1); done).
  eapply ends_weaken; [|done|done|].
  - apply (wait_loop_spec _ (msg_fuel c1) d c1); [done| |done|apply msg_fuel_enough].
    intros []; simpl; try done. repeat case_bool; done.
  - intros [] c2 [_ (ms & m & Hc & Hw & Hq2)]. exists ms. rewrite <- Hi, Hq2, Hq. split; [|done].
    destruct m as [|a st| | |]; try done. revert Hw. simpl.
    destruct (Z.eqb_spec a seq) as [->|]; [|done]. destruct (Z.eqb_spec st ACK_OK) as [->|]; [done|].
    repeat case_bool; done.
Qed.

(** A blocking [send] returns [Ok] only after the server's ack with the
    sequence number of this send and status OK; the frames that arrived while
    waiting are queued in order, none is dropped. *)
Theorem send_ok_acked f c c' :
  frame_wf f -> client_wf c -> send f c = (Ok tt, c') -> acked (next_seq c) c c'.
Proof.
  intros Hf Hwf Hrun.
  enough (He : ends (fun _ => True) (fun _ => acked (next_seq c) c) (fun _ _ => True) (send f c))
    by (by rewrite Hrun in He).
  eapply ends_bind with (Q := fun seq c1 => seq = next_seq c /\ same_rx c c1); [done|].
  intros seq c1 [-> H1]. eapply ends_bind with (Q := fun _ => same_rx c).
  { eapply ends_weaken; [apply tx_only_send_payload; [done|by apply H1, Hwf]|done|done|].
    intros p s Hs. by etrans. }
  intros p c2 H2. eapply ends_bind with (Q := fun _ => same_rx c).
  { eapply ends_weaken; [by apply tx_only_write_msg, H2, Hwf|done|done|]. intros [] s Hs. by etrans. }
  intros _ c3 H3. destruct (same_rx_incoming _ _ H3) as [Hi Hq].
  eapply ends_mono; [apply wait_for_ack_acked; [done|by apply (same_rx_no_msg c c3)]|].
  intros [] c4 (ms & Hc & Hq4). exists ms. by rewrite <- Hi, Hq4, Hq.
Qed.

(** A call that leaves what was written and the sequence number alone. *)
Definition keeps_written {A} (m : M Client (stop UnixCanError) A) : Prop :=
  forall c, written (m c).2 = written c /\ next_seq (m c).2 = next_seq c.

Lemma keeps_written_bind {A B} (m : M Client (stop UnixCanError) A)
    (k : A -> M Client (stop UnixCanError) B) :
  keeps_written m -> (forall a, keeps_written (k a)) -> keeps_written (m ≫= k).
Proof.
  intros Hm Hk c. unfold mbind, M_bind. specialize (Hm c).
  destruct (m c) as [[a|e|] c1]; simpl in *; [|done..]. destruct (Hk a c1), Hm. split; congruence.
Qed.

Lemma keeps_written_poll evs d : keeps_written (poll_loop evs d).
Proof.
  assert (Hr : keeps_written (remaining_ms d)).
  { destruct d; [|done]. apply keeps_written_bind; [intros c; unfold now; by destruct (clock c)|].
    intros t. by case_bool. }
  induction evs as [|ev evs IH]; cbn [poll_loop]; (apply keeps_written_bind; [done|]); [done|].
  intros _. apply keeps_written_bind; [done|]. intros _. destruct ev as [| |[]]; done.
Qed.

Lemma write_loop_written evs bs d (c c' : Client) :
  write_all_loop evs bs d c = (Ok tt, c') ->
  written c' = written c ++ bs /\ next_seq c' = next_seq c.
Proof.
  revert bs c. induction evs as [|ev evs IH]; intros bs c; destruct bs as [|x bs]; cbn [write_all_loop];
    try (intros [= <-]; by rewrite app_nil_r).
  destruct ev as [[|k]|[]]; try done.
  - cbv zeta. set (n := S k `min` _). rewrite slice_from_Some by lia.
    unfold mbind, M_bind, or_panic, modify. intros Hr. apply IH in Hr as [-> ->].
    cbn [written next_seq set_writes]. by rewrite <- app_assoc, take_drop.
  - unfold mbind, M_bind, modify at 1.
    pose proof (keeps_written_poll (polls c) d (set_writes evs (written c) c)) as [Hw Hs].
    unfold wait_writable, mbind, M_bind, get. simpl in *.
    destruct (poll_loop (polls c) d _) as [[[]|e|] c1]; [|done..]. intros Hr.
    apply IH in Hr as [-> ->]. simpl in *. by rewrite Hw, Hs.
  - unfold mbind, M_bind, modify at 1. intros Hr. by apply IH in Hr as [-> ->].
Qed.

Lemma write_msg_written ty p d (c c' : Client) :
  write_msg_deadline ty p d c = (Ok tt, c') ->
  written c' = written c ++ msg_bytes ty p /\ next_seq c' = next_seq c.
Proof.
  unfold write_msg_deadline. intros Hrun.
  destruct (Z.ltb_spec u32_max (Z.of_nat (length p))) as [|Hle]; [done|].
  rewrite (wrap_small 32) in Hrun by (unfold in_width, u32_max in *; lia). revert Hrun.
  erewrite bind_ok by (unfold or_panic; rewrite set_at_Some by (simpl; lia); reflexivity).
  erewrite bind_ok.
  2:{ unfold or_panic. rewrite (copy_at_app [ty] (replicate 4 0%Z) [] 1) by done. reflexivity. }
  rewrite app_nil_r. unfold mbind, M_bind. set (h := [ty] ++ _).
  destruct (write_all_deadline h d c) as [[[]|e|] c2] eqn:H1; [|done..]. intros H2.
  apply write_loop_written in H1 as [Hw1 Hs1], H2 as [Hw2 Hs2].
  split; [by rewrite Hw2, Hw1, <- app_assoc|congruence].
Qed.

(** When [try_send] returns [Ok], the socket got exactly the encoding of the
    frame under the next sequence number, however the kernel split the writes,
    and the sequence number advances (wrapping at 2^64). *)
Theorem try_send_written f (c c' : Client) :
  frame_wf f -> try_send f c = (Ok tt, c') ->
  written c' = written c ++ msg_bytes MSG_SEND_FRAME (send_frame_bytes (next_seq c) false f) /\
  next_seq c' = wrapping_add64 (next_seq c) 1.
Proof.
  intros Hf. unfold try_send.
  rewrite (bind_ok take_seq _ c (next_seq c) (set_next_seq (wrapping_add64 (next_seq c) 1) c) eq_refl).
  rewrite (bind_ok _ _ _ (send_frame_bytes (next_seq c) false f) (set_next_seq (wrapping_add64 (next_seq c) 1) c)).
  - apply write_msg_written.
  - unfold send_payload. rewrite encode_send_frame_run by (done || apply length_replicate).
    by rewrite slice_here.
Qed.

(** ** The whole path from the server *)

Definition decoded (m : ServerMsg SId EId) : Msg :=
  match m with
  | FrameMsg f => DFrame f
  | AckMsg seq status => DAck seq status
  | Hello => DHello
  | FiltersAck seq status => DFiltersAck seq status
  end.
Definition sendable (m : ServerMsg SId EId) : Prop :=
  match m with
  | FrameMsg f => frame_wf f
  | AckMsg seq _ | FiltersAck seq _ => is_u64 seq
  | Hello => True
  end.

Lemma next_msg_bytes ty p rest m :
  length p <= MAX_PAYLOAD_LEN -> decode_msg ty p = Ok m ->
  next_msg (msg_bytes ty p ++ rest) = Ok (Some (m, rest)).
Proof.
  intros Hl Hd. unfold next_msg, msg_bytes, MAX_PAYLOAD_LEN in *.
  set (bs := ([ty] ++ _) ++ rest).
  assert (Hlen : length bs = 5 + length p + length rest) by (unfold bs; len).
  rewrite Hlen. destruct (Nat.ltb_spec (5 + length p + length rest) 5); [lia|].
  change (bs !! 0) with (Some ty).
  assert (H1 : slice bs 1 5 = Some (to_le_bytes 4 (Z.of_nat (length p)))).
  { unfold bs. rewrite <- !app_assoc. rewrite slice_skip by (simpl; lia). by apply slice_here. }
  rewrite H1, from_to_le_bytes_small, Nat2Z.id by (unfold in_width; lia).
  destruct (Nat.ltb_spec (64 * 64) (length p)); [lia|].
  destruct (Nat.ltb_spec (5 + length p + length rest) (5 + length p)); [lia|].
  assert (H5 : slice bs 5 (5 + length p) = Some p).
  { unfold bs. rewrite <- !app_assoc, !slice_skip by (rewrite ?length_to_le_bytes; simpl; lia).
    rewrite length_to_le_bytes. simpl. apply slice_here. lia. }
  rewrite H5, Hd. do 3 f_equal. unfold bs. rewrite (app_assoc [ty]), drop_app_length'; [done|len].
Qed.

Lemma next_msg_server m rest :
  sendable m -> next_msg (server_msg_bytes m ++ rest) = Ok (Some (decoded m, rest)).
Proof.
  intros Hm. destruct m as [f|seq st| |seq st]; cbn [server_msg_bytes decoded sendable] in *.
  - apply next_msg_bytes; [|unfold decode_msg; simpl; by rewrite decode_frame_bytes].
    destruct (frame_wf_content f Hm) as (Hc & Hle & _). unfold frame_bytes, MAX_PAYLOAD_LEN. len.
  - apply next_msg_bytes; [unfold ack_bytes, MAX_PAYLOAD_LEN; len|].
    unfold decode_msg. by rewrite decode_ack_bytes.
  - apply next_msg_bytes; [unfold MAX_PAYLOAD_LEN; simpl; lia|done].
  - apply next_msg_bytes; [unfold ack_bytes, MAX_PAYLOAD_LEN; len|].
    unfold decode_msg. by rewrite decode_ack_bytes.
Qed.

Lemma next_msg_nil m rest : next_msg [] <> Ok (Some (m, rest)).
Proof. done. Qed.

(** What is consumed from the server's stream is a prefix of its messages. *)
Lemma consumes_server msgs ms rest :
  Forall sendable msgs -> consumes (concat (map server_msg_bytes msgs)) ms rest ->
  exists done_ left, msgs = done_ ++ left /\ ms = map decoded done_.
Proof.
  intros Hs. revert ms rest. induction Hs as [|m msgs Hm _ IH]; intros ms rest Hc; simpl in Hc.
  - inversion Hc as [|? ? ? ? ? Hn]; subst; [by exists [], []|]. by apply next_msg_nil in Hn.
  - inversion Hc as [|? m' rest' ms' ? Hn Hc']; subst; [by exists [], (m :: msgs)|].
    rewrite next_msg_server in Hn by done. simplify_eq.
    destruct (IH _ _ Hc') as (d & l & -> & ->). by exists (m :: d), l.
Qed.

Definition server_frames (msgs : list (ServerMsg SId EId)) : list Frame :=
  omap (fun m => match m with FrameMsg f => Some f | _ => None end) msgs.

Lemma frames_of_decoded msgs : frames_of (map decoded msgs) = server_frames msgs.
Proof. induction msgs as [|[] msgs IH]; simpl; by rewrite ?IH. Qed.

(** End to end with the server's writer thread: whatever way the socket
    cuts the stream into reads, the frames a client has delivered and queued
    after any sequence of calls are the first frames of its channel, in the
    server's order. *)
Theorem client_delivers_server_frames msgs ops r p w t :
  Forall sendable msgs -> Forall op_wf ops -> Forall sane_time t ->
  to_read r = concat (map server_msg_bytes msgs) ->
  let '(fs, ok, c') := run_ops ops (client_new r p w t) in
  ok = true /\ exists left, server_frames msgs = fs ++ rx_queue c' ++ left.
Proof.
  intros Hm Hops Ht Hr. assert (Hwf : client_wf (client_new r p w t)) by (split; [simpl; lia|done]).
  pose proof (run_ops_moved ops _ Hops Hwf) as Hgen. destruct (run_ops ops _) as [[fs ok] c'].
  destruct Hgen as [-> (_ & ms & Hc & Hf)]. split; [done|].
  unfold incoming, pending in Hc. simpl in Hc. rewrite Hr in Hc.
  destruct (consumes_server msgs ms _ Hm Hc) as (d & l & -> & ->). simpl in Hf.
  exists (server_frames l). rewrite frames_of_decoded in Hf.
  unfold server_frames in *. by rewrite omap_app, Hf, app_assoc.
Qed.

(** ** A socket that delivers *)

(** Every read returns some bytes. *)
Definition data_reads (evs : list ReadEvent) : Prop :=
  Forall (fun ev => match ev with ReadData (_ :: _) => True | _ => False end) evs.

Lemma read_more_data (c : Client) :
  data_reads (reads c) -> reads c <> [] ->
  exists c', read_more_once c = (Ok true, c') /\ data_reads (reads c').
Proof.
  unfold read_more_once. intros Hd Hne. destruct (reads c) as [|[[|x d]|e] r]; try done;
    inversion Hd as [|? ? Hx Hr]; try done. cbv zeta.
  destruct (Nat.leb_spec (length (x :: d)) 4096); (eexists; split; [reflexivity|]); [done|].
  cbn [set_reads reads]. constructor; [|done].
  destruct (drop 4096 (x :: d)) eqn:Hdrop; [|done].
  apply (f_equal length) in Hdrop. rewrite length_drop in Hdrop. simpl in *. lia.
Qed.

(** The next message of the stream is taken, however it is cut. *)
Definition takes (c : Client) (m : Msg) (rest : bytes) (run : result Msg (stop UnixCanError) * Client) :
    Prop :=
  exists c', run = (Ok m, c') /\ client_wf c' /\ data_reads (reads c') /\ incoming c' = rest /\
    rx_queue c' = rx_queue c /\ rx_work c' < rx_work c.

Lemma recv_blocking_takes fuel d c m rest :
  client_wf c -> data_reads (reads c) -> read_work (reads c) < fuel ->
  next_msg (incoming c) = Ok (Some (m, rest)) -> takes c m rest (recv_blocking_loop fuel d c).
Proof.
  revert c. induction fuel as [|fuel IH]; intros c Hwf Hd Hf Hm; [lia|]. cbn [recv_blocking_loop].
  pose proof (next_decoded_msg_spec c Hwf) as Hn.
  destruct (next_msg (pending c)) as [[[m' rest']|]|e|] eqn:Hp; [| | |done].
  - destruct Hn as (b & o & Hrun & Hdrop & Ho). rewrite (bind_ok _ _ _ _ _ Hrun).
    destruct (next_msg_extend _ _ _ (to_read (reads c)) Hp) as [Hx Hlen].
    unfold incoming in Hm. rewrite Hx in Hm. simplify_eq.
    exists (set_rx b o c). unfold client_wf, incoming, rx_work, pending in *. simpl.
    split_and!; [done|done|apply Hwf|done|done|done|lia].
  - rewrite (bind_ok _ _ _ _ _ Hn). cbv beta iota.
    assert (Hne : reads c <> []).
    { intros Hr. unfold incoming in Hm. rewrite Hr, app_nil_r in Hm. congruence. }
    destruct (read_more_data c Hd Hne) as (c1 & Hrun & Hd1).
    pose proof (read_more_spec c Hwf) as Hs. rewrite Hrun in Hs. destruct Hs as [(Hwf1 & Hi1 & Hq1 & Hw1) Hlt].
    rewrite (bind_ok _ _ _ _ _ Hrun). cbv beta iota.
    rewrite (bind_ok (mret tt) _ c1 tt c1 eq_refl).
    destruct (IH c1) as (c2 & -> & Hwf2 & Hd2 & Hi2 & Hq2 & Hw2); [done..|lia|by rewrite Hi1|].
    exists c2. split_and!; [done..|congruence|lia].
  - unfold incoming in Hm. by rewrite (next_msg_extend_err _ _ _ Hp) in Hm.
Qed.

Lemma recv_loop_returns fuel d c pre f rest :
  client_wf c -> data_reads (reads c) -> rx_work c < fuel ->
  Forall sendable pre -> server_frames pre = [] -> frame_wf f ->
  incoming c = concat (map server_msg_bytes pre) ++ server_msg_bytes (FrameMsg f) ++ rest ->
  exists c', recv_loop fuel d c = (Ok f, c') /\ client_wf c' /\ data_reads (reads c') /\
    incoming c' = rest /\ rx_queue c' = rx_queue c.
Proof.
  intros Hwf Hd Hf Hpre Hnf Hfw Hi. revert fuel c Hwf Hd Hf Hi.
  induction Hpre as [|m pre Hm _ IH]; intros [|fuel] c Hwf Hd Hf Hi; try lia; cbn [recv_loop].
  - destruct (recv_blocking_takes (1 + read_work (reads c)) d c (DFrame f) rest)
      as (c1 & Hrun & Hwf1 & Hd1 & Hi1 & Hq1 & _); [done..|lia| |].
    { rewrite Hi. apply (next_msg_server (FrameMsg f) rest Hfw). }
    change (recv_decoded_msg_blocking d c = (Ok (DFrame f), c1)) in Hrun.
    rewrite (bind_ok _ _ _ _ _ Hrun). by exists c1.
  - cbn [map concat] in Hi. rewrite <- app_assoc in Hi.
    destruct (recv_blocking_takes (1 + read_work (reads c)) d c (decoded m)
      (concat (map server_msg_bytes pre) ++ server_msg_bytes (FrameMsg f) ++ rest))
      as (c1 & Hrun & Hwf1 & Hd1 & Hi1 & Hq1 & Hw1); [done..|lia|rewrite Hi; by apply next_msg_server|].
    change (recv_decoded_msg_blocking d c = (Ok (decoded m), c1)) in Hrun.
    rewrite (bind_ok _ _ _ _ _ Hrun). rewrite <- Hq1.
    destruct m; simpl in Hnf; [done|..]; apply (IH Hnf fuel c1 Hwf1 Hd1); (lia || done).
Qed.

(** The messages up to the first frame. *)
Lemma first_frame msgs f fs :
  server_frames msgs = f :: fs ->
  exists pre post, msgs = pre ++ FrameMsg f :: post /\ server_frames pre = [] /\ server_frames post = fs.
Proof.
  induction msgs as [|m msgs IH]; [done|]. destruct m as [g| | |]; simpl.
  1: { intros [= -> <-]. by exists [], msgs. }
  all: intros Hs; destruct (IH Hs) as (pre & post & -> & Hp & Hq);
    eexists (_ :: pre), post; by rewrite <- app_comm_cons.
Qed.

(** C18. Nothing sticks in the client: on a socket that hands over the server's
    stream, in pieces of any size, as many calls of [recv] as it carries
    frames return exactly these frames, in order. *)
Theorem recv_all_frames msgs (c : Client) :
  client_wf c -> rx_queue c = [] -> data_reads (reads c) -> Forall sendable msgs ->
  incoming c = concat (map server_msg_bytes msgs) ->
  (run_ops (replicate (length (server_frames msgs)) OpRecv) c).1 = (server_frames msgs, true).
Proof.
  remember (server_frames msgs) as fs eqn:Hfs. revert msgs c Hfs.
  induction fs as [|f fs IH]; intros msgs c Hfs Hwf Hq Hd Hm Hi; [done|].
  destruct (first_frame msgs f fs (eq_sym Hfs)) as (pre & post & -> & Hp & <-).
  apply Forall_app in Hm as [Hpre Hpost]. inversion Hpost as [|? ? Hf Hpost']; subst.
  rewrite map_app, concat_app in Hi. cbn [map concat] in Hi.
  destruct (recv_loop_returns (msg_fuel c) None c pre f _ Hwf Hd (msg_fuel_enough c) Hpre Hp Hf Hi)
    as (c1 & Hrun & Hwf1 & Hd1 & Hi1 & Hq1).
  cbn [length replicate run_ops].
  assert (Hop : run_op OpRecv c = (Ok [f], c1)).
  { cbn [run_op]. rewrite (bind_ok recv _ c f c1); [done|]. unfold recv, mbind, M_bind, pop_queue, get. by rewrite Hq. }
  rewrite Hop. specialize (IH post c1 eq_refl Hwf1 ltac:(congruence) Hd1 Hpost' Hi1).
  destruct (run_ops _ c1) as [[fs' ok] c2]. by simplify_eq/=.
Qed.
End client_proofs.

(** * Concrete runs *)

Abbreviation DemoStd := { i : StdId | bool_decide (0 <= std_raw i < 2048)%Z }.
Abbreviation DemoExt := { i : ExtId | bool_decide (0 <= ext_raw i < 536870912)%Z }.

(** The server says hello, forwards a frame and acknowledges send number 1; the
    socket cuts the stream after three bytes. *)
Definition demo_msgs := [Hello; FrameMsg demo_frame; AckMsg 1 ACK_OK].
Definition demo_stream : bytes := concat (map server_msg_bytes demo_msgs).
Definition demo_reads : list ReadEvent := [ReadData (take 3 demo_stream); ReadData (drop 3 demo_stream)].
Definition demo_client :=
  client_new (SId := DemoStd) (EId := DemoExt) demo_reads [] [Wrote 2; Wrote 100; Wrote 100] [].

Lemma demo_client_wf : client_wf demo_client.
Proof. split; [simpl; lia|constructor]. Qed.
Lemma demo_sendable : Forall sendable demo_msgs.
Proof. repeat apply Forall_cons_2; [exact I|exact demo_frame_wf|split; lia|by constructor]. Qed.

Lemma run_fst {A B} (run : A * B) a : run.1 = a -> run = (a, run.2).
Proof. by destruct run; intros <-. Qed.

(** A blocking send of the demo frame, with the forwarded frame queued. *)
Definition sent_client := (send demo_frame demo_client).2.
Lemma send_demo : send demo_frame demo_client = (Ok tt, sent_client).
Proof. refine (run_fst (send demo_frame demo_client) (Ok tt) _). vm_compute. reflexivity. Qed.
Lemma sent_queue : map frame_data (rx_queue sent_client) = [frame_data demo_frame].
Proof. vm_compute. reflexivity. Qed.

Lemma client_frames_fifo_witness :
  let '(fs, ok, c') := run_ops [OpSend demo_frame; OpRecv; OpTryRecv] demo_client in
  ok = true /\ moved demo_client fs c'.
Proof.
  apply client_frames_fifo; [|exact demo_client_wf].
  repeat apply Forall_cons_2; [exact demo_frame_wf|exact I|exact I|by constructor].
Defined.

Lemma send_ok_acked_witness : acked 1 demo_client sent_client.
Proof. exact (send_ok_acked demo_frame demo_client sent_client demo_frame_wf demo_client_wf send_demo). Defined.

Definition tried_client := (try_send demo_frame demo_client).2.
Lemma try_send_demo : try_send demo_frame demo_client = (Ok tt, tried_client).
Proof. refine (run_fst (try_send demo_frame demo_client) (Ok tt) _). vm_compute. reflexivity. Qed.

Lemma try_send_written_witness :
  written tried_client = [] ++ msg_bytes MSG_SEND_FRAME (send_frame_bytes 1 false demo_frame).
Proof. exact (proj1 (try_send_written demo_frame demo_client tried_client demo_frame_wf try_send_demo)). Defined.

Lemma client_delivers_server_frames_witness :
  let '(fs, ok, c') := run_ops [OpRecvTimeout 5; OpTryRecv] demo_client in
  ok = true /\ exists left, server_frames demo_msgs = fs ++ rx_queue c' ++ left.
Proof.
  apply (client_delivers_server_frames demo_msgs [OpRecvTimeout 5; OpTryRecv] demo_reads []
    [Wrote 2; Wrote 100; Wrote 100] []).
  - exact demo_sendable.
  - repeat apply Forall_cons_2; [unfold op_wf, sane_time, INSTANT_LIMIT; lia|exact I|by constructor].
  - constructor.
  - vm_compute. reflexivity.
Defined.

Lemma recv_all_frames_witness : (run_ops [OpRecv] demo_client).1 = ([demo_frame], true).
Proof.
  apply (recv_all_frames demo_msgs demo_client).
  - exact demo_client_wf.
  - reflexivity.
  - vm_compute. repeat constructor.
  - exact demo_sendable.
  - vm_compute. reflexivity.
Defined.

(** [connect] finds the hello and leaves the rest of the stream buffered. *)
Definition connected := (wait_for_hello demo_client).2.
Example connect_demo :
  connect (SId := DemoStd) (EId := DemoExt) demo_reads [] [Wrote 2; Wrote 100; Wrote 100] [] = Ok connected.
Proof.
  unfold connect. fold demo_client. rewrite (run_fst (wait_for_hello demo_client) (Ok tt)); [done|].
  vm_compute. reflexivity.
Qed.

(** After [connect] the forwarded frame lies complete in the receive buffer:
    [try_recv] on a socket with nothing more to read returns it, but
    [wait_not_empty] looks only at the queue and the socket, and waits. *)
Definition buffered := set_reads [ReadFails EWouldBlock] connected.
Example try_recv_buffered :
  match (try_recv buffered).1 with Ok f => frame_data f = frame_data demo_frame | _ => False end.
Proof. vm_compute. reflexivity. Qed.
Example wait_not_empty_buffered : (wait_not_empty buffered).1 = Err Waiting.
Proof. vm_compute. reflexivity. Qed.
