(* ===== verification/IsoTpKernel.v ===== *)
(** * Kernel ISO-TP sockets

    Models [iso-tp/linux-socketcan-iso-tp/src/linux.rs]: the socket options and
    their conversion to the kernel's structs, opening a socket, the blocking
    endpoint [SocketCanIsoTp], its tokio wrapper and the demultiplexer
    [KernelUdsDemux] with one socket per peer.  The system calls, the clock and
    the reactor are scripts of what they answer; a log records the calls.  The
    [can_uds] crate's identifiers are a class.  The theorems cover what is
    asked of the kernel, what reaches the callback, and which peer it is
    attributed to. *)
From stdpp Require Import strings.
From S2P Require Import Prelude Script Wire Maplet Mailbox Interface UnixWire.

(** * Options *)

(** [linux::Error]. *)
Inductive IsoTpError := IsoTpIo (e : OsError) | InvalidConfig (msg : string).

Record IsoTpSocketOptions := {
  opt_flags : u32;
  opt_frame_txtime : option Duration;
  opt_ext_address : option u8;
  opt_tx_padding : option u8;
  opt_rx_padding : option u8;
  opt_rx_ext_address : option u8;
}.
Definition IsoTpSocketOptions_default : IsoTpSocketOptions :=
  {| opt_flags := 0; opt_frame_txtime := None; opt_ext_address := None; opt_tx_padding := None;
     opt_rx_padding := None; opt_rx_ext_address := None |}.

Record IsoTpFlowControlOptions := { fc_block_size : u8; fc_st_min : u8; fc_wft_max : u8 }.
Definition IsoTpFlowControlOptions_new (block_size st_min wft_max : u8) : IsoTpFlowControlOptions :=
  {| fc_block_size := block_size; fc_st_min := st_min; fc_wft_max := wft_max |}.

Record IsoTpLinkLayerOptions := { ll_mtu : u8; ll_tx_dl : u8; ll_tx_flags : u8 }.
Definition IsoTpLinkLayerOptions_new (mtu tx_dl tx_flags : u8) : IsoTpLinkLayerOptions :=
  {| ll_mtu := mtu; ll_tx_dl := tx_dl; ll_tx_flags := tx_flags |}.

Record IsoTpKernelOptions := {
  max_rx_payload : nat;
  opt_socket : IsoTpSocketOptions;
  flow_control : option IsoTpFlowControlOptions;
  link_layer : option IsoTpLinkLayerOptions;
  force_tx_stmin : option Duration;
  force_rx_stmin : option Duration;
}.
Definition IsoTpKernelOptions_default : IsoTpKernelOptions :=
  {| max_rx_payload := 4095; opt_socket := IsoTpSocketOptions_default; flow_control := None;
     link_layer := None; force_tx_stmin := None; force_rx_stmin := None |}.

(** [can_isotp_interface::RxFlowControl]. *)
Record RxFlowControl := { rx_block_size : u8; rx_st_min : Duration }.

(** ** Durations; a [Duration] counts nanoseconds *)

Definition as_micros (d : Duration) : Z := (d / 1000)%Z.
Definition as_millis (d : Duration) : Z := (d / 1000000)%Z.
Definition from_millis (ms : Z) : Duration := (ms * 1000000)%Z.
Definition from_micros (us : Z) : Duration := (us * 1000)%Z.

Definition i32_max : Z := 2147483647%Z.

Definition duration_to_poll_timeout (timeout : Duration) : Z :=
  let ms := as_millis timeout in
  if (ms <=? i32_max)%Z then ms else i32_max.

Definition duration_to_nanos_u32 (d : Duration) : u32 := wrap 32 (Z.min d u32_max).

Definition isotp_stmin_to_duration (raw : u8) : option Duration :=
  if ((0 <=? raw) && (raw <=? 127))%Z then Some (from_millis raw)
  else if ((241 <=? raw) && (raw <=? 249))%Z then Some (from_micros ((raw - 240) * 100))
  else None.

Definition duration_to_isotp_stmin (duration : Duration) : u8 :=
  let micros := as_micros duration in
  if (micros =? 0)%Z then 0%Z
  else if ((100 <=? micros) && (micros <=? 900) && (micros mod 100 =? 0))%Z
  then (240 + wrap 8 (micros / 100))%Z
  else
    let millis := as_millis duration in
    if (millis <=? 127)%Z then wrap 8 millis else 127%Z.

(** ** The kernel's structs *)

Record can_isotp_options := {
  c_flags : u32;
  c_frame_txtime : u32;
  c_ext_address : u8;
  c_txpad_content : u8;
  c_rxpad_content : u8;
  c_rx_ext_address : u8;
}.
Record can_isotp_fc_options := { c_bs : u8; c_stmin : u8; c_wftmax : u8 }.
Record can_isotp_ll_options := { c_mtu : u8; c_tx_dl : u8; c_tx_flags : u8 }.

(** Module [flags]. *)
Definition CAN_ISOTP_EXTEND_ADDR : u32 := 2.
Definition CAN_ISOTP_TX_PADDING : u32 := 4.
Definition CAN_ISOTP_RX_PADDING : u32 := 8.
Definition CAN_ISOTP_RX_EXT_ADDR : u32 := 512.

Definition is_some {A} (o : option A) : bool := match o with Some _ => true | None => false end.

Definition build_can_isotp_options (opts : IsoTpSocketOptions) : can_isotp_options :=
  let flags := opt_flags opts in
  let flags := if is_some (opt_ext_address opts) then Z.lor flags CAN_ISOTP_EXTEND_ADDR else flags in
  let flags := if is_some (opt_tx_padding opts) then Z.lor flags CAN_ISOTP_TX_PADDING else flags in
  let flags := if is_some (opt_rx_padding opts) then Z.lor flags CAN_ISOTP_RX_PADDING else flags in
  let flags := if is_some (opt_rx_ext_address opts) then Z.lor flags CAN_ISOTP_RX_EXT_ADDR else flags in
  {| c_flags := flags;
     c_frame_txtime := default 0%Z (duration_to_nanos_u32 <$> opt_frame_txtime opts);
     c_ext_address := default 0%Z (opt_ext_address opts);
     c_txpad_content := default 0%Z (opt_tx_padding opts);
     c_rxpad_content := default 0%Z (opt_rx_padding opts);
     c_rx_ext_address := default 0%Z (opt_rx_ext_address opts) |}.

(** * The operating system *)

(** [(level, optname)] of [setsockopt], with the value passed. *)
Inductive SockOpt :=
| SO_TXTIME (nanos : u32)
| CAN_ISOTP_OPTS (o : can_isotp_options)
| CAN_ISOTP_RECV_FC (o : can_isotp_fc_options)
| CAN_ISOTP_TX_STMIN (nanos : u32)
| CAN_ISOTP_RX_STMIN (nanos : u32)
| CAN_ISOTP_LL_OPTS (o : can_isotp_ll_options).

Inductive PollFor := POLLIN | POLLOUT.

Section kernel.
Context {SId EId : Type} `{EmbeddedCan SId EId}.
Abbreviation CanId := (Id SId EId).

(** The calls the code makes; [SentOk] and [Took] are a [send] the kernel took
    and a [recv] that returned a datagram. *)
Inductive Call :=
| CallSocket
| CallNonblocking (fd : Z)
| CallSetSockOpt (fd : Z) (o : SockOpt)
| CallIface (iface : string) (rx_id tx_id : CanId)
| CallBind (fd : Z) (iface : string) (rx_id tx_id : CanId)
| CallClose (fd : Z)
| CallRegister (fd : Z)
| CallSend (fd : Z) (payload : bytes)
| SentOk (fd : Z) (payload : bytes)
| CallRecv (fd : Z) (len : nat)
| Took (fd : Z) (datagram : bytes)
| CallPoll (fds : list Z) (events : PollFor) (timeout_ms : Z)
| CallSleep (d : Duration)
| CallAwait (fd : Z) (events : PollFor).

(** What the calls answer: [Instant::now], [socket], the calls that return
    nothing, [send], [recv], [poll] (the [revents] of each descriptor, as
    POLLIN or POLLOUT set, and an error bit) and the reactor. *)
Inductive RecvAnswer := Datagram (d : bytes) | RecvErr (e : OsError).
Record Revents := { re_ready : bool; re_error : bool }.
Inductive PollAnswer := Polled (r : list Revents) | PollErr (e : OsError).
Inductive AwaitAnswer := IoReady | IoFailed (e : OsError) | TimerElapsed.

Record Kernel := {
  k_clock : list Z;
  k_sockets : list (Z + OsError);
  k_units : list (option OsError);
  k_sends : list (option OsError);
  k_recvs : list RecvAnswer;
  k_polls : list PollAnswer;
  k_awaits : list AwaitAnswer;
  k_calls : list Call;
}.

Definition set_clock l (k : Kernel) : Kernel :=
  {| k_clock := l; k_sockets := k_sockets k; k_units := k_units k; k_sends := k_sends k;
     k_recvs := k_recvs k; k_polls := k_polls k; k_awaits := k_awaits k; k_calls := k_calls k |}.
Definition set_sockets l (k : Kernel) : Kernel :=
  {| k_clock := k_clock k; k_sockets := l; k_units := k_units k; k_sends := k_sends k;
     k_recvs := k_recvs k; k_polls := k_polls k; k_awaits := k_awaits k; k_calls := k_calls k |}.
Definition set_units l (k : Kernel) : Kernel :=
  {| k_clock := k_clock k; k_sockets := k_sockets k; k_units := l; k_sends := k_sends k;
     k_recvs := k_recvs k; k_polls := k_polls k; k_awaits := k_awaits k; k_calls := k_calls k |}.
Definition set_sends l (k : Kernel) : Kernel :=
  {| k_clock := k_clock k; k_sockets := k_sockets k; k_units := k_units k; k_sends := l;
     k_recvs := k_recvs k; k_polls := k_polls k; k_awaits := k_awaits k; k_calls := k_calls k |}.
Definition set_recvs l (k : Kernel) : Kernel :=
  {| k_clock := k_clock k; k_sockets := k_sockets k; k_units := k_units k; k_sends := k_sends k;
     k_recvs := l; k_polls := k_polls k; k_awaits := k_awaits k; k_calls := k_calls k |}.
Definition set_polls l (k : Kernel) : Kernel :=
  {| k_clock := k_clock k; k_sockets := k_sockets k; k_units := k_units k; k_sends := k_sends k;
     k_recvs := k_recvs k; k_polls := l; k_awaits := k_awaits k; k_calls := k_calls k |}.
Definition set_awaits l (k : Kernel) : Kernel :=
  {| k_clock := k_clock k; k_sockets := k_sockets k; k_units := k_units k; k_sends := k_sends k;
     k_recvs := k_recvs k; k_polls := k_polls k; k_awaits := l; k_calls := k_calls k |}.
Definition called c (k : Kernel) : Kernel :=
  {| k_clock := k_clock k; k_sockets := k_sockets k; k_units := k_units k; k_sends := k_sends k;
     k_recvs := k_recvs k; k_polls := k_polls k; k_awaits := k_awaits k; k_calls := k_calls k ++ [c] |}.

Abbreviation KM E := (M Kernel (stop E)).

(** [Instant::now()]. *)
Definition now {E} : KM E Z := fun k =>
  match k_clock k with
  | [] => (Err Waiting, k)
  | t :: r => (Ok t, set_clock r k)
  end.

(** A call that returns nothing but success. *)
Definition unit_call (c : Call) : KM OsError unit := fun k =>
  match k_units k with
  | [] => (Err Waiting, called c k)
  | None :: r => (Ok tt, set_units r (called c k))
  | Some e :: r => (Err (Fails e), set_units r (called c k))
  end.

Definition socket_call : KM OsError Z := fun k =>
  match k_sockets k with
  | [] => (Err Waiting, called CallSocket k)
  | inl fd :: r => (Ok fd, set_sockets r (called CallSocket k))
  | inr e :: r => (Err (Fails e), set_sockets r (called CallSocket k))
  end.

(** [libc::send(fd, payload, MSG_DONTWAIT)]. *)
Definition libc_send (fd : Z) (payload : bytes) : KM OsError unit := fun k =>
  let k := called (CallSend fd payload) k in
  match k_sends k with
  | [] => (Err Waiting, k)
  | None :: r => (Ok tt, called (SentOk fd payload) (set_sends r k))
  | Some e :: r => (Err (Fails e), set_sends r k)
  end.

(** [libc::recv(fd, buf, len, MSG_DONTWAIT)] takes one datagram; the part that
    does not fit the buffer is dropped.  With [trunc] ([MSG_TRUNC]) it returns
    the length of the datagram, otherwise of the part that was copied. *)
Definition libc_recv (fd : Z) (trunc : bool) (buf : bytes) : KM OsError (nat * bytes) := fun k =>
  let k := called (CallRecv fd (length buf)) k in
  match k_recvs k with
  | [] => (Err Waiting, k)
  | Datagram d :: r =>
      let copied := take (length buf) d in
      (Ok (if trunc then length d else length copied, copied ++ drop (length copied) buf),
       called (Took fd d) (set_recvs r k))
  | RecvErr e :: r => (Err (Fails e), set_recvs r k)
  end.

(** [libc::poll]: the [revents] of the descriptors, and how many are not zero. *)
Definition revents_of (n : nat) (l : list Revents) : list Revents :=
  take n (l ++ replicate n {| re_ready := false; re_error := false |}).
Definition poll_count (l : list Revents) : nat :=
  length (filter (fun r => re_ready r || re_error r = true) l).

Fixpoint poll_loop (answers : list PollAnswer) (fds : list Z) (events : PollFor) (timeout_ms : Z) :
    KM OsError (list Revents) := fun k =>
  let k := called (CallPoll fds events timeout_ms) k in
  match answers with
  | [] => (Err Waiting, set_polls [] k)
  | Polled l :: r => (Ok (revents_of (length fds) l), set_polls r k)
  | PollErr EInterrupted :: r => poll_loop r fds events timeout_ms (set_polls r k)
  | PollErr e :: r => (Err (Fails e), set_polls r k)
  end.

(** [poll_fd] and [poll_fds]: both loop while [poll] is interrupted. *)
Definition poll_fds (fds : list Z) (timeout : Duration) : KM OsError (list Revents * nat) :=
  let timeout_ms := duration_to_poll_timeout timeout in
  k ← get;
  l ← poll_loop (k_polls k) fds POLLIN timeout_ms; mret (l, poll_count l).
Definition poll_fd (fd : Z) (events : PollFor) (timeout : Duration) : KM OsError bool :=
  let timeout_ms := duration_to_poll_timeout timeout in
  k ← get;
  l ← poll_loop (k_polls k) [fd] events timeout_ms; mret (0 <? poll_count l).

(** * Opening a socket *)

Record SocketCanIsoTp := { sock_fd : Z; rx_buf : bytes; wft_max : u8 }.

Definition setsockopt (fd : Z) (o : SockOpt) : KM IsoTpError unit :=
  map_fails IsoTpIo (unit_call (CallSetSockOpt fd o)).

(** [if let Some(x) = o { setsockopt(..)? }]. *)
Definition if_some {A} (o : option A) (f : A -> KM IsoTpError unit) : KM IsoTpError unit :=
  match o with Some a => f a | None => mret tt end.

Definition apply_kernel_options (fd : Z) (options : IsoTpKernelOptions) : KM IsoTpError unit :=
  if_some (opt_frame_txtime (opt_socket options)) (fun txtime =>
    setsockopt fd (SO_TXTIME (duration_to_nanos_u32 txtime)));;
  setsockopt fd (CAN_ISOTP_OPTS (build_can_isotp_options (opt_socket options)));;
  if_some (flow_control options) (fun fc =>
    setsockopt fd (CAN_ISOTP_RECV_FC
      {| c_bs := fc_block_size fc; c_stmin := fc_st_min fc; c_wftmax := fc_wft_max fc |}));;
  if_some (force_tx_stmin options) (fun stmin =>
    setsockopt fd (CAN_ISOTP_TX_STMIN (duration_to_nanos_u32 stmin)));;
  if_some (force_rx_stmin options) (fun stmin =>
    setsockopt fd (CAN_ISOTP_RX_STMIN (duration_to_nanos_u32 stmin)));;
  if_some (link_layer options) (fun ll =>
    setsockopt fd (CAN_ISOTP_LL_OPTS
      {| c_mtu := ll_mtu ll; c_tx_dl := ll_tx_dl ll; c_tx_flags := ll_tx_flags ll |})).

(** An early return drops the socket, which closes it. *)
Definition or_close {A} (fd : Z) (m : KM IsoTpError A) : KM IsoTpError A := fun k =>
  match m k with
  | (Err (Fails e), k') => (Err (Fails e), called (CallClose fd) k')
  | r => r
  end.

Definition open (iface : string) (rx_id tx_id : CanId) (options : IsoTpKernelOptions) :
    KM IsoTpError SocketCanIsoTp :=
  if max_rx_payload options =? 0 then fail (Fails (InvalidConfig "max_rx_payload must be > 0"))
  else
    fd ← map_fails IsoTpIo socket_call;
    or_close fd (
      map_fails IsoTpIo (unit_call (CallNonblocking fd));;
      apply_kernel_options fd options;;
      map_fails IsoTpIo (unit_call (CallIface iface rx_id tx_id));;
      map_fails IsoTpIo (unit_call (CallBind fd iface rx_id tx_id)));;
    let wft_max := default 0%Z (fc_wft_max <$> flow_control options) in
    mret {| sock_fd := fd; rx_buf := replicate (max_rx_payload options) 0%Z; wft_max := wft_max |}.

(** * The blocking endpoint *)

(** [&mut self] and the kernel. *)
Abbreviation SM E := (M (SocketCanIsoTp * Kernel) (stop E)).

Definition on_kernel {E A} (m : KM E A) : SM E A := on_field snd (fun k w => (w.1, k)) m.

Definition set_rx_flow_control (fc : RxFlowControl) : SM IsoTpError unit := fun '(s, k) =>
  let c := {| c_bs := rx_block_size fc; c_stmin := duration_to_isotp_stmin (rx_st_min fc);
              c_wftmax := wft_max s |} in
  on_kernel (setsockopt (sock_fd s) (CAN_ISOTP_RECV_FC c)) (s, k).

(** [libc::recv] into [self.rx_buf]. *)
Definition recv_rx_buf : SM OsError nat := fun '(s, k) =>
  match libc_recv (sock_fd s) false (rx_buf s) k with
  | (Ok (n, buf), k') => (Ok n, ({| sock_fd := sock_fd s; rx_buf := buf; wft_max := wft_max s |}, k'))
  | (Err e, k') => (Err e, (s, k'))
  | (Panic, k') => (Panic, (s, k'))
  end.

(** [Instant::now() + timeout]. *)
Definition now_plus {E} (timeout : Duration) : KM E Z := n ← now; or_panic (instant_add n timeout).

Fixpoint send_loop (fuel : nat) (payload : bytes) (deadline : Z) (fd : Z) :
    KM (SendError IsoTpError) unit :=
  match fuel with
  | O => fail OutOfFuel
  | S fuel' =>
      r ← attempt (map_fails (fun e => SendBackend (IsoTpIo e)) (libc_send fd payload));
      match r with
      | inl _ => mret tt
      | inr (SendBackend (IsoTpIo EInterrupted)) => send_loop fuel' payload deadline fd
      | inr (SendBackend (IsoTpIo EWouldBlock)) =>
          n ← now;
          if (deadline <=? n)%Z then fail (Fails SendTimeout)
          else
            let remaining := (deadline - n)%Z in
            ready ← map_fails (fun e => SendBackend (IsoTpIo e)) (poll_fd fd POLLOUT remaining);
            if (ready : bool) then send_loop fuel' payload deadline fd else fail (Fails SendTimeout)
      | inr e => fail (Fails e)
      end
  end.

(** Each round takes an answer of [send]. *)
Definition send_to (to : u8) (payload : bytes) (timeout : Duration) : SM (SendError IsoTpError) unit :=
  fun '(s, k) =>
  on_kernel (
    deadline ← now_plus timeout;
    k ← get;
    send_loop (S (length (k_sends k))) payload deadline (sock_fd s)) (s, k).

Definition send_functional_to (functional_to : u8) (payload : bytes) (timeout : Duration) :
    SM (SendError IsoTpError) unit := send_to 0 payload timeout.

Section callbacks.
Context {U : Type}.

(** The socket, the kernel and the state of the caller's closure. *)
Abbreviation CB E := (M (SocketCanIsoTp * Kernel * U) (stop E)).
Definition on_sock {E A} (m : SM E A) : CB E A := on_field fst (fun w s => (w, s.2)) m.

(** [on_payload(payload).map_err(RecvError::Backend)?]. *)
Definition deliver (f : bytes -> U -> result RecvControl IsoTpError * U) (payload : bytes) :
    CB (RecvError IsoTpError) unit := fun '(w, u) =>
  match f payload u with
  | (Ok _, u') => (Ok tt, (w, u'))
  | (Err e, u') => (Err (Fails (RecvBackend e)), (w, u'))
  | (Panic, u') => (Panic, (w, u'))
  end.

(** What [recv_one_ready] and [recv_one] do with the bytes read. *)
Definition take_payload (f : bytes -> U -> result RecvControl IsoTpError * U) (read : nat) :
    CB (RecvError IsoTpError) RecvStatus :=
  if read =? 0 then fail (Fails (RecvBackend (IsoTpIo EUnexpectedEof)))
  else
    w ← get;
    payload ← or_panic (slice (rx_buf w.1.1) 0 read);
    deliver f payload;; mret StatusDeliveredOne.

Definition recv_backend (e : OsError) : RecvError IsoTpError := RecvBackend (IsoTpIo e).

Definition recv_one_ready (f : bytes -> U -> result RecvControl IsoTpError * U) :
    CB (RecvError IsoTpError) RecvStatus :=
  r ← attempt (map_fails recv_backend (on_sock recv_rx_buf));
  match r with
  | inr (RecvBackend (IsoTpIo EWouldBlock)) => mret StatusTimedOut
  | inr e => fail (Fails e)
  | inl read => take_payload f read
  end.

Fixpoint recv_loop (fuel : nat) (deadline : Z)
    (f : bytes -> U -> result RecvControl IsoTpError * U) : CB (RecvError IsoTpError) RecvStatus :=
  match fuel with
  | O => fail OutOfFuel
  | S fuel' =>
      r ← attempt (map_fails recv_backend (on_sock recv_rx_buf));
      match r with
      | inl read => take_payload f read
      | inr (RecvBackend (IsoTpIo EInterrupted)) => recv_loop fuel' deadline f
      | inr (RecvBackend (IsoTpIo EWouldBlock)) =>
          n ← on_sock (on_kernel now);
          if (deadline <=? n)%Z then mret StatusTimedOut
          else
            let remaining := (deadline - n)%Z in
            w ← get;
            ready ← map_fails recv_backend
                      (on_sock (on_kernel (poll_fd (sock_fd w.1.1) POLLIN remaining)));
            if (ready : bool) then recv_loop fuel' deadline f else mret StatusTimedOut
      | inr e => fail (Fails e)
      end
  end.

Definition recv_one (timeout : Duration) (on_payload : u8 -> bytes -> U -> result RecvControl IsoTpError * U) :
    CB (RecvError IsoTpError) RecvStatus :=
  deadline ← on_sock (on_kernel (now_plus timeout));
  w ← get;
  recv_loop (S (length (k_recvs w.1.2))) deadline (on_payload 0%Z).

(** * The tokio endpoint *)

(** [TokioSocketCanIsoTp::open]: the socket is registered with the reactor,
    and closed when that fails.  The wrapper holds nothing else. *)
Definition tokio_open (iface : string) (rx_id tx_id : CanId) (options : IsoTpKernelOptions) :
    KM IsoTpError SocketCanIsoTp :=
  inner ← open iface rx_id tx_id options;
  or_close (sock_fd inner) (map_fails IsoTpIo (unit_call (CallRegister (sock_fd inner))));;
  mret inner.

Definition tokio_set_rx_flow_control (fc : RxFlowControl) : SM IsoTpError unit := set_rx_flow_control fc.

(** [tokio::time::timeout(timeout, ..)] around a loop: [Fails None] is the
    timer; it can strike where the loop awaits. *)
Definition io_await {E} (f : OsError -> E) (fd : Z) (events : PollFor) : KM (option E) unit := fun k =>
  let k := called (CallAwait fd events) k in
  match k_awaits k with
  | [] => (Err Waiting, k)
  | IoReady :: r => (Ok tt, set_awaits r k)
  | IoFailed e :: r => (Err (Fails (Some (f e))), set_awaits r k)
  | TimerElapsed :: r => (Err (Fails None), set_awaits r k)
  end.

(** [match res { Ok(v) => v, Err(_) => elapsed }]. *)
Definition or_elapsed {S E A} (elapsed : result A E) (m : M S (stop (option E)) A) : M S (stop E) A := fun s =>
  match m s with
  | (Ok a, s') => (Ok a, s')
  | (Err (Fails None), s') => (map_err Fails elapsed, s')
  | (Err (Fails (Some e)), s') => (Err (Fails e), s')
  | (Err Waiting, s') => (Err Waiting, s')
  | (Err OutOfFuel, s') => (Err OutOfFuel, s')
  | (Panic, s') => (Panic, s')
  end.

Fixpoint tokio_send_loop (fuel : nat) (payload : bytes) (fd : Z) :
    KM (option (SendError IsoTpError)) unit :=
  match fuel with
  | O => fail OutOfFuel
  | S fuel' =>
      r ← attempt (map_fails (fun e => Some (SendBackend (IsoTpIo e))) (libc_send fd payload));
      match r with
      | inl _ => mret tt
      | inr (Some (SendBackend (IsoTpIo EInterrupted))) => tokio_send_loop fuel' payload fd
      | inr (Some (SendBackend (IsoTpIo EWouldBlock))) =>
          io_await (fun e => SendBackend (IsoTpIo e)) fd POLLOUT;;
          tokio_send_loop fuel' payload fd
      | inr e => fail (Fails e)
      end
  end.

Definition tokio_send_to (to : u8) (payload : bytes) : SM (SendError IsoTpError) unit := fun '(s, k) =>
  on_kernel (or_elapsed (Err SendTimeout)
    (tokio_send_loop (S (length (k_sends k))) payload (sock_fd s))) (s, k).

Definition tokio_send_functional_to (functional_to : u8) (payload : bytes) :
    SM (SendError IsoTpError) unit := tokio_send_to 0 payload.

Fixpoint tokio_recv_loop (fuel : nat) (f : bytes -> U -> result RecvControl IsoTpError * U) :
    CB (option (RecvError IsoTpError)) RecvStatus :=
  match fuel with
  | O => fail OutOfFuel
  | S fuel' =>
      r ← map_fails Some (recv_one_ready f);
      match r with
      | StatusDeliveredOne => mret StatusDeliveredOne
      | StatusTimedOut =>
          w ← get;
          on_sock (on_kernel (io_await recv_backend (sock_fd w.1.1) POLLIN));;
          tokio_recv_loop fuel' f
      end
  end.

Definition tokio_recv_one (on_payload : u8 -> bytes -> U -> result RecvControl IsoTpError * U) :
    CB (RecvError IsoTpError) RecvStatus := fun w =>
  or_elapsed (Ok StatusTimedOut)
    (tokio_recv_loop (S (length (k_recvs w.1.2))) (on_payload 0%Z)) w.
End callbacks.

(** [recv_one_into]; the state is the kernel and the caller's [out].  A
    [try_io] whose call would block clears the readiness and reports it. *)
Fixpoint recv_into_loop (fuel : nat) (fd : Z) :
    M (Kernel * bytes) (stop (option (RecvError IsoTpError))) RecvMetaIntoStatus :=
  match fuel with
  | O => fail OutOfFuel
  | S fuel' =>
      on_field fst (fun k w => (k, w.2)) (io_await recv_backend fd POLLIN);;
      r ← attempt (fun '(k, out) =>
            match map_fails (fun e => Some (recv_backend e)) (libc_recv fd true out) k with
            | (Ok (n, out'), k') => (Ok n, (k', out'))
            | (Err e, k') => (Err e, (k', out))
            | (Panic, k') => (Panic, (k', out))
            end);
      w ← get;
      match r with
      | inl read =>
          if read =? 0 then fail (Fails (Some (recv_backend EUnexpectedEof)))
          else if length (w.2 : bytes) <? read
          then fail (Fails (Some (RecvBufferTooSmall read (length (w.2 : bytes)))))
          else mret (DeliveredOne 0 read)
      | inr (Some (RecvBackend (IsoTpIo EInterrupted)))
      | inr (Some (RecvBackend (IsoTpIo EWouldBlock))) => recv_into_loop fuel' fd
      | inr e => fail (Fails e)
      end
  end.

(** Each round takes an answer of the reactor. *)
Definition tokio_recv_one_into (fd : Z) :
    M (Kernel * bytes) (stop (RecvError IsoTpError)) RecvMetaIntoStatus := fun w =>
  or_elapsed (Ok RecvTimedOut) (recv_into_loop (S (length (k_awaits w.1))) fd) w.

(** * The demultiplexer *)

(** [can_uds::uds29::encode_phys_id_raw], a parameter. *)
Class Uds29 := encode_phys_id_raw : u8 -> u8 -> u32.

Record PeerSocket := { peer_addr : u8; peer_socket : SocketCanIsoTp }.
Record KernelUdsDemux := {
  dx_iface : string;
  dx_local_addr : u8;
  dx_options : IsoTpKernelOptions;
  dx_rx_flow_control : RxFlowControl;
  dx_peers : list PeerSocket;
}.
Definition set_peers (l : list PeerSocket) (d : KernelUdsDemux) : KernelUdsDemux :=
  {| dx_iface := dx_iface d; dx_local_addr := dx_local_addr d; dx_options := dx_options d;
     dx_rx_flow_control := dx_rx_flow_control d; dx_peers := l |}.

Definition demux_new (iface : string) (local_addr : u8) (options : IsoTpKernelOptions) : KernelUdsDemux :=
  let rx_flow_control :=
    match flow_control options with
    | Some fc => {| rx_block_size := fc_block_size fc;
                    rx_st_min := default (from_millis 0) (isotp_stmin_to_duration (fc_st_min fc)) |}
    | None => {| rx_block_size := 0; rx_st_min := from_millis 0 |}
    end in
  {| dx_iface := iface; dx_local_addr := local_addr; dx_options := options;
     dx_rx_flow_control := rx_flow_control; dx_peers := [] |}.

Section demux.
Context `{Uds29}.
Abbreviation DM E := (M (KernelUdsDemux * Kernel) (stop E)).

(** [None] is the panic of [expect]. *)
Definition uds_phys_id (target source : u8) : option CanId :=
  Extended <$> ExtendedId_new (encode_phys_id_raw target source).

(** The index of the peer's socket in [peers]. *)
Definition ensure_peer (peer : u8) : DM IsoTpError nat :=
  d ← gets fst;
  if (peer =? dx_local_addr d)%Z
  then fail (Fails (InvalidConfig "peer address must differ from local_addr"))
  else
    match list_find (fun p => peer_addr p = peer) (dx_peers d) with
    | Some (idx, _) => mret idx
    | None =>
        rx_id ← or_panic (uds_phys_id (dx_local_addr d) peer);
        tx_id ← or_panic (uds_phys_id peer (dx_local_addr d));
        socket ← on_field snd (fun k w => (w.1, k)) (open (dx_iface d) rx_id tx_id (dx_options d));
        k ← gets snd;
        let '(r, (socket, k)) := set_rx_flow_control (dx_rx_flow_control d) (socket, k) in
        match r with
        | Ok _ | Err (Fails _) =>
            put (set_peers (dx_peers d ++ [{| peer_addr := peer; peer_socket := socket |}]) d, k);;
            mret (length (dx_peers d))
        | Err Waiting => put (d, k);; fail Waiting
        | Err OutOfFuel => put (d, k);; fail OutOfFuel
        | Panic => put (d, k);; or_panic None
        end
    end.

Definition register_peer (peer : u8) : DM IsoTpError unit := _ ← ensure_peer peer; mret tt.

(** Run a method of [self.peers[idx].socket]. *)
Definition on_peer {E A} (idx : nat) (m : SM E A) : DM E A := fun '(d, k) =>
  match dx_peers d !! idx with
  | None => (Panic, (d, k))
  | Some p =>
      let '(r, (s, k')) := m (peer_socket p, k) in
      (r, (set_peers (<[idx := {| peer_addr := peer_addr p; peer_socket := s |}]> (dx_peers d)) d, k'))
  end.

(** [for peer in self.peers.iter_mut() { peer.socket.set_rx_flow_control(fc)?; }]. *)
Fixpoint set_all_flow_control (n idx : nat) (fc : RxFlowControl) : DM IsoTpError unit :=
  match n with
  | O => mret tt
  | S n' => on_peer idx (set_rx_flow_control fc);; set_all_flow_control n' (S idx) fc
  end.

Definition demux_set_rx_flow_control (fc : RxFlowControl) : DM IsoTpError unit :=
  modify (fun '(d, k) =>
    ({| dx_iface := dx_iface d; dx_local_addr := dx_local_addr d; dx_options := dx_options d;
        dx_rx_flow_control := fc; dx_peers := dx_peers d |}, k));;
  d ← gets fst;
  set_all_flow_control (length (dx_peers d)) 0 fc.

Definition demux_send_to (to : u8) (payload : bytes) (timeout : Duration) :
    DM (SendError IsoTpError) unit :=
  idx ← map_fails SendBackend (ensure_peer to);
  on_peer idx (send_to to payload timeout).

Definition demux_send_functional_to (functional_to : u8) (payload : bytes) (timeout : Duration) :
    DM (SendError IsoTpError) unit :=
  fail (Fails (SendBackend (InvalidConfig "functional send is not supported by KernelUdsDemux"))).

Section demux_recv.
Context {U : Type}.
Abbreviation DCB E := (M (KernelUdsDemux * Kernel * U) (stop E)).

(** [self.peers[idx].socket.recv_one_ready(..)]. *)
Definition peer_recv_ready (idx : nat) (f : bytes -> U -> result RecvControl IsoTpError * U) :
    DCB (RecvError IsoTpError) RecvStatus := fun '(d, k, u) =>
  match dx_peers d !! idx with
  | None => (Panic, (d, k, u))
  | Some p =>
      let '(r, (s, k', u')) := recv_one_ready f (peer_socket p, k, u) in
      (r, (set_peers (<[idx := {| peer_addr := peer_addr p; peer_socket := s |}]> (dx_peers d)) d, k', u'))
  end.

(** [for (idx, fd) in fds.iter().enumerate() { .. } Ok(TimedOut)]. *)
Fixpoint scan_ready (idx : nat) (revents : list Revents)
    (on_payload : u8 -> bytes -> U -> result RecvControl IsoTpError * U) :
    DCB (RecvError IsoTpError) RecvStatus :=
  match revents with
  | [] => mret StatusTimedOut
  | r :: rest =>
      if re_ready r then
        d ← gets (fun w => w.1.1);
        p ← or_panic (dx_peers d !! idx);
        peer_recv_ready idx (on_payload (peer_addr p))
      else if re_error r then fail (Fails (recv_backend (EOther 0)))
      else scan_ready (S idx) rest on_payload
  end.

Definition demux_recv_one (timeout : Duration)
    (on_payload : u8 -> bytes -> U -> result RecvControl IsoTpError * U) :
    DCB (RecvError IsoTpError) RecvStatus :=
  d ← gets (fun w => w.1.1);
  match dx_peers d with
  | [] => modify (fun '(d, k, u) => (d, called (CallSleep timeout) k, u));; mret StatusTimedOut
  | peers =>
      let fds := map (fun p => sock_fd (peer_socket p)) peers in
      '(revents, ready) ← map_fails recv_backend
        (on_field (fun w => w.1.2) (fun k w => (w.1.1, k, w.2)) (poll_fds fds timeout));
      if ready =? 0 then mret StatusTimedOut else scan_ready 0 revents on_payload
  end.
End demux_recv.
End demux.
End kernel.

(** * Durations and options *)

Lemma div_bounds a b : (0 < b)%Z -> (b * (a / b) <= a < b * (a / b) + b)%Z.
Proof. intros. pose proof (Z.mul_div_le a b). pose proof (Z.mul_succ_div_gt a b). lia. Qed.

Lemma stmin_decode_encode raw d : isotp_stmin_to_duration raw = Some d ->
     duration_to_isotp_stmin d = raw /\ (0 <= d <= from_millis 127)%Z.
Proof.
  unfold isotp_stmin_to_duration, from_millis, from_micros.
  destruct ((0 <=? raw) && _)%Z eqn:H1.
  - intros [= <-]. rewrite andb_true_iff, !Z.leb_le in H1. split; [|lia].
    unfold duration_to_isotp_stmin, as_micros, as_millis.
    replace (raw * 1000000 / 1000)%Z with (raw * 1000)%Z
      by (replace (raw * 1000000)%Z with (raw * 1000 * 1000)%Z by lia; by rewrite Z.div_mul).
    rewrite (Z.div_mul raw) by lia. destruct (Z.eqb_spec (raw * 1000) 0); [lia|].
    destruct (Z.leb_spec (raw * 1000) 900); [lia|]. rewrite andb_false_r, andb_false_l.
    destruct (Z.leb_spec raw 127); [|lia]. apply wrap_small. unfold in_width. lia.
  - destruct ((241 <=? raw) && _)%Z eqn:H2; [|done]. intros [= <-].
    rewrite andb_true_iff, !Z.leb_le in H2. split; [|lia].
    unfold duration_to_isotp_stmin, as_micros. rewrite Z.div_mul by lia.
    rewrite Z.div_mul by lia. rewrite Z.mod_mul by lia. rewrite wrap_small by (unfold in_width; lia).
    destruct (Z.eqb_spec ((raw - 240) * 100) 0); [lia|].
    destruct (Z.leb_spec 100 ((raw - 240) * 100)); [|lia].
    destruct (Z.leb_spec ((raw - 240) * 100) 900); [|lia]. simpl. lia.
Qed.

Lemma stmin_encode_bounds d : (0 <= d)%Z -> exists d',
     is_u8 (duration_to_isotp_stmin d) /\
     isotp_stmin_to_duration (duration_to_isotp_stmin d) = Some d' /\ (d' <= d)%Z /\
     (d < from_millis 128 -> d - d' < from_millis 1)%Z.
Proof.
  intros Hd. unfold duration_to_isotp_stmin, as_micros, as_millis.
  pose proof (div_bounds d 1000 ltac:(lia)) as Hu. pose proof (div_bounds d 1000000 ltac:(lia)) as Hm.
  set (us := (d / 1000)%Z) in *. set (ms := (d / 1000000)%Z) in *.
  destruct (Z.eqb_spec us 0).
  { exists 0%Z. unfold in_width, from_millis. cbn. split_and!; lia || done. }
  destruct ((100 <=? us) && (us <=? 900) && (us mod 100 =? 0))%Z eqn:Hc.
  - rewrite !andb_true_iff, !Z.leb_le, Z.eqb_eq in Hc. destruct Hc as [[H1 H2] H3].
    pose proof (Z.div_mod us 100 ltac:(lia)) as Hq. rewrite H3 in Hq. set (q := (us / 100)%Z) in *.
    rewrite wrap_small by (unfold in_width; lia). exists (from_micros (q * 100)).
    unfold isotp_stmin_to_duration.
    destruct (Z.leb_spec (240 + q) 127); [lia|]. rewrite andb_false_r.
    destruct (Z.leb_spec 241 (240 + q)); [|lia]. destruct (Z.leb_spec (240 + q) 249); [|lia].
    cbn [andb]. replace (240 + q - 240)%Z with q by lia.
    unfold in_width, from_micros, from_millis. split_and!; lia || done.
  - destruct (Z.leb_spec ms 127).
    + rewrite wrap_small by (unfold in_width; lia). exists (from_millis ms). unfold isotp_stmin_to_duration.
      destruct (Z.leb_spec 0 ms); [|lia]. destruct (Z.leb_spec ms 127); [|lia].
      unfold in_width, from_millis. simpl. split_and!; lia || done.
    + exists (from_millis 127). unfold in_width, from_millis. cbn. split_and!; lia || done.
Qed.

(** C32. The separation time codec: every STmin value the standard defines comes
    back from its duration unchanged, and any duration is encoded as a defined
    value which asks for no more than the duration and, up to 127 ms, for less
    than a millisecond less. *)
Theorem stmin_codec :
  (forall raw d, isotp_stmin_to_duration raw = Some d ->
     duration_to_isotp_stmin d = raw /\ (0 <= d <= from_millis 127)%Z) /\
  (forall d, (0 <= d)%Z -> exists d',
     is_u8 (duration_to_isotp_stmin d) /\
     isotp_stmin_to_duration (duration_to_isotp_stmin d) = Some d' /\ (d' <= d)%Z /\
     (d < from_millis 128 -> d - d' < from_millis 1)%Z).
Proof. split; [apply stmin_decode_encode|apply stmin_encode_bounds]. Qed.

(** ** Flags *)

(** The bits of the flag word: the caller's, and one for each option set. *)
Lemma build_flags_bits opts i :
  (0 <= i)%Z ->
  Z.testbit (c_flags (build_can_isotp_options opts)) i =
    Z.testbit (opt_flags opts) i || (is_some (opt_ext_address opts) && (i =? 1)%Z)
    || (is_some (opt_tx_padding opts) && (i =? 2)%Z) || (is_some (opt_rx_padding opts) && (i =? 3)%Z)
    || (is_some (opt_rx_ext_address opts) && (i =? 9)%Z).
Proof.
  intros Hi.
  assert (Hp : forall (o : bool) f n, (0 <= n)%Z -> Z.testbit (if o then Z.lor f (2 ^ n) else f) i =
     Z.testbit f i || (o && (i =? n)%Z)).
  { intros [] f n Hn; [|by rewrite orb_false_r]. rewrite Z.lor_spec, Z.pow2_bits_eqb, Z.eqb_sym by done. done. }
  cbn [build_can_isotp_options c_flags].
  change CAN_ISOTP_RX_EXT_ADDR with (2 ^ 9)%Z. change CAN_ISOTP_RX_PADDING with (2 ^ 3)%Z.
  change CAN_ISOTP_TX_PADDING with (2 ^ 2)%Z. change CAN_ISOTP_EXTEND_ADDR with (2 ^ 1)%Z.
  by rewrite !Hp by done.
Qed.

(** ** What a configuration asks of the kernel *)

(** The [u32] nanosecond count of a duration, the largest one when it is too
    long. *)
Definition nanos_of (d : Duration) (n : u32) : Prop := (0 <= d)%Z -> n = Z.min d 4294967295.

(** The fields of [struct can_isotp_options]: the caller's flag bits and bit 1
    for an extended address, 2 and 3 for the padding bytes, 9 for an extended
    receive address, and no others; a value that is not configured is 0. *)
Definition asks_opts (opts : IsoTpSocketOptions) (c : can_isotp_options) : Prop :=
  (forall i, (0 <= i)%Z -> Z.testbit (c_flags c) i =
     match i with
     | 1 => Z.testbit (opt_flags opts) 1 || is_some (opt_ext_address opts)
     | 2 => Z.testbit (opt_flags opts) 2 || is_some (opt_tx_padding opts)
     | 3 => Z.testbit (opt_flags opts) 3 || is_some (opt_rx_padding opts)
     | 9 => Z.testbit (opt_flags opts) 9 || is_some (opt_rx_ext_address opts)
     | _ => Z.testbit (opt_flags opts) i
     end%Z) /\
  match opt_frame_txtime opts with Some d => nanos_of d (c_frame_txtime c) | None => c_frame_txtime c = 0%Z end /\
  match opt_ext_address opts with Some a => c_ext_address c = a | None => c_ext_address c = 0%Z end /\
  match opt_tx_padding opts with Some x => c_txpad_content c = x | None => c_txpad_content c = 0%Z end /\
  match opt_rx_padding opts with Some x => c_rxpad_content c = x | None => c_rxpad_content c = 0%Z end /\
  match opt_rx_ext_address opts with Some a => c_rx_ext_address c = a | None => c_rx_ext_address c = 0%Z end.

(** The option for a configured value, none otherwise. *)
Definition asks_for {A} (o : option A) (P : A -> SockOpt -> Prop) (sos : list SockOpt) : Prop :=
  match o with Some a => exists so, sos = [so] /\ P a so | None => sos = [] end.

(** The options to be set, in order. *)
Definition asks (options : IsoTpKernelOptions) (sos : list SockOpt) : Prop :=
  exists txtime c fc tx rx ll, sos = txtime ++ [CAN_ISOTP_OPTS c] ++ fc ++ tx ++ rx ++ ll /\
    asks_for (opt_frame_txtime (opt_socket options)) (fun d so => exists n, so = SO_TXTIME n /\ nanos_of d n) txtime /\
    asks_opts (opt_socket options) c /\
    asks_for (flow_control options) (fun f so => exists o, so = CAN_ISOTP_RECV_FC o /\
      c_bs o = fc_block_size f /\ c_stmin o = fc_st_min f /\ c_wftmax o = fc_wft_max f) fc /\
    asks_for (force_tx_stmin options) (fun d so => exists n, so = CAN_ISOTP_TX_STMIN n /\ nanos_of d n) tx /\
    asks_for (force_rx_stmin options) (fun d so => exists n, so = CAN_ISOTP_RX_STMIN n /\ nanos_of d n) rx /\
    asks_for (link_layer options) (fun l so => exists o, so = CAN_ISOTP_LL_OPTS o /\
      c_mtu o = ll_mtu l /\ c_tx_dl o = ll_tx_dl l /\ c_tx_flags o = ll_tx_flags l) ll.

Lemma duration_nanos d : nanos_of d (duration_to_nanos_u32 d).
Proof.
  intros Hd. unfold duration_to_nanos_u32, u32_max. apply wrap_small. unfold in_width. lia.
Qed.

Lemma built_options_asked opts : asks_opts opts (build_can_isotp_options opts).
Proof.
  split_and!; [|by destruct (opt_frame_txtime opts) eqn:E; cbn; rewrite E; [apply duration_nanos|]|..].
  - intros i Hi. rewrite build_flags_bits by done.
    destruct i as [|p|p]; [by rewrite !andb_false_r, !orb_false_r| |lia].
    destruct (decide (Z.pos p = 1 \/ Z.pos p = 2 \/ Z.pos p = 3 \/ Z.pos p = 9)%Z) as [Hp|Hp].
    + destruct Hp as [[= ->]|[[= ->]|[[= ->]|[= ->]]]]; cbn [Z.eqb Pos.eqb];
        by rewrite ?andb_false_r, ?andb_true_r, ?orb_false_r.
    + rewrite !(proj2 (Z.eqb_neq _ _)) by tauto. rewrite !andb_false_r, !orb_false_r.
      repeat (destruct p as [p|p|]; try done; try tauto).
  - by destruct (opt_ext_address opts) eqn:E; cbn; rewrite E.
  - by destruct (opt_tx_padding opts) eqn:E; cbn; rewrite E.
  - by destruct (opt_rx_padding opts) eqn:E; cbn; rewrite E.
  - by destruct (opt_rx_ext_address opts) eqn:E; cbn; rewrite E.
Qed.

(** * What the calls do to the kernel *)

Section kernel_proofs.
Context {SId EId : Type} `{EmbeddedCan SId EId}.
Abbreviation Kern := (Kernel (SId := SId) (EId := EId)).
Implicit Types k : Kern.

(** The options [apply_kernel_options] sets. *)
Definition options_set (options : IsoTpKernelOptions) : list SockOpt :=
  option_list ((fun t => SO_TXTIME (duration_to_nanos_u32 t)) <$> opt_frame_txtime (opt_socket options)) ++
  [CAN_ISOTP_OPTS (build_can_isotp_options (opt_socket options))] ++
  option_list ((fun fc => CAN_ISOTP_RECV_FC
    {| c_bs := fc_block_size fc; c_stmin := fc_st_min fc; c_wftmax := fc_wft_max fc |}) <$> flow_control options) ++
  option_list ((fun t => CAN_ISOTP_TX_STMIN (duration_to_nanos_u32 t)) <$> force_tx_stmin options) ++
  option_list ((fun t => CAN_ISOTP_RX_STMIN (duration_to_nanos_u32 t)) <$> force_rx_stmin options) ++
  option_list ((fun ll => CAN_ISOTP_LL_OPTS
    {| c_mtu := ll_mtu ll; c_tx_dl := ll_tx_dl ll; c_tx_flags := ll_tx_flags ll |}) <$> link_layer options).

Lemma options_set_asked options : asks options (options_set options).
Proof.
  eexists _, _, _, _, _, _. split; [reflexivity|].
  split_and!; [..|apply built_options_asked| | | |]; unfold asks_for;
    match goal with |- context [match ?o with _ => _ end] => destruct o end; simpl; try done;
    eexists; (split; [done|]); eexists; (split; [done|]); try apply duration_nanos; done.
Qed.

(** [makes cs m]: the call makes the system calls [cs], all of them when it
    returns and a prefix when it fails; it leaves the other scripts alone. *)
Definition makes {A} (cs : list (Call (SId := SId) (EId := EId))) (m : M Kern (stop IsoTpError) A) : Prop :=
  forall k, let '(r, k') := m k in
    k_clock k' = k_clock k /\
    exists l, k_calls k' = k_calls k ++ l /\ l `prefix_of` cs /\
      match r with
      | Ok _ => l = cs
      | Err (Fails _) | Err Waiting => True
      | Err OutOfFuel | Panic => False
      end.

Lemma makes_ret {A} (a : A) : makes [] (mret a).
Proof. intros k. split; [done|]. exists []. by rewrite app_nil_r. Qed.

Lemma makes_bind {A B} cs cs' (m : M Kern (stop IsoTpError) A) (f : A -> M Kern (stop IsoTpError) B) :
  makes cs m -> (forall a, makes cs' (f a)) -> makes (cs ++ cs') (m ≫= f).
Proof.
  intros Hm Hf k. unfold mbind, M_bind. specialize (Hm k). destruct (m k) as [[a|e|] k1].
  - destruct Hm as (Hc & l & Hl & Hp & ->). specialize (Hf a k1). destruct (f a k1) as [r k2].
    destruct Hf as (Hc2 & l2 & Hl2 & Hp2 & Hr). split; [congruence|]. exists (cs ++ l2).
    split_and!; [by rewrite Hl2, Hl, app_assoc|by apply prefix_app|].
    destruct r as [b|[e| |]|]; [by rewrite Hr|done..].
  - destruct Hm as (Hc & l & Hl & Hp & Hr). split; [done|]. exists l. split_and!; [done| |by destruct e].
    etrans; [done|]. by apply prefix_app_r.
  - by destruct Hm as (_ & l & _ & _ & []).
Qed.

Lemma makes_unit c : makes [c] (map_fails IsoTpIo (unit_call c)).
Proof.
  intros k. unfold map_fails, unit_call. destruct (k_units k) as [|[e|] r]; simpl; (split; [done|]); by exists [c].
Qed.

Lemma makes_if_some {A} (o : option A) (f : A -> SockOpt) fd :
  makes (CallSetSockOpt fd <$> option_list (f <$> o)) (if_some o (fun a => setsockopt fd (f a))).
Proof. destruct o; [apply makes_unit|apply makes_ret]. Qed.

Lemma makes_apply_options fd options :
  makes (CallSetSockOpt fd <$> options_set options) (apply_kernel_options fd options).
Proof.
  unfold options_set. rewrite !fmap_app. unfold apply_kernel_options.
  repeat first [apply makes_bind; [|intros _]
               | apply (makes_if_some _ (fun t => SO_TXTIME (duration_to_nanos_u32 t)))
               | apply makes_unit
               | apply (makes_if_some _ (fun fc => CAN_ISOTP_RECV_FC
                   {| c_bs := fc_block_size fc; c_stmin := fc_st_min fc; c_wftmax := fc_wft_max fc |}))
               | apply (makes_if_some _ (fun t => CAN_ISOTP_TX_STMIN (duration_to_nanos_u32 t)))
               | apply (makes_if_some _ (fun t => CAN_ISOTP_RX_STMIN (duration_to_nanos_u32 t)))
               | apply (makes_if_some _ (fun ll => CAN_ISOTP_LL_OPTS
                   {| c_mtu := ll_mtu ll; c_tx_dl := ll_tx_dl ll; c_tx_flags := ll_tx_flags ll |}))].
Qed.

(** The calls between [socket] and the end of [open], when the options [sos] are
    set. *)
Definition setup_calls (fd : Z) (iface : string) (rx_id tx_id : Id SId EId) (sos : list SockOpt) :
    list (Call (SId := SId) (EId := EId)) :=
  [CallNonblocking fd] ++ (CallSetSockOpt fd <$> sos) ++
  [CallIface iface rx_id tx_id] ++ [CallBind fd iface rx_id tx_id].

(** How [open] may end. *)
Definition opened (iface : string) (rx_id tx_id : Id SId EId) (options : IsoTpKernelOptions)
    (r : result SocketCanIsoTp (stop IsoTpError)) (l : list (Call (SId := SId) (EId := EId))) : Prop :=
  match r with
  | Ok s =>
      (exists sos, asks options sos /\ l = CallSocket :: setup_calls (sock_fd s) iface rx_id tx_id sos) /\
      rx_buf s = replicate (max_rx_payload options) 0%Z /\ 0 < max_rx_payload options /\
      wft_max s = default 0%Z (fc_wft_max <$> flow_control options)
  | Err (Fails _) =>
      l = [] \/ l = [CallSocket] \/
      exists fd sos pre, asks options sos /\ pre `prefix_of` setup_calls fd iface rx_id tx_id sos /\
        l = CallSocket :: pre ++ [CallClose fd]
  | Err Waiting =>
      l = [CallSocket] \/
      exists fd sos pre, asks options sos /\ pre `prefix_of` setup_calls fd iface rx_id tx_id sos /\ l = CallSocket :: pre
  | Err OutOfFuel | Panic => False
  end.

Lemma open_run iface rx_id tx_id options k :
  let '(r, k') := open iface rx_id tx_id options k in
  k_clock k' = k_clock k /\
  exists l, k_calls k' = k_calls k ++ l /\ opened iface rx_id tx_id options r l.
Proof.
  unfold open. destruct (Nat.eqb_spec (max_rx_payload options) 0) as [|Hmax].
  { split; [done|]. exists []. rewrite app_nil_r. simpl. auto. }
  unfold mbind at 1, M_bind at 1.
  replace (map_fails IsoTpIo socket_call k) with
    (match k_sockets k with
     | [] => (Err Waiting, called CallSocket k)
     | inl fd :: r => (Ok fd, set_sockets r (called CallSocket k))
     | inr e :: r => (Err (Fails (IsoTpIo e)), set_sockets r (called CallSocket k))
     end) by (unfold map_fails, socket_call; by destruct (k_sockets k) as [|[] ]).
  destruct (k_sockets k) as [|[fd|e] r]; cbn [opened]; [split; [done|]; exists [CallSocket]; split; [done|by left]|
    |split; [done|]; exists [CallSocket]; split; [done|by right; left]].
  set (k1 := set_sockets _ _).
  pose proof (options_set_asked options) as Hask.
  assert (Hm : makes (setup_calls fd iface rx_id tx_id (options_set options))
    (map_fails IsoTpIo (unit_call (CallNonblocking fd));; apply_kernel_options fd options;;
     map_fails IsoTpIo (unit_call (CallIface iface rx_id tx_id));;
     map_fails IsoTpIo (unit_call (CallBind fd iface rx_id tx_id)))).
  { unfold setup_calls. repeat (apply makes_bind; [|intros _]); try apply makes_unit.
    apply makes_apply_options. }
  revert Hm. generalize (map_fails IsoTpIo (unit_call (CallNonblocking fd));; apply_kernel_options fd options;;
     map_fails IsoTpIo (unit_call (CallIface iface rx_id tx_id));;
     map_fails IsoTpIo (unit_call (CallBind fd iface rx_id tx_id))). intros m Hm.
  specialize (Hm k1). unfold mbind at 1, M_bind at 1, or_close.
  destruct (m k1) as [[a|[e| |]|] k2];
    destruct Hm as (Hc & l & Hl & Hp & Hr); simpl in *; try done; (split; [exact Hc|]).
  - exists (CallSocket :: l). rewrite Hl, Hr. simpl. rewrite <- app_assoc. split_and!; [done|by eexists|done|lia|done].
  - exists (CallSocket :: l ++ [CallClose fd]). rewrite Hl, <- !app_assoc. split; [done|]. right. right.
    by exists fd, (options_set options), l.
  - exists (CallSocket :: l). rewrite Hl, <- !app_assoc. split; [done|]. right. by exists fd, (options_set options), l.
Qed.

(** C33. [open] never panics and asks the kernel for what the options say: on
    success a socket was created, made non-blocking, given the options of the
    configuration once and in order (times as saturated nanosecond counts; the
    flag word is the caller's with the bits of the configured addresses and
    paddings, so that forcing a separation time is left to the caller's flags),
    and bound to the interface with the two identifiers last, and its receive
    buffer has [max_rx_payload] > 0 bytes; on an error a socket that was
    created is closed again. *)
Theorem open_correct iface rx_id tx_id options k :
  let '(r, k') := open iface rx_id tx_id options k in
  exists l, k_calls k' = k_calls k ++ l /\ opened iface rx_id tx_id options r l.
Proof.
  pose proof (open_run iface rx_id tx_id options k) as Ho. destruct (open _ _ _ _ k). apply Ho.
Qed.

(** * Sending and receiving *)

Definition sent_of (c : Call (SId := SId) (EId := EId)) : option (Z * bytes) :=
  match c with SentOk fd p => Some (fd, p) | _ => None end.
Definition taken_of (c : Call (SId := SId) (EId := EId)) : option (Z * bytes) :=
  match c with Took fd d => Some (fd, d) | _ => None end.

(** From [k] to [k'] the kernel took the payloads [sent] and handed out the
    datagrams [taken]. *)
Definition did (sent taken : list (Z * bytes)) (k k' : Kern) : Prop :=
  exists l, k_calls k' = k_calls k ++ l /\ omap sent_of l = sent /\ omap taken_of l = taken.

Lemma did_refl k : did [] [] k k.
Proof. exists []. by rewrite app_nil_r. Qed.
Lemma did_trans s1 t1 s2 t2 k1 k2 k3 :
  did s1 t1 k1 k2 -> did s2 t2 k2 k3 -> did (s1 ++ s2) (t1 ++ t2) k1 k3.
Proof.
  intros (l1 & Hl1 & Hs1 & Ht1) (l2 & Hl2 & Hs2 & Ht2). exists (l1 ++ l2).
  by rewrite Hl2, Hl1, app_assoc, !omap_app, Hs1, Hs2, Ht1, Ht2.
Qed.
Lemma did_before s t k1 k2 k3 : did [] [] k1 k2 -> did s t k2 k3 -> did s t k1 k3.
Proof. apply did_trans. Qed.

(** Calls that only look at the clock or wait: nothing is sent or taken. *)
Definition waits (k k' : Kern) : Prop :=
  did [] [] k k' /\ k_sends k' = k_sends k /\ k_recvs k' = k_recvs k.
Lemma waits_refl k : waits k k.
Proof. split_and!; [apply did_refl|done..]. Qed.
Lemma waits_trans k1 k2 k3 : waits k1 k2 -> waits k2 k3 -> waits k1 k3.
Proof. intros (Hd1 & ? & ?) (Hd2 & ? & ?). split_and!; [by eapply did_before|congruence..]. Qed.

(** How such a call ends. *)
Definition waiting_call {E A} (m : M Kern (stop E) A) : Prop :=
  forall k, ends (waits k) (fun _ => waits k) (fun _ => waits k) (m k).

(** Run a waiting call after nothing was sent or taken since [k0]. *)
Lemma waiting_then {E A B} (m : M Kern (stop E) A) (f : A -> M Kern (stop E) B)
    (W : Kern -> Prop) (Q : B -> Kern -> Prop) (F : E -> Kern -> Prop) k :
  waiting_call m ->
  (forall k', waits k k' -> W k') -> (forall e k', waits k k' -> F e k') ->
  (forall a k', waits k k' -> ends W Q F (f a k')) -> ends W Q F ((m ≫= f) k).
Proof.
  intros Hm HW HF Hf. eapply ends_bind; [|apply Hf].
  eapply ends_weaken; [apply Hm|..]; simpl; eauto.
Qed.
Lemma waiting_map_fails {E E' A} (f : E -> E') (m : M Kern (stop E) A) :
  waiting_call m -> waiting_call (map_fails f m).
Proof. intros Hm k. specialize (Hm k). unfold map_fails. by destruct (m k) as [[a|[e| |]|] k']. Qed.

Lemma waiting_now {E} : waiting_call (now (E := E)).
Proof. intros k. unfold now. destruct (k_clock k); simpl; [apply waits_refl|]. split_and!; [exists []; by rewrite app_nil_r|done..]. Qed.

Lemma poll_loop_waits answers fds ev ms :
  waiting_call (poll_loop (SId := SId) (EId := EId) answers fds ev ms).
Proof.
  induction answers as [|a r IH]; intros k; cbn [poll_loop].
  { simpl. split_and!; [by exists [CallPoll fds ev ms]|done..]. }
  assert (Hw : waits k (set_polls r (called (CallPoll fds ev ms) k))).
  { split_and!; [by exists [CallPoll fds ev ms]|done..]. }
  destruct a as [l|[]]; simpl; try done.
  eapply ends_weaken; [apply IH|..]; simpl; intros; by eapply waits_trans.
Qed.

Lemma poll_fd_waits fd ev t : waiting_call (poll_fd (SId := SId) (EId := EId) fd ev t).
Proof.
  intros k. unfold poll_fd. eapply ends_bind with (Q := fun k0 k' => k0 = k /\ k' = k); [done|].
  intros ? ? [-> ->]. eapply ends_bind; [apply poll_loop_waits|]. done.
Qed.

Lemma libc_send_spec fd payload k :
  ends (did [] [] k)
    (fun _ k' => did [(fd, payload)] [] k k' /\ length (k_sends k') < length (k_sends k))
    (fun _ k' => did [] [] k k' /\ length (k_sends k') < length (k_sends k))
    (libc_send fd payload k).
Proof.
  unfold libc_send. cbn [called k_sends]. destruct (k_sends k) as [|[e|] r]; simpl.
  - by exists [CallSend fd payload].
  - split; [by exists [CallSend fd payload]|lia].
  - split; [|lia]. exists [CallSend fd payload; SentOk fd payload]. simpl. by rewrite <- app_assoc.
Qed.

Lemma send_loop_spec fuel payload deadline fd k :
  length (k_sends k) < fuel ->
  ends (did [] [] k) (fun _ => did [(fd, payload)] [] k) (fun _ => did [] [] k)
    (send_loop fuel payload deadline fd k).
Proof.
  revert k. induction fuel as [|fuel IH]; intros k Hf; [lia|]. cbn [send_loop].
  assert (Hnext : forall k1, did [] [] k k1 -> length (k_sends k1) < length (k_sends k) ->
    ends (did [] [] k) (fun _ => did [(fd, payload)] [] k) (fun _ => did [] [] k)
      (send_loop fuel payload deadline fd k1)).
  { intros k1 Hk1 Hlen. eapply ends_weaken; [apply IH; lia|..]; simpl; intros; by eapply did_before. }
  eapply ends_bind with (Q := fun r k' => match r with
    | inl _ => did [(fd, payload)] [] k k'
    | inr _ => did [] [] k k' /\ length (k_sends k') < length (k_sends k) end).
  { pose proof (libc_send_spec fd payload k) as Hs. unfold attempt, map_fails.
    destruct (libc_send fd payload k) as [[a|[e| |]|] k1]; simpl in *; tauto. }
  intros [[]|e] k1 Hk1; [exact Hk1|]. destruct Hk1 as [Hk1 Hlen].
  destruct e as [|[[]|]]; simpl; try done; [|by apply Hnext].
  apply waiting_then; [apply waiting_now|intros ? []; by eapply did_before|intros ? ? []; by eapply did_before|].
  intros n k2 (Hk2 & Hs2 & _). pose proof (did_before _ _ _ _ _ Hk1 Hk2) as Hd2. case_bool; [done|].
  apply waiting_then; [apply waiting_map_fails, poll_fd_waits|..].
  - intros k3 (Hk3 & _). exact (did_before _ _ _ _ _ Hd2 Hk3).
  - intros e k3 (Hk3 & _). exact (did_before _ _ _ _ _ Hd2 Hk3).
  - intros ready k3 (Hk3 & Hs3 & _). pose proof (did_before _ _ _ _ _ Hd2 Hk3) as Hd3.
    destruct ready; [|done]. apply Hnext; [done|congruence].
Qed.

(** A clock on which [Instant::now() + timeout] does not overflow. *)
Definition clock_fits (timeout : Duration) (k : Kern) : Prop :=
  Forall (fun n => n + timeout < INSTANT_LIMIT)%Z (k_clock k).

Lemma now_plus_spec {E} timeout k :
  clock_fits timeout k ->
  ends (waits k) (fun _ => waits k) (fun _ => waits k) (now_plus (E := E) timeout k).
Proof.
  intros Hc. unfold clock_fits in Hc. unfold now_plus, now, mbind, M_bind.
  destruct (k_clock k) as [|n r] eqn:Hk; simpl; [apply waits_refl|]. apply Forall_cons in Hc as [Hn _].
  unfold instant_add. destruct (Z.ltb_spec (n + timeout) INSTANT_LIMIT); [|lia]. simpl.
  split_and!; [exists []; by rewrite app_nil_r|done..].
Qed.

Lemma io_await_waits {E} (f : OsError -> E) fd ev : waiting_call (io_await (SId := SId) (EId := EId) f fd ev).
Proof.
  intros k. unfold io_await. destruct (k_awaits (called _ k)) as [|[] r]; simpl;
    (split_and!; [by exists [CallAwait fd ev]|done..]).
Qed.

Lemma tokio_send_loop_spec fuel payload fd k :
  length (k_sends k) < fuel ->
  ends (did [] [] k) (fun _ => did [(fd, payload)] [] k) (fun _ => did [] [] k)
    (tokio_send_loop fuel payload fd k).
Proof.
  revert k. induction fuel as [|fuel IH]; intros k Hf; [lia|]. cbn [tokio_send_loop].
  assert (Hnext : forall k1, did [] [] k k1 -> length (k_sends k1) < length (k_sends k) ->
    ends (did [] [] k) (fun _ => did [(fd, payload)] [] k) (fun _ => did [] [] k)
      (tokio_send_loop fuel payload fd k1)).
  { intros k1 Hk1 Hlen. eapply ends_weaken; [apply IH; lia|..]; simpl; intros; by eapply did_before. }
  eapply ends_bind with (Q := fun r k' => match r with
    | inl _ => did [(fd, payload)] [] k k'
    | inr _ => did [] [] k k' /\ length (k_sends k') < length (k_sends k) end).
  { pose proof (libc_send_spec fd payload k) as Hs. unfold attempt, map_fails.
    destruct (libc_send fd payload k) as [[a|[e| |]|] k1]; simpl in *; tauto. }
  intros [[]|e] k1 Hk1; [exact Hk1|]. destruct Hk1 as [Hk1 Hlen].
  destruct e as [[|[[]|]]|]; simpl; try done; [|by apply Hnext].
  apply waiting_then; [apply io_await_waits|intros ? []; by eapply did_before|intros ? ? []; by eapply did_before|].
  intros _ k2 (Hk2 & Hs2 & _). apply Hnext; [exact (did_before _ _ _ _ _ Hk1 Hk2)|congruence].
Qed.

(** ** Returning by the deadline *)

(** The answers of [send] and [poll] that are not an interruption. *)
Definition send_answered (o : option OsError) : bool :=
  match o with Some EInterrupted => false | _ => true end.
Definition poll_answered (a : PollAnswer) : bool :=
  match a with PollErr EInterrupted => false | _ => true end.
Definition answered {A} (f : A -> bool) (l : list A) : nat := length (filter (fun x => f x = true) l).

Lemma answered_cons {A} (f : A -> bool) x l : answered f (x :: l) = (if f x then 1 else 0) + answered f l.
Proof. unfold answered. rewrite filter_cons. destruct (f x) eqn:E; by case_decide. Qed.

(** The kernel answers every call until the clock, first read as [n0], shows
    [n0 + timeout] or later; the tokio timer strikes. *)
Definition answers_until (timeout : Duration) (k : Kern) : Prop :=
  exists n0 early late rest, k_clock k = n0 :: early ++ late :: rest /\ (n0 + timeout <= late)%Z /\
    length early < answered send_answered (k_sends k) /\ length early <= answered poll_answered (k_polls k).
Definition timer_strikes (k : Kern) : Prop :=
  exists early rest, k_awaits k = early ++ TimerElapsed :: rest /\
    length early < answered send_answered (k_sends k).

(** The call comes to an end. *)
Definition returns {S E A} (run : result A (stop E) * S) : Prop :=
  ends (fun _ => False) (fun _ _ => True) (fun _ _ => True) run.

Lemma poll_loop_returns answers fds events ms k :
  0 < answered poll_answered answers ->
  ends (fun _ => False)
    (fun _ k' => k_clock k' = k_clock k /\ k_sends k' = k_sends k /\
       answered poll_answered answers = S (answered poll_answered (k_polls k')))
    (fun _ _ => True) (poll_loop answers fds events ms k).
Proof.
  revert k. induction answers as [|a answers IH]; intros k Ha; [cbv in Ha; lia|].
  rewrite answered_cons in *. cbn [poll_loop].
  destruct a as [l|[]]; simpl in *; try done.
  eapply ends_mono; [by apply IH|]. intros l k' Hk'. exact Hk'.
Qed.

Lemma poll_fd_returns {E} (g : OsError -> E) fd events remaining k :
  0 < answered poll_answered (k_polls k) ->
  ends (fun _ => False)
    (fun _ k' => k_clock k' = k_clock k /\ k_sends k' = k_sends k /\
       answered poll_answered (k_polls k) = S (answered poll_answered (k_polls k')))
    (fun _ _ => True) (map_fails g (poll_fd fd events remaining) k).
Proof.
  intros Ha. pose proof (poll_loop_returns (k_polls k) [fd] events (duration_to_poll_timeout remaining) k Ha) as Hp.
  unfold map_fails, poll_fd. rewrite (bind_ok _ _ _ k k) by done. unfold mbind, M_bind.
  by destruct (poll_loop _ _ _ _ k) as [[l|[e| |]|] k'].
Qed.

(** What [libc::send] leaves when it has an answer. *)
Lemma libc_send_answer {E} (g : OsError -> E) fd payload k a rest :
  k_sends k = a :: rest -> exists k1,
  attempt (map_fails g (libc_send fd payload)) k =
    (Ok (match a with None => inl tt | Some e => inr (g e) end), k1) /\
  k_clock k1 = k_clock k /\ k_polls k1 = k_polls k /\ k_awaits k1 = k_awaits k /\ k_sends k1 = rest.
Proof.
  intros Hk. unfold attempt, map_fails, libc_send. change (k_sends (called _ k)) with (k_sends k).
  rewrite Hk. by destruct a; eexists.
Qed.

Lemma send_loop_returns fuel payload deadline fd k early late rest :
  length (k_sends k) < fuel -> k_clock k = early ++ late :: rest -> (deadline <= late)%Z ->
  length early < answered send_answered (k_sends k) -> length early <= answered poll_answered (k_polls k) ->
  returns (send_loop fuel payload deadline fd k).
Proof.
  unfold returns. revert k early. induction fuel as [|fuel IH]; intros k early Hf Hck Hlate Hs Hp; [lia|].
  cbn [send_loop]. destruct (k_sends k) as [|a sends] eqn:Hk; [cbv in Hs; lia|].
  destruct (libc_send_answer (fun e => SendBackend (IsoTpIo e)) fd payload k a sends Hk)
    as (k1 & Hrun & Hck1 & Hp1 & _ & Hs1).
  rewrite (bind_ok _ _ _ _ _ Hrun). rewrite answered_cons in Hs. simpl in Hf.
  destruct a as [[]|]; try done; cbn in Hs.
  - unfold mbind at 1, M_bind at 1, now. rewrite Hck1, Hck.
    destruct early as [|n early]; simpl in *; [destruct (Z.leb_spec deadline late); [done|lia]|].
    destruct (Z.leb_spec deadline n); [done|].
    eapply ends_bind; [apply poll_fd_returns; simpl; rewrite Hp1; lia|]. cbv beta.
    intros ready k2 (Hck2 & Hs2 & Hp2). simpl in Hck2, Hs2, Hp2. rewrite Hp1 in Hp2. destruct ready; [|done].
    apply (IH k2 early); [rewrite Hs2, Hs1; lia|done|done|rewrite Hs2, Hs1; lia|lia].
  - apply (IH k1 early); [rewrite Hs1; lia|congruence|done|by rewrite Hs1|by rewrite Hp1].
Qed.

Lemma send_to_returns to payload timeout s k :
  clock_fits timeout k -> answers_until timeout k -> returns (send_to to payload timeout (s, k)).
Proof.
  intros Hfit (n0 & early & late & rest & Hck & Hlate & Hs & Hp).
  set (k1 := set_clock (early ++ late :: rest) k).
  assert (Hnow : now_plus timeout k = (Ok (n0 + timeout)%Z : result _ (stop (SendError IsoTpError)), k1)).
  { unfold clock_fits in Hfit. rewrite Hck in Hfit. apply Forall_cons_1 in Hfit as [Hn _].
    unfold now_plus, now, mbind, M_bind. rewrite Hck. unfold instant_add.
    by destruct (Z.ltb_spec (n0 + timeout) INSTANT_LIMIT); [|lia]. }
  unfold send_to, on_kernel, on_field. cbn [fst snd]. rewrite (bind_ok _ _ _ _ _ Hnow), (bind_ok get _ k1 k1 k1 eq_refl).
  pose proof (send_loop_returns (S (length (k_sends k1))) payload (n0 + timeout) (sock_fd s)
    k1 early late rest ltac:(lia) eq_refl Hlate Hs Hp) as Hr. unfold returns in *.
  by destruct (send_loop _ _ _ _ _) as [[[]|[e| |]|] k'].
Qed.

Lemma tokio_send_loop_returns fuel payload fd k early rest :
  length (k_sends k) < fuel -> k_awaits k = early ++ TimerElapsed :: rest ->
  length early < answered send_answered (k_sends k) ->
  returns (tokio_send_loop fuel payload fd k).
Proof.
  unfold returns. revert k early. induction fuel as [|fuel IH]; intros k early Hf Ha Hs; [lia|].
  cbn [tokio_send_loop]. destruct (k_sends k) as [|a sends] eqn:Hk; [cbv in Hs; lia|].
  destruct (libc_send_answer (fun e => Some (SendBackend (IsoTpIo e))) fd payload k a sends Hk)
    as (k1 & Hrun & _ & _ & Ha1 & Hs1).
  rewrite (bind_ok _ _ _ _ _ Hrun). rewrite answered_cons in Hs. simpl in Hf.
  destruct a as [[]|]; try done; cbn in Hs.
  - unfold mbind at 1, M_bind at 1, io_await. change (k_awaits (called _ k1)) with (k_awaits k1). rewrite Ha1, Ha.
    destruct early as [|[|e|] early]; simpl in *; try done.
    apply (IH _ early); [simpl; rewrite Hs1; lia|done|simpl; rewrite Hs1; lia].
  - apply (IH k1 early); [rewrite Hs1; lia|congruence|by rewrite Hs1].
Qed.

Lemma tokio_send_to_returns to payload s k : timer_strikes k -> returns (tokio_send_to to payload (s, k)).
Proof.
  intros (early & rest & Ha & Hs). unfold tokio_send_to, on_kernel, on_field, or_elapsed. cbn [fst snd].
  pose proof (tokio_send_loop_returns (S (length (k_sends k))) payload (sock_fd s) k early rest ltac:(lia) Ha Hs) as Hr.
  by destruct (tokio_send_loop _ _ _ k) as [[[]|[[e|]| |]|] k'].
Qed.

(** What a send call leaves: the kernel took the payload once if it returned
    [Ok], and not at all otherwise. *)
Definition sent_once (payload : bytes) (s : SocketCanIsoTp) (k : Kern)
    (run : result unit (stop (SendError IsoTpError)) * (SocketCanIsoTp * Kern)) : Prop :=
  let '(r, (s', k')) := run in
  s' = s /\ r <> Panic /\ r <> Err OutOfFuel /\
  did (match r with Ok _ => [(sock_fd s, payload)] | _ => [] end) [] k k'.

Lemma send_to_spec to payload timeout s k :
  clock_fits timeout k -> sent_once payload s k (send_to to payload timeout (s, k)).
Proof.
  intros Hc. unfold send_to, on_kernel, on_field. cbn [fst snd].
  assert (Hr : ends (did [] [] k) (fun _ => did [(sock_fd s, payload)] [] k) (fun _ => did [] [] k)
    ((now_plus timeout ≫= fun deadline => get ≫= fun k0 =>
       send_loop (S (length (k_sends k0))) payload deadline (sock_fd s)) k)).
  { eapply ends_bind.
    - eapply ends_weaken; [by apply now_plus_spec|..]; simpl; [by intros ? []|by intros ? ? []|]. intros a k1 Hk1. exact Hk1.
    - cbv beta. intros deadline k1 (Hk1 & _). eapply ends_bind with (Q := fun k0 k' => k0 = k1 /\ k' = k1); [done|].
      intros ? ? [-> ->]. eapply ends_weaken; [apply send_loop_spec; lia|..]; simpl; intros; by eapply did_before. }
  revert Hr. generalize ((now_plus timeout ≫= fun deadline => get ≫= fun k0 =>
    send_loop (S (length (k_sends k0))) payload deadline (sock_fd s)) k).
  by intros [[[]|[e| |]|] k'].
Qed.

(** C34. A send on a kernel ISO-TP socket, blocking or through tokio, on a clock
    that does not overflow: it does not panic, makes a system call per round,
    and hands the payload to the kernel exactly once when it returns [Ok] and
    not at all otherwise.  It returns by its deadline: when the kernel answers
    its [send] and [poll] calls (interruptions apart) until the clock has
    reached the deadline, the blocking call returns [Ok] or an error, and so
    does the tokio call when its timer strikes. *)
Theorem isotp_send_once to payload timeout s k :
  clock_fits timeout k ->
  (sent_once payload s k (send_to to payload timeout (s, k)) /\
   sent_once payload s k (send_functional_to to payload timeout (s, k)) /\
   sent_once payload s k (tokio_send_to to payload (s, k))) /\
  (answers_until timeout k ->
     returns (send_to to payload timeout (s, k)) /\ returns (send_functional_to to payload timeout (s, k))) /\
  (timer_strikes k -> returns (tokio_send_to to payload (s, k))).
Proof.
  intros Hc. split_and!; [by apply send_to_spec..| | |apply tokio_send_to_returns].
  - unfold tokio_send_to, on_kernel, on_field, or_elapsed. cbn [fst snd].
    pose proof (tokio_send_loop_spec (S (length (k_sends k))) payload (sock_fd s) k ltac:(lia)) as Hr.
    by destruct (tokio_send_loop _ _ _ k) as [[[]|[[e|]| |]|] k'].
  - intros Ha. split; by apply send_to_returns.
Qed.
End kernel_proofs.
