(* ===== verification/IsoTpDemux.v ===== *)
(** * Receiving on kernel ISO-TP sockets, and the demultiplexer

    What the receive calls of [IsoTpKernel] do with the datagrams the kernel
    hands out, and the invariant of [KernelUdsDemux]: one socket per peer
    address, bound to the two identifiers of that peer, so that a payload is
    attributed to the peer whose socket it came from. *)
From stdpp Require Import strings relations.
From S2P Require Import Prelude Script Wire Maplet Mailbox Interface UnixWire IsoTpKernel.

Section receive.
Context {SId EId : Type} `{EmbeddedCan SId EId}.
Abbreviation Kern := (Kernel (SId := SId) (EId := EId)).
Context {U : Type}.
Abbreviation callback := (bytes -> U -> result RecvControl IsoTpError * U).
Implicit Types (k : Kern) (s : SocketCanIsoTp) (u : U) (f : callback).

(** The parts of a socket that do not change. *)
Definition same_socket s s' : Prop :=
  sock_fd s' = sock_fd s /\ wft_max s' = wft_max s /\ length (rx_buf s') = length (rx_buf s).

(** What a receive call makes of the datagram [d]: the callback sees as much of
    it as fits the receive buffer. *)
Definition handled f s u (d : bytes) (r : result RecvStatus (stop (RecvError IsoTpError))) u' : Prop :=
  let payload := take (length (rx_buf s)) d in
  if decide (payload = []) then r = Err (Fails (recv_backend EUnexpectedEof)) /\ u' = u
  else u' = (f payload u).2 /\
       match (f payload u).1 with
       | Ok _ => r = Ok StatusDeliveredOne
       | Err e => r = Err (Fails (RecvBackend e))
       | Panic => r = Panic
       end.

(** How a receive call may end: with no datagram and the callback not called,
    or with one datagram that was handled. *)
Definition received_one f s k u
    (run : result RecvStatus (stop (RecvError IsoTpError)) * (SocketCanIsoTp * Kern * U)) : Prop :=
  let '(r, (s', k', u')) := run in
  same_socket s s' /\
  ((did [] [] k k' /\ u' = u /\ r <> Ok StatusDeliveredOne /\ r <> Panic /\ r <> Err OutOfFuel) \/
   exists d, did [] [(sock_fd s, d)] k k' /\ handled f s u d r u').

Lemma same_socket_refl s : same_socket s s.
Proof. done. Qed.

Lemma libc_recv_spec fd buf k :
  ends (did [] [] k)
    (fun '(n, buf') k' => exists d, did [] [(fd, d)] k k' /\ n = length d `min` length buf /\
       length buf' = length buf /\ take n buf' = take (length buf) d /\
       length (k_recvs k') < length (k_recvs k))
    (fun _ k' => did [] [] k k' /\ length (k_recvs k') < length (k_recvs k))
    (libc_recv fd false buf k).
Proof.
  unfold libc_recv. cbn [called k_recvs]. destruct (k_recvs k) as [|[d|e] r]; simpl.
  - by exists [CallRecv fd (length buf)].
  - exists d. split_and!; [|len|len| |lia].
    + exists [CallRecv fd (length buf); Took fd d]. simpl. by rewrite <- app_assoc.
    + rewrite take_app_le by done. by rewrite take_ge.
  - split; [by exists [CallRecv fd (length buf)]|lia].
Qed.

(** One read into the receive buffer. *)
Lemma recv_rx_buf_spec s k :
  ends (fun '(s', k') => s' = s /\ did [] [] k k')
    (fun n '(s', k') => same_socket s s' /\ exists d, did [] [(sock_fd s, d)] k k' /\
       n = length d `min` length (rx_buf s) /\ take n (rx_buf s') = take (length (rx_buf s)) d)
    (fun _ '(s', k') => s' = s /\ did [] [] k k' /\ length (k_recvs k') < length (k_recvs k))
    (recv_rx_buf (s, k)).
Proof.
  unfold recv_rx_buf. pose proof (libc_recv_spec (sock_fd s) (rx_buf s) k) as Hr.
  destruct (libc_recv _ _ _ k) as [[[n buf]|[e| |]|] k']; simpl in *; try done.
  destruct Hr as (d & Hd & Hn & Hl & Ht & _). split; [done|]. by exists d.
Qed.

(** Handing the bytes read to the callback. *)
Lemma take_payload_handled f s s1 k1 u d n :
  length (rx_buf s1) = length (rx_buf s) -> n = length d `min` length (rx_buf s) ->
  take n (rx_buf s1) = take (length (rx_buf s)) d ->
  exists r u', take_payload f n (s1, k1, u) = (r, (s1, k1, u')) /\ handled f s u d r u'.
Proof.
  intros Hlen Hn Ht. unfold take_payload.
  assert (Hp : take (length (rx_buf s)) d = [] <-> n = 0).
  { rewrite <- length_zero_iff_nil, length_take. lia. }
  destruct (Nat.eqb_spec n 0) as [Hz|Hz].
  { eexists _, _. split; [done|]. unfold handled. by rewrite decide_True by (by apply Hp). }
  unfold_M. simpl. rewrite slice_to_Some by lia. rewrite Ht.
  unfold deliver. destruct (f (take (length (rx_buf s)) d) u) as [[c|e|] u'] eqn:Hf; eexists _, _;
    (split; [done|]; unfold handled; rewrite decide_False by (by rewrite Hp); by rewrite Hf).
Qed.

Lemma take_payload_spec f s s1 k k1 u d n :
  same_socket s s1 -> did [] [(sock_fd s, d)] k k1 -> n = length d `min` length (rx_buf s) ->
  take n (rx_buf s1) = take (length (rx_buf s)) d ->
  received_one f s k u (take_payload f n (s1, k1, u)).
Proof.
  intros (? & ? & Hlen) Hd Hn Ht.
  destruct (take_payload_handled f s s1 k1 u d n Hlen Hn Ht) as (r & u' & -> & Hh).
  split; [done|]. right. by exists d.
Qed.

(** When the kernel has a datagram, it is the one that is handled. *)
Lemma recv_one_ready_datagram f s k u d l :
  k_recvs k = Datagram d :: l ->
  exists r s' k' u', recv_one_ready f (s, k, u) = (r, (s', k', u')) /\
    did [] [(sock_fd s, d)] k k' /\ handled f s u d r u'.
Proof.
  intros Hk. unfold recv_one_ready, mbind, M_bind, attempt, map_fails, on_sock, on_field, recv_rx_buf, libc_recv.
  cbn [fst snd called k_recvs]. rewrite Hk. cbn [fst snd].
  match goal with |- context [take_payload f ?n (?s1, ?k1, u)] =>
    destruct (take_payload_handled f s s1 k1 u d n) as (r & u' & -> & Hh) end.
  - simpl. len.
  - len.
  - simpl. rewrite take_app_le by done. by rewrite take_ge.
  - eexists _, _, _, _. split_and!; [done| |done].
    exists [CallRecv (sock_fd s) (length (rx_buf s)); Took (sock_fd s) d]. simpl. by rewrite <- app_assoc.
Qed.

Lemma recv_one_ready_spec f s k u : received_one f s k u (recv_one_ready f (s, k, u)).
Proof.
  unfold recv_one_ready, mbind, M_bind, attempt, map_fails, on_sock, on_field. cbn [fst snd].
  pose proof (recv_rx_buf_spec s k) as Hr.
  destruct (recv_rx_buf (s, k)) as [[n|[e| |]|] [s1 k1]]; cbn [ends] in Hr.
  - destruct Hr as (Hs & d & Hd & Hn & Ht). by eapply take_payload_spec.
  - destruct Hr as (-> & Hd & _). destruct e; (split; [done|]; left; by split_and!).
  - destruct Hr as (-> & Hd). split; [done|]. left. by split_and!.
  - done.
  - done.
Qed.

Lemma received_one_before f s k k1 u run :
  did [] [] k k1 -> received_one f s k1 u run -> received_one f s k u run.
Proof.
  intros Hk. destruct run as [r [[s' k'] u']]. intros [Hs [(Hd & ?)|(d & Hd & Hh)]]; (split; [done|]).
  - left. split; [exact (did_before _ _ _ _ _ Hk Hd)|done].
  - right. exists d. split; [exact (did_before _ _ _ _ _ Hk Hd)|done].
Qed.

(** Nothing happened but waiting. *)
Lemma received_none f s k k' u (r : result RecvStatus (stop (RecvError IsoTpError))) :
  did [] [] k k' -> r <> Ok StatusDeliveredOne -> r <> Panic -> r <> Err OutOfFuel ->
  received_one f s k u (r, (s, k', u)).
Proof. intros. split; [done|]. left. by split_and!. Qed.

(** A waiting call of the kernel in the middle of a receive call. *)
Lemma on_sock_waits {E A} (m : M Kern (stop E) A) s k u :
  waiting_call m -> exists k', waits k k' /\
    ((exists a, on_sock (on_kernel m) (s, k, u) = (Ok a, (s, k', u))) \/
     (exists e, on_sock (on_kernel m) (s, k, u) = (Err (Fails e), (s, k', u))) \/
     on_sock (on_kernel m) (s, k, u) = (Err Waiting, (s, k', u))).
Proof.
  intros Hm. specialize (Hm k). unfold on_sock, on_kernel, on_field. cbn [fst snd].
  destruct (m k) as [[a|[e| |]|] k']; cbn [ends] in Hm; try done; exists k'; (split; [done|]); eauto.
Qed.

Lemma on_sock_waits_map {E E' A} (g : E -> E') (m : M Kern (stop E) A) s k u :
  waiting_call m -> exists k', waits k k' /\
    ((exists a, map_fails g (on_sock (on_kernel m)) (s, k, u) = (Ok a, (s, k', u))) \/
     (exists e, map_fails g (on_sock (on_kernel m)) (s, k, u) = (Err (Fails e), (s, k', u))) \/
     map_fails g (on_sock (on_kernel m)) (s, k, u) = (Err Waiting, (s, k', u))).
Proof.
  intros Hm. destruct (on_sock_waits m s k u Hm) as (k' & Hk & Hr). exists k'. split; [done|].
  unfold map_fails. destruct Hr as [(a & Hr)|[(e & Hr)|Hr]]; rewrite Hr; eauto.
Qed.

(** Read, and look at the error. *)
Definition try_read : M (SocketCanIsoTp * Kern * U) (stop (RecvError IsoTpError)) (nat + RecvError IsoTpError) :=
  attempt (map_fails recv_backend (on_sock recv_rx_buf)).

Lemma try_read_spec f s k u :
  (exists n s1 k1, try_read (s, k, u) = (Ok (inl n), (s1, k1, u)) /\
     received_one f s k u (take_payload f n (s1, k1, u))) \/
  (exists e k1, try_read (s, k, u) = (Ok (inr (recv_backend e)), (s, k1, u)) /\
     did [] [] k k1 /\ length (k_recvs k1) < length (k_recvs k)) \/
  (exists k1, try_read (s, k, u) = (Err Waiting, (s, k1, u)) /\ did [] [] k k1).
Proof.
  unfold try_read, attempt, map_fails, on_sock, on_field. cbn [fst snd].
  pose proof (recv_rx_buf_spec s k) as Hr.
  destruct (recv_rx_buf (s, k)) as [[n|[e| |]|] [s1 k1]]; cbn [ends] in Hr; try done.
  - left. destruct Hr as (Hs & d & Hd & Hn & Ht). exists n, s1, k1. split; [done|]. by eapply take_payload_spec.
  - right. left. destruct Hr as (-> & Hd & Hl). by exists e, k1.
  - right. right. destruct Hr as (-> & Hd). by exists k1.
Qed.

Lemma isotp_recv_loop_spec fuel deadline f s k u :
  length (k_recvs k) < fuel -> received_one f s k u (recv_loop fuel deadline f (s, k, u)).
Proof.
  revert k. induction fuel as [|fuel IH]; intros k Hf; [lia|]. cbn [recv_loop]. fold try_read.
  destruct (try_read_spec f s k u) as [(n & s1 & k1 & Hr & Ht)|[(e & k1 & Hr & Hd & Hl)|(k1 & Hr & Hd)]].
  - by rewrite (bind_ok _ _ _ _ _ Hr).
  - rewrite (bind_ok _ _ _ _ _ Hr).
    destruct e; cbn [recv_backend];
      try (apply received_none; done).
    2:{ eapply received_one_before; [exact Hd|]. apply IH. lia. }
    destruct (on_sock_waits (now (E := RecvError IsoTpError)) s k1 u waiting_now)
      as (k2 & (Hd2 & _ & Hr2) & [(n & Hn)|[(e & Hn)|Hn]]);
      pose proof (did_before _ _ _ _ _ Hd Hd2) as Hd02;
      [|unfold mbind, M_bind; rewrite Hn; by apply received_none..].
    rewrite (bind_ok _ _ _ _ _ Hn). case_bool; [by apply received_none|].
    rewrite (bind_ok _ _ _ (s, k2, u) (s, k2, u)) by done.
    destruct (on_sock_waits_map recv_backend (poll_fd (SId := SId) (EId := EId) (sock_fd s) POLLIN (deadline - n))
      s k2 u (poll_fd_waits _ _ _)) as (k3 & (Hd3 & _ & Hr3) & [(ready & Hp)|[(e & Hp)|Hp]]);
      pose proof (did_before _ _ _ _ _ Hd02 Hd3) as Hd03;
      [|unfold mbind, M_bind; cbn [fst snd]; rewrite Hp; by apply received_none..].
    rewrite (bind_ok _ _ _ _ _ Hp). destruct ready; [|by apply received_none].
    eapply received_one_before; [exact Hd03|]. apply IH. rewrite Hr3, Hr2. lia.
  - unfold mbind, M_bind. rewrite Hr. by apply received_none.
Qed.

Lemma or_elapsed_bind {S E A B} (el : result B E) (m : M S (stop (option E)) A) g w a w1 :
  m w = (Ok a, w1) -> or_elapsed el (m ≫= g) w = or_elapsed el (g a) w1.
Proof. intros Hm. unfold or_elapsed, mbind, M_bind. by rewrite Hm. Qed.

(** A payload that was read ends the loop. *)
Lemma take_payload_ends f n w (g : RecvStatus -> M (SocketCanIsoTp * Kern * U) (stop (option (RecvError IsoTpError))) RecvStatus) :
  g StatusDeliveredOne = mret StatusDeliveredOne ->
  or_elapsed (Ok StatusTimedOut) (map_fails Some (fun _ => take_payload f n w) ≫= g) w = take_payload f n w.
Proof.
  intros Hg. unfold take_payload. case_bool; [done|].
  unfold or_elapsed, map_fails, deliver, get, or_panic, mbind, M_bind.
  destruct (slice _ 0 n); [|done]. destruct w as [[s1 k1] u1]. simpl.
  destruct (f l u1) as [[c|e|] u']; simpl; [by rewrite Hg|done..].
Qed.

Lemma tokio_recv_loop_spec fuel f s k u :
  length (k_recvs k) < fuel ->
  received_one f s k u (or_elapsed (Ok StatusTimedOut) (tokio_recv_loop fuel f) (s, k, u)).
Proof.
  revert k. induction fuel as [|fuel IH]; intros k Hf; [lia|]. cbn [tokio_recv_loop].
  set (g := fun r : RecvStatus => match r with StatusTimedOut => _ | StatusDeliveredOne => _ end).
  assert (Hfail : forall e k1, recv_one_ready f (s, k, u) = (Err (Fails e), (s, k1, u)) -> did [] [] k k1 ->
    received_one f s k u (or_elapsed (Ok StatusTimedOut) (map_fails Some (recv_one_ready f) ≫= g) (s, k, u))).
  { intros e k1 He Hd. unfold or_elapsed, map_fails, mbind, M_bind. rewrite He. by apply received_none. }
  destruct (try_read_spec f s k u) as [(n & s1 & k1 & Hr & Ht)|[(e & k1 & Hr & Hd & Hl)|(k1 & Hr & Hd)]];
    unfold try_read in Hr.
  - assert (Hrun : recv_one_ready f (s, k, u) = take_payload f n (s1, k1, u))
      by (unfold recv_one_ready; by rewrite (bind_ok _ _ _ _ _ Hr)).
    rewrite <- (take_payload_ends f n (s1, k1, u) g eq_refl) in Ht.
    unfold or_elapsed, map_fails, mbind, M_bind in *. by rewrite Hrun.
  - destruct e; try (eapply Hfail; [|exact Hd]; unfold recv_one_ready; by rewrite (bind_ok _ _ _ _ _ Hr)).
    assert (Hrun : recv_one_ready f (s, k, u) = (Ok StatusTimedOut, (s, k1, u)))
      by (unfold recv_one_ready; by rewrite (bind_ok _ _ _ _ _ Hr)).
    rewrite (or_elapsed_bind _ _ _ _ StatusTimedOut (s, k1, u)) by (unfold map_fails; by rewrite Hrun).
    unfold g. rewrite (or_elapsed_bind _ _ _ _ (s, k1, u) (s, k1, u)) by done.
    destruct (on_sock_waits (io_await (SId := SId) (EId := EId) recv_backend (sock_fd s) POLLIN) s k1 u
      (io_await_waits _ _ _)) as (k2 & (Hd2 & _ & Hr2) & [([] & Hn)|[(e & Hn)|Hn]]);
      pose proof (did_before _ _ _ _ _ Hd Hd2) as Hd02.
    + rewrite (or_elapsed_bind _ _ _ _ _ _ Hn). eapply received_one_before; [exact Hd02|]. apply IH. rewrite Hr2. lia.
    + unfold or_elapsed, mbind, M_bind. cbn [fst snd]. rewrite Hn.
      destruct e; by apply received_none.
    + unfold or_elapsed, mbind, M_bind. cbn [fst snd]. rewrite Hn. by apply received_none.
  - assert (Hrun : recv_one_ready f (s, k, u) = (Err Waiting, (s, k1, u)))
      by (unfold recv_one_ready, mbind, M_bind; by rewrite Hr).
    unfold or_elapsed, map_fails, mbind, M_bind. rewrite Hrun. by apply received_none.
Qed.

(** A receive on a kernel ISO-TP socket, blocking or through tokio, ends
    without a panic of its own (on a clock that does not overflow) and takes
    at most one datagram from the kernel: with none it does not call the
    callback; with one it calls the callback exactly once with the bytes of
    the datagram that fit the receive buffer, and reports delivery or the
    callback's error; an empty datagram is an end-of-file error. *)
Theorem isotp_recv_once on_payload timeout s k u :
  clock_fits timeout k ->
  received_one (on_payload 0%Z) s k u (recv_one timeout on_payload (s, k, u)) /\
  received_one (on_payload 0%Z) s k u (tokio_recv_one on_payload (s, k, u)).
Proof.
  intros Hc. split; [|by apply tokio_recv_loop_spec; simpl; lia].
  unfold recv_one, mbind at 1, M_bind at 1, on_sock, on_kernel, on_field. cbn [fst snd].
  pose proof (now_plus_spec (E := RecvError IsoTpError) timeout k Hc) as Hn.
  destruct (now_plus timeout k) as [[d|[e| |]|] k1]; cbn [ends] in Hn; try done; destruct Hn as (Hd & _).
  - rewrite (bind_ok _ _ _ (s, k1, u) (s, k1, u)) by done.
    eapply received_one_before; [exact Hd|]. apply isotp_recv_loop_spec. simpl. lia.
  - by apply received_none.
  - by apply received_none.
Qed.
End receive.

(** ** [recv_one_into] *)

Section recv_into.
Context {SId EId : Type} `{EmbeddedCan SId EId}.
Abbreviation Kern := (Kernel (SId := SId) (EId := EId)).
Implicit Types (k : Kern) (out : bytes).

(** How [recv_one_into] may end. *)
Definition received_into (fd : Z) k out
    (run : result RecvMetaIntoStatus (stop (RecvError IsoTpError)) * (Kern * bytes)) : Prop :=
  let '(r, (k', out')) := run in
  length out' = length out /\
  match r with
  | Ok (DeliveredOne reply_to len) =>
      reply_to = 0%Z /\ 0 < len <= length out /\
      exists d, did [] [(fd, d)] k k' /\ length d = len /\ take len out' = d
  | Ok RecvTimedOut => did [] [] k k'
  | Err (Fails (RecvBufferTooSmall needed got)) =>
      got = length out /\ exists d, did [] [(fd, d)] k k' /\ needed = length d /\ got < needed
  | Err (Fails (RecvBackend e)) =>
      did [] [] k k' \/ (did [] [(fd, [])] k k' /\ e = IsoTpIo EUnexpectedEof)
  | Err Waiting => did [] [] k k'
  | Err OutOfFuel | Panic => False
  end.

Lemma received_into_before fd k k1 out run :
  did [] [] k k1 -> received_into fd k1 out run -> received_into fd k out run.
Proof.
  intros Hk. assert (Ht : forall t k', did [] t k1 k' -> did [] t k k')
    by (intros t k' Hd; exact (did_before _ _ _ _ _ Hk Hd)).
  destruct run as [[[|? ?]|[[]| |]|] [k' out']]; simpl; intros [Hl Hr]; (split; [exact Hl|]); auto.
  - destruct Hr as (Ha & Hn & d & Hd & ?). split; [exact Ha|]. split; [exact Hn|]. exists d. auto.
  - destruct Hr as (? & d & Hd & ?). split; [done|]. exists d. auto.
  - destruct Hr as [Hd|[Hd ?]]; auto.
Qed.

(** One [try_io]. *)
Definition try_recv_into (fd : Z) :
    M (Kern * bytes) (stop (option (RecvError IsoTpError))) (nat + option (RecvError IsoTpError)) :=
  attempt (fun '(k, out) =>
    match map_fails (fun e => Some (recv_backend e)) (libc_recv fd true out) k with
    | (Ok (n, out'), k') => (Ok n, (k', out'))
    | (Err e, k') => (Err e, (k', out))
    | (Panic, k') => (Panic, (k', out))
    end).

Lemma try_recv_into_spec fd k out :
  (exists k1, try_recv_into fd (k, out) = (Err Waiting, (k1, out)) /\ did [] [] k k1) \/
  (exists e k1, try_recv_into fd (k, out) = (Ok (inr (Some (recv_backend e))), (k1, out)) /\
     did [] [] k k1 /\ k_awaits k1 = k_awaits k) \/
  (exists d k1 out1, try_recv_into fd (k, out) = (Ok (inl (length d)), (k1, out1)) /\
     did [] [(fd, d)] k k1 /\ length out1 = length out /\ (length d <= length out -> take (length d) out1 = d)).
Proof.
  unfold try_recv_into, attempt, map_fails, libc_recv. cbn [called k_recvs].
  destruct (k_recvs k) as [|[d|e] r].
  - left. eexists. split; [done|]. by exists [CallRecv fd (length out)].
  - right. right. eexists d, _, _. split_and!; [done| | |].
    + exists [CallRecv fd (length out); Took fd d]. simpl. by rewrite <- app_assoc.
    + len.
    + intros Hd. rewrite (take_ge d) by lia. by rewrite take_app_length.
  - right. left. exists e. eexists. split_and!; [done|by exists [CallRecv fd (length out)]|done].
Qed.

Lemma recv_into_loop_spec fuel fd k out :
  length (k_awaits k) < fuel ->
  received_into fd k out (or_elapsed (Ok RecvTimedOut) (recv_into_loop fuel fd) (k, out)).
Proof.
  revert k. induction fuel as [|fuel IH]; intros k Hf; [lia|]. cbn [recv_into_loop].
  set (ka := called (CallAwait fd POLLIN) k).
  assert (Hka : forall r, did [] [] k (set_awaits r ka)) by (intros r; by exists [CallAwait fd POLLIN]).
  assert (Haw : on_field fst (fun k' w => (k', w.2)) (io_await recv_backend fd POLLIN) (k, out) =
    match k_awaits k with
    | [] => (Err Waiting, (ka, out))
    | IoReady :: r => (Ok tt, (set_awaits r ka, out))
    | IoFailed e :: r => (Err (Fails (Some (recv_backend e))), (set_awaits r ka, out))
    | TimerElapsed :: r => (Err (Fails None), (set_awaits r ka, out))
    end).
  { unfold on_field, io_await. cbn [fst snd called k_awaits]. by destruct (k_awaits k) as [|[]]. }
  destruct (k_awaits k) as [|[|e|] aw].
  2:{ rewrite (or_elapsed_bind _ _ _ _ _ _ Haw). set (kb := set_awaits aw ka). fold (try_recv_into fd).
      eapply received_into_before; [apply (Hka aw)|]. fold kb. simpl in Hf.
      destruct (try_recv_into_spec fd kb out) as [(k1 & Hr & Hd)|[(e & k1 & Hr & Hd & Ha)|(d & k1 & out1 & Hr & Hd & Hl & Ht)]].
      - unfold or_elapsed, mbind, M_bind. rewrite Hr. by split.
      - rewrite (or_elapsed_bind _ _ _ _ _ _ Hr), (or_elapsed_bind _ _ _ _ (k1, out) (k1, out)) by done.
        assert (Hnext : received_into fd kb out (or_elapsed (Ok RecvTimedOut) (recv_into_loop fuel fd) (k1, out))).
        { eapply received_into_before; [exact Hd|]. apply IH. rewrite Ha. simpl. lia. }
        destruct e; cbn [recv_backend]; try exact Hnext; (split; [done|by left]).
      - rewrite (or_elapsed_bind _ _ _ _ _ _ Hr), (or_elapsed_bind _ _ _ _ (k1, out1) (k1, out1)) by done.
        cbn [fst snd]. destruct (Nat.eqb_spec (length d) 0) as [Hz|Hz].
        { apply nil_length_inv in Hz as ->. split; [done|]. by right. }
        destruct (Nat.ltb_spec (length out1) (length d)).
        + split; [done|]. split; [done|]. exists d. split_and!; [done..|lia].
        + split; [done|]. split_and!; [done|lia|lia|]. exists d. split_and!; [done..|]. apply Ht. lia. }
  all: unfold or_elapsed, mbind, M_bind; rewrite Haw; (split; [done|]); simpl.
  - by exists [CallAwait fd POLLIN].
  - left. apply Hka.
  - apply Hka.
Qed.

(** C35. [recv_one_into] of the tokio endpoint keeps the contract the ingest pump
    relies on: it never panics, leaves the length of the caller's buffer
    alone, reports a length within it, and then the buffer starts with exactly
    the datagram the kernel handed out; a datagram that does not fit is
    reported with its length instead of being cut; a timeout takes nothing. *)
Theorem tokio_recv_into_contract fd k out :
  received_into fd k out (tokio_recv_one_into fd (k, out)).
Proof. apply recv_into_loop_spec. simpl. lia. Qed.
End recv_into.

(** * The demultiplexer *)

(** The documented layout of a physical identifier, [0x18DA_TA_SA]. *)
Class Uds29Laws `{Uds29} := phys_raw : forall target source, is_u8 target -> is_u8 source ->
  encode_phys_id_raw target source = (416940032 + target * 256 + source)%Z.
(** [ExtendedId::new] accepts every 29-bit value. *)
Class ExtendedIdRange (SId EId : Type) `{EmbeddedCan SId EId} :=
  extended_new_range : forall raw, in_width 29 raw -> exists i : EId,
    ExtendedId_new raw = Some i /\ ExtendedId_as_raw i = raw.

Section demux.
Context {SId EId : Type} `{EmbeddedCan SId EId} `{!ExtendedIdRange SId EId} `{HU : Uds29Laws}.
Abbreviation Kern := (Kernel (SId := SId) (EId := EId)).
Implicit Types (k : Kern) (d : KernelUdsDemux) (p : PeerSocket).

Lemma phys_id_some target source :
  is_u8 target -> is_u8 source -> exists i : EId,
    uds_phys_id target source = Some (Extended (SId := SId) i) /\
    ExtendedId_as_raw i = (416940032 + target * 256 + source)%Z.
Proof.
  intros Ht Hs. unfold uds_phys_id. rewrite phys_raw by done.
  destruct (extended_new_range (SId := SId) (416940032 + target * 256 + source)) as (i & Hi & Hr).
  { unfold in_width in *. change (2 ^ 29)%Z with 536870912%Z. lia. }
  rewrite Hi. by exists i.
Qed.

(** The calls made since: [k'] comes after [k]. *)
Definition grows k k' : Prop := exists l, k_calls k' = k_calls k ++ l.
Lemma grows_trans k1 k2 k3 : grows k1 k2 -> grows k2 k3 -> grows k1 k3.
Proof. intros [l1 Hl1] [l2 Hl2]. exists (l1 ++ l2). by rewrite Hl2, Hl1, app_assoc. Qed.
Lemma did_grows sent taken k k' : did sent taken k k' -> grows k k'.
Proof. intros (l & Hl & _). by exists l. Qed.

(** The socket of [p] listens for and sends to its address. *)
Definition bound_peer d k p : Prop :=
  exists rx_id tx_id : Id SId EId,
    uds_phys_id (dx_local_addr d) (peer_addr p) = Some rx_id /\
    uds_phys_id (peer_addr p) (dx_local_addr d) = Some tx_id /\
    CallBind (sock_fd (peer_socket p)) (dx_iface d) rx_id tx_id ∈ k_calls k /\
    length (rx_buf (peer_socket p)) = max_rx_payload (dx_options d).

Record DemuxInv d k : Prop := {
  di_local : is_u8 (dx_local_addr d);
  di_nodup : NoDup (peer_addr <$> dx_peers d);
  di_other : Forall (fun p => is_u8 (peer_addr p) /\ peer_addr p <> dx_local_addr d) (dx_peers d);
  di_bound : Forall (bound_peer d k) (dx_peers d);
}.

(** A change that keeps the addresses and the sockets. *)
Definition same_peer p p' : Prop :=
  peer_addr p' = peer_addr p /\ same_socket (peer_socket p) (peer_socket p').
Definition same_demux d d' : Prop :=
  dx_iface d' = dx_iface d /\ dx_local_addr d' = dx_local_addr d /\ dx_options d' = dx_options d /\
  Forall2 same_peer (dx_peers d) (dx_peers d').

Lemma same_demux_refl d : same_demux d d.
Proof. split_and!; [done..|]. apply Forall2_same_length_lookup_2; [done|]. intros i p p' Hp Hp'. by simplify_eq. Qed.

Lemma same_demux_addrs d d' : same_demux d d' -> peer_addr <$> dx_peers d' = peer_addr <$> dx_peers d.
Proof. intros (_ & _ & _ & Hp). induction Hp as [|p p' ps ps' [Ha _] _ IH]; [done|]. by rewrite !fmap_cons, Ha, IH. Qed.

Lemma bound_peer_grows d d' k k' p p' :
  dx_iface d' = dx_iface d -> dx_local_addr d' = dx_local_addr d -> dx_options d' = dx_options d ->
  same_peer p p' -> grows k k' -> bound_peer d k p -> bound_peer d' k' p'.
Proof.
  intros Hi Hl Ho [Ha (Hf & _ & Hb)] [l Hk] (rx & tx & Hrx & Htx & Hbind & Hbuf).
  exists rx, tx. rewrite Hi, Hl, Ho, Ha, Hf, Hb, Hk. split_and!; [done..| |done].
  apply elem_of_app. by left.
Qed.

Lemma inv_same d d' k k' : same_demux d d' -> grows k k' -> DemuxInv d k -> DemuxInv d' k'.
Proof.
  intros Hs Hk [Hl Hn Ho Hb]. pose proof (same_demux_addrs _ _ Hs) as Ha.
  destruct Hs as (Hif & Hlo & Hop & Hp). split; [by rewrite Hlo|by rewrite Ha|..].
  - rewrite Hlo. clear -Hp Ho. induction Hp as [|p p' ps ps' [Ha _] _ IH]; [done|].
    apply Forall_cons in Ho as [? ?]. constructor; [by rewrite Ha|by apply IH].
  - clear -Hp Hb Hif Hlo Hop Hk. induction Hp as [|p p' ps ps' Hpp _ IH]; [done|].
    apply Forall_cons in Hb as [? ?]. constructor; [by eapply bound_peer_grows|by apply IH].
Qed.

(** Setting the flow control leaves the socket alone. *)
Lemma set_flow_spec fc s k :
  let same '(s', k') := s' = s /\ did [] [] k k' /\ k_clock k' = k_clock k in
  ends same (fun _ => same) (fun _ => same) (set_rx_flow_control fc (s, k)).
Proof.
  unfold set_rx_flow_control, on_kernel, on_field, setsockopt, map_fails, unit_call. cbn [fst snd].
  destruct (k_units k) as [|[e|] r]; simpl; (split_and!; [done|by eexists [_]|done]).
Qed.

Lemma opened_did iface rx tx options r (l : list (Call (SId := SId) (EId := EId))) k k' :
  k_calls k' = k_calls k ++ l -> opened iface rx tx options r l -> did [] [] k k'.
Proof.
  intros Hl Ho. exists l. split; [done|].
  assert (Hset : forall fd sos cs, cs `prefix_of` setup_calls fd iface rx tx sos ->
    omap sent_of cs = [] /\ omap taken_of cs = []).
  { intros fd sos cs Hp.
    assert (Hall : Forall (fun c => sent_of c = None /\ taken_of c = None) (setup_calls fd iface rx tx sos)).
    { unfold setup_calls. repeat (apply Forall_app; split); repeat constructor.
      apply Forall_fmap, Forall_forall. done. }
    destruct Hp as [k1 Hk1]. rewrite Hk1 in Hall. apply Forall_app in Hall as [Hall _].
    clear -Hall. induction Hall as [|c cs [Hc1 Hc2] _ IH]; [done|]. simpl. by rewrite Hc1, Hc2. }
  destruct r as [s|[e| |]|]; simpl in Ho; try done.
  - destruct Ho as ((sos & _ & ->) & _). destruct (Hset (sock_fd s) sos _ (reflexivity _)) as [Hs1 Ht1].
    exact (conj Hs1 Ht1).
  - destruct Ho as [->|[->|(fd & sos & pre & _ & Hp & ->)]]; [done..|]. simpl.
    rewrite !omap_app. destruct (Hset fd sos pre Hp) as [-> ->]. done.
  - destruct Ho as [->|(fd & sos & pre & _ & Hp & ->)]; [done|]. exact (Hset fd sos pre Hp).
Qed.

Lemma inv_push d k k' peer s :
  DemuxInv d k -> grows k k' -> is_u8 peer -> peer <> dx_local_addr d ->
  peer ∉ peer_addr <$> dx_peers d ->
  bound_peer d k' {| peer_addr := peer; peer_socket := s |} ->
  DemuxInv (set_peers (dx_peers d ++ [{| peer_addr := peer; peer_socket := s |}]) d) k'.
Proof.
  intros [Hl Hn Ho Hb] Hk Hp Hne Hnew Hbound. split; simpl; [done|..].
  - rewrite fmap_app. apply NoDup_app. split_and!; [done| |apply NoDup_singleton].
    intros a Ha Hs. apply list_elem_of_singleton in Hs as ->. done.
  - apply Forall_app. split; [done|]. by apply Forall_singleton.
  - apply Forall_app. split; [|by apply Forall_singleton].
    eapply Forall_impl; [exact Hb|]. intros p Hbp.
    by eapply (bound_peer_grows d _ k k' p p).
Qed.

(** A socket that was just opened for a new peer joins the invariant. *)
Lemma opened_push peer d k k1 k2 l s rx tx :
  DemuxInv d k -> is_u8 peer -> peer <> dx_local_addr d -> peer ∉ peer_addr <$> dx_peers d ->
  uds_phys_id (dx_local_addr d) peer = Some rx -> uds_phys_id peer (dx_local_addr d) = Some tx ->
  k_calls k1 = k_calls k ++ l -> opened (dx_iface d) rx tx (dx_options d) (Ok s) l -> did [] [] k1 k2 ->
  DemuxInv (set_peers (dx_peers d ++ [{| peer_addr := peer; peer_socket := s |}]) d) k2 /\ did [] [] k k2.
Proof.
  intros Hinv Hpeer Hne Hnew Hrx Htx Hl1 Hopen Hd2.
  pose proof (did_before _ _ _ _ _ (opened_did _ _ _ _ _ _ _ _ Hl1 Hopen) Hd2) as Hd02. split; [|done].
  apply inv_push with (k := k); [done|by eapply did_grows|done..|].
  destruct Hopen as ((sos & _ & Hcalls) & Hbuf & _). exists rx, tx. simpl.
  destruct Hd2 as (l2 & Hl2 & _). rewrite Hl2, Hl1, Hcalls, Hbuf, length_replicate.
  split_and!; [done..| |done]. unfold setup_calls. rewrite !elem_of_app. left. right.
  apply elem_of_cons. right. rewrite !elem_of_app. right. right. right. by apply list_elem_of_singleton.
Qed.

Lemma ensure_peer_spec peer d k :
  DemuxInv d k -> is_u8 peer ->
  let same '(d', k') := DemuxInv d' k' /\ did [] [] k k' /\ k_clock k' = k_clock k in
  ends same
    (fun idx w => same w /\ exists p, dx_peers w.1 !! idx = Some p /\ peer_addr p = peer)
    (fun _ => same) (ensure_peer peer (d, k)).
Proof.
  intros Hinv Hpeer same.
  assert (Hsame : forall k', did [] [] k k' -> k_clock k' = k_clock k -> same (d, k')).
  { intros k' Hd Hck. split; [|done]. eapply inv_same; [apply same_demux_refl|by eapply did_grows|done]. }
  unfold ensure_peer. rewrite (bind_ok _ _ _ d (d, k)) by done.
  destruct (Z.eqb_spec peer (dx_local_addr d)) as [|Hne]; [apply Hsame; [apply did_refl|done]|].
  destruct (list_find _ (dx_peers d)) as [[idx p]|] eqn:Hfind.
  { apply list_find_Some in Hfind as (Hp & Ha & _). split; [apply Hsame; [apply did_refl|done]|]. by exists p. }
  assert (Hnew : peer ∉ peer_addr <$> dx_peers d).
  { intros (p & -> & Hp)%list_elem_of_fmap. rewrite list_find_None in Hfind.
    rewrite Forall_forall in Hfind. by apply (Hfind p Hp). }
  destruct (phys_id_some (dx_local_addr d) peer (di_local _ _ Hinv) Hpeer) as (rx & Hrx & _).
  destruct (phys_id_some peer (dx_local_addr d) Hpeer (di_local _ _ Hinv)) as (tx & Htx & _).
  rewrite Hrx, (bind_ok _ _ _ (Extended rx) (d, k)), Htx, (bind_ok _ _ _ (Extended tx) (d, k)) by done.
  pose proof (open_run (dx_iface d) (Extended rx) (Extended tx) (dx_options d) k) as Ho.
  unfold mbind at 1, M_bind at 1, on_field. cbn [fst snd].
  destruct (open _ _ _ _ k) as [r k1]. destruct Ho as (Hck1 & l & Hl1 & Hopen).
  pose proof (opened_did _ _ _ _ _ _ _ _ Hl1 Hopen) as Hd1.
  destruct r as [s|[e| |]|]; try (by apply Hsame); [|done..].
  rewrite (bind_ok _ _ _ k1 (d, k1)) by done.
  pose proof (set_flow_spec (dx_rx_flow_control d) s k1) as Hf.
  destruct (set_rx_flow_control _ (s, k1)) as [[[]|[e| |]|] [s2 k2]]; cbn [ends] in Hf; try done;
    destruct Hf as (-> & Hd2 & Hck2); rewrite Hck1 in Hck2.
  1, 2: split; [by edestruct opened_push as [Hi Hd]; [..|exact (conj Hi (conj Hd Hck2))]|]; eexists; (split; [apply lookup_app_here|done]).
  apply Hsame; [exact (did_before _ _ _ _ _ Hd1 Hd2)|done].
Qed.

Lemma insert_same d idx p s' :
  dx_peers d !! idx = Some p -> same_socket (peer_socket p) s' ->
  same_demux d (set_peers (<[idx := {| peer_addr := peer_addr p; peer_socket := s' |}]> (dx_peers d)) d).
Proof.
  intros Hp Hs. split_and!; [done..|]. simpl. apply Forall2_same_length_lookup_2; [by rewrite length_insert|].
  intros i q q' Hq Hq'. destruct (decide (i = idx)) as [->|Hne].
  - rewrite list_lookup_insert_eq in Hq' by (by eapply lookup_lt_Some). simplify_eq. by split.
  - rewrite list_lookup_insert_ne in Hq' by done. simplify_eq. by split.
Qed.

Lemma set_all_spec n idx fc d k :
  DemuxInv d k -> idx + n <= length (dx_peers d) ->
  let same '(d', k') := DemuxInv d' k' /\ did [] [] k k' in
  ends same (fun _ => same) (fun _ => same) (set_all_flow_control n idx fc (d, k)).
Proof.
  revert idx d k. induction n as [|n IH]; intros idx d k Hinv Hle same.
  { split; [done|apply did_refl]. }
  cbn [set_all_flow_control]. unfold mbind, M_bind, on_peer.
  destruct (lookup_lt_is_Some_2 (dx_peers d) idx ltac:(lia)) as [p Hp]. rewrite Hp.
  pose proof (set_flow_spec fc (peer_socket p) k) as Hf.
  destruct (set_rx_flow_control fc (peer_socket p, k)) as [r [s' k']].
  assert (Hkeep : s' = peer_socket p /\ did [] [] k k' /\ k_clock k' = k_clock k) by (by destruct r as [[]|[]|]).
  destruct Hkeep as (-> & Hd & _).
  pose proof (insert_same d idx p (peer_socket p) Hp (same_socket_refl _)) as Hs.
  set (d1 := set_peers _ d) in *.
  assert (Hinv1 : DemuxInv d1 k') by (eapply inv_same; [done|by eapply did_grows|done]).
  destruct r as [[]|[e| |]|]; try done.
  assert (Hlen : S idx + n <= length (dx_peers d1)) by (simpl; rewrite length_insert; lia).
  pose proof (IH (S idx) d1 k' Hinv1 Hlen) as Hrec. cbv zeta in Hrec.
  eapply ends_weaken; [exact Hrec|..]; simpl.
  - intros [d2 k2] [? Hd2]. split; [done|exact (did_before _ _ _ _ _ Hd Hd2)].
  - intros e [d2 k2] [? Hd2]. split; [done|exact (did_before _ _ _ _ _ Hd Hd2)].
  - intros e [d2 k2] [? Hd2]. split; [done|exact (did_before _ _ _ _ _ Hd Hd2)].
Qed.

Lemma demux_flow_spec fc d k :
  DemuxInv d k ->
  let same '(d', k') := DemuxInv d' k' /\ did [] [] k k' in
  ends same (fun _ => same) (fun _ => same) (demux_set_rx_flow_control fc (d, k)).
Proof.
  intros Hinv same. unfold demux_set_rx_flow_control, mbind, M_bind, modify, gets. cbn [fst].
  apply set_all_spec; [|simpl; lia]. by destruct Hinv; split.
Qed.

(** A send on an existing peer. *)
Lemma demux_send_spec to payload timeout d k :
  DemuxInv d k -> is_u8 to -> clock_fits timeout k ->
  let '(r, (d', k')) := demux_send_to to payload timeout (d, k) in
  DemuxInv d' k' /\ r <> Panic /\ r <> Err OutOfFuel /\
  match r with
  | Ok _ => exists p, p ∈ dx_peers d' /\ peer_addr p = to /\ did [(sock_fd (peer_socket p), payload)] [] k k'
  | _ => did [] [] k k'
  end.
Proof.
  intros Hinv Hto Hc. unfold demux_send_to, mbind, M_bind, map_fails.
  pose proof (ensure_peer_spec to d k Hinv Hto) as He. cbv zeta in He.
  destruct (ensure_peer to (d, k)) as [[idx|[e| |]|] [d1 k1]]; cbn [ends] in He; try done;
    [|destruct He as (? & ? & _); by split_and!..].
  destruct He as [(Hinv1 & Hd1 & Hck) (p & Hp & Ha)]. simpl in Hp.
  assert (Hclock : clock_fits timeout k1) by (unfold clock_fits; by rewrite Hck). unfold on_peer. rewrite Hp.
  pose proof (send_to_spec to payload timeout (peer_socket p) k1 Hclock) as Hs.
  destruct (send_to to payload timeout (peer_socket p, k1)) as [r [s2 k2]].
  destruct Hs as (-> & Hnp & Hnf & Hd2).
  pose proof (insert_same d1 idx p (peer_socket p) Hp (same_socket_refl _)) as Hsame.
  set (d2 := set_peers _ d1) in *. split_and!; [|done..|].
  - eapply inv_same; [done|by eapply did_grows|done].
  - destruct r as [[]|e|]; [|exact (did_before _ _ _ _ _ Hd1 Hd2)..].
    eexists. split_and!; [|exact Ha|exact (did_before _ _ _ _ _ Hd1 Hd2)].
    simpl. destruct p. by eapply elem_of_insert_here.
Qed.

(** ** Receiving *)

Section recv.
Context {U : Type}.
Implicit Types (u : U) (on_payload : u8 -> bytes -> U -> result RecvControl IsoTpError * U).

(** How a receive call may end: nothing was taken and the callback not called,
    or one datagram was taken from the socket of a peer and handled as coming
    from that peer. *)
Definition demux_received on_payload d k u
    (run : result RecvStatus (stop (RecvError IsoTpError)) * (KernelUdsDemux * Kern * U)) : Prop :=
  let '(r, (d', k', u')) := run in
  DemuxInv d' k' /\
  ((did [] [] k k' /\ u' = u /\ r <> Ok StatusDeliveredOne /\ r <> Panic /\ r <> Err OutOfFuel) \/
   exists p dg, p ∈ dx_peers d /\ did [] [(sock_fd (peer_socket p), dg)] k k' /\
     handled (on_payload (peer_addr p)) (peer_socket p) u dg r u').

Lemma demux_received_before on_payload d k k1 u run :
  did [] [] k k1 -> demux_received on_payload d k1 u run -> demux_received on_payload d k u run.
Proof.
  intros Hk. destruct run as [r [[d' k'] u']]. intros [Hi [(Hd & ?)|(p & dg & Hp & Hd & Hh)]]; (split; [done|]).
  - left. split; [exact (did_before _ _ _ _ _ Hk Hd)|done].
  - right. exists p, dg. split_and!; [done|exact (did_before _ _ _ _ _ Hk Hd)|done].
Qed.

Lemma demux_received_none on_payload d k k' u (r : result RecvStatus (stop (RecvError IsoTpError))) :
  DemuxInv d k -> did [] [] k k' -> r <> Ok StatusDeliveredOne -> r <> Panic -> r <> Err OutOfFuel ->
  demux_received on_payload d k u (r, (d, k', u)).
Proof.
  intros Hi Hd. split; [|left; by split_and!].
  eapply inv_same; [apply same_demux_refl|by eapply did_grows|done].
Qed.

Lemma peer_recv_spec on_payload idx p d k u :
  DemuxInv d k -> dx_peers d !! idx = Some p ->
  demux_received on_payload d k u (peer_recv_ready idx (on_payload (peer_addr p)) (d, k, u)).
Proof.
  intros Hinv Hp. unfold peer_recv_ready. rewrite Hp.
  pose proof (recv_one_ready_spec (on_payload (peer_addr p)) (peer_socket p) k u) as Hr.
  destruct (recv_one_ready _ _) as [r [[s' k'] u']]. destruct Hr as [Hs Hr].
  assert (Hg : grows k k') by (destruct Hr as [[Hd _]|(dg & Hd & _)]; by eapply did_grows).
  split; [eapply inv_same; [by eapply insert_same|done..]|].
  destruct Hr as [?|(dg & Hd & Hh)]; [by left|right]. exists p, dg.
  split_and!; [by eapply list_elem_of_lookup_2|done..].
Qed.

Lemma scan_ready_spec on_payload revents idx d k u :
  DemuxInv d k -> idx + length revents <= length (dx_peers d) ->
  demux_received on_payload d k u (scan_ready idx revents on_payload (d, k, u)).
Proof.
  revert idx. induction revents as [|r rest IH]; intros idx Hinv Hle; cbn [scan_ready].
  { by apply demux_received_none; [|apply did_refl|..]. }
  simpl in Hle. destruct (re_ready r).
  - rewrite (bind_ok _ _ _ d (d, k, u)) by done.
    destruct (lookup_lt_is_Some_2 (dx_peers d) idx ltac:(lia)) as [p Hp].
    rewrite Hp, (bind_ok _ _ _ p (d, k, u)) by done. by apply peer_recv_spec.
  - destruct (re_error r); [by apply demux_received_none; [|apply did_refl|..]|].
    apply IH; [done|lia].
Qed.

(** [poll] answers for the descriptors it was given. *)
Lemma poll_fds_spec fds t k :
  ends (waits k) (fun '(l, n) k' => length l = length fds /\ waits k k') (fun _ => waits k)
    (poll_fds fds t k).
Proof.
  unfold poll_fds. rewrite (bind_ok _ _ _ k k) by done.
  eapply ends_bind with (Q := fun l k' => length l = length fds /\ waits k k'); [|done].
  generalize (duration_to_poll_timeout t). intros ms.
  assert (Hgen : forall answers k0, waits k k0 ->
    ends (waits k) (fun l k' => length l = length fds /\ waits k k') (fun _ => waits k)
      (poll_loop answers fds POLLIN ms k0)).
  { induction answers as [|a r IH]; intros k0 Hk0; cbn [poll_loop].
    - eapply waits_trans; [done|]. split_and!; [by exists [CallPoll fds POLLIN ms]|done..].
    - assert (Hw : waits k (set_polls r (called (CallPoll fds POLLIN ms) k0))).
      { eapply waits_trans; [done|]. split_and!; [by exists [CallPoll fds POLLIN ms]|done..]. }
      destruct a as [l|[]]; simpl; try done; [|by apply IH].
      split; [|done]. unfold revents_of. rewrite length_take, length_app, length_replicate. lia. }
  apply Hgen, waits_refl.
Qed.

(** The peer whose socket [poll] reports first, unless an error comes before. *)
Fixpoint first_ready (l : list Revents) : option nat :=
  match l with
  | [] => None
  | r :: l => if re_ready r then Some 0 else if re_error r then None else S <$> first_ready l
  end.

Lemma scan_ready_first on_payload l i idx p d k u :
  first_ready l = Some i -> dx_peers d !! (idx + i) = Some p ->
  scan_ready idx l on_payload (d, k, u) = peer_recv_ready (idx + i) (on_payload (peer_addr p)) (d, k, u).
Proof.
  revert idx i. induction l as [|r l IH]; intros idx i; [done|]. cbn [first_ready scan_ready].
  destruct (re_ready r).
  - intros [= <-]. rewrite Nat.add_0_r. intros Hp. rewrite (bind_ok _ _ _ d (d, k, u)) by done.
    by rewrite Hp, (bind_ok _ _ _ p (d, k, u)) by done.
  - destruct (re_error r); [done|]. destruct (first_ready l) as [i'|]; [|done].
    intros [= <-] Hp. rewrite (IH (S idx) i'); [by rewrite Nat.add_succ_comm|done|by rewrite Nat.add_succ_comm].
Qed.

Lemma poll_loop_interrupted n l rest fds ms k :
  exists k', poll_loop (replicate n (PollErr EInterrupted) ++ Polled l :: rest) fds POLLIN ms k =
      (Ok (revents_of (length fds) l), k') /\ did [] [] k k' /\ k_recvs k' = k_recvs k.
Proof.
  revert k. induction n as [|n IH]; intros k; cbn [poll_loop replicate app].
  - eexists. split_and!; [done|by exists [CallPoll fds POLLIN ms]|done].
  - destruct (IH (set_polls (replicate n (PollErr EInterrupted) ++ Polled l :: rest)
                    (called (CallPoll fds POLLIN ms) k))) as (k' & -> & Hd & Hr).
    exists k'. split_and!; [done| |by rewrite Hr]. eapply did_before; [|exact Hd].
    by exists [CallPoll fds POLLIN ms].
Qed.

Lemma first_ready_count l i : first_ready l = Some i -> poll_count l <> 0.
Proof.
  unfold poll_count. revert i. induction l as [|r l IH]; intros i; [done|]. cbn [first_ready].
  rewrite filter_cons. case_decide as Hd; [done|].
  apply not_true_iff_false, orb_false_iff in Hd as [-> ->].
  destruct (first_ready l); [|done]. intros _. by eapply IH.
Qed.

(** Interrupted polls are repeated; then the first ready peer is served. *)
Lemma demux_recv_first timeout on_payload d k u n l rest i p dg recvs :
  k_polls k = replicate n (PollErr EInterrupted) ++ Polled l :: rest ->
  first_ready (revents_of (length (dx_peers d)) l) = Some i -> dx_peers d !! i = Some p ->
  k_recvs k = Datagram dg :: recvs ->
  exists r d' k' u', demux_recv_one timeout on_payload (d, k, u) = (r, (d', k', u')) /\
    did [] [(sock_fd (peer_socket p), dg)] k k' /\
    handled (on_payload (peer_addr p)) (peer_socket p) u dg r u'.
Proof.
  intros Hpoll Hi Hp Hrecv. unfold demux_recv_one. rewrite (bind_ok _ _ _ d (d, k, u)) by done.
  destruct (dx_peers d) as [|p0 ps] eqn:Hps; [done|]. rewrite <- Hps in *.
  set (fds := map (fun p => sock_fd (peer_socket p)) (dx_peers d)).
  assert (Hlen : length fds = length (dx_peers d)) by apply length_map.
  unfold poll_fds, mbind, M_bind, map_fails, on_field, get. cbn [fst snd]. rewrite Hpoll.
  destruct (poll_loop_interrupted n l rest fds (duration_to_poll_timeout timeout) k) as (k1 & -> & Hd1 & Hk1).
  unfold mret, M_ret. cbv beta iota. cbn [fst snd]. rewrite Hlen.
  destruct (Nat.eqb_spec (poll_count (revents_of (length (dx_peers d)) l)) 0) as [Hz|_].
  { by destruct (first_ready_count _ _ Hi). }
  rewrite (scan_ready_first _ _ i 0 p) by done. unfold peer_recv_ready. simpl. rewrite Hp.
  destruct (recv_one_ready_datagram (on_payload (peer_addr p)) (peer_socket p) k1 u dg recvs)
    as (r & s' & k' & u' & -> & Hd & Hh); [congruence|].
  eexists _, _, _, _. split_and!; [done|exact (did_before _ _ _ _ _ Hd1 Hd)|done].
Qed.

Lemma demux_recv_spec timeout on_payload d k u :
  DemuxInv d k -> demux_received on_payload d k u (demux_recv_one timeout on_payload (d, k, u)).
Proof.
  intros Hinv. unfold demux_recv_one. rewrite (bind_ok _ _ _ d (d, k, u)) by done.
  destruct (dx_peers d) as [|p0 ps] eqn:Hps.
  { apply demux_received_none; [done|by exists [CallSleep timeout]|done..]. }
  rewrite <- Hps. set (fds := map (fun p => sock_fd (peer_socket p)) (dx_peers d)).
  unfold mbind, M_bind, map_fails, on_field. cbn [fst snd].
  pose proof (poll_fds_spec fds timeout k) as Hp.
  destruct (poll_fds fds timeout k) as [[[l n]|[e| |]|] k1]; cbn [ends] in Hp; try done.
  - destruct Hp as [Hl (Hd & _)]. case_bool; [by apply demux_received_none|].
    eapply demux_received_before; [exact Hd|]. apply scan_ready_spec.
    + eapply inv_same; [apply same_demux_refl|by eapply did_grows|done].
    + rewrite Hl. unfold fds. rewrite length_map. lia.
  - destruct Hp as (Hd & _). by apply demux_received_none.
  - destruct Hp as (Hd & _). by apply demux_received_none.
Qed.
End recv.
End demux.

(** * Any sequence of calls *)

Section steps.
Context {SId EId : Type} `{EmbeddedCan SId EId} `{!ExtendedIdRange SId EId} `{HU : Uds29Laws} {U : Type}.
Abbreviation Kern := (Kernel (SId := SId) (EId := EId)).
Implicit Types (k : Kern) (d : KernelUdsDemux) (u : U).
Abbreviation State := (KernelUdsDemux * Kern * U)%type.

(** One call on the demultiplexer, whatever it returns; between the calls the
    world goes on and the scripts change. *)
Inductive demux_step : State -> State -> Prop :=
| step_world d k k' u : k_calls k' = k_calls k -> demux_step (d, k, u) (d, k', u)
| step_register peer d k u r d' k' :
    is_u8 peer -> register_peer peer (d, k) = (r, (d', k')) -> demux_step (d, k, u) (d', k', u)
| step_send to payload timeout d k u r d' k' :
    is_u8 to -> clock_fits timeout k ->
    demux_send_to to payload timeout (d, k) = (r, (d', k')) -> demux_step (d, k, u) (d', k', u)
| step_functional to payload timeout d k u r d' k' :
    demux_send_functional_to to payload timeout (d, k) = (r, (d', k')) -> demux_step (d, k, u) (d', k', u)
| step_flow fc d k u r d' k' :
    demux_set_rx_flow_control fc (d, k) = (r, (d', k')) -> demux_step (d, k, u) (d', k', u)
| step_recv timeout on_payload d k u r d' k' u' :
    demux_recv_one timeout on_payload (d, k, u) = (r, (d', k', u')) ->
    demux_step (d, k, u) (d', k', u').

Lemma ends_any {S E A} (P : S -> Prop) (r : result A (stop E)) w :
  ends P (fun _ => P) (fun _ => P) (r, w) -> P w.
Proof. by destruct r as [a|[e| |]|]. Qed.

Lemma register_spec peer d k :
  DemuxInv d k -> is_u8 peer ->
  let inv '(d', k') := DemuxInv (SId := SId) (EId := EId) d' k' in
  ends inv (fun _ => inv) (fun _ => inv) (register_peer peer (d, k)).
Proof.
  intros Hinv Hp inv. eapply ends_bind with (Q := fun _ => inv); [|done].
  eapply ends_weaken; [by apply ensure_peer_spec|..].
  - by intros [d' k'] [? _].
  - by intros e [d' k'] [? _].
  - by intros idx [d' k'] [[? _] _].
Qed.

Lemma demux_step_inv d k u d' k' u' :
  DemuxInv d k -> demux_step (d, k, u) (d', k', u') -> DemuxInv d' k'.
Proof.
  intros Hinv Hstep. inversion Hstep; subst; clear Hstep.
  - eapply inv_same; [apply same_demux_refl| |done]. exists []. by rewrite app_nil_r.
  - pose proof (register_spec peer d k Hinv ltac:(done)) as Hs. cbv zeta in Hs.
    match goal with Hr : register_peer _ _ = _ |- _ => rewrite Hr in Hs end. by apply ends_any in Hs.
  - pose proof (demux_send_spec to payload timeout d k Hinv ltac:(done) ltac:(done)) as Hs.
    match goal with Hr : demux_send_to _ _ _ _ = _ |- _ => rewrite Hr in Hs end. apply Hs.
  - match goal with Hr : demux_send_functional_to _ _ _ _ = _ |- _ => by injection Hr as _ <- <- end.
  - pose proof (demux_flow_spec fc d k Hinv) as Hs. cbv zeta in Hs.
    match goal with Hr : demux_set_rx_flow_control _ _ = _ |- _ => rewrite Hr in Hs end.
    apply ends_any in Hs. apply Hs.
  - pose proof (demux_recv_spec timeout on_payload d k u Hinv) as Hs.
    match goal with Hr : demux_recv_one _ _ _ = _ |- _ => rewrite Hr in Hs end. apply Hs.
Qed.

Lemma demux_new_inv iface local options k : is_u8 local -> DemuxInv (demux_new iface local options) k.
Proof. intros Hl. split; simpl; [done|constructor..]. Qed.

(** C36. The demultiplexer under any sequence of calls, however each of them
    ended: no two sockets serve the same peer address, none serves the local
    address, and the socket of a peer was bound to the pair of 29-bit
    identifiers that receives from and sends to that peer, with a receive
    buffer of [max_rx_payload] bytes. *)
Theorem demux_invariant iface local options k0 u0 d k u :
  is_u8 local -> rtc demux_step (demux_new iface local options, k0, u0) (d, k, u) -> DemuxInv d k.
Proof.
  intros Hl Hsteps. pose proof (demux_new_inv iface local options k0 Hl) as Hinv.
  remember (demux_new iface local options, k0, u0) as st eqn:Hst. remember (d, k, u) as st' eqn:Hst'.
  revert d k u Hst'. enough (Hgen : forall d0 k0 u0, st = (d0, k0, u0) -> DemuxInv d0 k0 ->
    forall d k u, st' = (d, k, u) -> DemuxInv d k) by (intros; by eapply Hgen).
  clear Hst Hinv. induction Hsteps as [st|st [[d1 k1] u1] st' Hstep _ IH];
    intros d0 k0' u0' -> Hinv d k u Heq; [by injection Heq as <- <- <-|].
  eapply IH; [done| |done]. by eapply demux_step_inv.
Qed.

(** C37. The demultiplexer routes by address: a send that returns [Ok] handed
    the payload once to the socket of that peer (opened on first use) and a
    send that did not handed over nothing; a receive call takes at most one
    datagram, and the callback is called with the address of the peer whose
    socket it was taken from.  Neither panics of itself.  When [poll] reports a
    peer's socket first and it has a datagram, that datagram is delivered. *)
Theorem demux_routes to payload timeout on_payload d k u :
  DemuxInv d k -> is_u8 to -> clock_fits timeout k ->
  (let '(r, (d', k')) := demux_send_to to payload timeout (d, k) in
   r <> Panic /\ r <> Err OutOfFuel /\
   match r with
   | Ok _ => exists p, p ∈ dx_peers d' /\ peer_addr p = to /\ did [(sock_fd (peer_socket p), payload)] [] k k'
   | _ => did [] [] k k'
   end) /\
  demux_received on_payload d k u (demux_recv_one timeout on_payload (d, k, u)) /\
  (forall n l rest i p dg recvs,
     k_polls k = replicate n (PollErr EInterrupted) ++ Polled l :: rest ->
     first_ready (revents_of (length (dx_peers d)) l) = Some i -> dx_peers d !! i = Some p ->
     k_recvs k = Datagram dg :: recvs ->
     exists r d' k' u', demux_recv_one timeout on_payload (d, k, u) = (r, (d', k', u')) /\
       did [] [(sock_fd (peer_socket p), dg)] k k' /\
       handled (on_payload (peer_addr p)) (peer_socket p) u dg r u').
Proof.
  intros Hinv Hto Hc. split; [|split; [by apply demux_recv_spec|intros; by eapply demux_recv_first]].
  pose proof (demux_send_spec to payload timeout d k Hinv Hto Hc) as Hs.
  destruct (demux_send_to to payload timeout (d, k)) as [r [d' k']]. apply Hs.
Qed.
End steps.

(** * Concrete runs *)

Definition Sid := { i : StdId | bool_decide (0 <= std_raw i < 2048)%Z }.
Definition Eid := { i : ExtId | bool_decide (0 <= ext_raw i < 536870912)%Z }.
Global Instance RawIds_range : ExtendedIdRange Sid Eid.
Proof.
  intros raw Hr. unfold in_width in Hr. change (2 ^ 29)%Z with 536870912%Z in Hr. simpl.
  destruct (decide _) as [Hd|Hd]; [by eexists|]. rewrite bool_decide_spec in Hd. lia.
Qed.
Global Instance PlainUds29 : Uds29 := fun target source => (416940032 + target * 256 + source)%Z.
Global Instance PlainUds29_laws : Uds29Laws.
Proof. done. Qed.

Definition demo_kernel : Kernel (SId := Sid) (EId := Eid) :=
  {| k_clock := [0; 5; 9]%Z; k_sockets := [inl 7%Z]; k_units := replicate 8 None;
     k_sends := [Some EInterrupted; Some EWouldBlock; None]; k_recvs := [Datagram [1; 2; 3]%Z];
     k_polls := [PollErr EInterrupted; Polled [{| re_ready := true; re_error := false |}];
                 Polled [{| re_ready := true; re_error := false |}]];
     k_awaits := [IoReady; IoReady]; k_calls := [] |}.
Definition demo_socket : SocketCanIsoTp := {| sock_fd := 7; rx_buf := replicate 8 0%Z; wft_max := 0 |}.
Definition demo_options : IsoTpKernelOptions :=
  {| max_rx_payload := 8; opt_socket := IsoTpSocketOptions_default;
     flow_control := Some (IsoTpFlowControlOptions_new 4 241 2); link_layer := None;
     force_tx_stmin := None; force_rx_stmin := None |}.
Definition demo_demux : KernelUdsDemux := demux_new "can0" 16 demo_options.
Definition keep_payload (from : u8) (payload : bytes) (u : list (u8 * bytes)) :
    result RecvControl IsoTpError * list (u8 * bytes) := (Ok ControlStop, u ++ [(from, payload)]).

Lemma demo_clock : clock_fits 100 demo_kernel.
Proof. repeat constructor; vm_compute; done. Qed.

(** The socket of the peer is opened on first use, and a datagram on it is
    delivered as coming from that peer. *)
Example demo_demux_send_recv :
  let '(r, (d, k)) := demux_send_to 32 [9; 9]%Z 100 (demo_demux, demo_kernel) in
  let '(r2, (d2, k2, u)) := demux_recv_one 100 keep_payload (d, k, []) in
  r = Ok tt /\ r2 = Ok StatusDeliveredOne /\ u = [(32, [1; 2; 3])]%Z.
Proof. vm_compute. done. Qed.

(** A socket that stays full until the deadline: [send] would block each time. *)
Definition full_kernel : Kernel (SId := Sid) (EId := Eid) :=
  {| k_clock := [0; 40; 100]%Z; k_sockets := []; k_units := [];
     k_sends := [Some EWouldBlock; Some EInterrupted; Some EWouldBlock]; k_recvs := [];
     k_polls := [PollErr EInterrupted; Polled [{| re_ready := true; re_error := false |}]];
     k_awaits := [IoReady; TimerElapsed]; k_calls := [] |}.
Example full_send_times_out :
  (send_to 32 [9; 9]%Z 100 (demo_socket, full_kernel)).1 = Err (Fails SendTimeout) /\
  (tokio_send_to 32 [9; 9]%Z (demo_socket, full_kernel)).1 = Err (Fails SendTimeout).
Proof. vm_compute. done. Qed.

Lemma isotp_send_once_witness :
  sent_once [9; 9]%Z demo_socket full_kernel (send_to 32 [9; 9]%Z 100 (demo_socket, full_kernel)) /\
  answers_until 100 full_kernel /\ returns (send_to 32 [9; 9]%Z 100 (demo_socket, full_kernel)) /\
  timer_strikes full_kernel /\ returns (tokio_send_to 32 [9; 9]%Z (demo_socket, full_kernel)).
Proof.
  assert (Hc : clock_fits 100 full_kernel) by (repeat constructor; vm_compute; done).
  assert (Ha : answers_until 100 full_kernel).
  { exists 0%Z, [40]%Z, 100%Z, []. split; [reflexivity|]. split; [lia|]. vm_compute. lia. }
  assert (Ht : timer_strikes full_kernel).
  { exists [IoReady], []. split; [reflexivity|]. vm_compute. lia. }
  destruct (isotp_send_once 32 [9; 9]%Z 100 demo_socket full_kernel Hc) as ((Hs & _) & Hr & Htr).
  exact (conj Hs (conj Ha (conj (proj1 (Hr Ha)) (conj Ht (Htr Ht))))).
Defined.

Lemma isotp_recv_once_witness :
  clock_fits 100 demo_kernel /\
  received_one (keep_payload 0) demo_socket demo_kernel [] (recv_one 100 keep_payload (demo_socket, demo_kernel, [])).
Proof.
  split; [exact demo_clock|].
  exact (proj1 (isotp_recv_once keep_payload 100 demo_socket demo_kernel [] demo_clock)).
Defined.

Definition demo_registered := register_peer 32 (demo_demux, demo_kernel).

Lemma demo_registered_run :
  register_peer 32 (demo_demux, demo_kernel) =
    (demo_registered.1, (demo_registered.2.1, demo_registered.2.2)).
Proof. unfold demo_registered. by destruct (register_peer 32 (demo_demux, demo_kernel)) as [r [d k]]. Qed.

Lemma demo_registered_ok : demo_registered.1 = Ok tt /\ length (dx_peers demo_registered.2.1) = 1.
Proof. split; vm_compute; reflexivity. Qed.

Lemma demo_local_u8 : is_u8 16 /\ is_u8 32.
Proof. split; split; lia. Qed.

Lemma demo_registered_reach :
  rtc demux_step (demux_new "can0" 16 demo_options, demo_kernel, tt)
    (demo_registered.2.1, demo_registered.2.2, tt).
Proof.
  eapply rtc_l; [|apply rtc_refl].
  exact (step_register 32 _ _ tt demo_registered.1 _ _ (proj2 demo_local_u8) demo_registered_run).
Qed.

Lemma demux_invariant_witness :
  demo_registered.1 = Ok tt /\ length (dx_peers demo_registered.2.1) = 1 /\
  DemuxInv demo_registered.2.1 demo_registered.2.2.
Proof.
  destruct demo_registered_ok as [Hok Hlen]. split; [exact Hok|]. split; [exact Hlen|].
  exact (demux_invariant "can0" 16 demo_options demo_kernel tt demo_registered.2.1 demo_registered.2.2 tt
    (proj1 demo_local_u8) demo_registered_reach).
Defined.

Lemma demux_routes_witness :
  is_u8 32 /\ demux_received keep_payload demo_demux demo_kernel []
    (demux_recv_one 100 keep_payload (demo_demux, demo_kernel, [])).
Proof.
  split; [exact (proj2 demo_local_u8)|].
  exact (proj1 (proj2 (demux_routes 32 [9; 9]%Z 100 keep_payload demo_demux demo_kernel []
    (demux_new_inv "can0" 16 demo_options demo_kernel (proj1 demo_local_u8)) (proj2 demo_local_u8) demo_clock))).
Defined.

(** The blocking and the callback receive cut a datagram that is longer than
    [max_rx_payload] and report a delivery; [recv_one_into] reports it. *)
Example recv_one_cuts_datagram :
  let s := {| sock_fd := 7; rx_buf := [0; 0]%Z; wft_max := 0 |} in
  let '(r, (_, _, u)) := recv_one 100 keep_payload (s, demo_kernel, []) in
  let '(r2, _) := tokio_recv_one_into 7 (demo_kernel, [0; 0]%Z) in
  r = Ok StatusDeliveredOne /\ u = [(0, [1; 2])]%Z /\ r2 = Err (Fails (RecvBufferTooSmall 3 2)).
Proof. vm_compute. done. Qed.

(** A separation time below a millisecond that is not a multiple of 100 us is
    sent as no separation at all. *)
Example stmin_below_millisecond :
  duration_to_isotp_stmin (from_micros 950) = 0%Z /\ duration_to_isotp_stmin (from_micros 900) = 249%Z.
Proof. done. Qed.
