(* ===== verification/NonLinux.v ===== *)
(** * The kernel socket adapter on other platforms

    Models [linux-socketcan-iso-tp/src/non_linux.rs], the stubs that take the
    place of the kernel ISO-TP sockets where there are none, and the same file of
    [embedded-can-socketcan].  The stubs satisfy
    the contracts of the ISO-TP traits, so the theorems of [Interface] hold over
    them; the lemmas here say what an application sees: every call fails
    with an error, and nothing is queued. *)
From stdpp Require Import strings.
From S2P Require Import Prelude Script Wire Maplet Mailbox Interface UnixWire IsoTpKernel.

(** * The types *)

(** [Error], a unit struct. *)
Inductive Unsupported := UnsupportedError.
Definition error_message (e : Unsupported) : string :=
  "linux-socketcan-iso-tp is only supported on Linux targets".

(** The options have the fields of the Linux ones. *)
Record IsoTpSocketOptions := {
  flags : u32;
  frame_txtime : option Duration;
  ext_address : option u8;
  tx_padding : option u8;
  rx_padding : option u8;
  rx_ext_address : option u8;
}.
Definition IsoTpSocketOptions_default : IsoTpSocketOptions :=
  {| flags := 0; frame_txtime := None; ext_address := None; tx_padding := None; rx_padding := None;
     rx_ext_address := None |}.
Record IsoTpFlowControlOptions := { block_size : u8; st_min : u8; wft_max : u8 }.
Definition IsoTpFlowControlOptions_new (block_size st_min wft_max : u8) : IsoTpFlowControlOptions :=
  {| block_size := block_size; st_min := st_min; wft_max := wft_max |}.
Record IsoTpLinkLayerOptions := { mtu : u8; tx_dl : u8; tx_flags : u8 }.
Definition IsoTpLinkLayerOptions_new (mtu tx_dl tx_flags : u8) : IsoTpLinkLayerOptions :=
  {| mtu := mtu; tx_dl := tx_dl; tx_flags := tx_flags |}.
Record IsoTpKernelOptions := {
  max_rx_payload : nat;
  socket : IsoTpSocketOptions;
  flow_control : option IsoTpFlowControlOptions;
  link_layer : option IsoTpLinkLayerOptions;
  force_tx_stmin : option Duration;
  force_rx_stmin : option Duration;
}.
Definition IsoTpKernelOptions_default : IsoTpKernelOptions :=
  {| max_rx_payload := 4095; socket := IsoTpSocketOptions_default; flow_control := None; link_layer := None;
     force_tx_stmin := None; force_rx_stmin := None |}.

(** The constants of [mod flags]. *)
Definition CAN_ISOTP_LISTEN_MODE : u32 := 1.
Definition CAN_ISOTP_EXTEND_ADDR : u32 := 2.
Definition CAN_ISOTP_TX_PADDING : u32 := 4.
Definition CAN_ISOTP_RX_PADDING : u32 := 8.
Definition CAN_ISOTP_CHK_PAD_LEN : u32 := 16.
Definition CAN_ISOTP_CHK_PAD_DATA : u32 := 32.
Definition CAN_ISOTP_HALF_DUPLEX : u32 := 64.
Definition CAN_ISOTP_FORCE_TXSTMIN : u32 := 128.
Definition CAN_ISOTP_FORCE_RXSTMIN : u32 := 256.
Definition CAN_ISOTP_RX_EXT_ADDR : u32 := 512.
Definition CAN_ISOTP_WAIT_TX_DONE : u32 := 1024.
Definition CAN_ISOTP_SF_BROADCAST : u32 := 2048.
Definition CAN_ISOTP_CF_BROADCAST : u32 := 4096.
Definition CAN_ISOTP_DYN_FC_PARMS : u32 := 8192.

(** * The endpoints *)

(** [SocketCanIsoTp] and [TokioSocketCanIsoTp]. *)
Inductive SocketCanIsoTp := SocketCanStub.
Inductive TokioSocketCanIsoTp := TokioSocketCanStub.
Definition open {CanId} (iface : string) (rx_id tx_id : CanId) (options : IsoTpKernelOptions) :
    result SocketCanIsoTp Unsupported := Err UnsupportedError.
Definition tokio_open {CanId} (iface : string) (rx_id tx_id : CanId) (options : IsoTpKernelOptions) :
    result TokioSocketCanIsoTp Unsupported := Err UnsupportedError.

#[global] Instance SocketCanIsoTp_endpoint : IsoTpEndpoint SocketCanIsoTp Unsupported := {
  node_send_to _ _ _ := fail (SendBackend UnsupportedError);
  node_send_functional_to _ _ _ := fail (SendBackend UnsupportedError);
}.
Definition recv_one {S} (timeout : Duration) (on_payload : u8 -> bytes -> S -> result RecvControl Unsupported * S) :
    M (SocketCanIsoTp * S) (RecvError Unsupported) RecvStatus := fail (RecvBackend UnsupportedError).
Definition set_rx_flow_control (fc : IsoTpKernel.RxFlowControl) : M SocketCanIsoTp Unsupported unit :=
  fail UnsupportedError.

#[global] Instance TokioSocketCanIsoTp_endpoint : IsoTpEndpoint TokioSocketCanIsoTp Unsupported := {
  node_send_to _ _ _ := fail (SendBackend UnsupportedError);
  node_send_functional_to _ _ _ := fail (SendBackend UnsupportedError);
}.
Definition tokio_recv_one {S} (timeout : Duration)
    (on_payload : u8 -> bytes -> S -> result RecvControl Unsupported * S) :
    M (TokioSocketCanIsoTp * S) (RecvError Unsupported) RecvStatus := fail (RecvBackend UnsupportedError).
#[global] Instance TokioSocketCanIsoTp_recv_into : IsoTpRecvInto TokioSocketCanIsoTp Unsupported := {
  node_recv_one_into _ out n := (Err (RecvBackend UnsupportedError), n, out);
}.
Definition tokio_set_rx_flow_control (fc : IsoTpKernel.RxFlowControl) : M TokioSocketCanIsoTp Unsupported unit :=
  fail UnsupportedError.

(** [KernelUdsDemux]. *)
Record KernelUdsDemux := { local_addr : u8; demux_options : IsoTpKernelOptions }.
Definition KernelUdsDemux_new (iface : string) (local_addr : u8) (options : IsoTpKernelOptions) : KernelUdsDemux :=
  {| local_addr := local_addr; demux_options := options |}.
Definition register_peer (peer : u8) : M KernelUdsDemux Unsupported unit := fail UnsupportedError.
#[global] Instance KernelUdsDemux_endpoint : IsoTpEndpoint KernelUdsDemux Unsupported := {
  node_send_to _ _ _ := fail (SendBackend UnsupportedError);
  node_send_functional_to _ _ _ := fail (SendBackend UnsupportedError);
}.
Definition demux_recv_one {S} (timeout : Duration)
    (on_payload : u8 -> bytes -> S -> result RecvControl Unsupported * S) :
    M (KernelUdsDemux * S) (RecvError Unsupported) RecvStatus := fail (RecvBackend UnsupportedError).
Definition demux_set_rx_flow_control (fc : IsoTpKernel.RxFlowControl) : M KernelUdsDemux Unsupported unit :=
  fail UnsupportedError.

(** * SocketCAN adapters *)

(** [embedded-can-socketcan/src/non_linux.rs]. *)
Inductive UnsupportedPlatformError := UnsupportedPlatform.
Definition platform_error_message (e : UnsupportedPlatformError) : string :=
  "embedded-can-socketcan is only supported on Linux targets".
Inductive SocketCanAdapter := SocketCan | SocketCanFd.
Definition socketcan_open (adapter : SocketCanAdapter) (iface : string) :
    result SocketCanAdapter UnsupportedPlatformError := Err UnsupportedPlatform.

(** * What an application sees *)

(** The stub keeps the contract of the trait. *)
#[global] Instance TokioSocketCanIsoTp_recv_laws : IsoTpRecvIntoLaws TokioSocketCanIsoTp Unsupported.
Proof. by split. Qed.

(** The same options mean the same on both platforms. *)
Definition to_linux (o : IsoTpKernelOptions) : IsoTpKernel.IsoTpKernelOptions :=
  {| IsoTpKernel.max_rx_payload := max_rx_payload o;
     IsoTpKernel.opt_socket :=
       {| opt_flags := flags (socket o); opt_frame_txtime := frame_txtime (socket o);
          opt_ext_address := ext_address (socket o); opt_tx_padding := tx_padding (socket o);
          opt_rx_padding := rx_padding (socket o); opt_rx_ext_address := rx_ext_address (socket o) |};
     IsoTpKernel.flow_control :=
       option_map (fun f => IsoTpKernel.IsoTpFlowControlOptions_new (block_size f) (st_min f) (wft_max f)) (flow_control o);
     IsoTpKernel.link_layer :=
       option_map (fun l => IsoTpKernel.IsoTpLinkLayerOptions_new (mtu l) (tx_dl l) (tx_flags l)) (link_layer o);
     IsoTpKernel.force_tx_stmin := force_tx_stmin o; IsoTpKernel.force_rx_stmin := force_rx_stmin o |}.
Example defaults_agree : to_linux IsoTpKernelOptions_default = IsoTpKernel.IsoTpKernelOptions_default.
Proof. reflexivity. Qed.

(** An application whose interface has the stub for a transport: a send fails with [Other]
    once the value is encoded, the pump fails with the transport's error, and
    the mailboxes and watches stay as they are. *)
Section application.
Context {W R : Type} `{WatchOps W R} (MESSAGE_IDS : list u16) (DEPTH MAX_BODY : nat).

Lemma stub_send {V} `{EncodeCapnp V} ID to (value : V) timeout (i : Interface TokioSocketCanIsoTp W) :
  let '(r, i') := send_capnp_to_async ID to value timeout i in
  r = match (encode_capnp_into_buf ID value (tx (tx_state i))).1 with
      | Ok _ => Err other_error
      | Err e => Err e
      | Panic => Panic
      end /\ rx_state i' = rx_state i /\ notify i' = notify i.
Proof.
  unfold send_capnp_to_async, tx_send_capnp, on_field, catch. unfold_M.
  by destruct (encode_capnp_into_buf ID value (tx (tx_state i))) as [[p|e|] buf].
Qed.

Lemma stub_pump timeout rx_buf (i : Interface TokioSocketCanIsoTp W) :
  pump_ingest_once MESSAGE_IDS DEPTH MAX_BODY timeout rx_buf i = (Err (PumpRecvBackend UnsupportedError), i, rx_buf).
Proof. unfold pump_ingest_once. simpl. by destruct i. Qed.
End application.
