(* ===== verification/SocketCan.v ===== *)
(** * SocketCAN adapters

    Models [embedded-can/embedded-can-socketcan/src/linux.rs] and
    [tokio_impl.rs]: the adapters [SocketCan] and [SocketCanFd] and their tokio
    versions, as implementations of the traits of [embedded_can_interface].
    The sockets of the [socketcan] crate are a class of operations with the
    laws the adapters rely on: what a socket does when it is non-blocking, its
    write timeout and its filters.  The theorems cover the blocking mode and
    the timeout the adapters leave behind, which frames the installed filters
    pass, and the error frames they turn into errors. *)
From stdpp Require Import strings.
From S2P Require Import Prelude Script UnixWire UnixServer.

(** * Traits of [embedded_can_interface] *)

Class TxFrameIo (Self Frame Error : Type) := {
  tx_send : Frame -> M Self (stop Error) unit;
  tx_try_send : Frame -> M Self (stop Error) unit;
  tx_send_timeout : Frame -> Duration -> M Self (stop Error) unit;
}.
Class RxFrameIo (Self Frame Error : Type) := {
  rx_recv : M Self (stop Error) Frame;
  rx_try_recv : M Self (stop Error) Frame;
  rx_recv_timeout : Duration -> M Self (stop Error) Frame;
  rx_wait_not_empty : M Self (stop Error) unit;
}.
Class AsyncTxFrameIo (Self Frame Error : Type) := {
  atx_send : Frame -> M Self (stop Error) unit;
  atx_send_timeout : Frame -> Duration -> M Self (stop Error) unit;
}.
Class AsyncRxFrameIo (Self Frame Error : Type) := {
  arx_recv : M Self (stop Error) Frame;
  arx_recv_timeout : Duration -> M Self (stop Error) Frame;
  arx_wait_not_empty : M Self (stop Error) unit;
}.
Class BlockingControl (Self Error : Type) := {
  bc_set_nonblocking : bool -> M Self (stop Error) unit;
}.
Class FilterConfig (Filter Self Error : Type) := {
  fc_set_filters : list Filter -> M Self (stop Error) unit;
}.

(** * The [socketcan] crate *)

Record CanFilter := { cf_id : u32; cf_mask : u32 }.

(** Calls on a socket.  [poll_answers] is what [libc::poll] on its descriptor
    answers, call by call: ready, or an error. *)
Class CanSocketOps (Sock Frame : Type) := {
  nonblocking : M Sock (stop OsError) bool;
  set_nonblocking : bool -> M Sock (stop OsError) unit;
  write_timeout : M Sock (stop OsError) (option Duration);
  set_write_timeout : option Duration -> M Sock (stop OsError) unit;
  write_frame : Frame -> M Sock (stop OsError) unit;
  write_frame_insist : Frame -> M Sock (stop OsError) unit;
  read_frame : M Sock (stop OsError) Frame;
  read_frame_timeout : Duration -> M Sock (stop OsError) Frame;
  set_filter_accept_all : M Sock (stop OsError) unit;
  set_socket_filters : list CanFilter -> M Sock (stop OsError) unit;
  poll_answers : Sock -> list (option OsError);
}.
Global Hint Mode CanSocketOps ! - : typeclass_instances.

(** The frames of the crate and its [CanError]. *)
Inductive CanFrame (D R X : Type) := DataFrame (d : D) | RemoteFrame (r : R) | ErrorFrame (x : X).
Arguments DataFrame {D R X} d.
Arguments RemoteFrame {D R X} r.
Arguments ErrorFrame {D R X} x.
Inductive CanAnyFrame (D R F X : Type) :=
| AnyNormal (d : D) | AnyRemote (r : R) | AnyFd (f : F) | AnyError (x : X).
Arguments AnyNormal {D R F X} d.
Arguments AnyRemote {D R F X} r.
Arguments AnyFd {D R F X} f.
Arguments AnyError {D R F X} x.

(** [socketcan::Error]; [InvalidInput] is an [Io] error of that kind, made by
    the adapter. *)
Inductive SocketcanError (CE : Type) := CanErr (e : CE) | SockIo (e : OsError) | InvalidInput (msg : string).
Arguments CanErr {CE} e.
Arguments SockIo {CE} e.
Arguments InvalidInput {CE} msg.

(** * The adapters *)

(** [SocketCan] and [SocketCanFd]: a socket and the cached mode. *)
Record SocketCan (Sock : Type) := { inner : Sock; cached_nonblocking : bool }.
Arguments inner {Sock} _.
Arguments cached_nonblocking {Sock} _.
Arguments Build_SocketCan {Sock} _ _.

Section helpers.
Context {Sock Frame CE : Type} `{CanSocketOps Sock Frame}.
Abbreviation Error := (SocketcanError CE).

(** A call on [&mut self.inner], its error converted. *)
Definition on_inner {A} (m : M Sock (stop OsError) A) : M (SocketCan Sock) (stop Error) A :=
  map_fails SockIo (on_field inner (fun s a => {| inner := s; cached_nonblocking := cached_nonblocking a |}) m).

Definition set_cached (on : bool) : M (SocketCan Sock) (stop Error) unit :=
  modify (fun a => {| inner := inner a; cached_nonblocking := on |}).

(** [open]: [opened] is the answer of [CanSocket::open]. *)
Definition open (opened : result Sock OsError) : result (SocketCan Sock) (stop Error) :=
  let? s := map_err (fun e => Fails (SockIo e)) opened in
  let? (nb, s) := match nonblocking s with
                   | (Ok nb, s') => Ok (nb, s')
                   | (Err (Fails e), _) => Err (Fails (SockIo e))
                   | (Err Waiting, _) => Err Waiting
                   | (Err OutOfFuel, _) => Err OutOfFuel
                   | (Panic, _) => Panic
                   end in
  Ok {| inner := s; cached_nonblocking := nb |}.

(** [new]: an error of [nonblocking()] reads as [false]. *)
Definition new (s : Sock) : SocketCan Sock :=
  let '(r, s') := nonblocking s in
  {| inner := s'; cached_nonblocking := match r with Ok nb => nb | _ => false end |}.

Definition with_nonblocking {A} (f : M Sock (stop OsError) A) : M (SocketCan Sock) (stop Error) A :=
  cached ← gets cached_nonblocking;
  if cached : bool then on_inner f
  else
    was_nonblocking ← on_inner nonblocking;
    if was_nonblocking : bool then set_cached true;; on_inner f
    else
      on_inner (set_nonblocking true);;
      result ← attempt (on_inner f);
      on_inner (set_nonblocking false);;
      match result with inl a => mret a | inr e => fail (Fails e) end.

Definition with_write_timeout {A} (timeout : Duration) (f : M Sock (stop OsError) A) :
    M (SocketCan Sock) (stop Error) A :=
  prev ← on_inner write_timeout;
  on_inner (set_write_timeout (Some timeout));;
  result ← attempt (on_inner f);
  reset ← attempt (on_inner (set_write_timeout prev));
  match reset with
  | inl _ => match result with inl a => mret a | inr e => fail (Fails e) end
  | inr err => fail (Fails err)
  end.

(** [libc::poll(fd, POLLIN, -1)] until it is not interrupted. *)
Fixpoint wait_for_readable (answers : list (option OsError)) : result unit (stop Error) :=
  match answers with
  | [] => Err Waiting
  | None :: _ => Ok tt
  | Some EInterrupted :: answers => wait_for_readable answers
  | Some e :: _ => Err (Fails (SockIo e))
  end.
End helpers.

Section frames.
Context {D R F X CE : Type} (into_error : X -> CE).

Definition map_can_frame (frame : CanFrame D R X) : result (CanFrame D R X) (stop (SocketcanError CE)) :=
  match frame with
  | ErrorFrame x => Err (Fails (CanErr (into_error x)))
  | frame => Ok frame
  end.
Definition map_any_frame (frame : CanAnyFrame D R F X) :
    result (CanAnyFrame D R F X) (stop (SocketcanError CE)) :=
  match frame with
  | AnyError x => Err (Fails (CanErr (into_error x)))
  | frame => Ok frame
  end.
End frames.

(** ** Filters *)

Definition CAN_EFF_FLAG : u32 := 0x80000000%Z.

Section filters.
Context {SId EId : Type} `{EmbeddedCan SId EId} {CE : Type}.

Definition to_socketcan_filter (f : IdMaskFilter SId EId) : result CanFilter (stop (SocketcanError CE)) :=
  let? (id_raw, mask_raw) :=
    match filter_id f, filter_mask f with
    | Standard id, StandardMask mask =>
        let can_id := StandardId_as_raw id in
        let can_mask := Z.lor mask CAN_EFF_FLAG in
        Ok (can_id, can_mask)
    | Extended id, ExtendedMask mask =>
        let can_id := Z.lor (ExtendedId_as_raw id) CAN_EFF_FLAG in
        let can_mask := Z.lor (Z.land mask 0x1FFFFFFF%Z) CAN_EFF_FLAG in
        Ok (can_id, can_mask)
    | _, _ => Err (Fails (InvalidInput "id/mask width mismatch"))
    end in
  Ok {| cf_id := id_raw; cf_mask := mask_raw |}.

(** [for f in filters { out.push(to_socketcan_filter(f)?) }]. *)
Fixpoint push_filters (filters : list (IdMaskFilter SId EId)) (out : list CanFilter) :
    result (list CanFilter) (stop (SocketcanError CE)) :=
  match filters with
  | [] => Ok out
  | f :: filters => let? cf := to_socketcan_filter f in push_filters filters (out ++ [cf])
  end.
End filters.

(** ** The trait implementations

    [CanSock] and [CanFdSock] are the crate's two sockets. *)
Section impls.
Context {SId EId : Type} `{EmbeddedCan SId EId}.
Context {D R F X CE CanSock CanFdSock : Type} (into_error : X -> CE).
Context `{CanSocketOps CanSock (CanFrame D R X)} `{CanSocketOps CanFdSock (CanAnyFrame D R F X)}.
Abbreviation Error := (SocketcanError CE).
Abbreviation Filter := (IdMaskFilter SId EId).

Definition SocketCan_TxFrameIo : TxFrameIo (SocketCan CanSock) (CanFrame D R X) Error := {|
  tx_send frame := on_inner (write_frame_insist frame);
  tx_try_send frame := with_nonblocking (write_frame frame);
  tx_send_timeout frame timeout := with_write_timeout timeout (write_frame frame);
|}.

Definition SocketCan_RxFrameIo : RxFrameIo (SocketCan CanSock) (CanFrame D R X) Error := {|
  rx_recv := frame ← on_inner read_frame; lift (map_can_frame into_error frame);
  rx_try_recv := frame ← with_nonblocking read_frame; lift (map_can_frame into_error frame);
  rx_recv_timeout timeout :=
    frame ← on_inner (read_frame_timeout timeout); lift (map_can_frame into_error frame);
  rx_wait_not_empty := a ← get; lift (wait_for_readable (poll_answers (inner a)));
|}.

Definition SocketCan_BlockingControl : BlockingControl (SocketCan CanSock) Error := {|
  bc_set_nonblocking on := on_inner (set_nonblocking on);; set_cached on;
|}.

Definition SocketCan_FilterConfig : FilterConfig Filter (SocketCan CanSock) Error := {|
  fc_set_filters filters :=
    match filters with
    | [] => on_inner set_filter_accept_all
    | _ => out ← lift (push_filters filters []); on_inner (set_socket_filters out)
    end;
|}.

Definition SocketCanFd_TxFrameIo : TxFrameIo (SocketCan CanFdSock) (CanAnyFrame D R F X) Error := {|
  tx_send frame := on_inner (write_frame_insist frame);
  tx_try_send frame := with_nonblocking (write_frame frame);
  tx_send_timeout frame timeout := with_write_timeout timeout (write_frame frame);
|}.

Definition SocketCanFd_RxFrameIo : RxFrameIo (SocketCan CanFdSock) (CanAnyFrame D R F X) Error := {|
  rx_recv := frame ← on_inner read_frame; lift (map_any_frame into_error frame);
  rx_try_recv := frame ← with_nonblocking read_frame; lift (map_any_frame into_error frame);
  rx_recv_timeout timeout :=
    frame ← on_inner (read_frame_timeout timeout); lift (map_any_frame into_error frame);
  rx_wait_not_empty := a ← get; lift (wait_for_readable (poll_answers (inner a)));
|}.

Definition SocketCanFd_BlockingControl : BlockingControl (SocketCan CanFdSock) Error := {|
  bc_set_nonblocking on := on_inner (set_nonblocking on);; set_cached on;
|}.

Definition SocketCanFd_FilterConfig : FilterConfig Filter (SocketCan CanFdSock) Error := {|
  fc_set_filters filters :=
    match filters with
    | [] => on_inner set_filter_accept_all
    | _ => out ← lift (push_filters filters []); on_inner (set_socket_filters out)
    end;
|}.
End impls.

(** ** The tokio adapters

    A tokio socket waits without blocking the thread: [Waiting] is a suspended
    task. *)
Record TokioSocketCan (Sock : Type) := { tokio_inner : Sock }.
Arguments tokio_inner {Sock} _.
Arguments Build_TokioSocketCan {Sock} _.

Section tokio.
Context {SId EId : Type} `{EmbeddedCan SId EId}.
Context {D R F X CE CanSock CanFdSock : Type} (into_error : X -> CE).
Context `{CanSocketOps CanSock (CanFrame D R X)} `{CanSocketOps CanFdSock (CanAnyFrame D R F X)}.
Abbreviation Error := (SocketcanError CE).
Abbreviation Filter := (IdMaskFilter SId EId).

Definition on_tokio {Sock A} (m : M Sock (stop OsError) A) : M (TokioSocketCan Sock) (stop Error) A :=
  map_fails SockIo (on_field tokio_inner (fun s _ => {| tokio_inner := s |}) m).

Definition tokio_open {Sock} (opened : result Sock OsError) :
    result (TokioSocketCan Sock) (stop Error) :=
  let? s := map_err (fun e => Fails (SockIo e)) opened in Ok {| tokio_inner := s |}.

Definition tokio_map_can_frame (frame : CanFrame D R X) : result (CanFrame D R X) (stop Error) :=
  match frame with
  | ErrorFrame x => Err (Fails (CanErr (into_error x)))
  | frame => Ok frame
  end.
Definition tokio_map_any_frame (frame : CanAnyFrame D R F X) :
    result (CanAnyFrame D R F X) (stop Error) :=
  match frame with
  | AnyError x => Err (Fails (CanErr (into_error x)))
  | frame => Ok frame
  end.

Definition tokio_to_socketcan_filter (f : Filter) : result CanFilter (stop Error) :=
  let? (id_raw, mask_raw) :=
    match filter_id f, filter_mask f with
    | Standard id, StandardMask mask =>
        let can_id := StandardId_as_raw id in
        let can_mask := Z.lor mask CAN_EFF_FLAG in
        Ok (can_id, can_mask)
    | Extended id, ExtendedMask mask =>
        let can_id := Z.lor (ExtendedId_as_raw id) CAN_EFF_FLAG in
        let can_mask := Z.lor (Z.land mask 0x1FFFFFFF%Z) CAN_EFF_FLAG in
        Ok (can_id, can_mask)
    | _, _ => Err (Fails (InvalidInput "id/mask width mismatch"))
    end in
  Ok {| cf_id := id_raw; cf_mask := mask_raw |}.

Fixpoint tokio_push_filters (filters : list Filter) (out : list CanFilter) :
    result (list CanFilter) (stop Error) :=
  match filters with
  | [] => Ok out
  | f :: filters => let? cf := tokio_to_socketcan_filter f in tokio_push_filters filters (out ++ [cf])
  end.

Definition TokioSocketCan_AsyncTxFrameIo : AsyncTxFrameIo (TokioSocketCan CanSock) (CanFrame D R X) Error :=
  let send frame := on_tokio (write_frame frame) in
  {| atx_send := send; atx_send_timeout frame _ := send frame |}.

Definition TokioSocketCan_AsyncRxFrameIo : AsyncRxFrameIo (TokioSocketCan CanSock) (CanFrame D R X) Error :=
  let recv := frame ← on_tokio read_frame; lift (tokio_map_can_frame frame) in
  {| arx_recv := recv; arx_recv_timeout _ := recv; arx_wait_not_empty := mret tt |}.

Definition TokioSocketCan_FilterConfig : FilterConfig Filter (TokioSocketCan CanSock) Error := {|
  fc_set_filters filters :=
    match filters with
    | [] => on_tokio set_filter_accept_all
    | _ => out ← lift (tokio_push_filters filters []); on_tokio (set_socket_filters out)
    end;
|}.

Definition TokioSocketCanFd_AsyncTxFrameIo :
    AsyncTxFrameIo (TokioSocketCan CanFdSock) (CanAnyFrame D R F X) Error :=
  let send frame := on_tokio (write_frame frame) in
  {| atx_send := send; atx_send_timeout frame _ := send frame |}.

Definition TokioSocketCanFd_AsyncRxFrameIo :
    AsyncRxFrameIo (TokioSocketCan CanFdSock) (CanAnyFrame D R F X) Error :=
  let recv := frame ← on_tokio read_frame; lift (tokio_map_any_frame frame) in
  {| arx_recv := recv; arx_recv_timeout _ := recv; arx_wait_not_empty := mret tt |}.

Definition TokioSocketCanFd_FilterConfig : FilterConfig Filter (TokioSocketCan CanFdSock) Error := {|
  fc_set_filters filters :=
    match filters with
    | [] => on_tokio set_filter_accept_all
    | _ => out ← lift (tokio_push_filters filters []); on_tokio (set_socket_filters out)
    end;
|}.
End tokio.

(** * What the adapters rely on *)

(** The flags of a raw identifier, and the kernel's filters: a frame passes a
    filter when its identifier, flags included, agrees with the filter's under
    the mask; the inversion flag of a filter turns it around. *)
Definition CAN_RTR_FLAG : u32 := 0x40000000%Z.
Definition CAN_INV_FILTER_BIT : Z := 29.
Definition kernel_match (raw : u32) (f : CanFilter) : bool :=
  xorb (Z.testbit (cf_id f) CAN_INV_FILTER_BIT)
    (Z.land raw (cf_mask f) =? Z.land (cf_id f) (cf_mask f))%Z.

(** What can be seen of a socket: its mode, the write timeout it stores (the
    kernel keeps a rounded value), and the raw identifiers its filters pass. *)
Class CanSocketView (Sock : Type) := {
  mode : Sock -> bool;
  stored_timeout : Sock -> option Duration;
  store_timeout : option Duration -> option Duration;
  passes : Sock -> u32 -> bool;
}.

Section view.
Context {Sock : Type} `{CanSocketView Sock}.

Definition settings (nb : bool) (t : option Duration) (ps : u32 -> bool) (s : Sock) : Prop :=
  mode s = nb /\ stored_timeout s = t /\ forall raw, passes s raw = ps raw.
Definition kept (s s' : Sock) : Prop := settings (mode s) (stored_timeout s) (passes s) s'.

(** [answers m blocks post]: the call ends in [post]; a call that fails or
    waits changes no setting, and it waits only where [blocks] holds. *)
Definition answers {A} (m : M Sock (stop OsError) A) (blocks : Sock -> Prop)
    (post : Sock -> A -> Sock -> Prop) : Prop := forall s,
  ends (fun s' => blocks s /\ kept s s') (post s) (fun _ s' => kept s s') (m s).
Definition never (s : Sock) : Prop := False.
End view.

Class CanFilterLaws (Sock Frame : Type) `{CanSocketOps Sock Frame} `{CanSocketView Sock} := {
  accept_all_law : answers set_filter_accept_all never
    (fun s _ s' => settings (mode s) (stored_timeout s) (fun _ => true) s');
  set_socket_filters_law fs : answers (set_socket_filters fs) never
    (fun s _ s' => settings (mode s) (stored_timeout s) (fun raw => existsb (kernel_match raw) fs) s');
}.

Class CanSocketLaws (Sock Frame : Type) `{CanSocketOps Sock Frame} `{CanSocketView Sock} := {
  socket_filter_laws :: CanFilterLaws Sock Frame;
  nonblocking_law : answers nonblocking never (fun s b s' => b = mode s /\ kept s s');
  set_nonblocking_law on : answers (set_nonblocking on) never
    (fun s _ s' => settings on (stored_timeout s) (passes s) s');
  write_timeout_law : answers write_timeout never (fun s t s' => t = stored_timeout s /\ kept s s');
  set_write_timeout_law t : answers (set_write_timeout t) never
    (fun s _ s' => settings (mode s) (store_timeout t) (passes s) s');
  store_stored s : store_timeout (stored_timeout s) = stored_timeout s;
  write_frame_law f : answers (write_frame f) (fun s => mode s = false /\ stored_timeout s = None)
    (fun s _ s' => kept s s');
  write_frame_insist_law f : answers (write_frame_insist f) (fun _ => True) (fun s _ s' => kept s s');
  read_frame_law : answers read_frame (fun s => mode s = false) (fun s _ s' => kept s s');
  read_frame_timeout_law t : answers (read_frame_timeout t) never (fun s _ s' => kept s s');
}.

(** * Operations of an adapter *)

Inductive CanOp (Frame Filter : Type) :=
| OpSend (f : Frame)
| OpTrySend (f : Frame)
| OpSendTimeout (f : Frame) (t : Duration)
| OpRecv
| OpTryRecv
| OpRecvTimeout (t : Duration)
| OpWaitNotEmpty
| OpSetNonblocking (on : bool)
| OpSetFilters (l : list Filter).
Arguments OpSend {Frame Filter} f.
Arguments OpTrySend {Frame Filter} f.
Arguments OpSendTimeout {Frame Filter} f t.
Arguments OpRecv {Frame Filter}.
Arguments OpTryRecv {Frame Filter}.
Arguments OpRecvTimeout {Frame Filter} t.
Arguments OpWaitNotEmpty {Frame Filter}.
Arguments OpSetNonblocking {Frame Filter} on.
Arguments OpSetFilters {Frame Filter} l.

Definition run_op {Self Frame Error Filter} (tx : TxFrameIo Self Frame Error)
    (rx : RxFrameIo Self Frame Error) (bc : BlockingControl Self Error)
    (fc : FilterConfig Filter Self Error) (op : CanOp Frame Filter) :
    M Self (stop Error) (option Frame) :=
  match op with
  | OpSend f => tx_send f;; mret None
  | OpTrySend f => tx_try_send f;; mret None
  | OpSendTimeout f t => tx_send_timeout f t;; mret None
  | OpRecv => f ← rx_recv; mret (Some f)
  | OpTryRecv => f ← rx_try_recv; mret (Some f)
  | OpRecvTimeout t => f ← rx_recv_timeout t; mret (Some f)
  | OpWaitNotEmpty => rx_wait_not_empty;; mret None
  | OpSetNonblocking on => bc_set_nonblocking on;; mret None
  | OpSetFilters l => fc_set_filters l;; mret None
  end.

(** What the operations promise about the socket's settings and about waiting. *)
Section outcome.
Context {Sock Frame CE SId EId : Type} `{CanSocketOps Sock Frame} `{CanSocketView Sock} `{EmbeddedCan SId EId}.
Context (is_error : Frame -> bool).
Abbreviation Op := (CanOp Frame (IdMaskFilter SId EId)).

(** The cache is a promise about the socket. *)
Definition adapter_ok (a : SocketCan Sock) : Prop := cached_nonblocking a = true -> mode (inner a) = true.

Definition mode_after (op : Op) (nb : bool) : bool :=
  match op with OpSetNonblocking on => on | _ => nb end.

(** The identifier of a frame as the kernel sees it. *)
Definition raw_id (id : Id SId EId) (rtr : bool) : u32 :=
  Z.lor (match id with
         | Standard i => StandardId_as_raw i
         | Extended i => Z.lor (ExtendedId_as_raw i) CAN_EFF_FLAG
         end) (if rtr then CAN_RTR_FLAG else 0%Z).

Definition passes_after (op : Op) (ps ps' : u32 -> bool) : Prop :=
  match op with
  | OpSetFilters l => forall (frame : UnixFrame SId EId) rtr,
      ps' (raw_id (frame_id frame) rtr) = filters_match l frame
  | _ => forall raw, ps' raw = ps raw
  end.

(** Only these may wait: a blocking send or receive, a send whose timeout the
    kernel does not keep, and [wait_not_empty]. *)
Definition may_wait (op : Op) (s : Sock) : Prop :=
  match op with
  | OpSend _ | OpWaitNotEmpty => True
  | OpRecv => mode s = false
  | OpSendTimeout _ t => mode s = false /\ store_timeout (Some t) = None
  | _ => False
  end.

(** The operation failed with [e] because the call [m], made to restore a
    setting, failed and left the socket as [s']. *)
Definition restore_failed (m : M Sock (stop OsError) unit) (e : SocketcanError CE) (s' : Sock) : Prop :=
  exists s eo, m s = (Err (Fails eo), s') /\ e = SockIo eo.

Definition op_outcome (op : Op) (a : SocketCan Sock)
    (run : result (option Frame) (stop (SocketcanError CE)) * SocketCan Sock) : Prop :=
  adapter_ok run.2 /\
  ends (fun a' => may_wait op (inner a) /\ mode (inner a') = mode (inner a))
    (fun o a' =>
       mode (inner a') = mode_after op (mode (inner a)) /\
       stored_timeout (inner a') = stored_timeout (inner a) /\
       passes_after op (passes (inner a)) (passes (inner a')) /\
       from_option (fun f => is_error f = false) True o)
    (fun e a' =>
       (forall raw, passes (inner a') raw = passes (inner a) raw) /\
       match op with
       | OpTrySend _ | OpTryRecv =>
           (mode (inner a') = mode (inner a) \/
            mode (inner a') = true /\ restore_failed (set_nonblocking false) e (inner a')) /\
           stored_timeout (inner a') = stored_timeout (inner a)
       | OpSendTimeout _ t =>
           mode (inner a') = mode (inner a) /\
           (stored_timeout (inner a') = stored_timeout (inner a) \/
            stored_timeout (inner a') = store_timeout (Some t) /\
            restore_failed (set_write_timeout (stored_timeout (inner a))) e (inner a'))
       | _ => kept (inner a) (inner a')
       end)
    run.
End outcome.

(** * Filters *)

(** The ranges the types of [embedded_can] and of the masks document. *)
Class CanIdRanges (SId EId : Type) `{EmbeddedCan SId EId} := {
  standard_raw_11 i : in_width 11 (StandardId_as_raw i);
  extended_raw_29 i : in_width 29 (ExtendedId_as_raw i);
}.
Definition mask_typed {SId EId} (f : IdMaskFilter SId EId) : Prop :=
  match filter_mask f with StandardMask m => is_u16 m | ExtendedMask m => is_u32 m end.

Lemma testbit_above w z n : in_width w z -> (w <= n)%Z -> Z.testbit z n = false.
Proof.
  intros [H0 Hz] Hn. destruct (Z.eq_dec z 0) as [->|Hnz]; [apply Z.bits_0|].
  apply Z.bits_above_log2; [done|]. apply Z.log2_lt_pow2; [lia|].
  apply (Z.lt_le_trans _ (2 ^ w)%Z); [done|]. apply Z.pow_le_mono_r; lia.
Qed.

Section filter_proofs.
Context {SId EId : Type} `{EmbeddedCan SId EId} `{!CanIdRanges SId EId} {CE : Type}.
Implicit Types f : IdMaskFilter SId EId.

Lemma flag_bits (x m : Z) (eff rtr : bool) n :
  in_width 29 x -> in_width 29 m -> (0 <= n)%Z ->
  Z.testbit (Z.land (Z.lor (if eff then Z.lor x CAN_EFF_FLAG else x) (if rtr then CAN_RTR_FLAG else 0))
               (Z.lor m CAN_EFF_FLAG)) n =
  (Z.testbit x n && Z.testbit m n) || (eff && (31 =? n)%Z).
Proof.
  intros Hx Hm Hn. change CAN_EFF_FLAG with (2 ^ 31)%Z. change CAN_RTR_FLAG with (2 ^ 30)%Z.
  assert (Hr : Z.testbit (if rtr then 2 ^ 30 else 0) n = rtr && (30 =? n)%Z).
  { destruct rtr; [by apply Z.pow2_bits_eqb|apply Z.bits_0]. }
  assert (He : Z.testbit (if eff then Z.lor x (2 ^ 31) else x) n = Z.testbit x n || (eff && (31 =? n)%Z)).
  { destruct eff; [by rewrite Z.lor_spec, Z.pow2_bits_eqb|by rewrite orb_false_r]. }
  rewrite Z.land_spec, !Z.lor_spec, Z.pow2_bits_eqb, Hr, He by done.
  destruct (Z.le_gt_cases 29 n) as [Hge|Hlt].
  - rewrite (testbit_above 29 x), (testbit_above 29 m) by done.
    destruct (Z.eqb_spec 30 n), (Z.eqb_spec 31 n); try lia; by destruct eff, rtr.
  - destruct (Z.eqb_spec 30 n), (Z.eqb_spec 31 n); [lia..|].
    by rewrite !andb_false_r, !orb_false_r.
Qed.

Lemma flag_match (x y m : Z) (ex ey rtr : bool) :
  in_width 29 x -> in_width 29 y -> in_width 29 m ->
  (Z.land (Z.lor (if ex then Z.lor x CAN_EFF_FLAG else x) (if rtr then CAN_RTR_FLAG else 0))
     (Z.lor m CAN_EFF_FLAG) =?
   Z.land (if ey then Z.lor y CAN_EFF_FLAG else y) (Z.lor m CAN_EFF_FLAG))%Z =
  eqb ex ey && (Z.land x m =? Z.land y m)%Z.
Proof.
  intros Hx Hy Hm. apply Bool.eq_iff_eq_true. rewrite andb_true_iff, eqb_true_iff, !Z.eqb_eq.
  pose proof (fun n => flag_bits x m ex rtr n Hx Hm) as Bx.
  pose proof (fun n => flag_bits y m ey false n Hy Hm) as By.
  rewrite (Z.lor_0_r (if ey then _ else _)) in By. split.
  - intros Heq. rewrite Heq in Bx.
    assert (Hxy : forall n, (0 <= n)%Z ->
      (Z.testbit x n && Z.testbit m n) || (ex && (31 =? n)%Z) =
      (Z.testbit y n && Z.testbit m n) || (ey && (31 =? n)%Z)).
    { intros n Hn. by rewrite <- Bx, <- By. }
    split.
    + specialize (Hxy 31%Z). rewrite (testbit_above 29 x), (testbit_above 29 y) in Hxy by done.
      simpl in Hxy. rewrite !andb_true_r in Hxy. by apply Hxy.
    + apply Z.bits_inj'. intros n Hn. rewrite !Z.land_spec. specialize (Hxy n Hn).
      destruct (Z.eqb_spec 31 n); [|by rewrite !andb_false_r, !orb_false_r in Hxy].
      by rewrite (testbit_above 29 x), (testbit_above 29 y) by (done || lia).
  - intros [-> Heq]. apply Z.bits_inj'. intros n Hn. rewrite Bx, By, <- !Z.land_spec by done. by rewrite Heq.
Qed.

(** [filter_match], the rule of the bus server, is what the kernel applies to
    a converted filter. *)
Lemma to_socketcan_filter_spec f :
  mask_typed f ->
  match to_socketcan_filter (CE := CE) f with
  | Ok cf => forall id rtr, kernel_match (raw_id id rtr) cf = filter_match f id
  | Err e => e = Fails (InvalidInput "id/mask width mismatch") /\ forall id, filter_match f id = false
  | Panic => False
  end.
Proof.
  destruct f as [[i|i] [m|m]]; unfold mask_typed, to_socketcan_filter, filter_match; cbn [filter_id filter_mask];
    intros Hm; [|by split|by split|].
  - intros id rtr. unfold kernel_match, CAN_INV_FILTER_BIT; cbn [cf_id cf_mask].
    pose proof (standard_raw_11 i) as Hi.
    assert (H29 : forall z w, in_width w z -> (0 <= w <= 29)%Z -> in_width 29 z).
    { intros z w [? ?] ?. split; [done|]. apply (Z.lt_le_trans _ (2 ^ w)%Z); [done|].
      apply Z.pow_le_mono_r; lia. }
    rewrite (testbit_above 11 _ 29 Hi), xorb_false_l by lia. unfold raw_id. destruct id as [j|j].
    + pose proof (standard_raw_11 j).
      rewrite (flag_match _ _ m false false rtr) by (eapply H29; eauto; lia). done.
    + pose proof (extended_raw_29 j).
      rewrite (flag_match _ _ m true false rtr) by (eapply H29; eauto; lia). done.
  - intros id rtr. unfold kernel_match, CAN_INV_FILTER_BIT; cbn [cf_id cf_mask].
    pose proof (extended_raw_29 i) as Hi.
    assert (Hm29 : in_width 29 (Z.land m 0x1FFFFFFF)).
    { change 0x1FFFFFFF%Z with (Z.ones 29). rewrite Z.land_ones by lia. apply Z.mod_pos_bound. lia. }
    assert (Hl : forall z, in_width 29 z -> Z.land z (Z.land m 0x1FFFFFFF) = Z.land z m).
    { intros z Hz. change 0x1FFFFFFF%Z with (Z.ones 29).
      rewrite (Z.land_comm m), Z.land_assoc, Z.land_ones by lia. by rewrite Z.mod_small. }
    rewrite Z.lor_spec, (testbit_above 29 _ 29 Hi) by lia. simpl xorb. unfold raw_id. destruct id as [j|j].
    + assert (in_width 29 (StandardId_as_raw j)).
      { destruct (standard_raw_11 j). split; [done|]. simpl in *. lia. }
      rewrite (flag_match _ _ _ false true rtr) by done. done.
    + pose proof (extended_raw_29 j).
      rewrite (flag_match _ _ _ true true rtr), !Hl by done. done.
Qed.

Lemma tokio_push_filters_eq l out :
  tokio_push_filters (CE := CE) l out = push_filters l out.
Proof.
  revert out. induction l as [|f l IH]; intros out; [done|]. cbn [tokio_push_filters push_filters].
  change (tokio_to_socketcan_filter f) with (to_socketcan_filter (CE := CE) f).
  by destruct (to_socketcan_filter f).
Qed.

Lemma push_filters_spec l out :
  Forall mask_typed l ->
  match push_filters (CE := CE) l out with
  | Ok fs => forall id rtr, existsb (kernel_match (raw_id id rtr)) fs =
      existsb (kernel_match (raw_id id rtr)) out || existsb (fun f => filter_match f id) l
  | Err e => e = Fails (InvalidInput "id/mask width mismatch")
  | Panic => False
  end.
Proof.
  intros Hl. revert out. induction Hl as [|f l Hf _ IH]; intros out; cbn [push_filters existsb].
  { intros. by rewrite orb_false_r. }
  pose proof (to_socketcan_filter_spec f Hf) as Hcf.
  destruct (to_socketcan_filter f) as [cf|e|]; [|by destruct Hcf|done].
  specialize (IH (out ++ [cf])). destruct (push_filters l _); [|done..].
  intros id rtr. rewrite IH, existsb_app. simpl. by rewrite Hcf, orb_false_r, orb_assoc.
Qed.
End filter_proofs.

(** * Modes, timeouts and waiting *)

Lemma ends_attempt {S E A} {W : S -> Prop} {F F' : E -> S -> Prop} (Q : A -> S -> Prop)
    (m : M S (stop E) A) s :
  ends W Q F (m s) ->
  ends W (fun r s' => match r with inl a => Q a s' | inr e => F e s' end) F' (attempt m s).
Proof. unfold ends, attempt. by destruct (m s) as [[a|[e| |]|] s']. Qed.

Section op_proofs.
Context {Sock Frame CE : Type} `{CanSocketLaws Sock Frame}.
Abbreviation Error := (SocketcanError CE).
Implicit Types a : SocketCan Sock.

(** A law of the socket, seen from the adapter. *)
Lemma on_inner_ends {A} (m : M Sock (stop OsError) A) blocks post a :
  answers m blocks post ->
  ends (E := Error)
    (fun a' => cached_nonblocking a' = cached_nonblocking a /\ blocks (inner a) /\ kept (inner a) (inner a'))
    (fun x a' => cached_nonblocking a' = cached_nonblocking a /\ post (inner a) x (inner a'))
    (fun _ a' => cached_nonblocking a' = cached_nonblocking a /\ kept (inner a) (inner a'))
    (on_inner m a).
Proof.
  intros Hm. specialize (Hm (inner a)). revert Hm. unfold ends, on_inner, map_fails, on_field.
  by destruct (m (inner a)) as [[x|[e| |]|] s'].
Qed.

Lemma on_inner_why {A} (m : M Sock (stop OsError) A) a e a' :
  on_inner m a = (Err (Fails e : stop Error), a') ->
  exists eo, m (inner a) = (Err (Fails eo), inner a') /\ e = SockIo eo.
Proof.
  unfold on_inner, map_fails, on_field. destruct (m (inner a)) as [[x|[eo| |]|] s']; try done.
  intros [= <- <-]. by exists eo.
Qed.
Lemma ends_why {A} (W : SocketCan Sock -> Prop) (Q : A -> _) (F : Error -> _ -> Prop) run :
  ends W Q F run -> ends W Q (fun e a' => F e a' /\ run = (Err (Fails e), a')) run.
Proof. by destruct run as [[x|[e| |]|] a']. Qed.

(** A call that keeps the settings of a socket in its mode keeps those of the
    adapter. *)
Lemma on_inner_kept {A} (f : M Sock (stop OsError) A) a :
  ends (fun _ => False) (fun _ s' => kept (inner a) s') (fun _ s' => kept (inner a) s') (f (inner a)) ->
  ends (E := Error) (fun _ => False)
    (fun _ a' => cached_nonblocking a' = cached_nonblocking a /\ kept (inner a) (inner a'))
    (fun _ a' => cached_nonblocking a' = cached_nonblocking a /\ kept (inner a) (inner a'))
    (on_inner f a).
Proof.
  unfold ends, on_inner, map_fails, on_field. by destruct (f (inner a)) as [[x|[e| |]|] s'].
Qed.

(** The call runs on a non-blocking socket and so does not wait; the mode is
    put back, unless putting it back fails. *)
Lemma with_nonblocking_ends {A} (f : M Sock (stop OsError) A) a :
  (forall s, mode s = true -> ends (fun _ => False) (fun _ s' => kept s s') (fun _ s' => kept s s') (f s)) ->
  adapter_ok a ->
  ends (E := Error) (fun _ => False)
    (fun _ a' => adapter_ok a' /\ kept (inner a) (inner a'))
    (fun e a' => adapter_ok a' /\ settings (mode (inner a')) (stored_timeout (inner a)) (passes (inner a)) (inner a') /\
       (mode (inner a') = mode (inner a) \/
        mode (inner a') = true /\ restore_failed (set_nonblocking false) e (inner a')))
    (with_nonblocking f a).
Proof.
  intros Hf Ha. unfold with_nonblocking.
  assert (Hnb := fun a' Hm => on_inner_kept f a' (Hf (inner a') Hm)).
  unfold kept, settings in *. unfold adapter_ok in *.
  eapply (ends_bind (fun b a' => a' = a /\ b = cached_nonblocking a)); [done|].
  intros b a' [-> ->]. destruct (cached_nonblocking a) eqn:Hc.
  { eapply ends_weaken; [apply Hnb; by apply Ha|done| |].
    - intros e a'. rewrite Hc. intros (Hc' & -> & -> & Hp). split_and!; auto.
    - intros x a'. rewrite Hc. intros (Hc' & -> & -> & Hp). split_and!; auto. }
  eapply ends_bind.
  { eapply ends_weaken; [apply (on_inner_ends _ _ _ _ nonblocking_law)| | |intros x a' Hx; exact Hx].
    - by intros a' (_ & [] & _).
    - intros e a'. rewrite Hc. unfold kept, settings. intros (-> & -> & -> & Hp). split_and!; auto. }
  intros b a1 (Hc1 & -> & Hm1 & Ht1 & Hp1). destruct (mode (inner a)) eqn:Hm.
  { eapply (ends_bind (fun _ a' => cached_nonblocking a' = true /\ inner a' = inner a1)); [done|].
    intros [] a2 [Hc2 Hi2]. eapply ends_weaken; [apply Hnb; by rewrite Hi2|done| |].
    - rewrite Hi2, Hm1, Ht1. intros e a' (Hc' & -> & -> & Hp). split_and!; auto. intros raw. by rewrite Hp.
    - rewrite Hi2, Hm1, Ht1. intros e a' (Hc' & -> & -> & Hp). split_and!; auto. intros raw. by rewrite Hp. }
  eapply ends_bind.
  { eapply ends_weaken; [apply (on_inner_ends _ _ _ _ (set_nonblocking_law true))| | |intros x a' Hx; exact Hx].
    - by intros a' (_ & [] & _).
    - intros e a'. rewrite Hc1, Hc. unfold kept, settings. rewrite Hm1, Ht1.
      intros (-> & -> & -> & Hp). split_and!; auto. intros raw. by rewrite Hp. }
  intros [] a2 (Hc2 & Hm2 & Ht2 & Hp2). eapply ends_bind.
  { eapply ends_attempt. apply (Hnb a2 Hm2). }
  intros r a3 Hr. eapply (ends_bind (fun _ a' => adapter_ok a' /\ kept (inner a) (inner a'))).
  { assert (Hr' : cached_nonblocking a3 = cached_nonblocking a2 /\ kept (inner a2) (inner a3)) by by destruct r.
    destruct Hr' as (Hc3 & Hm3 & Ht3 & Hp3).
    eapply ends_weaken; [apply ends_why, (on_inner_ends _ _ _ _ (set_nonblocking_law false))| | |].
    - by intros a' (_ & [] & _).
    - intros e a'. unfold kept, settings. rewrite Hc3, Hc2, Hc1, Hc, Hm3, Ht3, Hm2, Ht2, Ht1.
      intros [(-> & -> & -> & Hp) (eo & Hrun & He)%on_inner_why].
      split_and!; auto; [intros raw; by rewrite Hp, Hp3, Hp2|]. right. split; [done|]. by exists (inner a3), eo.
    - intros x a'. unfold adapter_ok, kept, settings. rewrite Hc3, Hc2, Hc1, Hc, Ht3, Ht2, Ht1, Hm.
      intros (-> & -> & -> & Hp). split_and!; auto. intros raw. by rewrite Hp, Hp3, Hp2. }
  intros [] a4 (Hok & Hm4 & Ht4 & Hp4). unfold adapter_ok in Hok. rewrite Hm in Hm4. destruct r; simpl; rewrite ?Hm; auto.
Qed.

(** The timeout is put back, unless putting it back fails. *)
Lemma with_write_timeout_ends timeout (f : M Sock (stop OsError) unit) a :
  answers f (fun s => mode s = false /\ stored_timeout s = None) (fun s _ s' => kept s s') ->
  let same a' := cached_nonblocking a' = cached_nonblocking a /\ mode (inner a') = mode (inner a) /\
                 forall raw, passes (inner a') raw = passes (inner a) raw in
  ends (E := Error)
    (fun a' => same a' /\ mode (inner a) = false /\ store_timeout (Some timeout) = None)
    (fun _ a' => same a' /\ stored_timeout (inner a') = stored_timeout (inner a))
    (fun e a' => same a' /\ (stored_timeout (inner a') = stored_timeout (inner a) \/
       stored_timeout (inner a') = store_timeout (Some timeout) /\
       restore_failed (set_write_timeout (stored_timeout (inner a))) e (inner a')))
    (with_write_timeout timeout f a).
Proof.
  intros Hf same. unfold with_write_timeout, same. clear same.
  eapply ends_bind.
  { eapply ends_weaken; [apply (on_inner_ends _ _ _ _ write_timeout_law)| | |intros x a' Hx; exact Hx].
    - by intros a' (_ & [] & _).
    - intros e a' (? & ? & ? & ?). auto. }
  intros prev a1 (Hc1 & -> & Hm1 & Ht1 & Hp1). eapply ends_bind.
  { eapply ends_weaken; [apply (on_inner_ends _ _ _ _ (set_write_timeout_law _))| | |intros x a' Hx; exact Hx].
    - by intros a' (_ & [] & _).
    - intros e a' (? & ? & ? & Hp). rewrite <- Hc1, <- Hm1, <- Ht1. split_and!; auto.
      intros raw. by rewrite Hp. }
  intros [] a2 (Hc2 & Hm2 & Ht2 & Hp2). eapply ends_bind.
  { eapply ends_attempt. eapply ends_weaken; [apply (on_inner_ends _ _ _ _ Hf)| | |].
    - intros a' (Hc & [Hb Hn] & Hm & _ & Hp). rewrite <- Hc1, <- Hc2, <- Hm1, <- Hm2, <- Ht2.
      split_and!; auto. intros raw. by rewrite Hp, Hp2, Hp1.
    - intros e a'. exact (fun Hx => Hx).
    - intros x a'. exact (fun Hx => Hx). }
  intros r a3 Hr.
  assert (Hr' : cached_nonblocking a3 = cached_nonblocking a2 /\ kept (inner a2) (inner a3)) by by destruct r.
  clear Hr. destruct Hr' as (Hc3 & Hm3 & Ht3 & Hp3). eapply ends_bind.
  { eapply ends_attempt. eapply ends_weaken;
      [apply ends_why, (on_inner_ends _ _ _ _ (set_write_timeout_law _))| | |].
    - by intros a' (_ & [] & _).
    - intros e a'. exact (fun Hx => Hx).
    - intros x a'. exact (fun Hx => Hx). }
  rewrite store_stored. intros reset a4 H4.
  assert (cached_nonblocking a4 = cached_nonblocking a /\ mode (inner a4) = mode (inner a) /\
          forall raw, passes (inner a4) raw = passes (inner a) raw) as (Hc4 & Hm4 & Hp4).
  { destruct reset; [|apply proj1 in H4]; destruct H4 as (Hc & Hm & _ & Hp); rewrite Hc, Hm; split_and!; try congruence;
      intros raw; by rewrite Hp, Hp3, Hp2, Hp1. }
  destruct reset as [u|e].
  - destruct H4 as (_ & _ & Ht4 & _). destruct r; simpl; auto.
  - destruct H4 as [(_ & _ & Ht4 & _) (eo & Hrun & He)%on_inner_why]. simpl. split; [done|]. right.
    split; [by rewrite Ht4, Ht3, Ht2|]. by exists (inner a3), eo.
Qed.
End op_proofs.

(** ** Every operation *)

Definition width_ok {SId EId} (f : IdMaskFilter SId EId) : bool :=
  match filter_id f, filter_mask f with
  | Standard _, StandardMask _ | Extended _, ExtendedMask _ => true
  | _, _ => false
  end.
Definition op_typed {Frame SId EId} (op : CanOp Frame (IdMaskFilter SId EId)) : Prop :=
  match op with OpSetFilters l => Forall mask_typed l | _ => True end.

(** States an adapter can be in: made by [new] or [open], then used. *)
Inductive reachable {Sock Frame CE SId EId} `{CanSocketOps Sock Frame}
    (run : CanOp Frame (IdMaskFilter SId EId) -> M (SocketCan Sock) (stop (SocketcanError CE)) (option Frame)) :
    SocketCan Sock -> Prop :=
| reach_new s : reachable run (new s)
| reach_open s a : open (CE := CE) (Ok s) = Ok a -> reachable run a
| reach_op a op : op_typed op -> reachable run a -> reachable run (run op a).2.

Lemma push_filters_err {SId EId CE} `{EmbeddedCan SId EId} (l : list (IdMaskFilter SId EId)) out :
  match push_filters (CE := CE) l out with Ok _ => true | _ => false end = forallb width_ok l.
Proof.
  revert out. induction l as [|f l IH]; intros out; [done|]. cbn [push_filters forallb].
  by destruct f as [[i|i] [m|m]]; unfold to_socketcan_filter; cbn [filter_id filter_mask width_ok]; simpl.
Qed.

Section outcomes.
Context {Sock Frame CE SId EId : Type} `{EmbeddedCan SId EId} `{!CanIdRanges SId EId}.
Context `{CanSocketLaws Sock Frame}.
Context (is_error : Frame -> bool) (map_frame : Frame -> result Frame (stop (SocketcanError CE))).
Hypothesis map_frame_ok : forall f,
  match map_frame f with
  | Ok f' => f' = f /\ is_error f = false
  | Err (Fails _) => is_error f = true
  | _ => False
  end.
Abbreviation Op := (CanOp Frame (IdMaskFilter SId EId)).
Abbreviation Error := (SocketcanError CE).
Implicit Types (a : SocketCan Sock) (op : Op).

(** The operations, as both adapters have them. *)
Definition adapter_op (op : Op) : M (SocketCan Sock) (stop Error) (option Frame) :=
  match op with
  | OpSend f => on_inner (write_frame_insist f);; mret None
  | OpTrySend f => with_nonblocking (write_frame f);; mret None
  | OpSendTimeout f t => with_write_timeout t (write_frame f);; mret None
  | OpRecv => f ← (f ← on_inner read_frame; lift (map_frame f)); mret (Some f)
  | OpTryRecv => f ← (f ← with_nonblocking read_frame; lift (map_frame f)); mret (Some f)
  | OpRecvTimeout t => f ← (f ← on_inner (read_frame_timeout t); lift (map_frame f)); mret (Some f)
  | OpWaitNotEmpty => (a ← get; lift (wait_for_readable (poll_answers (inner a))));; mret None
  | OpSetNonblocking on => (on_inner (set_nonblocking on);; set_cached on);; mret None
  | OpSetFilters l =>
      match l with
      | [] => on_inner set_filter_accept_all
      | _ => out ← lift (push_filters l []); on_inner (set_socket_filters out)
      end;; mret None
  end.

Lemma ends_split {A} (W : SocketCan Sock -> Prop) (Q : A -> _) (F : Error -> _)
    (P : SocketCan Sock -> Prop) run :
  ends (fun a' => P a' /\ W a') (fun x a' => P a' /\ Q x a') (fun e a' => P a' /\ F e a') run ->
  P run.2 /\ ends W Q F run.
Proof. destruct run as [[x|[e| |]|] a']; simpl; tauto. Qed.

Lemma ends_map_frame (W Q : SocketCan Sock -> Prop) (F : Error -> SocketCan Sock -> Prop)
    (m : M (SocketCan Sock) (stop Error) Frame) a :
  ends W (fun _ => Q) F (m a) -> (forall e a', Q a' -> F e a') ->
  ends W (fun o a' => Q a' /\ from_option (fun f => is_error f = false) True o) F
    ((f ← (f ← m; lift (map_frame f)); mret (Some f)) a).
Proof.
  intros Hm HF. eapply (ends_bind (fun f a' => Q a' /\ is_error f = false)); [|by intros f a' [??]].
  eapply ends_bind; [exact Hm|]. intros f a' HQ. unfold lift. pose proof (map_frame_ok f) as Hf.
  destruct (map_frame f) as [f'|[e| |]|]; simpl; try done; [by destruct Hf as [-> ?]|auto].
Qed.

Lemma ends_unit {A} (W : SocketCan Sock -> Prop) (Q : SocketCan Sock -> Prop) (F : Error -> _ -> Prop)
    (m : M (SocketCan Sock) (stop Error) A) a :
  ends W (fun _ => Q) F (m a) ->
  ends W (fun o a' => Q a' /\ from_option (fun f : Frame => is_error f = false) True o) F
    ((m;; mret None) a).
Proof. intros Hm. eapply ends_bind; [exact Hm|]. by intros x a' HQ. Qed.

Lemma adapter_ok_same a a' :
  adapter_ok a -> cached_nonblocking a' = cached_nonblocking a -> mode (inner a') = mode (inner a) ->
  adapter_ok a'.
Proof. unfold adapter_ok. by intros Ha -> ->. Qed.

(** Close what an operation leaves to show from what its calls did. *)
Ltac settle_op :=
  unfold kept, settings, never, op_typed in *;
  cbn [may_wait mode_after passes_after] in *;
  intros; destruct_and?; split_and?; auto;
  try (eapply adapter_ok_same; [eassumption|congruence..]); try congruence; try tauto.

Lemma set_filters_ends l a :
  Forall mask_typed l ->
  ends (E := Error) (fun _ => False)
    (fun _ a' => cached_nonblocking a' = cached_nonblocking a /\
       mode (inner a') = mode (inner a) /\ stored_timeout (inner a') = stored_timeout (inner a) /\
       forall (frame : UnixFrame SId EId) rtr,
         passes (inner a') (raw_id (frame_id frame) rtr) = filters_match l frame)
    (fun _ a' => cached_nonblocking a' = cached_nonblocking a /\ kept (inner a) (inner a'))
    (match l with
     | [] => on_inner set_filter_accept_all
     | _ => out ← lift (push_filters l []); on_inner (set_socket_filters out)
     end a).
Proof.
  intros Hl. destruct l as [|f0 l0]; cbn [filters_match].
  - eapply ends_weaken; [apply (on_inner_ends _ _ _ _ accept_all_law)|..]; settle_op.
  - set (l := f0 :: l0) in *. unfold lift. pose proof (push_filters_spec (CE := CE) l [] Hl) as Hpush.
    destruct (push_filters l []) as [fs|e|]; [|by subst e|done].
    eapply ends_weaken; [apply (on_inner_ends _ _ _ _ (set_socket_filters_law fs))|..]; [settle_op..|].
    intros _ a' (Hc & Hm & Ht & Hp). split_and!; [done..|]. intros frame rtr. by rewrite Hp, Hpush.
Qed.

Lemma wait_ends W (l : list (option OsError)) a :
  (forall a', a' = a -> W a') ->
  ends (E := Error) W (fun _ a' => a' = a) (fun _ a' => a' = a) (wait_for_readable l, a).
Proof.
  intros HW. induction l as [|[e|] l IH]; [by apply HW| |done].
  by destruct e.
Qed.

Lemma set_mode_ends on a :
  ends (E := Error) (fun _ => False)
    (fun _ a' => cached_nonblocking a' = on /\ settings on (stored_timeout (inner a)) (passes (inner a)) (inner a'))
    (fun _ a' => cached_nonblocking a' = cached_nonblocking a /\ kept (inner a) (inner a'))
    ((on_inner (set_nonblocking on);; set_cached on) a).
Proof.
  eapply ends_bind.
  - eapply ends_weaken; [apply (on_inner_ends _ _ _ _ (set_nonblocking_law on))|..]; [settle_op..|].
    intros x a' H'. exact H'.
  - intros [] a' [_ Hs]. by split.
Qed.

Lemma adapter_op_outcome op a :
  op_typed op -> adapter_ok a -> op_outcome is_error op a (adapter_op op a).
Proof.
  intros Hop Ha. unfold op_outcome. apply ends_split. destruct op as [f|f|f t| | |t| |on|l]; cbn [adapter_op].
  - eapply ends_weaken; [apply ends_unit; apply (on_inner_ends _ _ _ _ (write_frame_insist_law f))|..]; settle_op.
  - eapply ends_weaken; [apply ends_unit; apply (with_nonblocking_ends (write_frame f)); [|done]|..]; settle_op.
    eapply ends_weaken; [apply write_frame_law|..]; settle_op.
  - eapply ends_weaken; [apply ends_unit; apply (with_write_timeout_ends t); apply write_frame_law|..]; settle_op.
  - eapply ends_weaken; [apply ends_map_frame; [apply (on_inner_ends _ _ _ _ read_frame_law)|]|..]; settle_op.
  - eapply ends_weaken; [apply ends_map_frame; [apply (with_nonblocking_ends read_frame); [|done]|]|..]; settle_op.
    eapply ends_weaken; [apply read_frame_law|..]; settle_op.
  - eapply ends_weaken; [apply ends_map_frame; [apply (on_inner_ends _ _ _ _ (read_frame_timeout_law t))|]|..]; settle_op.
  - eapply ends_weaken; [apply ends_unit; apply (wait_ends (fun a' => a' = a)); auto|..]; settle_op.
  - eapply ends_weaken; [apply ends_unit; apply set_mode_ends|..]; settle_op.
  - eapply ends_weaken; [apply ends_unit; apply set_filters_ends; done|..]; settle_op.
Qed.

Lemma open_new_ok s : adapter_ok (new s) /\ forall a, open (CE := CE) (Ok s) = Ok a -> adapter_ok a.
Proof.
  pose proof (nonblocking_law s) as Hs. unfold new, open, adapter_ok. cbn [map_err].
  destruct (nonblocking s) as [[b|[e| |]|] s'] eqn:E; simpl in Hs; try done.
  destruct Hs as [-> (Hm & _)]. split; [simpl; congruence|]. intros a [= <-]. simpl. congruence.
Qed.

Lemma reachable_ok a : reachable adapter_op a -> adapter_ok a.
Proof.
  induction 1 as [s|s a Ho|a op Hop _ IH].
  - apply open_new_ok.
  - by apply (open_new_ok s).
  - by apply (adapter_op_outcome op a).
Qed.
End outcomes.

Lemma reachable_ext {Sock Frame CE SId EId} `{CanSocketOps Sock Frame}
    (run run' : CanOp Frame (IdMaskFilter SId EId) -> M (SocketCan Sock) (stop (SocketcanError CE)) (option Frame)) a :
  (forall op, run op = run' op) -> reachable run a -> reachable run' a.
Proof.
  intros Heq. induction 1 as [s|s a Ho|a op Hop _ IH]; [apply reach_new|by eapply reach_open|].
  rewrite Heq. by apply reach_op.
Qed.

Section claims.
Context {SId EId : Type} `{EmbeddedCan SId EId} `{!CanIdRanges SId EId}.
Context {D R F X CE CanSock CanFdSock : Type} (into_error : X -> CE).
Context `{CanSocketLaws CanSock (CanFrame D R X)} `{CanSocketLaws CanFdSock (CanAnyFrame D R F X)}.

Definition is_error_frame (f : CanFrame D R X) : bool := match f with ErrorFrame _ => true | _ => false end.
Definition is_error_any (f : CanAnyFrame D R F X) : bool := match f with AnyError _ => true | _ => false end.

(** The adapters' operations, by the traits they implement. *)
Definition socketcan_op : CanOp (CanFrame D R X) (IdMaskFilter SId EId) ->
    M (SocketCan CanSock) (stop (SocketcanError CE)) (option (CanFrame D R X)) :=
  run_op SocketCan_TxFrameIo (SocketCan_RxFrameIo into_error) SocketCan_BlockingControl SocketCan_FilterConfig.
Definition socketcan_fd_op : CanOp (CanAnyFrame D R F X) (IdMaskFilter SId EId) ->
    M (SocketCan CanFdSock) (stop (SocketcanError CE)) (option (CanAnyFrame D R F X)) :=
  run_op SocketCanFd_TxFrameIo (SocketCanFd_RxFrameIo into_error) SocketCanFd_BlockingControl
    SocketCanFd_FilterConfig.

(** C38. However a blocking adapter has been used, each operation of [SocketCan] and of
    [SocketCanFd] returns, fails or waits, and it waits only if it may:
    [try_send], [try_recv] and [recv_timeout] never do, [recv] not on a
    non-blocking socket, [send_timeout] not when the kernel keeps the timeout.
    When it succeeds, the socket's mode and write timeout are what they were
    ([set_nonblocking] apart), no error frame is returned as a frame, and
    after [set_filters] the socket passes exactly the frames the bus server
    would deliver for these filters.  When it fails, the filters are untouched,
    and mode and timeout too, unless the operation's error is that of the call
    that was to restore them.  The
    cached mode is never wrong about a non-blocking socket. *)
Theorem socketcan_outcomes :
  (forall a op, op_typed op -> reachable socketcan_op a ->
     adapter_ok a /\ op_outcome is_error_frame op a (socketcan_op op a)) /\
  (forall a op, op_typed op -> reachable socketcan_fd_op a ->
     adapter_ok a /\ op_outcome is_error_any op a (socketcan_fd_op op a)).
Proof.
  assert (H6 : forall f, match map_can_frame into_error f with
    | Ok f' => f' = f /\ is_error_frame f = false | Err (Fails _) => is_error_frame f = true
    | _ => False end) by by intros [].
  assert (H7 : forall f, match map_any_frame into_error f with
    | Ok f' => f' = f /\ is_error_any f = false | Err (Fails _) => is_error_any f = true
    | _ => False end) by by intros [].
  split; intros a op Hop Ha.
  - assert (Hrun : forall op, socketcan_op op = adapter_op (map_can_frame into_error) op) by by intros [].
    assert (adapter_ok a) by (eapply reachable_ok, (reachable_ext _ _ _ Hrun Ha); exact H6).
    rewrite Hrun. split; [done|]. by apply adapter_op_outcome.
  - assert (Hrun : forall op, socketcan_fd_op op = adapter_op (map_any_frame into_error) op) by by intros [].
    assert (adapter_ok a) by (eapply reachable_ok, (reachable_ext _ _ _ Hrun Ha); exact H7).
    rewrite Hrun. split; [done|]. by apply adapter_op_outcome.
Qed.
End claims.

(** * Setting filters *)

Section set_filters.
Context {SId EId : Type} `{EmbeddedCan SId EId} `{!CanIdRanges SId EId} {CE : Type}.
Abbreviation Error := (SocketcanError CE).

(** What [set_filters] is to do: a list with an identifier and a mask of
    different widths is refused and nothing changes; otherwise the socket comes
    to pass the frames that the bus server's rule selects, or the system call
    fails and the socket keeps its settings. *)
Definition sets_filters {Self Sock} `{CanSocketView Sock} (view : Self -> Sock)
    (l : list (IdMaskFilter SId EId)) (m : M Self (stop Error) unit) : Prop := forall a,
  if forallb width_ok l
  then ends (fun _ => False)
         (fun _ a' => forall (frame : UnixFrame SId EId) rtr,
            passes (view a') (raw_id (frame_id frame) rtr) = filters_match l frame)
         (fun e a' => (exists os, e = SockIo os) /\ kept (view a) (view a')) (m a)
  else m a = (Err (Fails (InvalidInput "id/mask width mismatch")), a).

Lemma sets_filters_via {Self Sock Frame} `{CanFilterLaws Sock Frame} (view : Self -> Sock)
    (upd : Sock -> Self -> Self) l :
  (forall s a, view (upd s a) = s) -> Forall mask_typed l ->
  sets_filters view l
    (match l with
     | [] => map_fails SockIo (on_field view upd set_filter_accept_all)
     | _ => out ← lift (push_filters l []); map_fails SockIo (on_field view upd (set_socket_filters out))
     end).
Proof.
  intros Hupd Hl a.
  assert (Hcall : forall (m : M Sock (stop OsError) unit) post, answers m never post ->
    ends (E := Error) (fun _ => False) (fun _ a' => post (view a) tt (view a'))
      (fun e a' => (exists os, e = SockIo os) /\ kept (view a) (view a'))
      (map_fails SockIo (on_field view upd m) a)).
  { intros m post Hm. specialize (Hm (view a)). revert Hm. unfold ends, map_fails, on_field.
    destruct (m (view a)) as [[[]|[e| |]|] s']; rewrite ?Hupd; unfold never; [done| |tauto|done|done].
    intros Hk. split; [by exists e|done]. }
  destruct l as [|f0 l0]; cbn [filters_match].
  - eapply ends_mono; [apply (Hcall _ _ accept_all_law)|]. by intros [] a' (_ & _ & Hp).
  - set (l := f0 :: l0) in *. pose proof (push_filters_spec (CE := CE) l [] Hl) as Hpush.
    pose proof (push_filters_err (CE := CE) l []) as Herr. unfold lift, mbind, M_bind.
    destruct (push_filters l []) as [fs|e|]; [|by rewrite <- Herr, Hpush|done].
    rewrite <- Herr. eapply ends_mono; [apply (Hcall _ _ (set_socket_filters_law fs))|].
    intros [] a' (_ & _ & Hp) frame rtr. by rewrite Hp, Hpush.
Qed.

Context {D R F X CanSock CanFdSock TokioSock TokioFdSock : Type}.
Context `{CanFilterLaws CanSock (CanFrame D R X)} `{CanFilterLaws CanFdSock (CanAnyFrame D R F X)}.
Context `{CanFilterLaws TokioSock (CanFrame D R X)} `{CanFilterLaws TokioFdSock (CanAnyFrame D R F X)}.

(** C39. [set_filters] of all four SocketCAN adapters: the filter list reaches
    the kernel as raw filters that pass, for every identifier and both values of
    the remote flag, exactly the frames which [filters_match] of the Unix-socket
    bus server selects (an empty list passes everything); a list in which an
    identifier and its mask differ in width is refused before the socket is
    touched. *)
Theorem set_filters_agree l :
  Forall mask_typed l ->
  sets_filters inner l (fc_set_filters (FilterConfig := SocketCan_FilterConfig (CanSock := CanSock)) l) /\
  sets_filters inner l (fc_set_filters (FilterConfig := SocketCanFd_FilterConfig (CanFdSock := CanFdSock)) l) /\
  sets_filters tokio_inner l
    (fc_set_filters (FilterConfig := TokioSocketCan_FilterConfig (CanSock := TokioSock)) l) /\
  sets_filters tokio_inner l
    (fc_set_filters (FilterConfig := TokioSocketCanFd_FilterConfig (CanFdSock := TokioFdSock)) l).
Proof.
  intros Hl.
  assert (Htok : forall Sock (m1 : M Sock (stop OsError) unit) m2,
    match l with [] => on_tokio m1 | _ => out ← lift (tokio_push_filters (CE := CE) l []); on_tokio (m2 out) end =
    match l with
    | [] => map_fails SockIo (on_field tokio_inner (fun s _ => {| tokio_inner := s |}) m1)
    | _ => out ← lift (push_filters l []);
           map_fails SockIo (on_field tokio_inner (fun s _ => {| tokio_inner := s |}) (m2 out)) end).
  { intros. destruct l; [done|]. by rewrite tokio_push_filters_eq. }
  split_and!; cbn [fc_set_filters SocketCan_FilterConfig SocketCanFd_FilterConfig
                   TokioSocketCan_FilterConfig TokioSocketCanFd_FilterConfig]; rewrite ?Htok;
    by apply sets_filters_via.
Qed.
End set_filters.

(** * A socket in memory

    The laws hold of a socket with a receive queue, a send log and its
    settings. *)
Record SimSock (Frame : Type) := {
  sim_mode : bool;
  sim_timeout : option Duration;
  sim_filters : list CanFilter;
  sim_rx : list Frame;
  sim_tx : list Frame;
}.
Arguments sim_mode {Frame} _.
Arguments sim_timeout {Frame} _.
Arguments sim_filters {Frame} _.
Arguments sim_rx {Frame} _.
Arguments sim_tx {Frame} _.
Arguments Build_SimSock {Frame} _ _ _ _ _.

Global Instance SimSock_ops {Frame} : CanSocketOps (SimSock Frame) Frame := {|
  nonblocking s := (Ok (sim_mode s), s);
  set_nonblocking on s := (Ok tt, Build_SimSock on (sim_timeout s) (sim_filters s) (sim_rx s) (sim_tx s));
  write_timeout s := (Ok (sim_timeout s), s);
  set_write_timeout t s := (Ok tt, Build_SimSock (sim_mode s) t (sim_filters s) (sim_rx s) (sim_tx s));
  write_frame f s :=
    (Ok tt, Build_SimSock (sim_mode s) (sim_timeout s) (sim_filters s) (sim_rx s) (sim_tx s ++ [f]));
  write_frame_insist f s :=
    (Ok tt, Build_SimSock (sim_mode s) (sim_timeout s) (sim_filters s) (sim_rx s) (sim_tx s ++ [f]));
  read_frame s :=
    match sim_rx s with
    | [] => (Err (if sim_mode s then Fails EWouldBlock else Waiting), s)
    | f :: l => (Ok f, Build_SimSock (sim_mode s) (sim_timeout s) (sim_filters s) l (sim_tx s))
    end;
  read_frame_timeout _ s :=
    match sim_rx s with
    | [] => (Err (Fails ETimedOut), s)
    | f :: l => (Ok f, Build_SimSock (sim_mode s) (sim_timeout s) (sim_filters s) l (sim_tx s))
    end;
  set_filter_accept_all s :=
    (Ok tt, Build_SimSock (sim_mode s) (sim_timeout s) [{| cf_id := 0; cf_mask := 0 |}] (sim_rx s) (sim_tx s));
  set_socket_filters l s := (Ok tt, Build_SimSock (sim_mode s) (sim_timeout s) l (sim_rx s) (sim_tx s));
  poll_answers s := match sim_rx s with [] => [Some EInterrupted] | _ => [Some EInterrupted; None] end;
|}.
Global Instance SimSock_view {Frame} : CanSocketView (SimSock Frame) := {|
  mode := sim_mode; stored_timeout := sim_timeout; store_timeout t := t;
  passes s raw := existsb (kernel_match raw) (sim_filters s);
|}.
Global Instance SimSock_filter_laws {Frame} : CanFilterLaws (SimSock Frame) Frame.
Proof.
  split; intros; intros s; unfold kept, settings; simpl; split_and!; try done.
  intros raw. unfold kernel_match. simpl. by rewrite !Z.land_0_r.
Qed.
Global Instance SimSock_laws {Frame} : CanSocketLaws (SimSock Frame) Frame.
Proof.
  split; try apply _; intros; try (intros s; unfold kept, settings; simpl); try done;
    unfold never; destruct (sim_rx s), (sim_mode s) eqn:?; simpl; auto.
Qed.
Global Instance RawIds_ranges : CanIdRanges { i : StdId | bool_decide (0 <= std_raw i < 2048)%Z }
  { i : ExtId | bool_decide (0 <= ext_raw i < 536870912)%Z }.
Proof. by split; intros [[r] Hr]; simpl; apply bool_decide_unpack in Hr. Qed.

Abbreviation DemoFrame := (CanFrame Z Z Z).
Definition demo_sock : SimSock DemoFrame :=
  {| sim_mode := false; sim_timeout := Some 5%Z; sim_filters := []; sim_rx := [ErrorFrame 9%Z; DataFrame 1%Z];
     sim_tx := [] |}.
Definition demo_filter : IdMaskFilter { i : StdId | bool_decide (0 <= std_raw i < 2048)%Z }
    { i : ExtId | bool_decide (0 <= ext_raw i < 536870912)%Z } :=
  {| filter_id := demo_can_id; filter_mask := StandardMask 2047 |}.

(** [try_recv] turns the error frame into an error and returns the data frame
    on the next call, on a socket that is blocking again. *)
Example socketcan_demo :
  let run := socketcan_op (SId := { i : StdId | bool_decide (0 <= std_raw i < 2048)%Z })
               (EId := { i : ExtId | bool_decide (0 <= ext_raw i < 536870912)%Z })
               (CanSock := SimSock DemoFrame) (fun x : Z => x) in
  let '(r1, a1) := run OpTryRecv (new demo_sock) in
  let '(r2, a2) := run OpTryRecv a1 in
  let '(r3, a3) := run OpTryRecv a2 in
  r1 = Err (Fails (CanErr 9%Z)) /\ r2 = Ok (Some (DataFrame 1%Z)) /\ r3 = Err (Fails (SockIo EWouldBlock)) /\
  sim_mode (inner a3) = false /\ cached_nonblocking a3 = false.
Proof. by vm_compute. Qed.

Lemma socketcan_outcomes_witness :
  let op := OpSetFilters [demo_filter] in
  let a := new demo_sock in
  adapter_ok a /\
  op_outcome is_error_frame op a
    (socketcan_op (CE := Z) (CanSock := SimSock DemoFrame) (fun x : Z => x) op a).
Proof.
  intros op a. eapply (proj1 (socketcan_outcomes (R := Z) (F := Z) (CanFdSock := SimSock (CanAnyFrame Z Z Z Z)) _)).
  - constructor; [|done]. unfold mask_typed, in_width. simpl. lia.
  - apply reach_new.
Defined.

Lemma set_filters_agree_witness :
  sets_filters (CE := Z) inner [demo_filter]
    (fc_set_filters (FilterConfig := SocketCan_FilterConfig (D := Z) (R := Z) (X := Z)
       (CanSock := SimSock DemoFrame)) [demo_filter]).
Proof.
  refine (proj1 (set_filters_agree (F := Z) (CanFdSock := SimSock (CanAnyFrame Z Z Z Z))
    (TokioSock := SimSock DemoFrame) (TokioFdSock := SimSock (CanAnyFrame Z Z Z Z)) [demo_filter] _)).
  constructor; [|done]. unfold mask_typed, in_width. simpl. lia.
Defined.
