(* ===== verification/PingPong.v ===== *)
(** * The ping/pong example

    Models [examples/thincan-example/src/main.rs] and the accessors of
    [person_capnp.rs]: the command line ([parse_uds_addr]), the message
    ([PersonValue], [decode_seq_capnp]), the shared CAN handles ([SharedTx],
    [SharedRx]), [run_listen] and [run_ping].  The ISO-TP demultiplexer of the
    [can_iso_tp] crate is a node that follows a script: what each [recv_one]
    does and how each [send_to] ends.  The theorems say which addresses the
    command line accepts, that the listener answers every ping once and in
    order, what [run_ping] concludes, and that the two programs meet. *)
From S2P Require Import Prelude Script Wire Maplet Interface FtSchema SocketCan RustText.

(** * Command line *)

Inductive Command := Listen | Ping (to : u8).

Record Cli := {
  cli_id : u8;
  uds_socket : str;
  isotp_block_size : u8;
  isotp_frame_len : nat;
  command : Command;
}.

(** The messages of the errors, told apart. *)
Inductive AddrError := InvalidHexAddress | InvalidAddress | AddressTooLarge.

Definition HEX_PREFIX : str := [48; 120]%Z.

Definition parse_uds_addr (raw : str) : result u8 AddrError :=
  let raw := trim raw in
  let? value := match strip_prefix HEX_PREFIX raw with
                | Some hex => ok_or (from_str_radix hex 16) InvalidHexAddress
                | None => ok_or (parse_u32 raw) InvalidAddress
                end in
  if (255 <? value)%Z then Err AddressTooLarge else Ok value.

(** * Messages *)

(** [bus_atlas!] and [protocol_bundle]. *)
Definition PING_ID : u16 := 256.
Definition PONG_ID : u16 := 257.
Definition protocol_bundle : Bundle := {| MESSAGE_COUNT := 2; BUNDLE_IDS := [PING_ID; PONG_ID] |}.
Definition message_ids : list u16 := default [] (maplet_from_bundles [protocol_bundle]).

(** The capnp crate, for a struct whose pointers are texts.  [build_struct data
    pointers texts buf] is a message built in [buf] with [init_root] and one
    text set per pointer field; [read_struct] is [with_root], a reader gives
    the text of a pointer field or an error. *)
Class CapnpText (CapnpError : Type) := {
  build_struct : nat -> nat -> list bytes -> bytes -> option (list bytes * bytes);
  read_struct : bytes -> (nat -> option bytes) + CapnpError;
}.
Global Hint Mode CapnpText - : typeclass_instances.

(** The layout: a root pointer, the struct, and each text with its NUL, padded;
    messages within the default limit of a reader are built and read. *)
Definition struct_size (data pointers : nat) (texts : list bytes) : nat :=
  8 + 8 * (data + pointers) + list_sum (map (fun t => words_len (length t + 1)) texts).

Class CapnpTextLaws (CapnpError : Type) `{CapnpText CapnpError} :=
  build_struct_law : forall data pointers texts,
    (Z.of_nat data < 65536)%Z -> (Z.of_nat pointers < 65536)%Z -> length texts = pointers ->
    (Z.of_nat (struct_size data pointers texts) <= READER_LIMIT)%Z -> exists seg,
    builds (build_struct data pointers) (struct_size data pointers texts) texts seg /\
    exists reader, read_struct seg = inl reader /\ forall i t, texts !! i = Some t -> reader i = Some t.

(** [person_capnp.rs]: no data words, the pointers [name] and [email]. *)
Definition PERSON_DATA : nat := 0.
Definition PERSON_POINTERS : nat := 2.
Definition get_name (reader : nat -> option bytes) : option bytes := reader 0.
Definition get_email (reader : nat -> option bytes) : option bytes := reader 1.

(** The fields are given by their UTF-8 bytes. *)
Record PersonValue := { name : bytes; email : bytes }.

Section person.
Context {CapnpError : Type} `{CapnpText CapnpError}.

(** [init_root], [set_name], [set_email]. *)
Definition build_person (v : PersonValue) (buf : bytes) : option (list bytes * bytes) :=
  build_struct PERSON_DATA PERSON_POINTERS [name v; email v] buf.

Definition PERSON_BUF : nat := 256.

Definition PersonValue_encode (v : PersonValue) : M bytes Error nat := fun out =>
  match build_person v (replicate PERSON_BUF 0%Z) with
  | None => (Panic, out)
  | Some (segments, _) =>
      if negb (length segments =? 1) then (Err {| kind := Other |}, out)
      else
        match segments !! 0 with
        | None => (Panic, out)
        | Some bytes =>
            if length out <? length bytes
            then (Err {| kind := BufferTooSmall (length bytes) (length out) |}, out)
            else match copy_at out 0 bytes with
                 | None => (Panic, out)
                 | Some out' => (Ok (length bytes), out')
                 end
        end
  end.

#[global] Instance PersonValue_EncodeCapnp : EncodeCapnp PersonValue := {
  max_encoded_len _ := 256;
  encode := PersonValue_encode;
}.

Definition decode_seq_capnp (body : bytes) : option u32 :=
  match read_struct body with
  | inr _ => None
  | inl root => t ← get_name root; s ← from_utf8 t; parse_u32 s
  end.
End person.

(** * The shared CAN handle *)

(** [split_shared]: both handles name this cell. *)
Definition split_shared {T} (can : T) : SharedCell T := {| cell := can; poisoned := false |}.

(** [let mut guard = self.inner.lock().unwrap(); guard.method(..)]. *)
Definition locked {T E A} (m : M T (stop E) A) : M (SharedCell T) (stop E) A := fun s =>
  if poisoned s then (Panic, s)
  else let '(r, c) := m (cell s) in
       (r, {| cell := c; poisoned := match r with Panic => true | _ => false end |}).

#[global] Instance SharedTx_TxFrameIo {T Frame Error} `{TxFrameIo T Frame Error} :
    TxFrameIo (SharedCell T) Frame Error := {
  tx_send f := locked (tx_send f);
  tx_try_send f := locked (tx_try_send f);
  tx_send_timeout f t := locked (tx_send_timeout f t);
}.
#[global] Instance SharedRx_RxFrameIo {T Frame Error} `{RxFrameIo T Frame Error} :
    RxFrameIo (SharedCell T) Frame Error := {
  rx_recv := locked rx_recv;
  rx_try_recv := locked rx_try_recv;
  rx_recv_timeout t := locked (rx_recv_timeout t);
  rx_wait_not_empty := locked rx_wait_not_empty;
}.

(** * The demultiplexer *)

(** [can_iso_tp::IsoTpConfig]: the fields the program sets. *)
Record IsoTpConfig (Rest : Type) := { max_payload_len : nat; block_size : u8; frame_len : nat; cfg_rest : Rest }.
Arguments max_payload_len {Rest} _.
Arguments block_size {Rest} _.
Arguments frame_len {Rest} _.
Arguments cfg_rest {Rest} _.

Definition MAX_ISO_TP_PAYLOAD : nat := 4095.

(** What one [recv_one] does: it calls the callback with a payload, times out
    or fails. *)
Inductive DemuxEvent (E : Type) :=
| DeliverEv (reply_to : u8) (payload : bytes)
| TimeoutEv
| RecvErrEv (e : RecvError E).
Arguments DeliverEv {E} reply_to payload.
Arguments TimeoutEv {E}.
Arguments RecvErrEv {E} e.

(** [can_iso_tp::IsoTpDemux] by what it will do; [dn_answers n] ends the [n]th
    [send_to], [dn_sent] records the calls. *)
Record DemuxNode (E : Type) := {
  dn_events : list (DemuxEvent E);
  dn_answers : nat -> option (SendError E);
  dn_sent : list (u8 * bytes);
}.
Arguments dn_events {E} _.
Arguments dn_answers {E} _.
Arguments dn_sent {E} _.

Section demux.
Context {E : Type}.

Definition demux_send (to : u8) (payload : bytes) (timeout : Duration) : M (DemuxNode E) (SendError E) unit :=
  fun n => (match dn_answers n (length (dn_sent n)) with None => Ok tt | Some e => Err e end,
            {| dn_events := dn_events n; dn_answers := dn_answers n;
               dn_sent := dn_sent n ++ [(to, payload)] |}).

#[global] Instance DemuxNode_endpoint : IsoTpEndpoint (DemuxNode E) E := {
  node_send_to := demux_send;
  node_send_functional_to := demux_send;
}.

(** [recv_one]; it stays suspended where the script ends. *)
Definition demux_recv_one {S} (on_payload : u8 -> bytes -> S -> result RecvControl E * S) :
    M (DemuxNode E * S) (stop (RecvError E)) RecvStatus := fun '(n, s) =>
  match dn_events n with
  | [] => (Err Waiting, (n, s))
  | ev :: evs =>
      let n' := {| dn_events := evs; dn_answers := dn_answers n; dn_sent := dn_sent n |} in
      match ev with
      | TimeoutEv => (Ok StatusTimedOut, (n', s))
      | RecvErrEv e => (Err (Fails e), (n', s))
      | DeliverEv from p =>
          match on_payload from p s with
          | (Ok _, s') => (Ok StatusDeliveredOne, (n', s'))
          | (Err e, s') => (Err (Fails (RecvBackend e)), (n', s'))
          | (Panic, s') => (Panic, (n', s'))
          end
      end
  end.
End demux.

(** * The programs *)

Inductive ExampleError (E : Type) :=
| OpenFailed
| FilterFailed
| DemuxFailed
| RecvFailed (e : RecvError E)
| SendFailed (e : Error)
| PingTimedOut.
Arguments OpenFailed {E}.
Arguments FilterFailed {E}.
Arguments DemuxFailed {E}.
Arguments RecvFailed {E} e.
Arguments SendFailed {E} e.
Arguments PingTimedOut {E}.

Definition IO_TIMEOUT : Duration := 5000000000.

Section programs.
Context {CapnpError E W R : Type} `{CapnpText CapnpError} `{WatchOps W R}.
Abbreviation Iface := (Interface (DemuxNode E) W).
Abbreviation Run := (M Iface (stop (ExampleError E))).

(** [iface.node_mut()]: the node of the transmit half. *)
Definition set_node (n : DemuxNode E) (i : Iface) : Iface :=
  set_tx_state {| tx_node := n; tx := tx (tx_state i) |} i.

(** [iface.node_mut().recv_one(..).map_err(..)?] with a callback on a local. *)
Definition recv_with {S} (on_payload : u8 -> bytes -> S -> result RecvControl E * S) (s : S) : Run S := fun i =>
  match demux_recv_one on_payload (tx_node (tx_state i), s) with
  | (Ok _, (n, s')) => (Ok s', set_node n i)
  | (Err (Fails e), (n, _)) => (Err (Fails (RecvFailed e)), set_node n i)
  | (Err Waiting, (n, _)) => (Err Waiting, set_node n i)
  | (Err OutOfFuel, (n, _)) => (Err OutOfFuel, set_node n i)
  | (Panic, (n, _)) => (Panic, set_node n i)
  end.

(** [iface.send_capnp_to::<M, _>(to, &value, IO_TIMEOUT)?]. *)
Definition send_person (ID : u16) (to : u8) (v : PersonValue) : Run unit :=
  catch (fun e => Fails (SendFailed e)) (send_capnp_to (Node := DemuxNode E) (E := E) ID to v IO_TIMEOUT).

Definition PONG_TEXT : str := [112; 111; 110; 103]%Z.
Definition PING_TEXT : str := [112; 105; 110; 103]%Z.
Definition pong_value (seq : u32) : PersonValue := {| name := to_string seq; email := PONG_TEXT |}.
Definition ping_value (seq : u32) : PersonValue := {| name := to_string seq; email := PING_TEXT |}.

(** *** [run_listen] *)

(** The callback; its local is [pending_pongs]. *)
Definition listen_callback (reply_to : u8) (payload : bytes) (pending_pongs : list (u8 * u32)) :
    result RecvControl E * list (u8 * u32) :=
  match decode_wire payload with
  | Panic => (Panic, pending_pongs)
  | Err _ => (Ok ControlContinue, pending_pongs)
  | Ok raw =>
      let pending_pongs :=
        if (id raw =? PING_ID)%Z then
          match decode_seq_capnp (body raw) with
          | Some seq => pending_pongs ++ [(reply_to, seq)]
          | None => pending_pongs
          end
        else pending_pongs in
      (Ok ControlContinue, pending_pongs)
  end.

(** [while let Some((to, seq)) = pending_pongs.pop_front()]. *)
Fixpoint send_pongs (pending_pongs : list (u8 * u32)) : Run unit :=
  match pending_pongs with
  | [] => mret tt
  | (to, seq) :: rest => send_person PONG_ID to (pong_value seq);; send_pongs rest
  end.

(** The loop; each round takes an event of the script. *)
Fixpoint listen_loop (fuel : nat) : Run unit :=
  match fuel with
  | O => fail OutOfFuel
  | S fuel' =>
      pending_pongs ← recv_with listen_callback [];
      send_pongs pending_pongs;;
      listen_loop fuel'
  end.

(** *** [run_ping] *)

(** The callback; its local is [got]. *)
Definition ping_callback (dest : u8) (seq : u32) (reply_to : u8) (payload : bytes) (got : bool) :
    result RecvControl E * bool :=
  if negb (reply_to =? dest)%Z then (Ok ControlContinue, got)
  else
    match decode_wire payload with
    | Panic => (Panic, got)
    | Err _ => (Ok ControlContinue, got)
    | Ok raw =>
        if (id raw =? PONG_ID)%Z then
          match decode_seq_capnp (body raw) with
          | None => (Ok ControlContinue, got)
          | Some got_seq => if (got_seq =? seq)%Z then (Ok ControlStop, true) else (Ok ControlContinue, got)
          end
        else (Ok ControlContinue, got)
    end.

(** The state of [run_ping]: the interface and the readings of [Instant::now]. *)
Abbreviation PingSt := (Iface * list Z)%type.
Abbreviation PingRun := (M PingSt (stop (ExampleError E))).

Definition on_iface {A} (m : Run A) : PingRun A :=
  on_field fst (fun i s => (i, s.2)) m.

Definition instant_now : PingRun Z := fun '(i, clock) =>
  match clock with
  | [] => (Err Waiting, (i, []))
  | t :: clock' => (Ok t, (i, clock'))
  end.

(** The loop; each round reads the clock. *)
Fixpoint ping_loop (fuel : nat) (dest : u8) (seq : u32) (deadline : Z) : PingRun unit :=
  match fuel with
  | O => fail OutOfFuel
  | S fuel' =>
      now ← instant_now;
      if (deadline <=? now)%Z then fail (Fails PingTimedOut)
      else
        got ← on_iface (recv_with (ping_callback dest seq) false);
        if (got : bool) then mret tt else ping_loop fuel' dest seq deadline
  end.

Definition PING_WAIT : Duration := 2000000000.

(** From the choice of [seq] on; [millis] is the time since the epoch, [None]
    when the clock is before it.  The result is what is printed. *)
Definition ping_from (fuel : nat) (dest : u8) (millis : option Z) : PingRun u32 :=
  ms ← or_panic millis;
  let seq := wrap 32 (Z.land ms 4294967295) in
  on_iface (send_person PING_ID dest (ping_value seq));;
  now ← instant_now;
  deadline ← or_panic (instant_add now PING_WAIT);
  ping_loop fuel dest seq deadline;;
  mret seq.

(** *** Setup and [main] *)

Section main.
Context {Can Filter FE Rest : Type} `{FilterConfig Filter Can FE}.
Context (default_cfg : IsoTpConfig Rest) (open_can : Cli -> option Can).
Context (filter_phys_for_target : u8 -> Filter).
Context (demux_new : SharedCell Can -> IsoTpConfig Rest -> u8 -> option (DemuxNode E)).

Definition base_isotp_cfg : IsoTpConfig Rest :=
  {| max_payload_len := MAX_ISO_TP_PAYLOAD; block_size := block_size default_cfg;
     frame_len := frame_len default_cfg; cfg_rest := cfg_rest default_cfg |}.

Definition isotp_cfg_for_cli (cli : Cli) : IsoTpConfig Rest :=
  let cfg := base_isotp_cfg in
  {| max_payload_len := max_payload_len cfg; block_size := isotp_block_size cli;
     frame_len := isotp_frame_len cli; cfg_rest := cfg_rest cfg |}.

(** What [run_listen] and [run_ping] begin with. *)
Definition setup (cli : Cli) : result Iface (stop (ExampleError E)) :=
  let? can := ok_or (open_can cli) (Fails OpenFailed) in
  let? can := match fc_set_filters [filter_phys_for_target (cli_id cli)] can with
              | (Ok _, can') => Ok can'
              | (Err (Fails _), _) => Err (Fails FilterFailed)
              | (Err Waiting, _) => Err Waiting
              | (Err OutOfFuel, _) => Err OutOfFuel
              | (Panic, _) => Panic
              end in
  let shared := split_shared can in
  let? tx_node := ok_or (demux_new shared (isotp_cfg_for_cli cli) (cli_id cli)) (Fails DemuxFailed) in
  let? rx_node := ok_or (demux_new shared (isotp_cfg_for_cli cli) (cli_id cli)) (Fails DemuxFailed) in
  Ok (interface_new message_ids 8 256 8 tx_node rx_node (replicate 4096 0%Z)).

Definition run_listen (cli : Cli) : result unit (stop (ExampleError E)) :=
  let? iface := setup cli in
  (listen_loop (S (length (dn_events (tx_node (tx_state iface))))) iface).1.

Definition run_ping (cli : Cli) (dest : u8) (millis : option Z) (clock : list Z) :
    result u32 (stop (ExampleError E)) :=
  let? iface := setup cli in
  (ping_from (S (length clock)) dest millis (iface, clock)).1.

(** [main] after [Cli::parse]; what [ping] prints is its result. *)
Definition main (cli : Cli) (millis : option Z) (clock : list Z) :
    result (option u32) (stop (ExampleError E)) :=
  match command cli with
  | Listen => map_ok (fun _ => None) (run_listen cli)
  | Ping to => map_ok Some (run_ping cli to millis clock)
  end.
End main.
End programs.

(** * Addresses *)

(** The texts the command line takes for an address: a decimal numeral or "0x"
    and a hexadecimal one, with white space around it. *)
Definition addr_text (raw : str) (v : Z) : Prop :=
  exists w1 s w2, raw = w1 ++ s ++ w2 /\
    Forall (fun c => is_whitespace c = true) w1 /\ Forall (fun c => is_whitespace c = true) w2 /\
    ((exists h, s = HEX_PREFIX ++ h /\ numeral 16 h v) \/ numeral 10 s v).

Lemma digit_not_blank radix c d : to_digit radix c = Some d -> is_whitespace c = false.
Proof.
  unfold to_digit, is_whitespace, between. intros Hd.
  destruct ((48 <=? c) && (c <=? 57))%Z eqn:H1; [|destruct ((97 <=? c) && (c <=? 122))%Z eqn:H2;
    [|destruct ((65 <=? c) && (c <=? 90))%Z eqn:H3; [|done]]];
    repeat match goal with
    | H : (_ && _) = true |- _ => apply andb_true_iff in H as [?%Z.leb_le ?%Z.leb_le]
    end;
    rewrite !orb_false_iff, !andb_false_iff, !Z.leb_gt, !Z.eqb_neq; lia.
Qed.

Lemma digits_ends radix b ds :
  digits radix b ds -> b <> [] ->
  (exists c t, b = c :: t /\ is_whitespace c = false) /\ (exists c t, b = t ++ [c] /\ is_whitespace c = false).
Proof.
  intros Hd Hne. split.
  - inversion Hd as [|c d t ds' Hc _]; subst; [done|]. exists c, t. eauto using digit_not_blank.
  - destruct b as [|c t _] using rev_ind; [done|]. exists c, t. split; [done|].
    apply Forall2_app_inv_l in Hd as (ds1 & ds2 & _ & Hd & _). inversion Hd as [|c' d t' ds' Hc Hr]; subst.
    eauto using digit_not_blank.
Qed.

Lemma numeral_ends radix s v :
  numeral radix s v -> s <> [] /\ trimmed s /\ exists c t, s = t ++ [c] /\ is_whitespace c = false.
Proof.
  intros (b & ds & Hs & Hne & Hd & _).
  destruct (digits_ends _ _ _ Hd Hne) as [(c & t & Hb & Hc) (c' & t' & Hb' & Hc')].
  assert (Hrev : forall l, rev (l ++ [c']) = c' :: rev l) by (intros; apply rev_app_distr).
  unfold trimmed. destruct Hs as [->| ->].
  - split; [done|]. split; [split; [by rewrite Hb|by rewrite Hb', Hrev]|eauto].
  - split; [done|]. split; [|exists c', (43%Z :: t'); by rewrite Hb'].
    split; [done|]. rewrite Hb', app_comm_cons, Hrev. done.
Qed.

(** The value the program reads before it checks the range. *)
Lemma addr_value raw v :
  match strip_prefix HEX_PREFIX (trim raw) with
  | Some hex => from_str_radix hex 16
  | None => parse_u32 (trim raw)
  end = Some v <-> addr_text raw v /\ (v <= u32_max)%Z.
Proof.
  unfold parse_u32. split.
  - destruct (trim_spec raw) as (w1 & w2 & Hraw & Hw1 & Hw2).
    destruct (strip_prefix HEX_PREFIX (trim raw)) as [hex|] eqn:Hp.
    + intros [Hn Hle]%from_str_radix_Some; [|lia]. apply strip_prefix_Some in Hp. split; [|done].
      exists w1, (trim raw), w2. eauto 10.
    + intros [Hn Hle]%from_str_radix_Some; [|lia]. split; [|done]. exists w1, (trim raw), w2. eauto 10.
  - intros [(w1 & s & w2 & -> & Hw1 & Hw2 & [(h & -> & Hn)|Hn]) Hle];
      destruct (numeral_ends _ _ _ Hn) as (Hne & Ht & c & t & Hs & Hc).
    + rewrite trim_blank; [|done..|split; [done|]].
      * rewrite (proj2 (strip_prefix_Some HEX_PREFIX (HEX_PREFIX ++ h) h)) by done.
        by apply from_str_radix_Some; [lia|].
      * rewrite Hs, app_assoc, rev_app_distr. done.
    + rewrite trim_blank by done. destruct (strip_prefix HEX_PREFIX s) as [h|] eqn:Hp.
      * exfalso. apply strip_prefix_Some in Hp as ->. destruct Hn as (b & ds & [<-|[=]] & _ & Hd & _).
        inversion Hd as [|c1 d1 b1 ds1 _ Hd1]; subst. inversion Hd1 as [|c2 d2 b2 ds2 Hx _]; subst.
        by vm_compute in Hx.
      * by apply from_str_radix_Some; [lia|].
Qed.

Lemma numeral_nonneg radix s v : (1 <= radix)%Z -> numeral radix s v -> (0 <= v)%Z.
Proof.
  intros Hr (b & ds & _ & _ & Hd & ->). apply digits_value_mono; [done..|].
  eapply Forall2_Forall_r; [exact Hd|]. apply Forall_true. intros c d Hc. by apply to_digit_bound in Hc as [? _].
Qed.

(** The command line takes exactly the addresses it documents: with white
    space around it, a decimal number or "0x" and a hexadecimal one (both may
    carry a plus sign), if the value fits eight bits; a larger value is refused
    as too large, anything else as malformed, and nothing panics. *)
Theorem parse_uds_addr_correct raw :
  (forall v, parse_uds_addr raw = Ok v <-> addr_text raw v /\ is_u8 v) /\
  (parse_uds_addr raw = Err AddressTooLarge <-> exists v, addr_text raw v /\ (255 < v <= u32_max)%Z) /\
  parse_uds_addr raw <> Panic.
Proof.
  pose proof (addr_value raw) as Hv. unfold parse_uds_addr.
  assert (Hmap : match strip_prefix HEX_PREFIX (trim raw) with
                 | Some hex => ok_or (from_str_radix hex 16) InvalidHexAddress
                 | None => ok_or (parse_u32 (trim raw)) InvalidAddress
                 end = match match strip_prefix HEX_PREFIX (trim raw) with
                             | Some hex => from_str_radix hex 16 | None => parse_u32 (trim raw) end with
                       | Some v => Ok v
                       | None => Err (match strip_prefix HEX_PREFIX (trim raw) with
                                      | Some _ => InvalidHexAddress | None => InvalidAddress end)
                       end).
  { destruct (strip_prefix _ _) as [h|]; unfold ok_or; [by destruct (from_str_radix h 16)|by destruct (parse_u32 _)]. }
  rewrite Hmap. clear Hmap. revert Hv. generalize (match strip_prefix HEX_PREFIX (trim raw) with
                             | Some hex => from_str_radix hex 16 | None => parse_u32 (trim raw) end).
  intros o Hv.
  assert (Hpos : forall v, addr_text raw v -> (0 <= v)%Z).
  { intros v (w1 & s & w2 & _ & _ & _ & [(h & _ & Hn)|Hn]); eapply numeral_nonneg; [|done| |done]; lia. }
  unfold in_width. destruct o as [x|].
  - destruct (proj1 (Hv x) eq_refl) as [Hx Hxle]. specialize (Hpos x Hx). destruct (Z.ltb_spec 255 x) as [Hl|Hl].
    + split; [|split; [|done]]; [split; [done|]|split; [by exists x|done]].
      intros [Ha Hw]. assert (Some x = Some v) by (apply Hv; split; [done|unfold u32_max; lia]). simplify_eq. lia.
    + split; [|split; [|done]].
      * split; [intros [= <-]; split; [done|lia]|]. intros [Ha Hw].
        assert (Some x = Some v) by (apply Hv; split; [done|unfold u32_max; lia]). by simplify_eq.
      * split; [done|]. intros (v & Ha & Hw). assert (Some x = Some v) by (apply Hv; split; [done|lia]).
        simplify_eq. lia.
  - split; [|split; [|done]].
    + split; [done|]. intros [Ha Hw]. assert (None = Some v) by (apply Hv; split; [done|unfold u32_max; lia]). done.
    + split; [by destruct (strip_prefix _ _)|]. intros (v & Ha & Hw).
      assert (None = Some v) by (apply Hv; split; [done|lia]). done.
Qed.

(** * The message *)

Section person_facts.
Context {CapnpError : Type} `{HC : CapnpTextLaws CapnpError}.
Implicit Types (v : PersonValue) (out : bytes).

Definition person_fits v : Prop := struct_size PERSON_DATA PERSON_POINTERS [name v; email v] <= PERSON_BUF.

(** The bytes of a value: the segment its builder makes. *)
Definition person_bytes v : bytes :=
  match build_person v (replicate PERSON_BUF 0%Z) with Some ([seg], _) => seg | _ => [] end.

Lemma person_built v :
  person_fits v ->
  exists rest reader, build_person v (replicate PERSON_BUF 0%Z) = Some ([person_bytes v], rest) /\
    length (person_bytes v) = struct_size PERSON_DATA PERSON_POINTERS [name v; email v] /\
    read_struct (person_bytes v) = inl reader /\ get_name reader = Some (name v) /\ get_email reader = Some (email v).
Proof.
  intros Hf.
  destruct (build_struct_law PERSON_DATA PERSON_POINTERS [name v; email v]) as (seg & Hb & reader & Hr & Hg);
    [unfold PERSON_DATA; lia|unfold PERSON_POINTERS; lia|done| |].
  { unfold READER_LIMIT. unfold person_fits, PERSON_BUF in Hf. lia. }
  destruct Hb as [Hlen Hb]. destruct (Hb (replicate PERSON_BUF 0%Z)) as (rest & Hbuild & _); [by len|].
  assert (Hseg : person_bytes v = seg) by (unfold person_bytes, build_person; by rewrite Hbuild).
  rewrite Hseg. exists (seg ++ rest), reader. split_and!; [done..|by apply (Hg 0)|by apply (Hg 1)].
Qed.

Lemma person_encode_run v out :
  person_fits v -> length (person_bytes v) <= length out ->
  PersonValue_encode v out =
    (Ok (length (person_bytes v)), person_bytes v ++ drop (length (person_bytes v)) out).
Proof.
  intros Hf Hl. destruct (person_built v Hf) as (rest & reader & Hb & _). unfold PersonValue_encode.
  rewrite Hb. simpl. destruct (Nat.ltb_spec (length out) (length (person_bytes v))); [lia|].
  by rewrite copy_at_Some by (simpl; lia).
Qed.

#[global] Instance PersonValue_keeps_length : EncodeKeepsLength PersonValue.
Proof.
  intros v out. simpl. unfold PersonValue_encode. destruct (build_person _ _) as [[segs live]|]; [|done].
  destruct (negb _); [done|]. destruct (segs !! 0) as [seg|]; [|done].
  destruct (_ <? _); [done|]. destruct (copy_at out 0 seg) eqn:Hc; [|done]. by apply copy_at_length in Hc.
Qed.

(** The payload of a message. *)
Definition payload_of (ID : u16) v : bytes := to_le_bytes 2 ID ++ person_bytes v.

Lemma person_payload ID v buf :
  person_fits v -> 258 <= length buf ->
  exists buf', encode_capnp_into_buf ID v buf = (Ok (payload_of ID v), buf') /\ length buf' = length buf.
Proof.
  intros Hf Hb. rewrite encode_capnp_into_buf_eq. unfold encode_capnp_spec.
  change (max_encoded_len v) with 256. unfold HEADER_LEN. destruct (Nat.ltb_spec (length buf) (2 + 256)); [lia|].
  destruct (person_built v Hf) as (rest & reader & _ & Hlen & _).
  assert (Hle : length (person_bytes v) <= 256) by (rewrite Hlen; exact Hf).
  change (encode v) with (PersonValue_encode v). rewrite person_encode_run by (done || len).
  destruct (Nat.ltb_spec 256 (length (person_bytes v))); [lia|]. rewrite take_app_length. eexists. split; [done|]. len.
Qed.

Lemma seq_fits seq text : is_u32 seq -> length text <= 7 -> person_fits {| name := to_string seq; email := text |}.
Proof.
  intros Hs Ht. destruct (to_string_digits seq Hs) as (_ & Hl & _).
  unfold person_fits, struct_size, PERSON_BUF, PERSON_DATA, PERSON_POINTERS. simpl.
  assert (words_len (length (to_string seq) + 1) <= 16).
  { unfold words_len. apply (Nat.mul_le_mono_l _ 2 8). apply div_ceil_le; lia. }
  assert (words_len (length text + 1) <= 8).
  { unfold words_len. apply (Nat.mul_le_mono_l _ 1 8). apply div_ceil_le; lia. }
  lia.
Qed.

(** A sequence number comes back from the message that carries it. *)
Lemma seq_round_trip ID seq text :
  is_u16 ID -> is_u32 seq -> length text <= 7 ->
  let v := {| name := to_string seq; email := text |} in
  exists b, decode_wire (payload_of ID v) = Ok {| id := ID; body := b |} /\ decode_seq_capnp b = Some seq.
Proof.
  intros HID Hs Ht v. destruct (person_built v (seq_fits seq text Hs Ht)) as (rest & reader & _ & _ & Hr & Hn & _).
  exists (person_bytes v). split; [by apply decode_wire_le_bytes|]. unfold decode_seq_capnp. rewrite Hr, Hn. simpl.
  destruct (to_string_digits seq Hs) as (_ & _ & Hd & Hp).
  rewrite from_utf8_ascii; [by simpl|]. eapply Forall_impl; [exact Hd|]. simpl. lia.
Qed.

Lemma decode_seq_u32 b seq : decode_seq_capnp b = Some seq -> is_u32 seq.
Proof.
  unfold decode_seq_capnp. destruct (read_struct b) as [root|]; [|done].
  destruct (get_name root) as [t|]; [|done]. simpl. destruct (from_utf8 t) as [s|]; [|done]. simpl.
  intros [Hn Hle]%from_str_radix_Some; [|lia]. apply numeral_nonneg in Hn; [|lia].
  unfold in_width, u32_max in *. lia.
Qed.
End person_facts.

(** * The programs *)

Section program_facts.
Context {CapnpError E W R : Type} `{HC : CapnpTextLaws CapnpError} `{HW : WatchOps W R}.
Abbreviation Iface := (Interface (DemuxNode E) W).
Abbreviation node i := (tx_node (tx_state i)).
Implicit Types (i : Iface) (evs : list (DemuxEvent E)).

Definition tx_ready i : Prop := 258 <= length (tx (tx_state i)).

Lemma send_person_run ID to v i :
  person_fits v -> tx_ready i ->
  exists i', send_person ID to v i =
      (match dn_answers (node i) (length (dn_sent (node i))) with
       | None => Ok tt
       | Some e => Err (Fails (SendFailed (map_isotp_send_error e)))
       end, i') /\
    tx_ready i' /\ node i' = {| dn_events := dn_events (node i); dn_answers := dn_answers (node i);
                               dn_sent := dn_sent (node i) ++ [(to, payload_of ID v)] |}.
Proof.
  intros Hf Hb. destruct (person_payload ID v _ Hf Hb) as (buf' & Henc & Hlen).
  unfold send_person, send_capnp_to, tx_send_capnp, catch, on_field. unfold_M. rewrite Henc. simpl.
  unfold demux_send. eexists. split; [by destruct (dn_answers _ _)|]. split; [|done].
  unfold tx_ready in *. simpl. lia.
Qed.

(** What a payload asks for or answers. *)
Definition seq_of (ID : u16) (payload : bytes) : option u32 :=
  match decode_wire payload with
  | Ok raw => if (id raw =? ID)%Z then decode_seq_capnp (body raw) else None
  | _ => None
  end.

Lemma seq_of_u32 ID p seq : seq_of ID p = Some seq -> is_u32 seq.
Proof.
  unfold seq_of. destruct (decode_wire p) as [raw| |]; [|done..]. destruct (_ =? _)%Z; [|done].
  apply decode_seq_u32.
Qed.

Lemma seq_of_payload ID seq text :
  is_u16 ID -> is_u32 seq -> length text <= 7 ->
  seq_of ID (payload_of ID {| name := to_string seq; email := text |}) = Some seq.
Proof.
  intros HID Hs Ht. destruct (seq_round_trip ID seq text HID Hs Ht) as (b & Hd & Hb). unfold seq_of.
  rewrite Hd. simpl. by rewrite Z.eqb_refl.
Qed.

(** ** The listener *)

(** The specification: the calls to [send_to], and how the loop ends, where
    [k] calls were made before. *)
Fixpoint listen_spec (answers : nat -> option (SendError E)) evs (k : nat) :
    list (u8 * bytes) * stop (ExampleError E) :=
  match evs with
  | [] => ([], Waiting)
  | TimeoutEv :: evs' => listen_spec answers evs' k
  | RecvErrEv e :: _ => ([], Fails (RecvFailed e))
  | DeliverEv from p :: evs' =>
      match seq_of PING_ID p with
      | None => listen_spec answers evs' k
      | Some seq =>
          let pong := (from, payload_of PONG_ID (pong_value seq)) in
          match answers k with
          | Some e => ([pong], Fails (SendFailed (map_isotp_send_error e)))
          | None => let '(log, outcome) := listen_spec answers evs' (S k) in (pong :: log, outcome)
          end
      end
  end.

Lemma listen_callback_run from p pending :
  listen_callback (E := E) from p pending =
    (Ok ControlContinue,
     match seq_of PING_ID p with Some seq => pending ++ [(from, seq)] | None => pending end).
Proof.
  unfold listen_callback, seq_of. pose proof (decode_wire_no_panic p) as Hp.
  destruct (decode_wire p) as [raw|e|]; [|done|done]. by destruct (_ =? _)%Z.
Qed.

Lemma pong_fits seq : is_u32 seq -> person_fits (pong_value seq).
Proof. intros Hs. apply seq_fits; [done|simpl; lia]. Qed.
Lemma ping_fits seq : is_u32 seq -> person_fits (ping_value seq).
Proof. intros Hs. apply seq_fits; [done|simpl; lia]. Qed.

Lemma listen_loop_run fuel i :
  length (dn_events (node i)) < fuel -> tx_ready i ->
  let '(log, outcome) := listen_spec (dn_answers (node i)) (dn_events (node i)) (length (dn_sent (node i))) in
  exists i', listen_loop fuel i = (Err outcome, i') /\ dn_sent (node i') = dn_sent (node i) ++ log.
Proof.
  revert i. induction fuel as [|fuel IH]; intros i Hf Hi; [lia|]. cbn [listen_loop]. unfold_M.
  unfold recv_with, demux_recv_one. destruct (dn_events (node i)) as [|ev evs] eqn:Hev; cbn [listen_spec].
  { eexists. split; [done|]. simpl. by rewrite app_nil_r. }
  simpl in Hf. destruct ev as [from p| |e].
  - rewrite listen_callback_run. simpl. destruct (seq_of PING_ID p) as [seq|] eqn:Hseq; simpl.
    + unfold_M. match goal with |- context [send_person _ _ _ ?j] =>
        destruct (send_person_run PONG_ID from (pong_value seq) j) as (i1 & Hrun & Hi1 & Hn1);
          [eauto using pong_fits, seq_of_u32|exact Hi|]; rewrite Hrun end.
      simpl in *. destruct (dn_answers (node i) _) as [e|]; [eexists; by rewrite Hn1|].
      specialize (IH i1). rewrite Hn1 in IH. simpl in IH. rewrite length_app, Nat.add_1_r in IH.
      destruct (listen_spec _ evs _) as [log outcome]. destruct IH as (i' & Hrun' & Hs); [lia|done|].
      exists i'. split; [done|]. by rewrite Hs, <- app_assoc.
    + match goal with |- context [listen_loop fuel ?j] => apply (IH j) end; [simpl; lia|done].
  - simpl. match goal with |- context [listen_loop fuel ?j] => apply (IH j) end; [simpl; lia|done].
  - eexists. split; [done|]. simpl. by rewrite app_nil_r.
Qed.

(** C25. The listener answers every ping: on any script of its node, [run_listen]
    answers each payload that carries a ping with one pong, to the sender of the
    ping and with its sequence number, in the order of the pings; it ignores
    everything else and ends only when the node fails to receive or to send,
    with that error; it does not panic. *)
Theorem listen_answers i :
  tx_ready i ->
  let '(log, outcome) := listen_spec (dn_answers (node i)) (dn_events (node i)) (length (dn_sent (node i))) in
  exists i', listen_loop (S (length (dn_events (node i)))) i = (Err outcome, i') /\
    dn_sent (node i') = dn_sent (node i) ++ log.
Proof. intros Hi. apply listen_loop_run; [lia|done]. Qed.

(** ** The pinger *)

Definition answers_ping (dest : u8) (seq : u32) (ev : DemuxEvent E) : Prop :=
  exists p, ev = DeliverEv dest p /\ seq_of PONG_ID p = Some seq.
Definition ignored_by_ping (dest : u8) (seq : u32) (ev : DemuxEvent E) : Prop :=
  match ev with
  | TimeoutEv => True
  | RecvErrEv _ => False
  | DeliverEv from p => ~ (from = dest /\ seq_of PONG_ID p = Some seq)
  end.

Lemma ping_callback_run dest seq from p got :
  exists c, ping_callback (E := E) dest seq from p got =
    (Ok c, if decide (from = dest /\ seq_of PONG_ID p = Some seq) then true else got).
Proof.
  unfold ping_callback, seq_of. destruct (Z.eqb_spec from dest) as [->|Hne]; simpl.
  2: { eexists. by rewrite decide_False by tauto. }
  pose proof (decode_wire_no_panic p) as Hp. destruct (decode_wire p) as [raw|e|]; [| |done].
  2: { eexists. by rewrite decide_False by (by intros [_ ?]). }
  destruct (id raw =? PONG_ID)%Z; [|eexists; by rewrite decide_False by (by intros [_ ?])].
  destruct (decode_seq_capnp (body raw)) as [s|]; [|eexists; by rewrite decide_False by (by intros [_ ?])].
  destruct (Z.eqb_spec s seq) as [->|Hne]; eexists; [by rewrite decide_True|].
  rewrite decide_False; [done|]. intros [_ ?]. congruence.
Qed.

(** How the waiting ends: an answer in time, the deadline, an error of the node,
    or not yet. *)
Inductive ping_ends (dest : u8) (seq : u32) (deadline : Z) :
    list Z -> list (DemuxEvent E) -> result unit (stop (ExampleError E)) -> Prop :=
| ends_no_clock evs : ping_ends dest seq deadline [] evs (Err Waiting)
| ends_late now clock evs :
    (deadline <= now)%Z -> ping_ends dest seq deadline (now :: clock) evs (Err (Fails PingTimedOut))
| ends_no_event now clock : (now < deadline)%Z -> ping_ends dest seq deadline (now :: clock) [] (Err Waiting)
| ends_answer now clock ev evs :
    (now < deadline)%Z -> answers_ping dest seq ev -> ping_ends dest seq deadline (now :: clock) (ev :: evs) (Ok tt)
| ends_error now clock e evs :
    (now < deadline)%Z ->
    ping_ends dest seq deadline (now :: clock) (RecvErrEv e :: evs) (Err (Fails (RecvFailed e)))
| ends_later now clock ev evs r :
    (now < deadline)%Z -> ignored_by_ping dest seq ev -> ping_ends dest seq deadline clock evs r ->
    ping_ends dest seq deadline (now :: clock) (ev :: evs) r.

Lemma ping_loop_run fuel dest seq deadline i clock :
  length clock < fuel ->
  let '(r, (i', _)) := ping_loop fuel dest seq deadline (i, clock) in
  ping_ends dest seq deadline clock (dn_events (node i)) r /\ dn_sent (node i') = dn_sent (node i).
Proof.
  revert i clock. induction fuel as [|fuel IH]; intros i clock Hf; [lia|]. cbn [ping_loop]. unfold_M.
  unfold instant_now. destruct clock as [|now clock]; [by split; [constructor|]|]. simpl in Hf.
  destruct (Z.leb_spec deadline now) as [Hd|Hd]; [by split; [constructor|]|].
  unfold on_iface, on_field, recv_with, demux_recv_one. simpl.
  destruct (dn_events (node i)) as [|ev evs] eqn:Hev; simpl; [by split; [constructor|]|].
  destruct ev as [from p| |e]; simpl.
  - destruct (ping_callback_run dest seq from p false) as (c & ->). simpl.
    destruct (decide _) as [[-> Hs]|Hn].
    + split; [|done]. apply ends_answer; [done|]. by exists p.
    + match goal with |- context [ping_loop fuel _ _ _ (?j, _)] => specialize (IH j clock ltac:(lia)) end.
      destruct (ping_loop _ _ _ _ _) as [r [i' c']]. destruct IH as [He Hs]. split; [|done]. by apply ends_later.
  - match goal with |- context [ping_loop fuel _ _ _ (?j, _)] => specialize (IH j clock ltac:(lia)) end.
    destruct (ping_loop _ _ _ _ _) as [r [i' c']]. destruct IH as [He Hs]. split; [|done]. by apply ends_later.
  - by split; [constructor|].
Qed.

Arguments ping_loop : simpl never.

Definition ping_seq (ms : Z) : u32 := wrap 32 (Z.land ms 4294967295).

Lemma ping_seq_u32 ms : is_u32 (ping_seq ms).
Proof. apply wrap_in_width. lia. Qed.

Lemma ping_from_run ms dest clock i :
  tx_ready i ->
  let '(r, (i', _)) := ping_from (S (length clock)) dest (Some ms) (i, clock) in
  dn_sent (node i') = dn_sent (node i) ++ [(dest, payload_of PING_ID (ping_value (ping_seq ms)))] /\
  match dn_answers (node i) (length (dn_sent (node i))), clock with
  | Some e, _ => r = Err (Fails (SendFailed (map_isotp_send_error e)))
  | None, [] => r = Err Waiting
  | None, t :: clock' =>
      match instant_add t PING_WAIT with
      | None => r = Panic
      | Some deadline => exists r', ping_ends dest (ping_seq ms) deadline clock' (dn_events (node i)) r' /\
                                    r = map_ok (fun _ => ping_seq ms) r'
      end
  end.
Proof.
  intros Hi. unfold ping_from, on_iface, on_field. unfold_M. simpl. fold (ping_seq ms).
  destruct (send_person_run PING_ID dest (ping_value (ping_seq ms)) i) as (i1 & -> & Hi1 & Hn1);
    [apply ping_fits, ping_seq_u32|done|].
  destruct (dn_answers (node i) _) as [e|]; simpl; [by rewrite Hn1|].
  destruct clock as [|t clock]; simpl; [by rewrite Hn1|]. destruct (instant_add t PING_WAIT) as [deadline|].
  - pose proof (ping_loop_run (S (S (length clock))) dest (ping_seq ms) deadline i1 clock ltac:(lia)) as Hrun.
    destruct (ping_loop _ _ _ _ _) as [r [i' c']]. rewrite Hn1 in Hrun. simpl in Hrun. destruct Hrun as [He Hs].
    destruct r as [[]|e|]; simpl; (split; [by rewrite Hs|]); by eexists.
  - by rewrite Hn1.
Qed.

(** What [run_ping] concludes: it sends one ping, to the destination, with
    its sequence number, and returns [Ok] just when, before the deadline and
    before any error of the node, a pong with that number arrives from that
    destination; other payloads and timeouts are passed over.  It panics only
    when the clock is at the end of its range. *)
Theorem ping_outcome ms dest clock i :
  tx_ready i ->
  let '(r, (i', _)) := ping_from (S (length clock)) dest (Some ms) (i, clock) in
  dn_sent (node i') = dn_sent (node i) ++ [(dest, payload_of PING_ID (ping_value (ping_seq ms)))] /\
  match dn_answers (node i) (length (dn_sent (node i))), clock with
  | Some e, _ => r = Err (Fails (SendFailed (map_isotp_send_error e)))
  | None, [] => r = Err Waiting
  | None, t :: clock' =>
      match instant_add t PING_WAIT with
      | None => r = Panic
      | Some deadline => exists r', ping_ends dest (ping_seq ms) deadline clock' (dn_events (node i)) r' /\
                                    r = map_ok (fun _ => ping_seq ms) r'
      end
  end.
Proof. apply ping_from_run. Qed.

(** ** Both programs *)

Lemma ping_ends_answered dest seq deadline clock evs1 ev evs2 r :
  ping_ends dest seq deadline clock (evs1 ++ ev :: evs2) r ->
  Forall (ignored_by_ping dest seq) evs1 -> answers_ping dest seq ev ->
  length evs1 < length clock -> Forall (fun t => t < deadline)%Z (take (S (length evs1)) clock) -> r = Ok tt.
Proof.
  intros He Hig. revert clock He. induction Hig as [|e1 evs1 He1 _ IH]; intros clock He Ha Hl Hc;
    (destruct clock as [|now clock]; [simpl in Hl; lia|]; apply Forall_cons_1 in Hc as [Hnow Hc]).
  - destruct Ha as (p & -> & Hp). inversion He; subst; try lia; try done.
    match goal with H : ignored_by_ping _ _ _ |- _ => exfalso; by apply H end.
  - inversion He; subst; try lia; [| |].
    + done.
    + done.
    + eapply IH; [done|done|simpl in Hl; lia|done].
Qed.

(** The two programs meet: there are payloads [ping] and [pong] such that a
    pinger sends [ping], a listener that receives [ping] next answers it with
    [pong] to the pinger, and a pinger that gets [pong] from the destination
    before its deadline, whatever else arrives before, returns [Ok]. *)
Theorem ping_pong_meet ms dest me :
  exists ping pong,
    (forall i clock, tx_ready i ->
       let '(_, (i', _)) := ping_from (S (length clock)) dest (Some ms) (i, clock) in
       dn_sent (node i') = dn_sent (node i) ++ [(dest, ping)]) /\
    (forall i evs, tx_ready i -> dn_events (node i) = DeliverEv me ping :: evs ->
       exists log outcome i', listen_loop (S (length (dn_events (node i)))) i = (Err outcome, i') /\
         dn_sent (node i') = dn_sent (node i) ++ (me, pong) :: log) /\
    (forall i evs1 evs2 t clock deadline, tx_ready i ->
       dn_answers (node i) (length (dn_sent (node i))) = None ->
       dn_events (node i) = evs1 ++ DeliverEv dest pong :: evs2 ->
       Forall (ignored_by_ping dest (ping_seq ms)) evs1 ->
       instant_add t PING_WAIT = Some deadline -> length evs1 < length clock ->
       Forall (fun now => now < deadline)%Z (take (S (length evs1)) clock) ->
       (ping_from (S (length (t :: clock))) dest (Some ms) (i, t :: clock)).1 = Ok (ping_seq ms)).
Proof.
  set (seq := ping_seq ms). pose proof (ping_seq_u32 ms : is_u32 seq) as Hseq.
  exists (payload_of PING_ID (ping_value seq)), (payload_of PONG_ID (pong_value seq)). split_and!.
  - intros i clock Hi. pose proof (ping_from_run ms dest clock i Hi) as Hrun.
    destruct (ping_from _ _ _ _) as [r [i' c']]. by destruct Hrun as [? _].
  - intros i evs Hi Hev. pose proof (listen_loop_run (S (length (dn_events (node i)))) i ltac:(lia) Hi) as Hrun.
    generalize dependent (S (length (dn_events (node i)))). intros fuel Hrun. rewrite Hev in Hrun. cbn [listen_spec] in Hrun.
    assert (Hp : seq_of PING_ID (payload_of PING_ID (ping_value seq)) = Some seq)
      by (apply seq_of_payload; [by compute|done|simpl; lia]). rewrite Hp in Hrun.
    destruct (dn_answers _ _) as [e|]; [by exists [], (Fails (SendFailed (map_isotp_send_error e)))|].
    destruct (listen_spec _ evs _) as [log outcome]. by exists log, outcome.
  - intros i evs1 evs2 t clock deadline Hi Hans Hev Hig Hdl Hlen Hc.
    pose proof (ping_from_run ms dest (t :: clock) i Hi) as Hrun.
    destruct (ping_from _ _ _ _) as [r [i' c']]. rewrite Hans, Hdl, Hev in Hrun.
    destruct Hrun as (_ & r' & He & ->).
    rewrite (ping_ends_answered _ _ _ _ _ _ _ _ He Hig); [done|..|done|done].
    exists (payload_of PONG_ID (pong_value seq)). split; [done|].
    apply seq_of_payload; [by compute|done|simpl; lia].
Qed.
End program_facts.

(** * The shared handles *)

Section shared_facts.
Context {T Frame Error : Type} `{HT : TxFrameIo T Frame Error} `{HR : RxFrameIo T Frame Error}.

Inductive HandleOp :=
| HSend (f : Frame) | HTrySend (f : Frame) | HSendTimeout (f : Frame) (t : Duration)
| HRecv | HTryRecv | HRecvTimeout (t : Duration) | HWaitNotEmpty.

Definition run_op {S} `{TxFrameIo S Frame Error} `{RxFrameIo S Frame Error} (op : HandleOp) :
    M S (stop Error) (option Frame) :=
  match op with
  | HSend f => tx_send f;; mret None
  | HTrySend f => tx_try_send f;; mret None
  | HSendTimeout f t => tx_send_timeout f t;; mret None
  | HRecv => f ← rx_recv; mret (Some f)
  | HTryRecv => f ← rx_try_recv; mret (Some f)
  | HRecvTimeout t => f ← rx_recv_timeout t; mret (Some f)
  | HWaitNotEmpty => rx_wait_not_empty;; mret None
  end.

(** The results of a sequence of calls, and the state after it. *)
Fixpoint run_all {S} `{TxFrameIo S Frame Error} `{RxFrameIo S Frame Error} (ops : list HandleOp) (s : S) :
    list (result (option Frame) (stop Error)) * S :=
  match ops with
  | [] => ([], s)
  | op :: ops' =>
      let '(r, s') := run_op op s in
      let '(rs, s'') := run_all ops' s' in (r :: rs, s'')
  end.

Lemma locked_bind {A B} (m : M T (stop Error) A) (k : A -> B) c :
  let '(r, c') := (a ← m; mret (k a)) c in
  r <> Panic -> (a ← locked m; mret (k a)) {| cell := c; poisoned := false |} = (r, {| cell := c'; poisoned := false |}).
Proof. unfold_M. unfold locked. simpl. by destruct (m c) as [[a|e|] c']. Qed.

(** Splitting a CAN adapter into two handles changes nothing: any sequence of
    calls on the handles gives the results, and leaves the adapter in the state,
    of the same calls on the adapter itself, as long as none of them panics. *)
Theorem split_shared_transparent ops (can : T) :
  let '(rs, can') := run_all ops can in
  Forall (fun r => r <> Panic) rs ->
  run_all ops (split_shared can) = (rs, split_shared can').
Proof.
  unfold split_shared. revert can. induction ops as [|op ops IH]; intros can; [done|]. cbn [run_all].
  assert (Hop : let '(r, can') := run_op op can in r <> Panic ->
    run_op op {| cell := can; poisoned := false |} = (r, {| cell := can'; poisoned := false |})).
  { destruct op; cbn [run_op]; apply locked_bind. }
  destruct (run_op op can) as [r can1]. specialize (IH can1). destruct (run_all ops can1) as [rs can'].
  intros [Hr Hrs]%Forall_cons_1. rewrite (Hop Hr), (IH Hrs). done.
Qed.
End shared_facts.

(** * Concrete runs *)

(** A layout with the sizes of Cap'n Proto, to show that the law of [CapnpText]
    can hold. *)
Module FixedText.
Definition pad (t : bytes) : bytes := t ++ replicate (words_len (length t + 1) - length t) 0%Z.
Definition seg (data pointers : nat) (texts : list bytes) : bytes :=
  to_le_bytes 4 (Z.of_nat data) ++ to_le_bytes 4 (Z.of_nat pointers) ++ replicate (8 * data) 0%Z ++
  concat (map (fun t => to_le_bytes 8 (Z.of_nat (length t))) texts) ++ concat (map pad texts).

Fixpoint read_lens (n : nat) (b : bytes) : list nat :=
  match n with
  | O => []
  | S n' => Z.to_nat (from_le_bytes (take 8 b)) :: read_lens n' (drop 8 b)
  end.
Fixpoint read_texts (lens : list nat) (b : bytes) : list bytes :=
  match lens with
  | [] => []
  | l :: lens' => take l b :: read_texts lens' (drop (words_len (l + 1)) b)
  end.
Definition read (b : bytes) : list bytes :=
  let data := Z.to_nat (from_le_bytes (take 4 b)) in
  let pointers := Z.to_nat (from_le_bytes (take 4 (drop 4 b))) in
  let lens := drop (8 * data) (drop 8 b) in
  read_texts (read_lens pointers lens) (drop (8 * pointers) lens).

#[global] Instance text : CapnpText unit := {
  build_struct data pointers texts := FixedLayout.build (seg data pointers) texts;
  read_struct b := inl (fun i => read b !! i);
}.

Lemma pad_length t : length (pad t) = words_len (length t + 1).
Proof. unfold pad. pose proof (words_len_le (length t + 1)). len. Qed.

Lemma read_lens_run (texts : list bytes) rest :
  Forall (fun t => (Z.of_nat (length t) < 2 ^ 29 - 1)%Z) texts ->
  read_lens (length texts) (concat (map (fun t => to_le_bytes 8 (Z.of_nat (length t))) texts) ++ rest) =
    map length texts.
Proof.
  induction 1 as [|t texts Ht _ IH]; [done|]. cbn [length map concat read_lens]. rewrite <- app_assoc.
  rewrite take_app_length', drop_app_length' by (by rewrite length_to_le_bytes).
  rewrite from_to_le_bytes_small by (unfold in_width; simpl; lia). by rewrite Nat2Z.id, IH.
Qed.

Lemma read_texts_run (texts : list bytes) : read_texts (map length texts) (concat (map pad texts)) = texts.
Proof.
  induction texts as [|t texts IH]; [done|]. cbn [map concat read_texts].
  rewrite drop_app_length' by (by rewrite pad_length). rewrite IH. f_equal. unfold pad. rewrite <- app_assoc.
  apply take_app_length.
Qed.

Lemma lens_length (texts : list bytes) :
  length (concat (map (fun t : bytes => to_le_bytes 8 (Z.of_nat (length t))) texts)) = 8 * length texts.
Proof. induction texts as [|t texts IH]; [done|]. cbn [map concat length]. rewrite length_app, length_to_le_bytes, IH. lia. Qed.

Lemma pads_length (texts : list bytes) :
  length (concat (map pad texts)) = list_sum (map (fun t => words_len (length t + 1)) texts).
Proof. induction texts as [|t texts IH]; [done|]. cbn [map concat]. rewrite length_app, pad_length, IH. done. Qed.

Lemma texts_within data pointers (texts : list bytes) :
  (Z.of_nat (struct_size data pointers texts) <= READER_LIMIT)%Z ->
  Forall (fun t => (Z.of_nat (length t) < 2 ^ 29 - 1)%Z) texts.
Proof.
  unfold struct_size, READER_LIMIT. intros Hlim. apply Forall_forall. intros t Ht.
  assert (length t + 1 <= list_sum (map (fun t : bytes => words_len (length t + 1)) texts)); [|lia]. clear Hlim.
  induction texts as [|u texts IH]; [by apply not_elem_of_nil in Ht|]. change (list_sum (map ?f (u :: texts))) with (f u + list_sum (map f texts)).
  apply elem_of_cons in Ht as [->|Ht]; [pose proof (words_len_le (length u + 1)); lia|specialize (IH Ht); cbn in *; lia].
Qed.

#[global] Instance laws : CapnpTextLaws unit.
Proof.
  intros data pointers texts Hd Hp Hlen Hlim. exists (seg data pointers texts).
  pose proof (texts_within data pointers texts Hlim) as Hts.
  assert (Hsize : length (seg data pointers texts) = struct_size data pointers texts).
  { unfold seg, struct_size. rewrite !length_app, lens_length, pads_length, !length_to_le_bytes, length_replicate. lia. }
  split.
  - split; [done|]. intros buf Hb. cbn [build_struct text]. unfold FixedLayout.build. rewrite Hsize.
    destruct (Nat.ltb_spec (length buf) (struct_size data pointers texts)); [lia|].
    destruct (Z.ltb_spec READER_LIMIT (Z.of_nat (struct_size data pointers texts))); [lia|].
    eexists. split; [done|]. rewrite length_app, length_drop, Hsize. lia.
  - eexists. split; [done|]. intros i t Hi. cbn beta. rewrite <- Hi. f_equal. unfold read, seg.
    rewrite take_app_length', drop_app_length' by (by rewrite length_to_le_bytes).
    rewrite take_app_length' by (by rewrite length_to_le_bytes).
    rewrite !from_to_le_bytes_small, !Nat2Z.id by (unfold in_width; simpl; lia).
    rewrite (app_assoc (to_le_bytes 4 _) (to_le_bytes 4 _)).
    rewrite drop_app_length' by (rewrite length_app, !length_to_le_bytes; done).
    rewrite drop_app_length' by (by rewrite length_replicate).
    rewrite <- Hlen at 1. rewrite read_lens_run by done.
    rewrite drop_app_length' by (rewrite lens_length; lia). apply read_texts_run.
Qed.
End FixedText.

Definition demo_listener : Interface (DemuxNode unit) CounterWatch :=
  let n := {| dn_events := [TimeoutEv; DeliverEv 17 (payload_of PING_ID (ping_value 42))];
              dn_answers := fun _ => None; dn_sent := [] |} in
  interface_new message_ids 8 256 8 n n (replicate 300 0%Z).

Lemma demo_listener_ready : tx_ready demo_listener.
Proof. unfold tx_ready. simpl. lia. Qed.

Lemma listen_answers_witness :
  exists i', listen_loop 3 demo_listener = (Err Waiting, i') /\
    dn_sent (tx_node (tx_state i')) = [(17%Z, payload_of PONG_ID (pong_value 42))].
Proof.
  pose proof (listen_answers demo_listener demo_listener_ready) as (i' & Hrun & Hs). by exists i'.
Defined.

Definition demo_pinger : Interface (DemuxNode unit) CounterWatch :=
  let n := {| dn_events := [TimeoutEv; DeliverEv 34 (payload_of PONG_ID (pong_value 42))];
              dn_answers := fun _ => None; dn_sent := [] |} in
  interface_new message_ids 8 256 8 n n (replicate 300 0%Z).

Lemma demo_pinger_ready : tx_ready demo_pinger.
Proof. unfold tx_ready. simpl. lia. Qed.

Lemma ping_outcome_witness :
  let '(r, (i', _)) := ping_from 4 34 (Some 42%Z) (demo_pinger, [1; 2; 3]%Z) in
  r = Ok 42%Z /\ dn_sent (tx_node (tx_state i')) = [(34%Z, payload_of PING_ID (ping_value 42))].
Proof.
  pose proof (ping_outcome 42 34 [1; 2; 3]%Z demo_pinger demo_pinger_ready) as Hrun.
  assert (Hr : (ping_from 4 34 (Some 42%Z) (demo_pinger, [1; 2; 3]%Z)).1 = Ok 42%Z) by (vm_compute; reflexivity).
  change (S (length [1; 2; 3]%Z)) with 4 in Hrun.
  destruct (ping_from 4 34 (Some 42%Z) (demo_pinger, [1; 2; 3]%Z)) as [r [i' c']]. destruct Hrun as [Hs _].
  split; [exact Hr|exact Hs].
Defined.

Lemma ping_pong_meet_witness :
  exists ping pong,
    (let '(_, (i', _)) := ping_from 4 34 (Some 42%Z) (demo_pinger, [1; 2; 3]%Z) in
     dn_sent (tx_node (tx_state i')) = [(34%Z, ping)]) /\
    (forall i evs, tx_ready i -> dn_events (tx_node (tx_state i)) = DeliverEv 17 ping :: evs ->
       exists log outcome i',
         listen_loop (E := unit) (W := CounterWatch) (S (length (dn_events (tx_node (tx_state i))))) i = (Err outcome, i') /\
         dn_sent (tx_node (tx_state i')) = dn_sent (tx_node (tx_state i)) ++ (17%Z, pong) :: log).
Proof.
  destruct (ping_pong_meet (CapnpError := unit) (E := unit) (W := CounterWatch) 42 34 17) as (ping & pong & H1 & H2 & _).
  exists ping, pong. split; [exact (H1 demo_pinger [1; 2; 3]%Z demo_pinger_ready)|exact H2].
Defined.

(** A CAN adapter that echoes, to run the handles. *)
#[local] Instance loop_tx : TxFrameIo (list Z) Z unit := {
  tx_send f := modify (fun q => q ++ [f]); tx_try_send f := modify (fun q => q ++ [f]);
  tx_send_timeout f _ := modify (fun q => q ++ [f]) }.
Definition loop_pop : M (list Z) (stop unit) Z := fun q =>
  match q with [] => (Err Waiting, q) | f :: q' => (Ok f, q') end.
#[local] Instance loop_rx : RxFrameIo (list Z) Z unit := {
  rx_recv := loop_pop; rx_try_recv := loop_pop; rx_recv_timeout _ := loop_pop; rx_wait_not_empty := mret tt }.

Lemma split_shared_transparent_witness :
  run_all [HSend 7%Z; HRecv] (split_shared ([] : list Z)) = ([Ok None; Ok (Some 7%Z)], split_shared []).
Proof.
  exact (split_shared_transparent [HSend 7%Z; HRecv] ([] : list Z)
    ltac:(repeat constructor; discriminate)).
Defined.
