(* ===== verification/BenchNode.v ===== *)
(** * The benchmark node

    Models [examples/thincan-example/src/file_transfer_bench_common.rs]: the
    async adapters over the Unix-socket client ([AsyncUnixCanTx] with its
    sliced sends, [AsyncUnixCanRx] fed by a forwarding thread), [BenchNode] as an
    ISO-TP endpoint over the demultiplexer of [can_iso_tp] (a class),
    [connect_with_retry], [run_ingress_pump] and the constants of the
    benchmark.  The theorems say what a send leaves on the socket and what an
    [Ok] means, that the receive path delivers the frames of the server in order
    and that the pump ingests what the demultiplexer delivers. *)
From stdpp Require Import strings.
From S2P Require Import Prelude Script Wire Maplet Mailbox Interface UnixWire UnixServer SocketCan UnixClient.

(** * Constants *)

Definition NODE_A_ADDR : u8 := 17.
Definition NODE_B_ADDR : u8 := 34.
Definition MAX_ISOTP_PAYLOAD : nat := 4095.
Definition DEPTH : nat := 16.
Definition MAX_BODY : nat := 4096.
Definition MAX_WAITERS : nat := 8.
Definition TX_BUF_LEN : nat := Z.to_nat 8192.
Definition IO_SLICE : Duration := 20000000.

(** [bus_atlas!], the bundle of the file transfer and [maplet!]. *)
Definition FILE_REQ_ID : u16 := 4097.
Definition FILE_CHUNK_ID : u16 := 4098.
Definition FILE_ACK_ID : u16 := 4099.
Definition file_transfer_bundle : Bundle :=
  {| MESSAGE_COUNT := 3; BUNDLE_IDS := [FILE_REQ_ID; FILE_CHUNK_ID; FILE_ACK_ID] |}.
Definition bench_ids : list u16 := default [] (maplet_from_bundles_aliases [(0, file_transfer_bundle)]).

(** * Sending frames *)

Section tx.
Context {SId EId : Type} `{EmbeddedCan SId EId}.
Abbreviation Frame := (UnixFrame SId EId).
Abbreviation Can := (UnixCan SId EId).

(** [AsyncUnixCanTx]: the client behind its mutex. *)
Abbreviation AsyncUnixCanTx := (SharedCell Can).
Abbreviation TxM := (M AsyncUnixCanTx (stop UnixCanError)).

(** [Instant::now()] in the task that sends. *)
Definition tx_now : TxM Z :=
  on_field cell (fun c s => {| cell := c; poisoned := poisoned s |}) now.

(** [spawn_blocking(move || { .. guard.send_timeout(&frame, slice) }).await]: a
    panic of the closure poisons the mutex and comes back as a join error. *)
Definition spawn_send (frame : Frame) (slice : Duration) : TxM unit := fun s =>
  if poisoned s then (Err (Fails (CanProtocol "mutex poisoned")), s)
  else match send_timeout frame slice (cell s) with
       | (Panic, c) => (Err (Fails (CanIo (EOther 0))), {| cell := c; poisoned := true |})
       | (r, c) => (r, {| cell := c; poisoned := false |})
       end.

(** The loop of [send_timeout]; each round reads the clock. *)
Fixpoint send_slices (fuel : nat) (frame : Frame) (deadline : Z) : TxM unit :=
  match fuel with
  | O => fail OutOfFuel
  | S fuel' =>
      n ← tx_now;
      if (deadline <=? n)%Z then fail (Fails CanTimeout)
      else
        let slice := Z.min IO_SLICE (deadline - n) in
        res ← attempt (spawn_send frame slice);
        match res with
        | inl _ => mret tt
        | inr CanTimeout | inr CanWouldBlock => send_slices fuel' frame deadline
        | inr e => fail (Fails e)
        end
  end.
Definition clock_fuel : TxM nat := gets (fun s => S (length (clock (cell s)))).

Definition async_send_timeout (frame : Frame) (timeout : Duration) : TxM unit :=
  n ← tx_now;
  deadline ← or_panic (instant_add n timeout);
  fuel ← clock_fuel;
  send_slices fuel frame deadline.

(** The loop of [send]; each round reads the clock. *)
Fixpoint send_forever (fuel : nat) (frame : Frame) : TxM unit :=
  match fuel with
  | O => fail OutOfFuel
  | S fuel' =>
      res ← attempt (async_send_timeout frame IO_SLICE);
      match res with
      | inl _ => mret tt
      | inr CanTimeout | inr CanWouldBlock => send_forever fuel' frame
      | inr e => fail (Fails e)
      end
  end.
Definition async_send (frame : Frame) : TxM unit := fuel ← clock_fuel; send_forever fuel frame.

#[global] Instance AsyncUnixCanTx_AsyncTxFrameIo : AsyncTxFrameIo AsyncUnixCanTx Frame UnixCanError := {
  atx_send := async_send;
  atx_send_timeout := async_send_timeout;
}.
End tx.

(** * Receiving frames *)

Section rx.
Context {SId EId : Type} `{EmbeddedCan SId EId}.
Abbreviation Frame := (UnixFrame SId EId).
Abbreviation Can := (UnixCan SId EId).

(** The forwarding thread, while [limit] events still find the receiver of the
    channel alive: the events it sends, whether it goes on, and the client. *)
Inductive ForwardState := Blocked | Ended | Broken.
Fixpoint forward (fuel limit : nat) (rx_can : Can) : list (Frame + UnixCanError) * ForwardState * Can :=
  match fuel with
  | O => ([], Broken, rx_can)
  | S fuel' =>
      match recv rx_can with
      | (Ok frame, c) =>
          match limit with
          | O => ([], Ended, c)
          | S limit' => let '(evs, st, c') := forward fuel' limit' c in (inl frame :: evs, st, c')
          end
      | (Err (Fails CanTimeout), c) | (Err (Fails CanWouldBlock), c) => forward fuel' limit c
      | (Err (Fails e), c) => (match limit with O => [] | S _ => [inr e] end, Ended, c)
      | (Err Waiting, c) => ([], Blocked, c)
      | (Err OutOfFuel, c) | (Panic, c) => ([], Broken, c)
      end
  end.

(** What is left for the thread to look at. *)
Definition forward_work (c : Can) : nat :=
  length (rx_queue c) + (length (rx_bytes c) - rx_off c) + read_work (reads c) + length (polls c).
Definition forward_thread (limit : nat) (rx_can : Can) : list (Frame + UnixCanError) * ForwardState * Can :=
  forward (S (forward_work rx_can)) limit rx_can.

(** [AsyncUnixCanRx]: the channel, and whether its sender is gone. *)
Record AsyncUnixCanRx := { events : list (Frame + UnixCanError); closed : bool }.
Abbreviation RxM := (M AsyncUnixCanRx (stop UnixCanError)).

(** [events.recv().await]; [idle] is what happens when it has to wait. *)
Definition next_event (idle : stop UnixCanError) : RxM Frame := fun s =>
  match events s with
  | inl frame :: evs => (Ok frame, {| events := evs; closed := closed s |})
  | inr e :: evs => (Err (Fails e), {| events := evs; closed := closed s |})
  | [] => (Err (if closed s then Fails CanDisconnected else idle), s)
  end.

#[global] Instance AsyncUnixCanRx_AsyncRxFrameIo : AsyncRxFrameIo AsyncUnixCanRx Frame UnixCanError := {
  arx_recv := next_event Waiting;
  arx_recv_timeout _ := next_event (Fails CanTimeout);
  arx_wait_not_empty := mret tt;
}.
End rx.
Arguments AsyncUnixCanRx SId EId : clear implicits.

(** * The node *)

(** [can_iso_tp]: its errors and the calls of [IsoTpAsyncDemux::app()]. *)
Inductive IsoTpError (E : Type) := IsoTimeout | IsoOther (e : E).
Arguments IsoTimeout {E}.
Arguments IsoOther {E} e.
Inductive AppRecvIntoError (E : Type) := AppBufferTooSmall (needed got : nat) | AppIsoTp (e : IsoTpError E).
Arguments AppBufferTooSmall {E} needed got.
Arguments AppIsoTp {E} e.

Class AppDemux (D E : Type) := {
  app_send_to : u8 -> bytes -> Duration -> M D (IsoTpError E) unit;
  app_send_functional_to : u8 -> bytes -> Duration -> M D (IsoTpError E) unit;
  app_recv_next_into :
    Duration -> bytes -> D -> result (option (u8 * nat)) (AppRecvIntoError E) * D * bytes;
}.

(** The contract of [recv_next_into]. *)
Class AppDemuxLaws (D E : Type) `{AppDemux D E} := {
  app_recv_length t out d : length (app_recv_next_into t out d).2 = length out;
  app_recv_len t out d from len :
    (app_recv_next_into t out d).1.1 = Ok (Some (from, len)) -> len <= length out;
  app_recv_no_panic t out d : (app_recv_next_into t out d).1.1 <> Panic;
}.

(** [BenchNode]: all clones share the demultiplexer. *)
Record BenchNode (D : Type) := { demux : D }.
Arguments demux {D} _.

Section node.
Context {D E : Type} `{AppDemux D E}.

Definition map_send_error (e : IsoTpError E) : SendError (IsoTpError E) :=
  match e with IsoTimeout => SendTimeout | other => SendBackend other end.

Definition on_demux {A} (m : M D (IsoTpError E) A) : M (BenchNode D) (SendError (IsoTpError E)) A :=
  catch map_send_error (on_field demux (fun d _ => {| demux := d |}) m).

#[global] Instance BenchNode_endpoint : IsoTpEndpoint (BenchNode D) (IsoTpError E) := {
  node_send_to to payload timeout := on_demux (app_send_to to payload timeout);
  node_send_functional_to to payload timeout := on_demux (app_send_functional_to to payload timeout);
}.

Definition bench_recv_one {S} (timeout : Duration)
    (on_payload : u8 -> bytes -> S -> result RecvControl (IsoTpError E) * S) :
    M (BenchNode D * S) (RecvError (IsoTpError E)) RecvStatus := fun '(n, s) =>
  let '(r, d, out) := app_recv_next_into timeout (replicate MAX_ISOTP_PAYLOAD 0%Z) (demux n) in
  let n' := {| demux := d |} in
  match r with
  | Ok None => (Ok StatusTimedOut, (n', s))
  | Ok (Some (reply_to, len)) =>
      match slice out 0 len with
      | None => (Panic, (n', s))
      | Some payload =>
          match on_payload reply_to payload s with
          | (Ok _, s') => (Ok StatusDeliveredOne, (n', s'))
          | (Err e, s') => (Err (RecvBackend e), (n', s'))
          | (Panic, s') => (Panic, (n', s'))
          end
      end
  | Err (AppBufferTooSmall needed got) => (Err (RecvBufferTooSmall needed got), (n', s))
  | Err (AppIsoTp IsoTimeout) => (Ok StatusTimedOut, (n', s))
  | Err (AppIsoTp e) => (Err (RecvBackend e), (n', s))
  | Panic => (Panic, (n', s))
  end.
End node.

(** * The ingress pump *)

Inductive PumpError (E : Type) :=
| PumpIngestError (e : IngestError)
| PumpBufferTooSmall (needed got : nat)
| PumpTransport (e : E).
Arguments PumpIngestError {E} e.
Arguments PumpBufferTooSmall {E} needed got.
Arguments PumpTransport {E} e.

Section pump.
Context {D E Node W R : Type} `{AppDemux D E} `{WatchOps W R}.
Abbreviation Iface := (Interface Node W).
Abbreviation PumpM := (M (BenchNode D * Iface) (stop (PumpError (IsoTpError E)))).

(** [build_interface]: [clone] is the node's [Clone]. *)
Definition build_interface (clone : Node -> Node) (node : Node) : Iface :=
  interface_new bench_ids DEPTH MAX_BODY MAX_WAITERS (clone node) node (replicate TX_BUF_LEN 0%Z).

(** The callback keeps a copy of the payload. *)
Definition keep_payload (reply_to : u8) (payload : bytes) (delivered : option (u8 * bytes)) :
    result RecvControl (IsoTpError E) * option (u8 * bytes) :=
  (Ok ControlContinue, Some (reply_to, payload)).

(** One round of the loop. *)
Definition pump_round (recv_timeout : Duration) : PumpM unit := fun '(n, i) =>
  match bench_recv_one recv_timeout keep_payload (n, None) with
  | (Ok StatusTimedOut, (n', _)) => (Ok tt, (n', i))
  | (Ok StatusDeliveredOne, (n', delivered)) =>
      match delivered with
      | Some (from, payload) =>
          let '(r, i') := ingest bench_ids DEPTH MAX_BODY from payload i in
          (map_ok (fun _ => tt) (map_err (fun e => Fails (PumpIngestError e)) r), (n', i'))
      | None => (Ok tt, (n', i))
      end
  | (Err (RecvBufferTooSmall needed got), (n', _)) => (Err (Fails (PumpBufferTooSmall needed got)), (n', i))
  | (Err (RecvBackend e), (n', _)) => (Err (Fails (PumpTransport e)), (n', i))
  | (Panic, (n', _)) => (Panic, (n', i))
  end.

(** [run_ingress_pump]; [loads] is what [stop.load] returns, round by round. *)
Fixpoint run_ingress_pump (loads : list bool) (recv_timeout : Duration) : PumpM unit :=
  match loads with
  | [] => fail Waiting
  | true :: _ => mret tt
  | false :: loads' => pump_round recv_timeout;; run_ingress_pump loads' recv_timeout
  end.
End pump.

(** * Connecting *)

(** How an attempt to connect ends. *)
Inductive ConnectAnswer (C : Type) := Connected (c : C) | NotFound | ConnectionRefused | ConnectFails (e : OsError).
Arguments Connected {C} c.
Arguments NotFound {C}.
Arguments ConnectionRefused {C}.
Arguments ConnectFails {C} e.

Inductive ConnectError := Waited (refused : bool) | NonRetryable (e : OsError).

(** [connect_with_retry]: each attempt with what [started.elapsed()] says after it. *)
Fixpoint connect_with_retry {C} (attempts : list (ConnectAnswer C * Duration)) (wait_timeout : Duration) :
    result C (stop ConnectError) :=
  match attempts with
  | [] => Err Waiting
  | (Connected c, _) :: _ => Ok c
  | (ConnectFails e, _) :: _ => Err (Fails (NonRetryable e))
  | (answer, elapsed) :: attempts' =>
      if (wait_timeout <=? elapsed)%Z
      then Err (Fails (Waited (match answer with ConnectionRefused => true | _ => false end)))
      else connect_with_retry attempts' wait_timeout
  end.

(** [connect_bench_node]: two clients, the forwarding thread on the second, and
    the demultiplexer over both; [demux_new] is [IsoTpAsyncDemux::new]. *)
Definition connect_bench_node {SId EId D} `{EmbeddedCan SId EId}
    (demux_new : SharedCell (UnixCan SId EId) -> UnixCan SId EId -> u8 -> option D)
    (tx_attempts rx_attempts : list (ConnectAnswer (UnixCan SId EId) * Duration)) (local_addr : u8)
    (wait_timeout : Duration) (spawned : bool) : result (BenchNode D) (stop (option ConnectError)) :=
  let lift_err r := map_err (fun s => match s with
                                      | Fails e => Fails (Some e)
                                      | Waiting => Waiting
                                      | OutOfFuel => OutOfFuel
                                      end) r in
  let? tx_can := lift_err (connect_with_retry tx_attempts wait_timeout) in
  let? rx_can := lift_err (connect_with_retry rx_attempts wait_timeout) in
  if negb spawned then Err (Fails None)
  else
    let? d := ok_or (demux_new {| cell := tx_can; poisoned := false |} rx_can local_addr) (Fails None) in
    Ok {| demux := d |}.

(** * What a send leaves on the socket *)

Section tx_facts.
Context {SId EId : Type} `{HL : EmbeddedCanLaws SId EId}.
Abbreviation Frame := (UnixFrame SId EId).
Abbreviation Can := (UnixCan SId EId).
Abbreviation CM := (M Can (stop UnixCanError)).
Implicit Types (c : Can) (f : Frame).

(** A call that writes a prefix of [bs], all of it when it returns, and only
    uses up the clock; [quiet_call] writes nothing. *)
Definition puts (bs : bytes) c c' : Prop :=
  exists p, p `prefix_of` bs /\ written c' = written c ++ p /\ next_seq c' = next_seq c /\
    length (clock c') <= length (clock c).
Definition puts_run {A} (bs : bytes) c (run : result A (stop UnixCanError) * Can) : Prop :=
  match run with
  | (Ok _, c') => written c' = written c ++ bs /\ next_seq c' = next_seq c /\ length (clock c') <= length (clock c)
  | (_, c') => puts bs c c'
  end.
Abbreviation quiet_call m := (forall c, puts_run [] c (m c)).

Lemma puts_bind {A B} bs1 bs2 (m : CM A) (k : A -> CM B) c :
  puts_run bs1 c (m c) -> (forall a c1, puts_run bs2 c1 (k a c1)) -> puts_run (bs1 ++ bs2) c ((m ≫= k) c).
Proof.
  unfold mbind, M_bind. intros Hm Hk. destruct (m c) as [[a|e|] c1]; simpl in *.
  - destruct Hm as (Hw & Hs & Hc). specialize (Hk a c1). destruct (k a c1) as [[b|e|] c2]; simpl in *.
    + destruct Hk as (Hw2 & Hs2 & Hc2). split_and!; [by rewrite Hw2, Hw, app_assoc|congruence|lia].
    + destruct Hk as (p & Hp & Hw2 & Hs2 & Hc2). exists (bs1 ++ p).
      split_and!; [by apply prefix_app|by rewrite Hw2, Hw, app_assoc|congruence|lia].
    + destruct Hk as (p & Hp & Hw2 & Hs2 & Hc2). exists (bs1 ++ p).
      split_and!; [by apply prefix_app|by rewrite Hw2, Hw, app_assoc|congruence|lia].
  - destruct Hm as (p & Hp & Hrest). exists p. split; [by apply prefix_app_r|done].
  - destruct Hm as (p & Hp & Hrest). exists p. split; [by apply prefix_app_r|done].
Qed.

Lemma quiet_bind {A B} (m : CM A) (k : A -> CM B) : quiet_call m -> (forall a, quiet_call (k a)) -> quiet_call (m ≫= k).
Proof. intros Hm Hk c. apply (puts_bind [] []); [apply Hm|intros; apply Hk]. Qed.

(** A call that leaves all three alone. *)
Lemma quiet_same {A} (m : CM A) :
  (forall c, written (m c).2 = written c /\ next_seq (m c).2 = next_seq c /\
             length (clock (m c).2) <= length (clock c)) -> quiet_call m.
Proof.
  intros Hm c. specialize (Hm c). destruct (m c) as [[a|e|] c1]; simpl in *; [by rewrite app_nil_r| |];
    exists []; by rewrite app_nil_r.
Qed.

Lemma quiet_now : quiet_call now.
Proof. apply quiet_same. intros c. unfold now. destruct (clock c) eqn:Hc; simpl; rewrite ?Hc; simpl; auto with lia. Qed.

Lemma quiet_deadline t : quiet_call (deadline_after t).
Proof.
  destruct t as [t|]; [|by apply quiet_same]. apply quiet_bind; [|intros; by apply quiet_same].
  apply quiet_bind; [apply quiet_now|]. intros n. by apply quiet_same.
Qed.

Lemma quiet_poll evs d : quiet_call (poll_loop evs d).
Proof.
  assert (Hr : quiet_call (remaining_ms d)).
  { destruct d; [|by apply quiet_same]. apply quiet_bind; [apply quiet_now|]. intros n. case_bool; by apply quiet_same. }
  induction evs as [|ev evs IH]; cbn [poll_loop]; (apply quiet_bind; [done|]); [intros; by apply quiet_same|].
  intros _. apply quiet_bind; [by apply quiet_same|]. intros _. destruct ev as [| |[]]; done || by apply quiet_same.
Qed.

Lemma quiet_readable d : quiet_call (wait_readable d).
Proof. intros c. apply quiet_poll. Qed.

Lemma quiet_read : quiet_call read_more_once.
Proof. apply quiet_same. intros c. unfold read_more_once. by destruct (reads c) as [|[[|]|[]] r]. Qed.

Lemma quiet_next : quiet_call next_decoded_msg.
Proof.
  apply quiet_bind; [by apply quiet_same|]. intros c0. cbv zeta.
  destruct (_ <? 5); [by apply quiet_same|].
  apply quiet_bind; [by apply quiet_same|]. intros ty. apply quiet_bind; [by apply quiet_same|]. intros lb.
  destruct (MAX_PAYLOAD_LEN <? Z.to_nat (from_le_bytes lb)); [by apply quiet_same|].
  destruct (_ <? 5 + Z.to_nat (from_le_bytes lb)); [by apply quiet_same|].
  apply quiet_bind; [by apply quiet_same|]. intros p. apply quiet_bind; [by apply quiet_same|]. intros out.
  apply quiet_bind; [|by intros; apply quiet_same]. destruct (_ && _); by apply quiet_same.
Qed.

Lemma quiet_recv_loop fuel d : quiet_call (recv_blocking_loop fuel d).
Proof.
  induction fuel as [|fuel IH]; cbn [recv_blocking_loop]; [by apply quiet_same|].
  apply quiet_bind; [apply quiet_next|]. intros [m|]; [by apply quiet_same|].
  apply quiet_bind; [apply quiet_read|]. intros got. apply quiet_bind; [|done].
  destruct got; [by apply quiet_same|apply quiet_readable].
Qed.

Lemma quiet_wait_loop fuel d want : quiet_call (wait_loop fuel d want).
Proof.
  induction fuel as [|fuel IH]; cbn [wait_loop]; [by apply quiet_same|].
  apply quiet_bind; [intros c; apply quiet_recv_loop|]. intros m. destruct (want m); [by apply quiet_same|].
  apply quiet_bind; [by destruct m; apply quiet_same|done].
Qed.

Lemma quiet_wait_ack seq t : quiet_call (wait_for_ack seq t).
Proof.
  apply quiet_bind; [apply quiet_deadline|]. intros d. apply quiet_bind; [by apply quiet_same|].
  intros c0. apply quiet_wait_loop.
Qed.

Lemma puts_write_loop evs bs d c : puts_run bs c (write_all_loop evs bs d c).
Proof.
  revert bs c. induction evs as [|ev evs IH]; intros bs c; (destruct bs as [|x bs]; [by apply quiet_same|]);
    cbn [write_all_loop].
  { exists []. rewrite app_nil_r. split_and!; [apply prefix_nil|done..]. }
  destruct ev as [[|k]|[]].
  - exists []. rewrite app_nil_r. split_and!; [apply prefix_nil|done..].
  - cbv zeta. set (n := S k `min` length (x :: bs)). rewrite slice_from_Some by lia.
    rewrite <- (take_drop n (x :: bs)) at 1. unfold mbind at 1, M_bind at 1, or_panic.
    apply puts_bind; [by simpl|]. intros _ c1. apply IH.
  - apply (puts_bind []); [by apply quiet_same|]. intros _ c1. apply (puts_bind []); [apply quiet_readable|].
    intros _ c2. apply IH.
  - exists []. rewrite app_nil_r. split_and!; [apply prefix_nil|done..].
  - apply (puts_bind []); [by apply quiet_same|]. intros _ c1. apply IH.
  - exists []. rewrite app_nil_r. split_and!; [apply prefix_nil|done..].
  - exists []. rewrite app_nil_r. split_and!; [apply prefix_nil|done..].
Qed.

(** The message of one attempt. *)
Definition send_msg (seq : u64) f : bytes := msg_bytes MSG_SEND_FRAME (send_frame_bytes seq true f).

Lemma puts_write_msg ty p d c :
  (Z.of_nat (length p) <= u32_max)%Z -> puts_run (msg_bytes ty p) c (write_msg_deadline ty p d c).
Proof.
  intros Hp. unfold write_msg_deadline. destruct (Z.ltb_spec u32_max (Z.of_nat (length p))); [lia|].
  rewrite (wrap_small 32) by (unfold in_width, u32_max in *; lia).
  erewrite bind_ok by (unfold or_panic; rewrite set_at_Some by (simpl; lia); reflexivity).
  erewrite bind_ok.
  2:{ unfold or_panic. rewrite (copy_at_app [ty] (replicate 4 0%Z) [] 1) by done. reflexivity. }
  rewrite app_nil_r. unfold msg_bytes. rewrite app_assoc.
  apply puts_bind; [apply puts_write_loop|]. intros _ c1. apply puts_write_loop.
Qed.

(** One attempt: the sequence number is used up, a part of the message is on the
    socket, all of it and its ack when the attempt succeeds. *)
Definition attempted f c (p : bytes) c' : Prop :=
  p `prefix_of` send_msg (next_seq c) f /\ written c' = written c ++ p /\
  next_seq c' = wrapping_add64 (next_seq c) 1 /\ length (clock c') <= length (clock c) /\ moved c [] c'.

Lemma send_timeout_puts f t c :
  frame_wf f ->
  match send_timeout f t c with
  | (r, c') => exists p, p `prefix_of` send_msg (next_seq c) f /\ written c' = written c ++ p /\
      next_seq c' = wrapping_add64 (next_seq c) 1 /\ length (clock c') <= length (clock c) /\
      (r = Ok tt -> p = send_msg (next_seq c) f)
  end.
Proof.
  intros Hf. unfold send_timeout.
  rewrite (bind_ok take_seq _ c (next_seq c) (set_next_seq (wrapping_add64 (next_seq c) 1) c) eq_refl).
  set (c1 := set_next_seq _ c). set (p := send_frame_bytes (next_seq c) true f).
  rewrite (bind_ok _ _ c1 p c1).
  2: { unfold send_payload. rewrite encode_send_frame_run by (done || apply length_replicate). by rewrite slice_here. }
  assert (Hl : (Z.of_nat (length p) <= u32_max)%Z).
  { destruct (frame_wf_content f Hf) as (Hc & Hle & _). unfold p, send_frame_bytes, frame_bytes, u32_max.
    rewrite !length_app, !length_to_le_bytes. simpl. lia. }
  pose proof (puts_bind [] (send_msg (next_seq c) f) (now_plus t)
    (fun d => write_msg_deadline MSG_SEND_FRAME p (Some d);; wait_for_ack (next_seq c) (Some t)) c1) as Hrun.
  destruct (mbind _ (now_plus t) c1) as [r c'] eqn:Hr.
  assert (Hputs : puts_run (send_msg (next_seq c) f) c1 (r, c')).
  { apply Hrun.
    - generalize c1. apply quiet_bind; [apply quiet_now|]. intros n. by apply quiet_same.
    - intros d c2. rewrite <- (app_nil_r (send_msg _ _)). apply puts_bind; [by apply puts_write_msg|].
      intros _ c3. apply quiet_wait_ack. }
  destruct r as [[]|e|]; simpl in Hputs.
  - destruct Hputs as (Hw & Hs & Hc). exists (send_msg (next_seq c) f). by split_and!.
  - destruct Hputs as (q & Hq & Hw & Hs & Hc). exists q. by split_and!.
  - destruct Hputs as (q & Hq & Hw & Hs & Hc). exists q. by split_and!.
Qed.

Lemma send_timeout_acked f t c :
  frame_wf f -> client_wf c -> sane_time t ->
  ends (fun _ => True) (fun _ => acked (next_seq c) c) (fun _ _ => True) (send_timeout f t c).
Proof.
  intros Hf Hwf Ht. eapply ends_bind with (Q := fun seq c1 => seq = next_seq c /\ same_rx c c1); [done|].
  intros seq c1 [-> H1]. eapply ends_bind with (Q := fun _ => same_rx c).
  { eapply ends_weaken; [apply tx_only_send_payload; [done|by apply H1, Hwf]|done|done|].
    intros p s Hs. by etrans. }
  intros p c2 H2. eapply ends_bind with (Q := fun _ => same_rx c).
  { eapply ends_weaken; [apply tx_only_now_plus; [done|by apply H2, Hwf]|done|done|]. intros d s Hs. by etrans. }
  intros d c3 H3. eapply ends_bind with (Q := fun _ => same_rx c).
  { eapply ends_weaken; [by apply tx_only_write_msg, H3, Hwf|done|done|]. intros [] s Hs. by etrans. }
  intros _ c4 H4. destruct (same_rx_incoming _ _ H4) as [Hi Hq].
  eapply ends_mono; [apply wait_for_ack_acked; [by intros ? [= <-]|by apply (same_rx_no_msg c c4)]|].
  intros [] c5 (ms & Hc & Hq5). exists ms. by rewrite <- Hi, Hq5, Hq.
Qed.

Lemma send_timeout_run f t c :
  frame_wf f -> client_wf c -> sane_time t ->
  exists p, ends (attempted f c p) (fun _ c' => attempted f c p c' /\ p = send_msg (next_seq c) f /\ acked (next_seq c) c c')
    (fun _ => attempted f c p) (send_timeout f t c).
Proof.
  intros Hf Hwf Ht. pose proof (send_timeout_puts f t c Hf) as Hp. pose proof (send_timeout_acked f t c Hf Hwf Ht) as Ha.
  pose proof (run_op_moved (OpSendTimeout f t) c (conj Hf Ht) Hwf) as Hm. cbn [run_op] in Hm.
  unfold mbind, M_bind in Hm. destruct (send_timeout f t c) as [r c']. destruct Hp as (p & Hp & Hw & Hs & Hc & Hok).
  exists p. unfold attempted. destruct r as [[]|[e| |]|]; simpl in *; try done.
  specialize (Hok eq_refl). by split_and!.
Qed.

(** Several attempts, one after the other. *)
Fixpoint seq_after (n : nat) (seq : u64) : u64 :=
  match n with O => seq | S n' => seq_after n' (wrapping_add64 seq 1) end.
Fixpoint pieces_of f (seq : u64) (ps : list bytes) : Prop :=
  match ps with
  | [] => True
  | p :: ps' => p `prefix_of` send_msg seq f /\ pieces_of f (wrapping_add64 seq 1) ps'
  end.
Definition tries f c (ps : list bytes) c' : Prop :=
  pieces_of f (next_seq c) ps /\ written c' = written c ++ concat ps /\
  next_seq c' = seq_after (length ps) (next_seq c) /\ length (clock c') <= length (clock c) /\ moved c [] c'.

Lemma pieces_app f seq ps1 ps2 :
  pieces_of f seq (ps1 ++ ps2) <-> pieces_of f seq ps1 /\ pieces_of f (seq_after (length ps1) seq) ps2.
Proof. revert seq. induction ps1 as [|p ps1 IH]; intros seq; simpl; [tauto|]. rewrite IH. tauto. Qed.

Lemma seq_after_add n m seq : seq_after (n + m) seq = seq_after m (seq_after n seq).
Proof. revert seq. induction n as [|n IH]; intros seq; [done|]. apply IH. Qed.

Lemma tries_trans f c1 ps1 c2 ps2 c3 :
  tries f c1 ps1 c2 -> tries f c2 ps2 c3 -> tries f c1 (ps1 ++ ps2) c3.
Proof.
  intros (Hp1 & Hw1 & Hs1 & Hc1 & Hm1) (Hp2 & Hw2 & Hs2 & Hc2 & Hm2). rewrite Hs1 in Hp2, Hs2. split_and!.
  - by apply pieces_app.
  - by rewrite Hw2, Hw1, concat_app, app_assoc.
  - by rewrite Hs2, length_app, seq_after_add.
  - lia.
  - by apply (moved_trans _ [] _ [] _ Hm1).
Qed.

Lemma attempted_tries f c p c' : attempted f c p c' -> tries f c [p] c'.
Proof. intros (Hp & Hw & Hs & Hc & Hm). split_and!; [done|by rewrite Hw; simpl; rewrite app_nil_r|done..]. Qed.

Lemma now_tries f c n c' :
  client_wf c -> now c = (Ok n, c') ->
  tries f c [] c' /\ length (clock c') < length (clock c) /\ sane_time n.
Proof.
  intros Hwf Hn. pose proof (conserves_tx now c tx_only_now Hwf) as Hm. rewrite Hn in Hm. simpl in Hm.
  unfold now in Hn. destruct (clock c) as [|t ts] eqn:Hc; [done|]. injection Hn as <- <-.
  destruct Hwf as [_ Hs]. unfold sane_clock in Hs. rewrite Hc in Hs. apply Forall_cons_1 in Hs as [Ht _].
  split; [|simpl; split; [lia|done]]. split_and!; simpl; [done|by rewrite app_nil_r|done|rewrite Hc; simpl; lia|done].
Qed.

(** What a call on the adapter leaves behind; [Ok] means that the last attempt
    was complete and that its ack is the last message the call took from the
    client's stream. *)
Abbreviation Tx := (SharedCell Can).
Definition tx_outcome f (s : Tx) (run : result unit (stop UnixCanError) * Tx) : Prop :=
  let '(r, s') := run in
  poisoned s' = false /\ exists ps, tries f (cell s) ps (cell s') /\
  match r with
  | Ok _ => exists ps0, ps = ps0 ++ [send_msg (seq_after (length ps0) (next_seq (cell s))) f] /\
                        acked (seq_after (length ps0) (next_seq (cell s))) (cell s) (cell s')
  | Err OutOfFuel | Panic => False
  | Err _ => True
  end.

Lemma tx_outcome_after f s ps s1 run :
  tries f (cell s) ps (cell s1) -> tx_outcome f s1 run -> tx_outcome f s run.
Proof.
  intros Ht. destruct run as [r s']. intros (Hp & ps' & Ht' & Hr). split; [done|]. exists (ps ++ ps').
  split; [by eapply tries_trans|]. destruct r as [[]|[]|]; try done.
  destruct Hr as (ps0 & -> & Ha). destruct Ht as (_ & _ & Hs & _ & Hm). rewrite Hs in *.
  exists (ps ++ ps0). rewrite length_app, seq_after_add, app_assoc. split; [done|by eapply acked_after].
Qed.

Lemma io_slice_sane n : (0 <= n)%Z -> sane_time (Z.min IO_SLICE n).
Proof. unfold sane_time, IO_SLICE, INSTANT_LIMIT. lia. Qed.

Lemma send_slices_run fuel f deadline (s : Tx) :
  frame_wf f -> client_wf (cell s) -> poisoned s = false -> length (clock (cell s)) < fuel ->
  tx_outcome f s (send_slices fuel f deadline s).
Proof.
  intros Hf. revert s. induction fuel as [|fuel IH]; intros s Hwf Hp Hfuel; [lia|]. cbn [send_slices].
  assert (Hself : tries f (cell s) [] (cell s)).
  { split_and!; [done|by rewrite app_nil_r|done|lia|by apply no_msg_moved, same_rx_no_msg]. }
  unfold tx_now, on_field. unfold mbind at 1, M_bind at 1. destruct (now (cell s)) as [[n|e|] c1] eqn:Hn.
  2: { unfold now in Hn. destruct (clock (cell s)); simplify_eq. simpl. split; [done|]. by exists []. }
  2: { unfold now in Hn. by destruct (clock (cell s)). }
  destruct (now_tries f _ _ _ Hwf Hn) as (Ht1 & Hc1 & _). rewrite Hp.
  destruct (Z.leb_spec deadline n); [split; [done|]; by exists []|].
  assert (Hwf1 : client_wf c1) by apply Ht1.
  destruct (send_timeout_run f (Z.min IO_SLICE (deadline - n)) c1 Hf Hwf1) as (p & Hrun);
    [apply io_slice_sane; lia|].
  unfold mbind at 1, M_bind at 1, attempt, spawn_send. simpl.
  destruct (send_timeout _ _ c1) as [[[]|[e| |]|] c2]; simpl in Hrun; try done.
  - destruct Hrun as (Ha & -> & Hack). split; [done|]. exists ([] ++ [send_msg (next_seq c1) f]).
    split; [eapply tries_trans; [exact Ht1|by apply attempted_tries]|].
    assert (Hs : next_seq c1 = next_seq (cell s)) by apply Ht1. rewrite Hs in *. exists []. split; [done|].
    eapply acked_after; [apply Ht1|done].
  - assert (Ht : tries f (cell s) ([] ++ [p]) c2)
      by (eapply tries_trans; [exact Ht1|by apply attempted_tries]).
    assert (Hgo : tx_outcome f s (send_slices fuel f deadline {| cell := c2; poisoned := false |})).
    { eapply (tx_outcome_after f s _ {| cell := c2; poisoned := false |}); [exact Ht|].
      apply IH; [apply Ht|done|]. simpl. destruct Hrun as (_ & _ & _ & ? & _). lia. }
    destruct e; try exact Hgo; (split; [done|]; by exists [p]).
  - split; [done|]. exists ([] ++ [p]). split; [eapply tries_trans; [exact Ht1|by apply attempted_tries]|done].
Qed.

Lemma tries_nil f c : client_wf c -> tries f c [] c.
Proof. intros Hwf. split_and!; [done|by rewrite app_nil_r|done|lia|by apply no_msg_moved, same_rx_no_msg]. Qed.

(** A call that fails has looked at the clock. *)
Lemma async_send_timeout_run f t (s : Tx) :
  frame_wf f -> client_wf (cell s) -> poisoned s = false -> sane_time t ->
  tx_outcome f s (async_send_timeout f t s) /\
  (forall e s', async_send_timeout f t s = (Err (Fails e), s') -> length (clock (cell s')) < length (clock (cell s))).
Proof.
  intros Hf Hwf Hp Ht. destruct (async_send_timeout f t s) as [r s2] eqn:Hrun2.
  unfold async_send_timeout, tx_now, on_field in Hrun2. unfold mbind at 1, M_bind at 1 in Hrun2.
  destruct (now (cell s)) as [[n|e|] c1] eqn:Hn.
  2: { unfold now in Hn. destruct (clock (cell s)); simplify_eq. simpl. split; [|done]. split; [done|].
       exists []. split; [by apply tries_nil|done]. }
  2: { unfold now in Hn. by destruct (clock (cell s)). }
  destruct (now_tries f _ _ _ Hwf Hn) as (Ht1 & Hc1 & Hsn). rewrite Hp in Hrun2.
  assert (Hadd : instant_add n t = Some (n + t)%Z).
  { unfold instant_add, sane_time in *. destruct (Z.ltb_spec (n + t) INSTANT_LIMIT); [done|lia]. }
  rewrite Hadd in Hrun2. set (s1 := {| cell := c1; poisoned := false |}) in Hrun2.
  change (send_slices (S (length (clock c1))) f (n + t) s1 = (r, s2)) in Hrun2.
  assert (Hrun : tx_outcome f s1 (r, s2)).
  { rewrite <- Hrun2. apply send_slices_run; [done|apply Ht1|done|simpl; lia]. }
  split; [by eapply (tx_outcome_after f s [] s1)|]. intros e s' [= -> ->].
  destruct Hrun as (_ & ps & (_ & _ & _ & Hle & _) & _). simpl in Hle. lia.
Qed.

Lemma send_forever_run fuel f (s : Tx) :
  frame_wf f -> client_wf (cell s) -> poisoned s = false -> length (clock (cell s)) < fuel ->
  tx_outcome f s (send_forever fuel f s).
Proof.
  intros Hf. revert s. induction fuel as [|fuel IH]; intros s Hwf Hp Hfuel; [lia|]. cbn [send_forever].
  destruct (async_send_timeout_run f IO_SLICE s Hf Hwf Hp) as [Hout Hless]; [apply (io_slice_sane IO_SLICE); done|].
  unfold mbind, M_bind, attempt. destruct (async_send_timeout f IO_SLICE s) as [[[]|[e| |]|] s1]; try done.
  specialize (Hless _ _ eq_refl). destruct Hout as (Hp1 & ps & Ht & _).
  assert (Hgo : tx_outcome f s (send_forever fuel f s1)).
  { eapply tx_outcome_after; [exact Ht|]. apply IH; [apply Ht|done|lia]. }
  destruct e; try exact Hgo; (split; [done|]; by exists ps).
Qed.

(** C24. What a send of the benchmark's adapter leaves behind, with a deadline or
    without: it neither panics nor spins for ever, and what it has added to the socket is one
    piece per attempt, each a prefix of the frame's SEND_FRAME message under the
    next sequence number, in order; the queue of received frames has lost
    nothing; and [Ok] means that the last attempt is on the socket completely and
    that the call has read, as the last of the messages it took from the
    client's stream, the server's ack for exactly its sequence number. *)
Theorem bench_send_outcome f (deadline : option Duration) (s : Tx) :
  frame_wf f -> client_wf (cell s) -> poisoned s = false ->
  (forall t, deadline = Some t -> sane_time t) ->
  tx_outcome f s (match deadline with
                  | Some t => atx_send_timeout f t s
                  | None => atx_send f s
                  end).
Proof.
  intros Hf Hwf Hp Ht. destruct deadline as [t|].
  - by apply async_send_timeout_run; try apply Ht.
  - apply send_forever_run; [done..|lia].
Qed.

(** The frames the sending client receives while it waits for acks pile up in
    its queue: no call of the adapter takes one out. *)
Lemma send_queue_grows f (s : Tx) run :
  tx_outcome f s run -> rx_queue (cell s) `prefix_of` rx_queue (cell run.2).
Proof.
  destruct run as [r s']. intros (_ & ps & (_ & _ & _ & _ & _ & ms & _ & Hq) & _). simpl in *.
  exists (frames_of ms). by rewrite Hq.
Qed.
End tx_facts.

(** ** Sends that were retried *)

(** The first attempt is written and acknowledged late: the frame is on the
    socket twice, under two sequence numbers, and the call returns [Ok]. *)
Abbreviation DemoTx := (SharedCell (UnixCan DemoStd DemoExt)).
Definition late_acks : bytes := concat (map (server_msg_bytes (SId := DemoStd) (EId := DemoExt)) [AckMsg 1 ACK_OK; AckMsg 2 ACK_OK]).
Definition late_tx : DemoTx :=
  {| cell := client_new [ReadFails EWouldBlock; ReadData late_acks] [PollTimedOut]
       [Wrote 5; Wrote 100; Wrote 5; Wrote 100] [0; 0; 0; 0; 10; 20; 20; 20]%Z;
     poisoned := false |}.

Example late_ack_duplicates :
  (async_send_timeout demo_frame 1000000000 late_tx).1 = Ok tt /\
  written (cell (async_send_timeout demo_frame 1000000000 late_tx).2) = send_msg 1 demo_frame ++ send_msg 2 demo_frame.
Proof. apply conj; vm_compute; reflexivity. Qed.

(** The server has the frame twice. *)
Example late_ack_delivered_twice :
  map (fun cmd => match cmd with SendFrameCmd id seq _ f => Some (id, seq, frame_data f) | _ => None end)
    (default [] (client_reader_loop (SId := DemoStd) (EId := DemoExt) 100 7
      (written (cell (async_send_timeout demo_frame 1000000000 late_tx).2)))) =
  [Some (7, 1, frame_data demo_frame); Some (7, 2, frame_data demo_frame); None]%Z.
Proof. vm_compute. reflexivity. Qed.

(** A frame of another node arrives before the ack and stays in the queue. *)
Definition busy_tx : DemoTx :=
  {| cell := client_new [ReadData (concat (map server_msg_bytes [FrameMsg demo_frame; AckMsg 1 ACK_OK]))] []
       [Wrote 5; Wrote 100] [0; 0; 0; 0]%Z;
     poisoned := false |}.
Example send_queues_frame :
  (async_send_timeout demo_frame 1000000000 busy_tx).1 = Ok tt /\
  length (rx_queue (cell (async_send_timeout demo_frame 1000000000 busy_tx).2)) = 1.
Proof. apply conj; vm_compute; reflexivity. Qed.

(** The first attempt is cut short by a full socket: its piece stays on the
    stream, the second attempt writes behind it, and the server, which reads the
    two as one message, drops the client, whatever follows. *)
Definition torn_tx : DemoTx :=
  {| cell := client_new [ReadData []] [PollTimedOut]
       [Wrote 5; Wrote 2; WriteFails EWouldBlock; Wrote 5; Wrote 100] [0; 0; 0; 0; 20; 20; 20]%Z;
     poisoned := false |}.
Definition torn_run := async_send_timeout demo_frame 1000000000 torn_tx.

Example torn_send :
  torn_run.1 = Err (Fails CanDisconnected) /\
  written (cell torn_run.2) = take 7 (send_msg 1 demo_frame) ++ send_msg 2 demo_frame.
Proof. apply conj; vm_compute; reflexivity. Qed.

Example torn_send_drops_client :
  match client_reader_loop (SId := DemoStd) (EId := DemoExt) 100 7
          (written (cell torn_run.2) ++ send_msg 3 demo_frame) with
  | Some [RemoveClient id] => id = 7%Z
  | _ => False
  end.
Proof. vm_compute. reflexivity. Qed.

Lemma torn_tx_wf : client_wf (cell torn_tx).
Proof. split; [simpl; lia|]. unfold sane_clock. cbn. by repeat constructor. Qed.

Lemma bench_send_outcome_witness :
  tx_outcome demo_frame torn_tx (atx_send_timeout demo_frame 1000000000%Z torn_tx).
Proof.
  exact (bench_send_outcome demo_frame (Some 1000000000%Z) torn_tx demo_frame_wf torn_tx_wf eq_refl
    (fun t Ht => eq_ind 1000000000%Z sane_time eq_refl t (f_equal (default 0%Z) Ht))).
Defined.

(** * What the receiver delivers *)

Section rx_facts.
Context {SId EId : Type} `{HL : EmbeddedCanLaws SId EId}.
Abbreviation Frame := (UnixFrame SId EId).
Abbreviation Can := (UnixCan SId EId).
Abbreviation Rx := (AsyncUnixCanRx SId EId).
Implicit Types c : Can.

(** ** The forwarding thread makes progress *)

(** The errors after which the thread goes on. *)
Definition retried (e : UnixCanError) : bool :=
  match e with CanTimeout | CanWouldBlock => true | _ => false end.

(** A call leaves less to look at when it returns or is to be repeated. *)
Definition shrinks {A} (n : nat) (run : result A (stop UnixCanError) * Can) : Prop :=
  ends (fun _ => True) (fun _ c' => forward_work c' < n)
    (fun e c' => retried e = true -> forward_work c' < n) run.

Lemma forward_work_eq c : forward_work c = length (rx_queue c) + rx_work c + length (polls c).
Proof. unfold forward_work, rx_work, pending. rewrite length_drop. lia. Qed.

Lemma shrinks_le {A} n m (run : result A (stop UnixCanError) * Can) : n <= m -> shrinks n run -> shrinks m run.
Proof. intros Hn Hs. eapply ends_weaken; [exact Hs|..]; cbv beta; [done| |lia]. intros e s Hw He. specialize (Hw He). lia. Qed.

Lemma poll_shrinks evs c :
  length evs <= length (polls c) ->
  ends (fun _ => True) (fun _ c' => length (polls c') <= length (polls c))
    (fun _ c' => length (polls c') < length (polls c)) (poll_loop evs None c).
Proof.
  revert c. induction evs as [|ev evs IH]; intros c Hl; [done|]. simpl in Hl. cbn [poll_loop].
  rewrite (bind_ok (remaining_ms None) _ c (-1)%Z c eq_refl).
  set (c1 := set_os evs (clock c) c).
  rewrite (bind_ok (modify (fun c => set_os evs (clock c) c)) _ c tt c1 eq_refl).
  assert (Hc1 : length (polls c1) < length (polls c)) by (simpl; lia).
  destruct ev as [| |[]]; simpl; try lia.
  eapply ends_weaken; [apply (IH c1); simpl; lia|done|..]; cbv beta; intros; lia.
Qed.

(** Waiting for the socket without a deadline. *)
Lemma readable_shrinks c :
  client_wf c ->
  ends (fun _ => True) (fun _ c' => no_msg c c' /\ reads c' = reads c /\ forward_work c' <= forward_work c)
    (fun _ c' => forward_work c' < forward_work c) (wait_readable None c).
Proof.
  intros Hwf. pose proof (tx_only_poll (polls c) None c (proj2 Hwf)) as Ht. pose proof (poll_shrinks (polls c) c (le_n _)) as Hp.
  change (wait_readable None c) with (poll_loop (polls c) None c).
  assert (Hw : forall c', same_rx c c' -> forward_work c' + length (polls c) = forward_work c + length (polls c')).
  { intros c' (Hq & Hb & Ho & Hr & _). unfold forward_work. rewrite Hq, Hb, Ho, Hr. lia. }
  destruct (poll_loop (polls c) None c) as [[[]|[e| |]|] c']; simpl in *; try done; specialize (Hw _ Ht).
  - split_and!; [by apply same_rx_no_msg|apply Ht|lia].
  - lia.
Qed.

Lemma read_shrinks c :
  client_wf c ->
  ends (fun _ => True)
    (fun _ c' => no_msg c c' /\ read_work (reads c') < read_work (reads c) /\ forward_work c' <= forward_work c)
    (fun _ c' => forward_work c' < forward_work c) (read_more_once c).
Proof.
  intros Hwf. pose proof (read_more_spec c Hwf) as Hs.
  assert (Hp : polls (read_more_once c).2 = polls c)
    by (unfold read_more_once; by destruct (reads c) as [|[[|]|[]] r]).
  assert (Hf : forall e, (read_more_once c).1 = Err (Fails e) ->
    forward_work (read_more_once c).2 < forward_work c).
  { intros e. unfold forward_work, read_more_once.
    destruct (reads c) as [|[[|]|[]] r]; simpl; intros; (done || lia). }
  destruct (read_more_once c) as [[got|[e| |]|] c']; simpl in *; try done; [|by eapply Hf].
  destruct Hs as [Hn Hr]. split_and!; [done..|]. rewrite !forward_work_eq, Hp.
  destruct Hn as (_ & _ & -> & ?). lia.
Qed.

Lemma next_shrinks c :
  client_wf c ->
  ends (fun _ => False)
    (fun m c' => match m with Some m => one_msg c m c' /\ forward_work c' < forward_work c | None => c' = c end)
    (fun e _ => retried e = false) (next_decoded_msg c).
Proof.
  intros Hwf. pose proof (next_decoded_msg_spec c Hwf) as Hn.
  destruct (next_msg (pending c)) as [[[m rest]|]|e|] eqn:Hm; [| | |done].
  - destruct Hn as (b & o & -> & Hd & Ho). pose proof (next_decoded_one c m Hwf rest b o Hm Hd Ho) as H1.
    split; [done|]. rewrite !forward_work_eq. destruct H1 as (_ & _ & -> & ?). simpl. lia.
  - by rewrite Hn.
  - rewrite Hn. simpl. unfold next_msg, decode_msg, map_err in Hm. by repeat case_match; simplify_eq.
Qed.

Lemma recv_blocking_shrinks fuel c :
  client_wf c -> read_work (reads c) < fuel -> shrinks (forward_work c) (recv_blocking_loop fuel None c).
Proof.
  revert c. induction fuel as [|fuel IH]; intros c Hwf Hf; [lia|]. cbn [recv_blocking_loop].
  eapply ends_bind.
  { eapply ends_weaken; [by apply next_shrinks|done|intros e s He Hr; congruence|intros m s Hm; exact Hm]. }
  intros [m|] c1 H1; [by destruct H1|]. subst c1.
  eapply ends_bind.
  { eapply ends_weaken; [by apply read_shrinks|done|intros e s He Hr; exact He|intros got s Hs; exact Hs]. }
  intros got c1 (H1 & Hr1 & Hw1). eapply ends_bind with (Q := fun _ c2 => client_wf c2 /\ reads c2 = reads c1 /\ forward_work c2 <= forward_work c1).
  { destruct got; [split_and!; [apply H1|done|lia]|].
    eapply ends_weaken; [apply readable_shrinks, H1|done|cbv beta; intros e s He _; lia|].
    intros _ s (Hn & ? & ?). split_and!; [apply Hn|done..]. }
  intros _ c2 (Hwf2 & Hr2 & Hw2). eapply shrinks_le; [|apply IH; [done|rewrite Hr2; lia]]. lia.
Qed.

Lemma recv_loop_shrinks fuel c :
  client_wf c -> rx_work c < fuel -> shrinks (forward_work c) (recv_loop fuel None c).
Proof.
  revert c. induction fuel as [|fuel IH]; intros c Hwf Hf; [lia|]. cbn [recv_loop].
  pose proof (recv_decoded_spec None c Hwf) as H1.
  assert (H2 : shrinks (forward_work c) (recv_decoded_msg_blocking None c)) by (by apply recv_blocking_shrinks; [|lia]).
  unfold shrinks in *. unfold mbind, M_bind. destruct (recv_decoded_msg_blocking None c) as [[m|[e| |]|] c1]; try done.
  simpl in *. destruct H1 as (Hwf1 & _ & _ & Hw1). destruct m; [exact H2|..];
    (eapply shrinks_le; [|apply IH; [done|lia]]; lia).
Qed.

Lemma recv_shrinks c : client_wf c -> shrinks (forward_work c) (recv c).
Proof.
  intros Hwf. unfold recv, mbind, M_bind, pop_queue, get. destruct (rx_queue c) as [|f q] eqn:Hq.
  - apply recv_loop_shrinks; [done|apply msg_fuel_enough].
  - simpl. unfold forward_work. rewrite Hq. simpl. lia.
Qed.

(** ** What it forwards *)

Abbreviation Event := (Frame + UnixCanError)%type.
Definition frames (evs : list Event) : list Frame :=
  omap (fun ev => match ev with inl f => Some f | inr _ => None end) evs.

(** Frames, at most one error at the end, and at most one frame that found the
    channel closed. *)
Definition forwarded c (run : list Event * ForwardState * Can) : Prop :=
  let '(evs, st, c') := run in
  st <> Broken /\ exists fs err lost,
    evs = map inl fs ++ map inr (option_list err) /\ moved c (fs ++ option_list lost) c' /\
    (is_Some err \/ is_Some lost -> st = Ended).

Lemma recv_delivers c :
  client_wf c -> ends (moved c []) (fun f => moved c [f]) (fun _ => moved c []) (recv c).
Proof.
  intros Hwf. pose proof (run_op_moved OpRecv c I Hwf) as Hm. cbn [run_op] in Hm. unfold mbind, M_bind in Hm.
  by destruct (recv c) as [[f|[e| |]|] c'].
Qed.

Lemma forward_run fuel limit c :
  client_wf c -> forward_work c < fuel -> forwarded c (forward fuel limit c).
Proof.
  revert limit c. induction fuel as [|fuel IH]; intros limit c Hwf Hf; [lia|]. cbn [forward].
  pose proof (recv_delivers c Hwf) as Hd. pose proof (recv_shrinks c Hwf) as Hs. unfold shrinks in Hs.
  destruct (recv c) as [[f|[e| |]|] c1]; simpl in Hd, Hs; try done.
  - destruct limit as [|limit].
    { split; [done|]. by exists [], None, (Some f). }
    specialize (IH limit c1 (proj1 Hd) ltac:(lia)). destruct (forward fuel limit c1) as [[evs st] c2].
    destruct IH as (Hst & fs & err & lost & -> & Hm & Hend). split; [done|]. exists (f :: fs), err, lost.
    split_and!; [done|by apply (moved_trans _ [f] _ _ _ Hd)|done].
  - assert (Hgo : retried e = true -> forwarded c (forward fuel limit c1)).
    { intros He. specialize (IH limit c1 (proj1 Hd) ltac:(specialize (Hs He); lia)).
      destruct (forward fuel limit c1) as [[evs st] c2].
      destruct IH as (Hst & fs & err & lost & -> & Hm & Hend). split; [done|]. exists fs, err, lost.
      split_and!; [done|by apply (moved_trans _ [] _ _ _ Hd)|done]. }
    assert (Hstop : forwarded c (match limit with O => [] | S _ => [inr e] end, Ended, c1)).
    { split; [done|]. by destruct limit; [exists [], None, None|exists [], (Some e), None]. }
    destruct e; first [by apply Hgo|exact Hstop].
  - split; [done|]. exists [], None, None. split_and!; [done..|by intros [[]|[]]].
Qed.

Lemma frames_events fs (err : option UnixCanError) : frames (map inl fs ++ map inr (option_list err)) = fs.
Proof.
  unfold frames. rewrite omap_app. replace (omap _ (map inr _)) with (@nil Frame) by (by destruct err).
  rewrite app_nil_r. induction fs as [|f fs IH]; [done|]. by apply (f_equal (cons f)).
Qed.

Lemma forward_frames msgs limit c :
  client_wf c -> rx_queue c = [] -> Forall sendable msgs -> incoming c = concat (map server_msg_bytes msgs) ->
  let '(evs, st, _) := forward_thread limit c in st <> Broken /\ frames evs `prefix_of` server_frames msgs.
Proof.
  intros Hwf Hq Hm Hi. unfold forward_thread. pose proof (forward_run (S (forward_work c)) limit c Hwf (le_n _)) as Hr.
  destruct (forward _ limit c) as [[evs st] c']. destruct Hr as (Hst & fs & err & lost & -> & (_ & ms & Hc & Hf) & _).
  split; [done|]. rewrite frames_events. rewrite Hi in Hc. destruct (consumes_server msgs ms _ Hm Hc) as (d & l & -> & ->).
  rewrite Hq, frames_of_decoded in Hf. simpl in Hf. unfold server_frames in *. rewrite omap_app, Hf, <- !app_assoc.
  by eexists.
Qed.

(** On a socket that delivers, all of them. *)
Lemma forward_all fuel msgs limit c :
  client_wf c -> rx_queue c = [] -> Forall sendable msgs -> incoming c = concat (map server_msg_bytes msgs) ->
  data_reads (reads c) -> forward_work c < fuel -> length (server_frames msgs) <= limit ->
  server_frames msgs `prefix_of` frames (forward fuel limit c).1.1.
Proof.
  remember (server_frames msgs) as fs eqn:Hfs. revert fuel msgs limit c Hfs.
  induction fs as [|f fs IH]; intros fuel msgs limit c Hfs Hwf Hq Hm Hi Hd Hf Hl; [apply prefix_nil|].
  destruct (first_frame msgs f fs (eq_sym Hfs)) as (pre & post & -> & Hp & <-).
  apply Forall_app in Hm as [Hpre Hpost]. inversion Hpost as [|? ? Hfw Hpost']; subst.
  rewrite map_app, concat_app in Hi. cbn [map concat] in Hi.
  destruct (recv_loop_returns (msg_fuel c) None c pre f _ Hwf Hd (msg_fuel_enough c) Hpre Hp Hfw Hi)
    as (c1 & Hrun & Hwf1 & Hd1 & Hi1 & Hq1).
  assert (Hrecv : recv c = (Ok f, c1)) by (unfold recv, mbind, M_bind, pop_queue, get; by rewrite Hq).
  destruct fuel as [|fuel]; [lia|]. destruct limit as [|limit]; [simpl in Hl; lia|]. cbn [forward].
  pose proof (recv_shrinks c Hwf) as Hs. unfold shrinks in Hs. rewrite Hrecv in *. simpl in Hs.
  specialize (IH fuel post limit c1 eq_refl Hwf1 ltac:(congruence) Hpost' Hi1 Hd1 ltac:(lia) ltac:(simpl in Hl; lia)).
  destruct (forward fuel limit c1) as [[evs st] c2]. by apply prefix_cons.
Qed.

(** ** The channel *)

(** A caller of [AsyncUnixCanRx] beside the thread: what the thread does to the
    channel and the calls, in the order they happen. *)
Inductive RxOp := RecvCall | RecvTimeoutCall (t : Duration) | WaitCall.
Inductive RxStep := Arrive (ev : Event) | Hangup | Call (op : RxOp).

Definition arrived (steps : list RxStep) : list Event :=
  omap (fun st => match st with Arrive ev => Some ev | _ => None end) steps.

(** The frames the calls return. *)
Definition rx_call (op : RxOp) (s : Rx) : list Frame * Rx :=
  match op with
  | RecvCall => match arx_recv s with (Ok f, s') => ([f], s') | (_, s') => ([], s') end
  | RecvTimeoutCall t => match arx_recv_timeout t s with (Ok f, s') => ([f], s') | (_, s') => ([], s') end
  | WaitCall => ([], (arx_wait_not_empty s).2)
  end.
Fixpoint rx_run (steps : list RxStep) (s : Rx) : list Frame * Rx :=
  match steps with
  | [] => ([], s)
  | Arrive ev :: steps' => rx_run steps' {| events := events s ++ [ev]; closed := closed s |}
  | Hangup :: steps' => rx_run steps' {| events := events s; closed := true |}
  | Call op :: steps' =>
      let '(fs, s1) := rx_call op s in let '(fs', s2) := rx_run steps' s1 in (fs ++ fs', s2)
  end.

Lemma next_event_frames idle (s : Rx) :
  match next_event idle s with
  | (Ok f, s') => frames (events s) = f :: frames (events s')
  | (_, s') => frames (events s) = frames (events s')
  end.
Proof. unfold next_event. destruct (events s) as [|[f|e] evs] eqn:Hev; simpl; by rewrite ?Hev. Qed.

Lemma rx_call_frames op (s : Rx) :
  let '(fs, s') := rx_call op s in frames (events s) = fs ++ frames (events s').
Proof.
  destruct op; simpl; [pose proof (next_event_frames Waiting s) as Hn|pose proof (next_event_frames (Fails CanTimeout) s) as Hn|done];
    by destruct (next_event _ s) as [[f|e|] s'].
Qed.

Lemma rx_run_frames steps (s : Rx) :
  let '(fs, s') := rx_run steps s in frames (events s) ++ frames (arrived steps) = fs ++ frames (events s').
Proof.
  revert s. induction steps as [|[ev| |op] steps IH]; intros s; cbn [rx_run].
  - by rewrite app_nil_r.
  - specialize (IH {| events := events s ++ [ev]; closed := closed s |}). destruct (rx_run _ _) as [fs s'].
    rewrite <- IH. unfold frames. simpl. rewrite omap_app, <- app_assoc. by destruct ev.
  - apply (IH {| events := events s; closed := true |}).
  - pose proof (rx_call_frames op s) as Hc. destruct (rx_call op s) as [fs s1]. specialize (IH s1).
    destruct (rx_run steps s1) as [fs' s2]. by rewrite Hc, <- !app_assoc, <- IH.
Qed.

(** C22. The receive path of a benchmark node, from the socket through the forwarding
    thread and its channel: the thread never panics and never spins, and however
    its sends interleave with [recv], [recv_timeout] and [wait_not_empty], the frames the
    calls have returned, followed by those that wait in the channel, are the first
    frames of the server's stream, in order, without loss or repetition.  On a
    socket that delivers, a thread whose channel stays open forwards all of
    them. *)
Theorem bench_rx_fifo msgs limit c steps :
  client_wf c -> rx_queue c = [] -> Forall sendable msgs -> incoming c = concat (map server_msg_bytes msgs) ->
  arrived steps `prefix_of` (forward_thread limit c).1.1 ->
  (forward_thread limit c).1.2 <> Broken /\
  (let '(got, s) := rx_run steps {| events := []; closed := false |} in
   exists left, server_frames msgs = got ++ frames (events s) ++ left) /\
  (data_reads (reads c) -> length (server_frames msgs) <= limit ->
   frames (forward_thread limit c).1.1 = server_frames msgs).
Proof.
  intros Hwf Hq Hm Hi Harr. pose proof (forward_frames msgs limit c Hwf Hq Hm Hi) as Hf.
  pose proof (fun Hd => forward_all (S (forward_work c)) msgs limit c Hwf Hq Hm Hi Hd (le_n _)) as Hall.
  fold (forward_thread limit c) in Hall. destruct (forward_thread limit c) as [[evs st] c'].
  destruct Hf as [Hst Hpre]. simpl in *. split; [done|]. split.
  - pose proof (rx_run_frames steps {| events := []; closed := false |}) as Hrun.
    destruct (rx_run steps _) as [got s]. simpl in Hrun.
    destruct Harr as [more ->]. unfold frames in Hpre. rewrite omap_app in Hpre.
    destruct Hpre as [rest Hpre]. fold (frames (arrived steps)) in Hpre. rewrite Hrun in Hpre.
    rewrite Hpre, <- !app_assoc. by eexists.
  - intros Hd Hl. specialize (Hall Hd Hl). destruct Hpre as [a Ha], Hall as [b Hb].
    rewrite Hb in Ha. rewrite <- app_assoc in Ha. apply (f_equal length) in Ha. rewrite !length_app in Ha.
    destruct b; [by rewrite Hb, app_nil_r|simpl in Ha; lia].
Qed.
End rx_facts.

(** The demo stream, read by a thread that finds it cut after three bytes. *)
Lemma arrived_map {SId EId : Type} (evs : list (UnixFrame SId EId + UnixCanError)) steps :
  arrived (map Arrive evs ++ steps) = evs ++ arrived steps.
Proof. induction evs as [|ev evs IH]; [done|]. by apply (f_equal (cons ev)). Qed.

Definition demo_events := (forward_thread 5 demo_client).1.1.
Definition demo_steps := [Call RecvCall] ++ map Arrive demo_events ++ [Call WaitCall; Call (RecvTimeoutCall 5)].
Example demo_steps_deliver :
  map frame_data (rx_run demo_steps {| events := []; closed := false |}).1 = [frame_data demo_frame].
Proof. vm_compute. reflexivity. Qed.

Lemma bench_rx_fifo_witness :
  (forward_thread 5 demo_client).1.2 <> Broken /\
  (let '(got, s) := rx_run demo_steps {| events := []; closed := false |} in
   exists left, server_frames demo_msgs = got ++ frames (events s) ++ left) /\
  (data_reads (reads demo_client) -> length (server_frames demo_msgs) <= 5 ->
   frames (forward_thread 5 demo_client).1.1 = server_frames demo_msgs).
Proof.
  apply (bench_rx_fifo demo_msgs 5 demo_client demo_steps).
  - exact demo_client_wf.
  - reflexivity.
  - exact demo_sendable.
  - vm_compute. reflexivity.
  - exists []. unfold demo_steps. rewrite app_nil_r. change (arrived (?x ++ ?y)) with (arrived y).
    rewrite arrived_map. by rewrite app_nil_r.
Defined.

(** * What the pump ingests *)

Section pump_facts.
Context {D E Node W R : Type} `{HD : AppDemuxLaws D E} `{WatchOps W R}.
Abbreviation Iface := (Interface Node W).
Implicit Types (i : Iface) (ps : list (u8 * bytes)).
Abbreviation wf := (iface_wf bench_ids DEPTH MAX_BODY).

(** The rounds before [stop.load] returns [true]. *)
Fixpoint rounds (loads : list bool) : nat :=
  match loads with false :: loads' => S (rounds loads') | _ => O end.

(** The payloads the demultiplexer hands over in so many rounds, up to a
    transport error. *)
Fixpoint demux_payloads (n : nat) (t : Duration) (d : D) : list (u8 * bytes) :=
  match n with
  | O => []
  | S n' =>
      let '(r, d', out) := app_recv_next_into t (replicate MAX_ISOTP_PAYLOAD 0%Z) d in
      match r with
      | Ok (Some (from, len)) => (from, take len out) :: demux_payloads n' t d'
      | Ok None | Err (AppIsoTp IsoTimeout) => demux_payloads n' t d'
      | _ => []
      end
  end.

(** How the pump ends, in terms of what it ingested. *)
Definition accepted (r : result IngestOutcome IngestError) : Prop := match r with Ok _ => True | _ => False end.
Definition pump_end (due ps : list (u8 * bytes)) (rs : list (result IngestOutcome IngestError))
    (r : result unit (stop (PumpError (IsoTpError E)))) : Prop :=
  match r with
  | Err (Fails (PumpIngestError e)) =>
      ps `prefix_of` due /\ exists rs', rs = rs' ++ [Err e] /\ Forall accepted rs'
  | Err OutOfFuel | Panic => False
  | _ => ps = due /\ Forall accepted rs
  end.
Definition pumped (due : list (u8 * bytes)) i
    (run : result unit (stop (PumpError (IsoTpError E))) * (BenchNode D * Iface)) : Prop :=
  let '(r, (_, i')) := run in
  wf i' /\ tx_state i' = tx_state i /\
  exists ps rs,
    spec_ingest_all bench_ids DEPTH MAX_BODY ps (rx_abs (rx_state i)) (notify i) =
      (rs, rx_abs (rx_state i'), notify i') /\ pump_end due ps rs r.

Lemma pump_end_cons due p ps rs o r : pump_end due ps rs r -> pump_end (p :: due) (p :: ps) (Ok o :: rs) r.
Proof.
  destruct r as [[]|[[e|needed got|e]| |]|]; simpl; try done.
  1, 3-5: intros [-> Hrs]; split; [done|by constructor].
  intros [Hp (rs' & -> & Hrs)]. split; [by apply prefix_cons|]. exists (Ok o :: rs'). split; [done|by constructor].
Qed.

Lemma pumped_here i n (r : result unit (stop (PumpError (IsoTpError E)))) :
  wf i -> match r with Err (Fails (PumpIngestError _)) | Err OutOfFuel | Panic => False | _ => True end ->
  pumped [] i (r, (n, i)).
Proof.
  intros Hwf Hr. split; [done|]. split; [done|]. exists [], []. split; [done|].
  destruct r as [[]|[[]| |]|]; done.
Qed.

(** C23. The ingress pump: however the demultiplexer answers and whenever [stop] is
    seen, the pump does not panic, it leaves the transmit side alone, and the
    queues and watches are those the specification of [ingest] gives for the
    payloads the demultiplexer delivered, in order; when the pump is stopped or
    ends with a transport error every payload delivered was accepted, and an
    ingest error ends it at the first payload that is refused. *)
Theorem pump_ingests loads t (n : BenchNode D) i :
  wf i -> pumped (demux_payloads (rounds loads) t (demux n)) i (run_ingress_pump loads t (n, i)).
Proof.
  revert n i. induction loads as [|[] loads IH]; intros n i Hwf; [by apply pumped_here..|].
  cbn [run_ingress_pump rounds demux_payloads]. unfold mbind, M_bind, pump_round, bench_recv_one.
  pose proof (app_recv_length t (replicate MAX_ISOTP_PAYLOAD 0%Z) (demux n)) as Hlen.
  pose proof (app_recv_len t (replicate MAX_ISOTP_PAYLOAD 0%Z) (demux n)) as Hin.
  pose proof (app_recv_no_panic t (replicate MAX_ISOTP_PAYLOAD 0%Z) (demux n)) as Hpanic.
  destruct (app_recv_next_into t (replicate MAX_ISOTP_PAYLOAD 0%Z) (demux n)) as [[r d] out]. simpl in Hlen, Hin, Hpanic.
  destruct r as [[[from len]|]|[needed got|[|e]]|]; try done; try (by apply pumped_here); try apply (IH {| demux := d |} i Hwf).
  specialize (Hin _ _ eq_refl). rewrite slice_Some by lia. rewrite drop_0, Nat.sub_0_r. unfold keep_payload.
  pose proof (ingest_refines bench_ids DEPTH MAX_BODY from (take len out) i Hwf) as Hi.
  destruct (ingest bench_ids DEPTH MAX_BODY from (take len out) i) as [ri i1]. destruct Hi as (Hwf1 & Htx & _ & Hspec).
  destruct ri as [o|e|]; simpl.
  - specialize (IH {| demux := d |} i1 Hwf1). simpl in IH.
    destruct (run_ingress_pump loads t ({| demux := d |}, i1)) as [r2 [n2 i2]].
    destruct IH as (Hwf2 & Htx2 & ps & rs & Hall & Hend). split; [done|]. split; [congruence|].
    exists ((from, take len out) :: ps), (Ok o :: rs). split; [|by apply pump_end_cons].
    cbn [spec_ingest_all]. by rewrite <- Hspec, Hall.
  - split; [done|]. split; [done|]. exists [(from, take len out)], [Err e]. split.
    + cbn [spec_ingest_all]. by rewrite <- Hspec.
    + split; [by apply prefix_cons, prefix_nil|]. by exists [].
  - unfold spec_ingest in Hspec. by repeat case_match; simplify_eq.
Qed.
End pump_facts.

(** A demultiplexer that hands over a list of payloads. *)
Record ListDemux := { to_deliver : list (u8 * bytes); handed : list (u8 * bytes) }.

#[global] Instance ListDemux_app : AppDemux ListDemux unit := {
  app_send_to to p _ := modify (fun d => {| to_deliver := to_deliver d; handed := handed d ++ [(to, p)] |});
  app_send_functional_to to p _ := modify (fun d => {| to_deliver := to_deliver d; handed := handed d ++ [(to, p)] |});
  app_recv_next_into _ out d :=
    match to_deliver d with
    | [] => (Ok None, d, out)
    | (from, p) :: rest =>
        let d' := {| to_deliver := rest; handed := handed d |} in
        match copy_at out 0 p with
        | Some out' => (Ok (Some (from, length p)), d', out')
        | None => (Err (AppBufferTooSmall (length p) (length out)), d', out)
        end
    end;
}.

#[global] Instance ListDemux_laws : AppDemuxLaws ListDemux unit.
Proof.
  split; unfold app_recv_next_into; simpl; intros; destruct (to_deliver d) as [|[f p] rest]; try done;
    destruct (copy_at out 0 p) eqn:E; simplify_eq/=; try done.
  - by apply copy_at_length in E.
  - unfold copy_at in E. case_decide; [lia|done].
Qed.

Definition pump_node : BenchNode ListDemux :=
  {| demux := {| to_deliver := [(34, [1; 16; 9]); (34, [9; 9; 9])]%Z; handed := [] |} |}.
Definition pump_iface : Interface ListNode CounterWatch := build_interface (fun n => n) demo_node.
Definition pump_run := run_ingress_pump [false; false; true] 5 (pump_node, pump_iface).

Lemma pump_ingests_witness :
  pumped (demux_payloads 2 5 (demux pump_node)) pump_iface pump_run.
Proof. apply (pump_ingests [false; false; true] 5 pump_node pump_iface). apply interface_new_wf. Defined.

(** The first payload goes to the queue of its type, the unknown id of the second ends
    the pump. *)
Example pump_run_stops :
  pump_run.1 = Err (Fails (PumpIngestError (UnknownId 2313))) /\
  rx_abs (rx_state pump_run.2.2) = [[(34%Z, [9%Z])]; []; []].
Proof. apply conj; vm_compute; reflexivity. Qed.

(** * Connecting succeeds or says why *)

(** An attempt that found no server and ended before the timeout. *)
Definition no_server {C} (a : ConnectAnswer C) : bool :=
  match a with NotFound | ConnectionRefused => true | _ => false end.
Definition retry_early {C} (wait_timeout : Duration) (a : ConnectAnswer C * Duration) : Prop :=
  no_server a.1 = true /\ (a.2 < wait_timeout)%Z.

(** [connect_with_retry] returns the first answer that is not "no server yet":
    a connection, or at once the error that does not go away; while there is no
    server it goes on exactly until an attempt that ends after the timeout, and
    returns the error of that attempt. *)
Theorem connect_with_retry_ends {C} (attempts : list (ConnectAnswer C * Duration)) wait_timeout :
  match connect_with_retry attempts wait_timeout with
  | Err Waiting => Forall (retry_early wait_timeout) attempts
  | Err OutOfFuel | Panic => False
  | r =>
      exists before a t after, attempts = before ++ (a, t) :: after /\ Forall (retry_early wait_timeout) before /\
        match a with
        | Connected c => r = Ok c
        | ConnectFails e => r = Err (Fails (NonRetryable e))
        | NotFound => (wait_timeout <= t)%Z /\ r = Err (Fails (Waited false))
        | ConnectionRefused => (wait_timeout <= t)%Z /\ r = Err (Fails (Waited true))
        end
  end.
Proof.
  induction attempts as [|[a t] attempts IH]; simpl; [constructor|].
  assert (Hr : no_server a = true -> (t < wait_timeout)%Z -> retry_early wait_timeout (a, t)) by done.
  destruct a as [c| | |e]; [by exists [], (Connected c), t, attempts| | |by exists [], (ConnectFails e), t, attempts].
  all: destruct (Z.leb_spec wait_timeout t);
    [by eexists [], _, t, attempts; split_and!; [reflexivity|..]|specialize (Hr eq_refl ltac:(done))].
  all: destruct (connect_with_retry attempts wait_timeout) as [c|[[refused|e]| |]|]; try done;
    try (by constructor); destruct IH as (b & a & t' & af & -> & Hb & Ha);
    eexists (_ :: b), a, t', af; (split; [reflexivity|]; split; [by constructor|done]).
Qed.
