(* ===== verification/Stm32.v ===== *)
(** * Embassy STM32 adapters

    Models [embedded-can/embedded-can-embassy-stm32/src]: [stm32.rs] (the
    transmit and receive halves), [bxcan.rs] (filters packed into the filter
    banks of a bxCAN peripheral) and [fdcan.rs] (filters in the element lists of
    an FDCAN peripheral).  The [embassy_stm32] driver is a set of classes: its
    filter values and the frames they accept, its banks and element lists.  The
    theorems show that both filter configurations accept exactly the frames
    the bus server's rule selects, that the banks counted are the banks
    written, and that no received frame is lost or duplicated. *)
From S2P Require Import Prelude Script UnixWire UnixServer SocketCan.

Inductive EmbassyStm32CanError (BusError : Type) :=
| Bus (e : BusError)
| TooManyFilters
| MaskWidthMismatch
| MaskOutOfRange.
Arguments Bus {BusError} e.
Arguments TooManyFilters {BusError}.
Arguments MaskWidthMismatch {BusError}.
Arguments MaskOutOfRange {BusError}.

(** * [stm32.rs] *)

(** [CanTx::write] may return a frame of lower priority that it took out of a
    full mailbox; [CanRx::read] returns a frame or a bus error. *)
Class EmbassyCan (Tx Rx Frame BusError : Type) := {
  can_write : Frame -> M Tx (stop BusError) (option Frame);
  can_read : M Rx (stop BusError) Frame;
}.

Record EmbassyStm32Tx (Tx : Type) := { stm_tx : Tx }.
Arguments stm_tx {Tx} _.
Arguments Build_EmbassyStm32Tx {Tx} _.
Record EmbassyStm32Rx (Rx Frame : Type) := { stm_rx : Rx; pending : option Frame }.
Arguments stm_rx {Rx Frame} _.
Arguments pending {Rx Frame} _.
Arguments Build_EmbassyStm32Rx {Rx Frame} _ _.

Section stm32.
Context {Tx Rx Frame BusError : Type} `{EmbassyCan Tx Rx Frame BusError}.
Abbreviation Error := (EmbassyStm32CanError BusError).
Abbreviation RX := (EmbassyStm32Rx Rx Frame).

Definition stm32_tx_new (inner : Tx) : EmbassyStm32Tx Tx := {| stm_tx := inner |}.
Definition stm32_rx_new (inner : Rx) : RX := {| stm_rx := inner; pending := None |}.

Definition on_tx {A} (m : M Tx (stop BusError) A) : M (EmbassyStm32Tx Tx) (stop Error) A :=
  map_fails Bus (on_field stm_tx (fun t _ => {| stm_tx := t |}) m).
Definition on_rx {A} (m : M Rx (stop BusError) A) : M RX (stop Error) A :=
  map_fails Bus (on_field stm_rx (fun r s => {| stm_rx := r; pending := pending s |}) m).

Definition stm32_AsyncTxFrameIo : AsyncTxFrameIo (EmbassyStm32Tx Tx) Frame Error :=
  let send frame := on_tx (can_write frame);; mret tt in
  {| atx_send := send; atx_send_timeout frame _ := send frame |}.

Definition stm32_recv : M RX (stop Error) Frame :=
  s ← get;
  match pending s with
  | Some frame => put {| stm_rx := stm_rx s; pending := None |};; mret frame
  | None => env ← on_rx can_read; mret env
  end.

Definition stm32_wait_not_empty : M RX (stop Error) unit :=
  s ← get;
  match pending s with
  | Some _ => mret tt
  | None =>
      env ← on_rx can_read;
      modify (fun s => {| stm_rx := stm_rx s; pending := Some env |})
  end.

Definition stm32_AsyncRxFrameIo : AsyncRxFrameIo RX Frame Error :=
  {| arx_recv := stm32_recv; arx_recv_timeout _ := stm32_recv; arx_wait_not_empty := stm32_wait_not_empty |}.
End stm32.

(** * [bxcan.rs] *)

(** What the driver's filter values accept, by its documentation. *)
Class BxFilters (SId EId Mask16 Mask32 : Type) := {
  m16_frames_with_std_id : SId -> SId -> Mask16;
  m32_frames_with_std_id : SId -> SId -> Mask32;
  m32_frames_with_ext_id : EId -> EId -> Mask32;
  m32_accept_all : Mask32;
  m16_accepts : Mask16 -> Id SId EId -> bool;
  m32_accepts : Mask32 -> Id SId EId -> bool;
}.

(** One bank: two 16-bit masks or one 32-bit mask. *)
Inductive BankConfig (Mask16 Mask32 : Type) := TwoMasks (a b : Mask16) | OneMask (m : Mask32).
Arguments TwoMasks {Mask16 Mask32} a b.
Arguments OneMask {Mask16 Mask32} m.

(** [can::filter::MasterFilters]; [enable_bank] panics on a bank that does not
    exist. *)
Class BxBanks (Banks Mask16 Mask32 : Type) := {
  num_banks : Banks -> nat;
  clear : Banks -> Banks;
  enable_bank : nat -> BankConfig Mask16 Mask32 -> Banks -> option Banks;
  enabled : Banks -> nat -> option (BankConfig Mask16 Mask32);
}.

Section bxcan.
Context {SId EId : Type} `{EmbeddedCan SId EId}.
Context {Mask16 Mask32 Banks BusError : Type} `{BxFilters SId EId Mask16 Mask32} `{BxBanks Banks Mask16 Mask32}.
Abbreviation Error := (EmbassyStm32CanError BusError).
Abbreviation Filter := (IdMaskFilter SId EId).

(** The loop that counts the banks. *)
Fixpoint count_banks (filters : list Filter) (required : nat) (pending_std : bool) :
    result (nat * bool) Error :=
  match filters with
  | [] => Ok (required, pending_std)
  | f :: filters =>
      match filter_id f, filter_mask f with
      | Standard _, StandardMask mask_raw =>
          match StandardId_new mask_raw with
          | None => Err MaskOutOfRange
          | Some _ =>
              if pending_std then count_banks filters (required + 1) false
              else count_banks filters required true
          end
      | Extended _, ExtendedMask mask_raw =>
          match ExtendedId_new mask_raw with
          | None => Err MaskOutOfRange
          | Some _ =>
              let required := if pending_std then required + 1 else required in
              count_banks filters (required + 1) false
          end
      | _, _ => Err MaskWidthMismatch
      end
  end.

(** [bank += 1] on a [u8]. *)
Definition u8_incr (bank : nat) : option nat := if bank <? 255 then Some (bank + 1) else None.

Definition enable (bank : nat) (config : BankConfig Mask16 Mask32) : M Banks Error unit := fun b =>
  match enable_bank bank config b with Some b' => (Ok tt, b') | None => (Panic, b) end.

(** [if let Some((std_id, std_mask)) = pending_std.take() { ..; bank += 1 }]. *)
Definition flush_std (bank : nat) (pending_std : option (SId * SId)) : M Banks Error nat :=
  match pending_std with
  | Some (std_id, std_mask) =>
      enable bank (OneMask (m32_frames_with_std_id std_id std_mask));;
      or_panic (u8_incr bank)
  | None => mret bank
  end.

(** The loop that writes the banks. *)
Fixpoint write_banks (filters : list Filter) (bank : nat) (pending_std : option (SId * SId)) :
    M Banks Error (nat * option (SId * SId)) :=
  match filters with
  | [] => mret (bank, pending_std)
  | f :: filters =>
      match filter_id f, filter_mask f with
      | Standard id, StandardMask mask_raw =>
          mask ← lift (ok_or (StandardId_new mask_raw) MaskOutOfRange);
          match pending_std with
          | Some (id2, mask2) =>
              enable bank (TwoMasks (m16_frames_with_std_id id2 mask2) (m16_frames_with_std_id id mask));;
              bank ← or_panic (u8_incr bank);
              write_banks filters bank None
          | None => write_banks filters bank (Some (id, mask))
          end
      | Extended id, ExtendedMask mask_raw =>
          mask ← lift (ok_or (ExtendedId_new mask_raw) MaskOutOfRange);
          bank ← flush_std bank pending_std;
          enable bank (OneMask (m32_frames_with_ext_id id mask));;
          bank ← or_panic (u8_incr bank);
          write_banks filters bank None
      | _, _ => fail MaskWidthMismatch
      end
  end.

(** [set_filters] on the banks of the receive half. *)
Definition bx_set_filters (filters : list Filter) : M Banks Error unit :=
  banks ← get;
  let bank_limit := num_banks banks in
  match filters with
  | [] => modify clear;; enable 0 (OneMask m32_accept_all)
  | _ =>
      '(required, pending_std) ← lift (count_banks filters 0 false);
      let required := if pending_std : bool then required + 1 else required in
      if bank_limit <? required then fail TooManyFilters
      else
        modify clear;;
        '(bank, pending_std) ← write_banks filters 0 None;
        match pending_std with
        | Some (id, mask) => enable bank (OneMask (m32_frames_with_std_id id mask))
        | None => mret tt
        end
  end.
End bxcan.

(** * [fdcan.rs] *)

(** The filter elements and the lists of the peripheral. *)
Class FdFilters (SId EId StandardFilter ExtendedFilter : Type) := {
  STANDARD_FILTER_MAX : nat;
  EXTENDED_FILTER_MAX : nat;
  std_disable : StandardFilter;
  std_accept_all_into_fifo0 : StandardFilter;
  std_bitmask_fifo0 : u16 -> u16 -> StandardFilter;
  ext_disable : ExtendedFilter;
  ext_accept_all_into_fifo0 : ExtendedFilter;
  ext_bitmask_fifo0 : u32 -> u32 -> ExtendedFilter;
  std_accepts : StandardFilter -> SId -> bool;
  ext_accepts : ExtendedFilter -> EId -> bool;
}.
Class FdProperties (Props StandardFilter ExtendedFilter : Type) := {
  set_standard_filters : list StandardFilter -> Props -> Props;
  set_extended_filters : list ExtendedFilter -> Props -> Props;
  standard_filters : Props -> list StandardFilter;
  extended_filters : Props -> list ExtendedFilter;
}.

Record EmbassyStm32FdProperties (Props : Type) := { props : Props }.
Arguments props {Props} _.
Arguments Build_EmbassyStm32FdProperties {Props} _.

Section fdcan.
Context {SId EId : Type} `{EmbeddedCan SId EId}.
Context {SF EF Props BusError : Type} `{FdFilters SId EId SF EF} `{FdProperties Props SF EF}.
Abbreviation Error := (EmbassyStm32CanError BusError).
Abbreviation Filter := (IdMaskFilter SId EId).

(** The loop over the filters: the arrays and the next free index of each. *)
Fixpoint fill_filters (filters : list Filter) (std : list SF) (ext : list EF) (std_i ext_i : nat) :
    result (list SF * list EF) Error :=
  match filters with
  | [] => Ok (std, ext)
  | f :: filters =>
      match filter_id f, filter_mask f with
      | Standard id, StandardMask mask =>
          if length std <=? std_i then Err TooManyFilters
          else match StandardId_new mask with
               | None => Err MaskOutOfRange
               | Some _ =>
                   let! std := set_at std std_i (std_bitmask_fifo0 (StandardId_as_raw id) mask) in
                   fill_filters filters std ext (std_i + 1) ext_i
               end
      | Extended id, ExtendedMask mask =>
          if length ext <=? ext_i then Err TooManyFilters
          else match ExtendedId_new mask with
               | None => Err MaskOutOfRange
               | Some _ =>
                   let! ext := set_at ext ext_i (ext_bitmask_fifo0 (ExtendedId_as_raw id) mask) in
                   fill_filters filters std ext std_i (ext_i + 1)
               end
      | _, _ => Err MaskWidthMismatch
      end
  end.

Definition install (std : list SF) (ext : list EF) (p : EmbassyStm32FdProperties Props) :
    EmbassyStm32FdProperties Props :=
  {| props := set_extended_filters ext (set_standard_filters std (props p)) |}.

Definition fd_set_filters (filters : list Filter) : M (EmbassyStm32FdProperties Props) Error unit :=
  let std := replicate STANDARD_FILTER_MAX std_disable in
  let ext := replicate EXTENDED_FILTER_MAX ext_disable in
  match filters with
  | [] =>
      std ← or_panic (set_at std 0 std_accept_all_into_fifo0);
      ext ← or_panic (set_at ext 0 ext_accept_all_into_fifo0);
      modify (install std ext)
  | _ =>
      '(std, ext) ← lift (fill_filters filters std ext 0 0);
      modify (install std ext)
  end.
End fdcan.

(** * What the adapters rely on *)

Class CanIdExact (SId EId : Type) `{EmbeddedCan SId EId} := {
  standard_raw_new r i : StandardId_new r = Some i -> StandardId_as_raw i = r;
  extended_raw_new r i : ExtendedId_new r = Some i -> ExtendedId_as_raw i = r;
}.

Definition masked_eq (id filter mask : Z) : bool := (Z.land id mask =? Z.land filter mask)%Z.

Class BxFilterLaws (SId EId Mask16 Mask32 : Type) `{EmbeddedCan SId EId} `{BxFilters SId EId Mask16 Mask32} := {
  m16_std_law i m id : m16_accepts (m16_frames_with_std_id i m) id =
    match id with
    | Standard j => masked_eq (StandardId_as_raw j) (StandardId_as_raw i) (StandardId_as_raw m)
    | Extended _ => false
    end;
  m32_std_law i m id : m32_accepts (m32_frames_with_std_id i m) id =
    match id with
    | Standard j => masked_eq (StandardId_as_raw j) (StandardId_as_raw i) (StandardId_as_raw m)
    | Extended _ => false
    end;
  m32_ext_law i m id : m32_accepts (m32_frames_with_ext_id i m) id =
    match id with
    | Standard _ => false
    | Extended j => masked_eq (ExtendedId_as_raw j) (ExtendedId_as_raw i) (ExtendedId_as_raw m)
    end;
  m32_all_law id : m32_accepts m32_accept_all id = true;
}.
Class BxBankLaws (Banks Mask16 Mask32 : Type) `{BxBanks Banks Mask16 Mask32} := {
  num_banks_u8 b : 0 < num_banks b < 256;
  num_banks_clear b : num_banks (clear b) = num_banks b;
  enabled_clear b i : enabled (clear b) i = None;
  enable_bank_law b i c : i < num_banks b -> exists b', enable_bank i c b = Some b' /\
    num_banks b' = num_banks b /\ forall j, enabled b' j = if j =? i then Some c else enabled b j;
}.

(** * Banks *)

(** How many banks a list of filters takes, by width ([true] is standard): an
    extended filter takes one, two standard filters next to each other share
    one. *)
Fixpoint banks_needed (l : list bool) : nat :=
  match l with
  | [] => 0
  | true :: true :: l => S (banks_needed l)
  | _ :: l => S (banks_needed l)
  end.

Section bx_proofs.
Context {SId EId : Type} `{EmbeddedCan SId EId} `{!CanIdExact SId EId}.
Context {Mask16 Mask32 Banks BusError : Type}.
Context `{!BxFilters SId EId Mask16 Mask32} `{!BxFilterLaws SId EId Mask16 Mask32}.
Context `{!BxBanks Banks Mask16 Mask32} `{!BxBankLaws Banks Mask16 Mask32}.
Abbreviation Error := (EmbassyStm32CanError BusError).
Abbreviation Filter := (IdMaskFilter SId EId).
Abbreviation Config := (BankConfig Mask16 Mask32).
Implicit Types (l : list Filter) (b : Banks) (p : option (SId * SId)) (id : Id SId EId).

Definition filter_error (f : Filter) : option Error :=
  match filter_id f, filter_mask f with
  | Standard _, StandardMask m => match StandardId_new m with Some _ => None | None => Some MaskOutOfRange end
  | Extended _, ExtendedMask m => match ExtendedId_new m with Some _ => None | None => Some MaskOutOfRange end
  | _, _ => Some MaskWidthMismatch
  end.
Fixpoint first_error l : option Error :=
  match l with
  | [] => None
  | f :: l => match filter_error f with Some e => Some e | None => first_error l end
  end.
Definition kinds l : list bool := (fun f => match filter_id f with Standard _ => true | Extended _ => false end) <$> l.

Definition bank_accepts (c : Config) id : bool :=
  match c with
  | TwoMasks a b => m16_accepts a id || m16_accepts b id
  | OneMask m => m32_accepts m id
  end.
Definition banks_accept b id : bool :=
  existsb (fun i => from_option (fun c => bank_accepts c id) false (enabled b i)) (seq 0 (num_banks b)).

(** The banks in the order in which they are written. *)
Fixpoint layout p l : list Config :=
  match l with
  | [] => from_option (fun '(id, mask) => [OneMask (m32_frames_with_std_id id mask)]) [] p
  | f :: l =>
      match filter_id f, filter_mask f with
      | Standard id, StandardMask m =>
          match StandardId_new m, p with
          | Some mask, Some (id2, mask2) =>
              TwoMasks (m16_frames_with_std_id id2 mask2) (m16_frames_with_std_id id mask) :: layout None l
          | Some mask, None => layout (Some (id, mask)) l
          | None, _ => []
          end
      | Extended id, ExtendedMask m =>
          match ExtendedId_new m with
          | Some mask =>
              from_option (fun '(id, mask) => [OneMask (m32_frames_with_std_id id mask)]) [] p ++
              OneMask (m32_frames_with_ext_id id mask) :: layout None l
          | None => []
          end
      | _, _ => []
      end
  end.

Abbreviation kinds_with p l := (if p : bool then true :: kinds l else kinds l).

(** Look at the first filter of a list without errors. *)
Ltac split_filter f :=
  destruct f as [[i|i] [m|m]]; simpl; unfold filter_error; cbn [filter_id filter_mask];
  [destruct (StandardId_new m) as [mask|] eqn:Em; [|done]|done|done|
   destruct (ExtendedId_new m) as [mask|] eqn:Em; [|done]].

Lemma count_banks_err l r pend e : first_error l = Some e -> count_banks l r pend = Err e.
Proof.
  revert r pend. induction l as [|f l IH]; intros r pend; [done|].
  destruct f as [[i|i] [m|m]]; simpl; unfold filter_error; cbn [filter_id filter_mask]; try congruence.
  - destruct (StandardId_new m); [intros; destruct pend; by apply IH|congruence].
  - destruct (ExtendedId_new m); [intros; by apply IH|congruence].
Qed.

Lemma count_banks_spec l r pend :
  first_error l = None -> exists r' pend', count_banks (BusError := BusError) l r pend = Ok (r', pend') /\
    (if pend' then r' + 1 else r') = r + banks_needed (kinds_with pend l).
Proof.
  revert r pend. induction l as [|f l IH]; intros r pend.
  { intros _. exists r, pend. split; [done|]. destruct pend; simpl; lia. }
  split_filter f; intros Hl; destruct pend;
    match goal with |- context [count_banks l ?r' ?p'] => destruct (IH r' p' Hl) as (r'' & p'' & -> & Hr) end;
    exists r'', p''; (split; [done|]); rewrite Hr; simpl; lia.
Qed.

Lemma layout_length l p :
  first_error l = None -> length (layout p l) = banks_needed (kinds_with (match p with Some _ => true | None => false end) l).
Proof.
  revert p. induction l as [|f l IH]; intros p; [by destruct p as [[??]|]|].
  split_filter f; intros Hl; destruct p as [[??]|]; simpl; by rewrite IH.
Qed.

Definition pending_accepts p id : bool :=
  from_option (fun '(i, m) => m32_accepts (m32_frames_with_std_id i m) id) false p.

Lemma layout_accepts l p id :
  first_error l = None ->
  existsb (fun c => bank_accepts c id) (layout p l) = pending_accepts p id || existsb (fun f => filter_match f id) l.
Proof.
  revert p. induction l as [|f l IH]; intros p; [by destruct p as [[??]|]|].
  unfold pending_accepts in *. split_filter f; intros Hl.
  - rewrite <- (standard_raw_new _ _ Em). destruct p as [[i2 m2]|]; simpl; rewrite IH by done; simpl.
    + rewrite !m16_std_law, m32_std_law. destruct id; [by rewrite <- orb_assoc|done].
    + rewrite m32_std_law. by destruct id.
  - rewrite <- (extended_raw_new _ _ Em). rewrite existsb_app. simpl. rewrite IH, m32_ext_law by done.
    destruct p as [[i2 m2]|]; simpl; rewrite ?orb_false_r; by destruct id.
Qed.

(** [written b b' k cs]: [cs] was written from bank [k] on. *)
Definition written b b' (k : nat) (cs : list Config) : Prop :=
  num_banks b' = num_banks b /\
  forall i, enabled b' i = if decide (k <= i < k + length cs) then cs !! (i - k) else enabled b i.

Lemma written_nil b k : written b b k [].
Proof. split; [done|]. intros i. rewrite decide_False by (simpl; lia). done. Qed.

Lemma written_app b b1 b2 k cs1 cs2 :
  written b b1 k cs1 -> written b1 b2 (k + length cs1) cs2 -> written b b2 k (cs1 ++ cs2).
Proof.
  intros [Hn1 H1] [Hn2 H2]. split; [congruence|]. intros i. rewrite H2, H1, length_app.
  repeat case_decide; try lia.
  - rewrite lookup_app_r by lia. f_equal. lia.
  - by rewrite lookup_app_l by lia.
  - done.
Qed.

Lemma enable_written b k c :
  k < num_banks b -> exists b', enable (BusError := BusError) k c b = (Ok tt, b') /\ written b b' k [c].
Proof.
  intros Hk. destruct (enable_bank_law b k c Hk) as (b' & Hb & Hn & He). exists b'. unfold enable.
  rewrite Hb. split; [done|]. split; [done|]. intros i. rewrite He. simpl.
  destruct (Nat.eqb_spec i k) as [->|]; [by rewrite decide_True, Nat.sub_diag by lia|].
  by rewrite decide_False by lia.
Qed.

Lemma u8_incr_bank b k : k < num_banks b -> u8_incr k = Some (k + 1).
Proof. intros Hk. pose proof (num_banks_u8 b). unfold u8_incr. destruct (Nat.ltb_spec k 255); [done|lia]. Qed.

Definition pending_bank p : list Config :=
  from_option (fun '(id, mask) => [OneMask (m32_frames_with_std_id id mask)]) [] p.

Lemma flush_std_written k p b :
  k + length (pending_bank p) <= num_banks b ->
  exists b', flush_std (BusError := BusError) k p b = (Ok (k + length (pending_bank p)), b') /\
    written b b' k (pending_bank p).
Proof.
  destruct p as [[i m]|]; simpl.
  - intros Hk. destruct (enable_written b k (OneMask (m32_frames_with_std_id i m))) as (b' & He & Hw); [lia|].
    exists b'. unfold mbind, M_bind, or_panic. by rewrite He, (u8_incr_bank b k) by lia.
  - intros _. exists b. rewrite Nat.add_0_r. split; [done|apply written_nil].
Qed.

(** The writing loop and the step after it write the layout. *)
Lemma write_banks_layout l k p b :
  first_error l = None -> k + length (layout p l) <= num_banks b ->
  exists b', ('(bank, pending_std) ← write_banks (BusError := BusError) l k p;
              match pending_std with
              | Some (id, mask) => enable bank (OneMask (m32_frames_with_std_id id mask))
              | None => mret tt
              end) b = (Ok tt, b') /\ written b b' k (layout p l).
Proof.
  unfold mbind, M_bind. revert k p b. induction l as [|f l IH]; intros k p b.
  { intros _ Hk. destruct p as [[i m]|]; simpl in *.
    - destruct (enable_written b k (OneMask (m32_frames_with_std_id i m))) as (b1 & He & Hw); [lia|]. eauto.
    - exists b. split; [done|apply written_nil]. }
  split_filter f; intros Hl Hk; unfold mbind, M_bind, lift, or_panic; simpl.
  - destruct p as [[i2 m2]|]; [|by apply IH]. simpl in Hk.
    destruct (enable_written b k (TwoMasks (m16_frames_with_std_id i2 m2) (m16_frames_with_std_id i mask)))
      as (b1 & -> & Hw); [lia|].
    rewrite (u8_incr_bank b k) by lia. destruct (IH (k + 1) None b1) as (b' & Hrun & Hw'); [done| |].
    { destruct Hw as [-> _]. lia. }
    exists b'. split; [exact Hrun|]. by eapply (written_app _ _ _ _ [_]).
  - fold (pending_bank p) in *. set (pre := pending_bank p) in *. rewrite length_app in Hk. simpl in Hk.
    destruct (flush_std_written k p b) as (b0 & -> & Hw0); [fold pre; lia|]. fold pre in Hw0 |- *.
    pose proof (proj1 Hw0) as Hn0.
    destruct (enable_written b0 (k + length pre) (OneMask (m32_frames_with_ext_id i mask))) as (b1 & -> & Hw1); [lia|].
    rewrite (u8_incr_bank b) by lia. pose proof (proj1 Hw1) as Hn1.
    destruct (IH (k + length pre + 1) None b1) as (b' & Hrun & Hw'); [done|lia|].
    exists b'. split; [exact Hrun|]. eapply written_app; [done|]. by eapply (written_app _ _ _ _ [_]).
Qed.

Lemma written_clear_accepts b b' cs :
  written (clear b) b' 0 cs -> length cs <= num_banks b ->
  num_banks b' = num_banks b /\ (forall i, is_Some (enabled b' i) <-> i < length cs) /\
  forall id, banks_accept b' id = existsb (fun c => bank_accepts c id) cs.
Proof.
  intros [Hn He] Hlen. rewrite num_banks_clear in Hn.
  assert (He' : forall i, enabled b' i = cs !! i).
  { intros i. rewrite He, enabled_clear, Nat.sub_0_r. case_decide; [done|].
    symmetry. apply lookup_ge_None. lia. }
  split_and!; [done| |].
  - intros i. rewrite He'. apply lookup_lt_is_Some.
  - intros id. apply Bool.eq_iff_eq_true. unfold banks_accept. rewrite !existsb_exists. split.
    + intros (i & _ & Hi). rewrite He' in Hi. destruct (cs !! i) as [c|] eqn:Hc; [|done].
      exists c. split; [|done]. apply list_elem_of_In. by eapply list_elem_of_lookup_2.
    + intros (c & Hc & Ha). apply list_elem_of_In, list_elem_of_lookup in Hc as [i Hi].
      exists i. rewrite He', Hi. split; [|done]. apply in_seq. apply lookup_lt_Some in Hi. lia.
Qed.

(** C40. bxCAN [set_filters] never panics (it enables only banks that exist,
    and the [u8] index does not overflow).  A list with a filter whose widths
    differ or whose mask is out of range is refused with the error of the
    first such filter, and a list that needs more banks than there are with
    [TooManyFilters], both before any bank is touched.  Otherwise it succeeds;
    exactly the banks the list needs are enabled, and they accept the frames
    that the bus server's rule selects. *)
Theorem bx_set_filters_correct l b :
  let run := bx_set_filters (BusError := BusError) l b in
  match first_error l with
  | Some e => run = (Err e, b)
  | None =>
      if num_banks b <? banks_needed (kinds l) then run = (Err TooManyFilters, b)
      else exists b', run = (Ok tt, b') /\ num_banks b' = num_banks b /\
        (forall i, is_Some (enabled b' i) <-> i < Nat.max 1 (banks_needed (kinds l))) /\
        forall frame : UnixFrame SId EId, banks_accept b' (frame_id frame) = filters_match l frame
  end.
Proof.
  intros run. unfold run, bx_set_filters. clear run. pose proof (num_banks_u8 b) as Hu8. destruct l as [|f0 l0].
  { simpl. destruct (enable_written (clear b) 0 (OneMask m32_accept_all)) as (b' & He & Hw).
    { rewrite num_banks_clear. lia. }
    destruct (written_clear_accepts b b' _ Hw) as (Hn & Hen & Hacc); [simpl; lia|].
    exists b'. split_and!; [exact He|done|done|]. intros frame. rewrite Hacc. simpl. by rewrite m32_all_law. }
  set (l := f0 :: l0). unfold mbind, M_bind, lift, get, modify, fail.
  destruct (first_error l) as [e|] eqn:Hl; [by rewrite (count_banks_err l 0 false e Hl)|].
  destruct (count_banks_spec l 0 false Hl) as (r & pend & -> & ->). rewrite Nat.add_0_l.
  destruct (Nat.ltb_spec (num_banks b) (banks_needed (kinds l))) as [|Hfit]; [done|].
  pose proof (layout_length l None Hl) as Hlen. cbv iota in Hlen.
  destruct (write_banks_layout l 0 None (clear b) Hl) as (b' & Hrun & Hw).
  { rewrite num_banks_clear, Hlen. done. }
  destruct (written_clear_accepts b b' _ Hw) as (Hn & Hen & Hacc); [lia|].
  exists b'. split_and!; [exact Hrun|done| |].
  - intros i. rewrite Hen, Hlen. enough (0 < banks_needed (kinds l)) by lia.
    unfold l. simpl. destruct (filter_id f0), (kinds l0) as [|[] ?]; simpl; lia.
  - intros frame. by rewrite Hacc, layout_accepts.
Qed.
End bx_proofs.

(** * Element lists *)

Class FdFilterLaws (SId EId SF EF : Type) `{EmbeddedCan SId EId} `{FdFilters SId EId SF EF} := {
  filter_max_pos : 0 < STANDARD_FILTER_MAX /\ 0 < EXTENDED_FILTER_MAX;
  std_bitmask_law f m i : std_accepts (std_bitmask_fifo0 f m) i = masked_eq (StandardId_as_raw i) f m;
  std_disable_law i : std_accepts std_disable i = false;
  std_all_law i : std_accepts std_accept_all_into_fifo0 i = true;
  ext_bitmask_law f m i : ext_accepts (ext_bitmask_fifo0 f m) i = masked_eq (ExtendedId_as_raw i) f m;
  ext_disable_law i : ext_accepts ext_disable i = false;
  ext_all_law i : ext_accepts ext_accept_all_into_fifo0 i = true;
}.
Class FdPropertyLaws (Props SF EF : Type) `{FdProperties Props SF EF} := {
  standard_set_standard l p : standard_filters (set_standard_filters l p) = l;
  standard_set_extended l p : standard_filters (set_extended_filters l p) = standard_filters p;
  extended_set_extended l p : extended_filters (set_extended_filters l p) = l;
}.

Section fd_proofs.
Context {SId EId : Type} `{EmbeddedCan SId EId}.
Context {SF EF Props BusError : Type}.
Context `{!FdFilters SId EId SF EF} `{!FdFilterLaws SId EId SF EF}.
Context `{!FdProperties Props SF EF} `{!FdPropertyLaws Props SF EF}.
Abbreviation Error := (EmbassyStm32CanError BusError).
Abbreviation Filter := (IdMaskFilter SId EId).
Implicit Types (l : list Filter) (p : EmbassyStm32FdProperties Props).

Definition std_elem (f : Filter) : option SF :=
  match filter_id f, filter_mask f with
  | Standard i, StandardMask m => Some (std_bitmask_fifo0 (StandardId_as_raw i) m)
  | _, _ => None
  end.
Definition ext_elem (f : Filter) : option EF :=
  match filter_id f, filter_mask f with
  | Extended i, ExtendedMask m => Some (ext_bitmask_fifo0 (ExtendedId_as_raw i) m)
  | _, _ => None
  end.

Definition fd_accepts p (id : Id SId EId) : bool :=
  match id with
  | Standard i => existsb (fun e => std_accepts e i) (standard_filters (props p))
  | Extended i => existsb (fun e => ext_accepts e i) (extended_filters (props p))
  end.

Lemma set_at_next {A} (done : list A) n (x y : A) :
  set_at (done ++ replicate (S n) x) (length done) y = Some ((done ++ [y]) ++ replicate n x).
Proof.
  unfold set_at. rewrite decide_True by (rewrite length_app; simpl; lia). simpl.
  by rewrite insert_app_here, <- app_assoc.
Qed.

Lemma set_at_first {A} n (x y : A) : set_at (replicate (S n) x) 0 y = Some (y :: replicate n x).
Proof. exact (set_at_next [] n x y). Qed.

Lemma fill_filters_spec l (ds : list SF) (de : list EF) ns ne :
  match fill_filters (BusError := BusError) l (ds ++ replicate ns std_disable) (de ++ replicate ne ext_disable)
          (length ds) (length de) with
  | Ok (std, ext) =>
      Forall (fun f => filter_error (BusError := BusError) f = None) l /\
      length (omap std_elem l) <= ns /\ length (omap ext_elem l) <= ne /\
      std = ds ++ omap std_elem l ++ replicate (ns - length (omap std_elem l)) std_disable /\
      ext = de ++ omap ext_elem l ++ replicate (ne - length (omap ext_elem l)) ext_disable
  | Err e =>
      (e = TooManyFilters /\ (ns < length (omap std_elem l) \/ ne < length (omap ext_elem l))) \/
      Exists (fun f => filter_error f = Some e) l
  | Panic => False
  end.
Proof.
  unfold omap. revert ds de ns ne. induction l as [|f l IH]; intros ds de ns ne; simpl.
  { rewrite !Nat.sub_0_r. split_and!; [constructor|lia..|done|done]. }
  destruct f as [[i|i] [m|m]]; unfold filter_error; cbn [filter_id filter_mask]; simpl;
    [|by right; left|by right; left|]; rewrite length_app, length_replicate.
  - destruct (Nat.leb_spec (length ds + ns) (length ds)); [left; split; [done|lia]|].
    destruct (StandardId_new m) eqn:Em; [|right; left; cbn [filter_id filter_mask]; by rewrite Em].
    destruct ns as [|ns]; [lia|]. rewrite set_at_next.
    replace (length ds + 1) with (length (ds ++ [std_bitmask_fifo0 (StandardId_as_raw i) m]))
      by by rewrite length_app.
    specialize (IH (ds ++ [std_bitmask_fifo0 (StandardId_as_raw i) m]) de ns ne). revert IH.
    destruct (fill_filters _ _ _ _ _) as [[std ext]|e|]; [|intros [[? ?]|?]; [left; split; [done|lia]|by right; right]|done].
    intros (Hok & Hs & He & -> & ->). split_and!; [|lia|done| |done].
    + constructor; [cbn [filter_id filter_mask]; by rewrite Em|done].
    + by rewrite <- app_assoc.
  - destruct (Nat.leb_spec (length de + ne) (length de)); [left; split; [done|lia]|].
    destruct (ExtendedId_new m) eqn:Em; [|right; left; cbn [filter_id filter_mask]; by rewrite Em].
    destruct ne as [|ne]; [lia|]. rewrite set_at_next.
    replace (length de + 1) with (length (de ++ [ext_bitmask_fifo0 (ExtendedId_as_raw i) m]))
      by by rewrite length_app.
    specialize (IH ds (de ++ [ext_bitmask_fifo0 (ExtendedId_as_raw i) m]) ns ne). revert IH.
    destruct (fill_filters _ _ _ _ _) as [[std ext]|err|]; [|intros [[? ?]|?]; [left; split; [done|lia]|by right; right]|done].
    intros (Hok & Hs & He & -> & ->). split_and!; [|done|lia|done|].
    + constructor; [cbn [filter_id filter_mask]; by rewrite Em|done].
    + by rewrite <- app_assoc.
Qed.

Lemma existsb_replicate {A} (P : A -> bool) n x : P x = false -> existsb P (replicate n x) = false.
Proof. intros Hx. induction n as [|n IH]; simpl; [done|]. by rewrite Hx. Qed.

Lemma elems_accept l n :
  (forall i, existsb (fun e => std_accepts e i) (omap std_elem l ++ replicate n std_disable) =
     existsb (fun f => filter_match f (Standard i)) l) /\
  (forall j, existsb (fun e => ext_accepts e j) (omap ext_elem l ++ replicate n ext_disable) =
     existsb (fun f => filter_match f (Extended j)) l).
Proof.
  split; intros i; rewrite existsb_app, existsb_replicate, orb_false_r
    by (apply std_disable_law || apply ext_disable_law);
    unfold omap; (induction l as [|f l IH]; [done|]);
    destruct f as [[a|a] [m|m]]; simpl; rewrite ?std_bitmask_law, ?ext_bitmask_law, IH; done.
Qed.

(** FDCAN [set_filters] never panics.  It succeeds exactly when every
    filter is well formed and both element lists have room; the peripheral
    then accepts the frames that the bus server's rule selects.  Otherwise it
    changes nothing and reports [TooManyFilters] or the error of one of the
    filters. *)
Theorem fd_set_filters_correct l p :
  let fits := Forall (fun f => filter_error (BusError := BusError) f = None) l /\
    length (omap std_elem l) <= STANDARD_FILTER_MAX /\ length (omap ext_elem l) <= EXTENDED_FILTER_MAX in
  match fd_set_filters (BusError := BusError) l p with
  | (Ok tt, p') => fits /\
      forall frame : UnixFrame SId EId, fd_accepts p' (frame_id frame) = filters_match l frame
  | (Err e, p') => ~ fits /\ p' = p /\
      ((e = TooManyFilters /\ (STANDARD_FILTER_MAX < length (omap std_elem l) \/
                               EXTENDED_FILTER_MAX < length (omap ext_elem l))) \/
       Exists (fun f => filter_error f = Some e) l)
  | (Panic, _) => False
  end.
Proof.
  destruct filter_max_pos as [Hs He]. intros fits. unfold fd_set_filters.
  destruct l as [|f0 l0].
  { destruct STANDARD_FILTER_MAX as [|ns] eqn:Es; [lia|]. destruct EXTENDED_FILTER_MAX as [|ne] eqn:Ee; [lia|].
    unfold or_panic, mbind, M_bind, modify. rewrite !set_at_first. split.
    - unfold fits. simpl. split_and!; [constructor|lia..].
    - intros frame. unfold fd_accepts, install. cbn [props].
      rewrite standard_set_extended, standard_set_standard, extended_set_extended.
      destruct (frame_id frame); simpl; by rewrite ?std_all_law, ?ext_all_law. }
  set (l := f0 :: l0) in *. unfold lift, mbind, M_bind, modify.
  pose proof (fill_filters_spec l [] [] STANDARD_FILTER_MAX EXTENDED_FILTER_MAX) as Hfill. simpl app in Hfill. revert Hfill.
  destruct (fill_filters l _ _ _ _) as [[std ext]|e|]; [| |done].
  - intros (Hok & Hns & Hne & -> & ->). split; [done|]. intros frame. unfold fd_accepts, install. cbn [props].
    rewrite standard_set_extended, standard_set_standard, extended_set_extended.
    destruct (frame_id frame) as [i|j] eqn:Eid; unfold filters_match; rewrite Eid.
    + by apply (proj1 (elems_accept l _)).
    + by apply (proj2 (elems_accept l _)).
  - intros Herr. split_and!; [|done|done]. intros (Hok & Hns & Hne).
    destruct Herr as [[_ ?]|(f & Hf & Hfe)%Exists_exists]; [lia|].
    rewrite Forall_forall in Hok. specialize (Hok f Hf). congruence.
Qed.
End fd_proofs.

(** * The receive half *)

Section rx_proofs.
Context {Frame BusError : Type}.
Abbreviation Error := (EmbassyStm32CanError BusError).

(** A driver that answers from a script, and one transmit mailbox that keeps
    the frame of the lower key and returns the other. *)
Definition scripted_can : EmbassyCan unit (list (Frame + BusError)) Frame BusError := {|
  can_write _ := mret None;
  can_read rx :=
    match rx with
    | [] => (Err Waiting, [])
    | inl f :: rx => (Ok f, rx)
    | inr e :: rx => (Err (Fails e), rx)
    end;
|}.
#[local] Existing Instance scripted_can.
Abbreviation RX := (EmbassyStm32Rx (list (Frame + BusError)) Frame).

Inductive RxOp := Recv | RecvTimeout (t : Duration) | WaitNotEmpty.

(** What a caller sees: a frame, an error, or a call it gave up on. *)
Definition rx_op (op : RxOp) (s : RX) : list (Frame + Error) * RX :=
  match op with
  | Recv | RecvTimeout _ =>
      match match op with RecvTimeout t => arx_recv_timeout (AsyncRxFrameIo := stm32_AsyncRxFrameIo) t
            | _ => arx_recv (AsyncRxFrameIo := stm32_AsyncRxFrameIo) end s with
      | (Ok f, s') => ([inl f], s')
      | (Err (Fails e), s') => ([inr e], s')
      | (_, s') => ([], s')
      end
  | WaitNotEmpty =>
      match arx_wait_not_empty (AsyncRxFrameIo := stm32_AsyncRxFrameIo) s with
      | (Err (Fails e), s') => ([inr e], s')
      | (_, s') => ([], s')
      end
  end.
Fixpoint rx_ops (ops : list RxOp) (s : RX) : list (Frame + Error) * RX :=
  match ops with
  | [] => ([], s)
  | op :: ops => let '(o1, s1) := rx_op op s in let '(o2, s2) := rx_ops ops s1 in (o1 ++ o2, s2)
  end.

Definition seen (answers : list (Frame + BusError)) : list (Frame + Error) :=
  (fun x => match x with inl f => inl f | inr e => inr (Bus e) end) <$> answers.
Definition frames_in {E} (l : list (Frame + E)) : list Frame :=
  omap (fun x => match x with inl f => Some f | inr _ => None end) l.
Definition errors_in {E} (l : list (Frame + E)) : list E :=
  omap (fun x => match x with inr e => Some e | inl _ => None end) l.

Lemma rx_op_fifo op s :
  exists answers, stm_rx s = answers ++ stm_rx (rx_op op s).2 /\
    option_list (pending s) ++ frames_in (seen answers) =
      frames_in (rx_op op s).1 ++ option_list (pending (rx_op op s).2) /\
    errors_in (seen answers) = errors_in (rx_op op s).1.
Proof.
  destruct s as [rx [f|]]; [exists []; destruct op; simpl; by rewrite ?app_nil_r|].
  destruct rx as [|[f|e] rx].
  - exists []. by destruct op.
  - exists [inl f]. by destruct op.
  - exists [inr e]. by destruct op.
Qed.

(** However [recv], [recv_timeout] and [wait_not_empty] are mixed, failed
    calls and abandoned waits included, the frames the caller gets are those
    the driver delivered, in order, none lost and none twice, but for the one
    that [wait_not_empty] has fetched; every bus error is reported once.  After
    a successful [wait_not_empty] the next [recv] does not wait. *)
Theorem stm32_rx_fifo (ops : list RxOp) (script : list (Frame + BusError)) :
  let '(out, s) := rx_ops ops (stm32_rx_new script) in
  (exists answers, script = answers ++ stm_rx s /\
     frames_in answers = frames_in out ++ option_list (pending s) /\
     Bus <$> errors_in answers = errors_in out) /\
  match arx_wait_not_empty (AsyncRxFrameIo := stm32_AsyncRxFrameIo) s with
  | (Ok _, s') => exists f s'', arx_recv (AsyncRxFrameIo := stm32_AsyncRxFrameIo) s' = (Ok f, s'')
  | _ => True
  end.
Proof.
  assert (Hseen : forall l, frames_in (seen l) = frames_in l /\ errors_in (seen l) = Bus <$> errors_in l).
  { unfold frames_in, errors_in, seen, omap, fmap. induction l as [|[f|e] l [IHf IHe]]; [done| |];
      simpl; by rewrite IHf, IHe. }
  assert (Hops : forall s, exists answers, stm_rx s = answers ++ stm_rx (rx_ops ops s).2 /\
    option_list (pending s) ++ frames_in answers =
      frames_in (rx_ops ops s).1 ++ option_list (pending (rx_ops ops s).2) /\
    Bus <$> errors_in answers = errors_in (rx_ops ops s).1).
  { induction ops as [|op ops' IH]; intros s; [exists []; by rewrite app_nil_r|].
    destruct (rx_op_fifo op s) as (a1 & H1 & Hf1 & He1). cbn [rx_ops].
    destruct (rx_op op s) as [o1 s1]. destruct (IH s1) as (a2 & H2 & Hf2 & He2).
    destruct (rx_ops ops' s1) as [o2 s2]. cbn [fst snd] in *. rewrite (proj1 (Hseen a1)) in Hf1.
    rewrite (proj2 (Hseen a1)) in He1. exists (a1 ++ a2).
    unfold frames_in, errors_in in *. rewrite !omap_app, fmap_app. split_and!.
    - by rewrite H1, H2, app_assoc.
    - by rewrite app_assoc, Hf1, <- !app_assoc, Hf2.
    - by rewrite He1, He2. }
  specialize (Hops (stm32_rx_new script)). destruct (rx_ops ops (stm32_rx_new script)) as [out s].
  split; [exact Hops|]. destruct s as [rx [f|]]; simpl; [by eexists _, _|]. destruct rx as [|[f|e] rx]; simpl; eauto.
Qed.
End rx_proofs.

(** * A driver in memory *)

Abbreviation RawStd := { i : StdId | bool_decide (0 <= std_raw i < 2048)%Z } (only parsing).
Abbreviation RawExt := { i : ExtId | bool_decide (0 <= ext_raw i < 536870912)%Z } (only parsing).

Global Instance RawIds_exact : CanIdExact RawStd RawExt.
Proof. split; intros r i; simpl; destruct (decide _); intros [= <-]; done. Qed.

(** Filter values as predicates. *)
Inductive DemoMask := DemoStd (i m : RawStd) | DemoExt (i m : RawExt) | DemoAll.
Definition demo_accepts (d : DemoMask) (id : Id RawStd RawExt) : bool :=
  match d, id with
  | DemoStd i m, Standard j => masked_eq (StandardId_as_raw j) (StandardId_as_raw i) (StandardId_as_raw m)
  | DemoExt i m, Extended j => masked_eq (ExtendedId_as_raw j) (ExtendedId_as_raw i) (ExtendedId_as_raw m)
  | DemoAll, _ => true
  | _, _ => false
  end.
Global Instance demo_bx_filters : BxFilters RawStd RawExt DemoMask DemoMask := {|
  m16_frames_with_std_id := DemoStd; m32_frames_with_std_id := DemoStd; m32_frames_with_ext_id := DemoExt;
  m32_accept_all := DemoAll; m16_accepts := demo_accepts; m32_accepts := demo_accepts;
|}.
Global Instance demo_bx_filter_laws : BxFilterLaws RawStd RawExt DemoMask DemoMask.
Proof. by split. Qed.

(** Fourteen banks. *)
Definition DemoBanks : Type := nat -> option (BankConfig DemoMask DemoMask).
Global Instance demo_banks : BxBanks DemoBanks DemoMask DemoMask := {|
  num_banks _ := 14; clear _ _ := None;
  enable_bank i c b := if i <? 14 then Some (fun j => if j =? i then Some c else b j) else None;
  enabled b := b;
|}.
Global Instance demo_bank_laws : BxBankLaws DemoBanks DemoMask DemoMask.
Proof.
  split; intros; simpl; try done; [lia|]. destruct (Nat.ltb_spec i 14); [|simpl in *; lia]. by eexists.
Qed.

(** An FDCAN peripheral with 28 and 8 elements. *)
Inductive DemoElem := ElemOff | ElemAll | ElemMask (f m : Z).
Definition elem_accepts (e : DemoElem) (raw : Z) : bool :=
  match e with ElemOff => false | ElemAll => true | ElemMask f m => masked_eq raw f m end.
Global Instance demo_fd_filters : FdFilters RawStd RawExt DemoElem DemoElem := {|
  STANDARD_FILTER_MAX := 28; EXTENDED_FILTER_MAX := 8;
  std_disable := ElemOff; std_accept_all_into_fifo0 := ElemAll; std_bitmask_fifo0 := ElemMask;
  ext_disable := ElemOff; ext_accept_all_into_fifo0 := ElemAll; ext_bitmask_fifo0 := ElemMask;
  std_accepts e i := elem_accepts e (StandardId_as_raw i);
  ext_accepts e i := elem_accepts e (ExtendedId_as_raw i);
|}.
Global Instance demo_fd_filter_laws : FdFilterLaws RawStd RawExt DemoElem DemoElem.
Proof. split; try done. simpl. lia. Qed.
Global Instance demo_fd_properties : FdProperties (list DemoElem * list DemoElem) DemoElem DemoElem := {|
  set_standard_filters l p := (l, p.2); set_extended_filters l p := (p.1, l);
  standard_filters := fst; extended_filters := snd;
|}.
Global Instance demo_fd_property_laws : FdPropertyLaws (list DemoElem * list DemoElem) DemoElem DemoElem.
Proof. by split. Qed.

Definition demo_ext_id : RawExt := {| ext_raw := 0x18DA00F1 |} ↾ I.
Definition demo_filters : list (IdMaskFilter RawStd RawExt) :=
  [demo_filter; demo_filter; demo_filter;
   {| filter_id := Extended demo_ext_id; filter_mask := ExtendedMask 0x1FFF00FF |}; demo_filter].
Definition demo_bad_filters : list (IdMaskFilter RawStd RawExt) :=
  demo_filters ++ [{| filter_id := demo_can_id; filter_mask := StandardMask 2048 |}].

(** Three standard filters, an extended one and a standard one take four banks. *)
Lemma demo_filters_fit :
  first_error (BusError := Z) demo_filters = None /\ banks_needed (kinds demo_filters) = 4.
Proof. done. Qed.

Definition all_clear : DemoBanks := fun _ => None.

Lemma bx_set_filters_correct_witness :
  bx_set_filters (BusError := Z) demo_bad_filters all_clear = (Err MaskOutOfRange, all_clear) /\
  exists b', bx_set_filters (BusError := Z) demo_filters all_clear = (Ok tt, b') /\
    is_Some (enabled b' 3) /\ ~ is_Some (enabled b' 4).
Proof.
  split; [exact (bx_set_filters_correct (BusError := Z) demo_bad_filters all_clear)|].
  destruct (bx_set_filters_correct (BusError := Z) demo_filters all_clear) as (b' & Hrun & _ & Hen & _).
  exists b'. split_and!; [done|by apply Hen; simpl; lia|]. intros H%Hen. simpl in H. lia.
Defined.

Lemma fd_set_filters_correct_witness :
  match fd_set_filters (BusError := Z) demo_bad_filters {| props := ([], []) |} with
  | (Err e, _) => ~ (length (omap std_elem demo_bad_filters) <= 28) \/
      Exists (fun f => filter_error f = Some e) demo_bad_filters
  | _ => False
  end.
Proof.
  pose proof (fd_set_filters_correct (BusError := Z) demo_bad_filters {| props := ([], []) |}) as H.
  simpl in *. destruct H as (_ & _ & [[_ [H|H]]|H]); [lia..|by right].
Defined.

(** A mailbox with one slot, which keeps the frame of higher priority (the
    lower identifier), and returns the one it displaced. *)
Definition one_slot_can : EmbassyCan (option Z) unit Z Z := {|
  can_write f slot :=
    match slot with
    | None => (Ok None, Some f)
    | Some g => if (f <? g)%Z then (Ok (Some g), Some f) else (Err Waiting, slot)
    end;
  can_read := fail Waiting;
|}.

(** [send] drops what [write] returns: a frame that a later one displaced is
    gone, although both calls succeed. *)
Example stm32_send_drops_displaced :
  let send := atx_send (AsyncTxFrameIo := stm32_AsyncTxFrameIo (H := one_slot_can)) in
  (send 5%Z;; send 3%Z) (stm32_tx_new None) = (Ok tt, stm32_tx_new (Some 3%Z)).
Proof. done. Qed.
